(* ===== verification/_CoqProject ===== *)
-Q . S2P
Prelude.v
Arith.v
BitOps.v
Random.v
Cast.v
Getopt.v
Stream.v
XRange.v
Kmp.v
Escape.v
Algorithm.v
PoolReader.v
HashTable.v
HashMap.v
Info.v
BinFeatureSet.v
TestPool.v
Entropy.v
Cmi.v
MtpQueue.v
Parallel.v
QueuePool.v
Future.v
Binarize.v
Grid.v
MedianInBin.v
OptimalSplit.v
GridCreator.v
Score.v
PoolWriter.v
ScoreSpec.v
CachingScorer.v
Selection.v
Main.v
Runs.v
