(* ===== verification/Prelude.v ===== *)
(** * CMICOT: a verification development

    CMICOT selects the features of a table that say most about its label.  It reads
    a pool of numeric columns (or of bins), turns every column into binary features,
    and enables one feature after the other by the greedy score "Conditional Mutual
    Information with Complementary and Opposing Teams".  The program is C++ under
    [src/cmicot], on the libraries [src/library] and [src/util].

    ** The program and how its parts interact

    [main] (cmicot/cmicot/feature_selection.cpp) parses the command line with
    [NLastGetopt], reads a pool with [ReadPool], and binarizes each column with one
    of the six [IBinarizer]s of the grid creator (or takes the columns as bins).  The
    bins of all features form one [TBinFeatureSet]; a [TBackground] marks those that
    are enabled.  A selection evaluates the disabled bins with a scorer, in parallel;
    the scorer runs the maximize and minimize phases, each step of which asks a
    [TCmiCalculator] for conditional mutual informations; that calculator keeps four
    [TEntropyCalculator]s, which count 64-bit words in a vector or in a [yhash].

<<
    Main ── Getopt ── Cast
     ├── PoolReader, PoolWriter ── Stream ── Cast ── BitOps
     ├── Binarize ── GridCreator ── Grid, MedianInBin, OptimalSplit
     └── Selection ── CachingScorer ── Score ── Cmi ── Entropy ── HashMap ── HashTable
          MtpQueue ── Parallel ──────────┘              └── BinFeatureSet
>>

    ** Files

    - [Prelude]: failures, the monad [outcome], machine integers, containers indexed
      with a check, lemmas on lists and loops.
    - [Arith]: the interface of floating point, its IEEE binary64 and its exact
      instance, and the order the searches for an extremum rely on.
    - [BitOps]: util/generic/bitops.h/.cpp.
    - [Random]: util/random: the linear congruential engines of fast.h, the Mersenne
      twisters, [Uniform] and [Shuffle]; the interface [TRandGen] with its law
      [TRandGenOk] is what the last two use of an engine.
    - [TestPool]: cmicot/lib/test_pool_gen.h/.cpp, the features the unit tests draw.
    - [Cast]: util/string/cast.cc, integers and the file's part of [double]s.
    - [Escape]: util/string/escape.h/.cpp, hex.h/.cpp: literals of C and hexadecimal texts.
    - [Kmp]: util/string/kmp.h/.cpp: the search of a pattern in a text and in a stream.
    - [Getopt]: library/getopt/small.  [TOpts] is the table, [TOptsParser] the state of
      the parser ([Pos_] is [ArgPos_]), [TOptsParseResult_Init] a complete parse.
    - [Stream]: util/stream and the reads of util/system/file.cpp: the interface
      [IInputStream] with its laws [InputStreamOk], and [TBufferedOutput].
    - [XRange], [Algorithm]: util/generic/xrange.h and algorithm.h.
    - [HashTable], [HashMap]: util/generic/hash.h, hash_set.h, hash_primes.h; the
      interface [MapImpl] is what the counters use of a hash map.
    - [BinFeatureSet]: cmicot/lib/bin.h, bin_feature_set.h/.cpp.
    - [Info]: no code; entropy and conditional mutual information of finite samples.
    - [Entropy]: cmicot/lib/entropy.h/.cpp, entropy_calculator.h/.cpp.
    - [Cmi]: cmicot/lib/cmi_calculator.h/.cpp, mutual_information_calculator.h/.cpp.
    - [MtpQueue]: util/thread/queue.cpp: the queue with its mutexes and condition
      variables.  [wstep] is a worker in [DoExecute], [cstep] a caller of [Add], [sstep] the
      owner in [Stop]; [step] interleaves them and wakes who a signal wakes.
    - [Parallel]: library/threading/algorithm, cmicot/lib/algorithm.h, and the tasks on the
      queue, whose actions its [step] interleaves.
    - [QueuePool]: no code; the runs of [MtpQueue] are runs of the pool of [Parallel].
    - [Future]: library/threading/future and util/system/event.cpp: [TFutureState] is the
      shared state of a future and its promise, a method is a program of atomic actions,
      [step] interleaves the threads that run them.
    - [PoolReader], [PoolWriter]: cmicot/lib/io.h/.cpp, util/string/iterator.h, join.h.
    - [Binarize]: cmicot/lib/binarize.h/.cpp.
    - [Grid], [MedianInBin], [OptimalSplit], [GridCreator]: library/grid_creator.
    - [Score], [ScoreSpec]: cmicot/lib/bin_score.h/.cpp, miximizers.h/.cpp,
      bin_score_normalize.h/.cpp, feature_score.h/.cpp, and what they compute.
    - [CachingScorer]: cmicot/lib/caching_bin_scorer.h/.cpp.
    - [Selection]: cmicot/lib/selection.h/.cpp.
    - [Main]: cmicot/lib/options.h/.cpp, cmicot/cmicot/feature_selection.cpp.
    - [Runs]: no code; what whole runs of [Main] do on bad input, and one run after another.

    ** How code becomes a definition

    A class is a [Record] of its members, a method a function from the record to a
    record or a result, named as in the code.  A method that can fail returns
    [outcome]: a result, an exception with the values its message prints, a failed
    [Y_VERIFY], or undefined behaviour.  An index outside of a container is the
    outcome [Undef], so that a theorem that a function returns is also a theorem that
    it accesses no memory outside of its containers.  A failed run keeps no state,
    except where the code has passed something on before: [Selection] returns the
    features reported before the failure with the outcome.  Integers are [Z]; where
    the code relies on or runs into the width of a type, the wrap is written out
    ([u64], [to_i], [to_int]) and the overflow of a signed operation is [UOverflow].
    A template of a floating point type is a function of an [Arith].

    ** What the theorems show

    - Information.  The bins added to a calculator are the bits of its words
      ([Entropy.AddBin_encodes]); both frequency counters give the entropy of the sample
      ([Entropy.entropy_calculator_correct]), and [TCmiCalculator] the conditional
      mutual information of the bins themselves, which is not negative
      ([Cmi.cmi_calculator_correct]); it is the four-entropy specification in any
      arithmetic ([Cmi.cmi_calculator_refines_entropy]).  With 63 bins the words of
      [GetEntropyWithExtraBin] span the whole type ([Entropy.extra_bin_wraps]).
    - Scores and selection.  [ScoreSpec.GetBinScore_correct] and
      [ScoreSpec.GetBinScore_errors] describe the greedy steps and every error;
      [CachingScorer.caching_scorer_correct] relates the cached evaluation to a fresh
      one; [Selection.FastFeatureSelection_correct], [FastFeatureSelection_greedy] and
      [FeatureSelection_permutation] say which features are selected, in which order,
      and that a valid input cannot fail.
    - Parallelism.  [Parallel.pool_schedule_independent]: the threads can always make a
      step, and every complete schedule gives the result of the tasks in order.
      Below it, [MtpQueue.mtp_queue_safe] and [MtpQueue.mtp_queue_live] show for the queue
      itself that the locking is right, that no job and no wake-up is lost, and that [Stop]
      returns after the jobs; [QueuePool.queue_refines_pool] connects the two.  There a job is
      one step of the queue, since nothing that a task does touches it, and the pool makes
      the actions of that task at once, as one of its interleavings.
      [Future.futures_call_once] and [Future.no_lost_wakeup] hold in every interleaving:
      a future is set once, its callbacks are called once, no waiter is forgotten.
      [Future.waiters_correct] is about [WaitAll] and [WaitAny], and
      [Future.async_results] justifies how [Parallel] and [PoolReader] join tasks.
    - Containers.  [HashMap.yhash_refines_map] is a refinement of finite maps by the
      chained table, [BinFeatureSet.background_refines_set] one of finite sets.
    - Borders.  [GridCreator.BestSplit_correct] proves the contract [binarizer_ok] for
      all six binarizers over exact numbers; [OptimalSplit.BestSplit_safe] shows that
      every mode of the dynamic programming ends within its arrays, in any
      arithmetic, roundings and NaNs included.
    - Text.  Integers are parsed exactly, with every error of a malformed or too large
      text ([Cast.IntFromString_correct]), and printed integers are read back
      ([Cast.FormatInt_roundtrip]).  [PoolReader.ReadPool_correct] gives the outcome of
      reading any text, whatever the number of threads.  [Escape.EscapeC_roundtrip]:
      [UnescapeC] inverts [EscapeC]; [Kmp.SubStr_correct]: the search is right and in range.
    - Command line.  [Getopt.getopt_terminates]: the parser ends on every [argv], with a
      result or an exit code.  [Getopt.getopt_command_line]: a command line of the usual
      grammar gives its options to the handlers in order and its other arguments to the
      program.  [Main.options_valid]: options that are accepted are in range.
    - Random numbers.  [Random.Mersenne_correct]: the twisters, which overwrite their state
      in place, give the words of the recurrence; [Random.LcgAdvance_correct]: advancing is
      iterating; [Random.Shuffle_correct]: a shuffle is a permutation and each one comes from
      one list of choices; [TestPool.MakeRandomFeatures_correct]: the shape of a test pool.
    - Whole program.  [Main.main_selects]: from the arguments and the text of a
      well-formed pool to the features printed and the exit code 0.  [Runs.main_errors]: every
      other end before the selection.  [Runs.main_just_binarizes]: a run on the files that
      [--just-binarize] wrote selects from the features that were binarized.

    Every property with hypotheses is applied to a concrete input after it.

    ** Bounds and fuel

    Loops that the code writes as loops over a range or a container are recursions on
    the list of its elements.  The other loops have fuel, and a lemma shows that it
    suffices, so that running out never decides a result:
    - reading a stream: the number of characters left, plus one, since every pass takes
      one or ends ([InputStreamOk]);
    - the command line ([parse_fuel]): one pass for every character of [argv] and one
      for every option, which is reported once more when it has a default value; each
      call of [Next] moves the position or the offset in it;
    - [dac_fuel]: twice the number of weights, since the boxes on the stack are disjoint;
    - the binary searches and the loops of [BitOps]: the width or the distance, which
      every step decreases;
    - the queue of the greedy binarizer: one pass for each border;
    - the search of a pattern: the values of the failure function are below their arguments,
      so that the length of the pattern bounds each fall back; [UnescapeC]: the length.
    The runs of [MtpQueue] have no fuel: [energy] bounds the steps that are left in a state.
    One loop need not end: [GenUniform] draws words until it accepts one.  [draws] bounds the
    words of a call, and the theorems assume that one of as many words is in the lower half
    of its range ([low_words]), all of which are accepted.
    Sizes of vectors are assumed to fit their types ([2^31] for the [int]s the program
    indexes with, [2^64] for [size_t]); the theorems say where.

    ** Parameters: code outside of the repository's own sources

    - [log] of libm, an argument of [ieee_arith]; the exact instance uses [ln];
    - the hash of a [float] and the maximal size of a vector, arbitrary functions;
    - which of equal elements [std::priority_queue] gives first: [pick], any choice that
      satisfies [pick_top];
    - [double]s as text: the class [DoubleConversion]; the round trip of a pool needs
      only that a printed number is read back, and assumes it by name;
    - files and the standard input: the record [world]; a read may give any positive
      part of what is left;
    - the exit code of the version option.

    [std::sort] on values without NaN is the sorted permutation; on equal values of an
    arithmetic type it is unique, so nothing is left open.

    ** Not modelled, and why

    - The adaptive output buffer, skipping and reading all of a stream, compression and
      the errors of the operating system during a read: unused by the program, or
      effects without a result it could act on.
    - Options unknown to the table when they are allowed, and the text of the help: the
      program allows none, and the text is output only.
    - The stack trace of the terminate handler, and the text of messages: an exception
      carries the values its message prints.
    - Seeding from the entropy of the system or from a stream, the normal distribution and
      most conversions of random words to reals.
    - Of the thread queue the restart in the child of a fork, a failure to create a thread,
      and the elastic queue, which the program does not use; jobs are opaque to it.
    - The script of sample pools, the tests and benchmarks, the other parts of util the
      program does not call, and the vendored libraries of [src/contrib]. *)
From Stdlib Require Export ZArith Lia.
From stdpp Require Export prelude sorting.

Declare Scope cmicot_scope.
Delimit Scope cmicot_scope with cmicot.
Open Scope Z_scope.

(** ** Failures

    The program reports errors in three ways, and C++ adds a fourth: [Y_ENSURE]
    and [ythrow] raise a [yexception] with a message, [Y_VERIFY] aborts the
    process, and an access outside a container is undefined behaviour. *)

(** The errors of a command line: [TUsageException]. *)
Inductive usage_error : Type :=
| UsageNoProgram
| UsageUnknownChar (c : Z)
| UsageUnknownName (name : list Z)
| UsageNoArgument
| UsageNeedsArgument
| UsageFreeExactly (n : Z)
| UsageFreeAtLeast (n : Z)
| UsageFreeAtMost (n : Z)
| UsageRequired
| UsageValue
| UsageHandler
| UsageBadName.

(** The exceptions, each with the values its message prints. *)
Inductive exn : Type :=
| ERange (index count : Z)
| ENotEnoughBins (required : Z)
| EEvalIndex (index count : Z)
| ENotBinary
| EPoolMapSize (pool map : Z)
| EParse (token : list Z) (line : Z)
| EColumns (line columns first_line first_columns : Z)
| EBatchColumns (columns other : Z)
| EMapDuplicate (bin : Z)
| EMapMissing (bin : Z)
| EKeyNotFound
| EEnsurePositive (value : Z)
| ELength (size : Z)
| ECannotSplit
| EFutureNotSet
| EFutureAlreadySet
| EFutureTimeout
| EFutureNotInitialized
| EZeroLength
| EFileError
| ESplitFields
| ENoRoom
| EFromStringEmpty
| EFromStringPlus
| EFromStringMinus
| EFromStringSymbol (symbol : option Z) (pos : Z)
| EFromStringOverflow
| EFromStringUnknown
| EQueueNotStarted
| EEmptyPattern
| EHexSymbol (symbol : Z)
| EHexLength
| EUsage (u : usage_error)
| EConf.

(** The [Y_VERIFY] checks, and [std::terminate] for an exception that leaves a
    thread. *)
Inductive verify_check : Type :=
| VBinSize (values bin : Z)
| VBinCount (limit : Z)
| VNoCandidate
| VUnreachable
| VConversion
| VUndo
| VRandomRange
| VTerminate.

(** Undefined behaviour: an index or iterator outside its container, the
    dereference of an end iterator, a shift wider than its type, a conversion of a
    value outside the range of its type, the overflow of a signed operation, a loop that
    is still running after the passes a model allows it. *)
Inductive undefined : Type :=
| UIndex (index size : Z)
| UDeref
| UShift (amount : Z)
| UConvert
| UOverflow
| UEndless.

Inductive failure : Type :=
| Throw (e : exn)
| Abort (v : verify_check)
| Undef (u : undefined).

(** The result of running a piece of the program. *)
Inductive outcome (A : Type) : Type :=
| Ret (a : A)
| Fail (f : failure).
Arguments Ret {A} a.
Arguments Fail {A} f.

#[export] Instance outcome_ret : MRet outcome := @Ret.
#[export] Instance outcome_bind : MBind outcome := λ A B (k : A → outcome B) m,
  match m with Ret a => k a | Fail f => Fail f end.
#[export] Instance outcome_fmap : FMap outcome := λ A B (g : A → B) m,
  match m with Ret a => Ret (g a) | Fail f => Fail f end.

(** [Y_ENSURE(cond, e)]. *)
Definition ensure (b : bool) (e : exn) : outcome () :=
  if b then Ret () else Fail (Throw e).

(** [Y_VERIFY(cond, v)]. *)
Definition verify (b : bool) (v : verify_check) : outcome () :=
  if b then Ret () else Fail (Abort v).

(** ** Laws of the error monad *)

Lemma bind_Ret {A B} (a : A) (k : A → outcome B) : (Ret a ≫= k) = k a.
Proof. reflexivity. Qed.

Lemma bind_Fail {A B} f (k : A → outcome B) : (Fail f ≫= k) = Fail f.
Proof. reflexivity. Qed.

Lemma bind_Ret_inv {A B} (m : outcome A) (k : A → outcome B) b :
  (m ≫= k) = Ret b ↔ ∃ a, m = Ret a ∧ k a = Ret b.
Proof.
  destruct m as [a|f]; cbn; [|by split; [|intros (? & ? & ?)]].
  split; [eauto|]. by intros (a' & [= <-] & ?).
Qed.

Lemma bind_assoc {A B C} (m : outcome A) (k : A → outcome B) (h : B → outcome C) :
  ((m ≫= k) ≫= h) = (m ≫= λ a, k a ≫= h).
Proof. by destruct m. Qed.

Lemma ensure_Ret b e : ensure b e = Ret () ↔ b = true.
Proof. by destruct b. Qed.

Lemma verify_Ret b v : verify b v = Ret () ↔ b = true.
Proof. by destruct b. Qed.

(** Decompose a successful run into its successful parts. *)
Ltac inv_ret :=
  repeat match goal with
  | H : (_ ≫= _) = Ret _ |- _ =>
      apply bind_Ret_inv in H as (? & ? & ?)
  | H : ensure _ _ = Ret _ |- _ => apply ensure_Ret in H
  | H : verify _ _ = Ret _ |- _ => apply verify_Ret in H
  | H : Fail _ = Ret _ |- _ => discriminate H
  | x : () |- _ => destruct x
  end; simplify_eq/=.

(** ** Vectors

    [yvector<T>] is a list; sizes and indexes are [Z].  Reading or writing
    outside the vector is undefined behaviour. *)

(** [v.size()] and [v.ysize()]. *)
Definition vsize {A} (l : list A) : Z := Z.of_nat (length l).

(** [v[i]]. *)
Definition vat {A} (l : list A) (i : Z) : outcome A :=
  if i <? 0 then Fail (Undef (UIndex i (vsize l)))
  else match l !! Z.to_nat i with
       | Some a => Ret a
       | None => Fail (Undef (UIndex i (vsize l)))
       end.

(** [v[i] = x]. *)
Definition vset {A} (l : list A) (i : Z) (x : A) : outcome (list A) :=
  if (0 <=? i) && (i <? vsize l) then Ret (<[Z.to_nat i := x]> l)
  else Fail (Undef (UIndex i (vsize l))).

(** [v.front()] and [v.back()]. *)
Definition vfront {A} (l : list A) : outcome A :=
  match l with x :: _ => Ret x | [] => Fail (Undef UDeref) end.
Definition vback {A} (l : list A) : outcome A :=
  match list.last l with Some x => Ret x | None => Fail (Undef UDeref) end.

(** [std::fill(v.begin() + b, v.begin() + e, x)]. *)
Definition fill_range {A} (l : list A) (b e : Z) (x : A) : list A :=
  imap (λ i y, if (b <=? Z.of_nat i) && (Z.of_nat i <? e) then x else y) l.

Definition vfill {A} (l : list A) (b e : Z) (x : A) : outcome (list A) :=
  if (0 <=? b) && (b <=? e) && (e <=? vsize l) then Ret (fill_range l b e x)
  else Fail (Undef (UIndex e (vsize l))).

(** [v.resize(n, x)]. *)
Definition vresize {A} (l : list A) (n : Z) (x : A) : list A :=
  take (Z.to_nat n) l ++ replicate (Z.to_nat n - length l) x.

Arguments vsize : simpl never.
Arguments vat : simpl never.
Arguments vset : simpl never.
Arguments vfill : simpl never.
Arguments fill_range : simpl never.
Arguments vresize : simpl never.

(** A loop over a vector whose body may fail. *)
Fixpoint mfold {A S} (f : S → A → outcome S) (s : S) (l : list A) : outcome S :=
  match l with
  | [] => Ret s
  | x :: l => s' ← f s x; mfold f s' l
  end.

(** A loop that collects the results of its body. *)
Fixpoint mmap {A B} (f : A → outcome B) (l : list A) : outcome (list B) :=
  match l with
  | [] => Ret []
  | x :: l => y ← f x; ys ← mmap f l; Ret (y :: ys)
  end.

(** ** Lemmas on vectors *)

Lemma vsize_nonneg {A} (l : list A) : 0 ≤ vsize l.
Proof. unfold vsize. lia. Qed.

Lemma vsize_nil {A} : vsize (@nil A) = 0.
Proof. reflexivity. Qed.

Lemma vsize_cons {A} (x : A) l : vsize (x :: l) = 1 + vsize l.
Proof. unfold vsize; cbn; lia. Qed.

Lemma vsize_pos {A} (l : list A) : l ≠ [] → 0 < vsize l.
Proof. destruct l; [done|]. rewrite vsize_cons. pose proof (vsize_nonneg l). lia. Qed.

Lemma vsize_app {A} (l k : list A) : vsize (l ++ k) = vsize l + vsize k.
Proof. unfold vsize. rewrite length_app. lia. Qed.

Lemma vsize_snoc {A} (l : list A) x : vsize (l ++ [x]) = vsize l + 1.
Proof. by rewrite vsize_app. Qed.

Lemma vat_Ret {A} (l : list A) i x :
  vat l i = Ret x ↔ 0 ≤ i ∧ l !! Z.to_nat i = Some x.
Proof.
  unfold vat. destruct (Z.ltb_spec i 0); [split; [done|lia]|].
  destruct (l !! Z.to_nat i); naive_solver.
Qed.

Lemma vat_in_range {A} (l : list A) i :
  0 ≤ i < vsize l → ∃ x, vat l i = Ret x ∧ l !! Z.to_nat i = Some x.
Proof.
  intros H. unfold vsize in H.
  destruct (lookup_lt_is_Some_2 l (Z.to_nat i)) as [x Hx]; [lia|].
  exists x. rewrite vat_Ret. split; [|done]. split; [lia|done].
Qed.

Lemma vat_bounds {A} (l : list A) i x : vat l i = Ret x → 0 ≤ i < vsize l.
Proof.
  rewrite vat_Ret. intros [? ?%lookup_lt_Some]. unfold vsize. lia.
Qed.

Lemma vset_Ret {A} (l : list A) i x k :
  vset l i x = Ret k ↔ 0 ≤ i < vsize l ∧ k = <[Z.to_nat i := x]> l.
Proof.
  unfold vset. destruct (Z.leb_spec 0 i), (Z.ltb_spec i (vsize l)); cbn; naive_solver lia.
Qed.

Lemma length_fill_range {A} (l : list A) b e x : length (fill_range l b e x) = length l.
Proof. apply length_imap. Qed.

Lemma lookup_fill_range {A} (l : list A) b e x i :
  fill_range l b e x !! i =
    (λ y, if (b <=? Z.of_nat i) && (Z.of_nat i <? e) then x else y) <$> l !! i.
Proof. unfold fill_range. by rewrite list_lookup_imap. Qed.

Lemma vsize_fill_range {A} (l : list A) b e x : vsize (fill_range l b e x) = vsize l.
Proof. unfold vsize. by rewrite length_fill_range. Qed.

Lemma vfill_Ret {A} (l : list A) b e x k :
  vfill l b e x = Ret k ↔ 0 ≤ b ≤ e ∧ e ≤ vsize l ∧ k = fill_range l b e x.
Proof.
  unfold vfill.
  destruct (Z.leb_spec 0 b), (Z.leb_spec b e), (Z.leb_spec e (vsize l)); cbn; naive_solver lia.
Qed.

Lemma vsize_vresize {A} (l : list A) n x : 0 ≤ n → vsize (vresize l n x) = n.
Proof.
  intros. unfold vsize, vresize. rewrite length_app, length_take, length_replicate. lia.
Qed.

Lemma vsize_Permutation {A} (l k : list A) : l ≡ₚ k → vsize l = vsize k.
Proof. intros H. unfold vsize. by rewrite H. Qed.

#[export] Instance vsize_perm_proper {A} : Proper (Permutation ==> eq) (@vsize A).
Proof. intros l k. apply vsize_Permutation. Qed.

Lemma vsize_insert {A} (l : list A) i x : vsize (<[i := x]> l) = vsize l.
Proof. unfold vsize. by rewrite length_insert. Qed.

Lemma lookup_ge_vsize {A} (l : list A) i : vsize l ≤ Z.of_nat i → l !! i = None.
Proof. intros. apply lookup_ge_None_2. unfold vsize in *. lia. Qed.

(** The sum over a list of which one element changes. *)
Lemma sum_list_insert {B} (g : B → nat) (l : list B) i t t' :
  l !! i = Some t → (sum_list_with g (<[i := t']> l) + g t = sum_list_with g l + g t')%nat.
Proof.
  revert i. induction l as [|a l IH]; intros [|i] Hi; [done|done|cbn in *; simplify_eq; lia|].
  specialize (IH i Hi).
  change (<[S i := t']> (a :: l)) with (a :: <[i := t']> l). cbn [sum_list_with]. lia.
Qed.

(** Filters by a boolean test. *)
Lemma filter_none {A} (P : A → Prop) `{!∀ x, Decision (P x)} (l : list A) :
  (∀ x, x ∈ l → ¬ P x) → filter P l = [].
Proof.
  induction l as [|x l IH]; intros Hl; [done|].
  rewrite filter_cons_False by (apply Hl; set_solver). apply IH. set_solver.
Qed.

Lemma filter_all {A} (P : A → Prop) `{!∀ x, Decision (P x)} (l : list A) :
  (∀ x, x ∈ l → P x) → filter P l = l.
Proof.
  induction l as [|x l IH]; intros Hl; [done|].
  rewrite filter_cons_True by (apply Hl; set_solver). f_equal. apply IH. set_solver.
Qed.

Lemma filter_iff_in {A} (P Q : A → Prop) `{!∀ x, Decision (P x)} `{!∀ x, Decision (Q x)} (l : list A) :
  (∀ x, x ∈ l → P x ↔ Q x) → filter P l = filter Q l.
Proof.
  induction l as [|x l IH]; intros Hl; [done|]. rewrite !filter_cons.
  assert (P x ↔ Q x) as HPQ by (apply Hl; set_solver).
  rewrite IH by (intros; apply Hl; set_solver).
  repeat case_decide; tauto.
Qed.

Lemma vsize_filter_bool {A} (f : A → bool) (l : list A) :
  vsize (filter (λ x, f x = true) l) + vsize (filter (λ x, f x = false) l) = vsize l.
Proof.
  induction l as [|x l IH]; [done|]. rewrite !filter_cons, vsize_cons.
  destruct (f x); repeat case_decide; try done; rewrite vsize_cons; lia.
Qed.

(** A sorted vector is monotone in the index. *)
Lemma sorted_lookup (l : list Z) i j x y :
  StronglySorted Z.le l → (i ≤ j)%nat → l !! i = Some x → l !! j = Some y → x ≤ y.
Proof.
  intros Hs. revert i j. induction Hs as [|z l Hs IH Hz]; intros i j Hij Hi Hj; [done|].
  destruct i as [|i], j as [|j]; cbn in *; simplify_eq; [lia| |lia|].
  - eapply (Forall_lookup_1 (Z.le x) l j y); done.
  - eapply (IH i j); [lia|done|done].
Qed.

(** ** Lemmas on loops *)

Lemma mfold_app {A S} (f : S → A → outcome S) s l k :
  mfold f s (l ++ k) = (s' ← mfold f s l; mfold f s' k).
Proof.
  revert s. induction l as [|x l IH]; intros s; cbn; [done|].
  destruct (f s x); cbn; [apply IH|done].
Qed.

(** Invariant rule: a loop whose body succeeds and preserves [I] succeeds. *)
Lemma mfold_inv {A S} (I : list A → S → Prop) (f : S → A → outcome S) (l : list A) s :
  I [] s →
  (∀ done x rest s, l = done ++ x :: rest → I done s →
     ∃ s', f s x = Ret s' ∧ I (done ++ [x]) s') →
  ∃ s', mfold f s l = Ret s' ∧ I l s'.
Proof.
  intros H0 Hstep.
  assert (∀ pre post s, l = pre ++ post → I pre s →
    ∃ s', mfold f s post = Ret s' ∧ I l s') as Hgen; [|by apply (Hgen [] l)].
  intros pre post. revert pre. induction post as [|x post IH]; intros pre s1 Hl HI; cbn.
  - exists s1. split; [done|]. by rewrite Hl, app_nil_r.
  - destruct (Hstep pre x post s1 Hl HI) as (s2 & -> & HI2). cbn.
    apply (IH (pre ++ [x])); [|done]. by rewrite <- app_assoc.
Qed.

(** A loop over consecutive indices. *)
Lemma mfold_seqZ {S} (I : Z → S → Prop) (f : S → Z → outcome S) a n s :
  0 ≤ n → I a s →
  (∀ i s, a ≤ i < a + n → I i s → ∃ s', f s i = Ret s' ∧ I (i + 1) s') →
  ∃ s', mfold f s (seqZ a n) = Ret s' ∧ I (a + n) s'.
Proof.
  intros Hn H0 Hstep.
  destruct (mfold_inv (λ dn s, I (a + vsize dn) s) f (seqZ a n) s) as (s' & Hs' & HI).
  - by rewrite Z.add_0_r.
  - intros dn x rest s1 Hl HI.
    assert (Hat : seqZ a n !! length dn = Some x) by (rewrite Hl; by apply list_lookup_middle).
    apply lookup_seqZ in Hat as [-> Hx]. unfold vsize in *.
    destruct (Hstep (a + Z.of_nat (length dn)) s1) as (s2 & Hs2 & HI2); [lia|done|].
    exists s2. split; [done|]. rewrite length_app. cbn. by replace (a + Z.of_nat (length dn + 1)) with (a + Z.of_nat (length dn) + 1) by lia.
  - exists s'. split; [done|]. unfold vsize in HI. rewrite length_seqZ in HI. by rewrite Z2Nat.id in HI.
Qed.

(** Partial-correctness rule: if the loop returns, the invariant holds. *)
Lemma mfold_partial {A S} (I : list A → S → Prop) (f : S → A → outcome S) (l : list A) s s' :
  mfold f s l = Ret s' →
  I [] s →
  (∀ done x rest s s', l = done ++ x :: rest → I done s → f s x = Ret s' →
     I (done ++ [x]) s') →
  I l s'.
Proof.
  intros Hf H0 Hstep.
  assert (∀ pre post s, l = pre ++ post → I pre s → mfold f s post = Ret s' → I l s')
    as Hgen; [|by apply (Hgen [] l s)].
  intros pre post. revert pre. induction post as [|x post IH]; intros pre s1 Hl HI; cbn.
  - intros [= ->]. by rewrite Hl, app_nil_r.
  - intros Hr. inv_ret. eapply (IH (pre ++ [x])); [|by eapply Hstep|done].
    by rewrite <- app_assoc.
Qed.

Lemma mfold_ext {A S} (f g : S → A → outcome S) s l :
  (∀ s x, x ∈ l → f s x = g s x) → mfold f s l = mfold g s l.
Proof.
  revert s. induction l as [|x l IH]; intros s H; cbn; [done|].
  rewrite H by set_solver. destruct (g s x); cbn; [|done]. apply IH. set_solver.
Qed.

Lemma mmap_Ret {A B} (f : A → outcome B) (g : A → B) l :
  (∀ x, x ∈ l → f x = Ret (g x)) → mmap f l = Ret (g <$> l).
Proof.
  induction l as [|x l IH]; intros H; cbn; [done|].
  rewrite H by set_solver. cbn. rewrite IH by set_solver. done.
Qed.

Lemma mmap_Forall2 {A B} (f : A → outcome B) l ys :
  mmap f l = Ret ys ↔ Forall2 (λ x y, f x = Ret y) l ys.
Proof.
  revert ys. induction l as [|x l IH]; intros ys; cbn.
  - split; [intros; simplify_eq; constructor|by inversion 1].
  - split.
    + intros. inv_ret. constructor; [done|]. by apply IH.
    + inversion 1 as [|? y ? ys' Hx Hl]; subst. rewrite Hx. cbn.
      apply IH in Hl. by rewrite Hl.
Qed.

Lemma mmap_total {A B} (f : A → outcome B) l :
  (∀ x, x ∈ l → ∃ y, f x = Ret y) → ∃ ys, mmap f l = Ret ys.
Proof.
  induction l as [|x l IH]; intros H; cbn; [eauto|].
  destruct (H x) as [y ->]; [set_solver|]. cbn.
  destruct IH as [ys ->]; [set_solver|]. cbn. eauto.
Qed.

(** When every failing pass of a loop fails the same way, so does the loop. *)
Lemma mmap_Fail {A B} (f : A → outcome B) l e :
  (∀ x, x ∈ l → (∃ y, f x = Ret y) ∨ f x = Fail e) →
  (∃ x, x ∈ l ∧ f x = Fail e) → mmap f l = Fail e.
Proof.
  induction l as [|x l IH]; intros Hall (z & Hz & Hf); [by apply not_elem_of_nil in Hz|]. cbn.
  destruct (Hall x) as [[y Hy]|Hy]; [set_solver| |by rewrite Hy].
  rewrite Hy. cbn. apply elem_of_cons in Hz as [->|Hz]; [congruence|].
  rewrite IH; [done| |eauto]. intros. apply Hall. set_solver.
Qed.

(** The result is an exception. *)
Definition is_throw {A} (r : outcome A) : Prop := ∃ e, r = Fail (Throw e).

Lemma is_throw_bind {A B} (m : outcome A) (k : A → outcome B) : is_throw m → is_throw (m ≫= k).
Proof. intros [e ->]. by eexists. Qed.

(** A loop whose passes keep the invariant [I] or throw when [Bad] holds. *)
Lemma mfold_or_throw {A S} (I : list A → S → Prop) (Bad : Prop) (f : S → A → outcome S) (l : list A) s :
  I [] s →
  (∀ done x rest s, l = done ++ x :: rest → I done s →
     (∃ s', f s x = Ret s' ∧ I (done ++ [x]) s') ∨ is_throw (f s x) ∧ Bad) →
  (∃ s', mfold f s l = Ret s' ∧ I l s') ∨ is_throw (mfold f s l) ∧ Bad.
Proof.
  intros H0 Hstep.
  assert (∀ pre post s, l = pre ++ post → I pre s →
    (∃ s', mfold f s post = Ret s' ∧ I l s') ∨ is_throw (mfold f s post) ∧ Bad) as Hgen; [|by apply (Hgen [] l)].
  intros pre post. revert pre. induction post as [|x post IH]; intros pre s1 Hl HI; cbn.
  - left. exists s1. split; [done|]. by rewrite Hl, app_nil_r.
  - destruct (Hstep pre x post s1 Hl HI) as [(s2 & -> & HI2)|[Ht Hbad]]; cbn.
    + apply (IH (pre ++ [x])); [|done]. by rewrite <- app_assoc.
    + right. split; [|done]. by apply is_throw_bind.
Qed.

(** ** Fixed-width unsigned integers *)

Definition u32 (z : Z) : Z := z mod 2 ^ 32.
Definition u64 (z : Z) : Z := z mod 2 ^ 64.

Lemma u64_small z : 0 ≤ z < 2 ^ 64 → u64 z = z.
Proof. apply Z.mod_small. Qed.

Lemma u64_range z : 0 ≤ u64 z < 2 ^ 64.
Proof. apply Z.mod_pos_bound. lia. Qed.

Lemma u32_range z : 0 ≤ u32 z < 2 ^ 32.
Proof. apply Z.mod_pos_bound. lia. Qed.

(** Bits as integers. *)
Lemma b2z_cases b : Z.b2z b = 0 ∧ b = false ∨ Z.b2z b = 1 ∧ b = true.
Proof. destruct b; cbn; auto. Qed.

(** Appending a bit to a number is injective. *)
Lemma cons_bit_inj a b x y : 2 * a + Z.b2z x = 2 * b + Z.b2z y → a = b ∧ x = y.
Proof. destruct x, y; cbn; intros; split; try done; lia. Qed.

Create Rewrite HintDb vsize.
#[export] Hint Rewrite @vsize_nil @vsize_cons @vsize_app @vsize_fill_range
  @vsize_insert : vsize.
#[export] Hint Resolve vsize_nonneg : core.

(** Normalise sizes, then linear arithmetic. *)
Ltac vlia := autorewrite with vsize in *; unfold vsize in *; lia.
