(* ===== verification/Arith.v ===== *)
(** * Floating-point arithmetic

    The program computes with [double] and [float].  [Arith] is the interface
    the models of the numeric components use.  It has two implementations:

    - [ieee_arith]: IEEE 754 binary64 with rounding to nearest even, on the
      [spec_float] of the standard library; [log] of libm is its argument;
    - [real_arith]: the real numbers, for the statements about exact entropies.

    [ArithOrder] states what the algorithms that select an extremum use of the
    comparison: a strict weak order on the values that are not NaN. *)
From Stdlib Require Import SpecFloat Reals Lra.
From S2P Require Import Prelude.

Class Arith (D : Type) : Type := {
  a_add : D → D → D;
  a_sub : D → D → D;
  a_mul : D → D → D;
  a_div : D → D → D;
  a_opp : D → D;
  a_ltb : D → D → bool;
  (** [==] *)
  a_eqb : D → D → bool;
  (** The conversion to an integer, toward zero; none without a value. *)
  a_trunc : D → option Z;
  (** Conversion of an integer. *)
  a_ofZ : Z → D;
  (** The literal [m * 10 ^ e]. *)
  a_lit : Z → Z → D;
  (** [log] of libm. *)
  a_log : D → D;
  (** [M_LN2_INV] *)
  a_ln2_inv : D;
}.

Infix "⊞" := a_add (at level 50, left associativity) : cmicot_scope.
Infix "⊟" := a_sub (at level 50, left associativity) : cmicot_scope.
Infix "⊠" := a_mul (at level 40, left associativity) : cmicot_scope.
Infix "⊘" := a_div (at level 40, left associativity) : cmicot_scope.
Infix "≺" := a_ltb (at level 70) : cmicot_scope.
Open Scope cmicot_scope.

Section Derived.
  Context `{Arith D}.

(** [x > y], [std::greater] *)
Definition a_gtb (x y : D) : bool := y ≺ x.

(** [double Log2(double value)] of [util/generic/ymath.h] *)
Definition Log2 (value : D) : D := a_log value ⊠ a_ln2_inv.

End Derived.

(** ** The comparison of numbers *)

Class ArithOrder (D : Type) `{Arith D} : Type := {
  a_num : D → Prop;
  a_ltb_irrefl x : (x ≺ x) = false;
  a_ltb_trans x y z : (x ≺ y) = true → (y ≺ z) = true → (x ≺ z) = true;
  a_ltb_ntrans x y z : a_num x → a_num y → a_num z →
    (x ≺ y) = false → (y ≺ z) = false → (x ≺ z) = false;
  a_eqb_iff x y : a_num x → a_num y →
    a_eqb x y = true ↔ (x ≺ y) = false ∧ (y ≺ x) = false;
}.

Section Order.
  Context `{ArithOrder D}.

Lemma a_ltb_asym x y : (x ≺ y) = true → (y ≺ x) = false.
Proof.
  intros Hxy. destruct (y ≺ x) eqn:Hyx; [|done].
  by rewrite <- (a_ltb_irrefl x), (a_ltb_trans x y x).
Qed.

(** A number above one of two ordered numbers is above the smaller one. *)
Lemma a_ltb_le_trans x y z : a_num x → a_num y → a_num z →
  (x ≺ y) = true → (z ≺ y) = false → (x ≺ z) = true.
Proof.
  intros Hx Hy Hz Hxy Hzy. destruct (x ≺ z) eqn:Hxz; [done|].
  by rewrite (a_ltb_ntrans x z y) in Hxy.
Qed.

Lemma a_le_ltb_trans x y z : a_num x → a_num y → a_num z →
  (y ≺ x) = false → (y ≺ z) = true → (x ≺ z) = true.
Proof.
  intros Hx Hy Hz Hyx Hyz. destruct (x ≺ z) eqn:Hxz; [done|].
  by rewrite (a_ltb_ntrans y x z) in Hyz.
Qed.

End Order.

(** ** IEEE 754 *)

(** [float] and [double] values. *)
Module IEEE.

Section Format.
  (** Precision and maximal exponent: 24, 128 for [float] and 53, 1024 for
      [double]. *)
  Variables prec emax : Z.
  Variable libm_log : spec_float → spec_float.

Definition of_Z (z : Z) : spec_float := binary_normalize prec emax z 0 false.

(** A decimal literal.  The program's literals have a numerator and a power of
    ten below [2 ^ prec], so the quotient is the correctly rounded literal. *)
Definition literal (m e : Z) : spec_float :=
  if 0 <=? e then of_Z (m * 10 ^ e)
  else SFdiv prec emax (of_Z m) (of_Z (10 ^ (- e))).

(** [M_LOG2E], nearest value of the format (0x3FF71547652B82FE for [double]). *)
Definition log2e : spec_float :=
  binary_normalize prec emax 6497320848556798 (-52) false.

Definition trunc (x : spec_float) : option Z :=
  match x with
  | S754_zero _ => Some 0
  | S754_finite s m e =>
      let v := if 0 <=? e then Zpos m * 2 ^ e else Zpos m `div` 2 ^ (- e) in
      Some (if s then - v else v)
  | _ => None
  end.

Definition arith : Arith spec_float := {|
  a_add := SFadd prec emax;
  a_sub := SFsub prec emax;
  a_mul := SFmul prec emax;
  a_div := SFdiv prec emax;
  a_opp := SFopp;
  a_ltb := SFltb;
  a_eqb := SFeqb;
  a_trunc := trunc;
  a_ofZ := of_Z;
  a_lit := literal;
  a_log := libm_log;
  a_ln2_inv := log2e;
|}.

End Format.

(** *** The order of non-NaN values *)

Definition is_num (x : spec_float) : Prop := x ≠ S754_nan.

(** A key that orders the values lexicographically. *)
Definition key (x : spec_float) : Z * Z * Z :=
  match x with
  | S754_infinity true => (-2, 0, 0)
  | S754_finite true m e => (-1, - e, Z.neg m)
  | S754_zero _ | S754_nan => (0, 0, 0)
  | S754_finite false m e => (1, e, Z.pos m)
  | S754_infinity false => (2, 0, 0)
  end.

Definition key_lt (k1 k2 : Z * Z * Z) : Prop :=
  let '(a1, b1, c1) := k1 in let '(a2, b2, c2) := k2 in
  a1 < a2 ∨ a1 = a2 ∧ (b1 < b2 ∨ b1 = b2 ∧ c1 < c2).

Lemma SFltb_key x y :
  SFltb x y = true ↔ is_num x ∧ is_num y ∧ key_lt (key x) (key y).
Proof.
  unfold SFltb, SFcompare, is_num, key_lt.
  destruct x as [[]|[]| |[] m1 e1], y as [[]|[]| |[] m2 e2]; cbn;
    try (change (PosDef.Pos.compare_cont Eq m1 m2) with (m1 ?= m2)%positive);
    try (destruct (Z.compare_spec e1 e2));
    try (destruct (Pos.compare_spec m1 m2)); cbn;
    (split; [intros; repeat split; first [done|lia]|intros (? & ? & ?); first [done|lia]]).
Qed.

Lemma SFltb_key_false x y : is_num x → is_num y →
  SFltb x y = false ↔ ¬ key_lt (key x) (key y).
Proof.
  intros Hx Hy. rewrite <- not_true_iff_false, SFltb_key. tauto.
Qed.

Lemma SFeqb_key x y : is_num x → is_num y →
  SFeqb x y = true ↔ ¬ key_lt (key x) (key y) ∧ ¬ key_lt (key y) (key x).
Proof.
  unfold SFeqb, SFcompare, is_num, key_lt.
  destruct x as [[]|[]| |[] m1 e1], y as [[]|[]| |[] m2 e2]; cbn;
    try (change (PosDef.Pos.compare_cont Eq m1 m2) with (m1 ?= m2)%positive);
    try (destruct (Z.compare_spec e1 e2));
    try (destruct (Pos.compare_spec m1 m2)); cbn; intros;
    (split; [intros; repeat split; first [done|lia]|intros (? & ?); first [done|lia]]).
Qed.

Definition order (prec emax : Z) (libm_log : spec_float → spec_float) :
  @ArithOrder spec_float (arith prec emax libm_log).
Proof.
  refine {| a_num := is_num |}; cbn.
  - intros x. apply not_true_iff_false. rewrite SFltb_key. intros (_ & _ & Hk).
    destruct (key x) as [[a b] c]. cbn in Hk. lia.
  - intros x y z. rewrite !SFltb_key. intros (? & ? & Hxy) (? & ? & Hyz).
    repeat split; [done..|].
    destruct (key x) as [[? ?] ?], (key y) as [[? ?] ?], (key z) as [[? ?] ?].
    cbn in *. lia.
  - intros x y z Hx Hy Hz. rewrite !SFltb_key_false by done. intros Hxy Hyz.
    destruct (key x) as [[? ?] ?], (key y) as [[? ?] ?], (key z) as [[? ?] ?].
    cbn in *. lia.
  - intros x y Hx Hy. by rewrite SFeqb_key, !SFltb_key_false.
Defined.

End IEEE.

(** [double] arithmetic over a given [log]. *)
Definition double_arith (libm_log : spec_float → spec_float) : Arith spec_float :=
  IEEE.arith 53 1024 libm_log.

(** ** Exact arithmetic *)

Definition Rltb (x y : R) : bool := if Rlt_dec x y then true else false.

Lemma Rltb_true x y : Rltb x y = true ↔ (x < y)%R.
Proof. unfold Rltb. by destruct (Rlt_dec x y). Qed.

Lemma Rltb_false x y : Rltb x y = false ↔ (y <= x)%R.
Proof. unfold Rltb. destruct (Rlt_dec x y); split; intros; (lra || done). Qed.

Definition Reqb (x y : R) : bool := if Req_dec_T x y then true else false.

Lemma Reqb_true x y : Reqb x y = true ↔ x = y.
Proof. unfold Reqb. by destruct (Req_dec_T x y). Qed.

Definition Rtrunc (x : R) : Z :=
  if Rltb x 0 then - Int_part (- x) else Int_part x.

Definition real_literal (m e : Z) : R :=
  if 0 <=? e then IZR (m * 10 ^ e) else (IZR m / IZR (10 ^ (- e)))%R.

#[export] Instance real_arith : Arith R := {|
  a_add := Rplus;
  a_sub := Rminus;
  a_mul := Rmult;
  a_div := Rdiv;
  a_opp := Ropp;
  a_ltb := Rltb;
  a_eqb := Reqb;
  a_trunc := λ x, Some (Rtrunc x);
  a_ofZ := IZR;
  a_lit := real_literal;
  a_log := ln;
  a_ln2_inv := (/ ln 2)%R;
|}.

#[export] Instance real_order : ArithOrder R.
Proof.
  refine {| a_num := λ _, True |}; cbn.
  - intros x. apply Rltb_false. lra.
  - intros x y z. rewrite !Rltb_true. lra.
  - intros x y z _ _ _. rewrite !Rltb_false. lra.
  - intros x y _ _. rewrite Reqb_true, !Rltb_false. lra.
Defined.

(** ** [float] and [double]

    A [float] is converted to a [double] without loss and a [double] to a [float]
    with rounding. *)
Class Conv (F D : Type) : Type := {
  widen : F → D;
  narrow : D → F;
}.

(** IEEE: the values of [float] are values of [double]. *)
Definition to_float (x : spec_float) : spec_float :=
  match x with
  | S754_finite s m e => binary_normalize 24 128 (if s then Zneg m else Zpos m) e s
  | _ => x
  end.

Definition ieee_conv : Conv spec_float spec_float := {| widen := λ x, x; narrow := to_float |}.

#[export] Instance real_conv : Conv R R := {| widen := λ x, x; narrow := λ x, x |}.

(** [float] arithmetic. *)
Definition float_arith (libm_logf : spec_float → spec_float) : Arith spec_float :=
  IEEE.arith 24 128 libm_logf.
