(* ===== verification/BitOps.v ===== *)
(** * Bit operations: util/generic/bitops.h and bitops.cpp

    The operations on machine words, as functions on [Z] with their wrap-around,
    and what they compute in terms of single bits.  A word of [w] bits is an
    integer in [[0, 2^w)]; the templates of the header are functions of [w], one
    of 8, 16, 32 and 64.  A shift by the width of its (promoted) type or more and
    the builtins at zero are undefined behaviour.  The branch of the header for
    inline assembly is not modelled: it is the rotation of the generic branch as
    single instructions. *)
From S2P Require Import Prelude.

(** ** Words *)

(** Conversion to an unsigned type of [w] bits. *)
Definition uw (w z : Z) : Z := z mod 2 ^ w.

(** The widths the templates are used at. *)
Definition word_width (w : Z) : bool := bool_decide (w ∈ [8; 16; 32; 64]).

(** The width of a type after the integer promotions. *)
Definition promoted (w : Z) : Z := Z.max 32 w.

(** [v >> s] and [v << s] at a type of [w] bits. *)
Definition shr (w v s : Z) : outcome Z :=
  if s <? promoted w then Ret (Z.shiftr v s) else Fail (Undef (UShift s)).
Definition shl (w v s : Z) : outcome Z :=
  if s <? promoted w then Ret (uw w (Z.shiftl v s)) else Fail (Undef (UShift s)).

(** [~v] at 64 bits. *)
Definition not64 (v : Z) : Z := u64 (Z.lnot v).

(** ** Rounding up to a power of two *)

(** [TClp2Helper<N, T>::Calc]: the recursion over [N / 2] down to zero. *)
Fixpoint clp2_calc (w : Z) (N : positive) (t : Z) : Z :=
  let prev := match N with
              | xH => uw w (t - 1)
              | xO half | xI half => clp2_calc w half t
              end in
  Z.lor prev (Z.shiftr prev (Zpos N)).

Definition TClp2Helper (w N t : Z) : Z :=
  match N with Zpos N => clp2_calc w N t | _ => uw w (t - 1) end.

Definition FastClp2 (w t : Z) : Z := uw w (1 + TClp2Helper w (w `div` 8 * 4) t).

Definition IsPowerOf2 (v : Z) : bool := (0 <? v) && (Z.land v (v - 1) =? 0).

(** ** Swaps of neighbouring groups of bits *)

Definition SwapOddEvenBits (v : Z) : Z :=
  Z.lor (Z.land (Z.shiftr v 1) 0x5555555555555555)
        (u64 (Z.shiftl (Z.land v 0x5555555555555555) 1)).
Definition SwapBitPairs (v : Z) : Z :=
  Z.lor (Z.land (Z.shiftr v 2) 0x3333333333333333)
        (u64 (Z.shiftl (Z.land v 0x3333333333333333) 2)).
Definition SwapNibbles (v : Z) : Z :=
  Z.lor (Z.land (Z.shiftr v 4) 0x0F0F0F0F0F0F0F0F)
        (u64 (Z.shiftl (Z.land v 0x0F0F0F0F0F0F0F0F) 4)).
Definition SwapOddEvenBytes (v : Z) : Z :=
  Z.lor (Z.land (Z.shiftr v 8) 0x00FF00FF00FF00FF)
        (u64 (Z.shiftl (Z.land v 0x00FF00FF00FF00FF) 8)).
Definition SwapBytePairs (v : Z) : Z :=
  Z.lor (Z.land (Z.shiftr v 16) 0x0000FFFF0000FFFF)
        (u64 (Z.shiftl (Z.land v 0x0000FFFF0000FFFF) 16)).
Definition SwapByteQuads (v : Z) : Z :=
  Z.lor (Z.shiftr v 32) (u64 (Z.shiftl v 32)).

(** [ReverseBytes] at 8, 16, 32 and 64 bits. *)
Definition ReverseBytes8 (t : Z) : Z := t.
Definition ReverseBytes16 (t : Z) : Z := uw 16 (SwapOddEvenBytes t).
Definition ReverseBytes32 (t : Z) : Z := uw 32 (SwapBytePairs (SwapOddEvenBytes t)).
Definition ReverseBytes64 (t : Z) : Z := SwapByteQuads (SwapOddEvenBytes t).

(** [ReverseBits] at 8, 16, 32 and 64 bits. *)
Definition ReverseBits8 (t : Z) : Z :=
  uw 8 (SwapNibbles (SwapBitPairs (SwapOddEvenBits t))).
Definition ReverseBits16 (t : Z) : Z :=
  uw 16 (SwapOddEvenBytes (SwapNibbles (SwapBitPairs (SwapOddEvenBits t)))).
Definition ReverseBits32 (t : Z) : Z :=
  uw 32 (SwapBytePairs (SwapOddEvenBytes (SwapNibbles (SwapBitPairs (SwapOddEvenBits t))))).
Definition ReverseBits64 (t : Z) : Z :=
  SwapByteQuads (SwapBytePairs (SwapOddEvenBytes (SwapNibbles (SwapBitPairs
    (SwapOddEvenBits t))))).

(** The overload the compiler chooses at [w] bits. *)
Definition ReverseBits (w t : Z) : Z :=
  if w =? 8 then ReverseBits8 t
  else if w =? 16 then ReverseBits16 t
  else if w =? 32 then ReverseBits32 t
  else ReverseBits64 t.

(** ** Masks *)

Definition WORD_MASK : list Z :=
  [0x0; 0x1; 0x3; 0x7; 0xF; 0x1F; 0x3F; 0x7F; 0xFF; 0x1FF; 0x3FF; 0x7FF; 0xFFF; 0x1FFF; 0x3FFF;
   0x7FFF; 0xFFFF; 0x1FFFF; 0x3FFFF; 0x7FFFF; 0xFFFFF; 0x1FFFFF; 0x3FFFFF; 0x7FFFFF; 0xFFFFFF;
   0x1FFFFFF; 0x3FFFFFF; 0x7FFFFFF; 0xFFFFFFF; 0x1FFFFFFF; 0x3FFFFFFF; 0x7FFFFFFF; 0xFFFFFFFF;
   0x1FFFFFFFF; 0x3FFFFFFFF; 0x7FFFFFFFF; 0xFFFFFFFFF; 0x1FFFFFFFFF; 0x3FFFFFFFFF; 0x7FFFFFFFFF;
   0xFFFFFFFFFF; 0x1FFFFFFFFFF; 0x3FFFFFFFFFF; 0x7FFFFFFFFFF; 0xFFFFFFFFFFF; 0x1FFFFFFFFFFF;
   0x3FFFFFFFFFFF; 0x7FFFFFFFFFFF; 0xFFFFFFFFFFFF; 0x1FFFFFFFFFFFF; 0x3FFFFFFFFFFFF;
   0x7FFFFFFFFFFFF; 0xFFFFFFFFFFFFF; 0x1FFFFFFFFFFFFF; 0x3FFFFFFFFFFFFF; 0x7FFFFFFFFFFFFF;
   0xFFFFFFFFFFFFFF; 0x1FFFFFFFFFFFFFF; 0x3FFFFFFFFFFFFFF; 0x7FFFFFFFFFFFFFF; 0xFFFFFFFFFFFFFFF;
   0x1FFFFFFFFFFFFFFF; 0x3FFFFFFFFFFFFFFF; 0x7FFFFFFFFFFFFFFF; 0xFFFFFFFFFFFFFFFF].

Definition INVERSE_WORD_MASK : list Z :=
  [not64 0x0; not64 0x1; not64 0x3; not64 0x7; not64 0xF; not64 0x1F; not64 0x3F; not64 0x7F;
   not64 0xFF; not64 0x1FF; not64 0x3FF; not64 0x7FF; not64 0xFFF; not64 0x1FFF; not64 0x3FFF;
   not64 0x7FFF; not64 0xFFFF; not64 0x1FFFF; not64 0x3FFFF; not64 0x7FFFF; not64 0xFFFFF;
   not64 0x1FFFFF; not64 0x3FFFFF; not64 0x7FFFFF; not64 0xFFFFFF; not64 0x1FFFFFF;
   not64 0x3FFFFFF; not64 0x7FFFFFF; not64 0xFFFFFFF; not64 0x1FFFFFFF; not64 0x3FFFFFFF;
   not64 0x7FFFFFFF; not64 0xFFFFFFFF; not64 0x1FFFFFFFF; not64 0x3FFFFFFFF; not64 0x7FFFFFFFF;
   not64 0xFFFFFFFFF; not64 0x1FFFFFFFFF; not64 0x3FFFFFFFFF; not64 0x7FFFFFFFFF;
   not64 0xFFFFFFFFFF; not64 0x1FFFFFFFFFF; not64 0x3FFFFFFFFFF; not64 0x7FFFFFFFFFF;
   not64 0xFFFFFFFFFFF; not64 0x1FFFFFFFFFFF; not64 0x3FFFFFFFFFFF; not64 0x7FFFFFFFFFFF;
   not64 0xFFFFFFFFFFFF; not64 0x1FFFFFFFFFFFF; not64 0x3FFFFFFFFFFFF; not64 0x7FFFFFFFFFFFF;
   not64 0xFFFFFFFFFFFFF; not64 0x1FFFFFFFFFFFFF; not64 0x3FFFFFFFFFFFFF; not64 0x7FFFFFFFFFFFFF;
   not64 0xFFFFFFFFFFFFFF; not64 0x1FFFFFFFFFFFFFF; not64 0x3FFFFFFFFFFFFFF;
   not64 0x7FFFFFFFFFFFFFF; not64 0xFFFFFFFFFFFFFFF; not64 0x1FFFFFFFFFFFFFFF;
   not64 0x3FFFFFFFFFFFFFFF; not64 0x7FFFFFFFFFFFFFFF; not64 0xFFFFFFFFFFFFFFFF].

Definition MaskLowerBits (bits : Z) : outcome Z := vat WORD_MASK bits.
Definition MaskLowerBits_skip (bits skipbits : Z) : outcome Z :=
  mask ← MaskLowerBits bits; shl 64 mask skipbits.
Definition InverseMaskLowerBits (bits : Z) : outcome Z := vat INVERSE_WORD_MASK bits.
Definition InverseMaskLowerBits_skip (bits skipbits : Z) : outcome Z :=
  mask ← MaskLowerBits_skip bits skipbits; Ret (not64 mask).

(** [ReverseBits(v, bits)]: the amount of the shift is an unsigned 64-bit number. *)
Definition ReverseBits_bits (w v bits : Z) : outcome Z :=
  inverse ← InverseMaskLowerBits bits;
  mask ← MaskLowerBits bits;
  low ← shr w (ReverseBits w (uw w (Z.land v mask))) (u64 (w - bits));
  Ret (uw w (Z.lor (uw w (Z.land v inverse)) low)).

(** [ReverseBits(v, bits, skipbits)] at 32 and 64 bits, where [v >> skipbits] has
    the type of [v]. *)
Definition ReverseBits_skip (w v bits skipbits : Z) : outcome Z :=
  shifted ← shr w v skipbits;
  reversed ← ReverseBits_bits w shifted bits;
  high ← shl w reversed skipbits;
  mask ← MaskLowerBits skipbits;
  Ret (Z.lor high (uw w (Z.land v mask))).

(** ** Rotations: [RotateBitsLeftImpl], [RotateBitsLeftCT] and to the right *)

Definition RotateBitsLeft (w value shift : Z) : outcome Z :=
  left ← shl w value shift;
  right ← shr w value (Z.land (- shift) (w - 1));
  Ret (uw w (Z.lor left right)).

Definition RotateBitsRight (w value shift : Z) : outcome Z :=
  right ← shr w value shift;
  left ← shl w value (Z.land (- shift) (w - 1));
  Ret (uw w (Z.lor right left)).

(** ** Positions of bits *)

(** The builtins of the compiler on a word of [w] bits. *)
Definition builtin_clz (w v : Z) : outcome Z :=
  if v =? 0 then Fail (Undef UDeref) else Ret (w - 1 - Z.log2 v).
Fixpoint pos_ctz (p : positive) : Z :=
  match p with xO p => 1 + pos_ctz p | _ => 0 end.
Definition builtin_ctz (v : Z) : outcome Z :=
  match v with Zpos p => Ret (pos_ctz p) | _ => Fail (Undef UDeref) end.
Definition builtin_ffs (v : Z) : Z :=
  match v with Zpos p => 1 + pos_ctz p | _ => 0 end.

(** [GetValueBitCountImpl] with the builtin and as a loop. *)
Definition GetValueBitCount (w value : Z) : outcome Z :=
  clz ← builtin_clz w value; Ret (w - clz).

Fixpoint bit_count_loop (fuel : nat) (value result : Z) : option Z :=
  match fuel with
  | O => None
  | S fuel => if value =? 0 then Some result
              else bit_count_loop fuel (Z.shiftr value 1) (result + 1)
  end.
Definition GetValueBitCount_loop (fuel : nat) (value : Z) : option Z :=
  bit_count_loop fuel (Z.shiftr value 1) 1.

(** [CountTrailingZeroBitsImpl] with the builtin and as a loop. *)
Definition CountTrailingZeroBits (value : Z) : outcome Z := builtin_ctz value.

Fixpoint trailing_loop (fuel : nat) (value result : Z) : option Z :=
  match fuel with
  | O => None
  | S fuel => if Z.land value 1 =? 0
              then trailing_loop fuel (Z.shiftr value 1) (result + 1)
              else Some result
  end.
Definition CountTrailingZeroBits_loop (fuel : nat) (value : Z) : option Z :=
  trailing_loop fuel value 0.

Definition MostSignificantBit (v : Z) : outcome Z :=
  if v =? 0 then Ret 0 else clz ← builtin_clz 64 v; Ret (63 - clz).

(** The branch without builtins: [while (v >>= 1) ++res]. *)
Fixpoint msb_loop (fuel : nat) (v res : Z) : option Z :=
  match fuel with
  | O => None
  | S fuel => let v := Z.shiftr v 1 in
              if v =? 0 then Some res else msb_loop fuel v (res + 1)
  end.
Definition MostSignificantBit_loop (fuel : nat) (v : Z) : option Z :=
  if v =? 0 then Some 0 else msb_loop fuel v 0.

Definition LeastSignificantBit (v : Z) : Z :=
  if v =? 0 then 0 else builtin_ffs v - 1.
Definition LeastSignificantBit_loop (fuel : nat) (v : Z) : option Z :=
  if v =? 0 then Some 0 else trailing_loop fuel v 0.

Fixpoint MostSignificantBitCT (fuel : nat) (x : Z) : option Z :=
  match fuel with
  | O => None
  | S fuel => if 1 <? x then r ← MostSignificantBitCT fuel (Z.shiftr x 1); Some (1 + r)
              else Some 0
  end.

Definition CeilLog2 (x : Z) : outcome Z :=
  msb ← MostSignificantBit (u64 (x - 1)); Ret (uw 8 (uw 8 msb + 1)).

(** ** Bits of words *)

Lemma uw_testbit w z i : 0 ≤ w → 0 ≤ i → Z.testbit (uw w z) i = (i <? w) && Z.testbit z i.
Proof.
  intros. unfold uw. destruct (Z.ltb_spec i w); cbn.
  - by apply Z.mod_pow2_bits_low.
  - by apply Z.mod_pow2_bits_high.
Qed.

Lemma uw_range w z : 0 ≤ w → 0 ≤ uw w z < 2 ^ w.
Proof. intros. apply Z.mod_pos_bound. lia. Qed.

Lemma uw_small w z : 0 ≤ z < 2 ^ w → uw w z = z.
Proof. apply Z.mod_small. Qed.

(** A number is a word exactly when it has no high bits. *)
Lemma word_high w z i : 0 ≤ z < 2 ^ w → w ≤ i → Z.testbit z i = false.
Proof.
  intros [Hz Hw] Hi. destruct (decide (z = 0)) as [->|]; [apply Z.testbit_0_l|].
  apply Z.bits_above_log2; [done|]. assert (0 ≤ w) as Hw0.
  { destruct (Z.le_gt_cases 0 w); [done|]. rewrite Z.pow_neg_r in Hw; lia. }
  apply Z.log2_lt_pow2 in Hw; lia.
Qed.

Lemma word_of_bits w z :
  0 ≤ w → 0 ≤ z → (∀ i, w ≤ i → Z.testbit z i = false) → 0 ≤ z < 2 ^ w.
Proof.
  intros Hw Hz Hhigh. split; [done|].
  destruct (decide (z = 0)) as [->|]; [lia|]. apply Z.log2_lt_pow2; [lia|].
  destruct (Z.lt_ge_cases (Z.log2 z) w) as [|Hge]; [done|].
  apply Hhigh in Hge. rewrite Z.bit_log2 in Hge by lia. done.
Qed.

Lemma word_ext w x y :
  0 ≤ x < 2 ^ w → 0 ≤ y < 2 ^ w →
  (∀ i, 0 ≤ i < w → Z.testbit x i = Z.testbit y i) → x = y.
Proof.
  intros Hx Hy H. apply Z.bits_inj'. intros i Hi.
  destruct (Z.lt_ge_cases i w); [auto|]. by rewrite !(word_high w).
Qed.

(** Check a property of every index below a bound by computation. *)
Lemma check_below (n : Z) (P : Z → bool) i :
  forallb P (seqZ 0 n) = true → 0 ≤ i < n → P i = true.
Proof.
  intros H Hi. rewrite forallb_forall in H. apply H.
  apply list_elem_of_In, elem_of_seqZ. lia.
Qed.

(** ** Swaps: bit [i] comes from bit [i xor s] *)

Definition swap_mask_ok (m s i : Z) : bool :=
  if Z.testbit m i then negb ((s <=? i) && Z.testbit m (i - s)) && (Z.lxor i s =? i + s)
  else (s <=? i) && Z.testbit m (i - s) && (Z.lxor i s =? i - s).

Lemma swap_bits m s v i :
  0 ≤ s → 0 ≤ i < 64 → swap_mask_ok m s i = true →
  Z.testbit (Z.lor (Z.land (Z.shiftr v s) m) (u64 (Z.shiftl (Z.land v m) s))) i =
  Z.testbit v (Z.lxor i s).
Proof.
  intros Hs Hi Hm. unfold swap_mask_ok in Hm.
  rewrite Z.lor_spec, Z.land_spec, Z.shiftr_spec by lia.
  change (u64 ?z) with (uw 64 z). rewrite uw_testbit by lia.
  replace (i <? 64) with true by lia. cbn [andb].
  rewrite Z.shiftl_spec by lia. rewrite Z.land_spec.
  destruct (Z.testbit m i).
  - apply andb_prop in Hm as [Hn ->%Z.eqb_eq].
    destruct (Z.leb_spec s i); cbn in Hn.
    + apply negb_true_iff in Hn. rewrite Hn. rewrite andb_true_r, andb_false_r. by rewrite orb_false_r.
    + rewrite (Z.testbit_neg_r v (i - s)) by lia. by rewrite andb_true_r, orb_false_r.
  - apply andb_prop in Hm as [[_ Hn]%andb_prop ->%Z.eqb_eq].
    rewrite Hn. by rewrite andb_false_r, andb_true_r.
Qed.

Lemma swap_fold m s v f i :
  f v = Z.lor (Z.land (Z.shiftr v s) m) (u64 (Z.shiftl (Z.land v m) s)) →
  0 ≤ s → forallb (swap_mask_ok m s) (seqZ 0 64) = true →
  0 ≤ i < 64 → Z.testbit (f v) i = Z.testbit v (Z.lxor i s).
Proof. intros -> Hs Hm Hi. apply swap_bits; [done..|]. by apply (check_below 64). Qed.

Ltac swap_tac :=
  intros; eapply swap_fold; [reflexivity|lia|vm_compute; reflexivity|done].

Lemma SwapOddEvenBits_bit v i :
  0 ≤ i < 64 → Z.testbit (SwapOddEvenBits v) i = Z.testbit v (Z.lxor i 1).
Proof. swap_tac. Qed.

Lemma SwapBitPairs_bit v i :
  0 ≤ i < 64 → Z.testbit (SwapBitPairs v) i = Z.testbit v (Z.lxor i 2).
Proof. swap_tac. Qed.

Lemma SwapNibbles_bit v i :
  0 ≤ i < 64 → Z.testbit (SwapNibbles v) i = Z.testbit v (Z.lxor i 4).
Proof. swap_tac. Qed.

Lemma SwapOddEvenBytes_bit v i :
  0 ≤ i < 64 → Z.testbit (SwapOddEvenBytes v) i = Z.testbit v (Z.lxor i 8).
Proof. swap_tac. Qed.

Lemma SwapBytePairs_bit v i :
  0 ≤ i < 64 → Z.testbit (SwapBytePairs v) i = Z.testbit v (Z.lxor i 16).
Proof. swap_tac. Qed.

Lemma SwapByteQuads_bit v i :
  0 ≤ v < 2 ^ 64 → 0 ≤ i < 64 → Z.testbit (SwapByteQuads v) i = Z.testbit v (Z.lxor i 32).
Proof.
  intros Hv Hi. unfold SwapByteQuads. rewrite Z.lor_spec, Z.shiftr_spec by lia.
  change (u64 ?z) with (uw 64 z). rewrite uw_testbit, Z.shiftl_spec by lia.
  replace (i <? 64) with true by lia. cbn [andb].
  assert (Z.lxor i 32 = if i <? 32 then i + 32 else i - 32) as ->.
  { apply Z.eqb_eq. by apply (check_below 64 (λ i, Z.lxor i 32 =? if i <? 32 then i + 32 else i - 32)). }
  destruct (Z.ltb_spec i 32).
  - rewrite (Z.testbit_neg_r v (i - 32)) by lia. by rewrite orb_false_r.
  - by rewrite (word_high 64) by lia.
Qed.

Lemma lxor_below i s :
  s ∈ [1; 2; 4; 8; 16; 32] → 0 ≤ i < 64 → 0 ≤ Z.lxor i s < 64.
Proof.
  intros Hs Hi.
  assert (forallb (λ i, forallb (λ s, (0 <=? Z.lxor i s) && (Z.lxor i s <? 64))
    [1; 2; 4; 8; 16; 32]) (seqZ 0 64) = true) as H by reflexivity.
  apply (check_below 64 _ i) in H; [|done]. rewrite forallb_forall in H.
  apply list_elem_of_In in Hs. apply H in Hs. lia.
Qed.

Lemma lor_word w x y : 0 ≤ x < 2 ^ w → 0 ≤ y < 2 ^ w → 0 ≤ Z.lor x y < 2 ^ w.
Proof.
  intros Hx Hy. assert (0 ≤ w).
  { destruct (Z.le_gt_cases 0 w); [done|]. rewrite Z.pow_neg_r in Hx; lia. }
  apply word_of_bits; [done|apply Z.lor_nonneg; lia|].
  intros i Hi. by rewrite Z.lor_spec, !(word_high w).
Qed.

Lemma land_word w x y : 0 ≤ y < 2 ^ w → 0 ≤ Z.land x y < 2 ^ w.
Proof.
  intros Hy. assert (0 ≤ w).
  { destruct (Z.le_gt_cases 0 w); [done|]. rewrite Z.pow_neg_r in Hy; lia. }
  apply word_of_bits; [done|apply Z.land_nonneg; lia|].
  intros i Hi. by rewrite Z.land_spec, (word_high w y), andb_false_r.
Qed.

Lemma swap_word m s v :
  0 ≤ m < 2 ^ 64 →
  0 ≤ Z.lor (Z.land (Z.shiftr v s) m) (u64 (Z.shiftl (Z.land v m) s)) < 2 ^ 64.
Proof. intros. apply lor_word; [by apply land_word|apply u64_range]. Qed.

Lemma SwapBytePairs_word v : 0 ≤ SwapBytePairs v < 2 ^ 64.
Proof. by apply swap_word. Qed.

Lemma SwapOddEvenBytes_word v : 0 ≤ SwapOddEvenBytes v < 2 ^ 64.
Proof. by apply swap_word. Qed.

Lemma SwapByteQuads_word v : 0 ≤ v < 2 ^ 64 → 0 ≤ SwapByteQuads v < 2 ^ 64.
Proof.
  intros Hv. apply lor_word; [|apply u64_range].
  rewrite Z.shiftr_div_pow2 by lia. split; [apply Z.div_pos; lia|].
  apply Z.div_lt_upper_bound; lia.
Qed.

(** The index of a chain of swaps stays below 64. *)
Ltac swap_index :=
  repeat (apply lxor_below; [by apply (bool_decide_eq_true _); vm_compute|]); lia.

(** Rewrite a word built of swaps to the bit it takes. *)
Ltac swap_bits :=
  repeat first
    [ rewrite SwapByteQuads_bit;
        [|first [apply SwapBytePairs_word|apply SwapOddEvenBytes_word]|swap_index]
    | rewrite SwapBytePairs_bit by swap_index
    | rewrite SwapOddEvenBytes_bit by swap_index
    | rewrite SwapNibbles_bit by swap_index
    | rewrite SwapBitPairs_bit by swap_index
    | rewrite SwapOddEvenBits_bit by swap_index ].

(** Two index computations agree below a bound. *)
Ltac same_index n :=
  f_equal; apply Z.eqb_eq;
  match goal with
  | |- (?f =? ?g) = true =>
      match goal with H : 0 ≤ ?i < _ |- _ =>
        let P := eval pattern i in (f =? g) in
        match P with ?P _ => apply (check_below n P i); [vm_compute; reflexivity|lia] end
      end
  end.

(** ** Reversal *)

Definition reverse_index (w i : Z) : Z := w - 1 - i.

Lemma ReverseBits_word w t : word_width w = true → 0 ≤ t < 2 ^ w → 0 ≤ ReverseBits w t < 2 ^ w.
Proof.
  unfold word_width. rewrite bool_decide_eq_true. intros Hw Ht.
  repeat (apply elem_of_cons in Hw as [->|Hw]); [..|by apply elem_of_nil in Hw];
    [by apply uw_range..|]. apply SwapByteQuads_word, SwapBytePairs_word.
Qed.

Lemma ReverseBits_bit w t i :
  word_width w = true → 0 ≤ t < 2 ^ w → 0 ≤ i < w →
  Z.testbit (ReverseBits w t) i = Z.testbit t (reverse_index w i).
Proof.
  unfold word_width. rewrite bool_decide_eq_true. intros Hw Ht Hi.
  repeat (apply elem_of_cons in Hw as [->|Hw]); [..|by apply elem_of_nil in Hw];
    cbn [ReverseBits Z.eqb Pos.eqb];
    unfold ReverseBits8, ReverseBits16, ReverseBits32, ReverseBits64, reverse_index;
    clear Ht.
  - rewrite uw_testbit by lia. replace (i <? 8) with true by lia. cbn [andb].
    swap_bits. same_index 8.
  - rewrite uw_testbit by lia. replace (i <? 16) with true by lia. cbn [andb].
    swap_bits. same_index 16.
  - rewrite uw_testbit by lia. replace (i <? 32) with true by lia. cbn [andb].
    swap_bits. same_index 32.
  - swap_bits. same_index 64.
Qed.

(** ReverseBits at each of its four widths puts bit i of a word at position
    w - 1 - i, so that its result is a word of the same width and reversing twice
    gives the word back. *)
Theorem ReverseBits_correct (w t : Z) :
  word_width w = true → 0 ≤ t < 2 ^ w →
  0 ≤ ReverseBits w t < 2 ^ w ∧
  (∀ i, 0 ≤ i < w → Z.testbit (ReverseBits w t) i = Z.testbit t (w - 1 - i)) ∧
  ReverseBits w (ReverseBits w t) = t.
Proof.
  intros Hw Ht. pose proof (ReverseBits_word w t Hw Ht) as Hr. split; [done|].
  split; [intros; by apply ReverseBits_bit|].
  apply (word_ext w); [by apply ReverseBits_word|done|]. intros i Hi.
  rewrite ReverseBits_bit by done. unfold reverse_index.
  rewrite ReverseBits_bit by (done || lia). f_equal. unfold reverse_index. lia.
Qed.

Lemma ReverseBits_correct_witness :
  word_width 16 = true ∧ ReverseBits 16 0x8E39 = 0x9C71 ∧
  ReverseBits 16 (ReverseBits 16 0x8E39) = 0x8E39.
Proof.
  split; [reflexivity|]. split; [vm_compute; reflexivity|].
  apply (ReverseBits_correct 16 0x8E39); [reflexivity|lia].
Defined.

(** ReverseBytes moves the byte of bit [i] to the mirrored byte. *)
Definition mirrored_byte (w i : Z) : Z := (w `div` 8 - 1 - i `div` 8) * 8 + i `mod` 8.

Lemma ReverseBytes16_bit t i :
  0 ≤ i < 16 → Z.testbit (ReverseBytes16 t) i = Z.testbit t (mirrored_byte 16 i).
Proof.
  intros. unfold ReverseBytes16, mirrored_byte. rewrite uw_testbit by lia.
  replace (i <? 16) with true by lia. cbn [andb]. swap_bits. same_index 16.
Qed.

Lemma ReverseBytes32_bit t i :
  0 ≤ i < 32 → Z.testbit (ReverseBytes32 t) i = Z.testbit t (mirrored_byte 32 i).
Proof.
  intros. unfold ReverseBytes32, mirrored_byte. rewrite uw_testbit by lia.
  replace (i <? 32) with true by lia. cbn [andb]. swap_bits. same_index 32.
Qed.

Lemma ReverseBytes64_bit t i :
  0 ≤ i < 64 → Z.testbit (ReverseBytes64 t) i = Z.testbit t (Z.lxor i 40).
Proof. intros. unfold ReverseBytes64. swap_bits. same_index 64. Qed.

(** ReverseBytes reverses the bytes of 16-bit and 32-bit words; on 64-bit
    words it omits the swap of byte pairs, so that byte i goes to position i xor 5
    and the result is the reversal of the bytes with the pairs exchanged. *)
Theorem ReverseBytes_behaviour (t : Z) :
  (∀ i, 0 ≤ i < 16 → Z.testbit (ReverseBytes16 t) i = Z.testbit t (mirrored_byte 16 i)) ∧
  (∀ i, 0 ≤ i < 32 → Z.testbit (ReverseBytes32 t) i = Z.testbit t (mirrored_byte 32 i)) ∧
  (∀ i, 0 ≤ i < 64 → Z.testbit (ReverseBytes64 t) i = Z.testbit t (Z.lxor i 40)) ∧
  (∀ i, 0 ≤ i < 64 →
     Z.testbit (SwapByteQuads (SwapBytePairs (SwapOddEvenBytes t))) i =
     Z.testbit t (mirrored_byte 64 i)) ∧
  ReverseBytes64 0x0102030405060708 = 0x0605080702010403.
Proof.
  split; [intros; by apply ReverseBytes16_bit|].
  split; [intros; by apply ReverseBytes32_bit|].
  split; [intros; by apply ReverseBytes64_bit|].
  split; [|reflexivity]. intros. unfold mirrored_byte. swap_bits. same_index 64.
Qed.

(** ** Masks *)

Lemma WORD_MASK_lookup n : (n ≤ 64)%nat → WORD_MASK !! n = Some (Z.ones (Z.of_nat n)).
Proof.
  intros. assert (WORD_MASK = (λ i, Z.ones i) <$> seqZ 0 65) as -> by (vm_compute; reflexivity).
  rewrite list_lookup_fmap. rewrite lookup_seqZ_lt by lia. done.
Qed.

Lemma INVERSE_WORD_MASK_lookup n :
  (n ≤ 64)%nat → INVERSE_WORD_MASK !! n = Some (not64 (Z.ones (Z.of_nat n))).
Proof.
  intros. assert (INVERSE_WORD_MASK = (λ i, not64 (Z.ones i)) <$> seqZ 0 65) as ->
    by (vm_compute; reflexivity).
  rewrite list_lookup_fmap. rewrite lookup_seqZ_lt by lia. done.
Qed.

Lemma MaskLowerBits_Ret bits : 0 ≤ bits ≤ 64 → MaskLowerBits bits = Ret (Z.ones bits).
Proof.
  intros. unfold MaskLowerBits. rewrite vat_Ret. split; [lia|].
  rewrite WORD_MASK_lookup by lia. do 2 f_equal. lia.
Qed.

Lemma InverseMaskLowerBits_Ret bits :
  0 ≤ bits ≤ 64 → InverseMaskLowerBits bits = Ret (not64 (Z.ones bits)).
Proof.
  intros. unfold InverseMaskLowerBits. rewrite vat_Ret. split; [lia|].
  rewrite INVERSE_WORD_MASK_lookup by lia. do 3 f_equal. lia.
Qed.

Lemma ones_bit n i : 0 ≤ n → 0 ≤ i → Z.testbit (Z.ones n) i = (i <? n).
Proof.
  intros. destruct (Z.ltb_spec i n); [apply Z.ones_spec_low|apply Z.ones_spec_high]; lia.
Qed.

Lemma not64_bit v i : 0 ≤ i < 64 → Z.testbit (not64 v) i = negb (Z.testbit v i).
Proof.
  intros. unfold not64. change (u64 ?z) with (uw 64 z). rewrite uw_testbit by lia.
  replace (i <? 64) with true by lia. by rewrite Z.lnot_spec by lia.
Qed.

(** The masks have exactly the bits they name: MaskLowerBits(bits, skipbits)
    has the bits from skipbits up to skipbits + bits and InverseMaskLowerBits the
    others, for every position a table entry and a shift exist for. *)
Lemma masks_correct (bits skipbits : Z) :
  0 ≤ bits ≤ 64 → 0 ≤ skipbits < 64 →
  ∃ mask inverse,
    MaskLowerBits_skip bits skipbits = Ret mask ∧
    InverseMaskLowerBits_skip bits skipbits = Ret inverse ∧
    ∀ i, 0 ≤ i < 64 →
      Z.testbit mask i = (skipbits <=? i) && (i <? skipbits + bits) ∧
      Z.testbit inverse i = negb (Z.testbit mask i) ∧
      (skipbits = 0 → MaskLowerBits bits = Ret mask ∧ InverseMaskLowerBits bits = Ret inverse).
Proof.
  intros Hb Hs. eexists _, _.
  unfold InverseMaskLowerBits_skip, MaskLowerBits_skip, shl.
  rewrite MaskLowerBits_Ret by done. cbn [mbind outcome_bind].
  replace (skipbits <? promoted 64) with true by (unfold promoted; lia).
  split; [done|]. split; [done|]. intros i Hi. split; [|split; [by rewrite not64_bit|]].
  - rewrite uw_testbit, Z.shiftl_spec by lia. replace (i <? 64) with true by lia. cbn [andb].
    destruct (Z.leb_spec skipbits i); [|by rewrite Z.testbit_neg_r by lia].
    rewrite ones_bit by lia. cbn. apply eq_true_iff_eq. lia.
  - intros ->. rewrite Z.shiftl_0_r. rewrite InverseMaskLowerBits_Ret by done.
    rewrite uw_small; [done|]. rewrite Z.ones_equiv. split; [lia|].
    apply Z.lt_le_pred. assert (2 ^ bits ≤ 2 ^ 64) by (apply Z.pow_le_mono_r; lia). lia.
Qed.

Lemma masks_correct_witness :
  ∃ mask, MaskLowerBits_skip 4 2 = Ret mask ∧ mask = 0x3C.
Proof.
  destruct (masks_correct 4 2) as (m & _ & H & _); [lia..|].
  exists m. split; [done|]. vm_compute in H. by injection H.
Defined.

(** ** Reversal of a part of a word *)

Lemma word_width_cases w : word_width w = true → w = 8 ∨ w = 16 ∨ w = 32 ∨ w = 64.
Proof.
  unfold word_width. rewrite bool_decide_eq_true. intros Hw.
  repeat (apply elem_of_cons in Hw as [->|Hw]; [tauto|]). by apply elem_of_nil in Hw.
Qed.

Lemma shr_Ret w v s : s < promoted w → shr w v s = Ret (Z.shiftr v s).
Proof. intros. unfold shr. by replace (s <? promoted w) with true by lia. Qed.

Lemma shl_Ret w v s : s < promoted w → shl w v s = Ret (uw w (Z.shiftl v s)).
Proof. intros. unfold shl. by replace (s <? promoted w) with true by lia. Qed.

Lemma ones_word w n : 0 ≤ n ≤ w → 0 ≤ Z.ones n < 2 ^ w.
Proof.
  intros. rewrite Z.ones_equiv. assert (0 < 2 ^ n) by (apply Z.pow_pos_nonneg; lia).
  assert (2 ^ n ≤ 2 ^ w) by (apply Z.pow_le_mono_r; lia). lia.
Qed.

Lemma shiftr_word w v s : 0 ≤ s → 0 ≤ v < 2 ^ w → 0 ≤ Z.shiftr v s < 2 ^ w.
Proof.
  intros Hs Hv. rewrite Z.shiftr_div_pow2 by lia.
  assert (0 < 2 ^ s) by (apply Z.pow_pos_nonneg; lia).
  split; [apply Z.div_pos; lia|]. apply Z.div_lt_upper_bound; nia.
Qed.

Lemma ReverseBits_bits_spec w v bits :
  word_width w = true → 0 ≤ v < 2 ^ w → 0 ≤ bits ≤ w → w - bits < promoted w →
  ∃ r, ReverseBits_bits w v bits = Ret r ∧ 0 ≤ r < 2 ^ w ∧
    ∀ i, 0 ≤ i < w →
      Z.testbit r i = if i <? bits then Z.testbit v (bits - 1 - i) else Z.testbit v i.
Proof.
  intros Hw Hv Hb Hsh. assert (8 ≤ w ≤ 64) by (apply word_width_cases in Hw; lia).
  unfold ReverseBits_bits. rewrite InverseMaskLowerBits_Ret, MaskLowerBits_Ret by lia.
  cbn [mbind outcome_bind]. rewrite u64_small by lia. rewrite shr_Ret by done.
  cbn [mbind outcome_bind]. eexists. split; [done|]. split; [apply uw_range; lia|].
  assert (0 ≤ Z.land v (Z.ones bits) < 2 ^ w) as Hl by (apply land_word, ones_word; lia).
  rewrite (uw_small w (Z.land v (Z.ones bits))) by done.
  intros i Hi. rewrite uw_testbit by lia. replace (i <? w) with true by lia. cbn [andb].
  rewrite Z.lor_spec, uw_testbit by lia. replace (i <? w) with true by lia. cbn [andb].
  rewrite Z.land_spec, not64_bit by lia. rewrite ones_bit, Z.shiftr_spec by lia.
  destruct (Z.ltb_spec i bits); cbn [negb].
  - rewrite andb_false_r, ReverseBits_bit by (done || lia). unfold reverse_index.
    rewrite Z.land_spec, ones_bit by lia. replace (_ <? bits) with true by lia.
    rewrite andb_true_r. cbn. f_equal. lia.
  - rewrite (word_high w (ReverseBits w _)); [by rewrite andb_true_r, orb_false_r| |lia].
    by apply ReverseBits_word.
Qed.

(** ReverseBits(v, bits) reverses the lowest bits of a word and
    ReverseBits(v, bits, skipbits) those above skipbits, leaving the others as they
    are; a call with zero bits at 32 or 64 bits shifts by the width of the word. *)
Lemma ReverseBits_part_correct (w v bits skipbits : Z) :
  word_width w = true → 0 ≤ v < 2 ^ w →
  (0 < bits ≤ w →
   ∃ r, ReverseBits_bits w v bits = Ret r ∧
     ∀ i, 0 ≤ i < w →
       Z.testbit r i = if i <? bits then Z.testbit v (bits - 1 - i) else Z.testbit v i) ∧
  (32 ≤ w → 0 < bits → 0 ≤ skipbits → skipbits + bits ≤ w →
   ∃ r, ReverseBits_skip w v bits skipbits = Ret r ∧
     ∀ i, 0 ≤ i < w →
       Z.testbit r i = if (skipbits <=? i) && (i <? skipbits + bits)
                       then Z.testbit v (skipbits + (bits - 1 - (i - skipbits)))
                       else Z.testbit v i) ∧
  (32 ≤ w → ReverseBits_bits w v 0 = Fail (Undef (UShift w))) ∧
  (w < 32 → ReverseBits_bits w v 0 = Ret v).
Proof.
  intros Hw Hv. assert (8 ≤ w ≤ 64) by (apply word_width_cases in Hw; lia). split_and!.
  - intros Hb. destruct (ReverseBits_bits_spec w v bits) as (r & Hr & _ & H');
      [done..|lia|unfold promoted; lia|eauto].
  - intros H32 Hb Hs Hsb. unfold ReverseBits_skip.
    rewrite shr_Ret by (unfold promoted; lia). cbn [mbind outcome_bind].
    destruct (ReverseBits_bits_spec w (Z.shiftr v skipbits) bits) as (r & -> & Hr & Hbits);
      [done|by apply shiftr_word|lia|unfold promoted; lia|]. cbn [mbind outcome_bind].
    rewrite shl_Ret by (unfold promoted; lia). cbn [mbind outcome_bind].
    rewrite MaskLowerBits_Ret by lia. cbn [mbind outcome_bind]. eexists. split; [done|].
    intros i Hi. rewrite Z.lor_spec, !uw_testbit by lia.
    replace (i <? w) with true by lia. cbn [andb].
    rewrite Z.shiftl_spec, Z.land_spec, ones_bit by lia.
    destruct (Z.leb_spec skipbits i); cbn [andb].
    + replace (i <? skipbits) with false by lia. rewrite andb_false_r, orb_false_r.
      rewrite Hbits by lia.
      destruct (Z.ltb_spec (i - skipbits) bits), (Z.ltb_spec i (skipbits + bits)); try lia;
        rewrite Z.shiftr_spec by lia; f_equal; lia.
    + replace (i <? skipbits) with true by lia. rewrite andb_true_r.
      by rewrite Z.testbit_neg_r by lia.
  - intros H32. unfold ReverseBits_bits. rewrite InverseMaskLowerBits_Ret, MaskLowerBits_Ret by lia.
    cbn [mbind outcome_bind]. rewrite u64_small by lia. unfold shr, promoted.
    replace (w - 0 <? Z.max 32 w) with false by lia. cbn. do 3 f_equal. lia.
  - intros H32. destruct (ReverseBits_bits_spec w v 0) as (r & -> & Hr & Hbits);
      [done..|lia|unfold promoted; lia|]. f_equal. apply (word_ext w); [done..|].
    intros i Hi. rewrite Hbits by done. by replace (i <? 0) with false by lia.
Qed.

Lemma ReverseBits_part_correct_witness :
  ReverseBits_bits 32 0x8E38 6 = Ret 0x8E07 ∧ ReverseBits_skip 32 0x8E38 4 2 = Ret 0x8E1C ∧
  ReverseBits_bits 32 0x8E38 0 = Fail (Undef (UShift 32)).
Proof.
  split; [vm_compute; reflexivity|]. split; [vm_compute; reflexivity|].
  apply (ReverseBits_part_correct 32 0x8E38 6 2); [reflexivity|lia|lia].
Defined.

(** ** Rotations *)

Lemma mod_below a w : - w ≤ a < 0 → a `mod` w = a + w.
Proof. intros. symmetry. apply (Z.mod_unique_pos _ _ (-1)); lia. Qed.

Lemma mod_above a w : w ≤ a < 2 * w → a `mod` w = a - w.
Proof. intros. symmetry. apply (Z.mod_unique_pos _ _ 1); lia. Qed.

Lemma rotate_mask w s :
  word_width w = true → 0 ≤ s < w →
  Z.land (- s) (w - 1) = if s =? 0 then 0 else w - s.
Proof.
  intros Hw Hs. apply word_width_cases in Hw.
  assert (∃ k, 0 ≤ k ∧ w = 2 ^ k) as (k & Hk & ->).
  { destruct Hw as [Hw|[Hw|[Hw|Hw]]]; [exists 3|exists 4|exists 5|exists 6]; done. }
  replace (2 ^ k - 1) with (Z.ones k) by (rewrite Z.ones_equiv; lia).
  rewrite Z.land_ones by done. destruct (Z.eqb_spec s 0) as [->|]; [done|].
  rewrite mod_below by lia. lia.
Qed.

Lemma RotateBitsLeft_spec w v s :
  word_width w = true → 0 ≤ v < 2 ^ w → 0 ≤ s < w →
  ∃ r, RotateBitsLeft w v s = Ret r ∧ 0 ≤ r < 2 ^ w ∧
    ∀ i, 0 ≤ i < w → Z.testbit r i = Z.testbit v ((i - s) `mod` w).
Proof.
  intros Hw Hv Hs. unfold RotateBitsLeft. rewrite rotate_mask by done.
  rewrite shl_Ret by (unfold promoted; lia).
  rewrite shr_Ret by (unfold promoted; destruct (Z.eqb_spec s 0); lia).
  cbn [mbind outcome_bind]. eexists. split; [done|]. split; [apply uw_range; lia|].
  intros i Hi. rewrite uw_testbit by lia. replace (i <? w) with true by lia. cbn [andb].
  rewrite Z.lor_spec, uw_testbit by lia. replace (i <? w) with true by lia. cbn [andb].
  rewrite Z.shiftl_spec, Z.shiftr_spec by lia.
  destruct (Z.eqb_spec s 0) as [->|].
  - rewrite Z.sub_0_r, Z.add_0_r, Z.mod_small by lia. by rewrite orb_diag.
  - destruct (Z.le_gt_cases s i).
    + rewrite (word_high w v (i + (w - s))) by lia. rewrite orb_false_r.
      by rewrite Z.mod_small by lia.
    + rewrite Z.testbit_neg_r by lia. cbn.
      rewrite mod_below by lia. f_equal. lia.
Qed.

Lemma RotateBitsRight_spec w v s :
  word_width w = true → 0 ≤ v < 2 ^ w → 0 ≤ s < w →
  ∃ r, RotateBitsRight w v s = Ret r ∧ 0 ≤ r < 2 ^ w ∧
    ∀ i, 0 ≤ i < w → Z.testbit r i = Z.testbit v ((i + s) `mod` w).
Proof.
  intros Hw Hv Hs. unfold RotateBitsRight. rewrite rotate_mask by done.
  rewrite shr_Ret by (unfold promoted; lia).
  rewrite shl_Ret by (unfold promoted; destruct (Z.eqb_spec s 0); lia).
  cbn [mbind outcome_bind]. eexists. split; [done|]. split; [apply uw_range; lia|].
  intros i Hi. rewrite uw_testbit by lia. replace (i <? w) with true by lia. cbn [andb].
  rewrite Z.lor_spec, uw_testbit by lia. replace (i <? w) with true by lia. cbn [andb].
  rewrite Z.shiftl_spec, Z.shiftr_spec by lia.
  destruct (Z.eqb_spec s 0) as [->|].
  - rewrite Z.sub_0_r, Z.add_0_r, Z.mod_small by lia. by rewrite orb_diag.
  - destruct (Z.le_gt_cases w (i + s)).
    + rewrite (word_high w v (i + s)) by lia. cbn.
      rewrite mod_above by lia. f_equal. lia.
    + rewrite (Z.testbit_neg_r v (i - (w - s))) by lia. rewrite orb_false_r.
      by rewrite Z.mod_small by lia.
Qed.

(** Rotating a word left (or right) by less than its width never shifts out of
    the width, moves bit i by the shift modulo the width, and rotating back gives
    the word. *)
Lemma RotateBits_correct (w v s : Z) :
  word_width w = true → 0 ≤ v < 2 ^ w → 0 ≤ s < w →
  ∃ l r, RotateBitsLeft w v s = Ret l ∧ RotateBitsRight w v s = Ret r ∧
    (∀ i, 0 ≤ i < w → Z.testbit l i = Z.testbit v ((i - s) `mod` w) ∧
                      Z.testbit r i = Z.testbit v ((i + s) `mod` w)) ∧
    RotateBitsRight w l s = Ret v ∧ RotateBitsLeft w r s = Ret v.
Proof.
  intros Hw Hv Hs. assert (0 < w) by lia.
  destruct (RotateBitsLeft_spec w v s) as (l & Hl & Hlw & Hlb); [done..|].
  destruct (RotateBitsRight_spec w v s) as (r & Hr & Hrw & Hrb); [done..|].
  destruct (RotateBitsRight_spec w l s) as (r' & Hr' & Hrw' & Hrb'); [done..|].
  destruct (RotateBitsLeft_spec w r s) as (l' & Hl' & Hlw' & Hlb'); [done..|].
  exists l, r. split_and!; [done|done|auto| |].
  - rewrite Hr'. f_equal. apply (word_ext w); [done..|]. intros i Hi.
    rewrite Hrb', Hlb by (done || apply Z.mod_pos_bound; lia).
    rewrite Zminus_mod_idemp_l, Z.add_simpl_r, Z.mod_small by lia. done.
  - rewrite Hl'. f_equal. apply (word_ext w); [done..|]. intros i Hi.
    rewrite Hlb', Hrb by (done || apply Z.mod_pos_bound; lia).
    rewrite Zplus_mod_idemp_l, Z.sub_simpl_r, Z.mod_small by lia. done.
Qed.

Lemma RotateBits_correct_witness :
  RotateBitsLeft 8 0xA0 1 = Ret 0x41 ∧
  ∃ l r, RotateBitsLeft 8 0xA0 1 = Ret l ∧ RotateBitsRight 8 0xA0 1 = Ret r ∧
    RotateBitsRight 8 l 1 = Ret 0xA0.
Proof.
  split; [reflexivity|].
  destruct (RotateBits_correct 8 0xA0 1) as (l & r & Hl & Hr & _ & Hrl & _);
    [reflexivity|lia|lia|]. exists l, r. done.
Defined.

(** ** Powers of two *)

(** Each level of [TClp2Helper] doubles the distance the bits are smeared over. *)
Lemma clp2_calc_word w N t : 0 ≤ w → 0 ≤ clp2_calc w N t < 2 ^ w.
Proof.
  intros Hw. induction N as [p IH|p IH|]; cbn [clp2_calc];
    (apply lor_word; [|apply shiftr_word; [lia|]]); auto using uw_range.
Qed.

(** The positive [2 ^ k]. *)
Lemma pow2_pos k : Z.pos (Pos.shiftl_nat 1 k) = 2 ^ Z.of_nat k.
Proof.
  induction k as [|k IH]; [done|].
  cbn [Pos.shiftl_nat Nat.iter nat_rect]. fold (Pos.shiftl_nat 1 k).
  rewrite Pos2Z.inj_xO, IH, Nat2Z.inj_succ, Z.pow_succ_r by lia. done.
Qed.

(** At a power of two [N], the result smears every bit over [2 * N] positions. *)
Lemma clp2_calc_bit w k t i :
  0 ≤ w → 0 ≤ i →
  Z.testbit (clp2_calc w (Pos.shiftl_nat 1 k) t) i = true ↔
  ∃ j, 0 ≤ j < 2 * 2 ^ Z.of_nat k ∧ Z.testbit (uw w (t - 1)) (i + j) = true.
Proof.
  intros Hw. revert i. induction k as [|k IH]; intros i Hi.
  - cbn. rewrite Z.lor_spec, Z.shiftr_spec, orb_true_iff by lia. split.
    + intros [H|H]; [exists 0|exists 1]; (split; [lia|]); [by rewrite Z.add_0_r|done].
    + intros (j & Hj & H). assert (j = 0 ∨ j = 1) as [->| ->] by lia;
        [rewrite Z.add_0_r in H|]; auto.
  - cbn [Pos.shiftl_nat Nat.iter nat_rect clp2_calc]. fold (Pos.shiftl_nat 1 k).
    rewrite Z.lor_spec, Z.shiftr_spec, orb_true_iff, !IH by lia.
    assert (Z.pos (Pos.shiftl_nat 1 k)~0 = 2 * 2 ^ Z.of_nat k) as ->.
    { rewrite Pos2Z.inj_xO, pow2_pos. done. }
    rewrite Nat2Z.inj_succ, Z.pow_succ_r by lia. split.
    + intros [(j & Hj & H)|(j & Hj & H)]; [exists j; split; [lia|done]|].
      exists (2 * 2 ^ Z.of_nat k + j). split; [lia|]. by rewrite Z.add_assoc.
    + intros (j & Hj & H). destruct (Z.lt_ge_cases j (2 * 2 ^ Z.of_nat k)).
      * left. exists j. split; [lia|done].
      * right. exists (j - 2 * 2 ^ Z.of_nat k). split; [lia|]. rewrite <- H. f_equal. lia.
Qed.

(** Smearing the bits of a word over all its positions fills it below its highest
    bit. *)
Lemma smear_fills w x y :
  0 ≤ w → 0 ≤ x < 2 ^ w → 0 ≤ y < 2 ^ w →
  (∀ i, 0 ≤ i → Z.testbit y i = true ↔ ∃ j, 0 ≤ j < w ∧ Z.testbit x (i + j) = true) →
  y = if x =? 0 then 0 else 2 ^ (Z.log2 x + 1) - 1.
Proof.
  intros Hw Hx Hy H. destruct (Z.eqb_spec x 0) as [->|Hx0].
  - apply Z.bits_inj'. intros i Hi. rewrite Z.bits_0. apply not_true_is_false.
    rewrite H by done. intros (j & _ & Hj). by rewrite Z.bits_0 in Hj.
  - replace (2 ^ (Z.log2 x + 1) - 1) with (Z.ones (Z.log2 x + 1)) by (rewrite Z.ones_equiv; lia).
    pose proof (Z.log2_nonneg x). assert (Z.log2 x < w) by (apply Z.log2_lt_pow2; lia).
    apply Z.bits_inj'. intros i Hi. rewrite ones_bit by lia. apply eq_true_iff_eq.
    rewrite H by done. rewrite Z.ltb_lt. split.
    + intros (j & Hj & Hb). destruct (Z.lt_ge_cases i (Z.log2 x + 1)); [done|].
      rewrite Z.bits_above_log2 in Hb; [done|lia|lia].
    + intros Hi'. exists (Z.log2 x - i). split; [lia|].
      replace (i + (Z.log2 x - i)) with (Z.log2 x) by lia. apply Z.bit_log2. lia.
Qed.

Lemma TClp2Helper_spec w t :
  word_width w = true → 0 < t < 2 ^ w →
  TClp2Helper w (w `div` 8 * 4) t = if t =? 1 then 0 else 2 ^ (Z.log2 (t - 1) + 1) - 1.
Proof.
  intros Hw Ht.
  assert (∃ k, w `div` 8 * 4 = Z.pos (Pos.shiftl_nat 1 k) ∧ w = 2 * 2 ^ Z.of_nat k) as (k & -> & Hk).
  { apply word_width_cases in Hw as [->|[->|[->| ->]]];
      [exists 2%nat|exists 3%nat|exists 4%nat|exists 5%nat]; done. }
  cbn [TClp2Helper].
  assert (0 ≤ w) by (apply word_width_cases in Hw; lia).
  rewrite (smear_fills w (uw w (t - 1)) (clp2_calc w (Pos.shiftl_nat 1 k) t)).
  - rewrite uw_small by lia. destruct (Z.eqb_spec (t - 1) 0), (Z.eqb_spec t 1); lia || done.
  - done.
  - by apply uw_range.
  - by apply clp2_calc_word.
  - intros i Hi. rewrite clp2_calc_bit by done. by rewrite <- Hk.
Qed.

(** [IsPowerOf2] *)
Lemma IsPowerOf2_iff v : IsPowerOf2 v = true ↔ ∃ k, 0 ≤ k ∧ v = 2 ^ k.
Proof.
  unfold IsPowerOf2. rewrite andb_true_iff, Z.ltb_lt, Z.eqb_eq. split.
  - intros [Hv Hl]. exists (Z.log2 v). split; [apply Z.log2_nonneg|].
    pose proof (Z.log2_spec v Hv) as [Hlo Hhi].
    destruct (decide (v = 2 ^ Z.log2 v)) as [|Hne]; [done|exfalso].
    assert (Z.testbit (Z.land v (v - 1)) (Z.log2 v) = true) as Hb.
    { rewrite Z.land_spec, Z.bit_log2 by done. cbn.
      assert (Z.log2 (v - 1) = Z.log2 v) as <- by (apply Z.log2_unique; [apply Z.log2_nonneg|lia]).
      apply Z.bit_log2. assert (0 < 2 ^ Z.log2 v) by (apply Z.pow_pos_nonneg; [lia|apply Z.log2_nonneg]). lia. }
    by rewrite Hl, Z.bits_0 in Hb.
  - intros (k & Hk & ->). split; [by apply Z.pow_pos_nonneg|].
    replace (2 ^ k - 1) with (Z.ones k) by (rewrite Z.ones_equiv; lia).
    rewrite Z.land_ones by done. apply Z.mod_same. apply Z.pow_nonzero; lia.
Qed.

(** FastClp2 returns the smallest power of two that is not below its argument
    when there is one of the type, and zero above the largest; IsPowerOf2 accepts
    exactly the powers of two. *)
Theorem FastClp2_correct (w t : Z) :
  word_width w = true → 0 < t < 2 ^ w →
  (t ≤ 2 ^ (w - 1) →
   IsPowerOf2 (FastClp2 w t) = true ∧ t ≤ FastClp2 w t ∧
   ∀ p, IsPowerOf2 p = true → t ≤ p → FastClp2 w t ≤ p) ∧
  (2 ^ (w - 1) < t → FastClp2 w t = 0) ∧
  (IsPowerOf2 t = true ↔ ∃ k, 0 ≤ k ∧ t = 2 ^ k).
Proof.
  intros Hw Ht. unfold FastClp2. rewrite TClp2Helper_spec by done.
  assert (8 ≤ w ≤ 64) by (apply word_width_cases in Hw; lia).
  pose proof (Z.log2_nonneg (t - 1)).
  split; [|split]; [| |apply IsPowerOf2_iff].
  - intros Ht2. destruct (Z.eqb_spec t 1) as [->|].
    { rewrite uw_small by lia. split; [done|]. split; [lia|]. intros. lia. }
    assert (Z.log2 (t - 1) < w - 1) by (apply Z.log2_lt_pow2; lia).
    assert (2 ^ (Z.log2 (t - 1) + 1) < 2 ^ w) by (apply Z.pow_lt_mono_r; lia).
    pose proof (Z.log2_spec (t - 1)) as [Hlo Hhi]; [lia|].
    replace (1 + (2 ^ (Z.log2 (t - 1) + 1) - 1)) with (2 ^ (Z.log2 (t - 1) + 1)) by lia.
    rewrite uw_small by lia. split; [apply IsPowerOf2_iff; exists (Z.log2 (t - 1) + 1); split; [lia|done]|].
    rewrite <- Z.add_1_r in Hhi. split; [lia|].
    intros p (k & Hk & ->)%IsPowerOf2_iff Hp. apply Z.pow_le_mono_r; [lia|].
    assert (Z.log2 (t - 1) < k); [|lia]. apply Z.log2_lt_pow2; lia.
  - intros Ht2. assert (0 < 2 ^ (w - 1)) by (apply Z.pow_pos_nonneg; lia).
    replace (t =? 1) with false by lia.
    assert (Z.log2 (t - 1) = w - 1) as ->.
    { apply Z.log2_unique; [lia|]. replace (Z.succ (w - 1)) with w by lia. lia. }
    unfold uw. replace (1 + (2 ^ (w - 1 + 1) - 1)) with (2 ^ w) by (rewrite Z.sub_simpl_r; lia).
    apply Z.mod_same. apply Z.pow_nonzero; lia.
Qed.

Lemma FastClp2_correct_witness :
  FastClp2 8 100 = 128 ∧ IsPowerOf2 (FastClp2 8 100) = true ∧ FastClp2 8 200 = 0.
Proof.
  split; [reflexivity|]. split.
  - apply (FastClp2_correct 8 100); [reflexivity|lia|vm_compute; discriminate].
  - apply (FastClp2_correct 8 200); [reflexivity|lia|vm_compute; reflexivity].
Defined.

(** ** Positions of bits *)

Lemma log2_shiftr_1 v : 1 < v → Z.log2 (Z.shiftr v 1) = Z.log2 v - 1 ∧ 0 < Z.shiftr v 1.
Proof.
  intros Hv. pose proof (Z.log2_shiftr v 1) as H.
  assert (1 ≤ Z.log2 v) by (apply (Z.log2_le_mono 2); lia).
  split; [rewrite H; lia|]. rewrite Z.shiftr_div_pow2 by lia. apply Z.div_str_pos. lia.
Qed.

Lemma bit_count_loop_spec fuel v r :
  0 ≤ v < 2 ^ Z.of_nat fuel →
  bit_count_loop (S fuel) v r = Some (if v =? 0 then r else r + Z.log2 v + 1).
Proof.
  revert v r. induction fuel as [|fuel IH]; intros v r Hv.
  { cbn in Hv. assert (v = 0) as -> by lia. done. }
  change (bit_count_loop (S (S fuel)) v r) with
    (if v =? 0 then Some r else bit_count_loop (S fuel) (Z.shiftr v 1) (r + 1)).
  destruct (Z.eqb_spec v 0) as [->|Hv0]; [done|].
  destruct (decide (v = 1)) as [->|].
  { change (Z.shiftr 1 1) with 0. rewrite IH; [cbn; f_equal; lia|]. split; [done|]. apply Z.pow_pos_nonneg; lia. }
  destruct (log2_shiftr_1 v) as [Hl Hp]; [lia|].
  rewrite IH.
  - replace (Z.shiftr v 1 =? 0) with false by lia. f_equal. lia.
  - rewrite Z.shiftr_div_pow2 by lia. rewrite Nat2Z.inj_succ, Z.pow_succ_r in Hv by lia.
    split; [apply Z.div_pos; lia|]. apply Z.div_lt_upper_bound; lia.
Qed.

Lemma msb_loop_spec fuel v r :
  0 < v < 2 ^ Z.of_nat fuel → msb_loop fuel v r = Some (r + Z.log2 v).
Proof.
  revert v r. induction fuel as [|fuel IH]; intros v r Hv; [cbn in Hv; lia|].
  cbn [msb_loop]. destruct (decide (v = 1)) as [->|].
  { cbn. f_equal. lia. }
  destruct (log2_shiftr_1 v) as [Hl Hp]; [lia|].
  replace (Z.shiftr v 1 =? 0) with false by lia. rewrite IH; [f_equal; lia|].
  split; [done|]. rewrite Z.shiftr_div_pow2 by lia.
  rewrite Nat2Z.inj_succ, Z.pow_succ_r in Hv by lia. apply Z.div_lt_upper_bound; lia.
Qed.

Lemma MostSignificantBitCT_spec fuel x :
  0 ≤ x < 2 ^ Z.of_nat fuel → (0 < fuel)%nat → MostSignificantBitCT fuel x = Some (Z.log2 x).
Proof.
  revert x. induction fuel as [|fuel IH]; intros x Hx Hf; [lia|].
  cbn [MostSignificantBitCT]. destruct (Z.ltb_spec 1 x).
  - destruct (log2_shiftr_1 x) as [Hl Hp]; [done|].
    rewrite Nat2Z.inj_succ, Z.pow_succ_r in Hx by lia. rewrite IH.
    + cbn. f_equal. lia.
    + split; [lia|]. rewrite Z.shiftr_div_pow2 by lia. apply Z.div_lt_upper_bound; lia.
    + destruct fuel; [cbn in Hx; lia|lia].
  - assert (x = 0 ∨ x = 1) as [->| ->] by lia; done.
Qed.

Lemma pos_ctz_spec p :
  0 ≤ pos_ctz p ≤ Z.log2 (Zpos p) ∧ Z.testbit (Zpos p) (pos_ctz p) = true ∧
  ∀ j, 0 ≤ j < pos_ctz p → Z.testbit (Zpos p) j = false.
Proof.
  induction p as [p IH|p (Hr & Hb & Hlow)|]; cbn [pos_ctz].
  - split; [split; [done|apply Z.log2_nonneg]|]. split; [done|lia].
  - rewrite Pos2Z.inj_xO, Z.log2_double by lia. split; [lia|].
    rewrite Z.add_1_l, Z.double_bits_succ. split; [done|]. intros j Hj.
    destruct (decide (j = 0)) as [->|]; [apply Z.testbit_even_0|].
    replace j with (Z.succ (j - 1)) by lia. rewrite Z.double_bits_succ. apply Hlow. lia.
  - split; [done|]. split; [done|lia].
Qed.

Lemma trailing_loop_spec fuel p r :
  pos_ctz p < Z.of_nat fuel → trailing_loop fuel (Zpos p) r = Some (r + pos_ctz p).
Proof.
  revert p r. induction fuel as [|fuel IH]; intros p r Hf.
  { pose proof (pos_ctz_spec p). lia. }
  cbn [trailing_loop]. destruct p as [p|p|]; cbn [pos_ctz] in *.
  - change (Z.land (Z.pos p~1) 1) with 1. cbn [Z.eqb]. f_equal. lia.
  - change (Z.land (Z.pos p~0) 1) with 0. change (Z.shiftr (Z.pos p~0) 1) with (Z.pos p).
    cbn [Z.eqb]. rewrite IH by lia. f_equal. lia.
  - cbn. f_equal. lia.
Qed.

Lemma trailing_loop_zero fuel r : trailing_loop fuel 0 r = None.
Proof. revert r. induction fuel as [|fuel IH]; intros r; [done|]. apply IH. Qed.

(** On a non-zero 64-bit word the builtin and the portable version of each
    search give the same answer within 64 iterations: the bit count is one more
    than the position of the highest bit, found also by the compile-time version,
    and the trailing zeros are counted up to the lowest bit; at zero the position
    searches give 0 and the portable trailing-zero loop never ends. *)
Theorem bit_positions_correct (v : Z) :
  0 < v < 2 ^ 64 →
  ∃ high low,
    0 ≤ low ≤ high ∧ high < 64 ∧ Z.testbit v high = true ∧ Z.testbit v low = true ∧
    (∀ i, high < i → Z.testbit v i = false) ∧ (∀ i, 0 ≤ i < low → Z.testbit v i = false) ∧
    GetValueBitCount 64 v = Ret (high + 1) ∧ GetValueBitCount_loop 64 v = Some (high + 1) ∧
    MostSignificantBit v = Ret high ∧ MostSignificantBit_loop 64 v = Some high ∧
    MostSignificantBitCT 64 v = Some high ∧
    CountTrailingZeroBits v = Ret low ∧ CountTrailingZeroBits_loop 64 v = Some low ∧
    LeastSignificantBit v = low ∧ LeastSignificantBit_loop 64 v = Some low ∧
    MostSignificantBit 0 = Ret 0 ∧ MostSignificantBit_loop 64 0 = Some 0 ∧
    LeastSignificantBit 0 = 0 ∧ ∀ fuel, CountTrailingZeroBits_loop fuel 0 = None.
Proof.
  intros Hv. destruct v as [|p|p]; [lia| |lia].
  exists (Z.log2 (Zpos p)), (pos_ctz p).
  destruct (pos_ctz_spec p) as (Hr & Hb & Hlow).
  assert (Z.log2 (Zpos p) < 64) by (apply Z.log2_lt_pow2; lia).
  split; [done|]. split; [done|]. split; [by apply Z.bit_log2|]. split; [done|].
  split; [intros; by apply Z.bits_above_log2|]. split; [done|].
  assert (GetValueBitCount_loop 64 (Zpos p) = Some (Z.log2 (Zpos p) + 1)) as ->.
  { unfold GetValueBitCount_loop. destruct (decide (Zpos p = 1)) as [->|]; [done|].
    destruct (log2_shiftr_1 (Zpos p)) as [Hl Hp]; [lia|].
    rewrite (bit_count_loop_spec 63).
    - replace (_ =? 0) with false by lia. f_equal. lia.
    - rewrite Z.shiftr_div_pow2 by lia. split; [apply Z.div_pos; lia|].
      apply Z.div_lt_upper_bound; lia. }
  assert (MostSignificantBit_loop 64 (Zpos p) = Some (Z.log2 (Zpos p))) as ->.
  { unfold MostSignificantBit_loop. cbn [Z.eqb]. by rewrite msb_loop_spec. }
  rewrite (MostSignificantBitCT_spec 64) by (done || lia).
  unfold CountTrailingZeroBits_loop, LeastSignificantBit_loop. cbn [Z.eqb].
  rewrite trailing_loop_spec by lia.
  unfold GetValueBitCount, MostSignificantBit, builtin_clz, LeastSignificantBit. cbn [Z.eqb].
  cbn [mbind outcome_bind builtin_ffs].
  split; [f_equal; lia|]. split; [done|]. split; [f_equal; lia|].
  do 3 (split; [done|]). split; [done|]. split; [lia|].
  do 4 (split; [done|]). intros. apply trailing_loop_zero.
Qed.

Lemma bit_positions_correct_witness :
  0 < 0x0150 < 2 ^ 64 ∧ ∃ high low, MostSignificantBit 0x150 = Ret high ∧
    LeastSignificantBit 0x150 = low ∧ high = 8 ∧ low = 4.
Proof.
  split; [lia|].
  destruct (bit_positions_correct 0x150) as (h & l & H); [lia|].
  exists h, l. destruct H as (_ & _ & _ & _ & _ & _ & _ & _ & Hm & _ & _ & _ & _ & Hl & _).
  split; [done|]. split; [done|]. vm_compute in Hm, Hl. split; [by injection Hm|done].
Defined.

(** CeilLog2 rounds the binary logarithm up for every argument of two and
    more; at one it returns 1 and not 0, and at zero 64. *)
Lemma CeilLog2_correct (x : Z) :
  2 ≤ x < 2 ^ 64 →
  ∃ r, CeilLog2 x = Ret r ∧ 1 ≤ r ≤ 64 ∧ 2 ^ (r - 1) < x ≤ 2 ^ r ∧
    CeilLog2 1 = Ret 1 ∧ CeilLog2 0 = Ret 64.
Proof.
  intros Hx. unfold CeilLog2, MostSignificantBit, builtin_clz.
  rewrite u64_small by lia. replace (x - 1 =? 0) with false by lia. cbn [mbind outcome_bind].
  pose proof (Z.log2_nonneg (x - 1)).
  assert (Z.log2 (x - 1) < 64) by (apply Z.log2_lt_pow2; lia).
  pose proof (Z.log2_spec (x - 1)) as [Hlo Hhi]; [lia|].
  eexists. split; [done|].
  replace (63 - (64 - 1 - Z.log2 (x - 1))) with (Z.log2 (x - 1)) by lia.
  rewrite (uw_small 8 (Z.log2 (x - 1))), uw_small by lia.
  split; [lia|]. split; [|done]. rewrite Z.add_simpl_r, Z.add_1_r. lia.
Qed.

Lemma CeilLog2_correct_witness : ∃ r, CeilLog2 100 = Ret r ∧ 2 ^ (r - 1) < 100 ≤ 2 ^ r.
Proof.
  destruct (CeilLog2_correct 100) as (r & Hr & _ & Hb & _); [lia|]. by exists r.
Defined.
