(* ===== verification/Random.v ===== *)
(** * Random numbers: [util/random/lcg_engine.h/.cpp], [fast.h/.cpp],
    [mersenne32.h/.cpp], [mersenne64.h/.cpp], [common_ops.h], [shuffle.h]

    A generator is a state and a function from states to words; [TRandGen] is the
    interface the distributions and [Shuffle] use of it, with its law [TRandGenOk].  The
    words wrap at the width of their type ([uw]).  Nothing is said about the quality of
    a sequence of words: the theorems are about what the code does with it, whatever it
    is.  The constructors that read a seed from a stream are left out. *)
From Stdlib Require Import SpecFloat.
From S2P Require Import Prelude BitOps.
Open Scope Z_scope.

(** ** Linear congruential engines *)

(** [TFastLcgIterator::Iterate] and [TLcgIterator::Iterate] at [w] bits. *)
Definition Iterate (w A C x : Z) : Z := uw w (uw w (x * A) + C).

(** The constructor of [TLcgIterator]: an odd addend. *)
Definition TLcgIterator_C (w seq : Z) : Z := Z.lor (uw w (Z.shiftl seq 1)) 1.

(** [LcgAdvance]: the highest bit of [delta], and the loop over its bits. *)
Fixpoint mask_loop (fuel : nat) (w delta mask : Z) : Z :=
  match fuel with
  | O => mask
  | S fuel =>
      if negb (mask =? 2 ^ (w - 1)) && (uw w (Z.shiftl mask 1) <=? delta)
      then mask_loop fuel w delta (uw w (Z.shiftl mask 1)) else mask
  end.

Fixpoint advance_loop (fuel : nat) (w base delta mask apow adiv : Z) : Z * Z :=
  match fuel with
  | O => (apow, adiv)
  | S fuel =>
      if mask =? 0 then (apow, adiv)
      else
        let adiv := uw w (adiv * uw w (apow + 1)) in
        let apow := uw w (apow * apow) in
        let '(apow, adiv) :=
          if Z.land delta mask =? 0 then (apow, adiv)
          else (uw w (apow * base), uw w (adiv + apow)) in
        advance_loop fuel w base delta (Z.shiftr mask 1) apow adiv
  end.

Definition LcgAdvance (w seed base addend delta : Z) : Z :=
  let mask := mask_loop (Z.to_nat w) w delta 1 in
  let '(apow, adiv) := advance_loop (S (Z.to_nat w)) w base delta mask 1 0 in
  uw w (uw w (seed * apow) + uw w (addend * adiv)).

(** [TPCGMixer::Mix] *)
Definition PCG_Mix (x : Z) : outcome Z :=
  let xorshifted := uw 32 (Z.shiftr (Z.lxor (Z.shiftr x 18) x) 27) in
  let rot := Z.shiftr x 59 in
  RotateBitsRight 32 xorshifted rot.

(** ** Generators *)

(** The words a generator gives, of [rand_width] bits. *)
Class TRandGen (G : Type) := {
  rand_width : Z;
  GenRand : G → outcome (Z * G);
}.

(** What it promises, from its good states on. *)
Class TRandGenOk (G : Type) `{TRandGen G} := {
  rand_good : G → Prop;
  rand_width_pos : 0 < rand_width (G := G);
  GenRand_ok g : rand_good g → ∃ x g', GenRand g = Ret (x, g') ∧ 0 ≤ x < 2 ^ rand_width (G := G) ∧ rand_good g';
}.

(** [TLcgRngBase] with 64 bits of state: [TLcgIterator] has an addend of its own. *)
Record TLcgRngBase : Type := { LcgC : Z; X : Z }.

Definition LCG_A : Z := 6364136223846793005.

Definition Lcg_GenRand (g : TLcgRngBase) : outcome (Z * TLcgRngBase) :=
  let x := Iterate 64 LCG_A (LcgC g) (X g) in
  r ← PCG_Mix x;
  Ret (r, {| LcgC := LcgC g; X := x |}).

Definition Lcg_Advance (g : TLcgRngBase) (delta : Z) : TLcgRngBase :=
  {| LcgC := LcgC g; X := LcgAdvance 64 (X g) LCG_A (LcgC g) delta |}.

(** [TFastRng32(seed, seq)] and [TReallyFastRng32(seed)] *)
Definition TFastRng32 (seed seq : Z) : TLcgRngBase := {| LcgC := TLcgIterator_C 64 seq; X := seed |}.
Definition TReallyFastRng32 (seed : Z) : TLcgRngBase := {| LcgC := 1; X := seed |}.

#[export] Instance Lcg_gen : TRandGen TLcgRngBase := { rand_width := 32; GenRand := Lcg_GenRand }.

(** [TCommonRNG::GenRand64] of a generator of 32 bits; the first word is the low one. *)
Definition GenRand64 (g : TLcgRngBase) : outcome (Z * TLcgRngBase) :=
  x ← GenRand g;
  y ← GenRand x.2;
  Ret (Z.lor x.1 (u64 (Z.shiftl y.1 32)), y.2).

(** [TFastRng64] *)
Record TFastRng64 : Type := { R1_ : TLcgRngBase; R2_ : TLcgRngBase }.

Definition FixSeq (seq1 seq2 : Z) : Z :=
  let mask := Z.shiftr (uw 32 (Z.lnot 0)) 1 in
  if Z.land seq1 mask =? Z.land seq2 mask then uw 32 (Z.lnot seq2) else seq2.

Definition new_TFastRng64 (seed1 seq1 seed2 seq2 : Z) : TFastRng64 :=
  {| R1_ := TFastRng32 seed1 seq1; R2_ := TFastRng32 seed2 (FixSeq seq1 seq2) |}.

(** [TFastRng64(TArgs(seed))] *)
Definition TFastRng64_of_seed (seed : Z) : outcome TFastRng64 :=
  seed1 ← GenRand64 (TReallyFastRng32 seed);
  seq1 ← GenRand seed1.2;
  seed2 ← GenRand64 seq1.2;
  seq2 ← GenRand seed2.2;
  Ret (new_TFastRng64 seed1.1 seq1.1 seed2.1 seq2.1).

Definition Fast64_GenRand (g : TFastRng64) : outcome (Z * TFastRng64) :=
  x ← GenRand (R1_ g);
  y ← GenRand (R2_ g);
  Ret (Z.lor (u64 (Z.shiftl x.1 32)) y.1, {| R1_ := x.2; R2_ := y.2 |}).

Definition Fast64_Advance (g : TFastRng64) (delta : Z) : TFastRng64 :=
  {| R1_ := Lcg_Advance (R1_ g) delta; R2_ := Lcg_Advance (R2_ g) delta |}.

#[export] Instance Fast64_gen : TRandGen TFastRng64 := { rand_width := 64; GenRand := Fast64_GenRand }.

(** ** Uniform numbers and shuffling *)

Section Uniform.
  Context `{TRandGen G}.

Definition RandMax : Z := 2 ^ rand_width (G := G) - 1.

(** [GenUniform(max, gen)]: words are drawn until one is below a multiple of [max].  The
    loop may run for ever; [draws] is the number of words it may take here. *)
Fixpoint uniform_loop (draws : nat) (randmax : Z) (g : G) : outcome (Z * G) :=
  match draws with
  | O => Fail (Undef UEndless)
  | S draws =>
      r ← GenRand g;
      if r.1 <? randmax then Ret r else uniform_loop draws randmax r.2
  end.

Definition GenUniform (draws : nat) (max : Z) (g : G) : outcome (Z * G) :=
  _ ← verify (0 <? max) VRandomRange;
  r ← uniform_loop draws (RandMax - RandMax `mod` max) g;
  Ret (r.1 `mod` max, r.2).

(** [TCommonRNG::Uniform(t)] and [Uniform(f, t)]; the arguments are converted to the type
    of the words. *)
Definition Uniform (draws : nat) (t : Z) (g : G) : outcome (Z * G) :=
  GenUniform draws (uw (rand_width (G := G)) t) g.

Definition Uniform_from (draws : nat) (f t : Z) (g : G) : outcome (Z * G) :=
  r ← Uniform draws (t - f) g;
  Ret (uw (rand_width (G := G)) (f + r.1), r.2).

(** [DoSwap(v[i], v[j])] *)
Definition DoSwap {A} (l : list A) (i j : Z) : outcome (list A) :=
  x ← vat l i;
  y ← vat l j;
  l ← vset l i y;
  vset l j x.

(** [Shuffle(begin, end, gen)] *)
Definition shuffle_step {A} (draws : nat) (s : list A * G) (i : Z) : outcome (list A * G) :=
  r ← Uniform draws (i + 1) s.2;
  l ← DoSwap s.1 i r.1;
  Ret (l, r.2).

Definition Shuffle {A} (draws : nat) (l : list A) (g : G) : outcome (list A * G) :=
  mfold (shuffle_step draws) (l, g) (seqZ 1 (vsize l - 1)).

End Uniform.

(** [ToRandReal4(x)]: the product with the power of two is exact in [long double] and its
    conversion to [double] rounds to nearest. *)
Definition ToRandReal4 (x : Z) : spec_float := binary_normalize 53 1024 x (-64) false.

(** ** Mersenne twisters

    [TMersenne32] and [TMersenne64] are the same code with other constants. *)
Record mt_params : Type := {
  mt_w : Z;                       (* the width of a word *)
  mt_n : Z;                       (* NN, the number of words of the state *)
  mt_m : Z;                       (* MM *)
  mt_matrix : Z;                  (* MATRIX_A *)
  mt_upper : Z;                   (* UM *)
  mt_lower : Z;                   (* LM *)
  mt_init : Z;                    (* the multiplier of InitGenRand *)
  mt_init_shift : Z;
  mt_key1 : Z;                    (* the multipliers of InitByArray *)
  mt_key2 : Z;
  mt_default : Z;                 (* the seeds of InitNext and InitByArray *)
  mt_array : Z;
  mt_u : Z; mt_u_mask : Z;        (* the shifts and masks of GenRand *)
  mt_s : Z; mt_s_mask : Z;
  mt_t : Z; mt_t_mask : Z;
  mt_l : Z;
}.

Definition mt32 : mt_params := {|
  mt_w := 32; mt_n := 624; mt_m := 397; mt_matrix := 0x9908b0df;
  mt_upper := 0x80000000; mt_lower := 0x7fffffff;
  mt_init := 1812433253; mt_init_shift := 30; mt_key1 := 1664525; mt_key2 := 1566083941;
  mt_default := 5489; mt_array := 19650218;
  mt_u := 11; mt_u_mask := 0xffffffff; mt_s := 7; mt_s_mask := 0x9d2c5680;
  mt_t := 15; mt_t_mask := 0xefc60000; mt_l := 18 |}.

Definition mt64 : mt_params := {|
  mt_w := 64; mt_n := 312; mt_m := 156; mt_matrix := 0xB5026F5AA96619E9;
  mt_upper := 0xFFFFFFFF80000000; mt_lower := 0x7FFFFFFF;
  mt_init := 6364136223846793005; mt_init_shift := 62; mt_key1 := 3935559000370003845;
  mt_key2 := 2862933555777941757;
  mt_default := 5489; mt_array := 19650218;
  mt_u := 29; mt_u_mask := 0x5555555555555555; mt_s := 17; mt_s_mask := 0x71D67FFFEDA60000;
  mt_t := 37; mt_t_mask := 0xFFF7EEE000000000; mt_l := 43 |}.

Section Mersenne.
  Variable c : mt_params.

(** The members [mt] and [mti]. *)
Record TMersenne : Type := { mt : list Z; mti : Z }.

(** [x ^ (x >> s)] *)
Definition xorshift (x s : Z) : Z := Z.lxor x (Z.shiftr x s).

(** [InitGenRand(s)] *)
Definition InitGenRand (seed : Z) (words : list Z) : outcome TMersenne :=
  words ← vset words 0 seed;
  words ← mfold (λ words i,
      prev ← vat words (i - 1);
      vset words i (uw (mt_w c) (uw (mt_w c) (mt_init c * xorshift prev (mt_init_shift c)) + i)))
    words (seqZ 1 (mt_n c - 1));
  Ret {| mt := words; mti := mt_n c |}.

(** The step of both loops of [InitByArray] at [i]: the word that is written. *)
Definition key_step (mult : Z) (words : list Z) (i : Z) : outcome Z :=
  cur ← vat words i;
  prev ← vat words (i - 1);
  Ret (Z.lxor cur (uw (mt_w c) (xorshift prev (mt_init_shift c) * mult))).

(** [++i] and the jump back to 1. *)
Definition next_key_index (words : list Z) (i : Z) : outcome (list Z * Z) :=
  if mt_n c <=? i + 1 then
    last ← vat words (mt_n c - 1);
    words ← vset words 0 last;
    Ret (words, 1)
  else Ret (words, i + 1).

Definition key_loop1 (keys : list Z) (s : list Z * Z * Z) (k : Z) : outcome (list Z * Z * Z) :=
  let '(words, i, j) := s in
  x ← key_step (mt_key1 c) words i;
  key ← vat keys j;
  words ← vset words i (uw (mt_w c) (uw (mt_w c) (x + key) + j));
  r ← next_key_index words i;
  let j := uw (mt_w c) (j + 1) in
  Ret (r.1, r.2, if vsize keys <=? j then 0 else j).

Definition key_loop2 (s : list Z * Z) (k : Z) : outcome (list Z * Z) :=
  let '(words, i) := s in
  x ← key_step (mt_key2 c) words i;
  words ← vset words i (uw (mt_w c) (x - i));
  next_key_index words i.

(** [InitByArray(init_key, key_length)] *)
Definition InitByArray (keys : list Z) (words : list Z) : outcome TMersenne :=
  g ← InitGenRand (mt_array c) words;
  s ← mfold (key_loop1 keys) (mt g, 1, 0) (seqZ 0 (uw (mt_w c) (Z.max (mt_n c) (vsize keys))));
  s ← mfold key_loop2 s.1 (seqZ 0 (mt_n c - 1));
  words ← vset s.1 0 (2 ^ (mt_w c - 1));
  Ret {| mt := words; mti := mti g |}.

(** [x = (a & UM) | (b & LM)] and [(x >> 1) ^ mag01[x & 1]] *)
Definition twist (a b : Z) : Z :=
  let x := Z.lor (Z.land a (mt_upper c)) (Z.land b (mt_lower c)) in
  Z.lxor (Z.shiftr x 1) (if Z.odd x then mt_matrix c else 0).

(** A pass of the loops of [InitNext]: [mt[i] = mt[far] ^ ...]. *)
Definition next_word (words : list Z) (i next far : Z) : outcome (list Z) :=
  a ← vat words i;
  b ← vat words next;
  f ← vat words far;
  vset words i (Z.lxor f (twist a b)).

Definition InitNext (g : TMersenne) : outcome TMersenne :=
  g ← if mti g =? mt_n c + 1 then InitGenRand (mt_default c) (mt g) else Ret g;
  words ← mfold (λ words i, next_word words i (i + 1) (i + mt_m c)) (mt g) (seqZ 0 (mt_n c - mt_m c));
  words ← mfold (λ words i, next_word words i (i + 1) (i + (mt_m c - mt_n c))) words
            (seqZ (mt_n c - mt_m c) (mt_m c - 1));
  words ← next_word words (mt_n c - 1) 0 (mt_m c - 1);
  Ret {| mt := words; mti := 0 |}.

(** The mixing of a word by [GenRand]. *)
Definition temper (x : Z) : Z :=
  let x := Z.lxor x (Z.land (Z.shiftr x (mt_u c)) (mt_u_mask c)) in
  let x := Z.lxor x (Z.land (uw (mt_w c) (Z.shiftl x (mt_s c))) (mt_s_mask c)) in
  let x := Z.lxor x (Z.land (uw (mt_w c) (Z.shiftl x (mt_t c))) (mt_t_mask c)) in
  Z.lxor x (Z.shiftr x (mt_l c)).

Definition Mersenne_GenRand (g : TMersenne) : outcome (Z * TMersenne) :=
  g ← if mt_n c <=? mti g then InitNext g else Ret g;
  x ← vat (mt g) (mti g);
  Ret (temper x, {| mt := mt g; mti := mti g + 1 |}).

(** The constructors; the members hold some words before. *)
Definition new_TMersenne (seed : Z) (words : list Z) : outcome TMersenne := InitGenRand seed words.
Definition new_TMersenne_keys (keys words : list Z) : outcome TMersenne := InitByArray keys words.

End Mersenne.

(** The two classes. *)
Definition TMersenne32_GenRand : TMersenne → outcome (Z * TMersenne) := Mersenne_GenRand mt32.
Definition TMersenne64_GenRand : TMersenne → outcome (Z * TMersenne) := Mersenne_GenRand mt64.

(** ** Advancing an engine *)

(** [1 + A + ... + A^(m-1)] *)
Fixpoint geometric (A : Z) (m : nat) : Z :=
  match m with O => 0 | S m => geometric A m + A ^ Z.of_nat m end.

Lemma geometric_add A m k : geometric A (m + k) = geometric A m + A ^ Z.of_nat m * geometric A k.
Proof.
  induction k as [|k IH]; [rewrite Nat.add_0_r; cbn; lia|].
  rewrite Nat.add_succ_r. cbn [geometric]. rewrite IH, Nat2Z.inj_add, Z.pow_add_r by lia. lia.
Qed.

(** Reducing the operands of a sum or a product does not change it. *)
Lemma uw_add_l w x y : uw w (uw w x + y) = uw w (x + y).
Proof. apply Zplus_mod_idemp_l. Qed.
Lemma uw_add_r w x y : uw w (x + uw w y) = uw w (x + y).
Proof. apply Zplus_mod_idemp_r. Qed.
Lemma uw_mul_l w x y : uw w (uw w x * y) = uw w (x * y).
Proof. apply Zmult_mod_idemp_l. Qed.
Lemma uw_mul_r w x y : uw w (x * uw w y) = uw w (x * y).
Proof. apply Zmult_mod_idemp_r. Qed.

#[local] Hint Rewrite uw_add_l uw_add_r uw_mul_l uw_mul_r : uw.

(** The closed form of [n] steps. *)
Lemma Iterate_n w A C x n : 0 ≤ x < 2 ^ w →
  Nat.iter n (Iterate w A C) x = uw w (x * A ^ Z.of_nat n + C * geometric A n).
Proof.
  intros Hx. induction n as [|n IH].
  - cbn. rewrite uw_small; lia.
  - cbn [Nat.iter nat_rect geometric]. change (nat_rect _ _ _ n) with (Nat.iter n (Iterate w A C) x). rewrite IH.
    unfold Iterate. autorewrite with uw. f_equal. rewrite Nat2Z.inj_succ, Z.pow_succ_r by lia.
    assert (Hg : geometric A n * A + 1 = geometric A n + A ^ Z.of_nat n).
    { pose proof (geometric_add A n 1) as H1. pose proof (geometric_add A 1 n) as H2.
      rewrite Nat.add_comm in H2. rewrite H1 in H2. cbn [geometric] in H2. rewrite Z.pow_0_r, Z.pow_1_r in H2. lia. }
    nia.
Qed.

(** The highest bit of [delta]. *)
Lemma mask_loop_spec w delta : 0 < w → 0 ≤ delta < 2 ^ w → ∀ fuel k,
  0 ≤ k < w → (k = 0 ∨ 2 ^ k ≤ delta) → w - k ≤ Z.of_nat fuel →
  ∃ j, mask_loop fuel w delta (2 ^ k) = 2 ^ j ∧ 0 ≤ j < w ∧ delta < 2 ^ (j + 1).
Proof.
  intros Hw Hd fuel. induction fuel as [|fuel IH]; intros k Hk Hlow Hf; [lia|]. cbn [mask_loop].
  rewrite Z.shiftl_mul_pow2, <- Z.pow_add_r by lia.
  destruct (Z.eqb_spec (2 ^ k) (2 ^ (w - 1))) as [He|Hne]; cbn.
  - apply Z.pow_inj_r in He; [|lia..]. exists k. split; [done|]. split; [lia|].
    replace (k + 1) with w by lia. lia.
  - assert (k < w - 1) by (destruct (decide (k = w - 1)) as [->|]; [done|lia]).
    rewrite uw_small by (split; [lia|apply Z.pow_lt_mono_r; lia]).
    destruct (Z.leb_spec (2 ^ (k + 1)) delta).
    + apply IH; lia.
    + exists k. auto with lia.
Qed.

(** The bit of a power of two. *)
Lemma land_pow2 d k : 0 ≤ k → Z.land d (2 ^ k) = 0 ↔ Z.testbit d k = false.
Proof.
  intros Hk. split.
  - intros H. assert (Hb : Z.testbit (Z.land d (2 ^ k)) k = false) by (by rewrite H, Z.testbit_0_l).
    rewrite Z.land_spec, Z.pow2_bits_true in Hb by done. by rewrite andb_true_r in Hb.
  - intros H. apply Z.bits_inj'. intros i Hi. rewrite Z.land_spec, Z.testbit_0_l.
    destruct (decide (i = k)) as [->|Hne]; [by rewrite H|]. rewrite Z.pow2_bits_false by done. apply andb_false_r.
Qed.

Lemma shiftr_halves d k : 0 ≤ k → Z.shiftr d k = 2 * Z.shiftr d (k + 1) + Z.b2z (Z.testbit d k).
Proof.
  intros Hk. rewrite <- (Z.shiftr_shiftr d k 1) by lia. rewrite <- Z.div2_spec.
  rewrite (Z.div2_odd (Z.shiftr d k)) at 1. f_equal.
  rewrite <- Z.bit0_odd, Z.shiftr_spec by done. by rewrite Z.add_0_l.
Qed.

(** A pass of the loop: the powers of the number of the bits above become those of the
    number that ends with bit [k]. *)
Lemma advance_pass fuel w base delta k : 0 ≤ delta → 0 ≤ k →
  let m := Z.shiftr delta (k + 1) in
  let m' := Z.shiftr delta k in
  advance_loop (S fuel) w base delta (2 ^ k) (uw w (base ^ m)) (uw w (geometric base (Z.to_nat m))) =
  advance_loop fuel w base delta (Z.shiftr (2 ^ k) 1) (uw w (base ^ m')) (uw w (geometric base (Z.to_nat m'))).
Proof.
  intros Hd Hk m m'. assert (Hm : 0 ≤ m) by (by apply Z.shiftr_nonneg).
  assert (Hm' : m' = 2 * m + Z.b2z (Z.testbit delta k)) by (by apply shiftr_halves).
  cbn [advance_loop]. assert (Hpos : 0 < 2 ^ k) by (apply Z.pow_pos_nonneg; lia).
  replace (2 ^ k =? 0) with false by lia.
  assert (Hpow : base ^ (2 * m) = base ^ m * base ^ m) by (replace (2 * m) with (m + m) by lia; by apply Z.pow_add_r).
  assert (Hgeo : geometric base (Z.to_nat (2 * m)) = geometric base (Z.to_nat m) * (base ^ m + 1)).
  { replace (Z.to_nat (2 * m)) with (Z.to_nat m + Z.to_nat m)%nat by lia. rewrite geometric_add, Z2Nat.id by lia. lia. }
  assert (Hodd : geometric base (Z.to_nat (2 * m + 1)) = geometric base (Z.to_nat (2 * m)) + base ^ (2 * m)).
  { replace (Z.to_nat (2 * m + 1)) with (S (Z.to_nat (2 * m))) by lia. cbn [geometric]. by rewrite Z2Nat.id by lia. }
  assert (Hp : uw w (uw w (base ^ m) * uw w (base ^ m)) = uw w (base ^ (2 * m)))
    by (rewrite uw_mul_l, uw_mul_r; by f_equal).
  assert (Hg : uw w (uw w (geometric base (Z.to_nat m)) * uw w (uw w (base ^ m) + 1)) =
    uw w (geometric base (Z.to_nat (2 * m))))
    by (rewrite uw_mul_l, uw_add_l, uw_mul_r; by f_equal).
  cbv zeta. rewrite Hp, Hg. destruct (Z.testbit delta k) eqn:Hbit; cbn [Z.b2z] in Hm'; rewrite Hm'.
  - destruct (Z.eqb_spec (Z.land delta (2 ^ k)) 0) as [H0|_]; [by apply land_pow2 in H0; [congruence|]|].
    rewrite uw_mul_l, uw_add_l, uw_add_r, Hodd. by rewrite Z.pow_add_r, Z.pow_1_r by lia.
  - apply land_pow2 in Hbit as ->; [|done]. by rewrite Z.add_0_r.
Qed.

(** The loop over the bits up to [k]. *)
Lemma advance_loop_spec w base delta : 0 ≤ delta → ∀ k fuel, (k < fuel)%nat →
  let m := Z.shiftr delta (Z.of_nat k + 1) in
  advance_loop (S fuel) w base delta (2 ^ Z.of_nat k) (uw w (base ^ m)) (uw w (geometric base (Z.to_nat m))) =
  (uw w (base ^ delta), uw w (geometric base (Z.to_nat delta))).
Proof.
  intros Hd k. induction k as [|k IH]; intros fuel Hf m; subst m; rewrite advance_pass by lia.
  - rewrite Z.shiftr_0_r. by destruct fuel.
  - rewrite Z.shiftr_div_pow2, Z.pow_1_r by lia. rewrite Nat2Z.inj_succ, Z.pow_succ_r by lia.
    rewrite Z.mul_comm, Z.div_mul by lia. destruct fuel as [|fuel]; [lia|].
    rewrite <- (IH fuel) by lia. by rewrite Z.add_1_r.
Qed.

(** C38: [Advance(delta)] leaves a linear congruential engine where [delta] numbers
    would leave it, for every multiplier and addend and at any width. *)
Theorem LcgAdvance_correct (w seed base addend delta : Z) :
  0 < w → 0 ≤ seed < 2 ^ w → 0 ≤ delta < 2 ^ w →
  LcgAdvance w seed base addend delta = Nat.iter (Z.to_nat delta) (Iterate w base addend) seed.
Proof.
  intros Hw Hs Hd. unfold LcgAdvance.
  destruct (mask_loop_spec w delta Hw Hd (Z.to_nat w) 0) as (j & Hj & Hjw & Hhigh); [lia|by left|lia|].
  change 1 with (2 ^ 0) at 1. rewrite Hj.
  pose proof (advance_loop_spec w base delta (proj1 Hd) (Z.to_nat j) (Z.to_nat w) ltac:(lia)) as Hl.
  cbv zeta in Hl. rewrite Z2Nat.id in Hl by lia.
  assert (Hz : Z.shiftr delta (j + 1) = 0) by (rewrite Z.shiftr_div_pow2 by lia; apply Z.div_small; lia).
  rewrite Hz in Hl. rewrite Z.pow_0_r in Hl. change (geometric base (Z.to_nat 0)) with 0 in Hl.
  assert (H1 : uw w 1 = 1) by (apply uw_small; split; [lia|by apply Z.pow_gt_1]).
  assert (H0 : uw w 0 = 0) by (apply uw_small; lia).
  rewrite H1, H0 in Hl. rewrite Hl, Iterate_n, Z2Nat.id by lia. by autorewrite with uw.
Qed.

Lemma LcgAdvance_correct_witness :
  LcgAdvance 64 17 LCG_A 1 100 = Nat.iter (Z.to_nat 100) (Iterate 64 LCG_A 1) 17.
Proof. apply (LcgAdvance_correct 64 17 LCG_A 1 100); lia. Defined.

(** ** Good generators *)

Lemma uw_of_word w x : 0 ≤ x < 2 ^ w → uw w x = x.
Proof. apply uw_small. Qed.

Lemma PCG_Mix_ok x : 0 ≤ x < 2 ^ 64 → ∃ r, PCG_Mix x = Ret r ∧ 0 ≤ r < 2 ^ 32.
Proof.
  intros Hx. destruct (RotateBitsRight_spec 32 (uw 32 (Z.shiftr (Z.lxor (Z.shiftr x 18) x) 27)) (Z.shiftr x 59))
    as (r & Hr & Hw & _); [done|apply uw_range; lia| |eauto].
  rewrite Z.shiftr_div_pow2 by lia. split; [by apply Z.div_pos; lia|]. apply Z.div_lt_upper_bound; lia.
Qed.

Definition lcg_good (g : TLcgRngBase) : Prop := 0 ≤ X g < 2 ^ 64.

Lemma Lcg_GenRand_ok g : lcg_good g → ∃ x g', Lcg_GenRand g = Ret (x, g') ∧ 0 ≤ x < 2 ^ 32 ∧ lcg_good g'.
Proof.
  intros Hg. unfold Lcg_GenRand.
  assert (Hx : 0 ≤ Iterate 64 LCG_A (LcgC g) (X g) < 2 ^ 64) by (apply uw_range; lia).
  destruct (PCG_Mix_ok _ Hx) as (r & Hr & Hw). rewrite Hr, bind_Ret. by eexists _, _.
Qed.

#[export] Instance Lcg_ok : TRandGenOk TLcgRngBase :=
  { rand_good := lcg_good; rand_width_pos := eq_refl; GenRand_ok := Lcg_GenRand_ok }.

(** The words of a [TFastRng64] are two words of its engines. *)
Definition fast64_good (g : TFastRng64) : Prop := lcg_good (R1_ g) ∧ lcg_good (R2_ g).

Lemma Fast64_GenRand_ok g : fast64_good g →
  ∃ x g', Fast64_GenRand g = Ret (x, g') ∧ 0 ≤ x < 2 ^ 64 ∧ fast64_good g'.
Proof.
  intros [H1 H2]. unfold Fast64_GenRand. cbn [GenRand Lcg_gen].
  destruct (Lcg_GenRand_ok (R1_ g) H1) as (x & g1 & Hx & Hxw & Hg1). rewrite Hx, bind_Ret.
  destruct (Lcg_GenRand_ok (R2_ g) H2) as (y & g2 & Hy & Hyw & Hg2). rewrite Hy, bind_Ret.
  eexists _, _. split; [done|]. split; [|done]. cbn [fst].
  apply lor_word; [apply Z.mod_pos_bound; lia|lia].
Qed.

#[export] Instance Fast64_ok : TRandGenOk TFastRng64 :=
  { rand_good := fast64_good; rand_width_pos := eq_refl; GenRand_ok := Fast64_GenRand_ok }.

(** ** Uniform numbers *)

(** Each remainder is that of equally many numbers below a multiple of [m]. *)
Lemma count_remainders m r q : 0 ≤ r < m → 0 ≤ q →
  Z.of_nat (length (filter (λ x, x `mod` m = r) (seqZ 0 (q * m)))) = q.
Proof.
  intros Hr. revert q. apply natlike_ind; [done|]. intros q Hq IH.
  rewrite Z.mul_succ_l, seqZ_app by nia. rewrite filter_app, length_app, Nat2Z.inj_add, IH, Z.add_0_l. f_equal.
  assert (Hblock : filter (λ x, x `mod` m = r) (seqZ (q * m) m) = [q * m + r]).
  { assert (Hs : seqZ (q * m) m = seqZ (q * m) r ++ [q * m + r] ++ seqZ (q * m + r + 1) (m - r - 1)).
    { replace m with (r + (1 + (m - r - 1))) at 2 by lia. rewrite !seqZ_app by lia. done. }
    assert (Hmod : ∀ x, 0 ≤ x < m → (q * m + x) `mod` m = x)
      by (intros x Hx; rewrite Z.add_comm, Z_mod_plus_full; by apply Z.mod_small).
    rewrite Hs, !filter_app. rewrite (filter_none _ (seqZ (q * m) r)), (filter_none _ (seqZ _ (m - r - 1))), filter_all; [done|..].
    - intros x ->%list_elem_of_singleton. by apply Hmod.
    - intros x Hx%elem_of_seqZ. replace x with (q * m + (x - q * m)) by lia. rewrite Hmod by lia. lia.
    - intros x Hx%elem_of_seqZ. replace x with (q * m + (x - q * m)) by lia. rewrite Hmod by lia. lia. }
  by rewrite Hblock.
Qed.

Section UniformSpec.
  Context `{TRandGenOk G}.

(** The next words of a generator, and its state after them. *)
Fixpoint words_of (n : nat) (g : G) : list Z :=
  match n with
  | O => []
  | S n => match GenRand g with Ret r => r.1 :: words_of n r.2 | Fail _ => [] end
  end.

Fixpoint skip_words (n : nat) (g : G) : G :=
  match n with
  | O => g
  | S n => match GenRand g with Ret r => skip_words n r.2 | Fail _ => g end
  end.

Lemma skip_words_good n : ∀ g, rand_good g → rand_good (skip_words n g).
Proof.
  induction n as [|n IH]; intros g Hg; [done|]. cbn. destruct (GenRand_ok g Hg) as (x & g' & -> & _ & Hg'). by apply IH.
Qed.

Lemma skip_words_add n m : ∀ g, rand_good g → skip_words (n + m) g = skip_words m (skip_words n g).
Proof.
  induction n as [|n IH]; intros g Hg; [done|]. cbn. destruct (GenRand_ok g Hg) as (x & g' & -> & _ & Hg'). by apply IH.
Qed.

Lemma words_of_range n : ∀ g x, rand_good g → x ∈ words_of n g → 0 ≤ x < 2 ^ rand_width (G := G).
Proof.
  induction n as [|n IH]; intros g x Hg; cbn; [by intros ?%elem_of_nil|].
  destruct (GenRand_ok g Hg) as (y & g' & -> & Hy & Hg'). intros [->|Hin]%elem_of_cons; [done|]. by apply (IH g').
Qed.

(** The loop takes the first word that is small enough. *)
Lemma uniform_loop_spec draws randmax : ∀ g, rand_good g → (∃ x, x ∈ words_of draws g ∧ x < randmax) →
  ∃ x k, uniform_loop draws randmax g = Ret (x, skip_words k g) ∧ (k ≤ draws)%nat ∧ 0 ≤ x < randmax ∧
    ∃ pre, words_of k g = pre ++ [x] ∧ Forall (λ y, randmax ≤ y) pre.
Proof.
  induction draws as [|draws IH]; intros g Hg (x & Hx & Hlow); [by apply elem_of_nil in Hx|].
  cbn in Hx |- *. destruct (GenRand_ok g Hg) as (y & g' & Hy & Hyw & Hg'). rewrite Hy in Hx |- *.
  rewrite bind_Ret. cbn [fst snd] in *. destruct (Z.ltb_spec y randmax) as [Hlt|Hge].
  - exists y, 1%nat. cbn. rewrite Hy. split; [done|]. split; [lia|]. split; [lia|]. exists []. by split.
  - apply elem_of_cons in Hx as [->|Hx]; [lia|].
    destruct (IH g' Hg') as (z & k & Hz & Hk & Hzr & pre & Hpre & Hall); [eauto|].
    exists z, (S k). cbn. rewrite Hy. cbn [fst snd]. split; [done|]. split; [lia|]. split; [done|].
    exists (y :: pre). rewrite Hpre. split; [done|]. by constructor.
Qed.

Notation W := (2 ^ rand_width (G := G)).

(** At least every second word is accepted. *)
Lemma accepted_half max : 0 < max ≤ RandMax (G := G) →
  2 ^ (rand_width (G := G) - 1) ≤ RandMax (G := G) - RandMax (G := G) `mod` max.
Proof.
  intros Hm. pose proof rand_width_pos as Hw. unfold RandMax in *.
  replace W with (2 * 2 ^ (rand_width (G := G) - 1)) in *
    by (rewrite <- Z.pow_succ_r by lia; f_equal; lia).
  set (h := 2 ^ (rand_width (G := G) - 1)) in *. assert (0 < h) by (apply Z.pow_pos_nonneg; lia).
  pose proof (Z.div_mod (2 * h - 1) max ltac:(lia)) as Hd. pose proof (Z.mod_pos_bound (2 * h - 1) max ltac:(lia)) as Hb.
  assert (1 ≤ (2 * h - 1) / max) by (apply Z.div_le_lower_bound; lia). nia.
Qed.

(** Some of the next [draws] words is in the lower half of the range. *)
Definition low_word (draws : nat) (g : G) : Prop :=
  ∃ x, x ∈ words_of draws g ∧ x < 2 ^ (rand_width (G := G) - 1).

(** The words that are taken for a number below [t]. *)
Definition accepted (t : Z) : list Z := seqZ 0 (RandMax (G := G) - RandMax (G := G) `mod` t).

(** The word that is taken is the first accepted one. *)
Lemma Uniform_first draws t g : rand_good g → 0 < t ≤ RandMax (G := G) → low_word draws g →
  ∃ x k pre, Uniform draws t g = Ret (x `mod` t, skip_words k g) ∧ (k ≤ draws)%nat ∧
    words_of k g = pre ++ [x] ∧ x ∈ accepted t ∧ Forall (λ y, y ∉ accepted t) pre.
Proof.
  intros Hg Ht (x & Hx & Hlow). unfold Uniform, GenUniform.
  rewrite uw_of_word by (unfold RandMax in Ht; lia). replace (0 <? t) with true by lia.
  unfold verify. rewrite bind_Ret. pose proof (accepted_half t Ht) as Hhalf.
  destruct (uniform_loop_spec draws (RandMax (G := G) - RandMax (G := G) `mod` t) g Hg)
    as (y & k & Hy & Hk & Hyr & pre & Hpre & Hall).
  { exists x. split; [done|lia]. }
  rewrite Hy, bind_Ret. exists y, k, pre. cbn. split_and!; [done|done|done| |].
  - apply elem_of_seqZ. lia.
  - apply (Forall_impl _ _ _ Hall). intros z Hz Hin%elem_of_seqZ. lia.
Qed.

Lemma Uniform_spec draws t g : rand_good g → 0 < t ≤ RandMax (G := G) → low_word draws g →
  ∃ r k, Uniform draws t g = Ret (r, skip_words k g) ∧ (k ≤ draws)%nat ∧ 0 ≤ r < t.
Proof.
  intros Hg Ht Hlow. destruct (Uniform_first draws t g Hg Ht Hlow) as (x & k & _ & Hu & Hk & _).
  exists (x `mod` t), k. split; [done|]. split; [done|]. apply Z.mod_pos_bound. lia.
Qed.

(** [Uniform(t)] takes the first of the generator's words that it accepts and returns
    its remainder, when one of the next [draws] words is in the lower half of the range;
    and it is fair: each of the numbers below [t] is the remainder of equally many of the
    words it accepts. *)
Theorem Uniform_correct draws t (g : G) :
  rand_good g → 0 < t ≤ RandMax (G := G) → low_word draws g →
  (∃ x k pre, Uniform draws t g = Ret (x `mod` t, skip_words k g) ∧ (k ≤ draws)%nat ∧
     words_of k g = pre ++ [x] ∧ x ∈ accepted t ∧ Forall (λ y, y ∉ accepted t) pre) ∧
  ∀ r, 0 ≤ r < t →
    Z.of_nat (length (filter (λ y, y `mod` t = r) (accepted t))) = RandMax (G := G) / t.
Proof.
  intros Hg Ht Hlow. split; [by apply Uniform_first|]. intros r Hr. unfold accepted.
  pose proof (Z.div_mod (RandMax (G := G)) t ltac:(lia)) as Hd.
  replace (RandMax (G := G) - RandMax (G := G) `mod` t) with (RandMax (G := G) / t * t) by lia.
  apply count_remainders; [done|]. apply Z.div_pos; lia.
Qed.

End UniformSpec.

(** ** Shuffling *)

Section Swap.
  Context {A : Type}.

(** The list with the elements at two positions exchanged. *)
Definition swap (l : list A) (i j : nat) : list A :=
  match l !! i, l !! j with Some x, Some y => <[j := x]> (<[i := y]> l) | _, _ => l end.

(** Choices for the steps 1, 2, ... of a shuffle, each at most the step. *)
Definition choices (cs : list nat) : Prop := ∀ k c, cs !! k = Some c → (c ≤ S k)%nat.

(** The list after the steps with these choices. *)
Definition shuffled (l : list A) (cs : list nat) : list A :=
  foldl (λ l p, swap l p.1 p.2) l (zip (seq 1 (length cs)) cs).

Lemma length_swap l i j : length (swap l i j) = length l.
Proof. unfold swap. destruct (l !! i), (l !! j); by rewrite ?length_insert. Qed.

Lemma swap_lookup l i j k : (i < length l)%nat → (j < length l)%nat →
  swap l i j !! k = if decide (k = j) then l !! i else if decide (k = i) then l !! j else l !! k.
Proof.
  intros Hi Hj. unfold swap. destruct (lookup_lt_is_Some_2 l i Hi) as [x Hx], (lookup_lt_is_Some_2 l j Hj) as [y Hy].
  rewrite Hx, Hy. repeat case_decide; subst.
  - apply list_lookup_insert_eq. by rewrite length_insert.
  - rewrite list_lookup_insert_ne by done. by apply list_lookup_insert_eq.
  - by rewrite !list_lookup_insert_ne by done.
Qed.

Lemma swap_involutive l i j : (i < length l)%nat → (j < length l)%nat → swap (swap l i j) i j = l.
Proof.
  intros Hi Hj. apply list_eq. intros k. rewrite !swap_lookup by (by rewrite ?length_swap).
  repeat case_decide; subst; congruence.
Qed.

Lemma cons_insert_Permutation (l : list A) n x y : l !! n = Some x → x :: <[n := y]> l ≡ₚ y :: l.
Proof.
  revert n. induction l as [|z l IH]; intros [|n] Hn; [done|done|injection Hn as ->; apply Permutation_swap|].
  cbn in Hn |- *. etrans; [apply Permutation_swap|]. etrans; [apply Permutation_skip, IH, Hn|]. apply Permutation_swap.
Qed.

Lemma swap_Permutation l i j : swap l i j ≡ₚ l.
Proof.
  unfold swap. destruct (l !! i) as [x|] eqn:Hi; [|done]. destruct (l !! j) as [y|] eqn:Hj; [|done].
  destruct (decide (i = j)) as [->|Hne].
  - simplify_eq. rewrite list_insert_insert_eq. by rewrite list_insert_id.
  - assert (Hji : <[i := y]> l !! j = Some y) by (by rewrite list_lookup_insert_ne).
    apply (Permutation_cons_inv (a := y)). rewrite (cons_insert_Permutation _ j y x Hji).
    by apply cons_insert_Permutation.
Qed.

Lemma shuffled_snoc l cs c :
  shuffled l (cs ++ [c]) = swap (shuffled l cs) (S (length cs)) c.
Proof.
  unfold shuffled. rewrite length_app. cbn. rewrite Nat.add_1_r, seq_S, zip_with_app by (by rewrite length_seq).
  by rewrite foldl_app.
Qed.

Lemma length_shuffled l cs : length (shuffled l cs) = length l.
Proof.
  unfold shuffled. generalize (zip (seq 1 (length cs)) cs). intros ps. revert l.
  induction ps as [|p ps IH]; intros l; cbn; [done|]. by rewrite IH, length_swap.
Qed.

Lemma shuffled_Permutation l cs : shuffled l cs ≡ₚ l.
Proof.
  unfold shuffled. generalize (zip (seq 1 (length cs)) cs). intros ps. revert l.
  induction ps as [|p ps IH]; intros l; cbn; [done|]. rewrite IH. apply swap_Permutation.
Qed.

(** The steps of a prefix leave the rest alone. *)
Lemma swap_app l k i j : (i < length l)%nat → (j < length l)%nat → swap (l ++ k) i j = swap l i j ++ k.
Proof.
  intros Hi Hj. unfold swap. rewrite !lookup_app_l by done.
  destruct (l !! i), (l !! j); [|done..]. by rewrite !insert_app_l by (by rewrite ?length_insert).
Qed.

Lemma choices_snoc cs c : choices (cs ++ [c]) ↔ choices cs ∧ (c ≤ S (length cs))%nat.
Proof.
  split.
  - intros Hc. split; [|apply (Hc (length cs)); by apply list_lookup_middle].
    intros k x Hk. apply (Hc k x). by apply lookup_app_l_Some.
  - intros [Hcs Hc] k x [[_ Hk]|[-> ->]]%lookup_snoc_Some; [by apply Hcs|done].
Qed.

Lemma shuffled_app l k cs : choices cs → (length cs < length l)%nat → shuffled (l ++ k) cs = shuffled l cs ++ k.
Proof.
  induction cs as [|c cs IH] using rev_ind; intros Hc Hl; [done|].
  apply choices_snoc in Hc as [Hcs Hc]. rewrite length_app in Hl. cbn in Hl.
  rewrite !shuffled_snoc, IH by (done || lia). apply swap_app; rewrite length_shuffled; lia.
Qed.

(** The last of the choices: it says where the last element goes. *)
Lemma shuffled_last l0 x cs c : choices (cs ++ [c]) → length l0 = S (length cs) →
  shuffled (l0 ++ [x]) (cs ++ [c]) = swap (shuffled l0 cs ++ [x]) (length l0) c.
Proof.
  intros [Hcs Hc]%choices_snoc Hl. rewrite shuffled_snoc, shuffled_app, Hl by (done || lia). done.
Qed.

Lemma swap_back l0 x l' c : (c ≤ length l0)%nat → swap (l0 ++ [x]) (length l0) c = l' →
  l' !! c = Some x ∧ swap l' (length l0) c = l0 ++ [x].
Proof.
  intros Hc <-. assert (Hl : length (l0 ++ [x]) = S (length l0)) by (rewrite length_app; cbn; lia).
  split; [|apply swap_involutive; lia]. rewrite swap_lookup by lia. rewrite decide_True by done.
  by apply list_lookup_middle.
Qed.

(** Every permutation of distinct elements comes from choices, and only from one list of them. *)
Lemma shuffled_bijective l : NoDup l → ∀ l', l' ≡ₚ l →
  ∃ cs, choices cs ∧ length cs = pred (length l) ∧ shuffled l cs = l' ∧
    ∀ cs', choices cs' → length cs' = pred (length l) → shuffled l cs' = l' → cs' = cs.
Proof.
  induction l as [|x l0 IH] using rev_ind; intros Hnd l' Hp.
  - apply Permutation_nil_r in Hp as ->. exists []. repeat split; [by intros k c|]. by intros [|].
  - assert (Hll : length l' = S (length l0)) by (rewrite Hp, length_app; cbn; lia).
    assert (Hnd' : NoDup l') by (by rewrite Hp). apply NoDup_app in Hnd as (Hnd0 & _ & _).
    assert (Hx : x ∈ l') by (rewrite Hp; apply elem_of_app; right; by apply list_elem_of_singleton).
    apply list_elem_of_lookup in Hx as [c Hc]. pose proof (lookup_lt_Some _ _ _ Hc) as Hcl.
    rewrite length_app, Nat.add_1_r. cbn [pred].
    destruct (length l0) as [|n] eqn:Hn.
    + destruct l0; [|done]. apply Permutation_singleton_r in Hp as ->. exists []. cbn.
      repeat split; [by intros k d|]. by intros [|].
    + assert (Hsn : swap l' (S n) c !! S n = Some x).
      { rewrite swap_lookup by lia. case_decide as E; [by rewrite E|]. by rewrite decide_True. }
      destruct (list_elem_of_split_length _ _ _ Hsn) as (k & k2 & Hk & Hkl).
      assert (k2 = []) as ->.
      { apply (f_equal length) in Hk. rewrite length_swap, length_app in Hk. cbn in Hk. destruct k2; [done|cbn in Hk; lia]. }
      assert (Hkp : k ≡ₚ l0).
      { apply (Permutation_app_inv_r [x]). by rewrite <- Hk, swap_Permutation. }
      destruct (IH Hnd0 k Hkp) as (cs & Hcs & Hlen & Hsh & Huniq). cbn [pred] in Hlen, Huniq.
      exists (cs ++ [c]). assert (Hcc : choices (cs ++ [c])) by (apply choices_snoc; split; [done|lia]).
      split; [done|]. split; [rewrite length_app; cbn; lia|]. split.
      * rewrite shuffled_last, Hsh, <- Hk, Hn by (done || lia). apply swap_involutive; lia.
      * intros cs' Hc' Hl' Hs'. destruct cs' as [|d cs' _] using rev_ind; [done|].
        rewrite length_app in Hl'. cbn in Hl'. pose proof (proj1 (choices_snoc _ _) Hc') as [Hcs' Hd].
        rewrite shuffled_last in Hs' by (done || lia).
        rewrite <- (length_shuffled l0 cs') in Hs'.
        destruct (swap_back (shuffled l0 cs') x l' d) as [Hd' Hback]; [rewrite length_shuffled; lia|done|].
        assert (d = c) as -> by (by eapply NoDup_lookup).
        rewrite length_shuffled, Hn, Hk in Hback. apply app_inj_tail in Hback as [Hback _].
        f_equal. apply Huniq; [done|lia|done].
Qed.

End Swap.

(** Every run of [draws] of the next [n] words has a word of the lower half. *)
Definition low_words `{TRandGen G} (draws n : nat) (g : G) : Prop :=
  ∀ k, (k ≤ n)%nat → low_word draws (skip_words k g).

(** Both can be evaluated. *)
Lemma low_word_check `{TRandGen G} draws (g : G) :
  existsb (λ x, x <? 2 ^ (rand_width (G := G) - 1)) (words_of draws g) = true → low_word draws g.
Proof. rewrite existsb_exists. intros (x & Hin & Hx). exists x. split; [by apply list_elem_of_In|lia]. Qed.

Lemma low_words_check `{TRandGen G} draws n (g : G) :
  forallb (λ k, existsb (λ x, x <? 2 ^ (rand_width (G := G) - 1)) (words_of draws (skip_words k g))) (seq 0 (S n)) = true →
  low_words draws n g.
Proof.
  rewrite forallb_forall. intros Hall k Hk.
  apply low_word_check, Hall, in_seq. lia.
Qed.

Section ShuffleSpec.
  Context `{TRandGenOk G} {A : Type}.

Lemma DoSwap_ok (l : list A) i j : 0 ≤ i < vsize l → 0 ≤ j < vsize l →
  DoSwap l i j = Ret (swap l (Z.to_nat i) (Z.to_nat j)).
Proof.
  intros Hi Hj. destruct (vat_in_range l i Hi) as (x & Hx & Hxl), (vat_in_range l j Hj) as (y & Hy & Hyl).
  assert (H1 : vset l i y = Ret (<[Z.to_nat i := y]> l)) by (by apply vset_Ret).
  assert (H2 : vset (<[Z.to_nat i := y]> l) j x = Ret (<[Z.to_nat j := x]> (<[Z.to_nat i := y]> l))).
  { apply vset_Ret. unfold vsize in *. by rewrite length_insert. }
  unfold DoSwap, swap. by rewrite Hx, bind_Ret, Hy, bind_Ret, H1, bind_Ret, H2, Hxl, Hyl.
Qed.

(** The shuffle does some choices, and takes at most [draws] words for each. *)
Lemma Shuffle_choices draws (l : list A) g :
  rand_good g → vsize l ≤ RandMax (G := G) → low_words draws (draws * pred (length l)) g →
  ∃ cs k, Shuffle draws l g = Ret (shuffled l cs, skip_words k g) ∧ (k ≤ draws * pred (length l))%nat ∧
    length cs = pred (length l) ∧ choices cs.
Proof.
  intros Hg Hl Hlow. unfold Shuffle.
  destruct (mfold_inv (λ (done : list Z) (s : list A * G), ∃ cs k, s = (shuffled l cs, skip_words k g) ∧
      (k ≤ draws * length done)%nat ∧ length cs = length done ∧ choices cs)
    (shuffle_step draws) (seqZ 1 (vsize l - 1)) (l, g)) as (s & Hs & cs & k & -> & Hk & Hlen & Hcs).
  - exists [], 0%nat. cbn. repeat split; [lia|by intros k c].
  - intros dn i rest s Hi (cs & k & -> & Hk & Hlen & Hcs).
    pose proof (f_equal length Hi) as Hn. rewrite length_app, length_seqZ in Hn. cbn in Hn. unfold vsize in *.
    assert (Hii : i = Z.of_nat (length dn) + 1).
    { assert (Hat : seqZ 1 (Z.of_nat (length l) - 1) !! length dn = Some i) by (rewrite Hi; by apply list_lookup_middle).
      apply lookup_seqZ in Hat. lia. }
    destruct (Uniform_spec draws (i + 1) (skip_words k g)) as (c & k' & Hu & Hk' & Hc).
    + by apply skip_words_good.
    + lia.
    + apply Hlow. nia.
    + assert (Hsh : vsize (shuffled l cs) = Z.of_nat (length l)) by (unfold vsize; by rewrite length_shuffled).
      exists (shuffled l (cs ++ [Z.to_nat c]), skip_words (k + k') g). split.
      * unfold shuffle_step. cbn [fst snd]. rewrite Hu, bind_Ret. cbn [fst snd].
        rewrite DoSwap_ok, bind_Ret, shuffled_snoc, skip_words_add by (done || lia).
        replace (Z.to_nat i) with (S (length cs)) by lia. done.
      * exists (cs ++ [Z.to_nat c]), (k + k')%nat. split; [done|]. rewrite !length_app. cbn.
        split; [lia|]. split; [lia|]. apply choices_snoc. split; [done|lia].
  - rewrite length_seqZ in *. unfold vsize in *.
    replace (Z.to_nat (Z.of_nat (length l) - 1)) with (pred (length l)) in * by lia.
    exists cs, k. by rewrite Hs.
Qed.


End ShuffleSpec.


Lemma Uniform_correct_witness :
  (∃ x k pre, Uniform 3 10 (TReallyFastRng32 19) = Ret (x `mod` 10, skip_words k (TReallyFastRng32 19)) ∧ (k ≤ 3)%nat ∧
     words_of k (TReallyFastRng32 19) = pre ++ [x] ∧ x ∈ accepted (G := TLcgRngBase) 10 ∧
     Forall (λ y, y ∉ accepted (G := TLcgRngBase) 10) pre) ∧
  ∀ r, 0 ≤ r < 10 →
    Z.of_nat (length (filter (λ y, y `mod` 10 = r) (accepted (G := TLcgRngBase) 10))) = RandMax (G := TLcgRngBase) / 10.
Proof.
  apply (Uniform_correct 3 10 (TReallyFastRng32 19)).
  - vm_compute. by split.
  - vm_compute. by split.
  - apply low_word_check. vm_compute. reflexivity.
Defined.

(** ** The sequence of a Mersenne twister *)

Section MersenneSpec.
  Variable c : mt_params.
  Hypothesis sizes : 1 < mt_m c ∧ mt_m c < mt_n c.

Notation NN := (Z.to_nat (mt_n c)).
Notation MM := (Z.to_nat (mt_m c)).

(** The definition of the sequence: each word comes from those [NN], [NN - 1] and
    [NN - MM] places before. *)
Definition recurrence (h : list Z) : Z :=
  let b := (length h - NN)%nat in
  Z.lxor (nth (b + MM) h 0) (twist c (nth b h 0) (nth (S b) h 0)).

(** The next [k] words after the words [h]. *)
Fixpoint sequence (k : nat) (h : list Z) : list Z :=
  match k with O => [] | S k => recurrence h :: sequence k (h ++ [recurrence h]) end.

Lemma length_sequence k h : length (sequence k h) = k.
Proof. revert h. induction k as [|k IH]; intros h; cbn; [done|]. by rewrite IH. Qed.

Lemma sequence_add a b h : sequence (a + b) h = sequence a h ++ sequence b (h ++ sequence a h).
Proof.
  revert h. induction a as [|a IH]; intros h; cbn; [by rewrite app_nil_r|].
  rewrite IH. f_equal. f_equal. f_equal. by rewrite <- app_assoc.
Qed.

(** Only the last [NN] words matter. *)
Lemma recurrence_app p h : (NN ≤ length h)%nat → recurrence (p ++ h) = recurrence h.
Proof.
  intros Hh. unfold recurrence. rewrite length_app.
  rewrite !app_nth2 by lia. f_equal; [|f_equal]; f_equal; lia.
Qed.

Lemma sequence_app k p h : (NN ≤ length h)%nat → sequence k (p ++ h) = sequence k h.
Proof.
  revert h. induction k as [|k IH]; intros h Hh; cbn; [done|].
  rewrite recurrence_app by done. f_equal. rewrite <- app_assoc. apply IH. rewrite length_app. lia.
Qed.

(** [InitNext] overwrites the words from the front: after [i] passes the first [i] words
    are the next ones of the sequence. *)
Definition rewritten (old words : list Z) (i : nat) : Prop :=
  words = sequence i old ++ drop i old.

Lemma nth_drop (l : list Z) i j : nth j (drop i l) 0 = nth (i + j) l 0.
Proof. revert i. induction l as [|x l IH]; intros [|i]; cbn; [done|by destruct j|done|]. apply IH. Qed.

Lemma vat_nth (l : list Z) i : 0 ≤ i < vsize l → vat l i = Ret (nth (Z.to_nat i) l 0).
Proof.
  intros Hi. destruct (vat_in_range l i Hi) as (x & Hx & Hl). rewrite Hx. f_equal. symmetry.
  by apply nth_lookup_Some.
Qed.

(** Reading at [j]: the old word when it is still there, or the new one. *)
Lemma rewritten_nth old i j : length old = NN → (i < NN)%nat → (j < NN)%nat →
  nth (if decide (i + j < NN)%nat then i + j else i + j - NN)%nat (sequence i old ++ drop i old) 0 =
  nth (i + j) (old ++ sequence i old) 0.
Proof.
  intros Ho Hi Hj. pose proof (length_sequence i old) as Hs. case_decide.
  - rewrite app_nth2 by lia. rewrite nth_drop, app_nth1 by lia. f_equal. lia.
  - rewrite app_nth1 by lia. rewrite app_nth2 by lia. f_equal. lia.
Qed.

Lemma next_word_ok old words i next far : length old = NN → rewritten old words i → (i < NN)%nat →
  next = (if decide (i + 1 < NN)%nat then Z.of_nat i + 1 else 0) →
  far = (if decide (i + MM < NN)%nat then Z.of_nat i + mt_m c else Z.of_nat i + (mt_m c - mt_n c)) →
  ∃ words', next_word c words (Z.of_nat i) next far = Ret words' ∧ rewritten old words' (S i).
Proof.
  intros Ho Hw Hi Hnext Hfar. pose proof (length_sequence i old) as Hs.
  assert (Hl : vsize words = mt_n c) by (unfold vsize; rewrite Hw, length_app, length_drop; lia).
  pose proof (rewritten_nth old i 0 Ho Hi ltac:(lia)) as H0.
  pose proof (rewritten_nth old i 1 Ho Hi ltac:(lia)) as H1.
  pose proof (rewritten_nth old i MM Ho Hi ltac:(lia)) as HM.
  rewrite <- Hw in H0, H1, HM. rewrite Nat.add_0_r, decide_True in H0 by lia.
  assert (0 ≤ next < vsize words ∧ 0 ≤ far < vsize words) as [Hn Hf] by (subst next far; repeat case_decide; lia).
  unfold next_word. rewrite (vat_nth words (Z.of_nat i)), bind_Ret, (vat_nth words next), bind_Ret by lia.
  rewrite (vat_nth words far), bind_Ret by lia.
  replace (nth (Z.to_nat (Z.of_nat i)) words 0) with (nth i (old ++ sequence i old) 0)
    by (rewrite <- H0; f_equal; lia).
  replace (nth (Z.to_nat next) words 0) with (nth (i + 1) (old ++ sequence i old) 0)
    by (rewrite <- H1; f_equal; subst next; repeat case_decide; lia).
  replace (nth (Z.to_nat far) words 0) with (nth (i + MM) (old ++ sequence i old) 0)
    by (rewrite <- HM; f_equal; subst far; repeat case_decide; lia).
  assert (Hrec : recurrence (old ++ sequence i old) =
    Z.lxor (nth (i + MM) (old ++ sequence i old) 0)
      (twist c (nth i (old ++ sequence i old) 0) (nth (i + 1) (old ++ sequence i old) 0))).
  { unfold recurrence. rewrite length_app, Hs, Ho. replace (NN + i - NN)%nat with i by lia. by rewrite Nat.add_1_r. }
  rewrite <- Hrec. eexists. split; [apply vset_Ret; split; [lia|done]|].
  unfold rewritten. rewrite Nat2Z.id, Hw. replace (S i) with (i + 1)%nat by lia. rewrite sequence_add. cbn [sequence].
  rewrite insert_app_r_alt by lia. rewrite Hs, Nat.sub_diag, <- app_assoc. f_equal.
  destruct (lookup_lt_is_Some_2 old i) as [x Hx]; [lia|]. rewrite (drop_S _ _ _ Hx). cbn. by rewrite Nat.add_1_r.
Qed.

(** The three parts of [InitNext] write all the words. *)
Lemma InitNext_ok g : vsize (mt g) = mt_n c → mti g = mt_n c →
  InitNext c g = Ret {| mt := sequence NN (mt g); mti := 0 |}.
Proof.
  intros Hl Hi. unfold InitNext. replace (mti g =? mt_n c + 1) with false by lia. rewrite bind_Ret.
  assert (Ho : length (mt g) = NN) by (unfold vsize in Hl; lia).
  destruct (mfold_seqZ (λ i words, rewritten (mt g) words (Z.to_nat i))
    (λ words i, next_word c words i (i + 1) (i + mt_m c)) 0 (mt_n c - mt_m c) (mt g)) as (w1 & Hw1 & HI1).
  { lia. } { done. }
  { intros i w Hr HI. destruct (next_word_ok (mt g) w (Z.to_nat i) (i + 1) (i + mt_m c)) as (w' & Hw' & HI');
      [done|done|lia|case_decide; lia|case_decide; lia|].
    exists w'. rewrite Z2Nat.id in Hw' by lia. replace (Z.to_nat (i + 1)) with (S (Z.to_nat i)) by lia. done. }
  rewrite Hw1, bind_Ret.
  destruct (mfold_seqZ (λ i words, rewritten (mt g) words (Z.to_nat i))
    (λ words i, next_word c words i (i + 1) (i + (mt_m c - mt_n c))) (mt_n c - mt_m c) (mt_m c - 1) w1) as (w2 & Hw2 & HI2).
  { lia. } { done. }
  { intros i w Hr HI. destruct (next_word_ok (mt g) w (Z.to_nat i) (i + 1) (i + (mt_m c - mt_n c))) as (w' & Hw' & HI');
      [done|done|lia|case_decide; lia|case_decide; lia|].
    exists w'. rewrite Z2Nat.id in Hw' by lia. replace (Z.to_nat (i + 1)) with (S (Z.to_nat i)) by lia. done. }
  rewrite Hw2, bind_Ret.
  destruct (next_word_ok (mt g) w2 (NN - 1) 0 (mt_m c - 1)) as (w3 & Hw3 & HI3);
    [done|by replace (NN - 1)%nat with (Z.to_nat (mt_n c - mt_m c + (mt_m c - 1))) by lia|lia|case_decide; lia|case_decide; lia|].
  replace (Z.of_nat (NN - 1)) with (mt_n c - 1) in Hw3 by lia. rewrite Hw3, bind_Ret.
  rewrite HI3. replace (S (NN - 1)) with NN by lia. rewrite drop_ge, app_nil_r by lia. done.
Qed.

(** The next [k] outputs. *)
Fixpoint outputs (k : nat) (g : TMersenne) : outcome (list Z * TMersenne) :=
  match k with
  | O => Ret ([], g)
  | S k => r ← Mersenne_GenRand c g; s ← outputs k r.2; Ret (r.1 :: s.1, s.2)
  end.

(** The words a generator will use: the rest of the buffer and the words after it. *)
Definition upcoming (k : nat) (g : TMersenne) : list Z :=
  take k (drop (Z.to_nat (mti g)) (mt g) ++ sequence k (mt g)).

Definition mersenne_good (g : TMersenne) : Prop := vsize (mt g) = mt_n c ∧ 0 ≤ mti g ≤ mt_n c.

Lemma take_sequence a b h : (a ≤ b)%nat → take a (sequence b h) = sequence a h.
Proof.
  intros Hab. replace b with (a + (b - a))%nat by lia. rewrite sequence_add. apply take_app_length'.
  by rewrite length_sequence.
Qed.

(** Filling the buffer does not change them. *)
Lemma upcoming_refill k old : length old = NN →
  upcoming k {| mt := sequence NN old; mti := 0 |} = sequence k old.
Proof.
  intros Ho. unfold upcoming. cbn [mt mti]. rewrite Z2Nat.inj_0, drop_0.
  rewrite <- (sequence_app k old (sequence NN old)) by (by rewrite length_sequence). rewrite <- sequence_add.
  apply take_sequence. lia.
Qed.

Lemma upcoming_S k g x : mt g !! Z.to_nat (mti g) = Some x → 0 ≤ mti g →
  upcoming (S k) g = x :: upcoming k {| mt := mt g; mti := mti g + 1 |}.
Proof.
  intros Hx Hi. unfold upcoming. cbn [mt mti]. rewrite (drop_S _ _ _ Hx). cbn [app take].
  replace (Z.to_nat (mti g + 1)) with (S (Z.to_nat (mti g))) by lia. f_equal.
  rewrite !take_app. f_equal. rewrite !take_sequence by lia. done.
Qed.

(** One number. *)
Lemma GenRand_word g : mersenne_good g →
  ∃ x g', Mersenne_GenRand c g = Ret (temper c x, g') ∧ mersenne_good g' ∧
    ∀ k, upcoming (S k) g = x :: upcoming k g'.
Proof.
  intros [Hl Hi].
  assert (Hread : ∀ g, mersenne_good g → mti g < mt_n c →
    ∃ x, vat (mt g) (mti g) = Ret x ∧ mersenne_good {| mt := mt g; mti := mti g + 1 |} ∧
      ∀ k, upcoming (S k) g = x :: upcoming k {| mt := mt g; mti := mti g + 1 |}).
  { intros g1 [Hl1 Hi1] Hlt. destruct (vat_in_range (mt g1) (mti g1)) as (x & Hx & Hxl); [lia|].
    exists x. split; [done|]. split; [by split; cbn; [|lia]|]. intros k. by apply upcoming_S; [|lia]. }
  unfold Mersenne_GenRand. destruct (Z.leb_spec (mt_n c) (mti g)) as [Hge|Hlt].
  - assert (He : mti g = mt_n c) by lia. rewrite InitNext_ok, bind_Ret by done.
    destruct (Hread {| mt := sequence NN (mt g); mti := 0 |}) as (x & Hx & Hg & Hup).
    { split; cbn; [|lia]. unfold vsize. rewrite length_sequence. lia. } { cbn. lia. }
    rewrite Hx, bind_Ret. eexists x, _. split; [done|]. split; [done|]. intros k. rewrite <- Hup.
    unfold vsize in Hl. rewrite upcoming_refill by lia. unfold upcoming. rewrite drop_ge by lia. cbn [app].
    by apply take_sequence.
  - rewrite bind_Ret. destruct (Hread g (conj Hl Hi) Hlt) as (x & Hx & Hg & Hup).
    rewrite Hx, bind_Ret. by eexists x, _.
Qed.

Lemma outputs_ok k : ∀ g, mersenne_good g →
  ∃ g', outputs k g = Ret (temper c <$> upcoming k g, g') ∧ mersenne_good g'.
Proof.
  induction k as [|k IH]; intros g Hg; [by exists g|].
  destruct (GenRand_word g Hg) as (x & g1 & Hx & Hg1 & Hup). destruct (IH g1 Hg1) as (g2 & Hs & Hg2).
  exists g2. split; [|done]. cbn [outputs]. rewrite Hx, bind_Ret. cbn [fst snd]. by rewrite Hs, bind_Ret, Hup.
Qed.

(** ** Seeding *)

(** The words of [InitGenRand]: each of the first [n] from the word before. *)
Definition seeded (n : Z) (seed : Z) (l : list Z) : Prop :=
  l !! 0%nat = Some seed ∧
  ∀ i x y, Z.of_nat (S i) < n → l !! i = Some x → l !! S i = Some y →
    y = uw (mt_w c) (mt_init c * xorshift x (mt_init_shift c) + (Z.of_nat i + 1)).

Lemma InitGenRand_ok seed words : vsize words = mt_n c →
  ∃ l, InitGenRand c seed words = Ret {| mt := l; mti := mt_n c |} ∧ vsize l = mt_n c ∧ seeded (mt_n c) seed l.
Proof.
  intros Hl. unfold InitGenRand.
  assert (H0 : vset words 0 seed = Ret (<[0%nat := seed]> words)) by (apply vset_Ret; split; [lia|done]).
  rewrite H0, bind_Ret.
  destruct (mfold_seqZ (λ i l, vsize l = mt_n c ∧ seeded i seed l)
    (λ words i, prev ← vat words (i - 1);
       vset words i (uw (mt_w c) (uw (mt_w c) (mt_init c * xorshift prev (mt_init_shift c)) + i)))
    1 (mt_n c - 1) (<[0%nat := seed]> words)) as (l & Hr & Hlen & Hseed).
  - lia.
  - unfold vsize in *. rewrite length_insert. split; [lia|]. split; [apply list_lookup_insert_eq; lia|]. lia.
  - intros i l Hi [Hlen [Hs0 Hs]]. destruct (vat_in_range l (i - 1)) as (x & Hx & Hxl); [lia|].
    rewrite Hx, bind_Ret. eexists. split; [apply vset_Ret; split; [lia|done]|]. unfold vsize in *.
    rewrite length_insert. split; [done|]. split; [rewrite list_lookup_insert_ne; [done|lia]|].
    intros j a b Hj. rewrite (list_lookup_insert_ne _ _ j) by lia. destruct (decide (Z.of_nat (S j) = i)) as [He|Hne].
    + rewrite <- He, Nat2Z.id, list_lookup_insert_eq by lia. intros Ha [= <-].
      replace (Z.to_nat (i - 1)) with j in Hxl by lia. simplify_eq. rewrite uw_add_l. f_equal. lia.
    + rewrite list_lookup_insert_ne by lia. apply Hs. lia.
  - rewrite Hr. exists l. replace (1 + (mt_n c - 1)) with (mt_n c) in Hseed by lia. done.
Qed.

  Hypothesis width : 0 < mt_w c.
  Hypothesis array_seed : 0 ≤ mt_array c < 2 ^ mt_w c.

(** A word of the twister. *)
Definition word (x : Z) : Prop := 0 ≤ x < 2 ^ mt_w c.

Lemma seeded_words seed l : word seed → vsize l = mt_n c → seeded (mt_n c) seed l → Forall word l.
Proof.
  intros Hs Hl [H0 Hn]. apply Forall_lookup. intros [|i] x Hx; [by simplify_eq|].
  pose proof (lookup_lt_Some _ _ _ Hx) as Hi. unfold vsize in *. destruct (lookup_lt_is_Some_2 l i) as [y Hy]; [lia|].
  rewrite (Hn i y x) by (done || lia). apply uw_range. lia.
Qed.

(** A step of [InitByArray] stays inside of the arrays. *)
Lemma key_index_ok words i x : vsize words = mt_n c → 1 ≤ i < mt_n c → Forall word words → word x →
  ∃ words' i', next_key_index c (<[Z.to_nat i := x]> words) i = Ret (words', i') ∧ vsize words' = mt_n c ∧
    1 ≤ i' < mt_n c ∧ Forall word words'.
Proof.
  intros Hl Hi Hws Hx. assert (Hl' : vsize (<[Z.to_nat i := x]> words) = mt_n c) by (unfold vsize in *; by rewrite length_insert).
  assert (Hws' : Forall word (<[Z.to_nat i := x]> words)) by (by apply Forall_insert).
  unfold next_key_index. destruct (Z.leb_spec (mt_n c) (i + 1)).
  - destruct (vat_in_range (<[Z.to_nat i := x]> words) (mt_n c - 1)) as (y & Hy & Hyl); [lia|]. rewrite Hy, bind_Ret.
    assert (H0 : vset (<[Z.to_nat i := x]> words) 0 y = Ret (<[0%nat := y]> (<[Z.to_nat i := x]> words)))
      by (apply vset_Ret; split; [lia|done]).
    rewrite H0, bind_Ret. eexists _, _. split; [done|]. unfold vsize in *. rewrite length_insert.
    split; [done|]. split; [lia|]. apply Forall_insert; [done|]. by eapply Forall_lookup_1.
  - eexists _, _. split; [done|]. split; [done|]. split; [lia|done].
Qed.

Lemma key_step_ok mult words i : vsize words = mt_n c → 1 ≤ i < mt_n c → ∃ x, key_step c mult words i = Ret x.
Proof.
  intros Hl Hi. unfold key_step. destruct (vat_in_range words i) as (x & -> & _); [lia|]. rewrite bind_Ret.
  destruct (vat_in_range words (i - 1)) as (y & -> & _); [lia|]. by eexists.
Qed.

Lemma vset_word (words : list Z) i x : vsize words = mt_n c → 1 ≤ i < mt_n c → vset words i x = Ret (<[Z.to_nat i := x]> words).
Proof. intros Hl Hi. apply vset_Ret. split; [lia|done]. Qed.

Lemma InitByArray_ok keys words : keys ≠ [] → vsize words = mt_n c →
  ∃ l, InitByArray c keys words = Ret {| mt := l; mti := mt_n c |} ∧ vsize l = mt_n c ∧
    Forall word l ∧ l !! 0%nat = Some (2 ^ (mt_w c - 1)).
Proof.
  intros Hk Hl. unfold InitByArray. destruct (InitGenRand_ok (mt_array c) words Hl) as (l0 & -> & Hl0 & Hs0).
  apply seeded_words in Hs0; [|done..].
  rewrite bind_Ret. cbn [mt mti]. assert (Hks : 0 < vsize keys) by (destruct keys; [done|rewrite vsize_cons; pose proof (vsize_nonneg keys); lia]).
  destruct (mfold_seqZ (λ _ (s : list Z * Z * Z), vsize s.1.1 = mt_n c ∧ 1 ≤ s.1.2 < mt_n c ∧ Forall word s.1.1 ∧ 0 ≤ s.2 < vsize keys)
    (key_loop1 c keys) 0 (uw (mt_w c) (Z.max (mt_n c) (vsize keys))) (l0, 1, 0)) as ([[l1 i1] j1] & Hr1 & Hs1 & Hi1 & Hw1 & _).
  { apply uw_range. lia. } { cbn. split; [done|]. split; [lia|]. split; [done|lia]. }
  { intros k0 [[l i] j] _ (Hs & Hi & Hw & Hj). cbn in *. destruct (key_step_ok (mt_key1 c) l i Hs Hi) as [x Hx].
    rewrite Hx, bind_Ret. destruct (vat_in_range keys j Hj) as (key & Hkey & _). rewrite Hkey, bind_Ret.
    rewrite (vset_word l i _ Hs Hi), bind_Ret.
    destruct (key_index_ok l i (uw (mt_w c) (uw (mt_w c) (x + key) + j)) Hs Hi Hw) as (l' & i' & Hn & Hl' & Hi' & Hw');
      [apply uw_range; lia|].
    rewrite Hn, bind_Ret. eexists. split; [done|]. cbn. split; [done|]. split; [done|]. split; [done|].
    pose proof (uw_range (mt_w c) (j + 1)). destruct (Z.leb_spec (vsize keys) (uw (mt_w c) (j + 1))); lia. }
  rewrite Hr1, bind_Ret. cbn [fst snd] in *.
  destruct (mfold_seqZ (λ _ (s : list Z * Z), vsize s.1 = mt_n c ∧ 1 ≤ s.2 < mt_n c ∧ Forall word s.1)
    (key_loop2 c) 0 (mt_n c - 1) (l1, i1)) as ([l2 i2] & Hr2 & Hs2 & _ & Hw2).
  { lia. } { done. }
  { intros k0 [l i] _ (Hs & Hi & Hw). cbn in *. destruct (key_step_ok (mt_key2 c) l i Hs Hi) as [x Hx].
    rewrite Hx, bind_Ret, (vset_word l i _ Hs Hi), bind_Ret.
    destruct (key_index_ok l i (uw (mt_w c) (x - i)) Hs Hi Hw) as (l' & i' & Hn & Hl' & Hi' & Hw');
      [apply uw_range; lia|]. rewrite Hn. by eexists. }
  rewrite Hr2, bind_Ret. cbn [fst snd] in *.
  assert (H0 : vset l2 0 (2 ^ (mt_w c - 1)) = Ret (<[0%nat := 2 ^ (mt_w c - 1)]> l2)) by (apply vset_Ret; split; [lia|done]).
  rewrite H0, bind_Ret. eexists. split; [done|]. unfold vsize in *. rewrite length_insert.
  split; [done|]. split; [|apply list_lookup_insert_eq; lia]. apply Forall_insert; [done|].
  split; [apply Z.pow_nonneg; lia|apply Z.pow_lt_mono_r; lia].
Qed.

(** Without keys the first pass reads beyond them. *)
Lemma InitByArray_no_keys words : mt_n c < 2 ^ mt_w c → vsize words = mt_n c →
  InitByArray c [] words = Fail (Undef (UIndex 0 0)).
Proof.
  intros Hn Hl. unfold InitByArray. destruct (InitGenRand_ok (mt_array c) words Hl) as (l0 & -> & Hl0 & _).
  rewrite bind_Ret. cbn [mt mti]. change (vsize []) with 0. rewrite Z.max_l, uw_small, (seqZ_cons 0 (mt_n c)) by lia. cbn [mfold].
  assert (Hk : key_loop1 c [] (l0, 1, 0) 0 = Fail (Undef (UIndex 0 0))).
  { unfold key_loop1. destruct (key_step_ok (mt_key1 c) l0 1 Hl0) as [x ->]; [lia|]. by rewrite bind_Ret. }
  by rewrite Hk.
Qed.

End MersenneSpec.

(** ** The mixing of the words *)

Lemma lxor_word w x y : 0 ≤ x < 2 ^ w → 0 ≤ y < 2 ^ w → 0 ≤ Z.lxor x y < 2 ^ w.
Proof.
  intros Hx Hy. assert (0 ≤ w).
  { destruct (Z.le_gt_cases 0 w); [done|]. rewrite Z.pow_neg_r in Hx; lia. }
  apply word_of_bits; [done|apply Z.lxor_nonneg; lia|].
  intros i Hi. by rewrite Z.lxor_spec, !(word_high w).
Qed.

(** A mixing step is injective when what it adds is linear and vanishes nowhere else. *)
Lemma lxor_step_inj (f : Z → Z) x y :
  (∀ a b, Z.lxor (f a) (f b) = f (Z.lxor a b)) → (∀ z, 0 ≤ z → z = f z → z = 0) → 0 ≤ x → 0 ≤ y →
  Z.lxor x (f x) = Z.lxor y (f y) → x = y.
Proof.
  intros Hlin Hnil Hx Hy He. apply Z.lxor_eq. apply Hnil; [apply Z.lxor_nonneg; lia|].
  rewrite <- Hlin. apply Z.lxor_eq. rewrite Z.lxor_assoc, <- (Z.lxor_assoc y), (Z.lxor_comm y (f x)).
  rewrite (Z.lxor_assoc (f x)), <- Z.lxor_assoc, He. apply Z.lxor_nilpotent.
Qed.

Lemma land_lxor a b m : Z.lxor (Z.land a m) (Z.land b m) = Z.land (Z.lxor a b) m.
Proof.
  apply Z.bits_inj'. intros i Hi. rewrite !Z.lxor_spec, !Z.land_spec, Z.lxor_spec.
  by destruct (Z.testbit a i), (Z.testbit b i), (Z.testbit m i).
Qed.

(** To the right, under a mask. *)
Lemma right_step_inj s m x y : 0 < s → 0 ≤ x → 0 ≤ y →
  Z.lxor x (Z.land (Z.shiftr x s) m) = Z.lxor y (Z.land (Z.shiftr y s) m) → x = y.
Proof.
  intros Hs. apply (lxor_step_inj (λ z, Z.land (Z.shiftr z s) m)).
  - intros a b. by rewrite land_lxor, Z.shiftr_lxor.
  - intros z Hz He. destruct (decide (z = 0)) as [|Hne]; [done|].
    pose proof (Z.bit_log2 z ltac:(lia)) as Hbit. pose proof (Z.log2_nonneg z).
    rewrite He in Hbit at 1. by rewrite Z.land_spec, Z.shiftr_spec, Z.bits_above_log2 in Hbit by lia.
Qed.

(** To the left, cut at the width of a word. *)
Lemma left_step_inj w s m x y : 0 ≤ w → 0 < s → 0 ≤ x → 0 ≤ y →
  Z.lxor x (Z.land (uw w (Z.shiftl x s)) m) = Z.lxor y (Z.land (uw w (Z.shiftl y s)) m) → x = y.
Proof.
  intros Hw Hs. apply (lxor_step_inj (λ z, Z.land (uw w (Z.shiftl z s)) m)).
  - intros a b. rewrite land_lxor. f_equal. unfold uw. rewrite <- !Z.land_ones by done.
    by rewrite land_lxor, Z.shiftl_lxor.
  - intros z Hz He. apply Z.bits_inj'. intros i. rewrite Z.testbit_0_l.
    induction (Z.lt_wf 0 i) as [i _ IH]. intros Hi. rewrite He, Z.land_spec. unfold uw.
    destruct (decide (i < w)).
    + rewrite Z.mod_pow2_bits_low by lia. rewrite Z.shiftl_spec by done.
      destruct (decide (i < s)); [by rewrite Z.testbit_neg_r by lia|]. rewrite IH by lia. done.
    + by rewrite Z.mod_pow2_bits_high by lia.
Qed.

(** The constants of a twister fit in its words. *)
Definition mt_ok (c : mt_params) : Prop :=
  (1 < mt_m c ∧ mt_m c < mt_n c) ∧ 0 < mt_w c ∧ 0 ≤ mt_array c < 2 ^ mt_w c ∧ 0 ≤ mt_matrix c < 2 ^ mt_w c ∧
  0 ≤ mt_upper c < 2 ^ mt_w c ∧ 0 ≤ mt_lower c < 2 ^ mt_w c ∧
  0 < mt_u c ∧ 0 < mt_s c ∧ 0 < mt_t c ∧ 0 < mt_l c ∧
  0 ≤ mt_s_mask c < 2 ^ mt_w c ∧ 0 ≤ mt_t_mask c < 2 ^ mt_w c.

Lemma temper_word c x : mt_ok c → 0 ≤ x < 2 ^ mt_w c → 0 ≤ temper c x < 2 ^ mt_w c.
Proof.
  intros (_ & Hw & _ & _ & _ & _ & Hu & Hs & Ht & Hl & Hsm & Htm) Hx. unfold temper. cbv zeta.
  set (x1 := Z.lxor x (Z.land (Z.shiftr x (mt_u c)) (mt_u_mask c))).
  assert (H1 : 0 ≤ x1 < 2 ^ mt_w c).
  { apply lxor_word; [done|]. rewrite Z.land_comm. apply land_word, shiftr_word; [lia|done]. }
  set (x2 := Z.lxor x1 (Z.land (uw (mt_w c) (Z.shiftl x1 (mt_s c))) (mt_s_mask c))).
  assert (H2 : 0 ≤ x2 < 2 ^ mt_w c) by (apply lxor_word; [done|by apply land_word]).
  set (x3 := Z.lxor x2 (Z.land (uw (mt_w c) (Z.shiftl x2 (mt_t c))) (mt_t_mask c))).
  assert (H3 : 0 ≤ x3 < 2 ^ mt_w c) by (apply lxor_word; [done|by apply land_word]).
  apply lxor_word; [done|]. apply shiftr_word; [lia|done].
Qed.

Lemma temper_inj c x y : mt_ok c → 0 ≤ x < 2 ^ mt_w c → 0 ≤ y < 2 ^ mt_w c → temper c x = temper c y → x = y.
Proof.
  intros Hc Hx Hy. pose proof Hc as (_ & Hw & _ & _ & _ & _ & Hu & Hs & Ht & Hl & Hsm & Htm).
  unfold temper. cbv zeta.
  assert (Hr : ∀ z, 0 ≤ z < 2 ^ mt_w c → 0 ≤ Z.lxor z (Z.land (Z.shiftr z (mt_u c)) (mt_u_mask c)) < 2 ^ mt_w c).
  { intros z Hz. apply lxor_word; [done|]. rewrite Z.land_comm. apply land_word, shiftr_word; [lia|done]. }
  assert (Hlw : ∀ z s m, 0 ≤ m < 2 ^ mt_w c → 0 ≤ z < 2 ^ mt_w c →
    0 ≤ Z.lxor z (Z.land (uw (mt_w c) (Z.shiftl z s)) m) < 2 ^ mt_w c)
    by (intros z s m Hm Hz; apply lxor_word; [done|by apply land_word]).
  intros He. apply (right_step_inj (mt_u c) (mt_u_mask c)); [done|lia|lia|].
  pose proof (Hr x Hx) as Hx1. pose proof (Hr y Hy) as Hy1.
  set (x1 := Z.lxor x _) in *. set (y1 := Z.lxor y _) in *.
  apply (left_step_inj (mt_w c) (mt_s c) (mt_s_mask c)); [lia|done|lia|lia|].
  pose proof (Hlw x1 (mt_s c) _ Hsm Hx1) as Hx2. pose proof (Hlw y1 (mt_s c) _ Hsm Hy1) as Hy2.
  set (x2 := Z.lxor x1 _) in *. set (y2 := Z.lxor y1 _) in *.
  apply (left_step_inj (mt_w c) (mt_t c) (mt_t_mask c)); [lia|done|lia|lia|].
  pose proof (Hlw x2 (mt_t c) _ Htm Hx2) as Hx3. pose proof (Hlw y2 (mt_t c) _ Htm Hy2) as Hy3.
  set (x3 := Z.lxor x2 _) in *. set (y3 := Z.lxor y2 _) in *.
  apply (right_step_inj (mt_l c) (-1)); [done|lia|lia|]. by rewrite !Z.land_m1_r.
Qed.

Lemma twist_word c a b : mt_ok c → word c a → word c b → word c (twist c a b).
Proof.
  intros (_ & Hw & _ & Hm & Hup & Hlo & _) Ha Hb. unfold twist. apply lxor_word.
  - apply shiftr_word; [lia|]. apply lor_word; by apply land_word.
  - destruct (Z.odd _); [done|]. split; [lia|]. apply Z.pow_pos_nonneg; lia.
Qed.

Lemma recurrence_word c h : mt_ok c → Forall (word c) h → word c (recurrence c h).
Proof.
  intros Hc Hh. assert (Hn : ∀ i, word c (nth i h 0)).
  { intros i. destruct (nth_in_or_default i h 0) as [Hin| ->].
    - rewrite Forall_forall in Hh. apply Hh. by apply list_elem_of_In.
    - destruct Hc as (_ & Hw & _). split; [lia|]. apply Z.pow_pos_nonneg; lia. }
  unfold recurrence. apply lxor_word; [apply Hn|]. apply twist_word; auto.
Qed.

Lemma sequence_words c k h : mt_ok c → Forall (word c) h → Forall (word c) (sequence c k h).
Proof.
  intros Hc. revert h. induction k as [|k IH]; intros h Hh; cbn; [done|].
  pose proof (recurrence_word c h Hc Hh) as Hr. constructor; [done|]. apply IH, Forall_app. auto.
Qed.

Lemma mt32_ok : mt_ok mt32.
Proof. unfold mt_ok, mt32; cbn; lia. Qed.
Lemma mt64_ok : mt_ok mt64.
Proof. unfold mt_ok, mt64; cbn; lia. Qed.

(** The outputs of a generator that was just made. *)
Lemma fresh_outputs c l k : mt_ok c → vsize l = mt_n c → Forall (word c) l →
  ∃ g', outputs c k {| mt := l; mti := mt_n c |} = Ret (temper c <$> sequence c k l, g') ∧
    Forall (word c) (temper c <$> sequence c k l).
Proof.
  intros Hc Hl Hw. destruct (outputs_ok c (proj1 Hc) k {| mt := l; mti := mt_n c |}) as (g' & Ho & _).
  { split; cbn; [done|]. destruct Hc as [? _]. lia. }
  exists g'. unfold upcoming in Ho. cbn [mt mti] in Ho. rewrite drop_ge in Ho by (unfold vsize in Hl; lia).
  cbn [app] in Ho. rewrite take_ge in Ho by (by rewrite length_sequence). split; [done|].
  apply Forall_fmap. apply (Forall_impl _ _ _ (sequence_words c k l Hc Hw)). intros x Hx. by apply temper_word.
Qed.

(** C30: [TMersenne32] and [TMersenne64] are the generators their names say.  Made from a
    seed, the state has the words of the seeding recurrence, and made from an array of
    keys that is not empty its first word has the highest bit alone; the numbers
    [GenRand] then gives, as many as one asks for, are the words of the recurrence of
    length [NN] from that state, mixed, although [InitNext] overwrites the state in place;
    they are words, no read or write misses the array, and the mixing gives different
    numbers for different words. *)
Theorem Mersenne_correct (c : mt_params) (words : list Z) (k : nat) :
  c = mt32 ∨ c = mt64 → vsize words = mt_n c →
  (∀ seed, word c seed → ∃ l g', new_TMersenne c seed words = Ret {| mt := l; mti := mt_n c |} ∧
     vsize l = mt_n c ∧ seeded c (mt_n c) seed l ∧
     outputs c k {| mt := l; mti := mt_n c |} = Ret (temper c <$> sequence c k l, g') ∧
     Forall (word c) (temper c <$> sequence c k l)) ∧
  (∀ keys, keys ≠ [] → ∃ l g', new_TMersenne_keys c keys words = Ret {| mt := l; mti := mt_n c |} ∧
     vsize l = mt_n c ∧ l !! 0%nat = Some (2 ^ (mt_w c - 1)) ∧
     outputs c k {| mt := l; mti := mt_n c |} = Ret (temper c <$> sequence c k l, g') ∧
     Forall (word c) (temper c <$> sequence c k l)) ∧
  ∀ x y, word c x → word c y → temper c x = temper c y → x = y.
Proof.
  intros Hcc Hl. assert (Hc : mt_ok c) by (destruct Hcc as [-> | ->]; [apply mt32_ok|apply mt64_ok]).
  pose proof Hc as (Hsz & Hw & Ha & _). split; [|split].
  - intros seed Hs. destruct (InitGenRand_ok c Hsz seed words Hl) as (l & Hi & Hll & Hsd).
    destruct (fresh_outputs c l k Hc Hll (seeded_words c Hw seed l Hs Hll Hsd)) as (g' & Ho & Hf). by exists l, g'.
  - intros keys Hk. destruct (InitByArray_ok c Hsz Hw Ha keys words Hk Hl) as (l & Hi & Hll & Hws & H0).
    destruct (fresh_outputs c l k Hc Hll Hws) as (g' & Ho & Hf). by exists l, g'.
  - intros x y. by apply temper_inj.
Qed.

(** The state of some twister before its constructor runs: any words. *)
Lemma Mersenne_correct_witness :
  (∀ seed, word mt64 seed → ∃ l g', new_TMersenne mt64 seed (replicate 312 0) = Ret {| mt := l; mti := 312 |} ∧
     vsize l = 312 ∧ seeded mt64 312 seed l ∧
     outputs mt64 3 {| mt := l; mti := 312 |} = Ret (temper mt64 <$> sequence mt64 3 l, g') ∧
     Forall (word mt64) (temper mt64 <$> sequence mt64 3 l)) ∧
  (∀ keys, keys ≠ [] → ∃ l g', new_TMersenne_keys mt64 keys (replicate 312 0) = Ret {| mt := l; mti := 312 |} ∧
     vsize l = 312 ∧ l !! 0%nat = Some (2 ^ 63) ∧
     outputs mt64 3 {| mt := l; mti := 312 |} = Ret (temper mt64 <$> sequence mt64 3 l, g') ∧
     Forall (word mt64) (temper mt64 <$> sequence mt64 3 l)) ∧
  ∀ x y, word mt64 x → word mt64 y → temper mt64 x = temper mt64 y → x = y.
Proof. apply (Mersenne_correct mt64 (replicate 312 0) 3); [by right|vm_compute; reflexivity]. Defined.

(** A twister meets the interface of the distributions and of [Shuffle]. *)
Definition Mersenne_gen (c : mt_params) : TRandGen TMersenne :=
  {| rand_width := mt_w c; GenRand := Mersenne_GenRand c |}.

Definition twister_good (c : mt_params) (g : TMersenne) : Prop := mersenne_good c g ∧ Forall (word c) (mt g).

Lemma Mersenne_GenRand_ok c (Hc : mt_ok c) g : twister_good c g →
  ∃ x g', Mersenne_GenRand c g = Ret (x, g') ∧ 0 ≤ x < 2 ^ mt_w c ∧ twister_good c g'.
Proof.
  intros [Hg Hw]. destruct (GenRand_word c (proj1 Hc) g Hg) as (x & g' & Hx & Hg' & Hup).
  assert (Hmt : mt g' = mt g ∨ mt g' = sequence c (Z.to_nat (mt_n c)) (mt g)).
  { unfold Mersenne_GenRand in Hx. destruct (Z.leb_spec (mt_n c) (mti g)).
    - destruct Hg as [Hl Hi]. rewrite (InitNext_ok c (proj1 Hc)), bind_Ret in Hx by (done || lia).
      inv_ret. by right.
    - rewrite bind_Ret in Hx. inv_ret. by left. }
  assert (Hw' : Forall (word c) (mt g')) by (destruct Hmt as [-> | ->]; [done|by apply sequence_words]).
  exists (temper c x), g'. split; [done|]. split; [|done]. apply temper_word; [done|].
  assert (Hall : Forall (word c) (upcoming c 1 g)).
  { apply Forall_take, Forall_app. split; [by apply Forall_drop|by apply sequence_words]. }
  rewrite Hup in Hall. by inversion Hall.
Qed.

(** [Shuffle] with a twister, instantiated. *)
#[local] Instance mt64_gen : TRandGen TMersenne := Mersenne_gen mt64.
#[local] Instance mt64_gen_ok : TRandGenOk TMersenne :=
  {| rand_good := twister_good mt64; rand_width_pos := eq_refl; GenRand_ok := Mersenne_GenRand_ok mt64 mt64_ok |}.

(** ** Reals *)

(** The numbers of [GenRandReal4] are not all below one: the largest words are rounded up
    to it. *)
Lemma ToRandReal4_one : ToRandReal4 (2 ^ 64 - 1) = binary_normalize 53 1024 1 0 false.
Proof. vm_compute. reflexivity. Qed.

(** ** The values of the unit tests *)

(** [fast_ut.cpp], Test1 and Test2: the hundreds of a [TFastRng64]. *)
Example fast_ut_Test1 : TFastRng32 17 0 = TReallyFastRng32 17.
Proof. reflexivity. Qed.

Fixpoint uniform_list `{TRandGen G} (n : nat) (t : Z) (g : G) : list Z :=
  match n with
  | O => []
  | S n => match Uniform 1 t g with Ret r => r.1 :: uniform_list n t r.2 | Fail _ => [] end
  end.

Example fast_ut_Test2 :
  uniform_list 20 100 (new_TFastRng64 0 1 2 3) =
  [37; 43; 76; 17; 12; 87; 60; 4; 83; 47; 57; 81; 28; 45; 66; 74; 18; 17; 18; 75].
Proof. vm_compute. reflexivity. Qed.

Example fast_ut_Test3 :
  (g ← TFastRng64_of_seed 17; r ← GenRand g; Ret r.1) = Ret 14895365814383052362.
Proof. vm_compute. reflexivity. Qed.

(** [mersenne_ut.cpp], with the default seed of the constructors. *)
Example mersenne_ut_Test32 :
  (g ← new_TMersenne mt32 19650218 (replicate 624 0); r ← outputs mt32 10 g; Ret r.1) =
  Ret [2325592414; 482149846; 4177211283; 3872387439; 1663027210; 2005191859; 666881213; 3289399202;
       2514534568; 3882134983].
Proof. vm_compute. reflexivity. Qed.

Example mersenne_ut_Test64 :
  (g ← new_TMersenne mt64 19650218 (replicate 312 0); r ← outputs mt64 10 g; Ret r.1) =
  Ret [13735441942630277712; 10468394322237346228; 5051557175812687784; 8252857936377966838;
       4330799099585512958; 327094098846779408; 6143667654738189122; 6387112078486713335;
       3862502196831460488; 11231499428520958715].
Proof. vm_compute. reflexivity. Qed.
