(* ===== verification/Cast.v ===== *)
(** * Numbers and text: [util/string/cast.cc]

    The printers and parsers of integers, and the parts of the conversion of
    floating point numbers the file does itself.  Every integer type of the program
    is printed and parsed as a signed or unsigned 64-bit integer ([i64], [ui64]),
    with the bounds of the type for parsing.  A character is a signed 8-bit integer,
    a string the list of its characters.  The conversions of a [double] to digits and
    back belong to the double-conversion library and are parameters. *)
From Stdlib Require Import Ascii String.
From S2P Require Import Prelude BitOps.

Open Scope Z_scope.

(** ** Characters *)

(** [TString], [TStringBuf] *)
Abbreviation TString := (list Z).

(** A [char] literal. *)
Definition chr (a : ascii) : Z :=
  let n := Z.of_N (N_of_ascii a) in if n <? 128 then n else n - 256.
(** [STRINGBUF("...")] *)
Definition STRINGBUF (s : string) : TString := chr <$> list_ascii_of_string s.

Definition IntToChar : list Z := STRINGBUF "0123456789ABCDEF".

Definition LetterToIntMap : list Z :=
  [20; 20; 20; 20; 20; 20; 20; 20; 20; 20;
   20; 20; 20; 20; 20; 20; 20; 20; 20; 20;
   20; 20; 20; 20; 20; 20; 20; 20; 20; 20;
   20; 20; 20; 20; 20; 20; 20; 20; 20; 20;
   20; 20; 20; 20; 20; 20; 20; 20; 0; 1;
   2; 3; 4; 5; 6; 7; 8; 9; 20; 20;
   20; 20; 20; 20; 20; 10; 11; 12; 13; 14;
   15; 20; 20; 20; 20; 20; 20; 20; 20; 20;
   20; 20; 20; 20; 20; 20; 20; 20; 20; 20;
   20; 20; 20; 20; 20; 20; 20; 10; 11; 12;
   13; 14; 15].

(** ** Printing *)

(** [NegateSigned] at [i64]. *)
Definition NegateSigned (value : Z) : outcome Z :=
  if value =? - 2 ^ 63 then Fail (Undef UOverflow) else Ret (- value).

(** The first loop of [TBasicIntFormatter::Format]: the characters it writes, the
    least significant digit first, and what is left of the value.  [len > 0]. *)
Fixpoint format_loop (base : Z) (len : nat) (value : Z) : outcome (TString * Z) :=
  match len with
  | O => Ret ([], value)
  | S len =>
      let next_val := u64 (value `div` base) in
      c ← vat IntToChar (if bool_decide (base ∈ [2; 4; 8; 16]) then Z.land value (base - 1)
                         else u64 (value - base * next_val));
      if negb (next_val =? 0) && negb (Nat.eqb len 0)
      then r ← format_loop base len next_val; Ret (c :: r.1, r.2)
      else Ret ([c], next_val)
  end.

(** The loop that reverses the buffer: [i] and [j] are [buf] and [tmp]. *)
Fixpoint swap_loop (fuel : nat) (buf : TString) (i j : Z) : outcome TString :=
  match fuel with
  | O => Ret buf
  | S fuel =>
      if i <? j then
        c ← vat buf i; d ← vat buf j;
        buf ← vset buf i d; buf ← vset buf j c;
        swap_loop fuel buf (i + 1) (j - 1)
      else Ret buf
  end.

(** [TBasicIntFormatter<ui64, base, char>::Format]: the characters written to the
    start of a buffer of [len]. *)
Definition TBasicIntFormatter_Format (base value len : Z) : outcome TString :=
  _ ← ensure (0 <? len) EZeroLength;
  r ← format_loop base (Z.to_nat len) value;
  _ ← ensure (r.2 =? 0) ENoRoom;
  swap_loop (length r.1) r.1 0 (vsize r.1 - 1).

(** [FormatInt], [TIntFormatter::Format] at [i64] or [ui64]. *)
Definition FormatInt (signed : bool) (base value len : Z) : outcome TString :=
  if signed && (value <? 0) then
    _ ← ensure (2 <=? len) ENoRoom;
    value ← NegateSigned value;
    r ← TBasicIntFormatter_Format base (u64 value) (len - 1);
    Ret (chr "-" :: r)
  else TBasicIntFormatter_Format base (u64 value) len.

(** ** Parsing *)

Inductive EParseStatus : Type :=
| PS_OK | PS_EMPTY_STRING | PS_PLUS_STRING | PS_MINUS_STRING | PS_BAD_SYMBOL | PS_OVERFLOW.

(** What a parser gives: [PS_OK] and [*target], or another status and the
    characters from [*ppos] on. *)
Definition parsed : Type := (EParseStatus * TString) + Z.

Definition SAFE_LENS : list (list Z) :=
  [[0; 0; 7; 5; 3; 3; 3; 2; 2; 2; 2; 2; 2; 2; 2; 2; 1];
   [0; 0; 15; 10; 7; 6; 6; 5; 5; 5; 4; 4; 4; 4; 4; 4; 3];
   [0; 0; 31; 20; 15; 13; 12; 11; 10; 10; 9; 9; 8; 8; 8; 8; 7];
   [0; 0; 63; 40; 31; 27; 24; 22; 21; 20; 19; 18; 17; 17; 16; 16; 15]].

(** [ConstLog2(x)] for [x > 0], an [ui8]: at most eight calls. *)
Fixpoint const_log2 (fuel : nat) (x : Z) : Z :=
  match fuel with
  | O => 0
  | S fuel => if x =? 1 then 0 else 1 + const_log2 fuel (x `div` 2)
  end.
Definition ConstLog2 (x : Z) : Z := const_log2 8 x.

(** [CharToDigit<BASE>] with its [*digit] when it returns true. *)
Definition CharToDigit (base c : Z) : option Z :=
  if 10 <? base then
    let uc := u32 c in
    if vsize LetterToIntMap <=? uc then None
    else d ← LetterToIntMap !! Z.to_nat uc; if d <? base then Some d else None
  else if chr "0" <=? c then
    let d := u64 (c - chr "0") in if d <? base then Some d else None
  else None.

(** The first loop of [ParseFast], over pairs of characters: the characters left and
    the result. *)
Fixpoint parse_pairs (base : Z) (cs : TString) (result : Z) : TString * Z :=
  match cs with
  | c1 :: c2 :: rest =>
      match CharToDigit base c1, CharToDigit base c2 with
      | Some d1, Some d2 => parse_pairs base rest (u64 (result * (base * base) + d1 * base + d2))
      | _, _ => (cs, result)
      end
  | _ => (cs, result)
  end.

(** The second loop. *)
Fixpoint parse_singles (base : Z) (cs : TString) (result : Z) : TString * Z :=
  match cs with
  | c :: rest =>
      match CharToDigit base c with
      | Some d => parse_singles base rest (u64 (result * base + d))
      | None => (cs, result)
      end
  | [] => (cs, result)
  end.

(** [TBasicIntParser<ui64, base, char>::ParseFast] *)
Definition ParseFast (base : Z) (cs : TString) : option Z :=
  let r := parse_pairs base cs 0 in
  let r := parse_singles base r.1 r.2 in
  match r.1 with [] => Some r.2 | _ => None end.

(** The loop of [ParseSlow]; [start] is [*ppos]. *)
Fixpoint parse_slow (base max : Z) (start cs : TString) (result : Z) : parsed :=
  match cs with
  | [] => inr result
  | c :: rest =>
      match CharToDigit base c with
      | None => inl (PS_BAD_SYMBOL, cs)
      | Some digit =>
          if max `div` base <? result then inl (PS_OVERFLOW, start)
          else
            let result := u64 (result * base) in
            if u64 (max - digit) <? result then inl (PS_OVERFLOW, start)
            else parse_slow base max start rest (u64 (result + digit))
      end
  end.
Definition ParseSlow (base max : Z) (cs : TString) : parsed := parse_slow base max cs cs 0.

(** [TBasicIntParser<ui64, base, char>::Parse] *)
Definition TBasicIntParser_Parse (base max : Z) (cs : TString) : outcome parsed :=
  row ← vat SAFE_LENS (ConstLog2 8);
  max_safe_len ← vat row base;
  if vsize cs <=? max_safe_len then
    match ParseFast base cs with
    | Some result => if result <=? max then Ret (inr result) else Ret (ParseSlow base max cs)
    | None => Ret (ParseSlow base max cs)
    end
  else Ret (ParseSlow base max cs).

(** [TBounds] *)
Record TBounds : Type := { PositiveMax : Z; NegativeMax : Z }.

(** An integer type, and its bounds: [bSBounds] to [llUBounds]. *)
Record int_type : Type := { is_signed : bool; width : Z }.
Definition bounds (t : int_type) : TBounds :=
  if is_signed t
  then {| PositiveMax := 2 ^ (width t - 1) - 1;
          NegativeMax := (2 ^ width t - 1) - (2 ^ (width t - 1) - 1) |}
  else {| PositiveMax := 2 ^ width t - 1; NegativeMax := 0 |}.

(** [static_cast<i64>] of an [ui64]. *)
Definition to_i64 (v : Z) : Z := if v <? 2 ^ 63 then v else v - 2 ^ 64.

(** The end of [TIntParser::Parse], after the sign: the digits, and [*target]. *)
Definition parse_unsigned (signed negative : bool) (base max : Z) (pos : TString) : outcome parsed :=
  r ← TBasicIntParser_Parse base max pos;
  match r with
  | inl error => Ret (inl error)
  | inr result =>
      if signed
      then if negative then v ← NegateSigned (to_i64 result); Ret (inr v)
           else Ret (inr (to_i64 result))
      else Ret (inr result)
  end.

(** [TIntParser<T, base, char>::Parse] *)
Definition TIntParser_Parse (signed : bool) (base : Z) (b : TBounds) (cs : TString) : outcome parsed :=
  match cs with
  | [] => Ret (inl (PS_EMPTY_STRING, cs))
  | c :: rest =>
      if c =? chr "+" then
        match rest with
        | [] => Ret (inl (PS_PLUS_STRING, cs))
        | _ => parse_unsigned signed false base (PositiveMax b) rest
        end
      else if signed && (c =? chr "-") then
        match rest with
        | [] => Ret (inl (PS_MINUS_STRING, cs))
        | _ => parse_unsigned signed true base (NegativeMax b) rest
        end
      else parse_unsigned signed false base (PositiveMax b) cs
  end.

(** [ThrowParseError]: the exception of a status; [*pos] is in its message. *)
Definition ThrowParseError (status : EParseStatus) (data pos : TString) : failure :=
  match status with
  | PS_OK => Throw EFromStringUnknown
  | PS_EMPTY_STRING => Throw EFromStringEmpty
  | PS_PLUS_STRING => Throw EFromStringPlus
  | PS_MINUS_STRING => Throw EFromStringMinus
  | PS_BAD_SYMBOL => Throw (EFromStringSymbol (head pos) (vsize data - vsize pos))
  | PS_OVERFLOW => Throw EFromStringOverflow
  end.

(** [IntFromString<TYPE, base>] and [FromStringImpl<TYPE>], by [ParseInt]. *)
Definition IntFromString (t : int_type) (base : Z) (cs : TString) : outcome Z :=
  r ← TIntParser_Parse (is_signed t) base (bounds t) cs;
  match r with
  | inl e => Fail (ThrowParseError e.1 cs e.2)
  | inr v => Ret v
  end.

(** [TryIntFromString<base>] and [TryFromStringImpl<TYPE>], by [TryParseInt]. *)
Definition TryIntFromString (t : int_type) (base : Z) (cs : TString) : outcome (option Z) :=
  r ← TIntParser_Parse (is_signed t) base (bounds t) cs;
  Ret (match r with inl _ => None | inr v => Some v end).

(** The types the program converts. *)
Definition t_int : int_type := {| is_signed := true; width := 32 |}.
Definition t_ui64 : int_type := {| is_signed := false; width := 64 |}.

(** [ToString(value, buf, sizeof(buf))] with a buffer of 64 characters, and
    [operator<<] of an integer. *)
Definition int_text (t : int_type) (value : Z) : outcome TString :=
  FormatInt (is_signed t) 10 value 64.

(** [ToStringImpl<bool>] *)
Definition bool_text (t : bool) (len : Z) : outcome TString :=
  _ ← ensure (0 <? len) EZeroLength;
  Ret [if t then chr "1" else chr "0"].

(** ** Digits *)

(** The number some digits denote, read after [acc]. *)
Definition horner (base acc : Z) (ds : list Z) : Z := foldl (λ a d, a * base + d) acc ds.

(** The digits of some characters, when all are digits. *)
Definition digits (base : Z) (cs : TString) : option (list Z) := mapM (CharToDigit base) cs.

(** Reading digits in unbounded integers, up to the first character that is not a
    digit or makes the number exceed [max]. *)
Fixpoint read_digits (base max : Z) (start cs : TString) (acc : Z) : parsed :=
  match cs with
  | [] => inr acc
  | c :: rest =>
      match CharToDigit base c with
      | None => inl (PS_BAD_SYMBOL, cs)
      | Some d => if max <? acc * base + d then inl (PS_OVERFLOW, start)
                  else read_digits base max start rest (acc * base + d)
      end
  end.

Lemma u64_add a b : u64 (u64 a + b) = u64 (a + b).
Proof. unfold u64. by rewrite Z.add_mod_idemp_l by lia. Qed.

Lemma u64_mul a b : u64 (u64 a * b) = u64 (a * b).
Proof. unfold u64. by rewrite Z.mul_mod_idemp_l by lia. Qed.

Lemma u64_mul_add a b c : u64 (u64 a * b + c) = u64 (a * b + c).
Proof. by rewrite <- u64_add, u64_mul, u64_add. Qed.

Section Base.
  Context (base : Z) (Hbase : 1 < base < 17).

Lemma CharToDigit_range c d : CharToDigit base c = Some d → 0 ≤ d < base.
Proof using Hbase.
  unfold CharToDigit. destruct (Z.ltb_spec 10 base).
  - destruct (_ <=? _); [done|]. destruct (LetterToIntMap !! _) as [e|] eqn:He; [|done]. cbn.
    destruct (Z.ltb_spec e base); [|done]. intros [= <-]. split; [|done].
    assert (Forall (λ x, 0 ≤ x) LetterToIntMap) as Hall by (repeat constructor; lia).
    by eapply Forall_lookup_1 in Hall.
  - destruct (_ <=? _); [|done]. cbn. destruct (Z.ltb_spec (u64 (c - chr "0")) base); [|done].
    intros [= <-]. pose proof (u64_range (c - chr "0")). lia.
Qed.

Lemma digits_cons c cs :
  digits base (c :: cs) = (d ← CharToDigit base c; ds ← digits base cs; Some (d :: ds)).
Proof. reflexivity. Qed.

Lemma digits_range cs ds : digits base cs = Some ds → Forall (λ d, 0 ≤ d < base) ds.
Proof using Hbase.
  intros H%mapM_Some. induction H as [|c d cs ds Hc _ IH]; constructor; [|done].
  by apply CharToDigit_range in Hc.
Qed.

Lemma digits_length cs ds : digits base cs = Some ds → length ds = length cs.
Proof. intros H%mapM_Some. symmetry. by eapply Forall2_length. Qed.

Lemma horner_snoc acc ds d : horner base acc (ds ++ [d]) = horner base acc ds * base + d.
Proof. unfold horner. by rewrite foldl_app. Qed.

Lemma horner_u64 acc ds : u64 (horner base (u64 acc) ds) = u64 (horner base acc ds).
Proof.
  induction ds as [|d ds IH] using rev_ind; cbn.
  - unfold u64. by rewrite Z.mod_mod by lia.
  - rewrite !horner_snoc. rewrite <- u64_mul_add, IH. apply u64_mul_add.
Qed.

Lemma horner_bounds acc ds : 0 ≤ acc → Forall (λ d, 0 ≤ d < base) ds →
  acc ≤ horner base acc ds < (acc + 1) * base ^ vsize ds.
Proof using Hbase.
  intros Hacc. induction ds as [|d ds IH] using rev_ind; intros Hds.
  - unfold horner. cbn. rewrite vsize_nil. lia.
  - apply Forall_app in Hds as [Hds [Hd _]%Forall_cons_1]. specialize (IH Hds).
    pose proof (vsize_nonneg ds).
    rewrite horner_snoc, vsize_snoc, Z.pow_add_r, Z.pow_1_r by lia.
    set (h := horner base acc ds) in *. set (P := base ^ vsize ds) in *.
    clearbody h P. split; [pose proof (Z.mul_le_mono_nonneg_l 1 base h); lia|].
    apply Z.lt_le_trans with ((h + 1) * base); [lia|].
    rewrite Z.mul_assoc. apply Z.mul_le_mono_nonneg_r; lia.
Qed.

Lemma horner_pow acc ds : 0 < acc → Forall (λ d, 0 ≤ d < base) ds →
  base ^ vsize ds ≤ horner base acc ds.
Proof using Hbase.
  intros Hacc. induction ds as [|d ds IH] using rev_ind; intros Hds.
  - unfold horner. rewrite vsize_nil. cbn. lia.
  - apply Forall_app in Hds as [Hds [Hd _]%Forall_cons_1]. specialize (IH Hds).
    rewrite horner_snoc, vsize_snoc, Z.pow_add_r, Z.pow_1_r by (try apply vsize_nonneg; lia).
    apply Z.le_trans with (horner base acc ds * base); [|lia].
    apply Z.mul_le_mono_nonneg_r; lia.
Qed.

(** Reading more digits never decreases the number. *)
Lemma horner_app acc ds es : horner base acc (ds ++ es) = horner base (horner base acc ds) es.
Proof. unfold horner. apply foldl_app. Qed.

Lemma read_digits_correct max start cs : ∀ acc v, 0 ≤ acc ≤ max →
  read_digits base max start cs acc = inr v ↔
    ∃ ds, digits base cs = Some ds ∧ v = horner base acc ds ∧ v ≤ max.
Proof using Hbase.
  induction cs as [|c cs IH]; intros acc v Hacc; cbn [read_digits].
  - split; [intros [= <-]; exists []; split_and!; done || lia|].
    by intros (? & [= <-] & -> & _).
  - rewrite digits_cons. destruct (CharToDigit base c) as [d|] eqn:Hd; cbn; [|naive_solver].
    apply CharToDigit_range in Hd as Hr. destruct (Z.ltb_spec max (acc * base + d)).
    + split; [done|]. intros (ds & Hds & -> & Hle). cbn in Hds.
      destruct (digits base cs) as [es|] eqn:He; [|done]. injection Hds as <-.
      pose proof (horner_bounds (acc * base + d) es ltac:(nia) (digits_range _ _ He)).
      unfold horner in *. cbn in *. lia.
    + rewrite IH by nia. destruct (digits base cs) as [es|]; cbn; [|naive_solver].
      split; intros (ds & [= <-] & -> & ?); by eexists.
Qed.

Lemma parse_slow_exact max start cs : ∀ acc, 15 ≤ max < 2 ^ 64 → 0 ≤ acc ≤ max →
  parse_slow base max start cs acc = read_digits base max start cs acc.
Proof using Hbase.
  induction cs as [|c cs IH]; intros acc Hmax Hacc; cbn [parse_slow read_digits]; [done|].
  destruct (CharToDigit base c) as [d|] eqn:Hd; [|done]. apply CharToDigit_range in Hd.
  pose proof (Z.div_mod max base ltac:(lia)). pose proof (Z.mod_pos_bound max base ltac:(lia)).
  destruct (Z.ltb_spec (max `div` base) acc).
  - destruct (Z.ltb_spec max (acc * base + d)); [done|nia].
  - rewrite (u64_small (acc * base)) by nia. rewrite (u64_small (max - d)) by lia.
    destruct (Z.ltb_spec (max - d) (acc * base)), (Z.ltb_spec max (acc * base + d)); try done; try lia.
    rewrite u64_small by nia. apply IH; [done|nia].
Qed.

Lemma parse_pairs_singles cs : ∀ acc,
  (λ r, parse_singles base r.1 r.2) (parse_pairs base cs acc) = parse_singles base cs acc.
Proof.
  induction cs as [cs IH] using (induction_ltof1 _ (@length Z)). unfold ltof in IH. intros acc.
  destruct cs as [|c1 [|c2 cs]]; [done..|]. cbn [parse_pairs].
  destruct (CharToDigit base c1) as [d1|] eqn:H1; [|done].
  destruct (CharToDigit base c2) as [d2|] eqn:H2; [|done].
  rewrite IH by (cbn; lia). cbn [parse_singles]. rewrite H1, H2.
  rewrite u64_mul_add. f_equal. f_equal. ring.
Qed.

Lemma parse_singles_correct cs : ∀ acc, 0 ≤ acc < 2 ^ 64 →
  match digits base cs with
  | Some ds => parse_singles base cs acc = ([], u64 (horner base acc ds))
  | None => (parse_singles base cs acc).1 ≠ []
  end.
Proof.
  induction cs as [|c cs IH]; intros acc Hacc; cbn [parse_singles].
  - cbn. by rewrite u64_small.
  - rewrite digits_cons. destruct (CharToDigit base c) as [d|]; [|done]. cbn.
    specialize (IH (u64 (acc * base + d)) (u64_range _)).
    destruct (digits base cs) as [ds|]; cbn; [|done]. by rewrite IH, horner_u64.
Qed.

Lemma ParseFast_correct cs :
  ParseFast base cs = u64 ∘ horner base 0 <$> digits base cs.
Proof.
  unfold ParseFast. pose proof (parse_pairs_singles cs 0) as Hp. cbn in Hp. rewrite Hp.
  pose proof (parse_singles_correct cs 0 ltac:(lia)) as Hs.
  destruct (digits base cs) as [ds|]; [by rewrite Hs|].
  destruct (parse_singles base cs 0) as [[|? ?] ?]; done.
Qed.

End Base.

(** ** What a text denotes *)

Definition digits_value (base : Z) (cs : TString) : option Z :=
  if decide (cs = []) then None else horner base 0 <$> digits base cs.

(** The integer a text denotes: an optional sign ([-] only for signed types), then at
    least one digit. *)
Definition int_value (signed : bool) (base : Z) (cs : TString) : option Z :=
  match cs with
  | [] => None
  | c :: rest =>
      if c =? chr "+" then digits_value base rest
      else if signed && (c =? chr "-") then Z.opp <$> digits_value base rest
      else digits_value base cs
  end.

(** The values of a type. *)
Definition in_type (t : int_type) (v : Z) : bool :=
  (- NegativeMax (bounds t) <=? v) && (v <=? PositiveMax (bounds t)).

Lemma safe_len base : 1 < base < 17 →
  ∃ row m, vat SAFE_LENS (ConstLog2 8) = Ret row ∧ vat row base = Ret m ∧
    0 ≤ m ∧ base ^ m ≤ 2 ^ 64.
Proof.
  intros Hb. eexists. assert (vat SAFE_LENS (ConstLog2 8) = vat SAFE_LENS 3) as -> by done.
  assert (base ∈ seqZ 2 15) as Hin by (apply elem_of_seqZ; lia). vm_compute in Hin.
  repeat (apply elem_of_cons in Hin as [->|Hin]; [eexists; split_and!; try reflexivity; vm_compute; congruence|]).
  by apply not_elem_of_nil in Hin.
Qed.

Lemma TBasicIntParser_Parse_correct base max cs : 1 < base < 17 → 15 ≤ max < 2 ^ 64 →
  TBasicIntParser_Parse base max cs = Ret (read_digits base max cs cs 0).
Proof.
  intros Hb Hmax. unfold TBasicIntParser_Parse, ParseSlow.
  destruct (safe_len base Hb) as (row & m & -> & Hm & Hm0 & Hpow). cbn. rewrite Hm. cbn.
  rewrite parse_slow_exact by lia. destruct (Z.leb_spec (vsize cs) m) as [Hle|]; [|done].
  rewrite ParseFast_correct. destruct (digits base cs) as [ds|] eqn:Hds; cbn; [|done].
  assert (u64 (horner base 0 ds) = horner base 0 ds) as ->.
  { apply u64_small. pose proof (horner_bounds base Hb 0 ds ltac:(lia) (digits_range base Hb _ _ Hds)).
    apply digits_length in Hds. pose proof (Z.pow_le_mono_r base (vsize cs) m ltac:(lia) ltac:(lia)).
    unfold vsize in *. rewrite Hds in *. lia. }
  destruct (Z.leb_spec (horner base 0 ds) max); [|done]. f_equal. symmetry.
  apply (read_digits_correct base Hb); [lia|]. eauto.
Qed.

Lemma read_digits_overflow base max start cs acc ds :
  digits base cs = Some ds → (∃ v, read_digits base max start cs acc = inr v) ∨
  read_digits base max start cs acc = inl (PS_OVERFLOW, start).
Proof.
  revert acc ds. induction cs as [|c cs IH]; intros acc ds; [eauto|].
  rewrite digits_cons. cbn [read_digits]. destruct (CharToDigit base c) as [d|]; cbn; [|done].
  destruct (digits base cs) as [es|]; [|done]. intros _.
  destruct (max <? acc * base + d); [by right|by eapply IH].
Qed.

Lemma read_digits_status base max start cs acc e :
  read_digits base max start cs acc = inl e → e.1 = PS_BAD_SYMBOL ∨ e.1 = PS_OVERFLOW.
Proof.
  revert acc. induction cs as [|c cs IH]; intros acc; [done|]. cbn [read_digits].
  destruct (CharToDigit base c) as [d|]; [|intros [= <-]; by left].
  destruct (max <? acc * base + d); [intros [= <-]; by right|apply IH].
Qed.

(** What reading a text without a sign gives. *)
Lemma read_digits_value base max cs : 1 < base < 17 → 0 ≤ max → cs ≠ [] →
  match digits_value base cs with
  | Some v => 0 ≤ v ∧ read_digits base max cs cs 0 = if v <=? max then inr v else inl (PS_OVERFLOW, cs)
  | None => ∃ e, read_digits base max cs cs 0 = inl e
  end.
Proof.
  intros Hb Hmax Hcs. unfold digits_value. rewrite decide_False by done.
  pose proof (read_digits_correct base Hb max cs cs 0) as Hr.
  destruct (digits base cs) as [ds|] eqn:Hds; cbn.
  - split; [by apply (horner_bounds base Hb 0 ds ltac:(lia)), (digits_range base Hb cs)|].
    destruct (Z.leb_spec (horner base 0 ds) max).
    + apply Hr; [lia|]. eauto.
    + destruct (read_digits_overflow base max cs cs 0 ds Hds) as [[v Hv]|]; [|done].
      apply Hr in Hv as (? & [= <-] & ? & ?); lia.
  - destruct (read_digits base max cs cs 0) as [e|v] eqn:Hv; [eauto|].
    by destruct (proj1 (Hr v ltac:(lia)) eq_refl) as (? & ? & _).
Qed.

Lemma bounds_range t : word_width (width t) = true →
  15 ≤ PositiveMax (bounds t) < 2 ^ 64 ∧
  (is_signed t = true → 15 ≤ NegativeMax (bounds t) ≤ 2 ^ 63 ∧ PositiveMax (bounds t) < 2 ^ 63) ∧
  (is_signed t = false → NegativeMax (bounds t) = 0).
Proof.
  unfold word_width. intros H%bool_decide_eq_true. destruct t as [s w]. cbn in H.
  repeat (apply elem_of_cons in H as [->|H]; [destruct s; cbn; repeat split; intros; done || lia|]).
  by apply not_elem_of_nil in H.
Qed.

Lemma to_i64_small v : 0 ≤ v < 2 ^ 63 → to_i64 v = v.
Proof. intros. unfold to_i64. destruct (Z.ltb_spec v (2 ^ 63)); lia. Qed.

(** The end of the parser, against the value of the digits. *)
Lemma parse_unsigned_spec (signed negative : bool) (base max : Z) (pos : TString) :
  1 < base < 17 → pos ≠ [] → 15 ≤ max < 2 ^ 64 →
  (signed = true → max ≤ 2 ^ 63 - (if negative then 0 else 1)) → (negative = true → signed = true) →
  match digits_value base pos with
  | Some v => 0 ≤ v ∧ parse_unsigned signed negative base max pos =
      if v <=? max then if negative then if v =? 2 ^ 63 then Fail (Undef UOverflow) else Ret (inr (- v))
                        else Ret (inr v)
      else Ret (inl (PS_OVERFLOW, pos))
  | None => ∃ e, parse_unsigned signed negative base max pos = Ret (inl e) ∧
                 (e.1 = PS_BAD_SYMBOL ∨ e.1 = PS_OVERFLOW)
  end.
Proof.
  intros Hb Hpos Hmax Hs Hn. unfold parse_unsigned. rewrite TBasicIntParser_Parse_correct by done.
  rewrite bind_Ret. pose proof (read_digits_value base max pos Hb ltac:(lia) Hpos) as Hr.
  destruct (digits_value base pos) as [v|].
  - destruct Hr as [Hv ->]. split; [done|]. destruct (Z.leb_spec v max); [|done].
    destruct negative.
    + rewrite Hn in * by done. unfold to_i64, NegateSigned.
      destruct (Z.ltb_spec v (2 ^ 63)), (Z.eqb_spec v (2 ^ 63)); try lia; subst; [|done].
      destruct (Z.eqb_spec v (- 2 ^ 63)); [lia|done].
    + destruct signed; [|done]. by rewrite to_i64_small by (specialize (Hs eq_refl); lia).
  - destruct Hr as [e He]. rewrite He. exists e. split; [done|]. by eapply read_digits_status.
Qed.

(** The parser itself fails only on the overflow of the negation. *)
Lemma parse_unsigned_Fail signed negative base max pos f : 1 < base < 17 → 15 ≤ max < 2 ^ 64 →
  parse_unsigned signed negative base max pos = Fail f → f = Undef UOverflow.
Proof.
  intros Hb Hm. unfold parse_unsigned, NegateSigned.
  rewrite TBasicIntParser_Parse_correct by done. rewrite bind_Ret.
  destruct (read_digits _ _ _ _ _); [done|]. destruct signed, negative; try done.
  case_match; cbn; naive_solver.
Qed.

Lemma TIntParser_Parse_Fail t base cs f : word_width (width t) = true → 1 < base < 17 →
  TIntParser_Parse (is_signed t) base (bounds t) cs = Fail f → f = Undef UOverflow.
Proof.
  intros Ht Hb. destruct (bounds_range t Ht) as (Hp & Hs & _).
  destruct cs as [|c rest]; [done|]. cbn [TIntParser_Parse].
  destruct (c =? chr "+"); [|destruct (is_signed t && (c =? chr "-")) eqn:Hneg].
  - destruct rest; [done|]. apply parse_unsigned_Fail; lia.
  - apply andb_true_iff in Hneg as [Hsg _]. destruct (Hs Hsg).
    destruct rest; [done|]. apply parse_unsigned_Fail; lia.
  - apply parse_unsigned_Fail; lia.
Qed.

Lemma status_throw t base cs pos e : e.1 = PS_BAD_SYMBOL ∨ e.1 = PS_OVERFLOW →
  TIntParser_Parse (is_signed t) base (bounds t) cs = Ret (inl e) → pos = e.2 →
  is_throw (IntFromString t base cs).
Proof.
  intros He Hp _. unfold IntFromString. rewrite Hp. cbn.
  destruct e as [s p]; cbn in *. destruct He as [-> | ->]; by eexists.
Qed.

(** Parsing a text, against the integer the text denotes. *)
Lemma IntFromString_spec t base cs : word_width (width t) = true → 1 < base < 17 →
  match int_value (is_signed t) base cs with
  | Some v =>
      IntFromString t base cs =
        if in_type t v then if v =? - 2 ^ 63 then Fail (Undef UOverflow) else Ret v
        else Fail (Throw EFromStringOverflow)
  | None => is_throw (IntFromString t base cs)
  end.
Proof.
  intros Ht Hb. destruct (bounds_range t Ht) as (Hp & Hs & Hu).
  assert (∀ pos, pos ≠ [] → TIntParser_Parse (is_signed t) base (bounds t) cs =
      parse_unsigned (is_signed t) false base (PositiveMax (bounds t)) pos →
    match digits_value base pos with
    | Some v => IntFromString t base cs =
        if in_type t v then if v =? - 2 ^ 63 then Fail (Undef UOverflow) else Ret v
        else Fail (Throw EFromStringOverflow)
    | None => is_throw (IntFromString t base cs)
    end) as Hplus.
  { intros pos Hpos Heq.
    opose proof (parse_unsigned_spec (is_signed t) false base (PositiveMax (bounds t)) pos Hb Hpos
      _ _ _) as Hr; [lia|intros Hsg; destruct (Hs Hsg); lia|done|].
    destruct (digits_value base pos) as [v|].
    - destruct Hr as [Hv Hr]. unfold IntFromString, in_type. rewrite Heq, Hr.
      destruct (is_signed t); [destruct Hs as [? _]; [done|]|specialize (Hu eq_refl)];
        destruct (Z.leb_spec (- NegativeMax (bounds t)) v); try lia;
        destruct (Z.leb_spec v (PositiveMax (bounds t))); cbn; try done;
        destruct (Z.eqb_spec v (- 2 ^ 63)); lia || done.
    - destruct Hr as (e & Hr & He). eapply status_throw; [done|by rewrite Heq|done]. }
  destruct cs as [|c rest]; [by eexists|]. cbn [int_value TIntParser_Parse] in *.
  destruct (c =? chr "+") eqn:Hc; [|destruct (is_signed t && (c =? chr "-")) eqn:Hneg].
  - destruct rest as [|c' rest]; [|by apply Hplus].
    unfold IntFromString. cbn. rewrite Hc. by eexists.
  - pose proof Hneg as [Hsg Hm]%andb_true_iff. destruct rest as [|c' rest].
    { unfold IntFromString. cbn. rewrite Hc, Hsg, Hm. by eexists. }
    destruct (Hs Hsg) as [Hn Hn'].
    opose proof (parse_unsigned_spec (is_signed t) true base (NegativeMax (bounds t)) (c' :: rest) Hb
      _ _ _ _) as Hr; [done|lia|lia|done|].
    assert (TIntParser_Parse (is_signed t) base (bounds t) (c :: c' :: rest) =
      parse_unsigned (is_signed t) true base (NegativeMax (bounds t)) (c' :: rest)) as Heq
      by (cbn [TIntParser_Parse]; by rewrite Hc, Hneg).
    destruct (digits_value base (c' :: rest)) as [v|]; cbn [fmap option_fmap option_map].
    + destruct Hr as [Hv Hr]. unfold IntFromString, in_type. rewrite Heq, Hr.
      destruct (Z.leb_spec v (NegativeMax (bounds t))),
        (Z.leb_spec (- NegativeMax (bounds t)) (- v)),
        (Z.leb_spec (- v) (PositiveMax (bounds t))); try lia; cbn; try done.
      destruct (Z.eqb_spec v (2 ^ 63)), (Z.eqb_spec (- v) (- 2 ^ 63)); lia || done.
    + destruct Hr as (e & Hr & He). eapply status_throw; [done|by rewrite Heq|done].
  - by apply Hplus.
Qed.

(** ** Printing *)

(** The character of a digit. *)
Definition digit_char (d : Z) : Z := default 0 (IntToChar !! Z.to_nat d).

Definition digit_chars (ds : list Z) : TString := digit_char <$> ds.

Lemma vat_IntToChar d : 0 ≤ d < 16 → vat IntToChar d = Ret (digit_char d).
Proof.
  intros Hd. destruct (vat_in_range IntToChar d) as (x & -> & Hx); [exact Hd|].
  unfold digit_char. by rewrite Hx.
Qed.

Lemma CharToDigit_digit_char base d : 1 < base < 17 → 0 ≤ d < base →
  CharToDigit base (digit_char d) = Some d.
Proof.
  intros Hb Hd.
  assert (∀ b e, b ∈ seqZ 2 15 → e ∈ seqZ 0 16 → e < b → CharToDigit b (digit_char e) = Some e) as Hall.
  { assert (forallb (λ b, forallb (λ e, negb (e <? b) ||
      bool_decide (CharToDigit b (digit_char e) = Some e)) (seqZ 0 16)) (seqZ 2 15) = true) as Hc
      by (vm_compute; reflexivity).
    intros b e Hbm Hem Hlt. rewrite forallb_forall in Hc. specialize (Hc b (proj1 (list_elem_of_In _ _) Hbm)).
    rewrite forallb_forall in Hc. specialize (Hc e (proj1 (list_elem_of_In _ _) Hem)).
    apply orb_true_iff in Hc as [Hc|Hc]; [|by apply bool_decide_eq_true in Hc].
    apply negb_true_iff, Z.ltb_ge in Hc. lia. }
  apply Hall; [apply elem_of_seqZ; lia..|lia].
Qed.

(** The characters of numbers are printable: no delimiter is among them. *)
Lemma digit_char_range d : 0 ≤ d < 16 → 48 ≤ digit_char d < 128.
Proof.
  intros Hd. assert (Forall (λ c, 48 ≤ c < 128) IntToChar) as Hall by (by apply (bool_decide_unpack _)).
  unfold digit_char. destruct (lookup_lt_is_Some_2 IntToChar (Z.to_nat d)) as [c Hc]; [cbn; lia|].
  rewrite Hc. by eapply Forall_lookup_1 in Hall.
Qed.

Lemma digits_digit_chars base ds : 1 < base < 17 → Forall (λ d, 0 ≤ d < base) ds →
  digits base (digit_chars ds) = Some ds.
Proof.
  intros Hb Hds. apply mapM_Some. induction Hds; constructor; [|done].
  by apply CharToDigit_digit_char.
Qed.

(** The digit the first loop of the formatter takes. *)
Lemma format_digit base v : 1 < base < 17 → 0 ≤ v < 2 ^ 64 →
  (if bool_decide (base ∈ [2; 4; 8; 16]) then Z.land v (base - 1)
   else u64 (v - base * u64 (v `div` base))) = v `mod` base.
Proof.
  intros Hb Hv. assert (0 ≤ v `div` base ≤ v) as Hd.
  { split; [apply Z.div_pos; lia|]. apply Z.div_le_upper_bound; nia. }
  case_bool_decide as Hp.
  - assert (∃ n, 0 ≤ n ∧ base = 2 ^ n) as (n & Hn & ->).
    { repeat (apply elem_of_cons in Hp as [->|Hp];
        [first [by exists 1|by exists 2|by exists 3|by exists 4]|]). by apply not_elem_of_nil in Hp. }
    rewrite Z.sub_1_r, <- Z.ones_equiv. by apply Z.land_ones.
  - rewrite (u64_small (v `div` base)) by lia.
    rewrite (Z.div_mod v base) at 1 by lia. pose proof (Z.mod_pos_bound v base ltac:(lia)).
    rewrite u64_small; lia.
Qed.

(** What the first loop writes: the digits from the least significant one on, no
    superfluous zero among them, until the value or the buffer is used up. *)
Lemma format_loop_spec base len v : 1 < base < 17 → (0 < len)%nat → 0 ≤ v < 2 ^ 64 →
  ∃ ds rest, format_loop base len v = Ret (digit_chars ds, rest) ∧
    Forall (λ d, 0 ≤ d < base) ds ∧ ds ≠ [] ∧ (length ds ≤ len)%nat ∧ 0 ≤ rest ∧
    v = horner base rest (reverse ds) ∧ (rest = 0 ∨ length ds = len).
Proof.
  intros Hb Hlen. revert v. induction len as [|len IH]; intros v Hv; [lia|]. cbn [format_loop].
  rewrite format_digit by done. pose proof (Z.mod_pos_bound v base ltac:(lia)) as Hm.
  rewrite vat_IntToChar, bind_Ret by lia.
  assert (0 ≤ v `div` base ≤ v) as Hd.
  { split; [apply Z.div_pos; lia|]. apply Z.div_le_upper_bound; nia. }
  rewrite u64_small by lia. pose proof (Z.div_mod v base ltac:(lia)) as Hdm.
  destruct (Z.eqb_spec (v `div` base) 0) as [Hz|Hz]; [|destruct (Nat.eqb_spec len 0) as [->|Hl]]; cbn.
  1,2: exists [v `mod` base], (v `div` base);
    (split_and!; [done|by apply Forall_singleton|done|cbn; lia|lia|cbn; lia|cbn; auto]).
  destruct (IH ltac:(lia) (v `div` base) ltac:(lia)) as (ds & rest & -> & Hds & Hne & Hle & H0 & Hv' & Hr).
  cbn. exists (v `mod` base :: ds), rest. split_and!; try done.
  - by constructor.
  - cbn. lia.
  - rewrite reverse_cons, horner_snoc, <- Hv'. lia.
  - cbn. destruct Hr; [by left|right; lia].
Qed.

(** The second loop reverses the buffer. *)
Lemma swap_loop_middle fuel pre mid post : (length mid ≤ fuel)%nat →
  swap_loop fuel (pre ++ mid ++ post) (vsize pre) (vsize pre + vsize mid - 1) =
    Ret (pre ++ reverse mid ++ post).
Proof.
  revert pre mid post. induction fuel as [|fuel IH]; intros pre mid post Hf; cbn [swap_loop].
  { destruct mid; [done|]. cbn in Hf. lia. }
  destruct mid as [|x mid]; [|destruct mid as [|y mid _] using rev_ind].
  - rewrite vsize_nil. by destruct (Z.ltb_spec (vsize pre) (vsize pre + 0 - 1)); [lia|].
  - rewrite vsize_cons, vsize_nil. by destruct (Z.ltb_spec (vsize pre) (vsize pre + (1 + 0) - 1)); [lia|].
  - rewrite vsize_cons, vsize_snoc. pose proof (vsize_nonneg mid). pose proof (vsize_nonneg pre).
    destruct (Z.ltb_spec (vsize pre) (vsize pre + (1 + (vsize mid + 1)) - 1)); [|lia].
    set (buf := pre ++ x :: (mid ++ [y]) ++ post). change (pre ++ (x :: mid ++ [y]) ++ post) with buf.
    set (j := vsize pre + (1 + (vsize mid + 1)) - 1).
    assert (Z.to_nat (vsize pre) = length pre) as Hi by (unfold vsize; lia).
    assert (Z.to_nat j = length (pre ++ x :: mid)) as Hj
      by (unfold j, vsize; rewrite length_app; cbn; lia).
    assert (buf = (pre ++ x :: mid) ++ y :: post) as Hbuf
      by (unfold buf; by rewrite <- !app_assoc).
    assert (vat buf (vsize pre) = Ret x) as ->.
    { apply vat_Ret. split; [lia|]. rewrite Hi. unfold buf. by rewrite list_lookup_middle. }
    assert (vat buf j = Ret y) as ->.
    { apply vat_Ret. split; [lia|]. rewrite Hj, Hbuf. by rewrite list_lookup_middle. }
    assert (vset buf (vsize pre) y = Ret ((pre ++ y :: mid) ++ y :: post)) as Hs1.
    { apply vset_Ret. split; [unfold buf; rewrite vsize_app, vsize_cons, vsize_app, vsize_snoc; pose proof (vsize_nonneg post); lia|].
      rewrite Hi. unfold buf. rewrite insert_app_r_alt, Nat.sub_diag by done. cbn.
      by rewrite <- !app_assoc. }
    assert (vset ((pre ++ y :: mid) ++ y :: post) j x = Ret (pre ++ y :: mid ++ x :: post)) as Hs2.
    { apply vset_Ret. split; [unfold j; rewrite !vsize_app, !vsize_cons; pose proof (vsize_nonneg post); lia|].
      rewrite Hj. rewrite insert_app_r_alt by (rewrite !length_app; cbn; lia).
      rewrite !length_app. cbn [length]. rewrite Nat.sub_diag. cbn. by rewrite <- app_assoc. }
    cbn [mbind outcome_bind]. rewrite Hs1. cbn [mbind outcome_bind]. rewrite Hs2. cbn [mbind outcome_bind].
    specialize (IH (pre ++ [y]) mid (x :: post)). rewrite vsize_snoc, <- app_assoc in IH. cbn in IH.
    replace (j - 1) with (vsize pre + 1 + vsize mid - 1) by lia.
    rewrite IH by (cbn in Hf; rewrite length_app in Hf; cbn in Hf; lia).
    f_equal. by rewrite <- app_assoc, reverse_cons, reverse_snoc, <- app_assoc.
Qed.

Lemma swap_loop_correct buf : swap_loop (length buf) buf 0 (vsize buf - 1) = Ret (reverse buf).
Proof.
  pose proof (swap_loop_middle (length buf) [] buf [] ltac:(lia)) as H.
  rewrite !app_nil_r in H. exact H.
Qed.

(** What the unsigned formatter writes. *)
Lemma TBasicIntFormatter_Format_spec base v len : 1 < base < 17 → 0 ≤ v < 2 ^ 64 → 0 < len →
  (v < base ^ len →
   ∃ ds, TBasicIntFormatter_Format base v len = Ret (digit_chars ds) ∧ ds ≠ [] ∧
     Forall (λ d, 0 ≤ d < base) ds ∧ v = horner base 0 ds ∧ vsize ds ≤ len) ∧
  (base ^ len ≤ v → TBasicIntFormatter_Format base v len = Fail (Throw ENoRoom)).
Proof.
  intros Hb Hv Hlen. unfold TBasicIntFormatter_Format.
  rewrite (proj2 (ensure_Ret _ _)) by (by apply Z.ltb_lt). rewrite bind_Ret.
  destruct (format_loop_spec base (Z.to_nat len) v Hb ltac:(lia) Hv)
    as (ds & rest & -> & Hds & Hne & Hle & Hrest & Heq & Hr). rewrite bind_Ret. cbn [fst snd].
  assert (Forall (λ d, 0 ≤ d < base) (reverse ds)) as Hrev by (by apply Forall_reverse).
  pose proof (horner_bounds base Hb rest _ Hrest Hrev) as Hh. rewrite <- Heq in Hh.
  assert (vsize (reverse ds) ≤ len) as Hsz by (unfold vsize; rewrite length_reverse; lia).
  assert (base ^ len = base ^ (len - vsize (reverse ds)) * base ^ vsize (reverse ds)) as Hpow.
  { rewrite <- Z.pow_add_r by (pose proof (vsize_nonneg (reverse ds)); lia). f_equal. lia. }
  split; intros Hlim.
  - assert (rest = 0) as ->.
    { destruct Hr as [|Hr]; [done|]. destruct (Z.eq_dec rest 0); [done|exfalso].
      assert (vsize (reverse ds) = len) as Hl by (unfold vsize; rewrite length_reverse; lia).
      pose proof (horner_pow base Hb rest _ ltac:(lia) Hrev) as Hp. rewrite <- Heq, Hl in Hp. lia. }
    change (ensure (0 =? 0) ENoRoom) with (@Ret () tt). rewrite bind_Ret. exists (reverse ds).
    rewrite swap_loop_correct. unfold digit_chars. rewrite fmap_reverse.
    split_and!; try done. intros Hn. apply Hne. by rewrite <- (reverse_involutive ds), Hn.
  - destruct (Z.eqb_spec rest 0) as [->|]; [exfalso|done].
    assert (base ^ vsize (reverse ds) ≤ base ^ len) by (apply Z.pow_le_mono_r; lia). lia.
Qed.

(** ** Printing and parsing *)

Lemma digits_value_digit_chars base ds : 1 < base < 17 → ds ≠ [] → Forall (λ d, 0 ≤ d < base) ds →
  digits_value base (digit_chars ds) = Some (horner base 0 ds).
Proof.
  intros Hb Hne Hds. unfold digits_value. rewrite decide_False by (by destruct ds).
  by rewrite digits_digit_chars.
Qed.

Lemma int_value_digit_chars signed base ds : 1 < base < 17 → ds ≠ [] → Forall (λ d, 0 ≤ d < base) ds →
  int_value signed base (digit_chars ds) = Some (horner base 0 ds).
Proof.
  intros Hb Hne Hds. rewrite <- digits_value_digit_chars by done.
  destruct ds as [|d ds]; [done|]. cbn. apply Forall_cons_1 in Hds as [Hd _].
  pose proof (digit_char_range d ltac:(lia)).
  assert (chr "+" = 43) as -> by done. assert (chr "-" = 45) as -> by done.
  destruct (Z.eqb_spec (digit_char d) 43), (Z.eqb_spec (digit_char d) 45); try lia.
  by rewrite andb_false_r.
Qed.

(** The text of a value that fits the buffer denotes the value, and consists of
    digits after an optional minus sign. *)
Lemma FormatInt_spec t base v len : 1 < base < 17 → word_width (width t) = true →
  in_type t v = true → v ≠ - 2 ^ 63 → 0 < len → Z.abs v < base ^ (len - 1) →
  ∃ cs, FormatInt (is_signed t) base v len = Ret cs ∧ int_value (is_signed t) base cs = Some v ∧
    Forall (λ c, c = chr "-" ∨ 48 ≤ c < 128) cs ∧ cs ≠ [].
Proof.
  intros Hb Ht Hin Hv Hlen Habs. destruct (bounds_range t Ht) as (Hp & Hs & Hu).
  unfold in_type in Hin. apply andb_true_iff in Hin as [H1%Z.leb_le H2%Z.leb_le].
  assert (∀ ds, Forall (λ d, 0 ≤ d < base) ds →
    Forall (λ c, c = chr "-" ∨ 48 ≤ c < 128) (digit_chars ds)) as Hchars.
  { intros ds Hds. apply Forall_fmap. eapply Forall_impl; [exact Hds|]. intros d Hd. cbn in Hd. right.
    apply digit_char_range. lia. }
  assert (1 < len ∨ v = 0) as Hlen1.
  { destruct (Z.eq_dec len 1) as [->|]; [right|left; lia]. change (base ^ (1 - 1)) with 1 in Habs. lia. }
  unfold FormatInt. destruct (is_signed t && (v <? 0)) eqn:Hneg.
  - apply andb_true_iff in Hneg as [Hsg Hlt%Z.ltb_lt]. destruct (Hs Hsg) as [Hn _].
    rewrite (proj2 (ensure_Ret _ _)) by (apply Z.leb_le; lia). rewrite bind_Ret.
    unfold NegateSigned. rewrite (proj2 (Z.eqb_neq _ _)) by done. rewrite bind_Ret, u64_small by lia.
    destruct (TBasicIntFormatter_Format_spec base (- v) (len - 1) Hb ltac:(lia) ltac:(lia)) as [Hf _].
    destruct Hf as (ds & -> & Hne & Hds & Hval & _); [lia|]. rewrite bind_Ret.
    eexists. split_and!; [done| |constructor; [by left|by apply Hchars]|done].
    cbn. rewrite Hsg. cbn. rewrite digits_value_digit_chars by done. cbn. f_equal. lia.
  - assert (0 ≤ v) as Hv0.
    { apply andb_false_iff in Hneg as [Hsg|Hge%Z.ltb_ge]; [|lia]. specialize (Hu Hsg). lia. }
    rewrite u64_small by lia.
    destruct (TBasicIntFormatter_Format_spec base v len Hb ltac:(lia) Hlen) as [Hf _].
    destruct Hf as (ds & -> & Hne & Hds & Hval & _).
    { apply Z.lt_le_trans with (base ^ (len - 1)); [lia|]. apply Z.pow_le_mono_r; lia. }
    eexists. split_and!; [done| |by apply Hchars|by destruct ds].
    by rewrite int_value_digit_chars, <- Hval.
Qed.

(** C24: parsing an integer agrees with reading its text in unbounded integers: an
    optional sign and at least one digit of the base, in the range of the type.
    Every other text makes [FromString] throw and [TryFromString] return false; only
    the text of [-2^63] at a signed 64-bit type is undefined behaviour. *)
Theorem IntFromString_correct t base cs :
  word_width (width t) = true → 1 < base < 17 →
  (∀ v, IntFromString t base cs = Ret v ↔
     int_value (is_signed t) base cs = Some v ∧ in_type t v = true ∧ v ≠ - 2 ^ 63) ∧
  (∀ v, TryIntFromString t base cs = Ret (Some v) ↔ IntFromString t base cs = Ret v) ∧
  (TryIntFromString t base cs = Ret None ↔ is_throw (IntFromString t base cs)) ∧
  (∀ f, IntFromString t base cs = Fail f →
     is_throw (IntFromString t base cs) ∨
     f = Undef UOverflow ∧ int_value (is_signed t) base cs = Some (- 2 ^ 63) ∧ in_type t (- 2 ^ 63) = true).
Proof.
  intros Ht Hb. pose proof (IntFromString_spec t base cs Ht Hb) as Hspec.
  assert (match TIntParser_Parse (is_signed t) base (bounds t) cs with
          | Ret (inl e) => is_throw (IntFromString t base cs)
          | Ret (inr v) => IntFromString t base cs = Ret v
          | Fail f => IntFromString t base cs = Fail f
          end) as Hparse.
  { unfold IntFromString, is_throw, ThrowParseError.
    destruct (TIntParser_Parse _ _ _ _) as [[[[] pos]|v]|f]; cbn; eauto. }
  unfold TryIntFromString. split_and!.
  - intros v. destruct (int_value (is_signed t) base cs) as [w|].
    + rewrite Hspec. destruct (in_type t w) eqn:Hw; [destruct (Z.eqb_spec w (- 2 ^ 63))|];
        (split; [congruence || intros [= <-]; done|intros ([= <-] & ? & ?); congruence]).
    + destruct Hspec as [e He]. rewrite He. naive_solver.
  - intros v. destruct (TIntParser_Parse _ _ _ _) as [[e|w]|f]; cbn.
    + destruct Hparse as [e' ->]. naive_solver.
    + rewrite Hparse. naive_solver.
    + rewrite Hparse. naive_solver.
  - destruct (TIntParser_Parse _ _ _ _) as [[e|w]|f] eqn:Hp; cbn.
    + done.
    + rewrite Hparse. unfold is_throw. naive_solver.
    + apply TIntParser_Parse_Fail in Hp as ->; [|done..]. rewrite Hparse. unfold is_throw. naive_solver.
  - intros f Hf. destruct (int_value (is_signed t) base cs) as [w|]; [|by left].
    rewrite Hf in Hspec. destruct (in_type t w) eqn:Hw; [|injection Hspec as ->; left; rewrite Hf; by eexists].
    destruct (Z.eqb_spec w (- 2 ^ 63)) as [->|]; [|done]. injection Hspec as ->. by right.
Qed.

Lemma IntFromString_correct_witness :
  word_width (width t_int) = true ∧ 1 < 10 < 17 ∧
  IntFromString t_int 10 (STRINGBUF "-17") = Ret (- 17).
Proof.
  split_and!; [done|lia|lia|].
  apply (proj1 (IntFromString_correct t_int 10 (STRINGBUF "-17") eq_refl ltac:(lia))).
  split_and!; [reflexivity|reflexivity|lia].
Defined.

(** C33: printing and parsing an integer of any type and base is a round trip: with
    a buffer that holds the digits and a sign the text of a value parses to the
    value.  The one value without a text is [-2^63], whose negation overflows. *)
Theorem FormatInt_roundtrip t base v len :
  word_width (width t) = true → 1 < base < 17 → in_type t v = true → 0 < len →
  Z.abs v < base ^ (len - 1) →
  if v =? - 2 ^ 63
  then FormatInt (is_signed t) base v len = Fail (Undef UOverflow)
  else ∃ cs, FormatInt (is_signed t) base v len = Ret cs ∧ IntFromString t base cs = Ret v.
Proof.
  intros Ht Hb Hin Hlen Habs. destruct (Z.eqb_spec v (- 2 ^ 63)) as [->|Hv].
  - destruct (bounds_range t Ht) as (_ & _ & Hu). unfold in_type in Hin. unfold FormatInt.
    destruct (is_signed t); [|rewrite Hu in Hin by done; done].
    cbn -[Z.pow]. assert (1 < len) as Hl.
    { destruct (Z.eq_dec len 1) as [->|]; [|lia]. change (base ^ (1 - 1)) with 1 in Habs. lia. }
    rewrite (proj2 (ensure_Ret _ _)) by (apply Z.leb_le; lia). reflexivity.
  - destruct (FormatInt_spec t base v len Hb Ht Hin Hv Hlen Habs) as (cs & Hf & Hval & _).
    exists cs. split; [done|]. pose proof (IntFromString_spec t base cs Ht Hb) as Hs.
    rewrite Hval, Hin in Hs. by rewrite (proj2 (Z.eqb_neq _ _)) in Hs.
Qed.

Lemma FormatInt_roundtrip_witness :
  in_type t_int (- 254) = true ∧
  ∃ cs, FormatInt true 16 (- 254) 4 = Ret cs ∧ IntFromString t_int 16 cs = Ret (- 254).
Proof.
  split; [reflexivity|].
  apply (FormatInt_roundtrip t_int 16 (- 254) 4); [reflexivity|lia|reflexivity|lia|reflexivity].
Defined.

(** The text [operator<<] writes for an [int] or an [ui64], and what it parses to. *)
Lemma int_text_ui64 v : 0 ≤ v < 2 ^ 64 →
  ∃ cs, int_text t_ui64 v = Ret cs ∧ IntFromString t_ui64 10 cs = Ret v ∧
    Forall (λ c, c = chr "-" ∨ 48 ≤ c < 128) cs ∧ cs ≠ [].
Proof.
  intros Hv. unfold int_text. assert (in_type t_ui64 v = true) as Hin.
  { unfold in_type. cbn. apply andb_true_iff. split; apply Z.leb_le; lia. }
  destruct (FormatInt_spec t_ui64 10 v 64 ltac:(lia) eq_refl Hin ltac:(lia) ltac:(lia)) as (cs & Hf & Hval & Hc & Hne).
  { assert (2 ^ 64 < 10 ^ (64 - 1)) by done. lia. }
  exists cs. split_and!; [exact Hf| |done|done].
  pose proof (IntFromString_spec t_ui64 10 cs eq_refl ltac:(lia)) as Hs.
  rewrite Hval, Hin in Hs. by rewrite (proj2 (Z.eqb_neq _ _)) in Hs by lia.
Qed.

(** The same characters stand for a value that is both an [int] and an [ui64]. *)
Lemma int_text_nonneg v : 0 ≤ v < 2 ^ 31 → int_text t_int v = int_text t_ui64 v.
Proof. intros Hv. unfold int_text, FormatInt. cbn. by destruct (Z.ltb_spec v 0); [lia|]. Qed.

(** ** Floating point numbers *)

(** The first position of a character. *)
Fixpoint find_char (c : Z) (cs : TString) : option nat :=
  match cs with
  | [] => None
  | x :: cs => if x =? c then Some O else S <$> find_char c cs
  end.

(** [while (point < c && *c == '0') --c] *)
Fixpoint skip_zeros (buf : TString) (point c : nat) : nat :=
  match c with
  | O => O
  | S c' => if (point <? c)%nat && (default 0 (buf !! c) =? chr "0") then skip_zeros buf point c' else c
  end.

(** [FixZeros]: the zeros at the end of the fraction are dropped, and its point when
    no digit is left. *)
Definition FixZeros (buf : TString) : TString :=
  match find_char (chr ".") buf with
  | None => buf
  | Some point =>
      let exp := match find_char (chr "e") (drop point buf) with
                 | Some k => (point + k)%nat | None => length buf end in
      let c := skip_zeros buf point (exp - 1) in
      let kept := if default 0 (buf !! c) =? chr "." then c else S c in
      take kept buf ++ drop exp buf
  end.

(** [FixEnd]: an exponent has at least two digits. *)
Definition FixEnd (buf : TString) : TString :=
  let len := length buf in
  if (2 <? len)%nat then
    let sign := default 0 (buf !! (len - 2)%nat) in
    if (sign =? chr "-") || (sign =? chr "+")
    then take (len - 1) buf ++ chr "0" :: drop (len - 1) buf
    else buf
  else buf.

Inductive EFloatToStringMode : Type :=
| PREC_AUTO | PREC_NDIGITS | PREC_POINT_DIGITS | PREC_POINT_DIGITS_STRIP_ZEROES.

(** The double-conversion library, as the file uses it: [StringToDouble] of the
    converter [StrToD] builds gives the number and how many characters it took; the
    conversions of [ToStringConverterNoPad] give [None] when they fail. *)
Class DoubleConversion (D : Type) := {
  StringToDouble : TString → D * Z;
  ToPrecision : D → Z → option TString;
  ToFixed : D → Z → option TString;
  ToShortest : D → option TString;
  kMinPrecisionDigits : Z;
  kMaxPrecisionDigits : Z;
}.

Section Float.
  Context {D : Type} `{!DoubleConversion D}.

(** [StrToD(b, e, &se)]: the number and [se - b]. *)
Definition StrToD (cs : TString) : D * Z := StringToDouble cs.

(** [TryFromStringImpl<double>] *)
Definition TryFromString_double (cs : TString) : option D :=
  if vsize cs =? 0 then None
  else let r := StrToD cs in if r.2 =? vsize cs then Some r.1 else None.

(** [ClampVal] *)
Definition ClampVal (val min max : Z) : Z :=
  if val <? min then min else if max <? val then max else val.

(** [DoDtoa] *)
Definition DoDtoa (d : D) (prec : Z) : outcome TString :=
  match ToPrecision d prec with
  | Some buf => Ret (FixEnd (FixZeros buf))
  | None => Fail (Abort VConversion)
  end.

(** [FloatToString(double, ...)] in the mode [PREC_AUTO]. *)
Definition FloatToString_auto (t : D) : outcome TString :=
  match ToShortest t with
  | Some buf => Ret (FixEnd buf)
  | None => Fail (Abort VConversion)
  end.

(** [FloatToString(double, buf, len, mode, ndigits)] *)
Definition FloatToString (t : D) (mode : EFloatToStringMode) (ndigits : Z) : outcome TString :=
  match mode with
  | PREC_NDIGITS => DoDtoa t (ClampVal ndigits kMinPrecisionDigits kMaxPrecisionDigits)
  | PREC_AUTO => FloatToString_auto t
  | PREC_POINT_DIGITS | PREC_POINT_DIGITS_STRIP_ZEROES =>
      match ToFixed t ndigits with
      | None => FloatToString_auto t
      | Some buf =>
          Ret (match mode with PREC_POINT_DIGITS_STRIP_ZEROES => FixZeros buf | _ => buf end)
      end
  end.

End Float.

Example FixZeros_fraction : FixZeros (STRINGBUF "12.3400e+5") = STRINGBUF "12.34e+5".
Proof. reflexivity. Qed.
Example FixZeros_point : FixZeros (STRINGBUF "12.000") = STRINGBUF "12".
Proof. reflexivity. Qed.
Example FixEnd_exponent : FixEnd (STRINGBUF "1e+5") = STRINGBUF "1e+05".
Proof. reflexivity. Qed.
