(* ===== verification/Getopt.v ===== *)
(** * The command line parser: [library/getopt/small/last_getopt_*]

    [TOpts] holds the options of a program, [TOptsParser] walks over [argv] and calls
    the handlers of the options it finds, permuting [argv] so that the free arguments
    come last, and [TOptsParseResult] runs the parser and turns every exception into
    the exit code 1.  The state the handlers change is a parameter; a handler may also
    end the process with an exit code.  Positions are natural numbers: they only ever
    advance, within [argv]. *)
From Stdlib Require Import Ascii String.
From stdpp Require Import gmap.
From S2P Require Import Prelude Cast.

Open Scope Z_scope.

(** ** [TStringBuf::NextTok] *)

(** [TStringBuf]: none for the null buffer. *)
Abbreviation TStringBuf := (option TString).

(** [SplitTemplate] and [NextTok(delim)]: the token and the rest. *)
Definition NextTok (s : TStringBuf) (delim : Z) : TStringBuf * TStringBuf :=
  match s with
  | None => (None, None)
  | Some s =>
      match find_char delim s with
      | Some pos => (Some (take pos s), Some (drop (pos + 1) s))
      | None => (Some s, None)
      end
  end.

(** ** Options *)

Inductive EHasArg : Type := NO_ARGUMENT | REQUIRED_ARGUMENT | OPTIONAL_ARGUMENT.
Inductive EArgPermutation : Type := REQUIRE_ORDER | PERMUTE | RETURN_IN_ORDER.

#[export] Instance EHasArg_eq_dec : EqDecision EHasArg.
Proof. solve_decision. Defined.
#[export] Instance EArgPermutation_eq_dec : EqDecision EArgPermutation.
Proof. solve_decision. Defined.

Section Getopt.
(** The state the handlers change. *)
Context {S : Type}.

(** [IOptHandler::HandleOpt(parser)]: the handler asks the parser for
    [CurValOrDef(useDef)]; it gives a new state, or the code it exits with. *)
Definition IOptHandler : Type := (bool → TStringBuf) → S → outcome (S + Z).

Record TOpt : Type := {
  Chars_ : list Z;
  LongNames_ : list TString;
  HasArg_ : EHasArg;
  Required_ : bool;
  OptionalValue_ : option TString;
  DefaultValue_ : option TString;
  Handlers_ : list IOptHandler;
}.

Record TOpts : Type := {
  Opts_ : list TOpt;
  ArgPermutation_ : EArgPermutation;
  AllowSingleDashForLong_ : bool;
  AllowPlusForLong_ : bool;
  FreeArgsMin_ : Z;
  FreeArgsMax_ : Z;
}.

(** A pointer to an option: its position in [Opts_] and the option. *)
Abbreviation opt_ptr := (nat * TOpt)%type.

(** *** [TOpt] *)

(** [isprint] in the C locale *)
Definition isprint (c : Z) : bool := (32 <=? c) && (c <=? 126).

(** [IsAllowedShortName(c)] and [IsAllowedLongName(name)], of [unsigned char]s. *)
Definition IsAllowedShortName (c : Z) : bool :=
  isprint c && negb (bool_decide (c ∈ STRINGBUF "= -" ++ [9; 10])).
Definition IsAllowedLongName (name : TString) : bool :=
  forallb (λ c, let c := c mod 256 in isprint c && negb (bool_decide (c ∈ STRINGBUF "= " ++ [9; 10]))) name.

(** [AddShortName(c)] and [AddLongName(name)] *)
Definition AddShortName (c : Z) (o : TOpt) : outcome TOpt :=
  _ ← ensure (IsAllowedShortName (c mod 256)) (EUsage UsageBadName);
  Ret (Build_TOpt (Chars_ o ++ [c]) (LongNames_ o) (HasArg_ o) (Required_ o) (OptionalValue_ o) (DefaultValue_ o) (Handlers_ o)).
Definition AddLongName (name : TString) (o : TOpt) : outcome TOpt :=
  _ ← ensure (IsAllowedLongName name) (EUsage UsageBadName);
  Ret (Build_TOpt (Chars_ o) (LongNames_ o ++ [name]) (HasArg_ o) (Required_ o) (OptionalValue_ o) (DefaultValue_ o) (Handlers_ o)).

(** [CharIs(c)] and [NameIs(name)] *)
Definition CharIs (o : TOpt) (c : Z) : bool := existsb (Z.eqb c) (Chars_ o).
Definition NameIs (o : TOpt) (name : TString) : bool := existsb (λ n, bool_decide (n = name)) (LongNames_ o).

(** A new [TOpt], and the setters that return the option. *)
Definition new_TOpt : TOpt := Build_TOpt [] [] REQUIRED_ARGUMENT false None None [].
Definition HasArg (a : EHasArg) (o : TOpt) : TOpt :=
  Build_TOpt (Chars_ o) (LongNames_ o) a (Required_ o) (OptionalValue_ o) (DefaultValue_ o) (Handlers_ o).
Definition RequiredArgument (o : TOpt) : TOpt := HasArg REQUIRED_ARGUMENT o.
Definition DefaultValue (val : TString) (o : TOpt) : TOpt :=
  Build_TOpt (Chars_ o) (LongNames_ o) (HasArg_ o) (Required_ o) (OptionalValue_ o) (Some val) (Handlers_ o).
Definition HandlerImpl (h : IOptHandler) (o : TOpt) : TOpt :=
  Build_TOpt (Chars_ o) (LongNames_ o) (HasArg_ o) (Required_ o) (OptionalValue_ o) (DefaultValue_ o) (Handlers_ o ++ [h]).

Definition HasOptionalValue (o : TOpt) : bool :=
  bool_decide (HasArg_ o = OPTIONAL_ARGUMENT) && bool_decide (is_Some (OptionalValue_ o)).
Definition HasDefaultValue (o : TOpt) : bool := bool_decide (is_Some (DefaultValue_ o)).

(** *** Handlers *)

(** [OptFromString]: a conversion that throws is a usage error. *)
Definition OptFromString {T} (from_string : TString → outcome T) (value : TString) : outcome T :=
  match from_string value with
  | Fail (Throw _) => Fail (Throw (EUsage UsageValue))
  | r => r
  end.

(** [THandlerFunctor1<TpFunc, TpArg>::HandleOpt]; [def] and [has_def] are [Def_] and
    [HasDef_]. *)
Definition HandleOpt {T} (from_string : TString → outcome T) (def : T) (has_def : bool)
    (func : S → T → outcome S) : IOptHandler := λ cur_val_or_def s,
  arg ← match cur_val_or_def (negb has_def) with
        | Some curval => OptFromString from_string curval
        | None => Ret def
        end;
  match func s arg with
  | Fail (Throw _) => Fail (Throw (EUsage UsageHandler))
  | Fail f => Fail f
  | Ret s => Ret (inl s)
  end.

(** A handler that prints something and calls [exit(code)]. *)
Definition exit_handler (code : Z) : IOptHandler := λ _ _, Ret (inr code).

(** *** [TOpts] *)

Definition FindCharOption (o : TOpts) (c : Z) : option opt_ptr := list_find (λ opt, c ∈ Chars_ opt) (Opts_ o).
Definition FindLongOption (o : TOpts) (name : TString) : option opt_ptr :=
  list_find (λ opt, name ∈ LongNames_ opt) (Opts_ o).
Definition HasAnyShortOption (o : TOpts) : bool :=
  existsb (λ opt, negb (bool_decide (Chars_ opt = []))) (Opts_ o).

Definition with_opts (o : TOpts) (opts : list TOpt) : TOpts :=
  Build_TOpts opts (ArgPermutation_ o) (AllowSingleDashForLong_ o) (AllowPlusForLong_ o) (FreeArgsMin_ o) (FreeArgsMax_ o).

(** [AddOption(option)], and the calls made on the reference it returns. *)
Definition AddOption (o : TOpts) (option : TOpt) (calls : TOpt → TOpt) : outcome TOpts :=
  _ ← ensure (negb (bool_decide (Chars_ option = []) && bool_decide (LongNames_ option = []))) EConf;
  Ret (with_opts o (Opts_ o ++ [calls option])).

(** [AddCharOption(c, hasArg, help)] and [AddLongOption(c, name, help)]; the character 0
    stands for none. *)
Definition AddCharOption (o : TOpts) (c : Z) (has_arg : EHasArg) (calls : TOpt → TOpt) : outcome TOpts :=
  option ← AddShortName c new_TOpt;
  AddOption o (HasArg has_arg option) calls.
Definition AddLongOption (o : TOpts) (c : Z) (name : TString) (calls : TOpt → TOpt) : outcome TOpts :=
  option ← (if c =? 0 then Ret new_TOpt else AddShortName c new_TOpt);
  option ← AddLongName name option;
  AddOption o option calls.

(** A short name added to the option of a name. *)
Definition add_short (o : TOpts) (i : nat) (opt : TOpt) (c : Z) : outcome TOpts :=
  if CharIs opt c then Ret o
  else opt ← AddShortName c opt; Ret (with_opts o (<[i := opt]> (Opts_ o))).

(** [AddHelpOption(c)] and [AddVersionOption(c)]; [code] is the exit code of
    [PrintVersionAndExit]. *)
Definition AddHelpOption (o : TOpts) (c : Z) : outcome TOpts :=
  match FindLongOption o (STRINGBUF "help") with
  | Some (i, opt) => add_short o i opt c
  | None => AddLongOption o c (STRINGBUF "help") (λ opt, HandlerImpl (exit_handler 0) (HasArg NO_ARGUMENT opt))
  end.
Definition AddVersionOption (code : Z) (o : TOpts) (c : Z) : outcome TOpts :=
  match FindLongOption o (STRINGBUF "svnrevision") with
  | Some (i, opt) => add_short o i opt c
  | None => AddLongOption o c (STRINGBUF "svnrevision") (λ opt, HandlerImpl (exit_handler code) (HasArg NO_ARGUMENT opt))
  end.

(** [TOpts(optstring)] and [TOpts::Default(optstring)], of an empty string. *)
Definition new_TOpts (code : Z) : outcome TOpts :=
  AddVersionOption code (Build_TOpts [] PERMUTE false false 0 (2 ^ 32 - 1)) 0.
Definition TOpts_Default (code : Z) : outcome TOpts :=
  opts ← new_TOpts code;
  opts ← AddHelpOption opts (chr "?");
  AddVersionOption code opts (chr "V").

Definition SetFreeArgsMax (o : TOpts) (max : Z) : TOpts :=
  Build_TOpts (Opts_ o) (ArgPermutation_ o) (AllowSingleDashForLong_ o) (AllowPlusForLong_ o) (FreeArgsMin_ o) (u32 max).

(** [Validate()]: no name belongs to an option and to a later one. *)
Fixpoint validate_names (opts : list TOpt) : bool :=
  match opts with
  | [] => true
  | opt :: opts =>
      forallb (λ c, forallb (λ next, negb (CharIs next c)) opts) (Chars_ opt) &&
      forallb (λ name, forallb (λ next, negb (NameIs next name)) opts) (LongNames_ opt) &&
      validate_names opts
  end.
Definition Validate (o : TOpts) : outcome () :=
  _ ← ensure (validate_names (Opts_ o)) EConf;
  ensure (FreeArgsMin_ o <=? FreeArgsMax_ o) EConf.

(** ** The parser *)

Inductive EIsOpt : Type := EIO_NONE | EIO_SDASH | EIO_DDASH | EIO_PLUS.
#[local] Instance EIsOpt_eq_dec : EqDecision EIsOpt.
Proof. solve_decision. Defined.

(** [TOptsParser]; [OptsSeen_] holds positions of options. *)
Record TOptsParser : Type := {
  Argv_ : list TString;
  ArgPos_ : nat;
  Sop_ : nat;
  Stopped_ : bool;
  GotMinusMinus_ : bool;
  CurrentOpt_ : option opt_ptr;
  CurrentValue_ : TStringBuf;
  OptsSeen_ : gset nat;
  OptsDefault_ : list opt_ptr;
}.

Section Parser.
(** [Opts_] of the parser *)
Context (o : TOpts).

Definition Argc_ (p : TOptsParser) : nat := length (Argv_ p).

(** [Argv_[pos]] *)
Definition arg_at (p : TOptsParser) (pos : nat) : outcome TString := vat (Argv_ p) (Z.of_nat pos).

(** [Init(opts, argc, argv)], after [Validate]. *)
Definition parser_init (argv : list TString) : outcome TOptsParser :=
  _ ← ensure (negb (bool_decide (argv = []))) (EUsage UsageNoProgram);
  Ret (Build_TOptsParser argv 1 0 false false None None ∅ []).

(** [Commit(currentOpt, currentValue, pos, sop)] *)
Definition Commit (current_opt : option opt_ptr) (current_value : TStringBuf) (pos sop : nat) (p : TOptsParser) : TOptsParser :=
  Build_TOptsParser (Argv_ p) pos sop (Stopped_ p) (GotMinusMinus_ p) current_opt current_value
    (match current_opt with Some (i, _) => {[ i ]} ∪ OptsSeen_ p | None => OptsSeen_ p end) (OptsDefault_ p).

(** [CommitEndOfOptions(pos)]: returns false. *)
Definition CommitEndOfOptions (pos : nat) (p : TOptsParser) : outcome (bool * TOptsParser) :=
  let free := u64 (Z.of_nat (Argc_ p) - Z.of_nat pos) in
  if (FreeArgsMin_ o =? FreeArgsMax_ o) && negb (free =? FreeArgsMin_ o)
  then Fail (Throw (EUsage (UsageFreeExactly (FreeArgsMin_ o))))
  else if free <? FreeArgsMin_ o then Fail (Throw (EUsage (UsageFreeAtLeast (FreeArgsMin_ o))))
  else if FreeArgsMax_ o <? free then Fail (Throw (EUsage (UsageFreeAtMost (FreeArgsMax_ o))))
  else Ret (false, Build_TOptsParser (Argv_ p) pos 0 (Stopped_ p) (GotMinusMinus_ p) (CurrentOpt_ p)
                     (CurrentValue_ p) (OptsSeen_ p) (OptsDefault_ p)).

(** [IsOpt(arg)] *)
Definition IsOpt (arg : TString) : EIsOpt :=
  match arg with
  | c0 :: c1 :: rest =>
      if c0 =? chr "-" then
        if negb (c1 =? chr "-") then EIO_SDASH
        else if negb (bool_decide (rest = [])) then EIO_DDASH else EIO_NONE
      else if c0 =? chr "+" then if AllowPlusForLong_ o then EIO_PLUS else EIO_NONE
      else EIO_NONE
  | _ => EIO_NONE
  end.

(** [ParseOptParam(opt, pos)] *)
Definition ParseOptParam (opt : opt_ptr) (pos : nat) (p : TOptsParser) : outcome TOptsParser :=
  if bool_decide (HasArg_ opt.2 = NO_ARGUMENT) then Ret (Commit (Some opt) None pos 0 p)
  else if (pos =? Argc_ p)%nat then
    if bool_decide (HasArg_ opt.2 = REQUIRED_ARGUMENT) then Fail (Throw (EUsage UsageNeedsArgument))
    else Ret (Commit (Some opt) None pos 0 p)
  else
    arg ← arg_at p pos;
    if negb (bool_decide (head arg = Some (chr "-"))) || bool_decide (HasArg_ opt.2 = REQUIRED_ARGUMENT)
    then Ret (Commit (Some opt) (Some arg) (pos + 1) 0 p)
    else Ret (Commit (Some opt) None pos 0 p).

(** [ParseShortOptWithinArg(pos, sop)], and [ParseUnknownShortOptWithinArg] when
    unknown options are not allowed. *)
Definition ParseShortOptWithinArg (pos sop : nat) (p : TOptsParser) : outcome TOptsParser :=
  arg ← arg_at p pos;
  c ← vat arg (Z.of_nat sop);
  match FindCharOption o c with
  | None => Fail (Throw (EUsage (UsageUnknownChar c)))
  | Some opt =>
      if (sop + 1 =? length arg)%nat then ParseOptParam opt (pos + 1) p
      else if bool_decide (HasArg_ opt.2 = NO_ARGUMENT) then Ret (Commit (Some opt) None pos (sop + 1) p)
      else Ret (Commit (Some opt) (Some (drop (sop + 1) arg)) (pos + 1) 0 p)
  end.

(** [ParseShortOptArg(pos)] *)
Definition ParseShortOptArg (pos : nat) (p : TOptsParser) : outcome TOptsParser := ParseShortOptWithinArg pos 1 p.

(** Whether [ParseOptArg] takes an argument for a long option. *)
Definition is_long (eio : EIsOpt) : bool :=
  bool_decide (eio = EIO_DDASH) || bool_decide (eio = EIO_PLUS) ||
  (AllowSingleDashForLong_ o || negb (HasAnyShortOption o)).

(** [ParseOptArg(pos)] *)
Definition ParseOptArg (pos : nat) (p : TOptsParser) : outcome TOptsParser :=
  arg ← arg_at p pos;
  let eio := IsOpt arg in
  if is_long eio then
    let single_char_prefix := negb (bool_decide (eio = EIO_DDASH)) in
    let '(option_name, value) := NextTok (Some (drop (if single_char_prefix then 1 else 2) arg)) (chr "=") in
    let option_name := default [] option_name in
    match FindLongOption o option_name with
    | None =>
        if single_char_prefix && bool_decide (value = None) then ParseShortOptArg pos p
        else Fail (Throw (EUsage (UsageUnknownName option_name)))
    | Some option =>
        match value with
        | Some value =>
            if bool_decide (HasArg_ option.2 = NO_ARGUMENT) then Fail (Throw (EUsage UsageNoArgument))
            else Ret (Commit (Some option) (Some value) (pos + 1) 0 p)
        | None => ParseOptParam option (pos + 1) p
        end
    end
  else ParseShortOptArg pos p.

(** [memrotate(ptr, size, shift)] on the elements of a list from [ptr] on. *)
Definition memrotate {A} (l : list A) (ptr size shift : nat) : list A :=
  let seg := take size (drop ptr l) in
  take ptr l ++ (drop (size - shift) seg ++ take (size - shift) seg) ++ drop (ptr + size) l.

(** The loop that counts the arguments that are no options. *)
Fixpoint count_non_args (args : list TString) : nat :=
  match args with
  | [] => 0
  | a :: args => if bool_decide (IsOpt a = EIO_NONE) then Datatypes.S (count_non_args args) else 0
  end.

(** The loop [while (Pos_ == pc)]; every pass but the last advances within the
    argument. *)
Fixpoint permutation_loop (fuel : nat) (pc : nat) (p : TOptsParser) : outcome TOptsParser :=
  if negb (ArgPos_ p =? pc)%nat then Ret p else
  match fuel with
  | O => Fail (Abort VUnreachable)
  | Datatypes.S fuel => p ← ParseShortOptWithinArg (ArgPos_ p) (Sop_ p) p; permutation_loop fuel pc p
  end.

Definition with_argv (p : TOptsParser) (argv : list TString) : TOptsParser :=
  Build_TOptsParser argv (ArgPos_ p) (Sop_ p) (Stopped_ p) (GotMinusMinus_ p) (CurrentOpt_ p)
    (CurrentValue_ p) (OptsSeen_ p) (OptsDefault_ p).
Definition with_pos (p : TOptsParser) (pos : nat) : TOptsParser :=
  Build_TOptsParser (Argv_ p) pos (Sop_ p) (Stopped_ p) (GotMinusMinus_ p) (CurrentOpt_ p)
    (CurrentValue_ p) (OptsSeen_ p) (OptsDefault_ p).

(** [ParseWithPermutation()] *)
Definition ParseWithPermutation (p : TOptsParser) : outcome (bool * TOptsParser) :=
  let p0 := ArgPos_ p in
  let pc := (p0 + count_non_args (drop p0 (Argv_ p)))%nat in
  if (pc =? Argc_ p)%nat then CommitEndOfOptions (ArgPos_ p) p
  else
    p ← ParseOptArg pc (with_pos p pc);
    arg ← arg_at p pc;
    p ← permutation_loop (length arg) pc p;
    let p2 := ArgPos_ p in
    p ← ParseOptArg p0 (with_argv p (memrotate (Argv_ p) p0 (p2 - p0) (p2 - pc)));
    Ret (true, p).

(** [DoNext()] *)
Definition DoNext (p : TOptsParser) : outcome (bool * TOptsParser) :=
  if (ArgPos_ p =? Argc_ p)%nat then CommitEndOfOptions (ArgPos_ p) p
  else if GotMinusMinus_ p && bool_decide (ArgPermutation_ o = RETURN_IN_ORDER) then
    arg ← arg_at p (ArgPos_ p);
    Ret (true, Commit None (Some arg) (ArgPos_ p + 1) 0 p)
  else if (0 <? Sop_ p)%nat then
    p ← ParseShortOptWithinArg (ArgPos_ p) (Sop_ p) p; Ret (true, p)
  else
    let pos := ArgPos_ p in
    arg ← arg_at p pos;
    if negb (bool_decide (IsOpt arg = EIO_NONE)) then p ← ParseOptArg pos p; Ret (true, p)
    else if bool_decide (arg = STRINGBUF "--") then
      if bool_decide (ArgPermutation_ o = RETURN_IN_ORDER) then
        if (pos + 1 =? Argc_ p)%nat then CommitEndOfOptions (pos + 1) p
        else
          arg ← arg_at p (pos + 1);
          Ret (true, Commit None (Some arg) (pos + 2) 0
                       (Build_TOptsParser (Argv_ p) (ArgPos_ p) (Sop_ p) (Stopped_ p) true (CurrentOpt_ p)
                          (CurrentValue_ p) (OptsSeen_ p) (OptsDefault_ p)))
      else CommitEndOfOptions (pos + 1) p
    else
      match ArgPermutation_ o with
      | RETURN_IN_ORDER => Ret (true, Commit None (Some arg) (pos + 1) 0 p)
      | REQUIRE_ORDER => CommitEndOfOptions (ArgPos_ p) p
      | PERMUTE => ParseWithPermutation p
      end.

(** The options that were not seen, in the order of [Opts_]. *)
Definition unseen (seen : gset nat) : list opt_ptr :=
  filter (λ x, x.1 ∉ seen) (imap pair (Opts_ o)).

(** Whether an option has a name [Finish] can report. *)
Definition reportable (opt : TOpt) : bool :=
  negb (bool_decide (LongNames_ opt = [])) || negb (default 0 (head (Chars_ opt)) =? 0).

(** [Finish()]: an error for required options that are missing, and the options with a
    default value. *)
Definition Finish (p : TOptsParser) : outcome TOptsParser :=
  if Z.of_nat (length (Opts_ o)) =? Z.of_nat (size (OptsSeen_ p)) then Ret p
  else
    let missing := filter (λ x : opt_ptr, Required_ x.2 && reportable x.2 = true) (unseen (OptsSeen_ p)) in
    let defaults := filter (λ x : opt_ptr, negb (Required_ x.2) && HasDefaultValue x.2 = true) (unseen (OptsSeen_ p)) in
    _ ← ensure (bool_decide (missing = [])) (EUsage UsageRequired);
    Ret (Build_TOptsParser (Argv_ p) (ArgPos_ p) (Sop_ p) (Stopped_ p) (GotMinusMinus_ p) (CurrentOpt_ p)
           (CurrentValue_ p) ∅ (OptsDefault_ p ++ defaults)).

(** [CurValOrOpt()] and [CurValOrDef(useDef)] *)
Definition CurValOrOpt (opt : TOpt) (value : TStringBuf) : TStringBuf :=
  match value with
  | None => if HasOptionalValue opt then OptionalValue_ opt else None
  | _ => value
  end.
Definition CurValOrDef (opt : TOpt) (value : TStringBuf) (use_def : bool) : TStringBuf :=
  match CurValOrOpt opt value with
  | None => if use_def && HasDefaultValue opt then DefaultValue_ opt else None
  | value => value
  end.

(** [FireHandlers(parser)]; a handler that exits is the last. *)
Definition FireHandlers (opt : TOpt) (value : TStringBuf) (s : S) : outcome (S + Z) :=
  mfold (λ r (h : IOptHandler), match r with inl s => h (CurValOrDef opt value) s | inr code => Ret (inr code) end)
    (inl s) (Handlers_ opt).

Definition set_current (cur : option opt_ptr) (value : TStringBuf) (stopped : bool) (defaults : list opt_ptr)
    (p : TOptsParser) : TOptsParser :=
  Build_TOptsParser (Argv_ p) (ArgPos_ p) (Sop_ p) stopped (GotMinusMinus_ p) cur value (OptsSeen_ p) defaults.

(** [Next()], up to the handlers. *)
Definition advance (p : TOptsParser) : outcome (bool * TOptsParser) :=
  q ← (if bool_decide (OptsDefault_ p = []) then
         let p := set_current None None (Stopped_ p) (OptsDefault_ p) p in
         if Stopped_ p then Ret (false, p)
         else
           r ← DoNext p;
           if r.1 : bool then Ret (true, r.2)
           else p ← Finish (set_current (CurrentOpt_ r.2) (CurrentValue_ r.2) true (OptsDefault_ r.2) r.2);
                Ret (false, p)
       else Ret (false, p));
  let '(r, p) := q in
  match OptsDefault_ p with
  | opt :: defaults =>
      if negb r then Ret (true, set_current (Some opt) (DefaultValue_ opt.2) (Stopped_ p) defaults p)
      else Ret (r, p)
  | [] => Ret (r, p)
  end.

(** The handlers of the current option, fired by [Next()]. *)
Definition fire_current (p : TOptsParser) (s : S) : outcome (S + Z) :=
  match CurrentOpt_ p with
  | Some opt => FireHandlers opt.2 (CurrentValue_ p) s
  | None => Ret (inl s)
  end.

(** The loop [while (Parser_->Next())] of [TOptsParseResult::Init]. *)
Fixpoint parse_loop (fuel : nat) (p : TOptsParser) (s : S) : outcome (S + Z) :=
  match fuel with
  | O => Fail (Abort VUnreachable)
  | Datatypes.S fuel =>
      r ← advance p;
      if r.1 : bool then
        e ← fire_current r.2 s;
        match e with
        | inl s => parse_loop fuel r.2 s
        | inr code => Ret (inr code)
        end
      else Ret (inl s)
  end.

(** The characters of some arguments, with their terminators. *)
Definition chars (args : list TString) : nat := sum_list_with (λ a, Datatypes.S (length a)) args.

(** Enough passes: one for each character and each option. *)
Definition parse_fuel (argv : list TString) : nat :=
  (3 + length (Opts_ o) + chars argv)%nat.

(** The parser alone, with its exceptions. *)
Definition parse_args (argv : list TString) (s : S) : outcome (S + Z) :=
  _ ← Validate o;
  p ← parser_init argv;
  parse_loop (parse_fuel argv) p s.

(** [TOptsParseResult::Init]: an exception is reported and the process exits with 1. *)
Definition TOptsParseResult_Init (argv : list TString) (s : S) : outcome (S + Z) :=
  match parse_args argv s with
  | Fail (Throw _) => Ret (inr 1)
  | r => r
  end.


(** ** What one argument means *)

(** The value of an option at the end of an argument, and the arguments after it. *)
Definition opt_param (opt : opt_ptr) (rest : list TString) : option (TStringBuf * list TString) :=
  if bool_decide (HasArg_ opt.2 = NO_ARGUMENT) then Some (None, rest)
  else match rest with
       | [] => if bool_decide (HasArg_ opt.2 = REQUIRED_ARGUMENT) then None else Some (None, [])
       | a :: rest' =>
           if negb (bool_decide (head a = Some (chr "-"))) || bool_decide (HasArg_ opt.2 = REQUIRED_ARGUMENT)
           then Some (Some a, rest') else Some (None, rest)
       end.

(** One option found: the option, its value, the characters of the same argument that
    are options themselves, and the arguments after it. *)
Definition found : Type := opt_ptr * TStringBuf * TString * list TString.

Definition short_step (cs : TString) (rest : list TString) : option found :=
  match cs with
  | [] => None
  | c :: cs =>
      opt ← FindCharOption o c;
      match cs with
      | [] => r ← opt_param opt rest; Some (opt, r.1, [], r.2)
      | _ => if bool_decide (HasArg_ opt.2 = NO_ARGUMENT) then Some (opt, None, cs, rest)
             else Some (opt, Some cs, [], rest)
      end
  end.

Definition long_step (single : bool) (arg : TString) (rest : list TString) : option found :=
  let r := NextTok (Some (drop (if single then 1 else 2) arg)) (chr "=") in
  match FindLongOption o (default [] r.1), r.2 with
  | None, None => if single then short_step (drop 1 arg) rest else None
  | None, Some _ => None
  | Some opt, Some value =>
      if bool_decide (HasArg_ opt.2 = NO_ARGUMENT) then None else Some (opt, Some value, [], rest)
  | Some opt, None => r ← opt_param opt rest; Some (opt, r.1, [], r.2)
  end.

Definition opt_step (arg : TString) (rest : list TString) : option found :=
  if is_long (IsOpt arg) then long_step (negb (bool_decide (IsOpt arg = EIO_DDASH))) arg rest
  else short_step (drop 1 arg) rest.

(** What the parser finds is committed: it is at the next character of the argument, or
    behind the argument and its value. *)
Definition committed (p : TOptsParser) (pos : nat) (arg : TString) (r : found) (q : TOptsParser) : Prop :=
  let '(opt, v, cs, rest) := r in
  ∃ pos' sop', q = Commit (Some opt) v pos' sop' p ∧
    if bool_decide (cs = []) then sop' = 0%nat ∧ (pos < pos' ≤ pos + 2)%nat ∧ (pos' ≤ Argc_ p)%nat ∧ drop pos' (Argv_ p) = rest
    else pos' = pos ∧ (0 < sop' < length arg)%nat ∧ drop sop' arg = cs ∧ rest = drop (pos + 1) (Argv_ p).

Lemma arg_at_Some p pos arg : Argv_ p !! pos = Some arg → arg_at p pos = Ret arg.
Proof. intros H. unfold arg_at. apply vat_Ret. split; [lia|]. by rewrite Nat2Z.id. Qed.

Lemma ParseOptParam_spec opt pos p : (pos ≤ Argc_ p)%nat →
  match opt_param opt (drop pos (Argv_ p)) with
  | Some (v, rest) => ∃ pos', ParseOptParam opt pos p = Ret (Commit (Some opt) v pos' 0 p) ∧
      (pos ≤ pos' ≤ pos + 1)%nat ∧ (pos' ≤ Argc_ p)%nat ∧ drop pos' (Argv_ p) = rest
  | None => is_throw (ParseOptParam opt pos p)
  end.
Proof.
  intros Hpos. unfold opt_param, ParseOptParam. case_bool_decide; [exists pos; split_and!; [done|lia..|done]|].
  destruct (Nat.eqb_spec pos (Argc_ p)) as [->|Hne].
  - rewrite drop_ge by done. case_bool_decide; [by eexists|]. exists (Argc_ p).
    split_and!; [done|lia..|]. by rewrite drop_ge.
  - destruct (lookup_lt_is_Some_2 (Argv_ p) pos) as [arg Harg]; [unfold Argc_ in *; lia|].
    rewrite (drop_S _ _ _ Harg), (arg_at_Some _ _ _ Harg), bind_Ret.
    pose proof (lookup_lt_Some _ _ _ Harg). destruct (negb _ || _).
    + exists (pos + 1)%nat. split_and!; [done|lia|lia|unfold Argc_; lia|]. by rewrite Nat.add_1_r.
    + exists pos. split_and!; [done|lia..|]. by apply drop_S.
Qed.

Lemma ParseShortOptWithinArg_spec pos sop p arg : Argv_ p !! pos = Some arg → (sop < length arg)%nat →
  match short_step (drop sop arg) (drop (pos + 1) (Argv_ p)) with
  | Some r => ∃ q, ParseShortOptWithinArg pos sop p = Ret q ∧ committed p pos arg r q
  | None => is_throw (ParseShortOptWithinArg pos sop p)
  end.
Proof.
  intros Harg Hsop. destruct (lookup_lt_is_Some_2 arg sop Hsop) as [c Hc].
  pose proof (lookup_lt_Some _ _ _ Harg) as Hlt.
  rewrite (drop_S _ _ _ Hc). cbn [short_step]. unfold ParseShortOptWithinArg.
  rewrite (arg_at_Some _ _ _ Harg), bind_Ret.
  assert (vat arg (Z.of_nat sop) = Ret c) as -> by (apply vat_Ret; split; [lia|by rewrite Nat2Z.id]).
  rewrite bind_Ret. destruct (FindCharOption o c) as [opt|]; [|by eexists]. cbn.
  destruct (Nat.eqb_spec (sop + 1) (length arg)) as [Hend|Hend].
  - rewrite (drop_ge arg) by lia.
    pose proof (ParseOptParam_spec opt (pos + 1) p ltac:(unfold Argc_; lia)) as Hp.
    destruct (opt_param opt _) as [[v rest]|]; [|done]. destruct Hp as (pos' & -> & Hpos & Hle & Hdrop).
    eexists. split; [done|]. exists pos', 0%nat. split; [done|]. cbn. split_and!; [done|lia|lia|done|done].
  - destruct (drop (Datatypes.S sop) arg) as [|c' cs] eqn:Hd.
    { apply (f_equal length) in Hd. rewrite length_drop in Hd. cbn in Hd. lia. }
    case_bool_decide; (eexists; split; [done|]).
    + exists pos, (sop + 1)%nat. split; [done|]. cbn. rewrite Nat.add_1_r. split_and!; [done|lia|lia|done|done].
    + exists (pos + 1)%nat, 0%nat. rewrite Nat.add_1_r, Hd. cbn. split_and!; [done|done|lia|lia|unfold Argc_; lia|done].
Qed.

Lemma IsOpt_length arg : IsOpt arg ≠ EIO_NONE → (1 < length arg)%nat.
Proof. destruct arg as [|c0 [|c1 arg]]; cbn; [done|done|]. intros _. lia. Qed.

Lemma ParseOptArg_spec pos p arg : Argv_ p !! pos = Some arg → IsOpt arg ≠ EIO_NONE →
  match opt_step arg (drop (pos + 1) (Argv_ p)) with
  | Some r => ∃ q, ParseOptArg pos p = Ret q ∧ committed p pos arg r q
  | None => is_throw (ParseOptArg pos p)
  end.
Proof.
  intros Harg Hopt. pose proof (IsOpt_length arg Hopt) as Hlen. pose proof (lookup_lt_Some _ _ _ Harg) as Hlt.
  pose proof (ParseShortOptWithinArg_spec pos 1 p arg Harg Hlen) as Hshort.
  unfold opt_step, ParseOptArg. rewrite (arg_at_Some _ _ _ Harg), bind_Ret.
  destruct (is_long (IsOpt arg)); [|exact Hshort]. unfold long_step.
  set (single := negb _). destruct (NextTok _ _) as [name value]. cbn.
  destruct (FindLongOption o (default [] name)) as [opt|].
  - destruct value as [value|].
    + case_bool_decide; [by eexists|]. eexists. split; [done|]. exists (pos + 1)%nat, 0%nat. cbn.
      split_and!; [done|done|lia|lia|unfold Argc_; lia|done].
    + pose proof (ParseOptParam_spec opt (pos + 1) p ltac:(unfold Argc_; lia)) as Hp.
      destruct (opt_param opt _) as [[v rest]|]; [|done]. destruct Hp as (pos' & -> & Hpos & Hle & Hdrop).
      eexists. split; [done|]. exists pos', 0%nat. cbn. split_and!; [done|done|lia|lia|done|done].
  - destruct value as [value|]; [rewrite andb_false_r; by eexists|]. rewrite andb_true_r.
    destruct single; [exact Hshort|by eexists].
Qed.

(** ** Progress *)

(** A position within [argv]: the next argument, or the next character of one. *)
Definition good_pos (p : TOptsParser) : Prop :=
  (ArgPos_ p ≤ Argc_ p)%nat ∧
  ((0 < Sop_ p)%nat → ∃ arg, Argv_ p !! ArgPos_ p = Some arg ∧ (Sop_ p < length arg)%nat).

(** The characters the parser has yet to see. *)
Definition remaining (p : TOptsParser) : nat :=
  (chars (drop (ArgPos_ p) (Argv_ p)) - Sop_ p)%nat.

#[local] Arguments chars : simpl never.
#[local] Arguments remaining : simpl never.

Lemma chars_cons a args : chars (a :: args) = Datatypes.S (length a + chars args).
Proof. reflexivity. Qed.
Lemma chars_app args args' : chars (args ++ args') = (chars args + chars args')%nat.
Proof. apply sum_list_with_app. Qed.

Lemma sum_drop_le (argv : list TString) i j : (i ≤ j)%nat →
  (chars (drop j argv) ≤ chars (drop i argv))%nat.
Proof.
  intros Hij. replace j with (i + (j - i))%nat by lia. rewrite <- drop_drop.
  generalize (drop i argv). intros l. generalize (j - i)%nat. intros k.
  rewrite <- (take_drop k l) at 2. rewrite chars_app. lia.
Qed.

Lemma committed_progress p pos sop arg r q : committed p pos arg r q → Argv_ p !! pos = Some arg →
  (sop < length arg)%nat → (r.1.2 = [] ∨ sop < Sop_ q)%nat →
  Argv_ q = Argv_ p ∧ good_pos q ∧
  (remaining q < chars (drop pos (Argv_ p)) - sop)%nat.
Proof.
  destruct r as [[[opt v] cs] rest]. intros (pos' & sop' & -> & Hq) Harg Hsop Hlt. cbn in *. split; [done|].
  unfold good_pos, remaining. cbn [Commit ArgPos_ Argv_ Sop_]. change (Argc_ (Commit _ _ _ _ _)) with (Argc_ p).
  rewrite (drop_S _ _ _ Harg), chars_cons. case_bool_decide as Hcs.
  - destruct Hq as (-> & Hpos & Hle & _). split; [split; [done|lia]|].
    pose proof (sum_drop_le (Argv_ p) (Datatypes.S pos) pos' ltac:(lia)). lia.
  - destruct Hq as (-> & Hs & _ & _). destruct Hlt as [|Hlt]; [done|].
    split; [split; [|intros _; exists arg; split; [done|lia]]|].
    + apply lookup_lt_Some in Harg. unfold Argc_. lia.
    + rewrite (drop_S _ _ _ Harg), chars_cons. lia.
Qed.

Lemma committed_sop p pos arg r q : committed p pos arg r q → (r.1.2 = [] ∨ 0 < Sop_ q)%nat.
Proof.
  destruct r as [[[opt v] cs] rest]. intros (pos' & sop' & -> & Hq). cbn. destruct cs; [by left|].
  rewrite bool_decide_false in Hq by done. right. lia.
Qed.

Lemma committed_length p pos arg r q : committed p pos arg r q → (length r.1.2 ≤ length arg)%nat.
Proof.
  destruct r as [[[opt v] cs] rest]. intros (pos' & sop' & _ & Hq). cbn. destruct cs; [cbn; lia|].
  rewrite bool_decide_false in Hq by done. destruct Hq as (_ & _ & <- & _). rewrite length_drop. lia.
Qed.

(** The options of the rest of an argument, and the arguments after it. *)
Abbreviation event := (opt_ptr * TStringBuf)%type.

Fixpoint short_events (cs : TString) (rest : list TString) : option (list event * list TString) :=
  match cs with
  | [] => Some ([], rest)
  | c :: cs =>
      opt ← FindCharOption o c;
      match cs with
      | [] => r ← opt_param opt rest; Some ([(opt, r.1)], r.2)
      | _ => if bool_decide (HasArg_ opt.2 = NO_ARGUMENT)
             then r ← short_events cs rest; Some ((opt, None) :: r.1, r.2)
             else Some ([(opt, Some cs)], rest)
      end
  end.

Lemma short_events_step cs rest : cs ≠ [] →
  short_events cs rest =
    ('(opt, v, cs', rest') ← short_step cs rest; r ← short_events cs' rest'; Some ((opt, v) :: r.1, r.2)).
Proof.
  destruct cs as [|c cs]; [done|]. intros _. cbn [short_events short_step].
  destruct (FindCharOption o c) as [opt|]; [|done]. cbn. destruct cs as [|c' cs].
  - destruct (opt_param opt rest) as [[v rest']|]; done.
  - by case_bool_decide.
Qed.

(** All the options of an argument. *)
Definition opt_events (arg : TString) (rest : list TString) : option (list event * list TString) :=
  '(opt, v, cs, rest') ← opt_step arg rest; r ← short_events cs rest'; Some ((opt, v) :: r.1, r.2).

Definition ptrs (evs : list event) : gset nat := list_to_set ((λ e, e.1.1) <$> evs).

Lemma ptrs_shift (A B : gset nat) x v evs1 evs2 : {[ x.1 ]} ∪ A ∪ ptrs evs1 = {[ x.1 ]} ∪ B ∪ ptrs evs1 →
  {[ x.1 ]} ∪ A ∪ ptrs (evs1 ++ evs2) = B ∪ ptrs ((x, v) :: evs1 ++ evs2).
Proof.
  unfold ptrs. cbn [fmap list_fmap list_to_set fst snd]. rewrite !fmap_app, !list_to_set_app_L.
  generalize (list_to_set ((λ e : event, e.1.1) <$> evs1) : gset nat) (list_to_set ((λ e : event, e.1.1) <$> evs2) : gset nat).
  intros C E H. transitivity ({[ x.1 ]} ∪ A ∪ C ∪ E); [by rewrite (assoc_L (∪))|]. rewrite H.
  clear H. generalize ({[ x.1 ]} : gset nat). clear. intros X. set_solver.
Qed.

(** What the pass over an argument changes besides the position. *)
Definition same_mode (p q : TOptsParser) : Prop :=
  Argv_ q = Argv_ p ∧ Stopped_ q = Stopped_ p ∧ GotMinusMinus_ q = GotMinusMinus_ p ∧ OptsDefault_ q = OptsDefault_ p.

(** The loop over the rest of an argument, from the position [committed] describes. *)
Lemma permutation_loop_spec fuel pos arg p q r : Argv_ p !! pos = Some arg → committed p pos arg r q →
  (length r.1.2 ≤ fuel)%nat →
  match short_events r.1.2 r.2 with
  | Some (evs, rest') => ∃ q', permutation_loop fuel pos q = Ret q' ∧ same_mode p q' ∧ Sop_ q' = 0%nat ∧
      (pos < ArgPos_ q' ≤ pos + 2)%nat ∧ (ArgPos_ q' ≤ Argc_ p)%nat ∧ drop (ArgPos_ q') (Argv_ p) = rest' ∧
      OptsSeen_ q' = OptsSeen_ q ∪ ptrs evs
  | None => is_throw (permutation_loop fuel pos q)
  end.
Proof.
  intros Harg. revert q r p Harg. induction fuel as [|fuel IH]; intros q [[[opt v] cs] rest] p Harg;
    intros (pos' & sop' & -> & Hq) Hf; cbn [fst snd] in *.
  1: { destruct cs; [|cbn in Hf; lia]. cbn in Hq. destruct Hq as (-> & Hpos & Hle & Hd). cbn [short_events].
       eexists. split; [cbn; by rewrite (proj2 (Nat.eqb_neq pos' pos)) by lia|]. cbn.
       split_and!; [by split_and!|done|lia|lia|done|done|destruct opt; unfold ptrs; set_solver]. }
  destruct (decide (cs = [])) as [->|Hne].
  { cbn in Hq. destruct Hq as (-> & Hpos & Hle & Hd). cbn [short_events].
    eexists. split; [cbn; by rewrite (proj2 (Nat.eqb_neq pos' pos)) by lia|]. cbn.
    split_and!; [by split_and!|done|lia|lia|done|done|destruct opt; unfold ptrs; set_solver]. }
  rewrite bool_decide_false in Hq by done. destruct Hq as (-> & Hs & Hd & Hr).
  rewrite short_events_step by done. cbn [permutation_loop ArgPos_ Sop_ Commit].
  rewrite Nat.eqb_refl. cbn [negb].
  pose proof (ParseShortOptWithinArg_spec pos sop' (Commit (Some opt) v pos sop' p) arg Harg ltac:(lia)) as Hstep.
  cbn [Argv_ Commit] in Hstep. rewrite Hd, <- Hr in Hstep.
  assert (∀ x, short_step cs rest = Some x → (length x.1.2 < length cs)%nat) as Hdec.
  { intros x. destruct cs as [|c cs]; [done|]. cbn [short_step]. intros Hx.
    apply bind_Some in Hx as (opt' & _ & Hx). destruct cs as [|c' cs].
    - apply bind_Some in Hx as (y & _ & [= <-]). cbn. lia.
    - case_bool_decide; injection Hx as <-; cbn; lia. }
  destruct (short_step cs rest) as [[[[opt2 v2] cs2] rest2]|] eqn:Hss; cbn [mbind option_bind]; [|by apply is_throw_bind].
  destruct Hstep as (q2 & -> & Hq2). rewrite bind_Ret. specialize (Hdec _ eq_refl). cbn in Hdec.
  specialize (IH q2 (opt2, v2, cs2, rest2) (Commit (Some opt) v pos sop' p) Harg Hq2 ltac:(cbn; lia)). cbn [fst snd] in IH.
  destruct (short_events cs2 rest2) as [[evs rest3]|]; [|done]. cbn.
  destruct IH as (q' & -> & Hm & H0 & Hpos & Hle & Hdd & Hseen). eexists. split; [done|].
  split_and!; [exact Hm|done|lia|lia|done|done|]. rewrite Hseen.
  destruct Hq2 as (? & ? & -> & _). destruct opt2, opt. cbn. unfold ptrs. cbn. set_solver.
Qed.

(** ** Rotation *)

Lemma memrotate_app {A} (pre l k post : list A) :
  memrotate (pre ++ l ++ k ++ post) (length pre) (length l + length k) (length k) = pre ++ k ++ l ++ post.
Proof.
  unfold memrotate. rewrite take_app_length, drop_app_length.
  replace (drop _ (pre ++ l ++ k ++ post)) with post.
  2: { rewrite !app_assoc. rewrite <- !length_app, app_assoc. by rewrite drop_app_length. }
  replace (take _ (l ++ k ++ post)) with (l ++ k).
  2: { rewrite app_assoc, <- length_app. by rewrite take_app_length. }
  replace (length l + length k - length k)%nat with (length l) by lia.
  rewrite drop_app_length, take_app_length. by rewrite <- app_assoc.
Qed.

Lemma count_non_args_spec args :
  ∃ rest, args = take (count_non_args args) args ++ rest ∧
    Forall (λ a, IsOpt a = EIO_NONE) (take (count_non_args args) args) ∧
    (count_non_args args ≤ length args)%nat ∧
    match rest with [] => count_non_args args = length args | a :: _ => IsOpt a ≠ EIO_NONE end.
Proof.
  induction args as [|a args (rest & Heq & Hall & Hle & Hrest)]; cbn.
  - exists []. split_and!; [done|constructor|lia|done].
  - case_bool_decide as Ha.
    + exists rest. cbn. split_and!; [by rewrite <- Heq|by constructor|lia|]. destruct rest; [lia|done].
    + exists (a :: args). split_and!; [done|constructor|lia|done].
Qed.

(** ** The parser ends *)

Definition valid_ptr (x : opt_ptr) : Prop := Opts_ o !! x.1 = Some x.2.

Lemma FindCharOption_valid c x : FindCharOption o c = Some x → valid_ptr x ∧ c ∈ Chars_ x.2.
Proof. destruct x as [i opt]. unfold FindCharOption. by intros (? & ? & _)%list_find_Some. Qed.
Lemma FindLongOption_valid name x : FindLongOption o name = Some x → valid_ptr x ∧ name ∈ LongNames_ x.2.
Proof. destruct x as [i opt]. unfold FindLongOption. by intros (? & ? & _)%list_find_Some. Qed.

Lemma short_step_valid cs rest opt v cs' rest' : short_step cs rest = Some (opt, v, cs', rest') → valid_ptr opt.
Proof.
  destruct cs as [|c cs]; [done|]. cbn. destruct (FindCharOption o c) as [x|] eqn:Hf; [|done].
  apply FindCharOption_valid in Hf as [Hv _]. cbn. destruct cs.
  - destruct (opt_param x rest); [|done]. cbn. intros. by simplify_eq.
  - case_bool_decide; intros; by simplify_eq.
Qed.

Lemma opt_step_valid arg rest opt v cs' rest' : opt_step arg rest = Some (opt, v, cs', rest') → valid_ptr opt.
Proof.
  unfold opt_step, long_step. destruct (is_long _); [|apply short_step_valid].
  destruct (NextTok _ _) as [name value]. cbn. destruct (FindLongOption _ _) as [x|] eqn:Hf.
  - apply FindLongOption_valid in Hf as [Hv _]. destruct value.
    + case_bool_decide; intros; by simplify_eq.
    + destruct (opt_param x rest); [|done]. cbn. intros. by simplify_eq.
  - destruct value; [done|]. destruct (negb _); [apply short_step_valid|done].
Qed.

(** A pass of [DoNext]. *)
Definition steps_to (p : TOptsParser) (b : bool) (q : TOptsParser) : Prop :=
  good_pos q ∧ OptsDefault_ q = OptsDefault_ p ∧ Stopped_ q = Stopped_ p ∧
  (b = true → (remaining q < remaining p)%nat ∧ ∀ x, CurrentOpt_ q = Some x → valid_ptr x).

Lemma CommitEndOfOptions_ok pos p : (pos ≤ Argc_ p)%nat →
  is_throw (CommitEndOfOptions pos p) ∨ ∃ q, CommitEndOfOptions pos p = Ret (false, q) ∧ steps_to p false q.
Proof.
  intros Hpos. unfold CommitEndOfOptions. destruct (_ && _); [left; by eexists|].
  destruct (_ <? _); [left; by eexists|]. destruct (_ <? _); [left; by eexists|].
  right. eexists. split; [done|]. split; [|split_and!; [done|done|done]]. split; [done|]. cbn. lia.
Qed.

Lemma committed_steps p pos sop arg r q :
  committed p pos arg r q → Argv_ p !! pos = Some arg → (sop < length arg)%nat →
  (r.1.2 = [] ∨ sop < Sop_ q)%nat → valid_ptr r.1.1.1 →
  (chars (drop pos (Argv_ p)) - sop ≤ remaining p)%nat →
  steps_to p true q.
Proof.
  intros Hc Harg Hsop Hlt Hv Hle. destruct (committed_progress p pos sop arg r q Hc Harg Hsop Hlt) as (_ & Hg & Hr).
  destruct r as [[[opt v] cs] rest]. destruct Hc as (pos' & sop' & -> & _).
  split; [done|]. split_and!; [done|done|]. intros _. split; [lia|]. intros x [= <-]. done.
Qed.

(** The state [ParseWithPermutation] parses the option in: behind the rotation. *)
Lemma rotated_option p arg evs rest pc q :
  pc = (ArgPos_ p + count_non_args (drop (ArgPos_ p) (Argv_ p)))%nat →
  Argv_ p !! pc = Some arg → opt_events arg (drop (pc + 1) (Argv_ p)) = Some (evs, rest) →
  (pc < q ≤ Argc_ p)%nat → drop q (Argv_ p) = rest →
  ∃ mid, let argv := memrotate (Argv_ p) (ArgPos_ p) (q - ArgPos_ p) (q - pc) in
    let frees := take (count_non_args (drop (ArgPos_ p) (Argv_ p))) (drop (ArgPos_ p) (Argv_ p)) in
    drop (pc + 1) (Argv_ p) = mid ++ rest ∧ length mid = (q - pc - 1)%nat ∧
    drop (ArgPos_ p) argv = arg :: mid ++ frees ++ rest ∧ length argv = Argc_ p ∧
    drop (ArgPos_ p) (Argv_ p) = frees ++ arg :: mid ++ rest.
Proof.
  intros Hpc Harg _ Hq Hrest. exists (take (q - pc - 1) (drop (pc + 1) (Argv_ p))). cbn zeta.
  set (n := count_non_args _) in *. set (frees := take n _). set (mid := take _ _).
  assert (drop (pc + 1) (Argv_ p) = mid ++ rest) as Hmid.
  { unfold mid. rewrite <- Hrest. rewrite <- (take_drop (q - pc - 1) (drop (pc + 1) (Argv_ p))) at 1.
    f_equal. rewrite drop_drop. f_equal. lia. }
  assert (length mid = q - pc - 1)%nat as Hlm.
  { unfold mid. rewrite length_take, length_drop. unfold Argc_ in Hq. lia. }
  assert (drop (ArgPos_ p) (Argv_ p) = frees ++ arg :: mid ++ rest) as Hd.
  { rewrite <- Hmid, Nat.add_1_r, <- (drop_S _ _ _ Harg), Hpc. unfold frees. rewrite <- drop_drop. by rewrite take_drop. }
  assert (length frees = n) as Hlf.
  { unfold frees. rewrite length_take, length_drop. apply lookup_lt_Some in Harg. lia. }
  set (pre := take (ArgPos_ p) (Argv_ p)).
  assert (length pre = ArgPos_ p) as Hlp.
  { unfold pre. rewrite length_take. apply lookup_lt_Some in Harg. lia. }
  assert (Argv_ p = pre ++ frees ++ (arg :: mid) ++ rest) as Hargv.
  { unfold pre. rewrite <- (take_drop (ArgPos_ p) (Argv_ p)) at 1. by rewrite Hd. }
  assert (memrotate (Argv_ p) (ArgPos_ p) (q - ArgPos_ p) (q - pc) = pre ++ (arg :: mid) ++ frees ++ rest) as Hrot.
  { pose proof (memrotate_app pre frees (arg :: mid) rest) as Hm. rewrite <- Hargv, Hlp, Hlf in Hm.
    cbn [length] in Hm. rewrite Hlm in Hm. rewrite <- Hm. f_equal; lia. }
  rewrite Hrot. split_and!; [done|done| | |done].
  - rewrite <- Hlp at 1. by rewrite drop_app_length.
  - unfold Argc_. rewrite Hargv at 1. rewrite !length_app. cbn. lia.
Qed.

Lemma ParseWithPermutation_ok p : good_pos p → Sop_ p = 0%nat →
  is_throw (ParseWithPermutation p) ∨ ∃ b q, ParseWithPermutation p = Ret (b, q) ∧ steps_to p b q.
Proof.
  intros [Hpos _] Hsop. unfold ParseWithPermutation. set (pc := (_ + _)%nat).
  destruct (count_non_args_spec (drop (ArgPos_ p) (Argv_ p))) as (rest & Heq & _ & Hle & Hrest).
  rewrite length_drop in Hle. unfold Argc_ in *.
  destruct (Nat.eqb_spec pc (length (Argv_ p))) as [Hend|Hne].
  { destruct (CommitEndOfOptions_ok (ArgPos_ p) p Hpos) as [|(q & -> & Hq)]; [by left|right; by eexists _, _]. }
  destruct (lookup_lt_is_Some_2 (Argv_ p) pc) as [arg Harg]; [unfold pc in *; lia|].
  assert (IsOpt arg ≠ EIO_NONE) as Hopt.
  { assert (drop pc (Argv_ p) = rest) as Hd.
    { unfold pc. rewrite <- drop_drop. rewrite Heq at 2. rewrite drop_app_length'; [done|].
      rewrite length_take, length_drop. lia. }
    rewrite (drop_S _ _ _ Harg) in Hd. by subst rest. }
  pose proof (ParseOptArg_spec pc (with_pos p pc) arg Harg Hopt) as H1. cbn [Argv_ with_pos] in H1.
  destruct (opt_step arg _) as [r|] eqn:Hr; [|left; by apply is_throw_bind].
  destruct H1 as (q1 & -> & Hc1). rewrite bind_Ret. rewrite (arg_at_Some q1 pc arg), bind_Ret.
  2: { destruct r as [[[? ?] ?] ?]. by destruct Hc1 as (? & ? & -> & _). }
  assert (length r.1.2 ≤ length arg)%nat as Hfuel by exact (committed_length _ _ _ _ _ Hc1).
  pose proof (permutation_loop_spec (length arg) pc arg (with_pos p pc) q1 r Harg Hc1 Hfuel) as H2.
  destruct (short_events r.1.2 r.2) as [[evs rest']|] eqn:Hev; [|left; by apply is_throw_bind].
  destruct H2 as (q2 & -> & (Ha2 & Hst2 & Hgm2 & Hdf2) & _ & Hpos2 & Hle2 & Hd2 & _). rewrite bind_Ret.
  cbn [Argv_ with_pos Stopped_ OptsDefault_] in *. rewrite Ha2. unfold Argc_ in Hle2. cbn in Hle2.
  destruct (rotated_option p arg ((r.1.1.1, r.1.1.2) :: evs) rest' pc (ArgPos_ q2) eq_refl Harg) as (mid & _ & _ & Hrot & Hlen & Hd);
    [|unfold Argc_; lia|done|].
  { unfold opt_events. rewrite Hr. destruct r as [[[? ?] ?] ?]. cbn in *. by rewrite Hev. }
  set (argv := memrotate _ _ _ _) in *. set (p3 := with_argv q2 argv).
  assert (Argv_ p3 !! ArgPos_ p = Some arg) as Harg3.
  { change (Argv_ p3) with argv. rewrite <- (Nat.add_0_r (ArgPos_ p)), <- lookup_drop, Hrot. done. }
  pose proof (ParseOptArg_spec (ArgPos_ p) p3 arg Harg3 Hopt) as H3.
  destruct (opt_step arg (drop (ArgPos_ p + 1) (Argv_ p3))) as [r3|] eqn:Hr3; [|left; by apply is_throw_bind].
  destruct H3 as (q3 & -> & Hc3). right. eexists true, q3. split; [done|].
  assert (chars (drop (ArgPos_ p) argv) = remaining p) as Hsum.
  { unfold remaining. pose proof (f_equal chars Hrot) as E1. pose proof (f_equal chars Hd) as E2.
    rewrite chars_cons, !chars_app in E1. rewrite chars_app, chars_cons, chars_app in E2. lia. }
  destruct (committed_progress p3 (ArgPos_ p) 0 arg r3 q3 Hc3 Harg3) as (_ & Hg & Hrem).
  { pose proof (IsOpt_length arg Hopt). lia. }
  { exact (committed_sop _ _ _ _ _ Hc3). }
  change (Argv_ p3) with argv in Hrem. rewrite Hsum in Hrem.
  destruct r3 as [[[opt3 v3] cs3] rest3]. destruct Hc3 as (pos3 & sop3 & -> & _).
  split; [done|]. split; [exact Hdf2|]. split; [exact Hst2|]. intros _. split; [lia|].
  intros x [= <-]. by apply opt_step_valid in Hr3.
Qed.

(** A free argument handed out in order. *)
Lemma Commit_None_steps p value pos' arg minus : Argv_ p !! ArgPos_ p = Some arg → (Sop_ p ≤ length arg)%nat →
  (ArgPos_ p < pos' ≤ Argc_ p)%nat →
  steps_to p true (Commit None value pos' 0
    (Build_TOptsParser (Argv_ p) (ArgPos_ p) (Sop_ p) (Stopped_ p) minus (CurrentOpt_ p) (CurrentValue_ p) (OptsSeen_ p) (OptsDefault_ p))).
Proof.
  intros Harg Hsop Hpos. split; [split; [exact (proj2 Hpos)|cbn; lia]|]. split_and!; [done|done|].
  intros _. split; [|done]. unfold remaining. cbn [Commit ArgPos_ Argv_ Sop_].
  rewrite (drop_S _ _ _ Harg), chars_cons. pose proof (sum_drop_le (Argv_ p) (Datatypes.S (ArgPos_ p)) pos' ltac:(lia)). lia.
Qed.

Lemma DoNext_ok p : good_pos p →
  is_throw (DoNext p) ∨ ∃ b q, DoNext p = Ret (b, q) ∧ steps_to p b q.
Proof.
  intros Hg. pose proof Hg as [Hpos Hsop]. unfold DoNext.
  assert (∀ pos, (pos ≤ Argc_ p)%nat → is_throw (CommitEndOfOptions pos p) ∨
    ∃ b q, CommitEndOfOptions pos p = Ret (b, q) ∧ steps_to p b q) as Hend.
  { intros pos Hp. destruct (CommitEndOfOptions_ok pos p Hp) as [|(q & ? & ?)]; [by left|right; eauto]. }
  destruct (Nat.eqb_spec (ArgPos_ p) (Argc_ p)) as [|Hne]; [by apply Hend|].
  destruct (lookup_lt_is_Some_2 (Argv_ p) (ArgPos_ p)) as [arg Harg]; [unfold Argc_ in *; lia|].
  assert (Sop_ p ≤ length arg)%nat as Hle.
  { destruct (Nat.eq_0_gt_0_cases (Sop_ p)) as [->|Hs]; [lia|].
    destruct (Hsop Hs) as (arg' & Harg' & Hlt). rewrite Harg in Harg'. injection Harg' as <-. lia. }
  rewrite (arg_at_Some _ _ _ Harg).
  assert (∀ minus v, ∃ b q, Ret (A := bool * TOptsParser) (true, Commit None v (ArgPos_ p + 1) 0
    (Build_TOptsParser (Argv_ p) (ArgPos_ p) (Sop_ p) (Stopped_ p) minus (CurrentOpt_ p) (CurrentValue_ p) (OptsSeen_ p) (OptsDefault_ p)))
      = Ret (b, q) ∧ steps_to p b q) as Hfree.
  { intros minus v. eexists true, _. split; [done|]. eapply Commit_None_steps; [done|done|lia]. }
  destruct (GotMinusMinus_ p && _); [right; rewrite bind_Ret; destruct p; apply Hfree|].
  destruct (Nat.ltb_spec 0 (Sop_ p)) as [Hs|Hs].
  { destruct (Hsop Hs) as (arg' & Harg' & Hlt). rewrite Harg in Harg'. injection Harg' as <-.
    pose proof (ParseShortOptWithinArg_spec _ _ p _ Harg Hlt) as Hstep.
    destruct (short_step _ _) as [r|] eqn:Hr; [|left; by apply is_throw_bind].
    destruct Hstep as (q & -> & Hq). right. eexists true, q. split; [done|].
    eapply committed_steps; [exact Hq|exact Harg|exact Hlt| | |unfold remaining; lia].
    - destruct r as [[[opt v] cs] rest]. destruct Hq as (pos' & sop' & -> & Hq). cbn. destruct cs as [|c cs]; [by left|].
      right. rewrite bool_decide_false in Hq by done. destruct Hq as (_ & Hb & Hd & _).
      apply (f_equal length) in Hd. rewrite length_drop in Hd. rewrite (drop_S arg (arg !!! Sop_ p)) in Hr by (by apply list_lookup_lookup_total_lt).
      cbn [short_step] in Hr. apply bind_Some in Hr as (opt' & _ & Hr).
      destruct (drop (Datatypes.S (Sop_ p)) arg) as [|c' cs'] eqn:Hcs; [by apply bind_Some in Hr as (? & _ & ?)|].
      case_bool_decide; [|done]. simplify_eq. apply (f_equal length) in Hcs. rewrite length_drop in Hcs. cbn in *. lia.
    - destruct r as [[[opt v] cs] rest]. by eapply short_step_valid. }
  rewrite bind_Ret. assert (Sop_ p = 0%nat) as H0 by lia.
  case_bool_decide as Hopt; cbn [negb].
  - case_bool_decide as Hdd.
    + case_bool_decide; [|apply Hend; lia].
      destruct (Nat.eqb_spec (ArgPos_ p + 1) (Argc_ p)) as [|Hne1]; [apply Hend; lia|].
      destruct (lookup_lt_is_Some_2 (Argv_ p) (ArgPos_ p + 1)) as [arg1 Harg1]; [unfold Argc_ in *; lia|].
      rewrite (arg_at_Some _ _ _ Harg1), bind_Ret. right. eexists true, _. split; [done|].
      eapply Commit_None_steps; [done|done|lia].
    + destruct (ArgPermutation_ o); [by apply Hend| |right; destruct p; apply Hfree].
      by apply ParseWithPermutation_ok.
  - pose proof (ParseOptArg_spec (ArgPos_ p) p arg Harg Hopt) as Hstep.
    destruct (opt_step arg _) as [r|] eqn:Hr; [|left; by apply is_throw_bind].
    destruct Hstep as (q & -> & Hq). right. eexists true, q. split; [done|].
    eapply (committed_steps p _ 0); [exact Hq|exact Harg| |exact (committed_sop _ _ _ _ _ Hq)| |unfold remaining; lia].
    + pose proof (IsOpt_length arg Hopt). lia.
    + destruct r as [[[opt v] cs] rest]. by eapply opt_step_valid.
Qed.

(** What the loop of [Next] keeps, and how many passes it has left at most. *)
Definition good_parser (p : TOptsParser) : Prop :=
  good_pos p ∧ Forall valid_ptr (OptsDefault_ p) ∧ (Stopped_ p = false → OptsDefault_ p = []).
Definition passes (p : TOptsParser) : nat :=
  if Stopped_ p then 1 + length (OptsDefault_ p) else 2 + remaining p + length (Opts_ o).

Lemma unseen_spec seen x : x ∈ unseen seen ↔ valid_ptr x ∧ x.1 ∉ seen.
Proof.
  unfold unseen, valid_ptr. rewrite list_elem_of_filter, elem_of_lookup_imap. destruct x as [i opt]. cbn. naive_solver.
Qed.

Lemma length_filter_le {A} (P : A → Prop) `{∀ x, Decision (P x)} (l : list A) : (length (filter P l) ≤ length l)%nat.
Proof. induction l as [|x l IH]; [done|]. rewrite filter_cons. case_decide; cbn; lia. Qed.

Lemma length_unseen seen : (length (unseen seen) ≤ length (Opts_ o))%nat.
Proof. unfold unseen. etransitivity; [apply length_filter_le|]. by rewrite length_imap. Qed.

Lemma Finish_ok p : OptsDefault_ p = [] →
  is_throw (Finish p) ∨ ∃ q, Finish p = Ret q ∧ Argv_ q = Argv_ p ∧ ArgPos_ q = ArgPos_ p ∧ Sop_ q = Sop_ p ∧
    Stopped_ q = Stopped_ p ∧ Forall valid_ptr (OptsDefault_ q) ∧ (length (OptsDefault_ q) ≤ length (Opts_ o))%nat.
Proof.
  intros Hd. unfold Finish. destruct (_ =? _).
  - right. exists p. rewrite Hd. split_and!; try done. cbn. lia.
  - set (defaults := filter _ (unseen _)). destruct (ensure _ _) as [[]|f] eqn:He.
    + right. eexists. split; [done|]. cbn. rewrite Hd. cbn. split_and!; try done.
      * apply Forall_forall. intros x Hx. apply list_elem_of_filter in Hx as [_ Hx]. by apply unseen_spec in Hx as [? _].
      * etransitivity; [apply length_filter_le|apply length_unseen].
    + left. unfold ensure in He. destruct (bool_decide _); [done|]. injection He as <-. by eexists.
Qed.

Lemma advance_ok p : good_parser p →
  is_throw (advance p) ∨ ∃ b q, advance p = Ret (b, q) ∧ good_parser q ∧
    (b = true → (passes q < passes p)%nat ∧ ∀ x, CurrentOpt_ q = Some x → valid_ptr x).
Proof.
  intros (Hg & Hv & Hst). unfold advance. case_bool_decide as Hd.
  - cbv zeta. cbn [set_current Stopped_]. destruct (Stopped_ p) eqn:Hs.
    + rewrite bind_Ret. cbn. rewrite Hd. right. eexists false, _. split; [done|]. split; [|done].
      split; [exact Hg|]. by split.
    + set (p1 := set_current None None false (OptsDefault_ p) p).
      assert (good_pos p1) as Hg1 by exact Hg.
      destruct (DoNext_ok p1 Hg1) as [Ht|(b & q & -> & Hq & Hdq & Hsq & Hb)]; [left; by do 2 apply is_throw_bind|].
      rewrite bind_Ret. cbn [fst snd]. change (OptsDefault_ p1) with (OptsDefault_ p) in Hdq. change (Stopped_ p1) with false in Hsq.
      destruct b.
      * rewrite bind_Ret, Hdq, Hd. right. eexists true, _. split; [done|]. split.
        -- split; [done|]. by rewrite Hdq, Hd.
        -- intros _. destruct (Hb eq_refl) as [Hr Hx]. split; [|done]. unfold passes. rewrite Hs, Hsq.
           change (remaining p1) with (remaining p) in Hr. lia.
      * destruct (Finish_ok (set_current (CurrentOpt_ q) (CurrentValue_ q) true (OptsDefault_ q) q)) as
          [Ht|(q' & -> & Ha & Hp & Hso & Hst' & Hvd & Hl)]; [cbn; by rewrite Hdq|left; by do 2 apply is_throw_bind|].
        rewrite !bind_Ret. cbn in Ha, Hp, Hso, Hst'.
        assert (good_pos q') as Hgq.
        { unfold good_pos, Argc_ in *. by rewrite Ha, Hp, Hso. }
        destruct (OptsDefault_ q') as [|x defaults] eqn:Hdd.
        -- right. eexists false, _. split; [done|]. split; [|done]. split; [done|]. split; [by rewrite Hdd|done].
        -- right. eexists true, _. split; [done|]. apply Forall_cons_1 in Hvd as [Hvx Hvd]. split.
           ++ split; [exact Hgq|]. cbn. rewrite Hst'. done.
           ++ intros _. cbn. split; [|intros y [= <-]; done]. unfold passes. rewrite Hs. cbn. rewrite Hst'.
              cbn in Hl. lia.
  - rewrite bind_Ret. assert (Stopped_ p = true) as Hs by (destruct (Stopped_ p); [done|by rewrite Hst in Hd]).
    destruct (OptsDefault_ p) as [|x defaults] eqn:Hdd; [done|]. apply Forall_cons_1 in Hv as [Hvx Hv].
    right. eexists true, _. split; [done|]. split; [split; [exact Hg|]; cbn; split; [done|by rewrite Hs]|].
    intros _. split; [|intros y [= <-]; done]. unfold passes. cbn. rewrite Hs, Hdd. cbn. lia.
Qed.

(** Handlers that return or throw. *)
Definition handlers_ok : Prop :=
  ∀ opt h cur s, opt ∈ Opts_ o → h ∈ Handlers_ opt → is_throw (h cur s) ∨ ∃ r, h cur s = Ret r.

Lemma fire_current_ok p s : handlers_ok → (∀ x, CurrentOpt_ p = Some x → valid_ptr x) →
  is_throw (fire_current p s) ∨ ∃ r, fire_current p s = Ret r.
Proof.
  intros Hh Hv. unfold fire_current. destruct (CurrentOpt_ p) as [[i opt]|]; [|right; eauto].
  assert (opt ∈ Opts_ o) as Hin by (eapply list_elem_of_lookup_2, (Hv (i, opt) eq_refl)).
  unfold FireHandlers. cbn [snd]. set (f := λ _ _, _).
  destruct (mfold_or_throw (λ _ _, True) True f (Handlers_ opt) (inl s)) as [(r & Hr & _)|[Ht _]]; [done| |right; eauto|by left].
  intros done0 h rest [s'|code] Heq _; cbn; [|left; eauto].
  destruct (Hh opt h (CurValOrDef opt (CurrentValue_ p)) s' Hin) as [|[r ->]]; [rewrite Heq; set_solver|by right|left; eauto].
Qed.

Lemma parse_loop_ok fuel p s : handlers_ok → good_parser p → (passes p ≤ fuel)%nat →
  is_throw (parse_loop fuel p s) ∨ ∃ r, parse_loop fuel p s = Ret r.
Proof.
  intros Hh. revert p s. induction fuel as [|fuel IH]; intros p s Hg Hf.
  { unfold passes in Hf. destruct (Stopped_ p); lia. }
  cbn [parse_loop]. destruct (advance_ok p Hg) as [|(b & q & -> & Hq & Hb)]; [left; by apply is_throw_bind|].
  rewrite bind_Ret. cbn [fst snd]. destruct b; [|right; eauto]. destruct (Hb eq_refl) as [Hlt Hv].
  destruct (fire_current_ok q s Hh Hv) as [|[r ->]]; [left; by apply is_throw_bind|]. rewrite bind_Ret.
  destruct r as [s'|code]; [apply IH; [done|lia]|right; eauto].
Qed.

Lemma parser_init_ok argv p : parser_init argv = Ret p →
  argv ≠ [] ∧ p = Build_TOptsParser argv 1 0 false false None None ∅ [] ∧ good_parser p ∧ (passes p ≤ parse_fuel argv)%nat.
Proof.
  unfold parser_init. case_bool_decide as Ha; [done|]. cbn. intros [= <-]. split; [done|]. split; [done|]. split.
  - split; [|done]. split; cbn; [|lia]. destruct argv; [done|]. unfold Argc_. cbn. lia.
  - unfold passes, parse_fuel, remaining. cbn [Stopped_ ArgPos_ Argv_ Sop_].
    pose proof (sum_drop_le argv 0 1 ltac:(lia)) as H. rewrite drop_0 in H. unfold chars in *. lia.
Qed.

(** ** Command lines *)

(** The grammar of the arguments of a program that permutes them: the options given, and
    the free arguments, after the free arguments [frees] already passed.  Once there is
    one, the argument ["--"] is a free argument as well. *)
Inductive command_line : list TString → list TString → list event → list TString → Prop :=
| cl_end frees : command_line frees [] [] frees
| cl_dashes rest : command_line [] (STRINGBUF "--" :: rest) [] rest
| cl_free frees a rest evs free :
    IsOpt a = EIO_NONE → frees ≠ [] ∨ a ≠ STRINGBUF "--" →
    command_line (frees ++ [a]) rest evs free → command_line frees (a :: rest) evs free
| cl_option frees a rest evs rest' evs' free :
    IsOpt a ≠ EIO_NONE → opt_events a rest = Some (evs, rest') →
    command_line frees rest' evs' free → command_line frees (a :: rest) (evs ++ evs') free.

(** How many free arguments the program takes. *)
Definition free_ok (n : nat) : bool := (FreeArgsMin_ o <=? Z.of_nat n) && (Z.of_nat n <=? FreeArgsMax_ o).

(** The calls for the options that were not given, unless one of them is required. *)
Definition default_events (seen : gset nat) : option (list event) :=
  if Z.of_nat (length (Opts_ o)) =? Z.of_nat (size seen) then Some []
  else if bool_decide (filter (λ x : opt_ptr, Required_ x.2 && reportable x.2 = true) (unseen seen) = [])
  then Some ((λ x, (x, DefaultValue_ x.2)) <$>
               filter (λ x : opt_ptr, negb (Required_ x.2) && HasDefaultValue x.2 = true) (unseen seen))
  else None.

(** The handlers of some options, in order, until one exits. *)
Definition run_events (evs : list event) (s : S) : outcome (S + Z) :=
  mfold (λ r (e : event), match r with inl s => FireHandlers e.1.2 e.2 s | inr code => Ret (inr code) end) (inl s) evs.

Lemma run_events_exit evs code :
  mfold (λ r (e : event), match r with inl s => FireHandlers e.1.2 e.2 s | inr code => Ret (inr code) end) (inr code) evs
    = Ret (inr code).
Proof. induction evs; [done|]. cbn. done. Qed.

Lemma run_events_cons e evs s s' : run_events (e :: evs) s = Ret (inl s') ↔
  ∃ s1, FireHandlers e.1.2 e.2 s = Ret (inl s1) ∧ run_events evs s1 = Ret (inl s').
Proof.
  unfold run_events. cbn. destruct (FireHandlers e.1.2 e.2 s) as [[s1|code]|f]; cbn.
  - naive_solver.
  - rewrite run_events_exit. naive_solver.
  - naive_solver.
Qed.

Lemma no_options_prefix F G R : Forall (λ a, IsOpt a = EIO_NONE) G → head (F ++ G) ≠ Some (STRINGBUF "--") → ∀ evs free,
  command_line F (G ++ R) evs free ↔ command_line (F ++ G) R evs free.
Proof.
  intros HG. revert F. induction HG as [|a G Ha _ IH]; intros F Hh evs free; [by rewrite app_nil_r|].
  assert (F ++ a :: G = (F ++ [a]) ++ G) as Heq by (by rewrite <- app_assoc). rewrite Heq in *.
  rewrite <- IH by done. split.
  - intros Hc. inversion Hc; subst; [by destruct Hh|done|done].
  - intros Hc. apply cl_free; [done| |done]. destruct F; [right|by left]. intros ->. by apply Hh.
Qed.

Lemma command_line_option frees a rest evs free : IsOpt a ≠ EIO_NONE →
  command_line frees (a :: rest) evs free ↔
  ∃ evs1 rest' evs2, opt_events a rest = Some (evs1, rest') ∧ command_line frees rest' evs2 free ∧ evs = evs1 ++ evs2.
Proof.
  intros Ha. split.
  - intros Hc. inversion Hc; subst; [done|done|]. eauto 6.
  - intros (evs1 & rest' & evs2 & Ho & Hc & ->). by eapply cl_option.
Qed.

Lemma command_line_nil frees evs free : command_line frees [] evs free ↔ evs = [] ∧ free = frees.
Proof. split; [intros Hc; by inversion Hc|intros [-> ->]; apply cl_end]. Qed.

Lemma command_line_dashes rest evs free :
  command_line [] (STRINGBUF "--" :: rest) evs free ↔ evs = [] ∧ free = rest.
Proof.
  split; [|intros [-> ->]; apply cl_dashes].
  intros Hc. inversion Hc; subst; [done|naive_solver|]. done.
Qed.

(** *** Options take their values from the arguments behind them *)

Section NoOptional.
Hypothesis no_optional : ∀ opt, opt ∈ Opts_ o → HasArg_ opt ≠ OPTIONAL_ARGUMENT.

Lemma opt_param_frame x rest v rest' : valid_ptr x → opt_param x rest = Some (v, rest') →
  ∃ taken, rest = taken ++ rest' ∧ ∀ X, opt_param x (taken ++ X) = Some (v, X).
Proof using no_optional.
  intros Hx. apply list_elem_of_lookup_2, no_optional in Hx. unfold opt_param.
  case_bool_decide as Hno; [intros [= <- <-]; by exists []|].
  assert (HasArg_ x.2 = REQUIRED_ARGUMENT) as Hreq by (by destruct (HasArg_ x.2)).
  rewrite (bool_decide_true (HasArg_ x.2 = REQUIRED_ARGUMENT)) by done.
  destruct rest as [|a rest]; [done|]. rewrite orb_true_r. intros [= <- <-]. exists [a]. split; [done|].
  intros X. cbn. by rewrite orb_true_r.
Qed.

Lemma short_step_frame cs rest x v cs' rest' : short_step cs rest = Some (x, v, cs', rest') →
  ∃ taken, rest = taken ++ rest' ∧ ∀ X, short_step cs (taken ++ X) = Some (x, v, cs', X).
Proof using no_optional.
  destruct cs as [|c cs]; [done|]. cbn [short_step]. destruct (FindCharOption o c) as [y|] eqn:Hf; [|done].
  apply FindCharOption_valid in Hf as [Hv _]. cbn. destruct cs as [|c' cs].
  - destruct (opt_param y rest) as [[v1 r1]|] eqn:Hp; [|done]. cbn. intros. simplify_eq.
    destruct (opt_param_frame _ _ _ _ Hv Hp) as (taken & -> & HX). exists taken. split; [done|]. intros X. by rewrite HX.
  - case_bool_decide; intros; simplify_eq; by exists [].
Qed.

Lemma opt_step_frame a rest x v cs' rest' : opt_step a rest = Some (x, v, cs', rest') →
  ∃ taken, rest = taken ++ rest' ∧ ∀ X, opt_step a (taken ++ X) = Some (x, v, cs', X).
Proof using no_optional.
  unfold opt_step, long_step. destruct (is_long _); [|apply short_step_frame].
  destruct (NextTok _ _) as [name value]. cbn. destruct (FindLongOption _ _) as [y|] eqn:Hf.
  - apply FindLongOption_valid in Hf as [Hv _]. destruct value.
    + case_bool_decide; [done|]. intros; simplify_eq; by exists [].
    + destruct (opt_param y rest) as [[v1 r1]|] eqn:Hp; [|done]. cbn. intros. simplify_eq.
      destruct (opt_param_frame _ _ _ _ Hv Hp) as (taken & -> & HX). exists taken. split; [done|]. intros X. by rewrite HX.
  - destruct value; [done|]. destruct (negb _); [apply short_step_frame|done].
Qed.

Lemma short_events_frame cs rest evs rest' : short_events cs rest = Some (evs, rest') →
  ∃ taken, rest = taken ++ rest' ∧ ∀ X, short_events cs (taken ++ X) = Some (evs, X).
Proof using no_optional.
  revert evs rest. induction cs as [|c cs IH]; intros evs rest; [intros [= <- <-]; by exists []|].
  cbn [short_events]. destruct (FindCharOption o c) as [y|] eqn:Hf; [|done].
  apply FindCharOption_valid in Hf as [Hv _]. cbn [mbind option_bind]. destruct cs as [|c' cs].
  - destruct (opt_param y rest) as [[v1 r1]|] eqn:Hp; [|done]. cbn. intros. simplify_eq.
    destruct (opt_param_frame _ _ _ _ Hv Hp) as (taken & -> & HX). exists taken. split; [done|]. intros X. by rewrite HX.
  - case_bool_decide; [|intros; simplify_eq; by exists []].
    destruct (short_events (c' :: cs) rest) as [[evs1 r1]|] eqn:Hp; [|done]. cbn [fst snd mbind option_bind]. intros. simplify_eq.
    destruct (IH _ _ Hp) as (taken & -> & HX). exists taken. split; [done|]. intros X. by rewrite HX.
Qed.

(** *** The parser follows the grammar *)

Hypothesis permutes : ArgPermutation_ o = PERMUTE.

(** The options left in the argument the parser is in, and the arguments after them. *)
Definition pending (p : TOptsParser) : option (list event * list TString) :=
  if (Sop_ p =? 0)%nat then Some ([], drop (ArgPos_ p) (Argv_ p))
  else short_events (drop (Sop_ p) (Argv_ p !!! ArgPos_ p)) (drop (ArgPos_ p + 1) (Argv_ p)).

(** The free arguments the parser has rotated behind the options. *)
Definition frees_ok (F : list TString) : Prop :=
  Forall (λ a, IsOpt a = EIO_NONE) F ∧ head F ≠ Some (STRINGBUF "--").

Definition follows (p : TOptsParser) (F : list TString) : Prop :=
  good_pos p ∧ Z.of_nat (Argc_ p) < 2 ^ 64 ∧ frees_ok F ∧
  ∀ evs rest, pending p = Some (evs, rest) → ∃ rest', rest = F ++ rest'.

(** The options and the free arguments a parser has ahead of it. *)
Definition tail_of (p : TOptsParser) (F : list TString) (evs : list event) (free : list TString) : Prop :=
  ∃ evs1 rest evs2, pending p = Some (evs1, F ++ rest) ∧ command_line F rest evs2 free ∧ evs = evs1 ++ evs2.

Lemma committed_pending p pos arg opt v cs rest q : committed p pos arg (opt, v, cs, rest) q →
  Argv_ p !! pos = Some arg → pending q = short_events cs rest.
Proof using Type.
  intros (pos' & sop' & -> & Hq) Harg. unfold pending. cbn [Commit Sop_ ArgPos_ Argv_]. destruct cs as [|c cs].
  - cbn in Hq. destruct Hq as (-> & _ & _ & <-). done.
  - rewrite bool_decide_false in Hq by done. destruct Hq as (-> & Hs & <- & ->).
    rewrite (proj2 (Nat.eqb_neq sop' 0)) by lia. by rewrite (list_lookup_total_correct _ _ _ Harg).
Qed.

Lemma CommitEndOfOptions_spec pos p : (pos ≤ Argc_ p)%nat → Z.of_nat (Argc_ p) < 2 ^ 64 →
  if free_ok (Argc_ p - pos) then ∃ q, CommitEndOfOptions pos p = Ret (false, q) ∧ OptsSeen_ q = OptsSeen_ p ∧ OptsDefault_ q = OptsDefault_ p
  else is_throw (CommitEndOfOptions pos p).
Proof using Type.
  intros Hpos Hn. unfold CommitEndOfOptions, free_ok. rewrite u64_small by lia.
  replace (Z.of_nat (Argc_ p) - Z.of_nat pos) with (Z.of_nat (Argc_ p - pos)) by lia.
  set (n := Z.of_nat (Argc_ p - pos)).
  destruct (Z.eqb_spec (FreeArgsMin_ o) (FreeArgsMax_ o)), (Z.eqb_spec n (FreeArgsMin_ o)),
    (Z.ltb_spec n (FreeArgsMin_ o)), (Z.ltb_spec (FreeArgsMax_ o) n), (Z.leb_spec (FreeArgsMin_ o) n), (Z.leb_spec n (FreeArgsMax_ o));
    cbn; try lia; try (by eexists); by eexists.
Qed.

(** A pass of [DoNext] that ends, or takes an option, as the grammar says. *)
Inductive next_result (p : TOptsParser) (F : list TString) : outcome (bool * TOptsParser) → Prop :=
| next_throws f :
    (∀ evs free, tail_of p F evs free → free_ok (length free) = false) →
    next_result p F (Fail (Throw f))
| next_ends q free0 :
    OptsSeen_ q = OptsSeen_ p → OptsDefault_ q = OptsDefault_ p → free_ok (length free0) = true →
    (∀ evs free, tail_of p F evs free ↔ evs = [] ∧ free = free0) →
    next_result p F (Ret (false, q))
| next_option q F' x :
    CurrentOpt_ q = Some x → follows q F' →
    (∀ evs free, tail_of p F evs free ↔ ∃ evs', evs = (x, CurrentValue_ q) :: evs' ∧ tail_of q F' evs' free) →
    (∀ evs free, tail_of q F' evs free → OptsSeen_ q ∪ ptrs evs = OptsSeen_ p ∪ ptrs ((x, CurrentValue_ q) :: evs)) →
    next_result p F (Ret (true, q)).

Lemma next_result_throws p F r : is_throw r →
  (∀ evs free, tail_of p F evs free → free_ok (length free) = false) → next_result p F r.
Proof using Type. intros [e ->]. by constructor. Qed.

Lemma next_result_end p F pos free0 : (pos ≤ Argc_ p)%nat → Z.of_nat (Argc_ p) < 2 ^ 64 →
  length free0 = (Argc_ p - pos)%nat →
  (∀ evs free, tail_of p F evs free ↔ evs = [] ∧ free = free0) → next_result p F (CommitEndOfOptions pos p).
Proof using Type.
  intros Hpos Hn Hlen Ht. pose proof (CommitEndOfOptions_spec pos p Hpos Hn) as Hc. rewrite <- Hlen in Hc.
  destruct (free_ok (length free0)) eqn:Hf.
  - destruct Hc as (q & -> & Hs & Hd). by eapply next_ends.
  - apply next_result_throws; [done|]. intros evs free [_ ->]%Ht. done.
Qed.

(** An option taken from the argument at the position [pos] of a state [p'] that has the
    same tail as [p]. *)
Lemma next_result_committed p p' F F' pos arg r q :
  committed p' pos arg r q → Argv_ p' !! pos = Some arg → (r.1.2 = [] ∨ 0 < Sop_ q)%nat →
  Z.of_nat (Argc_ p') < 2 ^ 64 → frees_ok F' → good_pos q →
  (∀ evs rest, short_events r.1.2 r.2 = Some (evs, rest) → ∃ rest', rest = F' ++ rest') →
  (∀ evs free, tail_of p F evs free ↔
     ∃ evs1 rest evs2, short_events r.1.2 r.2 = Some (evs1, F' ++ rest) ∧ command_line F' rest evs2 free ∧
       evs = r.1.1 :: evs1 ++ evs2) →
  (∀ evs1 rest, short_events r.1.2 r.2 = Some (evs1, rest) →
     {[ r.1.1.1.1 ]} ∪ OptsSeen_ p' ∪ ptrs evs1 = {[ r.1.1.1.1 ]} ∪ OptsSeen_ p ∪ ptrs evs1) →
  next_result p F (Ret (true, q)).
Proof using Type.
  destruct r as [[[x v] cs] rest]. intros Hc Harg Hs Hn HF Hg Hsplit Ht Hseen. cbn [fst snd] in *.
  pose proof (committed_pending _ _ _ _ _ _ _ _ Hc Harg) as Hp.
  destruct Hc as (pos' & sop' & Hq & _). assert (CurrentValue_ q = v) as Hv by (by rewrite Hq).
  apply (next_option p F q F' x).
  - by rewrite Hq.
  - split; [done|]. split; [by rewrite Hq|]. split; [done|]. rewrite Hp. exact Hsplit.
  - intros evs free. rewrite Ht, Hv. unfold tail_of. rewrite Hp. split.
    + intros (evs1 & rest1 & evs2 & H1 & H2 & ->). eexists. split; [done|]. eauto 6.
    + intros (evs' & -> & evs1 & rest1 & evs2 & H1 & H2 & ->). eauto 6.
  - intros evs free (evs1 & rest1 & evs2 & H1 & H2 & ->). rewrite Hp in H1. apply Hseen in H1.
    rewrite Hq. destruct x as [i opt]. cbn [Commit OptsSeen_ fst snd] in *. exact (ptrs_shift _ _ (i, opt) _ evs1 evs2 H1).
Qed.

Lemma opt_events_step arg rest x v cs rest1 : opt_step arg rest = Some (x, v, cs, rest1) →
  opt_events arg rest = (r ← short_events cs rest1; Some ((x, v) :: r.1, r.2)).
Proof using Type. unfold opt_events. by intros ->. Qed.

(** [ParseWithPermutation] on free arguments [frees] before an option: the option is
    parsed at its place, the rotation brings it to the front, and it is parsed again. *)
Lemma ParseWithPermutation_spec p F rest : good_pos p → Z.of_nat (Argc_ p) < 2 ^ 64 → Sop_ p = 0%nat →
  frees_ok F → drop (ArgPos_ p) (Argv_ p) = F ++ rest →
  frees_ok (take (count_non_args (drop (ArgPos_ p) (Argv_ p))) (drop (ArgPos_ p) (Argv_ p))) →
  next_result p F (ParseWithPermutation p).
Proof using no_optional permutes.
  intros [Hpos _] Hn Hsop HF Hdrop Hfrees. unfold ParseWithPermutation. set (pc := (_ + _)%nat).
  destruct (count_non_args_spec (drop (ArgPos_ p) (Argv_ p))) as (R & Heq & Hnone & Hle & HR).
  rewrite length_drop in Hle, HR. unfold Argc_ in Hpos.
  set (frees := take _ _) in *.
  assert (length frees = count_non_args (drop (ArgPos_ p) (Argv_ p))) as Hlf.
  { unfold frees. rewrite length_take, length_drop. lia. }
  (* the free arguments passed are the first of them *)
  assert (∃ G, frees = F ++ G ∧ rest = G ++ R) as (G & HG & Hrest).
  { rewrite Hdrop in Heq at 1. apply app_eq_inv in Heq as [(G & HFG & HRG)|(G & HFG & ->)]; [|by exists G].
    destruct G as [|a G]; [exists []; rewrite app_nil_r in HFG |- *; by cbn in HRG; subst R|].
    exfalso. subst R. cbn in HR. apply HR.
    destruct HF as [HF _]. rewrite HFG in HF. apply Forall_app in HF as [_ HF]. by apply Forall_cons_1 in HF as [? _]. }
  assert (∀ evs free, tail_of p F evs free ↔ command_line frees R evs free) as Htail.
  { intros evs free. rewrite HG. rewrite <- no_options_prefix.
    2: { destruct Hfrees as [Hf _]. rewrite HG in Hf. by apply Forall_app in Hf as [_ ?]. }
    2: { rewrite <- HG. apply Hfrees. }
    unfold tail_of, pending. rewrite Hsop, Hdrop. cbn. split.
    - intros (evs1 & rest1 & evs2 & [= <- Hr1] & Hc & ->). apply app_inv_head in Hr1. subst rest1 rest. done.
    - intros Hc. exists [], rest, evs. by rewrite Hrest. }
  destruct R as [|arg R].
  - assert (pc = Argc_ p) as -> by (unfold pc, Argc_; lia). rewrite Nat.eqb_refl.
    apply (next_result_end p F (ArgPos_ p) frees); [done|done|unfold Argc_; lia|].
    intros evs free. rewrite Htail. apply command_line_nil.
  - assert (drop pc (Argv_ p) = arg :: R) as Hpc.
    { unfold pc. rewrite <- drop_drop. rewrite Heq at 2. by rewrite drop_app_length'. }
    assert (Argv_ p !! pc = Some arg) as Harg by (by rewrite <- (Nat.add_0_r pc), <- lookup_drop, Hpc).
    pose proof (lookup_lt_Some _ _ _ Harg) as Hlt. rewrite (proj2 (Nat.eqb_neq pc (Argc_ p))) by (unfold Argc_; lia).
    assert (drop (pc + 1) (Argv_ p) = R) as HdR by (by rewrite <- drop_drop, Hpc).
    assert (∀ evs free, tail_of p F evs free ↔ ∃ evs1 rest' evs2, opt_events arg R = Some (evs1, rest') ∧
      command_line frees rest' evs2 free ∧ evs = evs1 ++ evs2) as Htail'.
    { intros evs free. rewrite Htail. by apply command_line_option. }
    pose proof (ParseOptArg_spec pc (with_pos p pc) arg Harg HR) as H1. cbn [Argv_ with_pos] in H1. rewrite HdR in H1.
    destruct (opt_step arg R) as [[[[x v] cs] rest1]|] eqn:Hstep.
    2: { apply next_result_throws; [by apply is_throw_bind|]. intros evs free (? & ? & ? & Ho & _)%Htail'.
         unfold opt_events in Ho. by rewrite Hstep in Ho. }
    destruct H1 as (q1 & -> & Hc1). rewrite bind_Ret. rewrite (arg_at_Some q1 pc arg), bind_Ret.
    2: { by destruct Hc1 as (? & ? & -> & _). }
    pose proof (committed_length _ _ _ _ _ Hc1) as Hfuel.
    pose proof (permutation_loop_spec (length arg) pc arg (with_pos p pc) q1 _ Harg Hc1 Hfuel) as H2. cbn [fst snd] in H2.
    pose proof (opt_events_step _ _ _ _ _ _ Hstep) as Hoe.
    destruct (short_events cs rest1) as [[evs1 rest']|] eqn:Hev.
    2: { apply next_result_throws; [by apply is_throw_bind|]. intros evs free (? & ? & ? & Ho & _)%Htail'.
         by rewrite Hoe in Ho. }
    destruct H2 as (q2 & -> & (Ha2 & Hst2 & Hgm2 & Hdf2) & _ & Hpos2 & Hle2 & Hd2 & Hseen2). rewrite bind_Ret.
    cbn [Argv_ with_pos Stopped_ OptsDefault_ mbind option_bind fst snd] in *. rewrite Ha2.
    rewrite <- HdR in Hoe.
    destruct (rotated_option p arg ((x, v) :: evs1) rest' pc (ArgPos_ q2) eq_refl Harg Hoe) as (mid & Hmid & _ & Hrot & Hlen & _);
      [exact (conj (proj1 Hpos2) Hle2)|done|].
    set (argv := memrotate _ _ _ _) in *. set (p3 := with_argv q2 argv). fold frees in Hrot.
    assert (Argv_ p3 !! ArgPos_ p = Some arg) as Harg3.
    { change (Argv_ p3) with argv. by rewrite <- (Nat.add_0_r (ArgPos_ p)), <- lookup_drop, Hrot. }
    destruct (opt_step_frame _ _ _ _ _ _ Hstep) as (t1 & Ht1 & HX1).
    destruct (short_events_frame _ _ _ _ Hev) as (t2 & Ht2 & HX2).
    assert (mid = t1 ++ t2) as ->.
    { rewrite HdR, Ht1, Ht2, app_assoc in Hmid. by apply app_inv_tail in Hmid. }
    pose proof (ParseOptArg_spec (ArgPos_ p) p3 arg Harg3 HR) as H3.
    assert (drop (ArgPos_ p + 1) (Argv_ p3) = t1 ++ t2 ++ frees ++ rest') as Hd3.
    { change (Argv_ p3) with argv. rewrite <- drop_drop, Hrot. cbn. by rewrite <- app_assoc. }
    rewrite Hd3, HX1 in H3. destruct H3 as (q3 & -> & Hc3). rewrite bind_Ret.
    destruct (committed_progress p3 (ArgPos_ p) 0 arg _ q3 Hc3 Harg3) as (_ & Hg & _).
    { pose proof (IsOpt_length arg HR). lia. }
    { exact (committed_sop _ _ _ _ _ Hc3). }
    eapply (next_result_committed p p3 F frees); [exact Hc3|exact Harg3|exact (committed_sop _ _ _ _ _ Hc3)| |done|done|..]; cbn [fst snd].
    + unfold Argc_. change (Argv_ p3) with argv. by rewrite Hlen.
    + intros evs rest2. rewrite HX2. intros [= <- <-]. by eexists.
    + intros evs free. rewrite Htail'. rewrite <- HdR, Hoe, HX2. split.
      * intros (? & ? & evs2 & [= <- <-] & Hc & ->). by exists evs1, rest', evs2.
      * intros (? & ? & evs2 & [= <- Hr] & Hc & ->). apply app_inv_head in Hr. subst.
        by eexists _, _, evs2.
    + intros evs rest2. rewrite HX2. intros [= <- <-]. change (OptsSeen_ p3) with (OptsSeen_ q2). rewrite Hseen2.
      destruct Hc1 as (? & ? & -> & _). destruct x as [i opt]. cbn. set_solver.
Qed.

Lemma DoNext_spec p F : follows p F → next_result p F (DoNext p).
Proof using no_optional permutes.
  intros (Hg & Hn & HF & Hpend). pose proof Hg as [Hpos Hsop]. unfold DoNext. rewrite permutes.
  destruct (Nat.eqb_spec (ArgPos_ p) (Argc_ p)) as [Hend|Hne].
  { apply (next_result_end p F (ArgPos_ p) []); [done|done|cbn; lia|]. intros evs free.
    assert (Sop_ p = 0%nat) as H0.
    { destruct (Nat.eq_0_gt_0_cases (Sop_ p)) as [|Hs]; [done|]. destruct (Hsop Hs) as (? & Hl%lookup_lt_Some & _).
      unfold Argc_ in Hend. lia. }
    unfold tail_of, pending in *. rewrite H0 in *. cbn in *. unfold Argc_ in Hend. rewrite Hend, drop_ge in * by done.
    destruct (Hpend _ _ eq_refl) as (rest' & [-> ->]%eq_sym%app_nil). cbn. split.
    - intros (evs1 & rest & evs2 & [= <- <-] & Hc & ->). by apply command_line_nil in Hc.
    - intros [-> ->]. exists [], [], []. split_and!; [done|apply cl_end|done]. }
  destruct (lookup_lt_is_Some_2 (Argv_ p) (ArgPos_ p)) as [arg Harg]; [unfold Argc_ in *; lia|].
  rewrite (bool_decide_false (PERMUTE = RETURN_IN_ORDER)), andb_false_r by done.
  destruct (Nat.ltb_spec 0 (Sop_ p)) as [Hs|Hs].
  - destruct (Hsop Hs) as (arg' & Harg' & Hlt). rewrite Harg in Harg'. injection Harg' as <-.
    assert (pending p = short_events (drop (Sop_ p) arg) (drop (ArgPos_ p + 1) (Argv_ p))) as Hp.
    { unfold pending. rewrite (proj2 (Nat.eqb_neq (Sop_ p) 0)) by lia. by rewrite (list_lookup_total_correct _ _ _ Harg). }
    rewrite short_events_step in Hp by (intros Hnil; apply (f_equal length) in Hnil; rewrite length_drop in Hnil; cbn in Hnil; lia).
    pose proof (ParseShortOptWithinArg_spec _ _ p _ Harg Hlt) as Hstep.
    destruct (short_step _ _) as [[[[x v] cs] rest1]|] eqn:Hr.
    2: { apply next_result_throws; [by apply is_throw_bind|]. intros evs free (? & ? & ? & Ho & _). by rewrite Hp in Ho. }
    destruct Hstep as (q & -> & Hq). rewrite bind_Ret. cbn [mbind option_bind] in Hp.
    destruct (committed_progress p (ArgPos_ p) 0 arg _ q Hq Harg) as (_ & Hgq & _);
      [lia|exact (committed_sop _ _ _ _ _ Hq)|].
    eapply (next_result_committed p p F F); [exact Hq|exact Harg|exact (committed_sop _ _ _ _ _ Hq)|done|done|done|..]; cbn [fst snd].
    + intros evs rest2 Hev. rewrite Hev in Hp. cbn in Hp. by apply (Hpend _ _ Hp).
    + intros evs free. unfold tail_of. rewrite Hp. destruct (short_events cs rest1) as [[evs1 rest2]|]; cbn; [|naive_solver].
      split.
      * intros (? & ? & evs2 & [= <- ->] & Hc & ->). eexists evs1, _, evs2. done.
      * intros (? & ? & evs2 & [= -> ->] & Hc & ->). eexists _, _, evs2. done.
    + done.
  - assert (Sop_ p = 0%nat) as H0 by lia. rewrite (arg_at_Some _ _ _ Harg), bind_Ret.
    unfold pending in Hpend. rewrite H0 in Hpend. cbn in Hpend. destruct (Hpend _ _ eq_refl) as (rest & Hdrop).
    assert (∀ evs free, tail_of p F evs free ↔ command_line F rest evs free) as Htail.
    { intros evs free. unfold tail_of, pending. rewrite H0, Hdrop. cbn. split.
      - intros (? & ? & ? & [= <- Hr] & Hc & ->). apply app_inv_head in Hr. by subst.
      - intros Hc. by exists [], rest, evs. }
    pose proof (drop_S _ _ _ Harg) as HdS. rewrite Hdrop in HdS.
    case_bool_decide as Hopt; cbn [negb].
    + (* not an option *)
      case_bool_decide as Hdd.
      * destruct F as [|a F]; [|exfalso; destruct HF as [_ HF]; apply HF; injection HdS as -> _; by rewrite Hdd].
        cbn in HdS. subst rest arg.
        apply (next_result_end p [] (ArgPos_ p + 1) (drop (Datatypes.S (ArgPos_ p)) (Argv_ p)));
          [unfold Argc_ in *; lia|done|rewrite length_drop; unfold Argc_; lia|].
        intros evs free. rewrite Htail. apply command_line_dashes.
      * apply (ParseWithPermutation_spec p F rest); try done. rewrite (drop_S _ _ _ Harg). cbn [count_non_args].
        rewrite bool_decide_true by done. cbn [take]. split; [|by intros [= ->]].
        destruct (count_non_args_spec (drop (Datatypes.S (ArgPos_ p)) (Argv_ p))) as (? & _ & Hall & _). by constructor.
    + destruct F as [|a F].
      2: { exfalso. destruct HF as [HF _]. apply Forall_cons_1 in HF as [HF _]. apply Hopt. cbn in HdS. congruence. }
      cbn in HdS. subst rest.
      pose proof (ParseOptArg_spec (ArgPos_ p) p arg Harg Hopt) as Hstep. rewrite Nat.add_1_r in Hstep.
      assert (∀ evs free, tail_of p [] evs free ↔ ∃ evs1 rest' evs2,
        opt_events arg (drop (Datatypes.S (ArgPos_ p)) (Argv_ p)) = Some (evs1, rest') ∧
        command_line [] rest' evs2 free ∧ evs = evs1 ++ evs2) as Htail'.
      { intros evs free. rewrite Htail. by apply command_line_option. }
      destruct (opt_step arg _) as [[[[x v] cs] rest1]|] eqn:Hr.
      2: { apply next_result_throws; [by apply is_throw_bind|]. intros evs free (? & ? & ? & Ho & _)%Htail'.
           unfold opt_events in Ho. by rewrite Hr in Ho. }
      destruct Hstep as (q & -> & Hq). rewrite bind_Ret. pose proof (opt_events_step _ _ _ _ _ _ Hr) as Hoe.
      destruct (committed_progress p (ArgPos_ p) 0 arg _ q Hq Harg) as (_ & Hgq & _);
        [pose proof (IsOpt_length arg Hopt); lia|exact (committed_sop _ _ _ _ _ Hq)|].
      eapply (next_result_committed p p [] []); [exact Hq|exact Harg|exact (committed_sop _ _ _ _ _ Hq)|done|done|done|..]; cbn [fst snd].
      * intros evs rest2 _. by exists rest2.
      * intros evs free. rewrite Htail', Hoe. destruct (short_events cs rest1) as [[evs1 rest2]|]; cbn; [|naive_solver].
        split.
        -- intros (? & ? & evs2 & [= <- <-] & Hc & ->). by exists evs1, rest2, evs2.
        -- intros (? & ? & evs2 & [= <- <-] & Hc & ->). by eexists _, _, evs2.
      * done.
Qed.

(** The loop over the default values. *)
Lemma parse_loop_defaults fuel p s : Stopped_ p = true → (length (OptsDefault_ p) < fuel)%nat →
  parse_loop fuel p s = run_events ((λ x, (x, DefaultValue_ x.2)) <$> OptsDefault_ p) s.
Proof using Type.
  revert p s. induction fuel as [|fuel IH]; intros p s Hst Hf; [lia|]. cbn [parse_loop]. unfold advance.
  destruct (OptsDefault_ p) as [|x ds] eqn:Hd.
  - cbn. by rewrite Hst.
  - rewrite bool_decide_false by done. rewrite bind_Ret, Hd. cbn [negb]. rewrite bind_Ret. cbn [fst snd fmap list_fmap].
    unfold fire_current. cbn [set_current CurrentOpt_ CurrentValue_]. unfold run_events. cbn [mfold fst snd].
    destruct (FireHandlers x.2 (DefaultValue_ x.2) s) as [[s1|code]|f]; cbn [mbind outcome_bind]; [|by rewrite run_events_exit|done].
    rewrite IH; [done|done|]. cbn in *. lia.
Qed.

Lemma Finish_spec p : OptsDefault_ p = [] →
  match default_events (OptsSeen_ p) with
  | Some evs => ∃ q, Finish p = Ret q ∧ Stopped_ q = Stopped_ p ∧
      evs = (λ x, (x, DefaultValue_ x.2)) <$> OptsDefault_ q ∧ (length (OptsDefault_ q) ≤ length (Opts_ o))%nat
  | None => is_throw (Finish p)
  end.
Proof using Type.
  intros Hd. pose proof (Finish_ok p Hd) as Hok. unfold Finish, default_events in *. destruct (_ =? _).
  - exists p. rewrite Hd. split_and!; [done..|cbn; lia].
  - case_bool_decide as Hm; [|by eexists]. cbn in *. eexists. split; [done|]. cbn. rewrite Hd. cbn.
    split_and!; [done|done|]. destruct Hok as [[? ?]|(q & [= <-] & _ & _ & _ & _ & _ & Hl)]; [done|]. cbn in Hl. by rewrite Hd in Hl.
Qed.

(** The loop of the parser, from any position the grammar describes. *)
Lemma parse_loop_spec fuel p F s s' : follows p F → Stopped_ p = false → OptsDefault_ p = [] → (passes p ≤ fuel)%nat →
  parse_loop fuel p s = Ret (inl s') ↔
  ∃ evs free defs, tail_of p F evs free ∧ free_ok (length free) = true ∧
    default_events (OptsSeen_ p ∪ ptrs evs) = Some defs ∧ run_events (evs ++ defs) s = Ret (inl s').
Proof using no_optional permutes.
  revert p F s. induction fuel as [|fuel IH]; intros p F s Hp Hst Hd Hf.
  { unfold passes in Hf. rewrite Hst in Hf. lia. }
  cbn [parse_loop]. unfold advance. rewrite Hd, bool_decide_true by done. cbv zeta. cbn [set_current Stopped_]. rewrite Hst.
  set (p1 := set_current None None false [] p).
  pose proof (DoNext_spec p1 F Hp) as Hnext. pose proof (DoNext_ok p1 (proj1 Hp)) as Hok.
  destruct Hnext as [f Hbad|q free0 Hseen Hdq Hfree Htail|q F' x Hcur Hq Htail Hseen]; cbn [mbind outcome_bind fst snd].
  - split; [done|]. intros (evs & free & defs & Ht & Hfr & _). by rewrite (Hbad evs free Ht) in Hfr.
  - pose proof (Finish_spec (set_current (CurrentOpt_ q) (CurrentValue_ q) true (OptsDefault_ q) q) Hdq) as Hfin.
    cbn [set_current OptsSeen_ Stopped_] in Hfin. rewrite Hseen in Hfin. change (OptsSeen_ p1) with (OptsSeen_ p) in Hfin.
    assert (∀ defs, (∃ evs free defs, tail_of p F evs free ∧ free_ok (length free) = true ∧
        default_events (OptsSeen_ p ∪ ptrs evs) = Some defs ∧ run_events (evs ++ defs) s = Ret (inl s')) →
      default_events (OptsSeen_ p) = defs → ∃ ds, defs = Some ds ∧ run_events ds s = Ret (inl s')) as Hinv.
    { intros defs (evs & free & ds & [-> _]%Htail & _ & Hds & Hrun) <-. exists ds. split; [|done].
      unfold ptrs in Hds. cbn in Hds. by rewrite (right_id_L ∅ (∪)) in Hds. }
    destruct (default_events (OptsSeen_ p)) as [ds|] eqn:Hds.
    2: { destruct Hfin as [e ->]. cbn. split; [done|]. intros H. by destruct (Hinv _ H eq_refl) as (? & ? & _). }
    destruct Hfin as (q' & -> & Hst' & Hdsq & Hl). cbn [mbind outcome_bind].
    transitivity (run_events ds s = Ret (inl s')).
    2: { split; [|intros H; by destruct (Hinv _ H eq_refl) as (? & [= <-] & ?)]. intros Hrun.
         exists [], free0, ds. split; [by apply Htail|]. split; [done|]. split; [|done].
         unfold ptrs. cbn. by rewrite (right_id_L ∅ (∪)). }
    subst ds. destruct (OptsDefault_ q') as [|y ds] eqn:Hdd; [done|]. cbn [negb mbind outcome_bind fst snd fmap list_fmap].
    unfold fire_current. cbn [set_current CurrentOpt_ CurrentValue_].
    unfold run_events. cbn [mfold fst snd].
    destruct (FireHandlers y.2 (DefaultValue_ y.2) s) as [[s1|code]|f]; cbn [mbind outcome_bind]; [|by rewrite run_events_exit|done].
    rewrite parse_loop_defaults; [done|exact Hst'|]. cbn [set_current OptsDefault_]; cbn in Hl. unfold passes in Hf. rewrite Hst in Hf. lia.
  - destruct Hok as [[? ?]|(b & q0 & [= <- <-] & (_ & Hdq & Hsq & Hb))]; [done|].
    destruct (Hb eq_refl) as [Hrem _]. rewrite Hdq. cbn [OptsDefault_ p1 set_current mbind outcome_bind fst snd].
    unfold fire_current. rewrite Hcur.
    assert (∀ s1, parse_loop fuel q s1 = Ret (inl s') ↔ ∃ evs free defs, tail_of q F' evs free ∧ free_ok (length free) = true ∧
      default_events (OptsSeen_ q ∪ ptrs evs) = Some defs ∧ run_events (evs ++ defs) s1 = Ret (inl s')) as HIH.
    { intros s1. apply IH; [done|exact Hsq|exact Hdq|]. unfold passes in *. rewrite Hsq. rewrite Hst in Hf.
      change (Stopped_ p1) with false. change (remaining p1) with (remaining p) in Hrem. cbv iota in *. lia. }
    change (OptsSeen_ p1) with (OptsSeen_ p) in Hseen. split.
    + destruct (FireHandlers x.2 (CurrentValue_ q) s) as [[s1|code]|f] eqn:Hfire; cbn; [|done|done].
      intros (evs & free & defs & Ht & Hfr & Hde & Hrun)%HIH. exists ((x, CurrentValue_ q) :: evs), free, defs.
      split; [apply Htail; eauto|]. split; [done|]. rewrite <- (Hseen _ _ Ht). split; [done|].
      cbn [app]. apply run_events_cons. eauto.
    + intros (evs0 & free & defs & (evs & -> & Ht)%Htail & Hfr & Hde & Hrun). cbn [app] in Hrun.
      apply run_events_cons in Hrun as (s1 & Hfire & Hrun). cbn [fst snd] in Hfire. rewrite Hfire. cbn.
      apply HIH. exists evs, free, defs. rewrite (Hseen _ _ Ht). done.
Qed.

(** The parser succeeds exactly on the command lines of the grammar. *)
Lemma parse_args_spec program args s s' : Z.of_nat (Datatypes.S (length args)) < 2 ^ 64 →
  parse_args (program :: args) s = Ret (inl s') ↔
  Validate o = Ret () ∧ ∃ evs free defs, command_line [] args evs free ∧ free_ok (length free) = true ∧
    default_events (ptrs evs) = Some defs ∧ run_events (evs ++ defs) s = Ret (inl s').
Proof using no_optional permutes.
  intros Hn. unfold parse_args. destruct (Validate o) as [[]|f]; [|cbn; naive_solver]. rewrite bind_Ret.
  destruct (parser_init (program :: args)) as [p|f] eqn:Hp; [|done]. rewrite bind_Ret.
  apply parser_init_ok in Hp as (_ & -> & (Hg & _ & _) & Hf).
  rewrite (parse_loop_spec _ _ []); [|split; [done|]; split; [exact Hn|]; split; [split; [constructor|done]|]|done|done|exact Hf].
  2: { intros evs rest [= <- <-]. eauto. }
  assert (∀ evs free, tail_of (Build_TOptsParser (program :: args) 1 0 false false None None ∅ []) [] evs free ↔
    command_line [] args evs free) as Ht.
  { intros evs free. unfold tail_of, pending. cbn. rewrite drop_0. split.
    - by intros (? & ? & ? & [= <- <-] & Hc & ->).
    - intros Hc. by exists [], args, evs. }
  cbn [OptsSeen_]. split.
  - intros (evs & free & defs & H1%Ht & H2 & H3 & H4). rewrite (left_id_L ∅ (∪)) in H3. split; [done|]. eauto 7.
  - intros (_ & evs & free & defs & H1 & H2 & H3 & H4). exists evs, free, defs. rewrite Ht, (left_id_L ∅ (∪)). done.
Qed.

End NoOptional.

(** *** Every option is called *)

Lemma opt_events_valid arg rest evs rest' : opt_events arg rest = Some (evs, rest') → Forall (λ e, valid_ptr e.1) evs.
Proof.
  assert (∀ cs rest evs rest', short_events cs rest = Some (evs, rest') → Forall (λ e, valid_ptr e.1) evs) as Hshort.
  { clear. induction cs as [|c cs IH]; intros rest evs rest'; [intros [= <- <-]; constructor|]. cbn [short_events].
    destruct (FindCharOption o c) as [x|] eqn:Hf; [|done]. apply FindCharOption_valid in Hf as [Hv _]. cbn [mbind option_bind].
    destruct cs as [|c' cs].
    - destruct (opt_param x rest) as [[v r]|]; [|done]. cbn. intros [= <- <-]. by apply Forall_singleton.
    - case_bool_decide; [|intros [= <- <-]; by apply Forall_singleton].
      destruct (short_events (c' :: cs) rest) as [[evs1 r1]|] eqn:Hs; [|done]. intros [= <- <-]. constructor; [done|].
      by eapply IH. }
  unfold opt_events. destruct (opt_step arg rest) as [[[[x v] cs] rest1]|] eqn:Hstep; [|done]. cbn.
  destruct (short_events cs rest1) as [[evs1 r1]|] eqn:Hs; [|done]. cbn. intros [= <- <-].
  constructor; [by eapply opt_step_valid|by eapply Hshort].
Qed.

Lemma command_line_valid F args evs free : command_line F args evs free → Forall (λ e, valid_ptr e.1) evs.
Proof.
  induction 1 as [| |? ? ? ? ? ? ? ? IH|? ? ? ? ? ? ? ? Hev ? IH]; try constructor; try done.
  apply Forall_app. split; [by eapply opt_events_valid|done].
Qed.

Lemma default_events_valid seen defs : default_events seen = Some defs → Forall (λ e, valid_ptr e.1) defs.
Proof.
  unfold default_events. destruct (_ =? _); [intros [= <-]; constructor|]. case_bool_decide; [|done]. intros [= <-].
  apply Forall_fmap, Forall_forall. intros x Hx. apply list_elem_of_filter in Hx as [_ Hx]. by apply unseen_spec in Hx as [? _].
Qed.

(** An option with a default value is given or its default value is used. *)
Lemma default_events_complete evs defs x : Forall (λ e, valid_ptr e.1) evs → default_events (ptrs evs) = Some defs →
  valid_ptr x → Required_ x.2 = false → HasDefaultValue x.2 = true → x.1 ∈ (λ e : event, e.1.1) <$> (evs ++ defs).
Proof.
  intros Hevs Hdef Hx Hreq Hd. rewrite fmap_app, elem_of_app.
  assert (x.1 ∈ ptrs evs ↔ x.1 ∈ (λ e : event, e.1.1) <$> evs) as Hp by (unfold ptrs; apply elem_of_list_to_set).
  destruct (decide (x.1 ∈ ptrs evs)) as [Hin|Hnin]; [left; by apply Hp|right].
  unfold default_events in Hdef. destruct (Z.eqb_spec (Z.of_nat (length (Opts_ o))) (Z.of_nat (size (ptrs evs)))) as [Hsz|_].
  - exfalso. apply Hnin. assert (ptrs evs = set_seq 0 (length (Opts_ o))) as ->.
    { apply set_subseteq_size_eq; [|rewrite size_set_seq; lia]. intros i Hi. apply elem_of_set_seq.
      unfold ptrs in Hi. apply elem_of_list_to_set, list_elem_of_fmap in Hi as (e & -> & He).
      rewrite Forall_forall in Hevs. apply Hevs, lookup_lt_Some in He. lia. }
    apply elem_of_set_seq. apply lookup_lt_Some in Hx. lia.
  - case_bool_decide; [|done]. injection Hdef as <-. rewrite <- list_fmap_compose. apply list_elem_of_fmap.
    exists x. split; [done|]. apply list_elem_of_filter. split; [by rewrite Hreq, Hd|by apply unseen_spec].
Qed.

End Parser.

(** A handler that returns has called its function. *)
Lemma HandleOpt_inl {T} (from_string : TString → outcome T) def has_def func cur s s' :
  HandleOpt from_string def has_def func cur s = Ret (inl s') → ∃ v, func s v = Ret s'.
Proof.
  unfold HandleOpt. destruct (match cur (negb has_def) with Some _ => _ | None => _ end) as [v|f]; [|done].
  cbn. destruct (func s v) as [s1|[]] eqn:Hf; intros; simplify_eq. eauto.
Qed.

(** A handler throws when its conversion and its function return or throw. *)
Lemma HandleOpt_ok {T} (from_string : TString → outcome T) def has_def func cur s :
  (∀ t, is_throw (from_string t) ∨ ∃ v, from_string t = Ret v) →
  (∀ v, is_throw (func s v) ∨ ∃ s', func s v = Ret s') →
  is_throw (HandleOpt from_string def has_def func cur s) ∨ ∃ r, HandleOpt from_string def has_def func cur s = Ret r.
Proof.
  intros Hfrom Hfunc. unfold HandleOpt, OptFromString. destruct (cur (negb has_def)) as [t|].
  - destruct (Hfrom t) as [[e ->]|[v ->]]; [left; by eexists|]. cbn.
    destruct (Hfunc v) as [[e ->]|[s' ->]]; [left; by eexists|right; by eexists].
  - cbn. destruct (Hfunc def) as [[e ->]|[s' ->]]; [left; by eexists|right; by eexists].
Qed.

End Getopt.

(** ** The parser is total and follows the grammar *)

Lemma TOptsParseResult_Init_total {S} (o : TOpts (S := S)) (argv : list TString) (s : S) :
  handlers_ok o → ∃ r, TOptsParseResult_Init o argv s = Ret r.
Proof.
  intros Hh.
  assert (is_throw (parse_args o argv s) ∨ ∃ r, parse_args o argv s = Ret r) as [[e He]|[r Hr]].
  { unfold parse_args, Validate.
    destruct (validate_names (Opts_ o)); [cbn [ensure]; rewrite bind_Ret|left; by eexists].
    destruct (FreeArgsMin_ o <=? FreeArgsMax_ o); [cbn [ensure]; rewrite bind_Ret|left; by eexists].
    destruct (parser_init argv) as [p|f] eqn:Hp.
    - rewrite bind_Ret. apply parser_init_ok with (o := o) in Hp as (_ & _ & Hg & Hf). by apply parse_loop_ok.
    - left. unfold parser_init in Hp. destruct (ensure _ _) eqn:He; [done|]. cbn in Hp. injection Hp as <-.
      unfold ensure in He. destruct (negb _); [done|]. injection He as <-. by eexists. }
  - unfold TOptsParseResult_Init. rewrite He. by eexists.
  - unfold TOptsParseResult_Init. rewrite Hr. by eexists.
Qed.

(** C21: whatever the options of a program and its arguments, in every mode of
    permutation, the parser ends with a state or an exit code, provided its handlers
    return or throw: it never reads outside of [argv] or of an argument, and every
    pass of its loops gets further. *)
Theorem getopt_terminates {S} (o : TOpts (S := S)) (argv : list TString) (s : S) (Hh : handlers_ok o) :
  ∃ r, TOptsParseResult_Init o argv s = Ret r.
Proof. by apply TOptsParseResult_Init_total. Qed.

(** C20: for a program that permutes its arguments and has no option with an optional
    value, parsing succeeds exactly on the command lines of the grammar with an allowed
    number of free arguments and no required option missing; then the handlers ran for
    the options in the order given, and after them, in the order of the table, for the
    default values of the options not given. *)
Theorem getopt_command_line {S} (o : TOpts (S := S)) (program : TString) (args : list TString) (s s' : S)
  (no_optional : ∀ opt, opt ∈ Opts_ o → HasArg_ opt ≠ OPTIONAL_ARGUMENT)
  (permutes : ArgPermutation_ o = PERMUTE) (Hargc : Z.of_nat (Datatypes.S (length args)) < 2 ^ 64) :
  TOptsParseResult_Init o (program :: args) s = Ret (inl s') ↔
  Validate o = Ret () ∧ ∃ evs free defs, command_line o [] args evs free ∧ free_ok o (length free) = true ∧
    default_events o (ptrs evs) = Some defs ∧ run_events (evs ++ defs) s = Ret (inl s').
Proof.
  rewrite <- (parse_args_spec o no_optional permutes program) by done. unfold TOptsParseResult_Init.
  destruct (parse_args o (program :: args) s) as [r|[]]; done.
Qed.

(** A table for examples: [-v], [-n VAL] with the default ["7"], [--name VAL] and
    [-o [VAL]]; the state is the list of the values seen. *)
Definition log_handler (tag : Z) : IOptHandler (S := list (Z * TStringBuf)) :=
  λ cur s, Ret (inl (s ++ [(tag, cur true)])).
Definition sample_opts (optional : bool) (max : Z) : TOpts (S := list (Z * TStringBuf)) :=
  Build_TOpts
    ([Build_TOpt [chr "v"] [] NO_ARGUMENT false None None [log_handler 1];
      Build_TOpt [chr "n"] [] REQUIRED_ARGUMENT false None (Some (STRINGBUF "7")) [log_handler 2];
      Build_TOpt [] [STRINGBUF "name"] REQUIRED_ARGUMENT false None None [log_handler 3]] ++
     (if optional then [Build_TOpt [chr "o"] [] OPTIONAL_ARGUMENT false None None [log_handler 4]] else []))
    PERMUTE false false 0 max.

Lemma getopt_terminates_witness :
  handlers_ok (sample_opts true 0) ∧
  ∃ r, TOptsParseResult_Init (sample_opts true 0) [STRINGBUF "program"; STRINGBUF "-x"] [] = Ret r.
Proof.
  assert (handlers_ok (sample_opts true 0)) as Hh.
  { intros opt h cur s Hopt Hin. right.
    repeat (apply elem_of_cons in Hopt as [->|Hopt];
      [apply list_elem_of_singleton in Hin as ->; by eexists|]). by apply not_elem_of_nil in Hopt. }
  split; [exact Hh|]. by apply getopt_terminates.
Defined.

Lemma getopt_command_line_witness :
  let o := sample_opts false 9 in
  let args := [STRINGBUF "free"; STRINGBUF "-vn5"; STRINGBUF "--name=x"; STRINGBUF "-v"] in
  let s' := [(1, None); (2, Some (STRINGBUF "5")); (3, Some (STRINGBUF "x")); (1, None)] in
  Validate o = Ret () ∧ ∃ evs free defs, command_line o [] args evs free ∧ free_ok o (length free) = true ∧
    default_events o (ptrs evs) = Some defs ∧ run_events (evs ++ defs) [] = Ret (inl s').
Proof.
  intros o args s'. apply (getopt_command_line o (STRINGBUF "program") args [] s').
  - intros opt Hopt. repeat (apply elem_of_cons in Hopt as [->|Hopt]; [done|]). by apply not_elem_of_nil in Hopt.
  - done.
  - vm_compute. done.
  - vm_compute. reflexivity.
Defined.

(** Behind a free argument, ["--"] does not end the options: [-v] is still one, and
    ["--"] becomes a free argument. *)
Example dashes_after_free :
  TOptsParseResult_Init (sample_opts false 2) [STRINGBUF "program"; STRINGBUF "a"; STRINGBUF "--"; STRINGBUF "-v"] [] =
    Ret (inl [(1, None); (2, Some (STRINGBUF "7"))]) ∧
  TOptsParseResult_Init (sample_opts false 1) [STRINGBUF "program"; STRINGBUF "--"; STRINGBUF "-v"] [] =
    Ret (inl [(2, Some (STRINGBUF "7"))]).
Proof. split; vm_compute; reflexivity. Qed.

(** The rotation gives an optional value away: the free argument before [-o] becomes its
    value, although it is none when it is not permuted. *)
Example optional_value_rotated :
  TOptsParseResult_Init (sample_opts true 1) [STRINGBUF "program"; STRINGBUF "a"; STRINGBUF "-o"] [] =
    Ret (inl [(4, Some (STRINGBUF "a")); (2, Some (STRINGBUF "7"))]).
Proof. vm_compute. reflexivity. Qed.
