(* ===== verification/Stream.v ===== *)
(** * Streams: [util/stream/input.cpp], [zerocopy.cpp], [str.cpp], [mem.cpp],
    [buffered.cpp] and the reading of [util/system/file.cpp]

    [IInputStream] is the interface of an input stream, [InputStreamOk] what it
    promises: a stream stands for the characters it has yet to give, and reading
    takes them from the front.  Three kinds of stream implement it: a string, a file
    behind a buffer, and the standard input; readers of lines and numbers are proved
    against the interface.  Output goes through a buffer of fixed size; its invariant
    is that the slave's characters followed by the buffered ones are all that was
    written. *)
From Stdlib Require Import Ascii String.
From S2P Require Import Prelude Cast.

Open Scope Z_scope.

(** ** The interface *)

(** The virtual functions of an input stream.  [DoReadTo st ch] gives the number of
    characters taken and the new content of [st].  [stream_size] bounds the number
    of characters left: it is the fuel of the loops below. *)
Class IInputStream (S : Type) := {
  DoRead : Z → S → outcome (TString * S);
  DoReadTo : TString → Z → S → outcome (Z * TString * S);
  stream_size : S → nat;
}.

Section Default.
  Context {S : Type} (read : Z → S → outcome (TString * S)) (size : S → nat).

(** The loop of [IInputStream::DoReadTo]: [ch] is the character just read. *)
Fixpoint read_to_loop (fuel : nat) (st : TString) (result ch to : Z) (s : S)
    : outcome (Z * TString * S) :=
  match fuel with
  | O => Fail (Abort VUnreachable)
  | Datatypes.S fuel =>
      let result := result + 1 in
      if ch =? to then Ret (result, st, s)
      else
        let st := st ++ [ch] in
        r ← read 1 s;
        match r.1 with
        | [] => Ret (result, st, r.2)
        | c :: _ => read_to_loop fuel st result c to r.2
        end
  end.

(** [IInputStream::DoReadTo], for the streams that do not override it. *)
Definition default_DoReadTo (st : TString) (to : Z) (s : S) : outcome (Z * TString * S) :=
  r ← read 1 s;
  match r.1 with
  | [] => Ret (0, st, r.2)
  | c :: _ => read_to_loop (Datatypes.S (size s)) [] 0 c to r.2
  end.

End Default.

(** The characters before the first [ch], and those after it. *)
Fixpoint cut_at (ch : Z) (l : TString) : TString * TString :=
  match l with
  | [] => ([], [])
  | c :: l => if c =? ch then ([], l) else let r := cut_at ch l in (c :: r.1, r.2)
  end.

(** What reading up to [ch] does to a stream with the characters [l] left. *)
Definition read_to (ch : Z) (l : TString) : Z * TString * TString :=
  let r := cut_at ch l in (vsize l - vsize r.2, r.1, r.2).

(** The contract of a stream. *)
Class InputStreamOk (S : Type) `{!IInputStream S} := {
  rest : S → TString;
  good : S → Prop;
  rest_size s : good s → (length (rest s) ≤ stream_size s)%nat;
  DoRead_ok len s : good s → 0 < len →
    ∃ chunk s', DoRead len s = Ret (chunk, s') ∧ good s' ∧ rest s = chunk ++ rest s' ∧
      vsize chunk ≤ len ∧ (chunk = [] → rest s = []);
  DoReadTo_ok st ch s : good s →
    (rest s = [] → ∃ st' s', DoReadTo st ch s = Ret (0, st', s') ∧ good s' ∧ rest s' = []) ∧
    (rest s ≠ [] → ∃ s', DoReadTo st ch s = Ret ((read_to ch (rest s)).1, s') ∧ good s' ∧
       rest s' = (read_to ch (rest s)).2);
}.

(** ** Functions of every stream *)

Section Input.
  Context {S : Type} `{!IInputStream S}.

(** [Read(buf, len)] and [ReadChar(c)] *)
Definition Read (len : Z) (s : S) : outcome (TString * S) :=
  if len =? 0 then Ret ([], s) else DoRead len s.
Definition ReadChar (s : S) : outcome (option Z * S) :=
  r ← DoRead 1 s; Ret (head r.1, r.2).

(** [ReadTo(st, ch)] *)
Definition ReadTo (st : TString) (ch : Z) (s : S) : outcome (Z * TString * S) := DoReadTo st ch s.

(** [ReadLine(st)]: the characters taken, zero at the end of the stream. *)
Definition ReadLine (st : TString) (s : S) : outcome (Z * TString * S) :=
  r ← ReadTo st 10 s;
  let '(ret, st, s) := r in
  Ret (ret,
       if negb (ret =? 0) && bool_decide (list.last st = Some 13) then removelast st else st, s).

(** ** Numbers *)

Definition IsStdDelimiter (c : Z) : bool :=
  (c =? 0) || (c =? 32) || (c =? 13) || (c =? 10) || (c =? 9).

(** The first loop of [In<T>] for a number: skip delimiters; the first other
    character, when there is one. *)
Fixpoint skip_delimiters (fuel : nat) (s : S) : outcome (option Z * S) :=
  match fuel with
  | O => Fail (Abort VUnreachable)
  | Datatypes.S fuel =>
      r ← ReadChar s;
      match r.1 with
      | None => Ret (None, r.2)
      | Some c => if IsStdDelimiter c then skip_delimiters fuel r.2 else Ret (Some c, r.2)
      end
  end.

(** The second loop: [buf[0..pos)] is [buf]; the character read with [pos = 127] is
    not kept. *)
Fixpoint read_number (fuel : nat) (buf : TString) (s : S) : outcome (TString * S) :=
  match fuel with
  | O => Fail (Abort VUnreachable)
  | Datatypes.S fuel =>
      r ← ReadChar s;
      match r.1 with
      | Some c => if negb (IsStdDelimiter c) && (vsize buf <? 127)
                  then read_number fuel (buf ++ [c]) r.2 else Ret (buf, r.2)
      | None => Ret (buf, r.2)
      end
  end.

(** [operator>>] of an integer of type [t]. *)
Definition In_number (t : int_type) (s : S) : outcome (Z * S) :=
  let fuel := Datatypes.S (stream_size s) in
  r ← skip_delimiters fuel s;
  r ← read_number fuel (match r.1 with Some c => [c] | None => [] end) r.2;
  v ← IntFromString t 10 r.1;
  Ret (v, r.2).

End Input.

(** ** Streams over memory *)

(** [IZeroCopyInputFastReadTo]: [DoNext] gives the next chunk of at most [len]
    characters, all there are when [len] is [None]; [DoUndo] gives the end of a chunk
    back. *)
Class IZeroCopyInputFastReadTo (S : Type) := {
  DoNext : option Z → S → TString * S;
  DoUndo : Z → S → outcome S;
  zc_size : S → nat;
}.

Section ZeroCopy.
  Context {S : Type} `{!IZeroCopyInputFastReadTo S}.

(** [IZeroCopyInput::DoRead] *)
Definition zc_DoRead (len : Z) (s : S) : outcome (TString * S) := Ret (DoNext (Some len) s).

(** [memchr(ptr, ch, len)] *)
Definition memchr (chunk : TString) (ch : Z) : option nat := find_char ch chunk.

(** The loop of [DoReadTo], with the chunk just obtained. *)
Fixpoint zc_read_to_loop (fuel : nat) (st : TString) (result : Z) (chunk : TString) (ch : Z) (s : S)
    : outcome (Z * TString * S) :=
  match fuel with
  | O => Fail (Abort VUnreachable)
  | Datatypes.S fuel =>
      match memchr chunk ch with
      | Some pos =>
          let readed := Z.of_nat pos + 1 in
          let st := if 1 <? readed then st ++ take pos chunk else st in
          s ← (if vsize chunk - readed =? 0 then Ret s else DoUndo (vsize chunk - readed) s);
          Ret (result + readed, st, s)
      | None =>
          let st := st ++ chunk in
          let result := result + vsize chunk in
          let r := DoNext None s in
          match r.1 with
          | [] => Ret (result, st, r.2)
          | _ => zc_read_to_loop fuel st result r.1 ch r.2
          end
      end
  end.

(** [IZeroCopyInputFastReadTo::DoReadTo] *)
Definition zc_DoReadTo (st : TString) (ch : Z) (s : S) : outcome (Z * TString * S) :=
  let r := DoNext None s in
  match r.1 with
  | [] => Ret (0, st, r.2)
  | _ => zc_read_to_loop (Datatypes.S (zc_size s)) [] 0 r.1 ch r.2
  end.

End ZeroCopy.

(** [TStringInput], and [TMemoryInput] with the whole block and the position of
    [Buf_] in it. *)
Record TStringInput : Type := { S_ : TString; Pos_ : Z }.
Definition string_input (s : TString) : TStringInput := {| S_ := s; Pos_ := 0 |}.

Definition TStringInput_DoNext (len : option Z) (s : TStringInput) : TString * TStringInput :=
  let avail := vsize (S_ s) - Pos_ s in
  let n := match len with Some len => Z.min len avail | None => avail end in
  (take (Z.to_nat n) (drop (Z.to_nat (Pos_ s)) (S_ s)), {| S_ := S_ s; Pos_ := Pos_ s + n |}).

(** [Y_VERIFY(len <= Pos_)] *)
Definition TStringInput_DoUndo (len : Z) (s : TStringInput) : outcome TStringInput :=
  _ ← verify (len <=? Pos_ s) VUndo;
  Ret {| S_ := S_ s; Pos_ := Pos_ s - len |}.

#[export] Instance TStringInput_zero_copy : IZeroCopyInputFastReadTo TStringInput := {
  DoNext := TStringInput_DoNext;
  DoUndo := TStringInput_DoUndo;
  zc_size s := length (S_ s);
}.

#[export] Instance TStringInput_stream : IInputStream TStringInput := {
  DoRead := zc_DoRead;
  DoReadTo := zc_DoReadTo;
  stream_size := zc_size;
}.

(** [TMemoryInput]: the block and what is left of it. *)
Abbreviation TMemoryInput := TStringInput.
Definition Avail (m : TMemoryInput) : Z := vsize (S_ m) - Pos_ m.
Definition Exhausted (m : TMemoryInput) : bool := Avail m =? 0.

(** ** The buffer in front of a file *)

(** [TFile]: the characters the file has left, and how many of them each call of the
    operating system gives at most. *)
Record TFile : Type := { file_rest : TString; os_reads : list Z }.

(** [Handle_.Read(buf, toRead)]: at least one character unless none is left. *)
Definition Handle_Read (to_read : Z) (f : TFile) : TString * TFile :=
  let n := match os_reads f with
           | k :: _ => Z.max 1 (Z.min k to_read)
           | [] => to_read
           end in
  (take (Z.to_nat n) (file_rest f),
   {| file_rest := drop (Z.to_nat n) (file_rest f); os_reads := tail (os_reads f) |}).

(** [MaxPortion] *)
Definition MaxPortion : Z := 2 ^ 30.

(** [TFile::TImpl::Read(bufferIn, numBytes)] *)
Fixpoint TFile_Read (fuel : nat) (num_bytes : Z) (f : TFile) : outcome (TString * TFile) :=
  if num_bytes =? 0 then Ret ([], f) else
  match fuel with
  | O => Fail (Abort VUnreachable)
  | S fuel =>
      let r := Handle_Read (Z.min MaxPortion num_bytes) f in
      match r.1 with
      | [] => Ret ([], r.2)
      | chunk => q ← TFile_Read fuel (num_bytes - vsize chunk) r.2; Ret (chunk ++ q.1, q.2)
      end
  end.

(** [TFileInput] *)
#[export] Instance TFile_stream : IInputStream TFile := {
  DoRead len f := TFile_Read (S (length (file_rest f))) len f;
  DoReadTo := default_DoReadTo (λ len f, TFile_Read (S (length (file_rest f))) len f)
    (λ f, length (file_rest f));
  stream_size f := length (file_rest f);
}.

(** [TBufferedInput] *)
Record TBufferedInput (S : Type) : Type := { Slave_ : S; MemInput_ : TMemoryInput; BufLen : Z }.
Arguments Slave_ {S}. Arguments MemInput_ {S}. Arguments BufLen {S}.

Section Buffered.
  Context {S : Type} `{!IInputStream S}.

Definition TBufferedInput_new (slave : S) (buflen : Z) : TBufferedInput S :=
  {| Slave_ := slave; MemInput_ := string_input []; BufLen := buflen |}.

(** [MemInput_.Reset(Buf(), Slave_->Read(Buf(), BufLen()))]: the buffer filled again,
    and how many characters it got. *)
Definition refill (b : TBufferedInput S) : outcome (Z * TBufferedInput S) :=
  r ← Read (BufLen b) (Slave_ b);
  Ret (vsize r.1, {| Slave_ := r.2; MemInput_ := string_input r.1; BufLen := BufLen b |}).

Definition with_mem (b : TBufferedInput S) (m : TMemoryInput) : TBufferedInput S :=
  {| Slave_ := Slave_ b; MemInput_ := m; BufLen := BufLen b |}.

(** [TImpl::Read(buf, len)] *)
Definition TBufferedInput_Read (len : Z) (b : TBufferedInput S) : outcome (TString * TBufferedInput S) :=
  if Exhausted (MemInput_ b) && (BufLen b `div` 2 <? len) then
    r ← Read len (Slave_ b);
    Ret (r.1, {| Slave_ := r.2; MemInput_ := MemInput_ b; BufLen := BufLen b |})
  else
    b ← (if Exhausted (MemInput_ b) then r ← refill b; Ret r.2 else Ret b);
    r ← Read len (MemInput_ b);
    Ret (r.1, with_mem b r.2).

(** The "mega-optimization": [res] and [s_tmp] after the chunk in [s_tmp]. *)
Definition append_chunk (res s_tmp : TString) : TString * TString :=
  if vsize res =? 0 then (s_tmp, res) else (res ++ s_tmp, s_tmp).

(** The loop of [TImpl::ReadTo(st, to)]: [res], [s_tmp] and [ret]. *)
Fixpoint buffered_read_to (fuel : nat) (res s_tmp : TString) (ret to : Z) (b : TBufferedInput S)
    : outcome (Z * TString * TBufferedInput S) :=
  match fuel with
  | O => Fail (Abort VUnreachable)
  | Datatypes.S fuel =>
      r ← (if Exhausted (MemInput_ b)
           then r ← Read (BufLen b) (Slave_ b);
                if vsize r.1 =? 0
                then Ret (true, {| Slave_ := r.2; MemInput_ := MemInput_ b; BufLen := BufLen b |})
                else Ret (false, {| Slave_ := r.2; MemInput_ := string_input r.1; BufLen := BufLen b |})
           else Ret (false, b));
      let b := r.2 in
      if r.1 : bool then Ret (ret, res, b)
      else
        let a_len := Avail (MemInput_ b) in
        r ← ReadTo s_tmp to (MemInput_ b);
        let '(n, s_tmp, mem) := r in
        let b := with_mem b mem in
        let s_len := vsize s_tmp in
        let '(res, s_tmp) := append_chunk res s_tmp in
        if negb (s_len =? a_len) then Ret (ret + n, res, b)
        else buffered_read_to fuel res s_tmp (ret + n) to b
  end.

(** [TImpl::ReadTo(st, to)]: [st] gets [res] whatever it was. *)
Definition TBufferedInput_ReadTo (st : TString) (to : Z) (b : TBufferedInput S)
    : outcome (Z * TString * TBufferedInput S) :=
  buffered_read_to (2 + stream_size (Slave_ b)) [] [] 0 to b.

#[export] Instance TBufferedInput_stream : IInputStream (TBufferedInput S) := {
  DoRead := TBufferedInput_Read;
  DoReadTo := TBufferedInput_ReadTo;
  stream_size b := (length (S_ (MemInput_ b)) + stream_size (Slave_ b))%nat;
}.

End Buffered.

(** [TIFStream], a [TBuffered<TFileInput>] with a buffer of 2^13 characters. *)
Definition TIFStream : Type := TBufferedInput TFile.
Definition open_file (contents : TString) (os : list Z) : TIFStream :=
  TBufferedInput_new {| file_rest := contents; os_reads := os |} (2 ^ 13).

(** ** The standard input *)

(** [TStdIn]: what [fread] has yet to give. *)
Record TStdIn : Type := { F_ : TString }.

Definition TStdIn_DoRead (len : Z) (s : TStdIn) : outcome (TString * TStdIn) :=
  Ret (take (Z.to_nat len) (F_ s), {| F_ := drop (Z.to_nat len) (F_ s) |}).

(** [TCinWrapper] of [cmicot/lib/io.cpp]: [DoRead] asks [Cin]. *)
Definition TCinWrapper_DoRead (len : Z) (s : TStdIn) : outcome (TString * TStdIn) :=
  if len =? 0 then Ret ([], s) else TStdIn_DoRead len s.

#[export] Instance TCinWrapper_stream : IInputStream TStdIn := {
  DoRead := TCinWrapper_DoRead;
  DoReadTo := default_DoReadTo TCinWrapper_DoRead (λ s, length (F_ s));
  stream_size s := length (F_ s);
}.

(** ** Cutting a text *)

Lemma cut_at_app_None ch chunk l : find_char ch chunk = None →
  cut_at ch (chunk ++ l) = (chunk ++ (cut_at ch l).1, (cut_at ch l).2).
Proof.
  induction chunk as [|c chunk IH]; cbn; [by destruct (cut_at ch l)|].
  destruct (c =? ch); [done|]. destruct (find_char ch chunk); [done|]. intros _. by rewrite IH.
Qed.

Lemma cut_at_app_Some ch chunk l k : find_char ch chunk = Some k →
  cut_at ch (chunk ++ l) = (take k chunk, drop (S k) chunk ++ l) ∧ (k < length chunk)%nat.
Proof.
  revert k. induction chunk as [|c chunk IH]; intros k; cbn; [done|].
  destruct (c =? ch); [intros [= <-]; split; [by rewrite drop_0|lia]|].
  destruct (find_char ch chunk) as [j|]; [|done]. intros [= <-].
  destruct (IH j eq_refl) as [-> Hj]. cbn. split; [done|lia].
Qed.

Lemma cut_at_rest ch l : (length (cut_at ch l).2 ≤ length l - 1)%nat.
Proof.
  induction l as [|c l IH]; cbn; [done|]. destruct (c =? ch); cbn; lia.
Qed.

Section DefaultOk.
  Context {S : Type} (read : Z → S → outcome (TString * S)) (size : S → nat).
  Context (rest : S → TString) (good : S → Prop).
  Hypothesis read_ok : ∀ len s, good s → 0 < len →
    ∃ chunk s', read len s = Ret (chunk, s') ∧ good s' ∧ rest s = chunk ++ rest s' ∧
      vsize chunk ≤ len ∧ (chunk = [] → rest s = []).
  Hypothesis rest_size : ∀ s, good s → (length (rest s) ≤ size s)%nat.

(** Reading one character. *)
Lemma read_one s : good s →
  (rest s = [] ∧ ∃ s', read 1 s = Ret ([], s') ∧ good s' ∧ rest s' = []) ∨
  (∃ c s', read 1 s = Ret ([c], s') ∧ good s' ∧ rest s = c :: rest s').
Proof using read_ok.
  intros Hg. destruct (read_ok 1 s Hg ltac:(lia)) as (chunk & s' & Hr & Hg' & Hrest & Hsz & Hnil).
  destruct chunk as [|c [|? ?]].
  - left. rewrite Hnil in * by done. split; [done|]. exists s'. done.
  - right. by exists c, s'.
  - rewrite !vsize_cons in Hsz. pose proof (vsize_nonneg l). lia.
Qed.

Lemma read_to_loop_ok fuel st result ch to s : good s → (length (rest s) < fuel)%nat →
  ∃ s', good s' ∧ rest s' = (cut_at to (ch :: rest s)).2 ∧
    read_to_loop read fuel st result ch to s =
      Ret (result + (vsize (ch :: rest s) - vsize (rest s')), st ++ (cut_at to (ch :: rest s)).1, s').
Proof using read_ok.
  revert st result ch s. induction fuel as [|fuel IH]; intros st result ch s Hg Hf; [lia|].
  cbn [read_to_loop cut_at]. destruct (ch =? to).
  { exists s. cbn. split_and!; [done..|]. rewrite vsize_cons, app_nil_r. do 3 f_equal. lia. }
  destruct (read_one s Hg) as [(Hnil & s' & -> & Hg' & Hrest')|(c & s' & -> & Hg' & Hrest')]; cbn.
  - exists s'. rewrite Hnil, Hrest'. cbn. split_and!; [done..|]. by rewrite vsize_cons, vsize_nil.
  - rewrite Hrest' in Hf. cbn in Hf.
    destruct (IH (st ++ [ch]) (result + 1) c s' Hg' ltac:(lia)) as (s2 & Hg2 & Hr2 & ->).
    exists s2. rewrite Hrest'. split_and!; [done..|]. rewrite <- app_assoc. cbn.
    rewrite (vsize_cons ch). do 3 f_equal. lia.
Qed.

Lemma default_DoReadTo_ok st ch s : good s →
  (rest s = [] → ∃ st' s', default_DoReadTo read size st ch s = Ret (0, st', s') ∧ good s' ∧ rest s' = []) ∧
  (rest s ≠ [] → ∃ s', default_DoReadTo read size st ch s = Ret ((read_to ch (rest s)).1, s') ∧ good s' ∧
     rest s' = (read_to ch (rest s)).2).
Proof using read_ok rest_size.
  intros Hg. unfold default_DoReadTo.
  destruct (read_one s Hg) as [(Hnil & s' & -> & Hg' & Hrest')|(c & s' & -> & Hg' & Hrest')]; cbn [mbind outcome_bind fst snd].
  - split; [intros _; by exists st, s'|done].
  - split; [by rewrite Hrest'|]. intros _. pose proof (rest_size s Hg) as Hsz.
    rewrite Hrest' in Hsz. cbn in Hsz.
    destruct (read_to_loop_ok (Datatypes.S (size s)) [] 0 c ch s' Hg' ltac:(lia)) as (s2 & Hg2 & Hr2 & ->).
    exists s2. unfold read_to. rewrite Hrest'. cbn [fst snd]. by rewrite Hr2.
Qed.

End DefaultOk.

(** ** Every stream keeps the contract *)

Definition string_rest (s : TStringInput) : TString := drop (Z.to_nat (Pos_ s)) (S_ s).
Definition string_good (s : TStringInput) : Prop := 0 ≤ Pos_ s ≤ vsize (S_ s).

Lemma string_avail s : string_good s → Avail s = vsize (string_rest s).
Proof. unfold string_good, string_rest, Avail, vsize. rewrite length_drop. lia. Qed.

(** [DoNext] takes a chunk off the front. *)
Lemma TStringInput_DoNext_ok len s : string_good s → 0 ≤ len →
  ∃ s', DoNext (Some len) s = (take (Z.to_nat len) (string_rest s), s') ∧ string_good s' ∧
    string_rest s' = drop (Z.to_nat len) (string_rest s) ∧ S_ s' = S_ s.
Proof.
  intros Hg Hlen. pose proof (string_avail s Hg) as Ha. unfold Avail in Ha. cbn.
  unfold TStringInput_DoNext. rewrite Ha. fold (string_rest s).
  pose proof (vsize_nonneg (string_rest s)). eexists. split; [f_equal|].
  - unfold vsize. destruct (Z.le_gt_cases len (Z.of_nat (length (string_rest s)))).
    + by rewrite Z.min_l.
    + rewrite Z.min_r by lia. rewrite !take_ge by lia. done.
  - unfold string_good, string_rest in *. cbn. rewrite drop_drop. split_and!; [lia|lia| |done].
    fold (string_rest s) in *. destruct (Z.le_gt_cases len (vsize (string_rest s))).
    + f_equal. unfold string_rest in *. lia.
    + unfold vsize in *. rewrite !drop_ge by lia. done.
Qed.

Lemma TStringInput_DoNext_all s : string_good s →
  ∃ s', DoNext None s = (string_rest s, s') ∧ string_good s' ∧ string_rest s' = [] ∧
    S_ s' = S_ s ∧ Pos_ s' = vsize (S_ s).
Proof.
  intros Hg. cbn. unfold TStringInput_DoNext. eexists. split; [f_equal|]; cbn.
  - fold (string_rest s). apply take_ge. pose proof (string_avail s Hg) as Ha. unfold Avail, vsize in *. lia.
  - unfold string_good, string_rest in *. cbn. split_and!; try lia; try done.
    apply drop_ge. unfold vsize in *. lia.
Qed.

Lemma TStringInput_DoReadTo_ok st ch s : string_good s →
  (string_rest s = [] → ∃ st' s', DoReadTo st ch s = Ret (0, st', s') ∧ string_good s' ∧ string_rest s' = []) ∧
  (string_rest s ≠ [] → ∃ s', DoReadTo st ch s = Ret ((read_to ch (string_rest s)).1, s') ∧
     string_good s' ∧ string_rest s' = (read_to ch (string_rest s)).2).
Proof.
  intros Hg. cbn. unfold zc_DoReadTo.
  destruct (TStringInput_DoNext_all s Hg) as (s1 & Hn & Hg1 & Hr1 & HS1 & HP1). rewrite Hn.
  cbn [fst snd]. destruct (string_rest s) as [|c l] eqn:Hrest; (split; [|try done]).
  { intros _. by exists st, s1. } { done. }
  intros _. rewrite <- Hrest. cbn [zc_read_to_loop]. unfold memchr, read_to.
  pose proof (cut_at_app_None ch (string_rest s) []) as HNone.
  pose proof (cut_at_app_Some ch (string_rest s) []) as HSome.
  destruct (find_char ch (string_rest s)) as [k|].
  - destruct (HSome k eq_refl) as [Hcut Hk]. rewrite !app_nil_r in Hcut. rewrite Hcut. cbn [fst snd].
    assert ((if 1 <? Z.of_nat k + 1 then [] ++ take k (string_rest s) else []) = take k (string_rest s)) as ->.
    { destruct (Z.ltb_spec 1 (Z.of_nat k + 1)); [done|]. by replace k with 0%nat by lia. }
    set (u := vsize (string_rest s) - (Z.of_nat k + 1)).
    assert (vsize (drop (S k) (string_rest s)) = u) as Hu by (unfold u, vsize; rewrite length_drop; lia).
    assert ((if u =? 0 then Ret s1 else DoUndo u s1) = Ret {| S_ := S_ s1; Pos_ := Pos_ s1 - u |}) as ->.
    { destruct (Z.eqb_spec u 0) as [->|]; [by rewrite Z.sub_0_r; destruct s1|]. cbn.
      unfold TStringInput_DoUndo. rewrite (proj2 (verify_Ret _ _)); [done|]. apply Z.leb_le.
      rewrite HP1. unfold u. rewrite <- string_avail by done. unfold Avail, string_good in *. lia. }
    rewrite bind_Ret. eexists. split; [do 3 f_equal; rewrite Hu; unfold u; lia|].
    pose proof (string_avail s Hg) as Ha. unfold Avail, string_good, string_rest in *. cbn.
    rewrite drop_drop, HS1, HP1. unfold u. split; [unfold vsize in *; lia|].
    f_equal. rewrite <- Ha. unfold vsize in *. lia.
  - specialize (HNone eq_refl). cbn in HNone. rewrite !app_nil_r in HNone.
    rewrite HNone. destruct (TStringInput_DoNext_all s1 Hg1) as (s2 & Hn2 & Hg2 & Hr2 & _).
    rewrite Hr1 in Hn2. rewrite Hn2. cbn [fst snd]. exists s2. split_and!; [|done..].
    cbn. do 3 f_equal. unfold vsize. cbn. lia.
Qed.

#[export] Program Instance TStringInput_ok : InputStreamOk TStringInput := {
  rest := string_rest;
  good := string_good;
}.
Next Obligation. intros s Hg. cbn. unfold string_rest. rewrite length_drop. lia. Qed.
Next Obligation.
  intros len s Hg Hlen. cbn. unfold zc_DoRead.
  destruct (TStringInput_DoNext_ok len s Hg ltac:(lia)) as (s' & -> & Hg' & Hr & _).
  eexists _, s'. split_and!; [done|done| | |].
  - by rewrite Hr, take_drop.
  - unfold vsize. rewrite length_take. lia.
  - intros H. apply take_nil_inv in H as [|]; [lia|done].
Qed.
Next Obligation. exact TStringInput_DoReadTo_ok. Qed.

(** A file read gives the characters asked for, however short the reads of the
    operating system are. *)
Lemma TFile_Read_ok fuel n f : (length (file_rest f) < fuel)%nat → 0 ≤ n →
  ∃ f', TFile_Read fuel n f = Ret (take (Z.to_nat n) (file_rest f), f') ∧
    file_rest f' = drop (Z.to_nat n) (file_rest f).
Proof.
  revert n f. induction fuel as [|fuel IH]; intros n f Hf Hn; [lia|]. cbn [TFile_Read].
  destruct (Z.eqb_spec n 0) as [->|Hn0]; [by exists f|].
  unfold Handle_Read. cbn [fst snd].
  set (k := match os_reads f with k :: _ => _ | [] => _ end).
  assert (1 ≤ k ≤ n) as Hk by (unfold k, MaxPortion; destruct (os_reads f); lia).
  destruct (take (Z.to_nat k) (file_rest f)) as [|c l] eqn:Ht.
  - apply take_nil_inv in Ht as [|Ht]; [lia|]. eexists. rewrite Ht. by rewrite !take_nil, !drop_nil.
  - set (f1 := {| file_rest := drop (Z.to_nat k) (file_rest f); os_reads := tail (os_reads f) |}).
    set (m := length (take (Z.to_nat k) (file_rest f))).
    assert (length (c :: l) = m) as Hm by (unfold m; by rewrite Ht).
    assert ((0 < m ≤ Z.to_nat k)%nat ∧ drop m (file_rest f) = file_rest f1 ∧ take m (file_rest f) = c :: l)
      as (Hmk & Hd & Htk).
    { split_and!; [cbn in Hm; lia|unfold m; rewrite length_take; lia| |].
      - unfold m, f1. cbn. rewrite length_take. destruct (Nat.min_spec (Z.to_nat k) (length (file_rest f))) as [[? ->]|[? ->]]; [done|].
        by rewrite !drop_ge by lia.
      - rewrite <- Ht. unfold m. rewrite length_take. rewrite <- take_take. by rewrite (take_ge (file_rest f) (length _)). }
    replace (n - vsize (c :: l)) with (n - Z.of_nat m) by (unfold vsize; by rewrite Hm).
    assert (length (file_rest f1) < fuel)%nat as Hf1.
    { rewrite <- Hd, length_drop. apply (f_equal length) in Ht. rewrite length_take in Ht. cbn in Ht. lia. }
    destruct (IH (n - Z.of_nat m) f1 Hf1 ltac:(lia)) as (f' & -> & Hr).
    rewrite bind_Ret. exists f'. cbn [fst snd]. rewrite <- Htk, <- Hd in *. split.
    + do 2 f_equal. rewrite <- (take_drop m (take (Z.to_nat n) (file_rest f))), take_take, skipn_firstn_comm.
      f_equal; f_equal; lia.
    + rewrite Hr, drop_drop. f_equal. lia.
Qed.

Lemma TFile_DoRead_ok len (f : TFile) : True → 0 < len →
  ∃ chunk f', TFile_Read (S (length (file_rest f))) len f = Ret (chunk, f') ∧ True ∧
    file_rest f = chunk ++ file_rest f' ∧ vsize chunk ≤ len ∧ (chunk = [] → file_rest f = []).
Proof.
  intros _ Hlen. destruct (TFile_Read_ok (S (length (file_rest f))) len f ltac:(lia) ltac:(lia)) as (f' & -> & Hr).
  eexists _, f'. split_and!; [done|done|by rewrite Hr, take_drop| |].
  - unfold vsize. rewrite length_take. lia.
  - intros H. apply take_nil_inv in H as [|]; [lia|done].
Qed.

#[export] Program Instance TFile_ok : InputStreamOk TFile := {
  rest := file_rest;
  good _ := True;
}.
Next Obligation. done. Qed.
Next Obligation. intros len f. apply TFile_DoRead_ok. Qed.
Next Obligation.
  intros st ch f. apply (default_DoReadTo_ok _ _ file_rest (λ _, True) (λ len s, TFile_DoRead_ok len s)). done.
Qed.

Lemma TCinWrapper_DoRead_ok len (s : TStdIn) : True → 0 < len →
  ∃ chunk s', TCinWrapper_DoRead len s = Ret (chunk, s') ∧ True ∧
    F_ s = chunk ++ F_ s' ∧ vsize chunk ≤ len ∧ (chunk = [] → F_ s = []).
Proof.
  intros _ Hlen. unfold TCinWrapper_DoRead. destruct (Z.eqb_spec len 0); [lia|].
  eexists _, _. split_and!; [done|done|by cbn; rewrite take_drop| |].
  - unfold vsize. rewrite length_take. lia.
  - intros H. apply take_nil_inv in H as [|]; [lia|done].
Qed.

#[export] Program Instance TCinWrapper_ok : InputStreamOk TStdIn := {
  rest := F_;
  good _ := True;
}.
Next Obligation. done. Qed.
Next Obligation. intros len s. apply TCinWrapper_DoRead_ok. Qed.
Next Obligation.
  intros st ch s. apply (default_DoReadTo_ok _ _ F_ (λ _, True) (λ len s, TCinWrapper_DoRead_ok len s)). done.
Qed.

Section BufferedOk.
  Context {S : Type} `{!IInputStream S, !InputStreamOk S}.

Definition buffered_rest (b : TBufferedInput S) : TString := string_rest (MemInput_ b) ++ rest (Slave_ b).
Definition buffered_good (b : TBufferedInput S) : Prop :=
  string_good (MemInput_ b) ∧ good (Slave_ b) ∧ 0 < BufLen b.

Lemma exhausted_rest m : string_good m → Exhausted m = true ↔ string_rest m = [].
Proof using Type.
  intros Hm. unfold Exhausted. rewrite Z.eqb_eq, string_avail by done. unfold vsize.
  rewrite <- length_zero_iff_nil. lia.
Qed.

Lemma Read_ok len (s : S) : good s → 0 < len →
  ∃ chunk s', Read len s = Ret (chunk, s') ∧ good s' ∧ rest s = chunk ++ rest s' ∧
    vsize chunk ≤ len ∧ (chunk = [] → rest s = []).
Proof using Type.
  intros Hg Hlen. unfold Read. destruct (Z.eqb_spec len 0); [lia|]. by apply DoRead_ok.
Qed.

Lemma string_input_good cs : string_good (string_input cs).
Proof using Type. unfold string_good. cbn. pose proof (vsize_nonneg cs). lia. Qed.

Lemma string_input_rest cs : string_rest (string_input cs) = cs.
Proof using Type. done. Qed.

(** The buffer, refilled when it was empty. *)
Lemma refill_ok b : buffered_good b → Exhausted (MemInput_ b) = true →
  ∃ chunk s', Read (BufLen b) (Slave_ b) = Ret (chunk, s') ∧ good s' ∧
    buffered_rest b = chunk ++ rest s' ∧ (chunk = [] → rest (Slave_ b) = []) ∧
    buffered_good {| Slave_ := s'; MemInput_ := string_input chunk; BufLen := BufLen b |}.
Proof using Type.
  intros (Hm & Hs & Hb) He. destruct (Read_ok (BufLen b) (Slave_ b) Hs Hb) as (chunk & s' & Hr & Hs' & Hrest & _ & Hnil).
  exists chunk, s'. split_and!; try done. unfold buffered_rest.
  by rewrite (proj1 (exhausted_rest _ Hm) He), Hrest.
Qed.

Lemma TBufferedInput_Read_ok len b : buffered_good b → 0 < len →
  ∃ chunk b', TBufferedInput_Read len b = Ret (chunk, b') ∧ buffered_good b' ∧
    buffered_rest b = chunk ++ buffered_rest b' ∧ vsize chunk ≤ len ∧ (chunk = [] → buffered_rest b = []).
Proof using Type.
  intros Hg Hlen. unfold TBufferedInput_Read.
  assert (∀ b, buffered_good b → (string_rest (MemInput_ b) = [] → rest (Slave_ b) = []) →
    ∃ chunk b', (r ← Read len (MemInput_ b); Ret (r.1, with_mem b r.2)) = Ret (chunk, b') ∧ buffered_good b' ∧
      buffered_rest b = chunk ++ buffered_rest b' ∧ vsize chunk ≤ len ∧ (chunk = [] → buffered_rest b = []))
    as Hmem.
  { intros b0 (Hm & Hs & Hb) Hempty. unfold Read. destruct (Z.eqb_spec len 0); [lia|].
    destruct (DoRead_ok (InputStreamOk := TStringInput_ok) len (MemInput_ b0) Hm Hlen) as (chunk & m' & -> & Hm' & Hrest & Hsz & Hnil).
    eexists _, _. split; [done|]. unfold buffered_rest, buffered_good. cbn in *. rewrite Hrest.
    split_and!; [done|done|done|by rewrite app_assoc|done|].
    intros ->. rewrite Hnil in Hrest by done. cbn in *. rewrite <- Hrest. cbn. apply Hempty. by apply Hnil. }
  destruct (Exhausted (MemInput_ b)) eqn:He; cbn [andb].
  - destruct Hg as (Hm & Hs & Hb). pose proof (proj1 (exhausted_rest _ Hm) He) as Hr0.
    destruct (BufLen b `div` 2 <? len).
    + destruct (Read_ok len (Slave_ b) Hs Hlen) as (chunk & s' & -> & Hs' & Hrest & Hsz & Hnil).
      eexists _, _. split; [done|]. unfold buffered_rest, buffered_good. cbn. by rewrite Hr0.
    + destruct (refill_ok b) as (chunk & s' & Hr & Hs' & Hrest & Hnil & Hg'); [done..|].
      unfold refill. rewrite Hr. cbn [mbind outcome_bind fst snd].
      destruct (Hmem _ Hg') as (c & b' & -> & Hg2 & Hrest2 & Hsz & Hnil2); cbn.
      { intros Hc. rewrite string_input_rest in Hc. subst chunk.
        unfold buffered_rest in Hrest. rewrite Hr0, Hnil in Hrest by done. by cbn in Hrest. }
      exists c, b'. split_and!; try done. unfold buffered_rest at 1 in Hrest2. cbn in Hrest2.
      * rewrite string_input_rest in Hrest2. by rewrite Hrest, Hrest2.
      * intros Hc. rewrite Hrest. specialize (Hnil2 Hc). unfold buffered_rest in Hnil2. cbn in Hnil2.
        by rewrite string_input_rest in Hnil2.
  - apply Hmem; [done|]. intros Hr. destruct Hg as (Hm & _).
    by rewrite (proj2 (exhausted_rest _ Hm) Hr) in He.
Qed.

Lemma append_chunk_fst res s_tmp : (append_chunk res s_tmp).1 = res ++ s_tmp.
Proof using Type.
  unfold append_chunk. destruct (Z.eqb_spec (vsize res) 0) as [Hz|]; [|done].
  destruct res; [done|]. rewrite vsize_cons in Hz. pose proof (vsize_nonneg res). lia.
Qed.

(** Reading up to a character within the buffer: either it is there, or the whole
    buffer is taken. *)
Lemma mem_ReadTo_ok st to m : string_good m → string_rest m ≠ [] →
  ∃ m', ReadTo st to m = Ret ((read_to to (string_rest m)).1, m') ∧ string_good m' ∧
    string_rest m' = (cut_at to (string_rest m)).2 ∧
    (find_char to (string_rest m) = None ∧ cut_at to (string_rest m) = (string_rest m, []) ∨
     ∃ k, find_char to (string_rest m) = Some k ∧ vsize (cut_at to (string_rest m)).1 ≠ vsize (string_rest m)).
Proof using Type.
  intros Hm Hne. destruct (TStringInput_DoReadTo_ok st to m Hm) as [_ Hr].
  destruct (Hr Hne) as (m' & Heq & Hm' & Hrest). exists m'.
  split; [exact Heq|]. split; [exact Hm'|]. split; [exact Hrest|].
  pose proof (cut_at_app_None to (string_rest m) []) as HNone.
  pose proof (cut_at_app_Some to (string_rest m) []) as HSome.
  destruct (find_char to (string_rest m)) as [k|].
  - right. exists k. split; [done|]. destruct (HSome k eq_refl) as [Hcut Hk].
    rewrite !app_nil_r in Hcut. rewrite Hcut. cbn. unfold vsize. rewrite length_take. lia.
  - left. split; [done|]. specialize (HNone eq_refl). cbn in HNone. by rewrite !app_nil_r in HNone.
Qed.

(** The result of [ReadTo] from a buffer with [fuel] passes left. *)
Definition read_to_result (run : TString → TString → Z → TBufferedInput S → outcome (Z * TString * TBufferedInput S))
    (to : Z) (b : TBufferedInput S) : Prop :=
  ∀ res s_tmp ret, ∃ b',
    run res s_tmp ret b =
      Ret (ret + (vsize (buffered_rest b) - vsize (buffered_rest b')),
           res ++ (cut_at to (buffered_rest b)).1, b') ∧
    buffered_good b' ∧ buffered_rest b' = (cut_at to (buffered_rest b)).2.

(** One pass over a buffer that is not empty: the chunk is searched, and the
    remaining passes follow when the character is not in it. *)
Lemma buffered_pass_ok fuel to b : buffered_good b → string_rest (MemInput_ b) ≠ [] →
  (∀ m', string_good m' → string_rest m' = [] →
     read_to_result (λ res s_tmp ret, buffered_read_to fuel res s_tmp ret to) to (with_mem b m')) →
  read_to_result (λ res s_tmp ret b,
    let a_len := Avail (MemInput_ b) in
    r ← ReadTo s_tmp to (MemInput_ b);
    let '(n, s_tmp, mem) := r in
    let b := with_mem b mem in
    let s_len := vsize s_tmp in
    let '(res, s_tmp) := append_chunk res s_tmp in
    if negb (s_len =? a_len) then Ret (ret + n, res, b)
    else buffered_read_to fuel res s_tmp (ret + n) to b) to b.
Proof using Type.
  intros (Hm & Hs & Hb) Hne IH res s_tmp ret.
  assert (buffered_rest b = string_rest (MemInput_ b) ++ rest (Slave_ b)) as Hbr by done.
  set (l := string_rest (MemInput_ b)) in *.
  destruct (mem_ReadTo_ok s_tmp to (MemInput_ b) Hm Hne) as (m' & -> & Hm' & Hr' & Hcase).
  fold l in Hr', Hcase. rewrite bind_Ret. unfold read_to. cbn [fst snd]. rewrite string_avail by done. fold l.
  assert (∀ b', b' = with_mem b m' → buffered_rest b' = string_rest m' ++ rest (Slave_ b)) as Hwm
    by (by intros b' ->).
  destruct (append_chunk res (cut_at to l).1) as [res' s_tmp'] eqn:Hres.
  apply (f_equal fst) in Hres. rewrite append_chunk_fst in Hres. cbn in Hres. subst res'.
  destruct Hcase as [[HNone Hcut]|(k & HSome & Hsz)].
  - rewrite Hcut in *. cbn [fst snd] in *. rewrite Z.eqb_refl. cbn [negb].
    destruct (IH m' Hm' Hr' (res ++ l) s_tmp' (ret + (vsize l - vsize (@nil Z)))) as (b' & -> & Hg' & Hrest').
    exists b'. rewrite (Hwm _ eq_refl), Hr' in Hrest' |- *. cbn [app] in *. rewrite Hbr.
    rewrite (cut_at_app_None _ _ _ HNone). cbn [fst snd app]. split; [|split; [exact Hg'|done]].
    rewrite app_assoc, vsize_app, vsize_nil. do 3 f_equal. lia.
  - rewrite (proj2 (Z.eqb_neq _ _)) by done. cbn [negb].
    destruct (cut_at_app_Some _ _ (rest (Slave_ b)) _ HSome) as [Hcut' _].
    destruct (cut_at_app_Some _ _ [] _ HSome) as [Hcut0 _]. rewrite !app_nil_r in Hcut0.
    rewrite Hcut0 in *. cbn [fst snd] in *. rewrite Hbr, Hcut'. cbn [fst snd].
    exists (with_mem b m'). rewrite (Hwm _ eq_refl), Hr'. split; [|by split_and!; try apply Hm'].
    rewrite !vsize_app. do 3 f_equal. lia.
Qed.

Lemma buffered_read_to_ok fuel to b : buffered_good b →
  ((if decide (string_rest (MemInput_ b) = []) then 0 else 1) + length (rest (Slave_ b)) < fuel)%nat →
  read_to_result (λ res s_tmp ret, buffered_read_to fuel res s_tmp ret to) to b.
Proof using Type.
  revert b. induction fuel as [|fuel IH]; intros b Hg Hf; [lia|].
  assert (∀ b1, buffered_good b1 → string_rest (MemInput_ b1) ≠ [] → (length (rest (Slave_ b1)) < fuel)%nat →
    ∀ m', string_good m' → string_rest m' = [] →
     read_to_result (λ res s_tmp ret, buffered_read_to fuel res s_tmp ret to) to (with_mem b1 m')) as Hnext.
  { intros b1 (_ & Hs1 & Hb1) Hne Hf1 m' Hm' Hr'. apply IH; [done|]. cbn. rewrite decide_True by done. lia. }
  intros res s_tmp ret. cbn [buffered_read_to]. destruct (Exhausted (MemInput_ b)) eqn:He.
  - destruct (refill_ok b Hg He) as (chunk & s' & -> & Hs' & Hrest & Hnil & Hg').
    destruct Hg as (Hm & Hs & Hb). pose proof (proj1 (exhausted_rest _ Hm) He) as Hr0.
    rewrite bind_Ret. cbn [fst snd]. destruct chunk as [|c chunk].
    + change (vsize (@nil Z) =? 0) with true. cbv iota. rewrite bind_Ret. cbn [fst snd].
      assert (buffered_rest b = []) as Hb0 by (unfold buffered_rest; by rewrite Hr0, Hnil).
      assert (rest s' = []) as Hs0 by (by rewrite Hb0 in Hrest).
      set (b2 := {| Slave_ := s'; MemInput_ := MemInput_ b; BufLen := BufLen b |}).
      assert (buffered_rest b2 = []) as Hb2 by (unfold buffered_rest; cbn; by rewrite Hr0, Hs0).
      exists b2. rewrite Hb0, Hb2. split_and!; try done. cbn. rewrite app_nil_r.
      do 3 f_equal. unfold vsize. cbn. lia.
    + destruct (Z.eqb_spec (vsize (c :: chunk)) 0) as [Hz|_].
      { rewrite vsize_cons in Hz. pose proof (vsize_nonneg chunk). lia. }
      rewrite bind_Ret. cbn [fst snd].
      assert (length (rest s') < fuel)%nat as Hf1.
      { rewrite decide_True in Hf by done. unfold buffered_rest in Hrest. rewrite Hr0 in Hrest.
        cbn in Hrest. rewrite Hrest in Hf. cbn in Hf. rewrite length_app in Hf. lia. }
      rewrite Hrest. apply (buffered_pass_ok fuel to _ Hg'); [done|]. by apply Hnext.
  - rewrite bind_Ret. cbn [fst snd].
    assert (string_rest (MemInput_ b) ≠ []) as Hne.
    { intros Hr. destruct Hg as (Hm & _). by rewrite (proj2 (exhausted_rest _ Hm) Hr) in He. }
    rewrite decide_False in Hf by done. apply buffered_pass_ok; [done..|]. apply Hnext; [done..|lia].
Qed.

#[export] Program Instance TBufferedInput_ok : InputStreamOk (TBufferedInput S) := {
  rest := buffered_rest;
  good := buffered_good;
}.
Next Obligation.
  intros b (Hm & Hs & _). cbn. unfold buffered_rest. rewrite length_app.
  pose proof (rest_size (Slave_ b) Hs). unfold string_rest. rewrite length_drop. lia.
Qed.
Next Obligation. exact TBufferedInput_Read_ok. Qed.
Next Obligation.
  intros st ch b Hg. destruct (buffered_read_to_ok (2 + stream_size (Slave_ b)) ch b Hg) with (res := @nil Z) (s_tmp := @nil Z) (ret := 0)
    as (b' & Heq & Hg' & Hr').
  { destruct Hg as (_ & Hs & _). pose proof (rest_size (Slave_ b) Hs). case_decide; lia. }
  cbn [DoReadTo TBufferedInput_stream]. unfold TBufferedInput_ReadTo. rewrite Heq. split; intros Hrest.
  - exists [], b'. rewrite Hr', Hrest. by split_and!.
  - exists b'. unfold read_to. cbn [fst snd]. rewrite Hr'. by split_and!.
Qed.

End BufferedOk.

Lemma open_file_good contents os : good (open_file contents os) ∧ rest (open_file contents os) = contents.
Proof. split; [|done]. split_and!; [apply string_input_good|done|done]. Qed.

(** ** Lines *)

(** What [ReadLine] makes of the characters before the line feed. *)
Definition strip_cr (l : TString) : TString :=
  if bool_decide (list.last l = Some 13) then removelast l else l.

(** The lines of a text: the characters between line feeds, each without the carriage
    return at its end; nothing follows a line feed at the end of the text. *)
Fixpoint lines (fuel : nat) (l : TString) : list TString :=
  match fuel, l with
  | S fuel, _ :: _ => strip_cr (cut_at 10 l).1 :: lines fuel (cut_at 10 l).2
  | _, _ => []
  end.
Definition lines_of (l : TString) : list TString := lines (length l) l.

Lemma lines_fuel fuel fuel' l : (length l ≤ fuel)%nat → (length l ≤ fuel')%nat → lines fuel l = lines fuel' l.
Proof.
  revert fuel' l. induction fuel as [|fuel IH]; intros [|fuel'] [|c l] H H'; cbn [length] in *; try done; try lia.
  cbn [lines]. f_equal. apply IH; pose proof (cut_at_rest 10 (c :: l)); cbn [length] in *; lia.
Qed.

Lemma lines_of_cons l : l ≠ [] → lines_of l = strip_cr (cut_at 10 l).1 :: lines_of (cut_at 10 l).2.
Proof.
  intros Hl. unfold lines_of at 1. destruct l as [|c l]; [done|]. cbn [length lines]. f_equal.
  apply lines_fuel; pose proof (cut_at_rest 10 (c :: l)); cbn [length] in *; lia.
Qed.

Section Lines.
  Context {S : Type} `{!IInputStream S, !InputStreamOk S}.

(** [ReadLine] takes the first line off a stream. *)
Lemma ReadLine_ok st s : good s →
  match rest s with
  | [] => ∃ st' s', ReadLine st s = Ret (0, st', s') ∧ good s' ∧ rest s' = []
  | _ => ∃ n s', ReadLine st s = Ret (n, strip_cr (cut_at 10 (rest s)).1, s') ∧ 0 < n ∧ good s' ∧
           rest s' = (cut_at 10 (rest s)).2
  end.
Proof using Type.
  intros Hg. unfold ReadLine, ReadTo. destruct (DoReadTo_ok st 10 s Hg) as [Hnil Hcons].
  destruct (rest s) as [|c l] eqn:Hr.
  - destruct (Hnil eq_refl) as (st' & s' & -> & Hg' & Hr'). rewrite bind_Ret. cbn. eauto.
  - destruct (Hcons ltac:(done)) as (s' & -> & Hg' & Hr'). rewrite bind_Ret.
    pose proof (cut_at_rest 10 (c :: l)) as Hlt. unfold read_to in *. cbn [fst snd length] in *.
    assert (0 < vsize (c :: l) - vsize (cut_at 10 (c :: l)).2) as Hn by (unfold vsize; cbn [length]; lia).
    rewrite (proj2 (Z.eqb_neq _ 0)) by lia. cbn [negb andb]. unfold strip_cr. eauto 10.
Qed.

End Lines.

(** ** Numbers in a text *)

(** What is left after leading delimiters, and the number read from there. *)
Fixpoint drop_delimiters (l : TString) : TString :=
  match l with
  | [] => []
  | c :: l' => if IsStdDelimiter c then drop_delimiters l' else l
  end.
Fixpoint take_number (buf l : TString) : TString * TString :=
  match l with
  | [] => (buf, [])
  | c :: l => if negb (IsStdDelimiter c) && (vsize buf <? 127)
              then take_number (buf ++ [c]) l else (buf, l)
  end.
Definition next_number (l : TString) : TString * TString :=
  match drop_delimiters l with
  | [] => ([], [])
  | c :: l => take_number [c] l
  end.

Section Numbers.
  Context {S : Type} `{!IInputStream S, !InputStreamOk S}.

Lemma ReadChar_ok s : good s → ∃ s', ReadChar s = Ret (head (rest s), s') ∧ good s' ∧ rest s' = tail (rest s).
Proof using Type.
  intros Hg. unfold ReadChar. destruct (DoRead_ok 1 s Hg ltac:(lia)) as (chunk & s' & -> & Hg' & Hrest & Hsz & Hnil).
  rewrite bind_Ret. exists s'. cbn. destruct chunk as [|c [|? ?]].
  - rewrite Hnil in Hrest |- * by done. cbn in *. by rewrite <- Hrest.
  - by rewrite Hrest.
  - rewrite !vsize_cons in Hsz. pose proof (vsize_nonneg l). lia.
Qed.

Lemma skip_delimiters_ok fuel s : good s → (length (rest s) < fuel)%nat →
  ∃ s', skip_delimiters fuel s = Ret (head (drop_delimiters (rest s)), s') ∧ good s' ∧
    rest s' = tail (drop_delimiters (rest s)).
Proof using Type.
  revert s. induction fuel as [|fuel IH]; intros s Hg Hf; [lia|]. cbn [skip_delimiters].
  destruct (ReadChar_ok s Hg) as (s' & -> & Hg' & Hr). rewrite bind_Ret. cbn [fst snd].
  destruct (rest s) as [|c l]; cbn [head tail drop_delimiters length] in *; [eauto|].
  destruct (IsStdDelimiter c); [|eauto]. rewrite <- Hr. apply IH; [done|]. rewrite Hr. lia.
Qed.

Lemma read_number_ok fuel buf s : good s → (length (rest s) < fuel)%nat →
  ∃ s', read_number fuel buf s = Ret ((take_number buf (rest s)).1, s') ∧ good s' ∧
    rest s' = (take_number buf (rest s)).2.
Proof using Type.
  revert buf s. induction fuel as [|fuel IH]; intros buf s Hg Hf; [lia|]. cbn [read_number].
  destruct (ReadChar_ok s Hg) as (s' & -> & Hg' & Hr). rewrite bind_Ret. cbn [fst snd].
  destruct (rest s) as [|c l]; cbn [head tail take_number length] in *; [eauto|].
  destruct (negb _ && _); [|eauto]. rewrite <- Hr. apply IH; [done|]. rewrite Hr. lia.
Qed.

(** [operator>>] parses the next number of the stream. *)
Lemma In_number_ok t s : good s →
  ∃ s', In_number t s = (v ← IntFromString t 10 (next_number (rest s)).1; Ret (v, s')) ∧ good s' ∧
    rest s' = (next_number (rest s)).2.
Proof using Type.
  intros Hg. unfold In_number. pose proof (rest_size s Hg) as Hsz.
  destruct (skip_delimiters_ok (Datatypes.S (stream_size s)) s Hg ltac:(lia)) as (s1 & -> & Hg1 & Hr1).
  rewrite bind_Ret. cbn [fst snd]. unfold next_number.
  assert (length (drop_delimiters (rest s)) ≤ length (rest s))%nat as Hd.
  { clear. induction (rest s) as [|c l IH]; cbn; [done|]. destruct (IsStdDelimiter c); cbn; lia. }
  destruct (read_number_ok (Datatypes.S (stream_size s))
    (match head (drop_delimiters (rest s)) with Some c => [c] | None => [] end) s1 Hg1) as (s2 & -> & Hg2 & Hr2).
  { rewrite Hr1. destruct (drop_delimiters (rest s)); cbn in *; lia. }
  rewrite bind_Ret. cbn [fst snd]. exists s2. rewrite Hr1 in *.
  destruct (drop_delimiters (rest s)); cbn [head tail] in *; done.
Qed.

End Numbers.

(** The number a printed text starts with. *)
Lemma take_number_text buf cs l : vsize buf + vsize cs ≤ 127 →
  Forall (λ c, c = chr "-" ∨ 48 ≤ c < 128) cs → (∃ d, head l = Some d ∧ IsStdDelimiter d = true) ∨ l = [] →
  take_number buf (cs ++ l) = (buf ++ cs, tail l).
Proof.
  intros Hsz Hcs Hl. revert buf Hsz. induction Hcs as [|c cs Hc _ IH]; intros buf Hsz.
  - rewrite app_nil_r. destruct Hl as [(d & Hd & Hdel)| ->]; [|done].
    destruct l as [|x l]; [done|]. injection Hd as ->. cbn. by rewrite Hdel.
  - cbn. rewrite vsize_cons in Hsz. pose proof (vsize_nonneg cs).
    assert (IsStdDelimiter c = false) as ->.
    { unfold IsStdDelimiter. assert (chr "-" = 45) as Hminus by done. rewrite !orb_false_iff, !Z.eqb_neq. lia. }
    rewrite (proj2 (Z.ltb_lt _ _)) by lia. cbn [negb andb]. rewrite IH; [by rewrite <- app_assoc|].
    rewrite vsize_snoc. lia.
Qed.

Lemma next_number_text cs l : 0 < vsize cs ≤ 127 →
  Forall (λ c, c = chr "-" ∨ 48 ≤ c < 128) cs → (∃ d, head l = Some d ∧ IsStdDelimiter d = true) ∨ l = [] →
  next_number (cs ++ l) = (cs, tail l).
Proof.
  intros Hsz Hcs Hl. unfold next_number. destruct cs as [|c cs]; [unfold vsize in Hsz; cbn in Hsz; lia|].
  apply Forall_cons_1 in Hcs as [Hc Hcs]. cbn [app drop_delimiters].
  assert (IsStdDelimiter c = false) as ->.
  { unfold IsStdDelimiter. assert (chr "-" = 45) as Hminus by done. rewrite !orb_false_iff, !Z.eqb_neq. lia. }
  apply (take_number_text [c]); [|done..]. rewrite vsize_cons in *. unfold vsize in *. cbn. lia.
Qed.

(** ** Output through a buffer *)

(** [TBufferedOutputBase::TImpl] with a buffer of fixed size ([TSimpleImpl]): what the
    slave was given, what [MemOut_] holds and the size of the buffer. *)
Record TBufferedOutput : Type := { out_slave : TString; out_stored : TString; out_len : Z }.

Definition TBufferedOutput_new (len : Z) : TBufferedOutput :=
  {| out_slave := []; out_stored := []; out_len := len |}.

(** [TMemoryOutput::DoWrite] into the buffer. *)
Definition MemOut_Write (data : TString) (o : TBufferedOutput) : outcome TBufferedOutput :=
  _ ← ensure (vsize (out_stored o) + vsize data <=? out_len o) ENoRoom;
  Ret {| out_slave := out_slave o; out_stored := out_stored o ++ data; out_len := out_len o |}.

(** [TImpl::Write(buf, len)] *)
Definition TBufferedOutput_Write (data : TString) (o : TBufferedOutput) : outcome TBufferedOutput :=
  let len := vsize data in
  let stored := vsize (out_stored o) in
  if len <=? out_len o - stored then MemOut_Write data o
  else
    let full_len := stored + len in
    let good_len := full_len - full_len `mod` out_len o in
    let write_from_buf := u64 (good_len - stored) in
    let parts := (if negb (stored =? 0) then [out_stored o] else []) ++
                 (if negb (write_from_buf =? 0) then [take (Z.to_nat write_from_buf) data] else []) in
    let o := {| out_slave := out_slave o ++ concat parts; out_stored := []; out_len := out_len o |} in
    if write_from_buf <? len then MemOut_Write (drop (Z.to_nat write_from_buf) data) o else Ret o.

(** [TImpl::Flush()], which [Finish()] and the destructor call. *)
Definition TBufferedOutput_Flush (o : TBufferedOutput) : outcome TBufferedOutput :=
  Ret {| out_slave := out_slave o ++ out_stored o; out_stored := []; out_len := out_len o |}.

(** The calls a stream gets. *)
Inductive output_call : Type :=
| CWrite (data : TString)
| CFlush.

(** [Write] of the interface does nothing for an empty block. *)
Definition output_step (o : TBufferedOutput) (c : output_call) : outcome TBufferedOutput :=
  match c with
  | CWrite data => if vsize data =? 0 then Ret o else TBufferedOutput_Write data o
  | CFlush => TBufferedOutput_Flush o
  end.

Definition written (calls : list output_call) : TString :=
  concat ((λ c, match c with CWrite data => data | CFlush => [] end) <$> calls).

(** The invariant of the buffer. *)
Definition output_inv (len : Z) (calls : list output_call) (o : TBufferedOutput) : Prop :=
  out_len o = len ∧ vsize (out_stored o) ≤ len ∧ out_slave o ++ out_stored o = written calls.

Lemma written_snoc calls c :
  written (calls ++ [c]) = written calls ++ match c with CWrite data => data | CFlush => [] end.
Proof. unfold written. by rewrite fmap_app, concat_app; cbn; rewrite app_nil_r. Qed.

Lemma MemOut_Write_ok data o : vsize (out_stored o) + vsize data ≤ out_len o →
  MemOut_Write data o =
    Ret {| out_slave := out_slave o; out_stored := out_stored o ++ data; out_len := out_len o |}.
Proof. intros H. unfold MemOut_Write. by rewrite (proj2 (ensure_Ret _ _)) by (by apply Z.leb_le). Qed.

Lemma output_step_inv len calls o c : 0 < len → vsize (written (calls ++ [c])) < 2 ^ 63 →
  output_inv len calls o → ∃ o', output_step o c = Ret o' ∧ output_inv len (calls ++ [c]) o'.
Proof.
  intros Hlen Hbig (Hl & Hst & Hall). unfold output_inv. rewrite written_snoc in *. rewrite <- Hall in *.
  destruct c as [data|]; cbn [output_step].
  - destruct (Z.eqb_spec (vsize data) 0) as [Hz|Hz].
    { exists o. destruct data; [|rewrite vsize_cons in Hz; pose proof (vsize_nonneg data); lia].
      by rewrite app_nil_r. }
    unfold TBufferedOutput_Write. destruct (Z.leb_spec (vsize data) (out_len o - vsize (out_stored o))).
    { rewrite MemOut_Write_ok by lia. eexists. split; [done|]. cbn. rewrite vsize_app.
      split_and!; [done|lia|by rewrite app_assoc]. }
    set (full := vsize (out_stored o) + vsize data). rewrite Hl in *.
    pose proof (Z.mod_pos_bound full len Hlen). pose proof (vsize_nonneg (out_stored o)).
    pose proof (vsize_nonneg data). pose proof (vsize_nonneg (out_slave o)).
    rewrite !vsize_app in Hbig.
    assert (len ≤ full - full `mod` len) as Hgood.
    { pose proof (Z.div_mod full len ltac:(lia)). assert (1 ≤ full `div` len); [|nia].
      apply Z.div_le_lower_bound; lia. }
    rewrite u64_small by lia. set (w := full - full `mod` len - vsize (out_stored o)).
    assert (concat ((if negb (vsize (out_stored o) =? 0) then [out_stored o] else []) ++
       (if negb (w =? 0) then [take (Z.to_nat w) data] else [])) = out_stored o ++ take (Z.to_nat w) data) as ->.
    { rewrite concat_app. f_equal.
      - destruct (Z.eqb_spec (vsize (out_stored o)) 0) as [Hs0|]; cbn; [|by rewrite app_nil_r].
        destruct (out_stored o); [done|]. rewrite vsize_cons in Hs0. pose proof (vsize_nonneg l). lia.
      - destruct (Z.eqb_spec w 0) as [->|]; cbn; [done|by rewrite app_nil_r]. }
    destruct (Z.ltb_spec w (vsize data)).
    + rewrite MemOut_Write_ok.
      * eexists. split; [done|]. cbn. split_and!; [done| |].
        -- unfold vsize in *. rewrite length_drop. lia.
        -- by rewrite <- !app_assoc, take_drop.
      * unfold vsize in *. rewrite length_drop. cbn. lia.
    + eexists. split; [done|]. cbn. split_and!; [done|change (0 ≤ len); lia|].
      rewrite app_nil_r, take_ge by (unfold vsize in *; lia). by rewrite app_assoc.
  - eexists. split; [done|]. cbn. rewrite !app_nil_r. split_and!; [done|change (0 ≤ len); lia|done].
Qed.

(** C32: whatever a buffered output stream is asked to write and flush, its buffer
    never overflows, what the slave got followed by what the buffer holds is exactly
    what was written, and a flush at the end leaves all of it with the slave. *)
Theorem buffered_output_invariant len calls :
  0 < len → vsize (written calls) < 2 ^ 63 →
  ∃ o, mfold output_step (TBufferedOutput_new len) calls = Ret o ∧
    vsize (out_stored o) ≤ len ∧ out_slave o ++ out_stored o = written calls ∧
    ∃ o', TBufferedOutput_Flush o = Ret o' ∧ out_slave o' = written calls.
Proof.
  intros Hlen Hbig.
  destruct (mfold_inv (output_inv len) output_step calls (TBufferedOutput_new len)) as (o & Ho & _ & Hst & Hall).
  - split_and!; [done|change (0 ≤ len); lia|done].
  - intros pre c post o Hc Hinv. apply output_step_inv; [done| |done].
    rewrite Hc in Hbig. change (c :: post) with ([c] ++ post) in Hbig. rewrite app_assoc in Hbig.
    unfold written in *. rewrite fmap_app, concat_app, vsize_app in Hbig.
    pose proof (vsize_nonneg (concat ((λ c, match c with CWrite data => data | CFlush => [] end) <$> post))). lia.
  - exists o. split_and!; [done..|]. eexists. split; [done|]. exact Hall.
Qed.

Lemma buffered_output_invariant_witness :
  0 < 3 ∧ ∃ o, mfold output_step (TBufferedOutput_new 3)
      [CWrite (STRINGBUF "ab"); CWrite (STRINGBUF "cdefg"); CFlush; CWrite (STRINGBUF "h")] = Ret o ∧
    vsize (out_stored o) ≤ 3 ∧ out_slave o ++ out_stored o = STRINGBUF "abcdefgh" ∧
    ∃ o', TBufferedOutput_Flush o = Ret o' ∧ out_slave o' = STRINGBUF "abcdefgh".
Proof.
  split; [lia|].
  apply (buffered_output_invariant 3
    [CWrite (STRINGBUF "ab"); CWrite (STRINGBUF "cdefg"); CFlush; CWrite (STRINGBUF "h")]); [lia|reflexivity].
Defined.
