(* ===== verification/XRange.v ===== *)
(** * Integer ranges: [util/generic/xrange.h]

    [xrange(a, b)] and [xrange(a, b, step)] are the loops of the whole program.
    A range is its bounds; iterating it increments an iterator until it equals
    the end iterator.  The [T] of the templates is an integer type wide enough
    for the bounds, so the values are unbounded here.  The fuel of a loop is the
    number of values it can visit; running out of it is not a result of its
    own, and [simple_range_elements] and [stepped_range_spec] show that it never
    happens. *)
From S2P Require Import Prelude.

(** ** [TSimpleXRange] *)

Record TSimpleXRange : Type := { xr_start : Z; xr_finish : Z }.

(** The constructor clamps an empty range: [Finish(Max(start, finish))]. *)
Definition simple_range (start finish : Z) : TSimpleXRange :=
  {| xr_start := start; xr_finish := Z.max start finish |}.

Definition simple_begin (r : TSimpleXRange) : Z := xr_start r.
Definition simple_end (r : TSimpleXRange) : Z := xr_finish r.
Definition simple_size (r : TSimpleXRange) : Z := xr_finish r - xr_start r.

(** [for (auto i : range)]: run [++it] while [it != end]. *)
Fixpoint iterate (step finish : Z) (fuel : nat) (it : Z) : option (list Z) :=
  if it =? finish then Some []
  else match fuel with
       | O => None
       | S fuel => cons it <$> iterate step finish fuel (it + step)
       end.

(** [operator Container()]: the values a range-for visits. *)
Definition simple_elements (r : TSimpleXRange) : option (list Z) :=
  iterate 1 (simple_end r) (Z.to_nat (simple_size r)) (simple_begin r).

(** ** [TSteppedXRange] *)

Record TSteppedXRange : Type := { sr_start : Z; sr_step : Z; sr_finish : Z }.

(** [CalcRealFinish] for a positive step. *)
Definition calc_up (start finish step : Z) : Z :=
  if start <? finish then start + step * (Z.quot (finish - 1 - start) step + 1)
  else start.

(** [CalcRealFinish]; [Y_ASSERT(step != 0)] is a debug check. *)
Definition CalcRealFinish (start exp_finish step : Z) : Z :=
  if 0 <? step then calc_up start exp_finish step
  else start - calc_up 0 (start - exp_finish) (- step).

Definition stepped_range (start finish step : Z) : TSteppedXRange :=
  {| sr_start := start; sr_step := step; sr_finish := CalcRealFinish start finish step |}.

Definition stepped_size (r : TSteppedXRange) : Z :=
  Z.quot (sr_finish r - sr_start r) (sr_step r).

Definition stepped_elements (r : TSteppedXRange) : option (list Z) :=
  iterate (sr_step r) (sr_finish r) (Z.to_nat (stepped_size r)) (sr_start r).

(** ** The functions *)

(** [xrange(start, finish)] and [xrange(finish)], as the list of their values. *)
Definition xrange2 (start finish : Z) : list Z :=
  default [] (simple_elements (simple_range start finish)).
Definition xrange (finish : Z) : list Z := xrange2 0 finish.

(** ** Iteration *)

Lemma iterate_arith step start n :
  step ≠ 0 →
  iterate step (start + step * Z.of_nat n) n start =
    Some ((λ k, start + step * Z.of_nat k) <$> seq 0 n).
Proof.
  intros Hs. revert start. induction n as [|n IH]; intros start.
  - cbn -[Z.mul]. by rewrite Z.mul_0_r, Z.add_0_r, Z.eqb_refl.
  - cbn -[Z.mul Z.of_nat].
    destruct (Z.eqb_spec start (start + step * Z.of_nat (S n))); [nia|].
    replace (start + step * Z.of_nat (S n)) with ((start + step) + step * Z.of_nat n) by lia.
    rewrite IH. cbn -[Z.mul Z.of_nat]. f_equal. rewrite <- seq_shift.
    rewrite Z.mul_0_r, Z.add_0_r. f_equal.
    rewrite <- list_fmap_compose. apply list_fmap_ext. intros ? k _. cbn -[Z.mul Z.of_nat].
    lia.
Qed.

Lemma xrange2_seqZ a b : xrange2 a b = seqZ a (b - a).
Proof.
  unfold xrange2, simple_elements, simple_size, simple_begin, simple_end; cbn.
  destruct (Z.le_gt_cases b a).
  - rewrite Z.max_l, seqZ_nil by lia. replace (Z.to_nat (a - a)) with O by lia. cbn.
    by rewrite Z.eqb_refl.
  - rewrite Z.max_r by lia.
    replace b with (a + 1 * Z.of_nat (Z.to_nat (b - a))) at 1 by lia.
    rewrite iterate_arith by lia. cbn -[Z.mul Z.of_nat]. unfold seqZ.
    apply list_fmap_ext. intros; lia.
Qed.

Lemma xrange_seqZ n : xrange n = seqZ 0 n.
Proof. unfold xrange. rewrite xrange2_seqZ. f_equal. lia. Qed.

Lemma vsize_xrange n : 0 ≤ n → vsize (xrange n) = n.
Proof. intros. rewrite xrange_seqZ. unfold vsize. rewrite length_seqZ. lia. Qed.

Lemma elem_of_xrange n i : i ∈ xrange n ↔ 0 ≤ i < n.
Proof. rewrite xrange_seqZ, elem_of_seqZ. lia. Qed.

Lemma elem_of_xrange2 a b i : i ∈ xrange2 a b ↔ a ≤ i < b.
Proof. rewrite xrange2_seqZ, elem_of_seqZ. lia. Qed.

Lemma xrange_nonpos n : n ≤ 0 → xrange n = [].
Proof. intros. rewrite xrange_seqZ. by apply seqZ_nil. Qed.

Lemma xrange_S n : 0 ≤ n → xrange (n + 1) = xrange n ++ [n].
Proof. intros. rewrite !xrange_seqZ, seqZ_app by lia. done. Qed.

Lemma xrange_cons n : 0 < n → xrange n = 0 :: (Z.succ <$> xrange (n - 1)).
Proof.
  intros. rewrite !xrange_seqZ, seqZ_cons by done. f_equal.
  rewrite (list_fmap_ext Z.succ (Z.add 1)) by (intros; lia).
  by rewrite fmap_add_seqZ.
Qed.

(** The element before which a prefix of a range ends. *)
Lemma xrange_split n l x r :
  xrange n = l ++ x :: r → x = vsize l ∧ l = xrange x ∧ 0 ≤ x < n.
Proof.
  intros Hl.
  assert (xrange n !! length l = Some x) as Hx by (by rewrite Hl, list_lookup_middle).
  assert (take (length l) (xrange n) = l) as Ht by (by rewrite Hl, take_app_length).
  rewrite xrange_seqZ in Hx. apply lookup_seqZ in Hx as [-> ?].
  split_and!; [unfold vsize; lia| |lia|lia].
  rewrite <- Ht at 1. rewrite !xrange_seqZ.
  replace n with (Z.of_nat (length l) + (n - Z.of_nat (length l))) by lia.
  rewrite seqZ_app by lia.
  rewrite take_app_le by (rewrite length_seqZ; lia).
  apply take_ge. rewrite length_seqZ. lia.
Qed.

(** A loop over the indexes of a vector that assigns each element once. *)
Lemma mfold_update {A} (step : list A → Z → outcome (list A)) (g : nat → A → A) (l : list A) :
  (∀ acc i x, length acc = length l → (i < length l)%nat → acc !! i = Some x →
     step acc (Z.of_nat i) = Ret (<[i := g i x]> acc)) →
  mfold step l (xrange (vsize l)) = Ret (imap g l).
Proof.
  intros Hstep.
  set (I (done : list Z) (acc : list A) :=
    acc = imap (λ i x, if (i <? length done)%nat then g i x else x) l).
  destruct (mfold_inv I step (xrange (vsize l)) l) as (r & -> & Hr).
  - unfold I. symmetry. rewrite <- (list_fmap_id l) at 2. rewrite <- imap_const.
    apply imap_ext. done.
  - intros pre x rest acc Hl Hacc. apply xrange_split in Hl as (Hx & -> & Hn).
    unfold vsize in Hn, Hx. unfold I in Hacc.
    destruct (lookup_lt_is_Some_2 l (Z.to_nat x)) as [y Hy]; [lia|].
    assert (acc !! Z.to_nat x = Some y) as Ha.
    { rewrite Hacc, list_lookup_imap, Hy. cbn [fmap option_fmap option_map].
      by rewrite (proj2 (Nat.ltb_ge _ _)) by lia. }
    assert (length acc = length l) as Hlen by (by rewrite Hacc, length_imap).
    pose proof (Hstep acc (Z.to_nat x) y Hlen ltac:(lia) Ha) as Hs.
    rewrite Z2Nat.id in Hs by lia. rewrite Hs. eexists. split; [done|]. unfold I.
    apply list_eq. intros k. rewrite list_lookup_imap, length_app. cbn [length].
    destruct (decide (k = Z.to_nat x)) as [->|Hne].
    + rewrite list_lookup_insert_eq by lia. rewrite Hy. cbn [fmap option_fmap option_map].
      by rewrite (proj2 (Nat.ltb_lt _ _)) by lia.
    + rewrite list_lookup_insert_ne by done. rewrite Hacc, list_lookup_imap.
      destruct (l !! k); cbn [fmap option_fmap option_map]; [|done]. f_equal.
      destruct (Nat.ltb_spec k (length (xrange x) + 1)), (Nat.ltb_spec k (length (xrange x)));
        (done || lia).
  - f_equal. unfold I in Hr. rewrite Hr. apply imap_ext. intros i x Hx.
    apply lookup_lt_Some in Hx. rewrite xrange_seqZ, length_seqZ. unfold vsize.
    by rewrite (proj2 (Nat.ltb_lt _ _)) by lia.
Qed.

Lemma calc_up_spec start finish step :
  0 < step →
  ∃ n : nat, calc_up start finish step = start + step * Z.of_nat n ∧
    ∀ k : nat, (k < n)%nat ↔ start + step * Z.of_nat k < finish.
Proof.
  intros Hs. unfold calc_up. destruct (Z.ltb_spec start finish).
  - set (q := Z.quot (finish - 1 - start) step).
    assert (0 ≤ q) by (apply Z.quot_pos; lia).
    exists (Z.to_nat (q + 1)). split; [lia|].
    assert (step * q ≤ finish - 1 - start < step * q + step).
    { pose proof (Z.quot_rem' (finish - 1 - start) step).
      pose proof (Z.rem_bound_pos (finish - 1 - start) step). lia. }
    intros k. nia.
  - exists O. split; [lia|]. intros k. nia.
Qed.

(** ** Properties *)

(** [xrange(a, b)] visits exactly the integers of [\[a, b)] in increasing
    order, and nothing when [b <= a]. *)
Lemma simple_range_elements (a b : Z) :
  simple_elements (simple_range a b) = Some (seqZ a (b - a)).
Proof.
  pose proof (xrange2_seqZ a b) as H. unfold xrange2 in H.
  destruct (simple_elements (simple_range a b)) as [l|] eqn:Hl; [by cbn in H; subst|].
  exfalso. unfold simple_elements, simple_size, simple_begin, simple_end in Hl.
  cbn in Hl. replace (Z.max a b) with (a + 1 * Z.of_nat (Z.to_nat (Z.max a b - a))) in Hl at 1 by lia.
  by rewrite iterate_arith in Hl.
Qed.

(** [xrange(start, finish, step)] with a non-zero step stops, visits
    exactly the values [start + k * step] before [finish] (in the direction of
    the step) in order, and [size()] is their number. *)
Lemma stepped_range_spec (start finish step : Z) (Hstep : step ≠ 0) :
  ∃ n : nat,
    stepped_elements (stepped_range start finish step) =
      Some ((λ k, start + step * Z.of_nat k) <$> seq 0 n) ∧
    stepped_size (stepped_range start finish step) = Z.of_nat n ∧
    ∀ k : nat, (k < n)%nat ↔
      if 0 <? step then start + step * Z.of_nat k < finish
      else finish < start + step * Z.of_nat k.
Proof.
  assert (∃ n : nat, CalcRealFinish start finish step = start + step * Z.of_nat n ∧
    ∀ k : nat, (k < n)%nat ↔ if 0 <? step then start + step * Z.of_nat k < finish
      else finish < start + step * Z.of_nat k) as (n & Hn & Hk).
  { unfold CalcRealFinish. destruct (Z.ltb_spec 0 step) as [Hp|Hp].
    - by apply calc_up_spec.
    - destruct (calc_up_spec 0 (start - finish) (- step)) as (n & -> & Hk); [lia|].
      exists n. split; [lia|]. intros k. rewrite Hk. lia. }
  exists n. unfold stepped_elements, stepped_size; cbn. rewrite Hn.
  replace (start + step * Z.of_nat n - start) with (Z.of_nat n * step) by lia.
  rewrite Z.quot_mul by done. rewrite Nat2Z.id. split_and!; [|done|done].
  by apply iterate_arith.
Qed.

Example stepped_range_spec_witness :
  stepped_elements (stepped_range 10 1 (-4)) = Some [10; 6; 2] ∧
  ∃ n : nat,
    stepped_elements (stepped_range 10 1 (-4)) =
      Some ((λ k, 10 + -4 * Z.of_nat k) <$> seq 0 n) ∧
    stepped_size (stepped_range 10 1 (-4)) = Z.of_nat n ∧
    ∀ k : nat, (k < n)%nat ↔
      if 0 <? -4 then 10 + -4 * Z.of_nat k < 1 else 1 < 10 + -4 * Z.of_nat k.
Proof.
  split; [reflexivity|]. apply (stepped_range_spec 10 1 (-4)). discriminate.
Defined.
