(* ===== verification/Kmp.v ===== *)
(** * Searching a pattern: [util/string/kmp.h/.cpp]

    [ComputePrefixFunction] is the failure function of Knuth, Morris and Pratt in the
    form that skips the borders a mismatch rules out at once; [TKMPMatcher] finds the
    first occurrence of a pattern in a text, [TKMPStreamMatcher] reports the occurrences
    in a stream of symbols, none of which overlap.  A pointer into a text is a position
    in a list. *)
From S2P Require Import Prelude XRange.
Open Scope Z_scope.

Section Kmp.
  Context {T : Type} `{!EqDecision T}.

(** The loop [while ((j >= 0) && (pattern[j] != x)) j = prefixFunction[j]]. *)
Fixpoint fall_back (fuel : nat) (pattern : list T) (pf : list Z) (x : T) (j : Z) : outcome Z :=
  match fuel with
  | O => Fail (Undef UEndless)
  | S fuel =>
      if 0 <=? j then
        y ← vat pattern j;
        if decide (y = x) then Ret j
        else j ← vat pf j; fall_back fuel pattern pf x j
      else Ret j
  end.

(** Enough passes: each value of the function is below its argument. *)
Definition fall_fuel (pattern : list T) : nat := length pattern + 2.

(** A pass of the loop of [ComputePrefixFunction]. *)
Definition prefix_pass (pattern : list T) (s : list Z * Z) (i : Z) : outcome (list Z * Z) :=
  x ← vat pattern i;
  j ← fall_back (fall_fuel pattern) pattern s.1 x s.2;
  let i := i + 1 in
  let j := j + 1 in
  same ← (if i <? vsize pattern then
            y ← vat pattern i; z ← vat pattern j; Ret (bool_decide (y = z))
          else Ret false);
  v ← (if same : bool then vat s.1 j else Ret j);
  pf ← vset s.1 i v;
  Ret (pf, j).

(** [ComputePrefixFunction(begin, end, result)]; a new array holds some numbers. *)
Definition ComputePrefixFunction (pattern : list T) : outcome (list Z) :=
  _ ← ensure (negb (vsize pattern =? 0)) EEmptyPattern;
  pf ← vset (replicate (S (length pattern)) 0) 0 (-1);
  s ← mfold (prefix_pass pattern) (pf, -1) (xrange (vsize pattern));
  Ret s.1.

(** [TKMPMatcher] *)
Record TKMPMatcher : Type := { PrefixFunction : list Z; Pattern : list T }.

Definition new_TKMPMatcher (pattern : list T) : outcome TKMPMatcher :=
  pf ← ComputePrefixFunction pattern;
  Ret {| PrefixFunction := pf; Pattern := pattern |}.

(** The loop of [SubStr] over the rest of the text: the last [i] and [j]. *)
Fixpoint substr_loop (k : TKMPMatcher) (rest : list T) (i j : Z) : outcome (Z * Z) :=
  match rest with
  | [] => Ret (i, j)
  | x :: rest =>
      if j <? vsize (Pattern k) then
        j ← fall_back (fall_fuel (Pattern k)) (Pattern k) (PrefixFunction k) x j;
        substr_loop k rest (i + 1) (j + 1)
      else Ret (i, j)
  end.

(** [SubStr(begin, end, result)]: the position of the result. *)
Definition SubStr (k : TKMPMatcher) (text : list T) : outcome (option Z) :=
  r ← substr_loop k text 0 0;
  Ret (if r.2 =? vsize (Pattern k) then Some (r.1 - vsize (Pattern k)) else None).

(** [TKMPStreamMatcher]; the calls of the callback are a result. *)
Record TKMPStreamMatcher : Type := {
  SPrefixFunction : list Z; SPattern : list T; State : Z; Candidate : list T;
}.

Definition new_TKMPStreamMatcher (blank : T) (pattern : list T) : outcome TKMPStreamMatcher :=
  pf ← ComputePrefixFunction pattern;
  Ret {| SPrefixFunction := pf; SPattern := pattern; State := 0; Candidate := replicate (length pattern) blank |}.

(** [Push(symbol)]: the matcher and the argument of the callback, if it is called. *)
Definition Push (k : TKMPStreamMatcher) (symbol : T) : outcome (TKMPStreamMatcher * option (list T)) :=
  st ← fall_back (fall_fuel (SPattern k)) (SPattern k) (SPrefixFunction k) symbol (State k);
  candidate ← (if 0 <=? st then vset (Candidate k) st symbol else Ret (Candidate k));
  let st := st + 1 in
  let found := st =? vsize (SPattern k) in
  Ret ({| SPrefixFunction := SPrefixFunction k; SPattern := SPattern k;
          State := if found then 0 else st; Candidate := candidate |},
       if found then Some candidate else None).

Definition Clear (k : TKMPStreamMatcher) : TKMPStreamMatcher :=
  {| SPrefixFunction := SPrefixFunction k; SPattern := SPattern k; State := 0; Candidate := Candidate k |}.

(** All the symbols of a stream, with the calls of the callback. *)
Fixpoint push_all (k : TKMPStreamMatcher) (symbols : list T) : outcome (TKMPStreamMatcher * list (option (list T))) :=
  match symbols with
  | [] => Ret (k, [])
  | x :: symbols => r ← Push k x; s ← push_all r.1 symbols; Ret (s.1, r.2 :: s.2)
  end.

(** ** Borders *)

(** The first [k] symbols of the pattern end [u]. *)
Definition ends (p u : list T) (k : nat) : Prop := (k ≤ length p)%nat ∧ take k p `suffix_of` u.

Lemma ends_0 p u : ends p u 0.
Proof. split; [lia|]. apply suffix_nil. Qed.

Lemma ends_length p u k : ends p u k → (k ≤ length u)%nat.
Proof. intros [Hk Hs]. apply suffix_length in Hs. rewrite length_take in Hs. lia. Qed.

Lemma suffix_shorter (a b u : list T) : a `suffix_of` u → b `suffix_of` u → (length a ≤ length b)%nat → a `suffix_of` b.
Proof.
  intros [x Hx] [y Hy] Hl. exists (drop (length y) x).
  assert (Hlen : (length x + length a = length y + length b)%nat) by (rewrite <- !length_app; congruence).
  assert (Hd : drop (length y) (x ++ a) = b) by (by rewrite <- Hx, Hy, drop_app_length).
  rewrite <- Hd. rewrite drop_app_le by lia. done.
Qed.

(** Of two prefixes that end a text the shorter one ends the longer. *)
Lemma ends_border p u j k : ends p u j → ends p u k → (k ≤ j)%nat → ends p (take j p) k.
Proof.
  intros [Hj Hsj] [Hk Hsk] Hkj. split; [done|]. apply (suffix_shorter _ _ u); [done|done|]. rewrite !length_take. lia.
Qed.

Lemma ends_trans p u j k : ends p u j → ends p (take j p) k → ends p u k.
Proof. intros [_ Hj] [Hk Hs]. split; [done|]. by etrans. Qed.

Lemma ends_snoc p u x k : ends p (u ++ [x]) (S k) ↔ ends p u k ∧ p !! k = Some x.
Proof.
  split.
  - intros [Hk Hs]. destruct (lookup_lt_is_Some_2 p k) as [y Hy]; [lia|]. rewrite (take_S_r _ _ _ Hy) in Hs.
    apply suffix_snoc_inv_1 in Hs as Hyx. apply suffix_snoc_inv_2 in Hs. subst y. split; [split; [lia|done]|done].
  - intros [[Hk Hs] Hx]. pose proof (lookup_lt_Some _ _ _ Hx). split; [lia|]. rewrite (take_S_r _ _ _ Hx).
    by apply suffix_snoc.
Qed.

(** What the function must give at [j]: a border of the first [j] symbols that is not shorter than
    any border a mismatch at [j] leaves. *)
Definition fail_ok (p : list T) (j : nat) (f : Z) : Prop :=
  -1 ≤ f < Z.of_nat j ∧ (0 ≤ f → ends p (take j p) (Z.to_nat f)) ∧
  ∀ k, (k < j)%nat → ends p (take j p) k → p !! k ≠ p !! j → Z.of_nat k ≤ f.

Definition pf_ok (p : list T) (pf : list Z) (n : nat) : Prop :=
  ∀ j, (j < n)%nat → ∃ f, pf !! j = Some f ∧ fail_ok p j f.

(** The loop finds the longest of the prefixes that end [u] and go on with [x]. *)
Lemma fall_back_ok p pf x u : ∀ fuel (j : Z),
  -1 ≤ j < vsize p → j + 1 < Z.of_nat fuel → pf_ok p pf (Z.to_nat (j + 1)) → (0 ≤ j → ends p u (Z.to_nat j)) →
  ∃ j', fall_back fuel p pf x j = Ret j' ∧ -1 ≤ j' ≤ j ∧
    (0 ≤ j' → ends p u (Z.to_nat j') ∧ p !! Z.to_nat j' = Some x) ∧
    ∀ k, Z.of_nat k ≤ j → ends p u k → p !! k = Some x → Z.of_nat k ≤ j'.
Proof.
  intros fuel. induction fuel as [|fuel IH]; intros j Hj Hf Hpf Hu; [lia|]. cbn [fall_back].
  destruct (Z.leb_spec 0 j) as [H0|H0]; [|exists j; split; [done|]; split; [lia|]; split; [lia|]; lia].
  destruct (vat_in_range p j) as (y & Hy & Hyp); [lia|]. rewrite Hy, bind_Ret. specialize (Hu H0).
  destruct (decide (y = x)) as [->|Hne]; [exists j; auto with lia|].
  destruct (Hpf (Z.to_nat j)) as (f & Hfl & Hfr & Hfb & Hfm); [lia|].
  assert (Hv : vat pf j = Ret f) by (by apply vat_Ret). rewrite Hv, bind_Ret.
  destruct (IH f) as (j' & Hr & Hj' & Hend & Hmax); [lia|lia| | |].
  - intros k Hk. apply Hpf. lia.
  - intros Hf0. eapply ends_trans; [exact Hu|by apply Hfb].
  - exists j'. split; [done|]. split; [lia|]. split; [done|]. intros k Hk Hek Hxk.
    assert (Hkj : Z.of_nat k ≠ j) by (intros <-; rewrite Nat2Z.id in Hyp; congruence).
    apply Hmax; [|done|done]. apply Hfm; [lia| |congruence]. apply (ends_border p u); [done|done|lia].
Qed.

(** The state of [ComputePrefixFunction] before it looks at symbol [i]. *)
Definition prefix_inv (p : list T) (i : nat) (s : list Z * Z) : Prop :=
  length s.1 = S (length p) ∧ pf_ok p s.1 (S i) ∧ -1 ≤ s.2 < Z.of_nat i ∧
  (0 ≤ s.2 → ends p (take i p) (Z.to_nat s.2)) ∧
  ∀ k, (k < i)%nat → ends p (take i p) k → Z.of_nat k ≤ s.2.

(** The next longest border. *)
Lemma next_border p i x j j' : p !! i = Some x →
  (0 ≤ j' → ends p (take i p) (Z.to_nat j') ∧ p !! Z.to_nat j' = Some x) → -1 ≤ j' ≤ j →
  (∀ k, (k < i)%nat → ends p (take i p) k → Z.of_nat k ≤ j) →
  (∀ k, Z.of_nat k ≤ j → ends p (take i p) k → p !! k = Some x → Z.of_nat k ≤ j') →
  ends p (take (S i) p) (Z.to_nat (j' + 1)) ∧
  ∀ k, (k < S i)%nat → ends p (take (S i) p) k → Z.of_nat k ≤ j' + 1.
Proof.
  intros Hx Hend Hj Hlong Hmax. rewrite (take_S_r _ _ _ Hx). split.
  - destruct (decide (0 ≤ j')) as [H0|H0]; [|replace (Z.to_nat (j' + 1)) with O by lia; apply ends_0].
    replace (Z.to_nat (j' + 1)) with (S (Z.to_nat j')) by lia. by apply ends_snoc, Hend.
  - intros [|k] Hk He; [lia|]. apply ends_snoc in He as [He Hxk].
    assert (Z.of_nat k ≤ j) by (apply Hlong; [lia|done]). specialize (Hmax k ltac:(done) He Hxk). lia.
Qed.

Lemma pf_ok_insert p pf i v : length pf = S (length p) → (i < length p)%nat → pf_ok p pf (S i) →
  fail_ok p (S i) v → pf_ok p (<[S i := v]> pf) (S (S i)).
Proof.
  intros Hl Hi Hpf Hv j Hj. destruct (decide (j = S i)) as [->|Hne].
  - exists v. split; [|done]. apply list_lookup_insert_eq. lia.
  - rewrite list_lookup_insert_ne by done. apply Hpf. lia.
Qed.

Lemma prefix_pass_ok p i s : (i < length p)%nat → prefix_inv p i s →
  ∃ s', prefix_pass p s (Z.of_nat i) = Ret s' ∧ prefix_inv p (S i) s'.
Proof.
  destruct s as [pf j]. intros Hi (Hl & Hpf & Hj & Hend & Hlong). cbn [fst snd] in *. unfold prefix_pass, vsize in *. cbn [fst snd].
  destruct (vat_in_range p (Z.of_nat i)) as (x & Hx & Hxp); [unfold vsize; lia|]. rewrite Hx, bind_Ret. rewrite Nat2Z.id in Hxp.
  destruct (fall_back_ok p pf x (take i p) (fall_fuel p) j) as (j' & Hr & Hj' & He' & Hmax); [unfold vsize; lia|unfold fall_fuel; lia| |done|].
  { intros k Hk. apply Hpf. lia. }
  rewrite Hr, bind_Ret.
  destruct (next_border p i x j j' Hxp He' Hj' Hlong Hmax) as [Hends Hlongest].
  assert (Hval : ∃ v, (∀ B (K : Z → outcome B), (same ← (if Z.of_nat i + 1 <? Z.of_nat (length p) then
      y ← vat p (Z.of_nat i + 1); z ← vat p (j' + 1); Ret (bool_decide (y = z)) else Ret false);
      v ← (if same : bool then vat pf (j' + 1) else Ret (j' + 1)); K v) = K v) ∧ fail_ok p (S i) v).
  { assert (Hlast : fail_ok p (S i) (j' + 1)) by (split; [lia|]; split; [done|]; intros k Hk Hek _; by apply Hlongest).
    destruct (Z.ltb_spec (Z.of_nat i + 1) (Z.of_nat (length p))) as [Hlt|]; [|by exists (j' + 1)].
    destruct (vat_in_range p (Z.of_nat i + 1)) as (y & Hy & Hyp); [unfold vsize; lia|].
    destruct (vat_in_range p (j' + 1)) as (z & Hz & Hzp); [unfold vsize; lia|]. rewrite Hy, bind_Ret, Hz, !bind_Ret.
    case_bool_decide as Heq; [|by exists (j' + 1)]. subst z.
    destruct (Hpf (Z.to_nat (j' + 1))) as (f & Hfl & Hfr & Hfb & Hfm); [lia|].
    assert (Hv : vat pf (j' + 1) = Ret f) by (apply vat_Ret; split; [lia|done]).
    exists f. split; [intros B K; by rewrite bind_Ret, Hv|]. split; [lia|]. split.
    - intros Hf0. eapply ends_trans; [exact Hends|by apply Hfb].
    - intros k Hk Hek Hne. specialize (Hlongest k Hk Hek). replace (Z.to_nat (Z.of_nat i + 1)) with (S i) in Hyp by lia.
      assert (k ≠ Z.to_nat (j' + 1)) by (intros ->; congruence).
      apply Hfm; [lia| |congruence]. apply (ends_border p (take (S i) p)); [done|done|lia]. }
  destruct Hval as (v & Hv & Hok). rewrite Hv.
  assert (Hset : vset pf (Z.of_nat i + 1) v = Ret (<[S i := v]> pf)).
  { apply vset_Ret. unfold vsize. split; [lia|]. f_equal. lia. }
  rewrite Hset, bind_Ret. eexists. split; [done|]. unfold prefix_inv. cbn [fst snd]. split; [by rewrite length_insert|].
  split; [by apply pf_ok_insert|]. split; [lia|]. done.
Qed.

Lemma ComputePrefixFunction_ok p : p ≠ [] →
  ∃ pf, ComputePrefixFunction p = Ret pf ∧ pf_ok p pf (S (length p)).
Proof.
  intros Hne. unfold ComputePrefixFunction. assert (Hs : 0 < vsize p) by (by apply vsize_pos).
  replace (vsize p =? 0) with false by lia. unfold ensure. cbn [negb]. rewrite bind_Ret.
  assert (Hset : vset (replicate (S (length p)) 0) 0 (-1) = Ret (<[0%nat := -1]> (replicate (S (length p)) 0))).
  { apply vset_Ret. unfold vsize. rewrite length_replicate. split; [lia|done]. }
  rewrite Hset, bind_Ret.
  destruct (mfold_inv (λ dn s, prefix_inv p (length dn) s) (prefix_pass p) (xrange (vsize p))
    (<[0%nat := -1]> (replicate (S (length p)) 0), -1)) as (s & Hr & Hinv).
  - split; [cbn; by rewrite length_replicate|]. split; [|cbn; split; [lia|]; split; [lia|]; lia].
    intros [|j] Hj; [|cbn in Hj; lia]. exists (-1). split; [done|]. split; [lia|]. split; [lia|]. lia.
  - intros dn i rest s Hl HI. apply xrange_split in Hl as (-> & _ & Hi). unfold vsize in Hi.
    destruct (prefix_pass_ok p (length dn) s ltac:(lia) HI) as (s' & Hs' & HI').
    exists s'. split; [done|]. by rewrite length_app, Nat.add_1_r.
  - rewrite Hr, bind_Ret. exists s.1. split; [done|].
    assert (Hx : length (xrange (vsize p)) = length p) by (rewrite xrange_seqZ, length_seqZ; unfold vsize; lia).
    rewrite Hx in Hinv. apply Hinv.
Qed.

(** ** The search *)

(** The longest prefix of the pattern that ends what was read, while there was no occurrence. *)
Definition longest (p u : list T) (j : Z) : Prop :=
  0 ≤ j ∧ ends p u (Z.to_nat j) ∧ ∀ k, ends p u k → Z.of_nat k ≤ j.

Lemma longest_snoc p pf u x j : pf_ok p pf (length p) → longest p u j → j < vsize p →
  ∃ j', fall_back (fall_fuel p) p pf x j = Ret j' ∧ -1 ≤ j' < vsize p ∧ longest p (u ++ [x]) (j' + 1) ∧
    (0 ≤ j' → j' ≤ j ∧ p !! Z.to_nat j' = Some x).
Proof.
  intros Hpf (Hj & Hends & Hlong) Hlt.
  destruct (fall_back_ok p pf x u (fall_fuel p) j) as (j' & Hr & Hj' & He & Hmax); [lia|unfold fall_fuel, vsize in *; lia| |done|].
  { intros k Hk. apply Hpf. unfold vsize in *. lia. }
  exists j'. split; [done|]. split; [lia|]. split; [|intros H0; split; [lia|by apply He]]. split; [lia|]. split.
  - destruct (decide (0 ≤ j')) as [H0|H0]; [|replace (Z.to_nat (j' + 1)) with O by lia; apply ends_0].
    replace (Z.to_nat (j' + 1)) with (S (Z.to_nat j')) by lia. by apply ends_snoc, He.
  - intros [|k] Hk; [lia|]. apply ends_snoc in Hk as [Hk Hxk]. specialize (Hmax k (Hlong k Hk) Hk Hxk). lia.
Qed.

Lemma longest_nil p : longest p [] 0.
Proof. split; [done|]. split; [apply ends_0|]. intros k Hk%ends_length. cbn in Hk. lia. Qed.

(** An occurrence of the pattern at a position. *)
Definition occurs_at (p t : list T) (i : nat) : Prop := take (length p) (drop i t) = p.

Lemma occurs_ends p t i : p ≠ [] →
  occurs_at p t i ↔ ends p (take (i + length p) t) (length p) ∧ (i + length p ≤ length t)%nat.
Proof.
  intros Hne. assert (length p ≠ 0%nat) by (by destruct p). unfold occurs_at, ends. rewrite (take_ge p) by done. split.
  - intros Ho. split; [split; [done|]|].
    + exists (take i t). by rewrite <- (take_take_drop t i (length p)), Ho.
    + apply (f_equal length) in Ho. rewrite length_take, length_drop in Ho. lia.
  - intros [[_ [u Hu]] Hl]. rewrite take_drop_commute, Hu.
    assert (Hi : length u = i) by (apply (f_equal length) in Hu; rewrite length_take, length_app in Hu; lia).
    by apply drop_app_length'.
Qed.

(** The loop stops behind the first occurrence, or at the end of the text. *)
Lemma substr_loop_ok k : pf_ok (Pattern k) (PrefixFunction k) (length (Pattern k)) → ∀ rest u j,
  longest (Pattern k) u j → (∀ n, (n < length u)%nat → ¬ ends (Pattern k) (take n u) (length (Pattern k))) →
  ∃ n j', substr_loop k rest (vsize u) j = Ret (Z.of_nat n, j') ∧ (length u ≤ n ≤ length (u ++ rest))%nat ∧
    longest (Pattern k) (take n (u ++ rest)) j' ∧
    (∀ i, (i < n)%nat → ¬ ends (Pattern k) (take i (u ++ rest)) (length (Pattern k))) ∧
    (j' = vsize (Pattern k) ∨ n = length (u ++ rest)).
Proof.
  intros Hpf rest. induction rest as [|x rest IH]; intros u j Hlong Hno; cbn [substr_loop].
  - rewrite app_nil_r. exists (length u), j. rewrite firstn_all. split; [done|]. split; [lia|]. auto.
  - destruct (Z.ltb_spec j (vsize (Pattern k))) as [Hlt|Hge].
    + destruct (longest_snoc (Pattern k) (PrefixFunction k) u x j Hpf Hlong Hlt) as (j' & Hr & Hj' & Hlong' & _).
      rewrite Hr, bind_Ret. destruct (IH (u ++ [x]) (j' + 1) Hlong') as (n & j2 & Hr2 & Hn & Hl2 & Hno2 & Hend).
      { intros n Hn. rewrite length_app in Hn. cbn in Hn. rewrite take_app_le by lia.
        destruct (decide (n = length u)) as [->|]; [|apply Hno; lia]. rewrite firstn_all. intros He.
        destruct Hlong as (_ & _ & Hmax). apply Hmax in He. unfold vsize in Hlt. lia. }
      rewrite <- app_assoc in *. cbn [app] in *. rewrite vsize_snoc in Hr2. rewrite length_app in Hn at 1. cbn [length] in Hn.
      exists n, j2. split; [done|]. split; [lia|]. auto.
    + exists (length u), j. rewrite take_app_length. split; [done|]. split; [rewrite length_app; lia|]. split; [done|].
      split; [intros i Hi; rewrite take_app_le by lia; by apply Hno|].
      left. destruct Hlong as (Hj & [He _] & _). unfold vsize in *. lia.
Qed.

Lemma SubStr_ok p t : p ≠ [] →
  ∃ k r, new_TKMPMatcher p = Ret k ∧ SubStr k t = Ret r ∧
    match r with
    | Some i => 0 ≤ i ∧ occurs_at p t (Z.to_nat i) ∧ ∀ n, (n < Z.to_nat i)%nat → ¬ occurs_at p t n
    | None => ∀ n, ¬ occurs_at p t n
    end.
Proof.
  intros Hne. destruct (ComputePrefixFunction_ok p Hne) as (pf & Hc & Hpf). unfold new_TKMPMatcher. rewrite Hc, bind_Ret.
  destruct (substr_loop_ok {| PrefixFunction := pf; Pattern := p |}) with (rest := t) (u := @nil T) (j := 0)
    as (n & j & Hr & Hn & (Hj & Hends & Hmax) & Hno & Hend); [intros i Hi; apply Hpf; cbn in Hi; lia|apply longest_nil|cbn; lia|].
  cbn [Pattern PrefixFunction app] in *. change (vsize []) with 0 in Hr.
  exists {| PrefixFunction := pf; Pattern := p |}, (if j =? vsize p then Some (Z.of_nat n - vsize p) else None).
  split; [done|]. split; [unfold SubStr; by rewrite Hr, bind_Ret|].
  assert (Hocc : ∀ i, occurs_at p t i → (n ≤ i + length p)%nat).
  { intros i [He _]%occurs_ends; [|done]. destruct (decide (n ≤ i + length p)%nat); [done|]. by destruct (Hno (i + length p)%nat ltac:(lia)). }
  destruct (Z.eqb_spec j (vsize p)) as [->|Hneq]; unfold vsize in *.
  - rewrite Nat2Z.id in Hends. pose proof (ends_length _ _ _ Hends) as Hl. rewrite length_take in Hl.
    replace (Z.to_nat (Z.of_nat n - Z.of_nat (length p))) with (n - length p)%nat by lia. split; [lia|]. split.
    + apply occurs_ends; [done|]. replace (n - length p + length p)%nat with n by lia. split; [done|lia].
    + intros i Hi Ho. specialize (Hocc i Ho). lia.
  - intros i Ho. specialize (Hocc i Ho). destruct Hend as [->| ->]; [done|].
    apply occurs_ends in Ho as [He Hil]; [|done]. rewrite take_ge in He by lia. rewrite firstn_all in Hmax, Hends.
    specialize (Hmax _ He). destruct Hends as [Hjl _]. lia.
Qed.

(** ** The stream *)

(** What the callback gets: the symbols since the last occurrence are [u]. *)
Fixpoint stream_matches (p u symbols : list T) : list (option (list T)) :=
  match symbols with
  | [] => []
  | x :: symbols =>
      if bool_decide (p `suffix_of` u ++ [x]) then Some p :: stream_matches p [] symbols
      else None :: stream_matches p (u ++ [x]) symbols
  end.

(** The matcher between two calls, after [u]. *)
Definition stream_ok (p u : list T) (k : TKMPStreamMatcher) : Prop :=
  SPattern k = p ∧ pf_ok p (SPrefixFunction k) (length p) ∧ longest p u (State k) ∧ State k < vsize p ∧
  length (Candidate k) = length p ∧ take (Z.to_nat (State k)) (Candidate k) = take (Z.to_nat (State k)) p.

(** The candidate gets the symbol. *)
Lemma candidate_grows (p c : list T) j x : length c = length p → 0 ≤ j < vsize p → p !! Z.to_nat j = Some x →
  take (Z.to_nat j) c = take (Z.to_nat j) p →
  ∃ c', vset c j x = Ret c' ∧ length c' = length p ∧ take (Z.to_nat (j + 1)) c' = take (Z.to_nat (j + 1)) p.
Proof.
  intros Hl Hj Hx Ht. unfold vsize in Hj. exists (<[Z.to_nat j := x]> c).
  split; [apply vset_Ret; unfold vsize; split; [lia|done]|]. split; [by rewrite length_insert|].
  replace (Z.to_nat (j + 1)) with (S (Z.to_nat j)) by lia. rewrite (take_S_r p _ x) by done.
  rewrite (take_S_r _ _ x) by (apply list_lookup_insert_eq; lia). by rewrite take_insert_ge, Ht.
Qed.

Lemma take_shorter (c p : list T) n m : (m ≤ n)%nat → take n c = take n p → take m c = take m p.
Proof. intros Hm Ht. rewrite <- (Nat.min_l m n), <- !take_take by done. by rewrite Ht. Qed.

Lemma Push_ok p u k x : p ≠ [] → stream_ok p u k →
  ∃ k', Push k x = Ret (k', if bool_decide (p `suffix_of` u ++ [x]) then Some p else None) ∧
    stream_ok p (if bool_decide (p `suffix_of` u ++ [x]) then [] else u ++ [x]) k'.
Proof.
  intros Hne. destruct k as [pf pt st c]. intros (Hp & Hpf & Hlong & Hst & Hl & Ht). cbn in *. subst pt.
  destruct (longest_snoc p pf u x st Hpf Hlong Hst) as (j & Hr & Hj & Hlong' & Hx). unfold Push. cbn [SPattern SPrefixFunction State Candidate].
  unfold fall_fuel in *. rewrite Hr, bind_Ret.
  assert (Hc : ∃ c', (if 0 <=? j then vset c j x else Ret c) = Ret c' ∧ length c' = length p ∧
      take (Z.to_nat (j + 1)) c' = take (Z.to_nat (j + 1)) p).
  { destruct (Z.leb_spec 0 j) as [H0|H0].
    - destruct (Hx H0) as [Hjst Hxp]. apply candidate_grows; [done|lia|done|].
      apply (take_shorter _ _ (Z.to_nat st)); [lia|done].
    - exists c. replace (j + 1) with 0 by lia. done. }
  destruct Hc as (c' & -> & Hl' & Ht'). rewrite bind_Ret.
  assert (Hm : (j + 1 =? vsize p) = bool_decide (p `suffix_of` u ++ [x])).
  { destruct Hlong' as (_ & [_ Hends] & Hmax). case_bool_decide as Hs.
    - assert (He : ends p (u ++ [x]) (length p)) by (split; [done|by rewrite firstn_all]). apply Hmax in He. unfold vsize in *. lia.
    - apply Z.eqb_neq. intros Hjp. apply Hs. rewrite Hjp in Hends. unfold vsize in Hends. by rewrite Nat2Z.id, firstn_all in Hends. }
  rewrite Hm. case_bool_decide as Hs.
  - assert (Hcp : c' = p) by (unfold vsize in Hm; rewrite !take_ge in Ht' by lia; done).
    rewrite Hcp. eexists. split; [done|]. split; [done|]. split; [done|]. split; [apply longest_nil|].
    cbn. split; [by apply vsize_pos|]. done.
  - eexists. split; [done|]. split; [done|]. split; [done|]. split; [done|]. cbn. apply Z.eqb_neq in Hm. split; [lia|]. done.
Qed.

Lemma push_all_ok p : p ≠ [] → ∀ symbols u k, stream_ok p u k →
  ∃ k', push_all k symbols = Ret (k', stream_matches p u symbols) ∧ ∃ u', stream_ok p u' k'.
Proof.
  intros Hne symbols. induction symbols as [|x symbols IH]; intros u k Hk; cbn [push_all stream_matches].
  { exists k. split; [done|]. by exists u. }
  destruct (Push_ok p u k x Hne Hk) as (k1 & Hr & Hk1). rewrite Hr, bind_Ret. cbn [fst snd].
  case_bool_decide; destruct (IH _ _ Hk1) as (k2 & Hr2 & Hu); exists k2; by rewrite Hr2, bind_Ret.
Qed.

Lemma new_stream_ok blank p : p ≠ [] → ∃ k, new_TKMPStreamMatcher blank p = Ret k ∧ stream_ok p [] k.
Proof.
  intros Hne. destruct (ComputePrefixFunction_ok p Hne) as (pf & Hc & Hpf). unfold new_TKMPStreamMatcher. rewrite Hc, bind_Ret.
  eexists. split; [done|]. split; [done|]. split; [intros i Hi; apply Hpf; lia|]. split; [apply longest_nil|].
  cbn. rewrite length_replicate. split; [by apply vsize_pos|]. done.
Qed.

Lemma Clear_ok p u k : p ≠ [] → stream_ok p u k → stream_ok p [] (Clear k).
Proof.
  intros Hne (Hp & Hpf & _ & _ & Hl & _). split; [done|]. split; [done|]. split; [apply longest_nil|]. cbn.
  split; [by apply vsize_pos|]. done.
Qed.

(** C39: a matcher of an empty pattern is not made: "empty pattern"; a matcher of any other pattern is, and for
    each text [SubStr] returns, with the position of the first occurrence of the pattern, or with nothing when
    the pattern does not occur. *)
Theorem SubStr_correct (p t : list T) :
  match p with
  | [] => new_TKMPMatcher p = Fail (Throw EEmptyPattern)
  | _ => ∃ k r, new_TKMPMatcher p = Ret k ∧ SubStr k t = Ret r ∧
      match r with
      | Some i => 0 ≤ i ∧ occurs_at p t (Z.to_nat i) ∧ ∀ n, (n < Z.to_nat i)%nat → ¬ occurs_at p t n
      | None => ∀ n, ¬ occurs_at p t n
      end
  end.
Proof. destruct p as [|x p]; [done|]. by apply SubStr_ok. Qed.

(** The stream matcher calls its callback at a symbol exactly when the symbols since the last occurrence (or
    since [Clear]) end with the pattern, and the callback gets the pattern; the candidate and the failure function
    are indexed in range throughout. *)
Theorem stream_matcher_correct (blank : T) (p a b : list T) :
  match p with
  | [] => new_TKMPStreamMatcher blank p = Fail (Throw EEmptyPattern)
  | _ => ∃ k k1 k2, new_TKMPStreamMatcher blank p = Ret k ∧
      push_all k a = Ret (k1, stream_matches p [] a) ∧ push_all (Clear k1) b = Ret (k2, stream_matches p [] b)
  end.
Proof.
  destruct p as [|x p]; [done|]. destruct (new_stream_ok blank (x :: p) ltac:(done)) as (k & Hn & Hk).
  destruct (push_all_ok (x :: p) ltac:(done) a [] k Hk) as (k1 & H1 & u & Hk1).
  destruct (push_all_ok (x :: p) ltac:(done) b [] (Clear k1)) as (k2 & H2 & _); [by eapply Clear_ok|].
  exists k, k1, k2. done.
Qed.

End Kmp.
