(* ===== verification/Escape.v ===== *)
(** * Texts of bytes: [util/string/escape.h/.cpp], [util/string/hex.h/.cpp]

    [EscapeC] writes a [TString] as a literal of C, [UnescapeC] reads one, and
    [UnescapeCCharLen] measures the next character of it; [HexEncode] and [HexDecode] write
    two digits for each byte.  A [char] is signed, as in [Cast].  The instances for 16-bit
    characters are left out; so is the writing into a buffer without bounds. *)
From Stdlib Require Import Ascii String.
From S2P Require Import Prelude XRange BitOps Cast.
Open Scope Z_scope.

(** Conversions to [unsigned char] and to [char]. *)
Definition to_u8 (c : Z) : Z := c mod 2 ^ 8.
Definition to_char (v : Z) : Z := let u := to_u8 v in if u <? 2 ^ 7 then u else u - 2 ^ 8.

Definition t_ui32 : int_type := {| is_signed := false; width := 32 |}.
Definition t_wchar16 : int_type := {| is_signed := false; width := 16 |}.

(** ** Escaping *)

Definition HexDigit (value : Z) : Z := to_char (if value <? 10 then chr "0" + value else chr "A" + value - 10).
Definition OctDigit (value : Z) : Z := to_char (chr "0" + value).
Definition IsPrintable (c : Z) : bool := (32 <=? c) && (c <=? 126).
Definition IsHexDigit (c : Z) : bool :=
  (chr "0" <=? c) && (c <=? chr "9") || (chr "A" <=? c) && (c <=? chr "F") || (chr "a" <=? c) && (c <=? chr "f").
Definition IsOctDigit (c : Z) : bool := (chr "0" <=? c) && (c <=? chr "7").

(** Characters of literals the notation of a string has no room for. *)
Definition quote : Z := 34.
Definition backslash : Z := 92.

(** [TEscapeUtil<char>::EscapeC(c, next, r)], with [c] converted to [unsigned char]: the buffer up to the
    length returned. *)
Definition EscapeChar (c next : Z) : TString :=
  let c := to_u8 c in
  if c =? quote then [backslash; quote]
  else if c =? backslash then [backslash; backslash]
  else if IsPrintable c && negb ((c =? chr "?") && (next =? chr "?")) then [to_char c]
  else if c =? 13 then [backslash; chr "r"]
  else if c =? 10 then [backslash; chr "n"]
  else if c =? 9 then [backslash; chr "t"]
  else if (c <? 8) && negb (IsOctDigit next) then [backslash; OctDigit c]
  else if negb (IsHexDigit next) then
    [backslash; chr "x"; HexDigit (Z.shiftr (Z.land c 0xF0) 4); HexDigit (Z.shiftr (Z.land c 0x0F) 0)]
  else
    [backslash; OctDigit (Z.shiftr (Z.land c 448) 6); OctDigit (Z.shiftr (Z.land c 56) 3);
     OctDigit (Z.shiftr (Z.land c 7) 0)].

(** [str + i] up to [str + j] *)
Definition slice (str : TString) (i j : Z) : TString := take (Z.to_nat (j - i)) (drop (Z.to_nat i) str).

(** A pass of [EscapeCImpl]: [j] and [r]. *)
Definition escape_pass (str : TString) (s : Z * TString) (i : Z) : outcome (Z * TString) :=
  c ← vat str i;
  next ← (if i + 1 <? vsize str then vat str (i + 1) else Ret 0);
  let buffer := EscapeChar c next in
  Ret (if 1 <? vsize buffer then (i + 1, s.2 ++ slice str s.1 i ++ buffer) else s).

(** [EscapeCImpl(str, len, r)] *)
Definition EscapeCImpl (str r : TString) : outcome TString :=
  s ← mfold (escape_pass str) (0, r) (xrange (vsize str));
  Ret (if 0 <? s.1 then s.2 ++ slice str s.1 (vsize str) else s.2 ++ str).

Definition EscapeC (str : TString) : outcome TString := EscapeCImpl str [].

(** ** Unescaping *)

Fixpoint count_while (f : Z → bool) (cs : TString) : Z :=
  match cs with c :: cs => if f c then 1 + count_while f cs else 0 | [] => 0 end.

(** [CountHex<sz>(p, pe)] *)
Definition CountHex (sz : nat) (p : TString) : Z := count_while IsHexDigit (take sz p).

(** [ParseHex<sz>(p, pe, t)] at [wchar16]: [t] if it returns true. *)
Definition ParseHex (sz : nat) (p : TString) : outcome (option Z) :=
  if Z.of_nat sz <=? vsize p then TryIntFromString t_wchar16 16 (take sz p) else Ret None.

(** [CountOct<sz>(p, pe)] *)
Definition CountOct (sz : nat) (p : TString) : outcome Z :=
  let maxsz := Nat.min sz (length p) in
  maxsz ← (if (sz =? 3)%nat && (maxsz =? 3)%nat then
             c ← vat p 0; Ret (if (chr "0" <=? c) && (c <=? chr "3") then maxsz else 2%nat)
           else Ret maxsz);
  Ret (count_while IsOctDigit (take maxsz p)).

(** [util/charset/utf8.h] and [wide.h] *)
Definition BROKEN_RUNE : Z := 0xFFFD.
Definition IsW16SurrogateLead (c : Z) : bool := (0xD800 <=? c) && (c <=? 0xDBFF).
Definition IsW16SurrogateTail (c : Z) : bool := (0xDC00 <=? c) && (c <=? 0xDFFF).

Definition ReadSurrogatePair (lead tail : Z) : Z :=
  u32 (Z.shiftl lead 10 + tail + u32 (0x10000 - Z.shiftl 0xD800 10 - 0xDC00)).

(** [ReadSymbol(cp, cp + 2)] *)
Definition ReadSymbol (c0 c1 : Z) : Z :=
  if IsW16SurrogateLead c0 then (if IsW16SurrogateTail c1 then ReadSurrogatePair c0 c1 else BROKEN_RUNE)
  else if IsW16SurrogateTail c0 then BROKEN_RUNE
  else c0.

(** [WriteUTF8Char(rune, rune_len, s)]: the bytes written. *)
Definition WriteUTF8Char (rune : Z) : list Z :=
  if rune <? 0x80 then [to_u8 rune]
  else if rune <? 0x800 then
    [to_u8 (Z.lor 0xC0 (Z.shiftr rune 6)); to_u8 (Z.lor 0x80 (Z.land rune 0x3F))]
  else if rune <? 0x10000 then
    [to_u8 (Z.lor 0xE0 (Z.shiftr rune 12)); to_u8 (Z.lor 0x80 (Z.land (Z.shiftr rune 6) 0x3F));
     to_u8 (Z.lor 0x80 (Z.land rune 0x3F))]
  else
    [to_u8 (Z.lor 0xF0 (Z.land (Z.shiftr rune 18) 0x07)); to_u8 (Z.lor 0x80 (Z.land (Z.shiftr rune 12) 0x3F));
     to_u8 (Z.lor 0x80 (Z.land (Z.shiftr rune 6) 0x3F)); to_u8 (Z.lor 0x80 (Z.land rune 0x3F))].

Definition AppendUnicode (v : Z) : TString := to_char <$> WriteUTF8Char v.

(** The switch of [DoUnescapeC] at [p], behind a backslash: what it appends, and by how much it moves [p]. *)
Definition unescape_switch (p : TString) : outcome (TString * Z) :=
  c ← vat p 0;
  let p1 := drop 1 p in
  if c =? chr "a" then Ret ([7], 0)
  else if c =? chr "b" then Ret ([8], 0)
  else if c =? chr "f" then Ret ([12], 0)
  else if c =? chr "n" then Ret ([10], 0)
  else if c =? chr "r" then Ret ([13], 0)
  else if c =? chr "t" then Ret ([9], 0)
  else if c =? chr "v" then Ret ([11], 0)
  else if c =? chr "u" then
    cp0 ← ParseHex 4 p1;
    match cp0 with
    | Some cp0 =>
        cp1 ← (if (0xD800 <=? cp0) && (cp0 <=? 0xDBFF) then
                 cp1 ← ParseHex 4 (drop 7 p);
                 match cp1 with
                 | Some cp1 =>
                     p5 ← vat p 5;
                     if p5 =? backslash then p6 ← vat p 6; Ret (if p6 =? chr "u" then Some cp1 else None) else Ret None
                 | None => Ret None
                 end
               else Ret None);
        match cp1 with
        | Some cp1 => Ret (AppendUnicode (ReadSymbol cp0 cp1), 10)
        | None => Ret (AppendUnicode cp0, 4)
        end
    | None => Ret ([c], 0)
    end
  else if c =? chr "U" then
    if negb (CountHex 8 p1 =? 8) then Ret ([c], 0)
    else v ← IntFromString t_ui32 16 (take 8 p1); Ret (AppendUnicode v, 0)
  else if c =? chr "x" then
    let v := CountHex 2 p1 in
    if negb (v =? 0) then n ← IntFromString t_ui32 16 (take (Z.to_nat v) p1); Ret ([to_char n], v)
    else Ret ([c], 0)
  else if (chr "0" <=? c) && (c <=? chr "3") then
    v ← CountOct 3 p; n ← IntFromString t_ui32 8 (take (Z.to_nat v) p); Ret ([to_char n], v - 1)
  else if (chr "4" <=? c) && (c <=? chr "7") then
    v ← CountOct 2 p; n ← IntFromString t_ui32 8 (take (Z.to_nat v) p); Ret ([to_char n], v - 1)
  else Ret ([c], 0).

(** [DoUnescapeC(p, sz, res)], the string from [p] on; every pass takes a character. *)
Fixpoint DoUnescapeC (fuel : nat) (p res : TString) : outcome TString :=
  match fuel with
  | O => Fail (Undef UEndless)
  | S fuel =>
      match p with
      | [] => Ret res
      | c :: p' =>
          if c =? backslash then
            match p' with
            | [] => Ret res
            | _ => r ← unescape_switch p'; DoUnescapeC fuel (drop (Z.to_nat (r.2 + 1)) p') (res ++ r.1)
            end
          else
            let n := default (length p) (find_char backslash p) in
            DoUnescapeC fuel (drop n p) (res ++ take n p)
      end
  end.

Definition UnescapeC (p : TString) : outcome TString := DoUnescapeC (S (length p)) p [].

(** [UnescapeCCharLen(begin, end)] *)
Definition UnescapeCCharLen (p : TString) : outcome Z :=
  match p with
  | [] => Ret 0
  | c :: p =>
      if negb (c =? backslash) then Ret 1
      else match p with
           | [] => Ret 1
           | c :: p1 =>
               if c =? chr "u" then Ret (if CountHex 4 p1 =? 4 then 6 else 2)
               else if c =? chr "U" then Ret (if CountHex 8 p1 =? 8 then 10 else 2)
               else if c =? chr "x" then Ret (2 + CountHex 2 p1)
               else if (chr "0" <=? c) && (c <=? chr "3") then v ← CountOct 3 p; Ret (1 + v)
               else if (chr "4" <=? c) && (c <=? chr "7") then v ← CountOct 2 p; Ret (1 + v)
               else Ret 2
           end
  end.

(** ** Hexadecimal texts *)

(** [char]s: [-1] is [0xff]. *)
Definition Char2DigitTable : list Z :=
  replicate 48 (-1) ++ [0; 1; 2; 3; 4; 5; 6; 7; 8; 9] ++ replicate 7 (-1) ++ [10; 11; 12; 13; 14; 15] ++
  replicate 26 (-1) ++ [10; 11; 12; 13; 14; 15] ++ replicate 153 (-1).

Definition DigitToChar (digit : Z) : Z := if digit <? 10 then to_char (digit + chr "0") else to_char (digit - 10 + chr "A").

Definition Char2Digit (ch : Z) : outcome Z :=
  result ← vat Char2DigitTable (to_u8 ch);
  _ ← ensure (negb (result =? -1)) (EHexSymbol ch);
  Ret result.

(** [Stroka2Byte(s)] *)
Definition Stroka2Byte (c0 c1 : Z) : outcome Z :=
  a ← Char2Digit c0; b ← Char2Digit c1; Ret (a * 16 + b).

Definition HexEncode (input : TString) : TString :=
  concat ((λ c, [DigitToChar (to_u8 c / 16); DigitToChar (to_u8 c mod 16)]) <$> input).

Fixpoint hex_decode_loop (b : TString) : outcome TString :=
  match b with
  | c0 :: c1 :: b => x ← Stroka2Byte c0 c1; out ← hex_decode_loop b; Ret (to_char x :: out)
  | [_] => Fail (Undef UDeref)
  | [] => Ret []
  end.

Definition HexDecode (input : TString) : outcome TString :=
  _ ← ensure (negb (Z.land (vsize input) 1 =? 1)) EHexLength;
  hex_decode_loop input.

(** ** Bytes *)

Definition is_char (c : Z) : Prop := - 2 ^ 7 ≤ c < 2 ^ 7.

Lemma to_u8_range c : 0 ≤ to_u8 c < 256.
Proof. unfold to_u8. apply Z.mod_pos_bound. lia. Qed.

Lemma to_char_u8 c : is_char c → to_char (to_u8 c) = c.
Proof.
  unfold is_char, to_char, to_u8. intros Hc. rewrite Z.mod_mod by lia. destruct (Z.leb_spec 0 c).
  - rewrite (Z.mod_small c) by lia. destruct (Z.ltb_spec c (2 ^ 7)); lia.
  - replace (c mod 2 ^ 8) with (c + 2 ^ 8); [destruct (Z.ltb_spec (c + 2 ^ 8) (2 ^ 7)); lia|].
    rewrite <- (Z.mod_add c 1) by lia. rewrite Z.mod_small; lia.
Qed.

(** A property of bytes that is checked for each of them. *)
Lemma all_bytes (f : Z → bool) : forallb f (seqZ 0 256) = true → ∀ u, 0 ≤ u < 256 → f u = true.
Proof.
  intros Hf u Hu. rewrite forallb_forall in Hf. apply Hf. apply list_elem_of_In, elem_of_seqZ. lia.
Qed.

Definition returns_value (r : outcome Z) (v : Z) : bool := match r with Ret x => x =? v | Fail _ => false end.

Lemma returns_value_Ret r v : returns_value r v = true → r = Ret v.
Proof. destruct r as [x|]; [|done]. cbn. by intros ->%Z.eqb_eq. Qed.

Definition hex_high (u : Z) : Z := HexDigit (Z.shiftr (Z.land u 0xF0) 4).
Definition hex_low (u : Z) : Z := HexDigit (Z.shiftr (Z.land u 0x0F) 0).
Definition oct_0 (u : Z) : Z := OctDigit (Z.shiftr (Z.land u 448) 6).
Definition oct_1 (u : Z) : Z := OctDigit (Z.shiftr (Z.land u 56) 3).
Definition oct_2 (u : Z) : Z := OctDigit (Z.shiftr (Z.land u 7) 0).

Lemma hex_digits_value u : 0 ≤ u < 256 →
  IsHexDigit (hex_high u) = true ∧ IsHexDigit (hex_low u) = true ∧ IntFromString t_ui32 16 [hex_high u; hex_low u] = Ret u.
Proof.
  intros Hu. assert (H : IsHexDigit (hex_high u) && IsHexDigit (hex_low u) && returns_value (IntFromString t_ui32 16 [hex_high u; hex_low u]) u = true).
  { revert u Hu. apply (all_bytes (λ u, IsHexDigit (hex_high u) && IsHexDigit (hex_low u) &&
      returns_value (IntFromString t_ui32 16 [hex_high u; hex_low u]) u)). vm_compute. reflexivity. }
  rewrite !andb_true_iff in H. destruct H as [[H1 H2] H3%returns_value_Ret]. done.
Qed.

Definition first_octal (c : Z) : bool := (chr "0" <=? c) && (c <=? chr "3").

Lemma oct_digits_value u : 0 ≤ u < 256 →
  first_octal (oct_0 u) = true ∧ IsOctDigit (oct_0 u) = true ∧ IsOctDigit (oct_1 u) = true ∧ IsOctDigit (oct_2 u) = true ∧
  IntFromString t_ui32 8 [oct_0 u; oct_1 u; oct_2 u] = Ret u.
Proof.
  intros Hu. set (f := λ u, first_octal (oct_0 u) && IsOctDigit (oct_0 u) && IsOctDigit (oct_1 u) && IsOctDigit (oct_2 u) &&
    returns_value (IntFromString t_ui32 8 [oct_0 u; oct_1 u; oct_2 u]) u).
  assert (H : f u = true) by (apply (all_bytes f); [vm_compute; reflexivity|done]).
  unfold f in H. rewrite !andb_true_iff in H. destruct H as [[[[H1 H2] H3] H4] H5%returns_value_Ret]. done.
Qed.

Lemma oct_digit_value u : 0 ≤ u < 8 → IsOctDigit (OctDigit u) = true ∧ IntFromString t_ui32 8 [OctDigit u] = Ret u.
Proof.
  intros Hu. set (f := λ u, negb (u <? 8) || IsOctDigit (OctDigit u) && returns_value (IntFromString t_ui32 8 [OctDigit u]) u).
  assert (H : f u = true) by (apply (all_bytes f); [vm_compute; reflexivity|lia]).
  unfold f in H. rewrite orb_true_iff, negb_true_iff, andb_true_iff in H. destruct H as [H|[H1 H2%returns_value_Ret]]; [lia|done].
Qed.

(** ** The text of a string *)

(** What [EscapeC] writes, character by character. *)
Fixpoint escaped (str : TString) : TString :=
  match str with
  | [] => []
  | c :: rest => EscapeChar c (default 0 (head rest)) ++ escaped rest
  end.

Lemma slice_snoc str i j x : 0 ≤ i ≤ j → vat str j = Ret x → slice str i j ++ [x] = slice str i (j + 1).
Proof.
  intros Hi [Hj Hx]%vat_Ret. unfold slice. replace (Z.to_nat (j + 1 - i)) with (S (Z.to_nat (j - i))) by lia.
  rewrite (take_S_r _ _ x); [done|]. rewrite lookup_drop. rewrite <- Hx. f_equal. lia.
Qed.

Lemma slice_nil str i : slice str i i = [].
Proof. unfold slice. by rewrite Z.sub_diag. Qed.

Lemma slice_all str : slice str 0 (vsize str) = str.
Proof. unfold slice, vsize. rewrite Z.sub_0_r, Nat2Z.id. cbn. apply firstn_all. Qed.

(** A character that is written as it is. *)
Lemma EscapeChar_plain c next : is_char c → vsize (EscapeChar c next) ≤ 1 →
  EscapeChar c next = [c] ∧ c ≠ backslash ∧ IsPrintable c = true ∧ ¬ (c = chr "?" ∧ next = chr "?").
Proof.
  intros Hc. pose proof (to_char_u8 c Hc) as Hu. pose proof (to_u8_range c). unfold EscapeChar. cbv zeta.
  destruct (Z.eqb_spec (to_u8 c) quote); [done|]. destruct (Z.eqb_spec (to_u8 c) backslash); [done|].
  destruct (IsPrintable (to_u8 c) && _) eqn:Hp; [|by repeat case_match].
  intros _. apply andb_true_iff in Hp as [Hp Hq]. assert (Huc : to_u8 c = c).
  { unfold IsPrintable in Hp. apply andb_true_iff in Hp. unfold to_char in Hu. rewrite <- Hu at 2. unfold to_u8 at 2 3.
    unfold to_u8 in *. rewrite Z.mod_mod by lia. destruct (Z.ltb_spec (c mod 2 ^ 8) (2 ^ 7)); lia. }
  rewrite Hu, Huc in *. split; [done|]. split; [done|]. split; [done|]. intros [-> ->]. done.
Qed.

(** The loop, which copies runs of plain characters at once, writes the characters one by one. *)
Lemma escape_pass_ok str out i j acc : Forall is_char str → (i < length str)%nat → 0 ≤ j ≤ Z.of_nat i →
  acc ++ slice str j (Z.of_nat i) ++ escaped (drop i str) = out →
  ∃ j' acc', escape_pass str (j, acc) (Z.of_nat i) = Ret (j', acc') ∧ 0 ≤ j' ≤ Z.of_nat (S i) ∧
    acc' ++ slice str j' (Z.of_nat (S i)) ++ escaped (drop (S i) str) = out.
Proof.
  intros Hs Hi Hj Hout. unfold escape_pass. destruct (vat_in_range str (Z.of_nat i)) as (c & Hv & Hc); [unfold vsize; lia|].
  rewrite Hv, bind_Ret. rewrite Nat2Z.id in Hc. rewrite (drop_S _ _ _ Hc) in Hout. cbn [escaped] in Hout.
  assert (Hn : (if Z.of_nat i + 1 <? vsize str then vat str (Z.of_nat i + 1) else Ret 0) = Ret (default 0 (head (drop (S i) str)))).
  { destruct (Z.ltb_spec (Z.of_nat i + 1) (vsize str)) as [Hlt|Hge].
    - destruct (vat_in_range str (Z.of_nat i + 1)) as (x & Hx & Hxl); [lia|]. rewrite Hx.
      replace (Z.to_nat (Z.of_nat i + 1)) with (S i) in Hxl by lia. by rewrite (drop_S _ _ _ Hxl).
    - rewrite drop_ge; [done|]. unfold vsize in Hge. lia. }
  rewrite Hn, bind_Ret. cbn [fst snd]. set (next := default 0 (head (drop (S i) str))) in *.
  replace (Z.of_nat (S i)) with (Z.of_nat i + 1) by lia. destruct (Z.ltb_spec 1 (vsize (EscapeChar c next))) as [Hl|Hl].
  - exists (Z.of_nat i + 1), (acc ++ slice str j (Z.of_nat i) ++ EscapeChar c next). split; [done|]. split; [lia|].
    rewrite slice_nil. cbn. by rewrite <- !app_assoc.
  - exists j, acc. split; [done|]. split; [lia|]. rewrite <- (slice_snoc str j (Z.of_nat i) c) by (done || lia).
    destruct (EscapeChar_plain c next) as [Hp _]; [by eapply Forall_lookup_1|lia|]. rewrite Hp in Hout. by rewrite <- app_assoc.
Qed.

Lemma EscapeCImpl_ok str r : Forall is_char str → EscapeCImpl str r = Ret (r ++ escaped str).
Proof.
  intros Hs. unfold EscapeCImpl.
  destruct (mfold_inv (λ dn s, 0 ≤ s.1 ≤ Z.of_nat (length dn) ∧
      s.2 ++ slice str s.1 (Z.of_nat (length dn)) ++ escaped (drop (length dn) str) = r ++ escaped str)
    (escape_pass str) (xrange (vsize str)) (0, r)) as ([j acc] & Hr & Hj & Hout).
  - split; [cbn; lia|]. cbn. by rewrite slice_nil.
  - intros dn i rest [j acc] Hl [Hj Hout]. apply xrange_split in Hl as (-> & _ & Hi). unfold vsize in Hi.
    destruct (escape_pass_ok str (r ++ escaped str) (length dn) j acc Hs ltac:(lia) Hj Hout) as (j' & acc' & Hp & Hj' & Hout').
    exists (j', acc'). split; [done|]. rewrite length_app, Nat.add_1_r. done.
  - assert (Hx : length (xrange (vsize str)) = length str) by (rewrite xrange_seqZ, length_seqZ; unfold vsize; lia).
    rewrite Hx in Hout, Hj. rewrite firstn_skipn_rev, drop_all in Hout || rewrite drop_all in Hout. cbn [escaped fst snd] in *.
    rewrite app_nil_r in Hout. rewrite Hr, bind_Ret. cbn [fst snd]. f_equal. rewrite <- Hout. unfold vsize.
    destruct (Z.ltb_spec 0 j); [done|]. replace j with 0 by lia. f_equal. symmetry. apply slice_all.
Qed.

(** The longest run of characters that are written as they are. *)
Lemma plain_run str : Forall is_char str →
  ∃ run rest, str = run ++ rest ∧ escaped str = run ++ escaped rest ∧ backslash ∉ run ∧
    match rest with [] => True | c :: rest' => 1 < vsize (EscapeChar c (default 0 (head rest'))) end.
Proof.
  induction 1 as [|c rest Hc Hs (run & rest' & -> & He & Hb & Hr)]; [exists [], []; by repeat split; try apply not_elem_of_nil|].
  destruct (Z.ltb_spec 1 (vsize (EscapeChar c (default 0 (head (run ++ rest')))))) as [Hl|Hl].
  - exists [], (c :: run ++ rest'). split; [done|]. split; [done|]. split; [apply not_elem_of_nil|done].
  - exists (c :: run), rest'. split; [done|]. cbn [escaped]. destruct (EscapeChar_plain c _ Hc Hl) as (-> & Hbs & _).
    rewrite He. split; [done|]. split; [|done]. by apply not_elem_of_cons.
Qed.

(** A character that is not written as it is. *)
Lemma EscapeChar_escape c next : 1 < vsize (EscapeChar c next) → ∃ d e, EscapeChar c next = backslash :: d :: e.
Proof. unfold EscapeChar. cbv zeta. repeat case_match; intros Hl; try (by eauto). Qed.

Lemma find_char_run c run rest : c ∉ run → find_char c (run ++ c :: rest) = Some (length run).
Proof.
  induction run as [|x run IH]; cbn; intros Hn; [by rewrite Z.eqb_refl|].
  apply not_elem_of_cons in Hn as [Hx Hn]. destruct (Z.eqb_spec x c); [congruence|]. by rewrite IH.
Qed.

Lemma find_char_none c run : c ∉ run → find_char c run = None.
Proof.
  induction run as [|x run IH]; cbn; intros Hn; [done|].
  apply not_elem_of_cons in Hn as [Hx Hn]. destruct (Z.eqb_spec x c); [congruence|]. by rewrite IH.
Qed.

(** What follows a character in the escaped text tells no more digits than what follows it in the string. *)
Definition follows (next : Z) (t : TString) : Prop :=
  match t with
  | [] => True
  | x :: _ => (IsOctDigit x = true → IsOctDigit next = true) ∧ (IsHexDigit x = true → IsHexDigit next = true)
  end.

Lemma follows_escaped rest : Forall is_char rest → follows (default 0 (head rest)) (escaped rest).
Proof.
  destruct 1 as [|c rest Hc Hs]; [done|]. cbn [escaped head default].
  destruct (Z.ltb_spec 1 (vsize (EscapeChar c (default 0 (head rest))))) as [Hl|Hl].
  - destruct (EscapeChar_escape _ _ Hl) as (d & e & ->). cbn. done.
  - destruct (EscapeChar_plain _ _ Hc Hl) as (-> & _). done.
Qed.

Lemma count_stops f x t : (f x = true → False) → count_while f (x :: t) = 0.
Proof. intros Hx. cbn. destruct (f x); [by destruct Hx|done]. Qed.

(** The switch reads back an escape sequence. *)
Lemma switch_octal sz u next t : (sz = 2 ∨ sz = 3)%nat → 0 ≤ u < 8 → IsOctDigit next = false → follows next t →
  CountOct sz (OctDigit u :: t) = Ret 1.
Proof.
  intros Hsz Hu Hn Ht. destruct (oct_digit_value u Hu) as [Ho _]. unfold CountOct.
  assert (Hc : ∀ m, (0 < m)%nat → count_while IsOctDigit (take m (OctDigit u :: t)) = 1).
  { intros [|m] Hm; [lia|]. cbn. rewrite Ho. destruct m as [|m], t as [|x t]; try done. cbn [take follows] in *.
    rewrite count_stops; [done|]. intros Hx%Ht. congruence. }
  change (vat (OctDigit u :: t) 0) with (@Ret Z (OctDigit u)).
  destruct ((sz =? 3)%nat && _); rewrite !bind_Ret; f_equal; apply Hc; [case_match|]; cbn [length]; lia.
Qed.

Lemma switch_x t : unescape_switch (chr "x" :: t) =
  (let v := CountHex 2 t in
   if negb (v =? 0) then n ← IntFromString t_ui32 16 (take (Z.to_nat v) t); Ret ([to_char n], v) else Ret ([chr "x"], 0)).
Proof. reflexivity. Qed.

Lemma switch_low d t : first_octal d = true → unescape_switch (d :: t) =
  (v ← CountOct 3 (d :: t); n ← IntFromString t_ui32 8 (take (Z.to_nat v) (d :: t)); Ret ([to_char n], v - 1)).
Proof.
  unfold first_octal. intros Hd. assert (Hc : d = 48 ∨ d = 49 ∨ d = 50 ∨ d = 51) by (change (chr "0") with 48 in Hd; change (chr "3") with 51 in Hd; lia).
  destruct Hc as [-> |[-> |[-> | ->]]]; reflexivity.
Qed.

Lemma switch_high d t : first_octal d = false → IsOctDigit d = true → unescape_switch (d :: t) =
  (v ← CountOct 2 (d :: t); n ← IntFromString t_ui32 8 (take (Z.to_nat v) (d :: t)); Ret ([to_char n], v - 1)).
Proof.
  unfold first_octal, IsOctDigit. change (chr "0") with 48. change (chr "3") with 51. change (chr "7") with 55. intros Hd Ho.
  assert (Hc : d = 52 ∨ d = 53 ∨ d = 54 ∨ d = 55) by lia. destruct Hc as [-> |[-> |[-> | ->]]]; reflexivity.
Qed.

Lemma switch_octals u t : 0 ≤ u < 256 → CountOct 3 (oct_0 u :: oct_1 u :: oct_2 u :: t) = Ret 3.
Proof.
  intros Hu. destruct (oct_digits_value u Hu) as (Hf & H0 & H1 & H2 & _). unfold CountOct. cbn [length].
  change (vat (oct_0 u :: oct_1 u :: oct_2 u :: t) 0) with (@Ret Z (oct_0 u)). unfold first_octal in Hf.
  cbn [Nat.min Nat.eqb andb]. rewrite bind_Ret, Hf, bind_Ret. cbn [take count_while]. by rewrite H0, H1, H2.
Qed.

Lemma switch_hex u t : 0 ≤ u < 256 → CountHex 2 (hex_high u :: hex_low u :: t) = 2.
Proof.
  intros Hu. destruct (hex_digits_value u Hu) as (H1 & H2 & _). unfold CountHex. cbn [take count_while]. by rewrite H1, H2.
Qed.

(** The sequences [EscapeChar] writes; the simple ones, with what they stand for. *)
Definition simple_escapes : list (Z * Z) := [(quote, quote); (backslash, backslash); (chr "r", 13); (chr "n", 10); (chr "t", 9)].

Lemma EscapeChar_cases c next : is_char c → 1 < vsize (EscapeChar c next) → let u := to_u8 c in
  (∃ d, EscapeChar c next = [backslash; d] ∧ (d, c) ∈ simple_escapes) ∨
  (u < 8 ∧ IsOctDigit next = false ∧ EscapeChar c next = [backslash; OctDigit u]) ∨
  EscapeChar c next = [backslash; chr "x"; hex_high u; hex_low u] ∨
  EscapeChar c next = [backslash; oct_0 u; oct_1 u; oct_2 u].
Proof.
  intros Hc. pose proof (to_char_u8 c Hc) as Hu. unfold EscapeChar. cbv zeta. set (u := to_u8 c) in *.
  destruct (Z.eqb_spec u quote) as [->|_]; [intros _; left; exists quote; subst c; split; [done|]; by left|].
  destruct (Z.eqb_spec u backslash) as [->|_]; [intros _; left; exists backslash; subst c; split; [done|]; by do 1 right; left|].
  destruct (IsPrintable u && _); [done|].
  destruct (Z.eqb_spec u 13) as [->|_]; [intros _; left; exists (chr "r"); subst c; split; [done|]; by do 2 right; left|].
  destruct (Z.eqb_spec u 10) as [->|_]; [intros _; left; exists (chr "n"); subst c; split; [done|]; by do 3 right; left|].
  destruct (Z.eqb_spec u 9) as [->|_]; [intros _; left; exists (chr "t"); subst c; split; [done|]; by do 4 right; left|].
  intros _. right. destruct ((u <? 8) && negb (IsOctDigit next)) eqn:Ho.
  - apply andb_true_iff in Ho as [H8 Hn%negb_true_iff]. left. split; [lia|done].
  - right. destruct (negb (IsHexDigit next)); [by left|by right].
Qed.

(** The switch reads them back. *)
Lemma unescape_switch_ok c next t e : is_char c → 1 < vsize (EscapeChar c next) → EscapeChar c next = backslash :: e →
  follows next t → unescape_switch (e ++ t) = Ret ([c], vsize e - 1).
Proof.
  intros Hc Hl He Hf. pose proof (to_char_u8 c Hc) as Hu. pose proof (to_u8_range c) as Hr.
  destruct (EscapeChar_cases c next Hc Hl) as [(d & Heq & Hd)|[(H8 & Hn & Heq)|[Heq|Heq]]]; rewrite Heq in He; injection He as <-; clear Heq.
  - unfold simple_escapes in Hd. rewrite !elem_of_cons, elem_of_nil in Hd. by decompose [or] Hd; simplify_eq.
  - destruct (oct_digit_value (to_u8 c)) as [Ho Hv]; [lia|]. cbn [app].
    destruct (first_octal (OctDigit (to_u8 c))) eqn:Hfo.
    + rewrite switch_low, (switch_octal 3 (to_u8 c) next t), bind_Ret by (auto || lia).
      change (take (Z.to_nat 1) (OctDigit (to_u8 c) :: t)) with [OctDigit (to_u8 c)]. by rewrite Hv, bind_Ret, Hu.
    + rewrite switch_high, (switch_octal 2 (to_u8 c) next t), bind_Ret by (auto || lia).
      change (take (Z.to_nat 1) (OctDigit (to_u8 c) :: t)) with [OctDigit (to_u8 c)]. by rewrite Hv, bind_Ret, Hu.
  - destruct (hex_digits_value _ Hr) as (_ & _ & Hv). cbn [app]. rewrite switch_x, switch_hex by done. cbv zeta.
    change (take (Z.to_nat 2) (hex_high (to_u8 c) :: hex_low (to_u8 c) :: t)) with [hex_high (to_u8 c); hex_low (to_u8 c)].
    change (negb (2 =? 0)) with true. cbv iota. by rewrite Hv, bind_Ret, Hu.
  - destruct (oct_digits_value _ Hr) as (Hfo & _ & _ & _ & Hv). cbn [app]. rewrite switch_low, switch_octals, bind_Ret by done.
    change (take (Z.to_nat 3) (oct_0 (to_u8 c) :: oct_1 (to_u8 c) :: oct_2 (to_u8 c) :: t)) with [oct_0 (to_u8 c); oct_1 (to_u8 c); oct_2 (to_u8 c)].
    by rewrite Hv, bind_Ret, Hu.
Qed.

(** Reading back: a pass reads a run of plain characters, or an escape sequence. *)
Lemma DoUnescapeC_escaped fuel : ∀ str res, Forall is_char str → (length (escaped str) < fuel)%nat →
  DoUnescapeC fuel (escaped str) res = Ret (res ++ str).
Proof.
  induction fuel as [|fuel IH]; intros str res Hs Hf; [lia|].
  destruct (plain_run str Hs) as (run & rest & -> & He & Hb & Hr). apply Forall_app in Hs as [_ Hs]. rewrite He in *.
  rewrite length_app in Hf. destruct run as [|x run].
  - destruct rest as [|c rest]; [cbn; by rewrite app_nil_r|]. cbn [app escaped] in *. apply Forall_cons in Hs as [Hc Hs].
    destruct (EscapeChar_escape _ _ Hr) as (d & e & Hde).
    pose proof (unescape_switch_ok c _ (escaped rest) (d :: e) Hc Hr Hde (follows_escaped rest Hs)) as Hsw.
    rewrite Hde in *. cbn [app length] in *. cbn [DoUnescapeC]. change (backslash =? backslash) with true. cbv iota.
    rewrite Hsw, bind_Ret. cbn [fst snd]. replace (Z.to_nat (vsize (d :: e) - 1 + 1)) with (length (d :: e)) by (unfold vsize; lia).
    change (d :: e ++ escaped rest) with ((d :: e) ++ escaped rest). rewrite drop_app_length, IH; [by rewrite <- app_assoc|done|].
    rewrite length_app in Hf. lia.
  - apply not_elem_of_cons in Hb as [Hx Hb]. cbn [length] in Hf. cbn [app DoUnescapeC].
    destruct (Z.eqb_spec x backslash) as [|_]; [congruence|].
    assert (Hn : default (length (x :: run ++ escaped rest)) (find_char backslash (x :: run ++ escaped rest)) = length (x :: run)).
    { change (x :: run ++ escaped rest) with ((x :: run) ++ escaped rest).
      assert (Hxr : backslash ∉ x :: run) by by apply not_elem_of_cons.
      destruct rest as [|c rest]; cbn [escaped]; [by rewrite app_nil_r, find_char_none|].
      destruct (EscapeChar_escape _ _ Hr) as (d & e & ->).
      change ((backslash :: d :: e) ++ escaped rest) with (backslash :: d :: e ++ escaped rest). by rewrite find_char_run. }
    rewrite Hn. change (x :: run ++ escaped rest) with ((x :: run) ++ escaped rest).
    rewrite drop_app_length, take_app_length, IH; [by rewrite <- app_assoc|done|lia].
Qed.

(** ** What the escaped text consists of *)

(** Two question marks side by side: the beginning of a trigraph. *)
Fixpoint has_trigraph (t : TString) : bool :=
  match t with c :: rest => (c =? chr "?") && (default 0 (head rest) =? chr "?") || has_trigraph rest | [] => false end.

Definition plain_text (t : TString) : Prop := Forall (λ c, IsPrintable c = true) t ∧ has_trigraph t = false.

Definition sequence_char (c : Z) : bool := IsPrintable c && negb (c =? chr "?").

Lemma sequence_digits u : 0 ≤ u < 256 →
  forallb sequence_char [hex_high u; hex_low u; oct_0 u; oct_1 u; oct_2 u] = true ∧ (u < 8 → sequence_char (OctDigit u) = true).
Proof.
  intros Hu. set (f := λ u, forallb sequence_char [hex_high u; hex_low u; oct_0 u; oct_1 u; oct_2 u] && (negb (u <? 8) || sequence_char (OctDigit u))).
  assert (H : f u = true) by (apply (all_bytes f); [vm_compute; reflexivity|done]).
  unfold f in H. rewrite andb_true_iff, orb_true_iff, negb_true_iff in H. destruct H as [H1 [H2|H2]]; (split; [done|]); [lia|done].
Qed.

Lemma EscapeChar_sequence c next : is_char c → 1 < vsize (EscapeChar c next) → forallb sequence_char (EscapeChar c next) = true.
Proof.
  intros Hc Hl. destruct (sequence_digits _ (to_u8_range c)) as [Hd H8]. cbn [forallb] in Hd. rewrite !andb_true_iff in Hd.
  destruct Hd as (Hh & Hlow & H0 & H1 & H2 & _).
  destruct (EscapeChar_cases c next Hc Hl) as [(d & -> & Hd)|[(Hu & _ & ->)|[-> | ->]]]; cbn [forallb].
  - unfold simple_escapes in Hd. rewrite !elem_of_cons, elem_of_nil in Hd. by decompose [or] Hd; simplify_eq.
  - by rewrite H8.
  - by rewrite Hh, Hlow.
  - by rewrite H0, H1, H2.
Qed.

Lemma has_trigraph_sequence e t : forallb sequence_char e = true → has_trigraph (e ++ t) = has_trigraph t.
Proof.
  induction e as [|c e IH]; [done|]. cbn. intros [Hc He]%andb_true_iff. rewrite IH by done.
  apply andb_true_iff in Hc as [_ Hc%negb_true_iff]. by rewrite Hc.
Qed.

Lemma escaped_plain str : Forall is_char str → plain_text (escaped str).
Proof.
  induction 1 as [|c rest Hc Hs [IHp IHt]]; [by split|]. unfold plain_text. cbn [escaped].
  destruct (Z.ltb_spec 1 (vsize (EscapeChar c (default 0 (head rest))))) as [Hl|Hl].
  - pose proof (EscapeChar_sequence _ _ Hc Hl) as Hq. rewrite has_trigraph_sequence by done. split; [|done]. apply Forall_app_2; [|done].
    rewrite forallb_forall in Hq. apply Forall_forall. intros x Hx%list_elem_of_In%Hq. by apply andb_true_iff in Hx as [Hx _].
  - destruct (EscapeChar_plain _ _ Hc Hl) as (-> & _ & Hp & Hq). split; [by constructor|]. cbn [app has_trigraph]. rewrite IHt, orb_false_r.
    apply andb_false_iff. destruct (Z.eqb_spec c (chr "?")) as [->|]; [right|by left].
    destruct Hs as [|c2 rest2 Hc2 Hs2]; [done|]. cbn [escaped head default].
    destruct (Z.ltb_spec 1 (vsize (EscapeChar c2 (default 0 (head rest2))))) as [Hl2|Hl2].
    + destruct (EscapeChar_escape _ _ Hl2) as (d & e & ->). done.
    + destruct (EscapeChar_plain _ _ Hc2 Hl2) as (-> & _). cbn. apply Z.eqb_neq. intros ->. by apply Hq.
Qed.

(** ** Measuring *)

Lemma len_x t : UnescapeCCharLen (backslash :: chr "x" :: t) = Ret (2 + CountHex 2 t).
Proof. reflexivity. Qed.

Lemma len_low d t : first_octal d = true → UnescapeCCharLen (backslash :: d :: t) = (v ← CountOct 3 (d :: t); Ret (1 + v)).
Proof.
  unfold first_octal. change (chr "0") with 48. change (chr "3") with 51. intros Hd.
  assert (Hc : d = 48 ∨ d = 49 ∨ d = 50 ∨ d = 51) by lia. destruct Hc as [-> |[-> |[-> | ->]]]; reflexivity.
Qed.

Lemma len_high d t : first_octal d = false → IsOctDigit d = true →
  UnescapeCCharLen (backslash :: d :: t) = (v ← CountOct 2 (d :: t); Ret (1 + v)).
Proof.
  unfold first_octal, IsOctDigit. change (chr "0") with 48. change (chr "3") with 51. change (chr "7") with 55. intros Hd Ho.
  assert (Hc : d = 52 ∨ d = 53 ∨ d = 54 ∨ d = 55) by lia. destruct Hc as [-> |[-> |[-> | ->]]]; reflexivity.
Qed.

Lemma UnescapeCCharLen_escaped c rest : is_char c → Forall is_char rest →
  UnescapeCCharLen (escaped (c :: rest)) = Ret (vsize (EscapeChar c (default 0 (head rest)))).
Proof.
  intros Hc Hs. cbn [escaped]. set (next := default 0 (head rest)). pose proof (follows_escaped rest Hs) as Hf. fold next in Hf.
  destruct (Z.ltb_spec 1 (vsize (EscapeChar c next))) as [Hl|Hl].
  - pose proof (to_u8_range c) as Hr. destruct (EscapeChar_cases c next Hc Hl) as [(d & -> & Hd)|[(H8 & Hn & ->)|[-> | ->]]]; cbn [app].
    + unfold simple_escapes in Hd. rewrite !elem_of_cons, elem_of_nil in Hd. by decompose [or] Hd; simplify_eq.
    + destruct (oct_digit_value (to_u8 c)) as [Ho _]; [lia|]. destruct (first_octal (OctDigit (to_u8 c))) eqn:Hfo.
      * by rewrite len_low, (switch_octal 3 (to_u8 c) next) by (auto || lia).
      * by rewrite len_high, (switch_octal 2 (to_u8 c) next) by (auto || lia).
    + rewrite len_x, switch_hex by done. done.
    + destruct (oct_digits_value _ Hr) as (Hfo & _). by rewrite len_low, switch_octals.
  - destruct (EscapeChar_plain _ _ Hc Hl) as (-> & Hb & _). cbn. by destruct (Z.eqb_spec c backslash).
Qed.

(** C34: [EscapeC] returns for every string, and what it writes is the string, one sequence per character: only
    printable characters, without the beginning of a trigraph; [UnescapeC] reads the string back, and
    [UnescapeCCharLen] gives the length of the first sequence. *)
Theorem EscapeC_roundtrip str : Forall is_char str →
  ∃ t, EscapeC str = Ret t ∧ UnescapeC t = Ret str ∧ plain_text t ∧
    match str with
    | [] => t = []
    | c :: rest => ∃ n t', UnescapeCCharLen t = Ret n ∧ EscapeC rest = Ret t' ∧ drop (Z.to_nat n) t = t'
    end.
Proof.
  intros Hs. exists (escaped str). split; [by apply (EscapeCImpl_ok str [])|].
  split; [apply (DoUnescapeC_escaped _ str []); [done|lia]|]. split; [by apply escaped_plain|].
  destruct Hs as [|c rest Hc Hs]; [done|]. eexists _, (escaped rest). split; [by apply UnescapeCCharLen_escaped|].
  split; [by apply (EscapeCImpl_ok rest [])|]. cbn [escaped]. unfold vsize. by rewrite Nat2Z.id, drop_app_length.
Qed.

(** Zero bytes before a digit and before the end, three question marks, a byte above 127 before a digit. *)
Lemma EscapeC_roundtrip_witness :
  let str := [0; 49; 63; 63; 63; -1; 70; 10; 34; 0] in
  EscapeC str = Ret (STRINGBUF "\0001\x3F\x3F?\377F\n\" ++ [quote] ++ STRINGBUF "\0") ∧
  ∃ t, EscapeC str = Ret t ∧ UnescapeC t = Ret str.
Proof.
  cbv zeta. split; [vm_compute; reflexivity|].
  destruct (EscapeC_roundtrip [0; 49; 63; 63; 63; -1; 70; 10; 34; 0]) as (t & H1 & H2 & _); [|by exists t].
  repeat constructor; unfold is_char; lia.
Defined.

(** The eight digits of a [\U] stay in the text, and a [\u] takes a sign for a digit although its length says otherwise. *)
Example unescape_universal : UnescapeC (STRINGBUF "\U00000041") = Ret (STRINGBUF "A00000041").
Proof. vm_compute. reflexivity. Qed.

Example unescape_sign : UnescapeC (STRINGBUF "\u+041") = Ret (STRINGBUF "A") ∧ UnescapeCCharLen (STRINGBUF "\u+041") = Ret 2.
Proof. split; vm_compute; reflexivity. Qed.

(** ** Hexadecimal texts *)

(** The digits of a byte. *)
Lemma digit_bytes u : 0 ≤ u < 256 →
  Char2Digit (DigitToChar (u / 16)) = Ret (u / 16) ∧ Char2Digit (DigitToChar (u mod 16)) = Ret (u mod 16).
Proof.
  intros Hu. set (f := λ u, returns_value (Char2Digit (DigitToChar (u / 16))) (u / 16) && returns_value (Char2Digit (DigitToChar (u mod 16))) (u mod 16)).
  assert (H : f u = true) by (apply (all_bytes f); [vm_compute; reflexivity|done]).
  unfold f in H. by apply andb_true_iff in H as [?%returns_value_Ret ?%returns_value_Ret].
Qed.

Lemma hex_decode_encode str : Forall is_char str → hex_decode_loop (HexEncode str) = Ret str.
Proof.
  induction 1 as [|c str Hc Hs IH]; [done|]. unfold HexEncode in *. rewrite fmap_cons. cbn [concat app hex_decode_loop].
  pose proof (to_u8_range c) as Hu. destruct (digit_bytes _ Hu) as [H1 H2]. unfold Stroka2Byte. rewrite H1, bind_Ret, H2, !bind_Ret, IH, bind_Ret.
  rewrite Z.mul_comm, <- (Z_div_mod_eq_full (to_u8 c) 16). by rewrite to_char_u8.
Qed.

(** A character as a digit: its value, and the digit [HexEncode] writes for it. *)
Definition to_upper (c : Z) : Z := if (chr "a" <=? c) && (c <=? chr "z") then c - 32 else c.

Lemma Char2Digit_cases c : is_char c →
  if IsHexDigit c then ∃ d, Char2Digit c = Ret d ∧ 0 ≤ d < 16 ∧ DigitToChar d = to_upper c
  else Char2Digit c = Fail (Throw (EHexSymbol c)).
Proof.
  intros Hc. set (f := λ u, let c := to_char u in
    match vat Char2DigitTable (to_u8 c) with
    | Ret d => if IsHexDigit c then (0 <=? d) && (d <? 16) && (DigitToChar d =? to_upper c) else d =? -1
    | Fail _ => false
    end).
  assert (H : f (to_u8 c) = true) by (apply (all_bytes f); [vm_compute; reflexivity|apply to_u8_range]).
  unfold f in H. rewrite to_char_u8 in H by done. unfold Char2Digit. destruct (vat Char2DigitTable (to_u8 c)) as [d|]; [|done].
  rewrite bind_Ret. destruct (IsHexDigit c).
  - rewrite !andb_true_iff in H. exists d. replace (d =? -1) with false by lia. cbn. split; [done|]. lia.
  - apply Z.eqb_eq in H as ->. reflexivity.
Qed.

Lemma HexEncode_byte c0 c1 d0 d1 : 0 ≤ d0 < 16 → 0 ≤ d1 < 16 → DigitToChar d0 = c0 → DigitToChar d1 = c1 →
  HexEncode [to_char (d0 * 16 + d1)] = [c0; c1].
Proof.
  intros H0 H1 E0 E1. unfold HexEncode. cbn [fmap list_fmap concat app].
  assert (Hu : to_u8 (to_char (d0 * 16 + d1)) = d0 * 16 + d1).
  { unfold to_char, to_u8. rewrite (Z.mod_small (d0 * 16 + d1)) by lia. case_match.
    - rewrite Z.mod_small; lia.
    - rewrite <- (Z.mod_add _ 1), Z.mod_small; lia. }
  rewrite Hu. replace ((d0 * 16 + d1) / 16) with d0 by (apply Z.div_unique with d1; lia).
  replace ((d0 * 16 + d1) mod 16) with d1 by (apply Z.mod_unique with d0; lia). by rewrite E0, E1.
Qed.

Lemma HexEncode_app a b : HexEncode (a ++ b) = HexEncode a ++ HexEncode b.
Proof. unfold HexEncode. by rewrite fmap_app, concat_app. Qed.

Lemma hex_decode_cases n : ∀ t, (length t = 2 * n)%nat → Forall is_char t →
  if forallb IsHexDigit t then ∃ s, hex_decode_loop t = Ret s ∧ HexEncode s = to_upper <$> t
  else ∃ c, c ∈ t ∧ IsHexDigit c = false ∧ hex_decode_loop t = Fail (Throw (EHexSymbol c)).
Proof.
  induction n as [|n IH]; intros t Hl Ht; [destruct t; [|done]; by exists []|].
  destruct t as [|c0 [|c1 t]]; cbn in Hl; try lia. rewrite !Forall_cons in Ht. destruct Ht as (H0 & H1 & Ht).
  specialize (IH t ltac:(lia) Ht). pose proof (Char2Digit_cases c0 H0) as D0. pose proof (Char2Digit_cases c1 H1) as D1.
  cbn [forallb hex_decode_loop]. unfold Stroka2Byte. destruct (IsHexDigit c0) eqn:E0; cbn [andb].
  2:{ exists c0. rewrite D0. split; [by left|]. by split. }
  destruct D0 as (d0 & -> & R0 & U0). rewrite bind_Ret. destruct (IsHexDigit c1) eqn:E1; cbn [andb].
  2:{ exists c1. rewrite D1. split; [by right; left|]. by split. }
  destruct D1 as (d1 & -> & R1 & U1). rewrite !bind_Ret. destruct (forallb IsHexDigit t).
  - destruct IH as (s & -> & Hs). rewrite bind_Ret. eexists. split; [done|].
    change (?x :: s) with ([x] ++ s). rewrite HexEncode_app, Hs, (HexEncode_byte (to_upper c0) (to_upper c1)) by done. done.
  - destruct IH as (c & Hc & Hh & ->). exists c. split; [by do 2 right|]. by split.
Qed.

(** [HexDecode] reads back what [HexEncode] writes; it takes any text of an even number of digits of either case,
    whose code is the text in capitals, and throws on every other text: for the length, or for a character that is no
    digit. *)
Theorem HexDecode_correct :
  (∀ str, Forall is_char str → HexDecode (HexEncode str) = Ret str) ∧
  (∀ t, Forall is_char t →
    if Z.odd (vsize t) then HexDecode t = Fail (Throw EHexLength)
    else if forallb IsHexDigit t then ∃ s, HexDecode t = Ret s ∧ HexEncode s = to_upper <$> t
    else ∃ c, c ∈ t ∧ IsHexDigit c = false ∧ HexDecode t = Fail (Throw (EHexSymbol c))).
Proof.
  assert (Hodd : ∀ t : TString, Z.land (vsize t) 1 =? 1 = Z.odd (vsize t)).
  { intros t. change (Z.land (vsize t) 1) with (Z.land (vsize t) (Z.ones 1)). rewrite Z.land_ones, Zmod_odd by lia. by destruct (Z.odd (vsize t)). }
  unfold HexDecode. split.
  - intros str Hs. rewrite Hodd. assert (He : Z.odd (vsize (HexEncode str)) = false).
    { unfold HexEncode. clear Hs. induction str as [|c str IH]; [done|]. rewrite fmap_cons. cbn [concat app]. rewrite !vsize_cons.
      rewrite Z.add_assoc, Z.odd_add, IH. done. }
    rewrite He. cbn. by apply hex_decode_encode.
  - intros t Ht. rewrite Hodd. destruct (Z.odd (vsize t)) eqn:Ho; [done|]. cbn.
    assert (Hl : ∃ n, (length t = 2 * n)%nat).
    { exists (length t / 2)%nat. unfold vsize in Ho. apply Nat.div_exact; [lia|].
      apply (f_equal negb) in Ho. rewrite Z.negb_odd in Ho. apply Z.even_spec in Ho as [k Hk]. apply Nat.mod_divide; [lia|]. exists (Z.to_nat k). lia. }
    destruct Hl as [n Hn]. by apply (hex_decode_cases n).
Qed.
