(* ===== verification/Algorithm.v ===== *)
(** * Algorithms on sequences: [util/generic/algorithm.h]

    The algorithms the program calls.  An iterator is a position in a list: the
    end iterator is its size.  The callback of an algorithm may fail, and then
    the algorithm fails in the same way. *)
From S2P Require Import Prelude Arith XRange.

(** ** [NPrivate::ExtremeElementBy] *)

Section Extreme.
  Context {A D : Type}.
  Variable pred : D → D → bool.

(** The loop of [ExtremeElementBy], at position [i] with the best value and its
    position so far. *)
Fixpoint extreme_loop (func : A → outcome D) (best_value : D) (best_pos i : Z)
    (rest : list A) : outcome Z :=
  match rest with
  | [] => Ret best_pos
  | x :: rest =>
      cur_value ← func x;
      if pred cur_value best_value
      then extreme_loop func cur_value i (i + 1) rest
      else extreme_loop func best_value best_pos (i + 1) rest
  end.

Definition ExtremeElementBy (l : list A) (func : A → outcome D) : outcome Z :=
  match l with
  | [] => Ret 0
  | x :: rest => best_value ← func x; extreme_loop func best_value 0 1 rest
  end.

End Extreme.

(** [MaxElementBy(c, func)], with [TGreater], and [MinElementBy(c, func)], with
    [TLess]. *)
Definition MaxElementBy {A D} `{Arith D} (l : list A) (func : A → outcome D) : outcome Z :=
  ExtremeElementBy a_gtb l func.
Definition MinElementBy {A D} `{Arith D} (l : list A) (func : A → outcome D) : outcome Z :=
  ExtremeElementBy a_ltb l func.

(** ** Extrema of integers *)

(** [*MaxElement(begin, end)] and the values [MinMaxElement] points to.  The
    callers dereference the iterators, which needs a non-empty range. *)
Definition MaxElement (l : list Z) : outcome Z :=
  match l with [] => Fail (Undef UDeref) | x :: l => Ret (foldl Z.max x l) end.
Definition MinElement (l : list Z) : outcome Z :=
  match l with [] => Fail (Undef UDeref) | x :: l => Ret (foldl Z.min x l) end.
Definition MinMaxElement (l : list Z) : outcome (Z * Z) :=
  mn ← MinElement l; mx ← MaxElement l; Ret (mn, mx).

(** ** Binary search *)

Section Search.
  Context {A : Type}.

(** The loop of [std::lower_bound] and [std::upper_bound] on [[first, first +
    len)]: [before x] tells whether the bound is after [x].  A pass at least
    halves [len], so [len] passes are enough. *)
Fixpoint bound_loop (before : A → bool) (l : list A) (fuel : nat) (first len : Z)
    : outcome Z :=
  if len =? 0 then Ret first
  else match fuel with
       | O => Ret first
       | S fuel =>
           let l2 := len / 2 in
           let m := first + l2 in
           x ← vat l m;
           if before x then bound_loop before l fuel (m + 1) (len - (l2 + 1))
           else bound_loop before l fuel first l2
       end.

(** [LowerBound(begin + b, begin + e, v)] and [UpperBound(begin + b, begin + e, v)]
    for the order [lt], as positions in the whole vector. *)
Definition LowerBound_in (lt : A → A → bool) (l : list A) (b e : Z) (v : A) : outcome Z :=
  bound_loop (λ x, lt x v) l (Z.to_nat (e - b)) b (e - b).
Definition UpperBound_in (lt : A → A → bool) (l : list A) (b e : Z) (v : A) : outcome Z :=
  bound_loop (λ x, negb (lt v x)) l (Z.to_nat (e - b)) b (e - b).

Definition LowerBound (lt : A → A → bool) (l : list A) (v : A) : outcome Z :=
  LowerBound_in lt l 0 (vsize l) v.

End Search.

(** ** [Find], [AllOf] *)

(** [Find(begin, end, v)]: the position of the first [v], or the end. *)
Fixpoint Find (l : list Z) (v : Z) : Z :=
  match l with
  | [] => 0
  | x :: l => if x =? v then 0 else 1 + Find l v
  end.

(** [AllOf(begin, end, pred)] *)
Definition AllOf {A} (l : list A) (pred : A → bool) : bool := forallb pred l.

(** ** Correctness of the extrema *)

(** The position [ExtremeElementBy] computes from the values of the callback. *)
Fixpoint extreme_pos {D} (pred : D → D → bool) (best : D) (pos i : Z) (rest : list D) : Z :=
  match rest with
  | [] => pos
  | v :: rest =>
      if pred v best then extreme_pos pred v i (i + 1) rest
      else extreme_pos pred best pos (i + 1) rest
  end.

Definition extreme_of {D} (pred : D → D → bool) (vs : list D) : Z :=
  match vs with [] => 0 | v :: vs => extreme_pos pred v 0 1 vs end.

Lemma extreme_loop_values {A D} pred (func : A → outcome D) best pos i l :
  extreme_loop pred func best pos i l =
    (vs ← mmap func l; Ret (extreme_pos pred best pos i vs)).
Proof.
  revert best pos i. induction l as [|x l IH]; intros best pos i; cbn; [done|].
  destruct (func x) as [v|f]; cbn; [|done].
  destruct (pred v best) eqn:Hp; rewrite IH; destruct (mmap func l); cbn; by rewrite ?Hp.
Qed.

Lemma ExtremeElementBy_values {A D} pred (l : list A) (func : A → outcome D) :
  ExtremeElementBy pred l func = (vs ← mmap func l; Ret (extreme_of pred vs)).
Proof.
  destruct l as [|x l]; cbn; [done|]. destruct (func x) as [v|f]; cbn; [|done].
  rewrite extreme_loop_values. by destruct (mmap func l).
Qed.

Section ExtremeCorrect.
  Context {D : Type} (pred : D → D → bool) (num : D → Prop).
  Hypothesis pred_irrefl : ∀ x, pred x x = false.
  Hypothesis pred_trans : ∀ x y z, pred x y = true → pred y z = true → pred x z = true.
  Hypothesis pred_le_trans : ∀ x y z, num x → num y → num z →
    pred x y = true → pred z y = false → pred x z = true.

(** [p] is the first extremum of [vs]: no value is better, and the earlier ones
    are strictly worse. *)
Definition first_extremum (vs : list D) (p : Z) : Prop :=
  ∃ best, 0 ≤ p ∧ vs !! Z.to_nat p = Some best ∧
    (∀ v, v ∈ vs → pred v best = false) ∧
    (∀ j v, (j < Z.to_nat p)%nat → vs !! j = Some v → pred best v = true).

Lemma first_extremum_snoc vs p v best :
  first_extremum vs p → vs !! Z.to_nat p = Some best →
  num v → Forall num vs →
  first_extremum (vs ++ [v]) (if pred v best then vsize vs else p).
Proof.
  intros (best' & Hp & Hb & Hle & Hlt) Hb' Hv Hnum.
  rewrite Hb in Hb'. injection Hb' as ->.
  assert (num best) by (eapply Forall_lookup_1; eassumption).
  destruct (pred v best) eqn:Hvb.
  - exists v. split; [apply vsize_nonneg|]. unfold vsize. rewrite Nat2Z.id.
    split_and!.
    + by rewrite lookup_app_r, Nat.sub_diag by lia.
    + intros w [Hw| ->%list_elem_of_singleton]%elem_of_app; [|done].
      destruct (pred w v) eqn:Hwv; [|done].
      by rewrite <- (Hle w Hw), (pred_trans w v best).
    + intros j w Hj Hw. rewrite lookup_app_l in Hw by done.
      eapply pred_le_trans; [done|eassumption|by eapply Forall_lookup_1|done|].
      apply Hle. by eapply list_elem_of_lookup_2.
  - pose proof (lookup_lt_Some _ _ _ Hb).
    exists best. split_and!; [done|by rewrite lookup_app_l| |].
    + intros w [Hw| ->%list_elem_of_singleton]%elem_of_app; auto.
    + intros j w Hj Hw. rewrite lookup_app_l in Hw by lia. eauto.
Qed.

Lemma extreme_pos_spec vs best pos rest :
  first_extremum vs pos → vs !! Z.to_nat pos = Some best →
  Forall num (vs ++ rest) →
  first_extremum (vs ++ rest) (extreme_pos pred best pos (vsize vs) rest).
Proof.
  revert vs best pos. induction rest as [|v rest IH]; intros vs best pos He Hb Hnum; cbn.
  - by rewrite app_nil_r.
  - rewrite Forall_app, Forall_cons in Hnum. destruct Hnum as (Hvs & Hv & Hrest).
    pose proof (first_extremum_snoc vs pos v best He Hb Hv Hvs) as Hs.
    assert (vsize vs + 1 = vsize (vs ++ [v])) as -> by vlia.
    assert (Forall num ((vs ++ [v]) ++ rest)).
    { rewrite !Forall_app. by split_and!; [|constructor|]. }
    pose proof (lookup_lt_Some _ _ _ Hb).
    rewrite (cons_middle v), app_assoc.
    destruct (pred v best); apply IH; try done.
    + unfold vsize. by rewrite Nat2Z.id, lookup_app_r, Nat.sub_diag by lia.
    + by rewrite lookup_app_l.
Qed.

Lemma extreme_of_spec vs : vs ≠ [] → Forall num vs → first_extremum vs (extreme_of pred vs).
Proof.
  destruct vs as [|v vs]; [done|]. intros _ Hnum. cbn.
  apply (extreme_pos_spec [v]); [|done|done].
  exists v. split_and!; [done|done| |].
  - by intros w ->%list_elem_of_singleton.
  - intros j w Hj. cbn in Hj. lia.
Qed.

End ExtremeCorrect.

Lemma extreme_pos_bounds {D} pred (best : D) pos i rest :
  0 ≤ pos < i → 0 ≤ extreme_pos pred best pos i rest < i + vsize rest.
Proof.
  revert best pos i. induction rest as [|v rest IH]; intros best pos i H; cbn.
  - vlia.
  - rewrite vsize_cons. destruct (pred v best).
    + specialize (IH v i (i + 1)). lia.
    + specialize (IH best pos (i + 1)). lia.
Qed.

(** Whatever the order, the extremum of a non-empty range is in the range. *)
Lemma extreme_of_bounds {D} pred (vs : list D) :
  vs ≠ [] → 0 ≤ extreme_of pred vs < vsize vs.
Proof.
  destruct vs as [|v vs]; [done|]. intros _. cbn. rewrite vsize_cons.
  by apply extreme_pos_bounds.
Qed.

(** The two orders of the program. *)
Section ExtremeOrders.
  Context `{ArithOrder D}.

Lemma extreme_max (vs : list D) :
  vs ≠ [] → Forall a_num vs → first_extremum a_gtb vs (extreme_of a_gtb vs).
Proof.
  apply extreme_of_spec; unfold a_gtb.
  - apply a_ltb_irrefl.
  - intros x y z Hyx Hzy. by apply (a_ltb_trans z y x).
  - intros x y z ??? Hyx Hyz. by apply (a_le_ltb_trans z y x).
Qed.

Lemma extreme_min (vs : list D) :
  vs ≠ [] → Forall a_num vs → first_extremum a_ltb vs (extreme_of a_ltb vs).
Proof.
  apply extreme_of_spec.
  - apply a_ltb_irrefl.
  - intros x y z. apply a_ltb_trans.
  - intros x y z ??? Hxy Hzy. by apply (a_ltb_le_trans x y z).
Qed.

End ExtremeOrders.

(** ** Correctness of the binary search *)

Section SearchCorrect.
  Context {A : Type} (before : A → bool) (l : list A).

(** [p] separates the elements of [[b, e)] that satisfy [before] from the others. *)
Definition splits (b e p : Z) : Prop :=
  b ≤ p ≤ e ∧ ∀ i x, b ≤ i < e → l !! Z.to_nat i = Some x → before x = (i <? p).

(** The range is partitioned: [before] holds on a prefix of it. *)
Definition partitioned (b e : Z) : Prop :=
  ∀ i j x y, b ≤ i ≤ j → j < e → l !! Z.to_nat i = Some x → l !! Z.to_nat j = Some y →
    before y = true → before x = true.

Lemma bound_loop_spec fuel first len :
  0 ≤ first → 0 ≤ len ≤ Z.of_nat fuel → first + len ≤ vsize l →
  partitioned first (first + len) →
  ∃ p, bound_loop before l fuel first len = Ret p ∧ splits first (first + len) p.
Proof.
  revert first len. induction fuel as [|fuel IH]; intros first len Hf Hl Hs Hpart; cbn.
  { replace len with 0 by lia. exists first. split; [done|]. split; lia. }
  destruct (Z.eqb_spec len 0) as [-> |Hn].
  { exists first. split; [done|]. split; lia. }
  pose proof (Z.div_mod len 2). pose proof (Z.mod_pos_bound len 2).
  set (l2 := len / 2) in *.
  destruct (vat_in_range l (first + l2)) as (x & -> & Hx); [lia|]. cbn.
  destruct (before x) eqn:Hb.
  - destruct (IH (first + l2 + 1) (len - (l2 + 1))) as (p & Hp & Hr & Hsp); [lia..| |].
    { intros i j y z ??. apply Hpart; lia. }
    exists p. split; [done|]. split; [lia|]. intros i y Hi Hy.
    destruct (Z.le_gt_cases i (first + l2)).
    + rewrite (proj2 (Z.ltb_lt i p)) by lia. by eapply (Hpart i (first + l2)); eauto; lia.
    + apply Hsp; [lia|done].
  - destruct (IH first l2) as (p & Hp & Hr & Hsp); [lia..| |].
    { intros i j y z ??. apply Hpart; lia. }
    exists p. split; [done|]. split; [lia|]. intros i y Hi Hy.
    destruct (Z.lt_ge_cases i (first + l2)); [apply Hsp; [lia|done]|].
    rewrite (proj2 (Z.ltb_ge i p)) by lia.
    apply not_true_iff_false. intros Hy'.
    apply not_true_iff_false in Hb. apply Hb. eapply (Hpart (first + l2) i); eauto; lia.
Qed.

End SearchCorrect.

(** On a vector partitioned by the value, as a sorted one is, [LowerBound]
    returns the position that separates the smaller elements from the others. *)
Theorem LowerBound_correct {A} (lt : A → A → bool) (l : list A) (v : A)
  (Hpart : partitioned (λ x, lt x v) l 0 (vsize l)) :
  ∃ p, LowerBound lt l v = Ret p ∧ splits (λ x, lt x v) l 0 (vsize l) p.
Proof.
  unfold LowerBound, LowerBound_in. rewrite Z.sub_0_r.
  pose proof (vsize_nonneg l).
  apply (bound_loop_spec _ _ _ 0 (vsize l)); (lia || done).
Qed.

Example LowerBound_correct_witness :
  LowerBound Z.ltb [1; 3; 3; 7] 3 = Ret 1 ∧
  ∃ p, LowerBound Z.ltb [1; 3; 3; 7] 3 = Ret p ∧
    splits (λ x, x <? 3) [1; 3; 3; 7] 0 (vsize [1; 3; 3; 7]) p.
Proof.
  split; [reflexivity|]. apply (LowerBound_correct Z.ltb [1; 3; 3; 7] 3).
  intros i j x y Hij Hj.
  cut (∀ i' j' : nat, (i' ≤ j')%nat → (j' < 4)%nat → [1; 3; 3; 7] !! i' = Some x →
    [1; 3; 3; 7] !! j' = Some y → (y <? 3) = true → (x <? 3) = true).
  { cbn in Hj. intros Hc Hx Hy. eapply (Hc (Z.to_nat i) (Z.to_nat j)); try done; unfold vsize in Hj; cbn in Hj; lia. }
  intros i' j' ?? Hx Hy. do 4 (destruct i' as [|i'];
    [cbn in Hx; do 4 (destruct j' as [|j']; [cbn in Hy; injection Hx as <-; injection Hy as <-; (done || lia)|]); lia|]). lia.
Defined.

(** The search on a part of a sorted vector of integers. *)
Lemma LowerBound_in_sorted (l : list Z) (b e v : Z) :
  StronglySorted Z.le l → 0 ≤ b ≤ e → e ≤ vsize l →
  ∃ p, LowerBound_in Z.ltb l b e v = Ret p ∧ splits (λ x, x <? v) l b e p.
Proof.
  intros Hs Hb He. unfold LowerBound_in.
  pose proof (bound_loop_spec (λ x, x <? v) l (Z.to_nat (e - b)) b (e - b)) as Hspec.
  replace (b + (e - b)) with e in Hspec by lia. apply Hspec; [lia..|].
  intros i j x y Hij Hj Hx Hy. rewrite !Z.ltb_lt.
  assert (x ≤ y) by (eapply (sorted_lookup l); [done| |done..]; lia). lia.
Qed.

(** ** Extrema of integers *)

Lemma foldl_max_spec l x m :
  foldl Z.max x l = m ↔ (m = x ∨ m ∈ l) ∧ x ≤ m ∧ ∀ y, y ∈ l → y ≤ m.
Proof.
  revert x. induction l as [|y l IH]; intros x; cbn.
  - split; [intros <-; set_solver|]. intros ([-> |?%not_elem_of_nil] & _); done.
  - rewrite IH. split.
    + intros (Hm & Hx & Hl). split_and!; [|lia|].
      * destruct Hm as [-> |]; [|set_solver]. destruct (Z.max_spec x y) as [[? ->]|[? ->]]; set_solver.
      * intros z [-> |Hz]%elem_of_cons; [lia|auto].
    + intros (Hm & Hx & Hl). split_and!.
      * destruct Hm as [-> |[-> |]%elem_of_cons]; [| |by right].
        -- left. specialize (Hl y). set_solver by lia.
        -- left. lia.
      * assert (y ≤ m) by (apply Hl; set_solver). lia.
      * intros z ?. apply Hl. set_solver.
Qed.

Lemma foldl_min_spec l x m :
  foldl Z.min x l = m ↔ (m = x ∨ m ∈ l) ∧ m ≤ x ∧ ∀ y, y ∈ l → m ≤ y.
Proof.
  revert x. induction l as [|y l IH]; intros x; cbn.
  - split; [intros <-; set_solver|]. intros ([-> |?%not_elem_of_nil] & _); done.
  - rewrite IH. split.
    + intros (Hm & Hx & Hl). split_and!; [|lia|].
      * destruct Hm as [-> |]; [|set_solver]. destruct (Z.min_spec x y) as [[? ->]|[? ->]]; set_solver.
      * intros z [-> |Hz]%elem_of_cons; [lia|auto].
    + intros (Hm & Hx & Hl). split_and!.
      * destruct Hm as [-> |[-> |]%elem_of_cons]; [| |by right].
        -- left. assert (x ≤ y) by (apply Hl; set_solver). lia.
        -- left. lia.
      * assert (m ≤ y) by (apply Hl; set_solver). lia.
      * intros z ?. apply Hl. set_solver.
Qed.

(** A non-empty vector has a minimum and a maximum, both in it. *)
Lemma MinMaxElement_spec l : l ≠ [] →
  ∃ mn mx, MinMaxElement l = Ret (mn, mx) ∧ mn ∈ l ∧ mx ∈ l ∧
    ∀ x, x ∈ l → mn ≤ x ≤ mx.
Proof.
  destruct l as [|y l]; [done|]. intros _. unfold MinMaxElement; cbn.
  destruct (proj1 (foldl_min_spec l y _) eq_refl) as (Hmn & ? & Hmnl).
  destruct (proj1 (foldl_max_spec l y _) eq_refl) as (Hmx & ? & Hmxl).
  eexists _, _. split; [done|]. split_and!.
  - destruct Hmn as [-> |]; set_solver.
  - destruct Hmx as [-> |]; set_solver.
  - intros x [-> |Hx]%elem_of_cons; [done|]. auto.
Qed.

Lemma Find_bounds l v : 0 ≤ Find l v ≤ vsize l.
Proof. induction l as [|x l IH]; cbn; [done|]. rewrite vsize_cons. destruct (_ =? _); lia. Qed.

Lemma Find_end l v : Find l v = vsize l ↔ v ∉ l.
Proof.
  induction l as [|x l IH]; cbn; [set_solver|]. rewrite vsize_cons.
  pose proof (vsize_nonneg l).
  destruct (Z.eqb_spec x v); [set_solver by lia|]. rewrite not_elem_of_cons.
  split; [intros; split; [done|apply IH; lia]|]. intros [_ ?%IH]. lia.
Qed.

Lemma AllOf_true {A} (l : list A) pred : AllOf l pred = true ↔ ∀ x, x ∈ l → pred x = true.
Proof.
  unfold AllOf. rewrite forallb_forall. setoid_rewrite list_elem_of_In. done.
Qed.
