(* ===== verification/PoolReader.v ===== *)
(** * Reading pools: the readers of [cmicot/lib/io.cpp] and the splitter of
    [util/string/iterator.h] and [util/string/split.h]

    A pool is a text of lines of numbers separated by tabulators.  [ReadPool] reads
    batches of lines, parses every batch in a task of its own and appends the results
    in the order of the batches; an exception of a task reaches the reader through
    its future.  [ReadBinToFeatureMap] reads the pairs of a feature and a bin of a
    binarized pool. *)
From Stdlib Require Import Ascii String.
From S2P Require Import Prelude Cast Stream XRange Algorithm.

Open Scope Z_scope.

(** ** [StringSplitter(s).Split(ch)] *)

(** [TIteratorState] over a string: the positions of [B], [TokS] and [TokD]; [TokD]
    is null at first.  [E] is the end of the string. *)
Record TIteratorState : Type := { ItB : Z; ItTokS : Z; ItTokD : option Z }.

(** [TCharDelimiter::Find(b, e)]: the position found and the new [b]. *)
Definition TCharDelimiter_Find (s : TString) (ch b : Z) : Z * Z :=
  match memchr (drop (Z.to_nat b) s) ch with
  | Some k => (b + Z.of_nat k, b + Z.of_nat k + 1)
  | None => (vsize s, vsize s)
  end.

(** [TIterator::Next()] *)
Definition iterator_next (s : TString) (ch : Z) (it : TIteratorState) : option TIteratorState :=
  if bool_decide (ItTokD it = Some (ItB it)) then None
  else let r := TCharDelimiter_Find s ch (ItB it) in
       Some {| ItB := r.2; ItTokS := ItB it; ItTokD := Some r.1 |}.

(** [Token()] *)
Definition iterator_token (s : TString) (it : TIteratorState) : TString :=
  let d := default 0 (ItTokD it) in
  take (Z.to_nat (d - ItTokS it)) (drop (Z.to_nat (ItTokS it)) s).

(** The loop over the tokens. *)
Fixpoint split_loop (fuel : nat) (s : TString) (ch : Z) (it : TIteratorState) : list TString :=
  match fuel with
  | O => []
  | S fuel =>
      match iterator_next s ch it with
      | None => []
      | Some it => iterator_token s it :: split_loop fuel s ch it
      end
  end.

(** The tokens of a string; there is at most one more than there are characters. *)
Definition Split (s : TString) (ch : Z) : list TString :=
  split_loop (2 + length s) s ch {| ItB := 0; ItTokS := 0; ItTokD := None |}.

(** ** Batches of lines *)

(** [TRawPool]: the columns of a pool. *)
Abbreviation TRawPool D := (list (list D)).

(** [TBatchParser] *)
Record TBatchParser : Type := { Lines : list TString; FirstLineNo : Z }.

Section Pool.
  Context {D : Type}.
  (** [TryFromString] for [double]: [TryFromString_double] on the converter of the
      double-conversion library. *)
  Variable TryFromString : TString → option D.

(** The numbers of a line. *)
Definition parse_line (line : TString) (cur_line : Z) : outcome (list D) :=
  mmap (λ token, match TryFromString token with
                 | Some x => Ret x
                 | None => Fail (Throw (EParse token cur_line))
                 end) (Split line 9).

(** [result[column].push_back(numbers[column])] *)
Definition push_number (numbers : list D) (result : TRawPool D) (column : Z) : outcome (TRawPool D) :=
  x ← vat numbers column;
  col ← vat result column;
  vset result column (col ++ [x]).

(** One pass of the loop over the lines; [i] is the position of the line. *)
Definition parse_batch_line (first_line_no : Z) (result : TRawPool D) (p : nat * TString)
    : outcome (TRawPool D) :=
  let cur_line := first_line_no + Z.of_nat p.1 in
  numbers ← parse_line p.2 cur_line;
  result ← (if vsize result =? 0 then Ret (vresize result (vsize numbers) [])
            else _ ← ensure (vsize result =? vsize numbers)
                       (EColumns cur_line (vsize numbers) first_line_no (vsize result));
                 Ret result);
  mfold (push_number numbers) result (xrange (vsize numbers)).

(** [TBatchParser::operator()] *)
Definition TBatchParser_call (b : TBatchParser) : outcome (TRawPool D) :=
  mfold (parse_batch_line (FirstLineNo b)) [] (imap pair (Lines b)).

Section Stream.
  Context {S : Type} `{!IInputStream S}.

(** The loop that fills a batch: [n] lines are left to read. *)
Fixpoint read_batch (n : nat) (current_line : TString) (lines : list TString) (inp : S)
    : outcome (list TString * S) :=
  match n with
  | O => Ret (lines, inp)
  | Datatypes.S n =>
      r ← ReadLine current_line inp;
      let '(ret, current_line, inp) := r in
      if ret =? 0 then Ret (lines, inp)
      else read_batch n current_line (lines ++ [current_line]) inp
  end.

(** The loop over the batches: the parsers passed to [Async].  Every batch takes a
    character of the stream at least. *)
Fixpoint read_batches (fuel : nat) (lines_in_batch line_no : Z) (inp : S) : outcome (list TBatchParser) :=
  match fuel with
  | O => Fail (Abort VUnreachable)
  | Datatypes.S fuel =>
      _ ← ensure (0 <=? lines_in_batch) (ELength lines_in_batch);
      r ← read_batch (Z.to_nat lines_in_batch) [] [] inp;
      if vsize r.1 =? 0 then Ret []
      else
        bs ← read_batches fuel lines_in_batch (line_no + vsize r.1) r.2;
        Ret ({| Lines := r.1; FirstLineNo := line_no |} :: bs)
  end.

(** [result[column].insert(result[column].end(), data[column].begin(), ...)] *)
Definition insert_column (data result : TRawPool D) (column : Z) : outcome (TRawPool D) :=
  x ← vat data column;
  col ← vat result column;
  vset result column (col ++ x).

(** One pass of the loop over the futures; [GetValue()] rethrows the exception of the
    task. *)
Definition append_batch (result : TRawPool D) (parse_result : outcome (TRawPool D)) : outcome (TRawPool D) :=
  data ← parse_result;
  let result := if vsize result =? 0 then vresize result (vsize data) [] else result in
  _ ← ensure (vsize result =? vsize data) (EBatchColumns (vsize result) (vsize data));
  mfold (insert_column data) result (xrange (vsize result)).

(** [ReadPool(in, linesInBatch, queue)] *)
Definition ReadPool_batches (lines_in_batch : Z) (inp : S) : outcome (TRawPool D) :=
  batches ← read_batches (Datatypes.S (stream_size inp)) lines_in_batch 1 inp;
  mfold append_batch [] (TBatchParser_call <$> batches).

(** [ReadPool(in)] *)
Definition ReadPool (inp : S) : outcome (TRawPool D) := ReadPool_batches 20000 inp.

End Stream.
End Pool.

(** ** The map of bins to features *)

Section Map.
  Context {S : Type} `{!IInputStream S}.
  (** How many elements a vector can be resized to; [resize] throws beyond. *)
  Variable max_elements : Z.

(** The conversion of an [ui64] to [int]. *)
Definition to_int (v : Z) : Z := let m := u32 v in if m <? 2 ^ 31 then m else m - 2 ^ 32.

Definition uninitialized : Z := -1.

(** The body of the loop over the lines. *)
Definition read_map_line (result : list Z) (line : TString) : outcome (list Z) :=
  f ← In_number t_ui64 (string_input line);
  b ← In_number t_ui64 f.2;
  let feature_index := f.1 in
  let bin_index := b.1 in
  result ← (if vsize result <=? bin_index then
              _ ← ensure (u64 (bin_index + 1) <=? max_elements) (ELength (u64 (bin_index + 1)));
              Ret (vresize result (u64 (bin_index + 1)) uninitialized)
            else Ret result);
  v ← vat result bin_index;
  _ ← ensure (v =? uninitialized) (EMapDuplicate bin_index);
  vset result bin_index (to_int feature_index).

Fixpoint read_map_loop (fuel : nat) (result : list Z) (line : TString) (inp : S) : outcome (list Z) :=
  match fuel with
  | O => Fail (Abort VUnreachable)
  | Datatypes.S fuel =>
      r ← ReadLine line inp;
      let '(ret, line, inp) := r in
      if ret =? 0 then Ret result
      else result ← read_map_line result line; read_map_loop fuel result line inp
  end.

Definition ReadBinToFeatureMap (inp : S) : outcome (list Z) :=
  result ← read_map_loop (Datatypes.S (stream_size inp)) [] [] inp;
  let iter := Find result uninitialized in
  if iter =? vsize result then Ret result else Fail (Throw (EMapMissing iter)).

End Map.

(** ** Tokens *)

(** The parts of a string between the characters [ch], one more than there are of
    them. *)
Fixpoint split_on (ch : Z) (cur l : TString) : list TString :=
  match l with
  | [] => [cur]
  | c :: l => if c =? ch then cur :: split_on ch [] l else split_on ch (cur ++ [c]) l
  end.

Lemma split_on_find ch cur l :
  split_on ch cur l = match find_char ch l with
                      | None => [cur ++ l]
                      | Some k => (cur ++ take k l) :: split_on ch [] (drop (S k) l)
                      end.
Proof.
  revert cur. induction l as [|c l IH]; intros cur; cbn; [by rewrite app_nil_r|].
  destruct (c =? ch); [by rewrite app_nil_r, drop_0|]. rewrite IH.
  destruct (find_char ch l); cbn; by rewrite <- app_assoc.
Qed.

Lemma split_loop_correct fuel s ch it :
  0 ≤ ItB it ≤ vsize s → ItTokD it ≠ Some (ItB it) →
  (length s - Z.to_nat (ItB it) + 1 < fuel)%nat →
  split_loop fuel s ch it = split_on ch [] (drop (Z.to_nat (ItB it)) s).
Proof.
  revert it. induction fuel as [|fuel IH]; intros it Hb Hd Hf; [lia|]. cbn [split_loop].
  unfold iterator_next. rewrite bool_decide_false by done. unfold TCharDelimiter_Find, memchr.
  set (b := Z.to_nat (ItB it)) in *. rewrite split_on_find.
  pose proof (cut_at_app_Some ch (drop b s) []) as HSome.
  destruct (find_char ch (drop b s)) as [k|]; cbn [fst snd].
  - destruct (HSome k eq_refl) as [_ Hk]. rewrite length_drop in Hk. unfold vsize in Hb.
    f_equal.
    + unfold iterator_token. cbn. fold b. f_equal. lia.
    + rewrite IH; cbn [ItB ItTokD].
      * rewrite drop_drop. do 2 f_equal. lia.
      * unfold vsize. lia.
      * intros [= Heq]. lia.
      * lia.
  - f_equal.
    + unfold iterator_token. cbn. fold b. apply take_ge. rewrite length_drop. unfold vsize. lia.
    + destruct fuel; [done|]. cbn [split_loop]. unfold iterator_next. cbn [ItB ItTokD].
      by rewrite bool_decide_true.
Qed.

Lemma Split_correct s ch : Split s ch = split_on ch [] s.
Proof.
  unfold Split. rewrite split_loop_correct; cbn; [done| |done|lia].
  pose proof (vsize_nonneg s). lia.
Qed.

Lemma split_on_nonempty ch cur l : split_on ch cur l ≠ [].
Proof. revert cur. induction l as [|c l IH]; intros cur; cbn; [done|]. by destruct (c =? ch). Qed.

(** ** Columns of rows *)

(** The columns of some rows of [n] numbers. *)
Definition transpose {D} (n : nat) (rows : list (list D)) : TRawPool D :=
  foldl (λ cols row, zip_with (λ col x, col ++ [x]) cols row) (replicate n []) rows.

Section Transpose.
  Context {D : Type}.
  Implicit Types (rows : list (list D)) (cols : TRawPool D).

Lemma transpose_snoc n rows row :
  transpose n (rows ++ [row]) = zip_with (λ col x, col ++ [x]) (transpose n rows) row.
Proof. unfold transpose. by rewrite foldl_app. Qed.

Lemma length_transpose n rows : Forall (λ r, length r = n) rows → length (transpose n rows) = n.
Proof.
  induction rows as [|row rows IH] using rev_ind; intros Hr; [apply length_replicate|].
  apply Forall_app in Hr as [Hr [Hrow _]%Forall_cons_1]. rewrite transpose_snoc, length_zip_with, IH by done. lia.
Qed.

(** Column [j] of the table has the [j]-th number of every row. *)
Lemma lookup_transpose n rows j col i : Forall (λ r, length r = n) rows →
  transpose n rows !! j = Some col → col !! i = rows !! i ≫= (.!! j) ∧ length col = length rows.
Proof.
  revert col i. induction rows as [|row rows IH] using rev_ind; intros col i Hr.
  - intros [-> _]%lookup_replicate. done.
  - apply Forall_app in Hr as [Hr [Hrow _]%Forall_cons_1]. rewrite transpose_snoc.
    intros (c & x & -> & Hc & Hx)%lookup_zip_with_Some. destruct (IH c i Hr Hc) as [Hi Hlen].
    rewrite !length_app, Hlen. split; [|done]. destruct (Nat.lt_trichotomy i (length rows)) as [Hlt|[->|Hgt]].
    + by rewrite !lookup_app_l by lia.
    + rewrite (lookup_app_r c), Hlen, Nat.sub_diag by lia. rewrite (lookup_app_r rows), Nat.sub_diag by lia.
      cbn. by rewrite Hx.
    + rewrite !lookup_ge_None_2 by (rewrite length_app; cbn; lia). done.
Qed.

(** The table of two blocks of rows is the blocks' columns appended. *)
Lemma transpose_app n rows rows' : Forall (λ r, length r = n) rows → Forall (λ r, length r = n) rows' →
  transpose n (rows ++ rows') = zip_with app (transpose n rows) (transpose n rows').
Proof.
  intros Hr. induction rows' as [|row rows' IH] using rev_ind; intros Hr'.
  - rewrite app_nil_r. apply list_eq. intros j. rewrite lookup_zip_with.
    destruct (transpose n rows !! j) as [c|] eqn:Hc; cbn; [|done].
    assert (j < n)%nat as Hj by (apply lookup_lt_Some in Hc; by rewrite length_transpose in Hc).
    unfold transpose. cbn [foldl]. rewrite lookup_replicate_2 by done. cbn. by rewrite app_nil_r.
  - apply Forall_app in Hr' as [Hr' [Hrow _]%Forall_cons_1]. rewrite app_assoc, !transpose_snoc, IH by done.
    apply list_eq. intros j. rewrite !lookup_zip_with.
    destruct (transpose n rows !! j), (transpose n rows' !! j), (row !! j); cbn; try done. by rewrite app_assoc.
Qed.

Lemma mfold_zip {X A} (f : A → X → A) (step : list A → Z → outcome (list A)) (l : list A) (xs : list X) :
  length xs = length l →
  (∀ acc i a x, length acc = length l → acc !! i = Some a → xs !! i = Some x →
     step acc (Z.of_nat i) = Ret (<[i := f a x]> acc)) →
  mfold step l (xrange (vsize l)) = Ret (zip_with f l xs).
Proof.
  intros Hlen Hstep.
  rewrite (mfold_update step (λ i a, match xs !! i with Some x => f a x | None => a end) l).
  - f_equal. apply list_eq. intros i. rewrite list_lookup_imap, lookup_zip_with.
    destruct (l !! i) as [a|] eqn:Ha; cbn; [|done].
    apply lookup_lt_Some in Ha. destruct (lookup_lt_is_Some_2 xs i) as [x ->]; [lia|done].
  - intros acc i a Hacc Hi Ha. destruct (lookup_lt_is_Some_2 xs i) as [x Hx]; [lia|].
    rewrite Hx. by apply Hstep.
Qed.

Lemma vat_of_nat {A} (l : list A) i x : l !! i = Some x → vat l (Z.of_nat i) = Ret x.
Proof. intros H. apply vat_Ret. rewrite Nat2Z.id. split; [lia|done]. Qed.

Lemma vset_of_nat {A} (l : list A) i (x : A) : (i < length l)%nat → vset l (Z.of_nat i) x = Ret (<[i := x]> l).
Proof. intros H. apply vset_Ret. rewrite Nat2Z.id. unfold vsize. split; [lia|done]. Qed.

Lemma push_numbers_ok numbers cols : length numbers = length cols →
  mfold (push_number numbers) cols (xrange (vsize cols)) = Ret (zip_with (λ col x, col ++ [x]) cols numbers).
Proof.
  intros Hlen. apply mfold_zip; [done|]. intros acc i a x Hacc Ha Hx. unfold push_number.
  rewrite (vat_of_nat _ _ _ Hx), bind_Ret, (vat_of_nat _ _ _ Ha), bind_Ret. apply vset_of_nat.
  by apply lookup_lt_Some in Ha.
Qed.

Lemma insert_columns_ok data cols : length data = length cols →
  mfold (insert_column data) cols (xrange (vsize cols)) = Ret (zip_with app cols data).
Proof.
  intros Hlen. apply mfold_zip; [done|]. intros acc i a x Hacc Ha Hx. unfold insert_column.
  rewrite (vat_of_nat _ _ _ Hx), bind_Ret, (vat_of_nat _ _ _ Ha), bind_Ret. apply vset_of_nat.
  by apply lookup_lt_Some in Ha.
Qed.

End Transpose.

(** ** Correctness of [ReadPool] *)

Section PoolOk.
  Context {D : Type} (TryFromString : TString → option D).

(** The numbers of a line, when every token is one. *)
Definition row_of (line : TString) : option (list D) := mapM TryFromString (split_on 9 [] line).

(** [rows] are the numbers of the lines, and all of the same length. *)
Definition table (lines : list TString) (n : nat) (rows : list (list D)) : Prop :=
  mapM row_of lines = Some rows ∧ Forall (λ r, length r = n) rows.

(** The columns of a text of lines. *)
Definition pool_of (lines : list TString) : option (TRawPool D) :=
  rows ← mapM row_of lines;
  match rows with
  | [] => Some []
  | r :: _ => if decide (Forall (λ r', length r' = length r) rows) then Some (transpose (length r) rows) else None
  end.

Lemma parse_line_spec line k :
  match row_of line with
  | Some row => parse_line TryFromString line k = Ret row ∧ row ≠ []
  | None => is_throw (parse_line TryFromString line k)
  end.
Proof.
  unfold parse_line, row_of. rewrite Split_correct. pose proof (split_on_nonempty 9 [] line) as Hne.
  destruct (mapM TryFromString (split_on 9 [] line)) as [row|] eqn:Hm.
  - apply mapM_Some in Hm. split; [|intros ->; by apply Forall2_nil_inv_r in Hm].
    apply mmap_Forall2. eapply Forall2_impl; [exact Hm|]. intros t x ->. done.
  - clear Hne. induction (split_on 9 [] line) as [|t ts IH]; cbn in *; [done|].
    destruct (TryFromString t); cbn; [|by eexists]. destruct (mapM TryFromString ts); cbn in *; [done|].
    destruct (IH eq_refl) as [e ->]. by eexists.
Qed.

Lemma table_app lines lines' n rows : table (lines ++ lines') n rows →
  ∃ rows1 rows2, rows = rows1 ++ rows2 ∧ table lines n rows1 ∧ table lines' n rows2.
Proof.
  intros [Hm%mapM_Some Hr]. apply Forall2_app_inv_l in Hm as (r1 & r2 & H1 & H2 & ->).
  apply Forall_app in Hr as [Hr1 Hr2]. exists r1, r2. split; [done|]. by split; split; [apply mapM_Some| |apply mapM_Some|].
Qed.

Lemma table_app_2 lines lines' n rows rows' : table lines n rows → table lines' n rows' →
  table (lines ++ lines') n (rows ++ rows').
Proof.
  intros [H1%mapM_Some Hr1] [H2%mapM_Some Hr2]. split; [|by apply Forall_app].
  apply mapM_Some. by apply Forall2_app.
Qed.

(** The number of columns of a table that has a row is determined. *)
Lemma table_columns lines n rows n' rows' : lines ≠ [] → table lines n rows → table lines n' rows' → n = n' ∧ rows = rows'.
Proof.
  intros Hne [H1 Hr1] [H2 Hr2]. assert (rows = rows') as <- by congruence. split; [|done].
  apply mapM_Some in H1. destruct rows as [|r rows]; [by apply Forall2_nil_inv_r in H1|].
  apply Forall_cons_1 in Hr1 as [<- _]. by apply Forall_cons_1 in Hr2 as [<- _].
Qed.

Lemma table_length lines n rows : table lines n rows → length rows = length lines.
Proof. intros [H%mapM_Some _]. symmetry. by eapply Forall2_length. Qed.

(** What the columns are after some lines. *)
Definition columns_after (lines : list TString) (result : TRawPool D) : Prop :=
  (lines = [] ∧ result = []) ∨
  ∃ n rows, lines ≠ [] ∧ (0 < n)%nat ∧ table lines n rows ∧ result = transpose n rows.

Lemma vresize_nil {A B} (x : A) (d : list B) : vresize [] (vsize d) x = replicate (length d) x.
Proof. unfold vresize. rewrite take_nil. cbn. f_equal. unfold vsize. lia. Qed.

(** One line. *)
Lemma parse_batch_line_ok first pre line i result :
  columns_after pre result →
  (∃ result', parse_batch_line TryFromString first result (i, line) = Ret result' ∧
     columns_after (pre ++ [line]) result') ∨
  is_throw (parse_batch_line TryFromString first result (i, line)) ∧ (∀ n rows, ¬ table (pre ++ [line]) n rows).
Proof.
  intros Hpre. unfold parse_batch_line. cbn [fst snd].
  pose proof (parse_line_spec line (first + Z.of_nat i)) as Hline.
  destruct (row_of line) as [row|] eqn:Hrow.
  2: { right. split; [by apply is_throw_bind|]. intros n rows (r1 & r2 & _ & _ & [Hm _])%table_app.
       cbn in Hm. by rewrite Hrow in Hm. }
  destruct Hline as [-> Hne]. rewrite bind_Ret.
  assert (table [line] (length row) [row]) as Htl.
  { split; [|by apply Forall_singleton]. cbn. by rewrite Hrow. }
  destruct Hpre as [[-> ->]|(n & rows & Hpne & Hn & Htab & ->)].
  - left. change (vsize (@nil (list D)) =? 0) with true. cbv iota. rewrite bind_Ret, vresize_nil.
    assert (vsize row = vsize (replicate (length row) (@nil D))) as -> by (unfold vsize; by rewrite length_replicate).
    rewrite push_numbers_ok by (by rewrite length_replicate).
    eexists. split; [done|]. right. exists (length row), [row]. split_and!; [done| |done|done].
    destruct row; [done|cbn; lia].
  - pose proof (length_transpose n rows (proj2 Htab)) as Hlen.
    assert (vsize (transpose n rows) = Z.of_nat n) as Hsz by (unfold vsize; by rewrite Hlen).
    rewrite Hsz, (proj2 (Z.eqb_neq _ 0)) by lia.
    destruct (Z.eqb_spec (Z.of_nat n) (vsize row)) as [Heq|Hneq]; cbn [ensure].
    + left. rewrite bind_Ret, bind_Ret. rewrite <- Heq, <- Hsz, push_numbers_ok.
      * eexists. split; [done|]. right. exists n, (rows ++ [row]).
        assert (length row = n) as Hrn by (unfold vsize in Heq; lia). rewrite Hrn in Htl.
        split_and!; [by destruct pre|done|by apply table_app_2|by rewrite transpose_snoc].
      * unfold vsize in Heq. lia.
    + right. split; [by eexists|]. intros n' rows' (r1 & r2 & _ & H1 & H2)%table_app.
      destruct (table_columns pre n rows n' r1 Hpne Htab H1) as [<- _].
      destruct (table_columns [line] n r2 (length row) [row] ltac:(done) H2 Htl) as [-> _].
      unfold vsize in Hneq. lia.
Qed.

Lemma imap_pair_snd {A} (l : list A) : (imap pair l).*2 = l.
Proof.
  rewrite fmap_imap. rewrite <- (list_fmap_id l) at 2. rewrite <- imap_const. by apply imap_ext.
Qed.

(** A batch. *)
Lemma TBatchParser_call_ok b :
  (∃ result, TBatchParser_call TryFromString b = Ret result ∧ columns_after (Lines b) result) ∨
  is_throw (TBatchParser_call TryFromString b) ∧ (∀ n rows, ¬ table (Lines b) n rows).
Proof.
  unfold TBatchParser_call.
  destruct (mfold_or_throw (λ pre result, columns_after (pre.*2) result) (∀ n rows, ¬ table (Lines b) n rows)
    (parse_batch_line TryFromString (FirstLineNo b)) (imap pair (Lines b)) []) as [(r & -> & Hr)|H].
  - by left.
  - intros pre [i line] post result Hl Hpre. rewrite fmap_app. cbn.
    destruct (parse_batch_line_ok (FirstLineNo b) (pre.*2) line i result Hpre) as [H|[Ht Hno]]; [by left|right].
    split; [done|]. intros n rows Htab. apply (f_equal (fmap snd)) in Hl. rewrite fmap_app in Hl. cbn in Hl.
    assert (Lines b = (pre.*2 ++ [line]) ++ post.*2) as Hlines.
    { rewrite <- app_assoc. cbn. by rewrite <- Hl, imap_pair_snd. }
    rewrite Hlines in Htab. apply table_app in Htab as (r1 & r2 & _ & H1 & _). by eapply Hno.
  - left. eexists. split; [done|]. by rewrite imap_pair_snd in Hr.
  - by right.
Qed.

(** One batch appended to the others. *)
Lemma append_batch_ok pre ls result r :
  columns_after pre result → ls ≠ [] →
  ((∃ data, r = Ret data ∧ columns_after ls data) ∨ is_throw r ∧ (∀ n rows, ¬ table ls n rows)) →
  (∃ result', append_batch result r = Ret result' ∧ columns_after (pre ++ ls) result') ∨
  is_throw (append_batch result r) ∧ (∀ n rows, ¬ table (pre ++ ls) n rows).
Proof.
  intros Hpre Hls [(data & -> & Hdata)|[Ht Hno]].
  2: { right. split; [by apply is_throw_bind|]. intros n rows (r1 & r2 & _ & _ & H2)%table_app. by eapply Hno. }
  destruct Hdata as [[-> _]|(m & rows' & _ & Hm & Htab' & ->)]; [done|].
  unfold append_batch. rewrite bind_Ret.
  pose proof (length_transpose m rows' (proj2 Htab')) as Hlen'.
  assert (vsize (transpose m rows') = Z.of_nat m) as Hsz' by (unfold vsize; by rewrite Hlen').
  destruct Hpre as [[-> ->]|(n & rows & Hpne & Hn & Htab & ->)].
  - left. change (vsize (@nil (list D)) =? 0) with true. cbv iota zeta. rewrite vresize_nil, Hlen'.
    assert (vsize (replicate m (@nil D)) = Z.of_nat m) as Hszr by (unfold vsize; by rewrite length_replicate).
    rewrite Hszr, Hsz', Z.eqb_refl. cbn [ensure]. rewrite bind_Ret. rewrite <- Hszr.
    rewrite insert_columns_ok by (by rewrite length_replicate).
    eexists. split; [done|]. right. exists m, rows'. split_and!; [done..|].
    symmetry. pose proof (transpose_app m [] rows' (Forall_nil_2 _) (proj2 Htab')) as Ha. exact Ha.
  - pose proof (length_transpose n rows (proj2 Htab)) as Hlen.
    assert (vsize (transpose n rows) = Z.of_nat n) as Hsz by (unfold vsize; by rewrite Hlen).
    rewrite Hsz, Hsz', (proj2 (Z.eqb_neq _ 0)) by lia. cbv iota zeta. rewrite Hsz.
    destruct (Z.eqb_spec (Z.of_nat n) (Z.of_nat m)) as [Heq|Hneq]; cbn [ensure].
    + left. assert (m = n) as -> by lia. rewrite bind_Ret, <- Hsz, insert_columns_ok by lia.
      eexists. split; [done|]. right. exists n, (rows ++ rows').
      split_and!; [by destruct pre|done|by apply table_app_2|].
      by rewrite (transpose_app n rows rows' (proj2 Htab) (proj2 Htab')).
    + right. split; [by eexists|]. intros n' rows2 (r1 & r2 & _ & H1 & H2)%table_app.
      destruct (table_columns pre n rows n' r1 Hpne Htab H1) as [<- _].
      destruct (table_columns ls n r2 m rows' Hls H2 Htab') as [-> _]. lia.
Qed.

Lemma batches_ok bs : Forall (λ b, Lines b ≠ []) bs →
  (∃ result, mfold append_batch [] (TBatchParser_call TryFromString <$> bs) = Ret result ∧
     columns_after (concat (Lines <$> bs)) result) ∨
  is_throw (mfold append_batch [] (TBatchParser_call TryFromString <$> bs)) ∧
    (∀ n rows, ¬ table (concat (Lines <$> bs)) n rows).
Proof.
  intros Hne.
  assert (∀ pre post result, bs = pre ++ post → columns_after (concat (Lines <$> pre)) result →
    (∃ result', mfold append_batch result (TBatchParser_call TryFromString <$> post) = Ret result' ∧
       columns_after (concat (Lines <$> bs)) result') ∨
    is_throw (mfold append_batch result (TBatchParser_call TryFromString <$> post)) ∧
      (∀ n rows, ¬ table (concat (Lines <$> bs)) n rows)) as Hgen; [|apply (Hgen [] bs); [done|by left]].
  intros pre post. revert pre. induction post as [|b post IH]; intros pre result Hbs Hpre.
  { left. eexists. split; [done|]. by rewrite Hbs, app_nil_r. }
  assert (Lines b ≠ []) as Hb.
  { rewrite Hbs in Hne. apply Forall_app in Hne as [_ Hne]. by apply Forall_cons_1 in Hne as [? _]. }
  cbn [fmap list_fmap mfold].
  destruct (append_batch_ok (concat (Lines <$> pre)) (Lines b) result (TBatchParser_call TryFromString b)
    Hpre Hb (TBatchParser_call_ok b)) as [(result' & -> & Hr)|[Ht Hno]].
  - rewrite bind_Ret. apply (IH (pre ++ [b])); [by rewrite <- app_assoc|].
    rewrite fmap_app, concat_app. cbn. by rewrite app_nil_r.
  - right. split; [by apply is_throw_bind|]. intros n rows Htab.
    rewrite Hbs, fmap_app, concat_app in Htab. cbn in Htab. rewrite app_assoc in Htab.
    apply table_app in Htab as (r1 & r2 & _ & H1 & _). by eapply Hno.
Qed.

(** The columns after all lines are the pool of the lines. *)
Lemma columns_after_pool ls result : columns_after ls result → pool_of ls = Some result.
Proof.
  unfold pool_of. intros [[-> ->]|(n & rows & Hne & Hn & Htab & ->)]; [done|].
  pose proof (table_length _ _ _ Htab) as Hlen. destruct Htab as [-> Hr]. cbn.
  destruct rows as [|row rows]; [destruct ls; [done|cbn in Hlen; lia]|].
  pose proof Hr as [Hrow _]%Forall_cons_1. subst n. by rewrite decide_True.
Qed.

Lemma table_pool ls n rows : rows ≠ [] → table ls n rows → pool_of ls = Some (transpose n rows).
Proof.
  intros Hne [Hm Hr]. unfold pool_of. rewrite Hm. cbn. destruct rows as [|row rows]; [done|].
  pose proof Hr as [Hrow _]%Forall_cons_1. subst n. by rewrite decide_True.
Qed.

Lemma no_table_pool ls : (∀ n rows, ¬ table ls n rows) → pool_of ls = None.
Proof.
  intros Hno. unfold pool_of. destruct (mapM row_of ls) as [rows|] eqn:Hm; [|done]. cbn.
  destruct rows as [|row rows]; [by destruct (Hno 0%nat []); split|].
  rewrite decide_False; [done|]. intros Hr. by eapply (Hno _ (row :: rows)).
Qed.

Section Reading.
  Context {S : Type} `{!IInputStream S, !InputStreamOk S}.

Lemma read_batch_ok n st lines s : good s →
  ∃ s', read_batch n st lines s = Ret (lines ++ take n (lines_of (rest s)), s') ∧ good s' ∧
    lines_of (rest s') = drop n (lines_of (rest s)) ∧
    (length (rest s') ≤ length (rest s))%nat ∧
    ((0 < n)%nat → rest s ≠ [] → (length (rest s') < length (rest s))%nat).
Proof using Type.
  revert st lines s. induction n as [|n IH]; intros st lines s Hg; cbn [read_batch].
  { exists s. rewrite app_nil_r, drop_0. split_and!; try done; lia. }
  pose proof (ReadLine_ok st s Hg) as Hr. destruct (rest s) as [|c l] eqn:Hrest.
  - destruct Hr as (st' & s' & -> & Hg' & Hr'). rewrite bind_Ret. cbn. exists s'.
    rewrite Hr'. cbn. rewrite app_nil_r. split_and!; try done; lia.
  - destruct Hr as (m & s' & -> & Hm & Hg' & Hr'). rewrite bind_Ret. rewrite (proj2 (Z.eqb_neq m 0)) by lia.
    destruct (IH (strip_cr (cut_at 10 (c :: l)).1) (lines ++ [strip_cr (cut_at 10 (c :: l)).1]) s' Hg')
      as (s2 & -> & Hg2 & Hl2 & Hle & _).
    exists s2. rewrite (lines_of_cons (c :: l)) by done. cbn [take drop]. rewrite <- Hr'.
    rewrite <- app_assoc. pose proof (cut_at_rest 10 (c :: l)) as Hcut. rewrite <- Hr' in Hcut.
    cbn [length] in *. split_and!; try done; lia.
Qed.

Lemma read_batches_ok fuel n line_no s : good s → 0 < n → (length (rest s) < fuel)%nat →
  ∃ bs, read_batches fuel n line_no s = Ret bs ∧ Forall (λ b, Lines b ≠ []) bs ∧
    concat (Lines <$> bs) = lines_of (rest s).
Proof using Type.
  intros Hg Hn. revert s line_no Hg. induction fuel as [|fuel IH]; intros s line_no Hg Hf; [lia|].
  cbn [read_batches]. rewrite (proj2 (Z.leb_le 0 n)) by lia. cbn [ensure]. rewrite bind_Ret.
  destruct (read_batch_ok (Z.to_nat n) [] [] s Hg) as (s' & -> & Hg' & Hl & _ & Hlt).
  rewrite bind_Ret. cbn [fst snd app].
  destruct (rest s) as [|c l] eqn:Hrest.
  - cbn. rewrite take_nil. by exists [].
  - set (ls := take (Z.to_nat n) (lines_of (c :: l))) in *.
    assert (ls ≠ []) as Hne.
    { unfold ls. rewrite lines_of_cons by done. destruct (Z.to_nat n) eqn:E; [lia|done]. }
    rewrite (proj2 (Z.eqb_neq _ 0)) by (pose proof (vsize_pos ls Hne); lia).
    destruct (IH s' (line_no + vsize ls) Hg') as (bs & -> & Hall & Hc).
    { specialize (Hlt ltac:(lia) ltac:(done)). cbn [length] in *. lia. }
    rewrite bind_Ret. eexists. split; [done|]. split; [by constructor|].
    cbn. rewrite Hc, Hl. unfold ls. by rewrite take_drop.
Qed.

(** The pool a stream holds, whatever the size of the batches. *)
Lemma ReadPool_spec n s : good s → 0 < n →
  match pool_of (lines_of (rest s)) with
  | Some pool => ReadPool_batches TryFromString n s = Ret pool
  | None => is_throw (ReadPool_batches TryFromString n s)
  end.
Proof using Type.
  intros Hg Hn. unfold ReadPool_batches. pose proof (rest_size s Hg).
  destruct (read_batches_ok (Datatypes.S (stream_size s)) n 1 s Hg Hn ltac:(lia)) as (bs & -> & Hne & Hc).
  rewrite bind_Ret. destruct (batches_ok bs Hne) as [(result & -> & Hr)|[Ht Hno]]; rewrite Hc in *.
  - by rewrite (columns_after_pool _ _ Hr).
  - by rewrite (no_table_pool _ Hno).
Qed.

End Reading.
End PoolOk.

(** C7: [ReadPool] returns the columns of the text a stream holds, whatever the kind
    of the stream and the number of lines in a batch: column [j] has the [j]-th number
    of every line, in order.  It returns exactly when every token of every line is a
    number and all lines have as many; otherwise it throws. *)
Theorem ReadPool_correct {D S} `{!IInputStream S, !InputStreamOk S}
  (TryFromString : TString → option D) (n : Z) (s : S) (Hs : good s) (Hn : 0 < n) :
  (∀ pool, ReadPool_batches TryFromString n s = Ret pool →
     ∃ m rows, table TryFromString (lines_of (rest s)) m rows ∧
       (rows ≠ [] → length pool = m) ∧ (∀ col, col ∈ pool → length col = length rows) ∧
       ∀ i j, (j < length pool)%nat → pool !! j ≫= (.!! i) = rows !! i ≫= (.!! j)) ∧
  ((∃ m rows, table TryFromString (lines_of (rest s)) m rows) ↔
   ∃ pool, ReadPool_batches TryFromString n s = Ret pool) ∧
  ((∃ pool, ReadPool_batches TryFromString n s = Ret pool) ∨ is_throw (ReadPool_batches TryFromString n s)) ∧
  (∀ n' contents, 0 < n' → rest s = contents → ∀ pool,
     ReadPool_batches TryFromString n s = Ret pool ↔
     ReadPool_batches TryFromString n' (string_input contents) = Ret pool).
Proof.
  pose proof (ReadPool_spec TryFromString n s Hs Hn) as Hspec.
  assert (∀ pool, pool_of TryFromString (lines_of (rest s)) = Some pool →
    ∃ m rows, table TryFromString (lines_of (rest s)) m rows ∧
      (pool = [] ∧ rows = [] ∨ rows ≠ [] ∧ pool = transpose m rows)) as Hpool.
  { intros pool. unfold pool_of. destruct (mapM _ _) as [rows|] eqn:Hm; [|done]. cbn.
    destruct rows as [|row rows]; [intros [= <-]; exists 0%nat, []; by split; [split|left]|].
    case_decide as Hr; [|done]. intros [= <-]. exists (length row), (row :: rows). by split; [split|right]. }
  split_and!.
  - intros pool Hp. destruct (pool_of TryFromString (lines_of (rest s))) as [p|]; [|destruct Hspec; congruence].
    assert (p = pool) as -> by congruence.
    destruct (Hpool pool eq_refl) as (m & rows & Htab & [[-> ->]|[Hne ->]]).
    + exists m, []. split_and!; [done|done|set_solver|]. intros i j Hj. cbn in Hj. lia.
    + pose proof (length_transpose m rows (proj2 Htab)) as Hlen. exists m, rows. split_and!; [done|done| |].
      * intros col [j Hj]%list_elem_of_lookup. by apply (lookup_transpose m rows j col 0 (proj2 Htab) Hj).
      * intros i j Hj. destruct (lookup_lt_is_Some_2 _ _ Hj) as [col Hc]. rewrite Hc. cbn.
        by apply (lookup_transpose m rows j col i (proj2 Htab)).
  - destruct (pool_of TryFromString (lines_of (rest s))) as [p|] eqn:Hp.
    + split; intros _; [eauto|]. destruct (Hpool p eq_refl) as (m & rows & Htab & _). eauto.
    + split; [|intros [pool Hr]; destruct Hspec; congruence]. intros (m & rows & Hm & Hr).
      unfold pool_of in Hp. rewrite Hm in Hp. cbn in Hp. destruct rows as [|row rows]; [done|].
      pose proof Hr as [Hrow _]%Forall_cons_1. subst m. by rewrite decide_True in Hp.
  - destruct (pool_of TryFromString (lines_of (rest s))); [left|right]; eauto.
  - intros n' contents Hn' <- pool.
    pose proof (ReadPool_spec TryFromString n' (string_input (rest s)) (string_input_good _) Hn') as Hspec'.
    change (rest (string_input (rest s))) with (rest s) in Hspec'.
    destruct (pool_of TryFromString (lines_of (rest s))); [by rewrite Hspec, Hspec'|].
    destruct Hspec as [e ->], Hspec' as [e' ->]. done.
Qed.

(** A file of two lines read with short reads, in batches of one line; numbers are
    natural numbers. *)
Lemma ReadPool_correct_witness :
  let number t := int_value false 10 t in
  let contents := STRINGBUF "1	20" ++ [13; 10] ++ STRINGBUF "3	4" in
  good (open_file contents [1; 2; 3]) ∧ 0 < 1 ∧
  ReadPool_batches number 1 (open_file contents [1; 2; 3]) = Ret [[1; 3]; [20; 4]].
Proof.
  intros number contents. destruct (open_file_good contents [1; 2; 3]) as [Hg Hr].
  split_and!; [exact Hg|lia|].
  apply (ReadPool_correct number 1 (open_file contents [1; 2; 3]) Hg ltac:(lia)) with (n' := 5) (contents := contents);
    [lia|exact Hr|]. vm_compute. reflexivity.
Defined.

(** ** Correctness of [ReadBinToFeatureMap] *)

(** The feature and the bin of a line. *)
Definition map_line (line : TString) : outcome (Z * Z) :=
  f ← IntFromString t_ui64 10 (next_number line).1;
  b ← IntFromString t_ui64 10 (next_number (next_number line).2).1;
  Ret (f, b).

Lemma IntFromString_ui64 cs :
  (∃ v, IntFromString t_ui64 10 cs = Ret v ∧ 0 ≤ v < 2 ^ 64) ∨ is_throw (IntFromString t_ui64 10 cs).
Proof.
  pose proof (IntFromString_spec t_ui64 10 cs eq_refl ltac:(lia)) as Hs.
  destruct (int_value _ _ cs) as [v|]; [|by right].
  destruct (in_type t_ui64 v) eqn:Hin; [|right; by rewrite Hs; eexists].
  unfold in_type in Hin. cbn in Hin. apply andb_true_iff in Hin as [H1%Z.leb_le H2%Z.leb_le].
  rewrite (proj2 (Z.eqb_neq _ _)) in Hs by lia. left. exists v. split; [done|lia].
Qed.

Lemma map_line_cases line :
  (∃ p, map_line line = Ret p ∧ 0 ≤ p.1 < 2 ^ 64 ∧ 0 ≤ p.2 < 2 ^ 64) ∨ is_throw (map_line line).
Proof.
  unfold map_line. destruct (IntFromString_ui64 (next_number line).1) as [(f & -> & Hf)|H]; [|right; by apply is_throw_bind].
  rewrite bind_Ret. destruct (IntFromString_ui64 (next_number (next_number line).2).1) as [(b & -> & Hb)|H];
    [|right; by apply is_throw_bind]. rewrite bind_Ret. left. by exists (f, b).
Qed.

(** A line assigns its feature to its bin. *)
Definition assign_bin (max_elements : Z) (result : list Z) (p : Z * Z) : outcome (list Z) :=
  result ← (if vsize result <=? p.2 then
              _ ← ensure (u64 (p.2 + 1) <=? max_elements) (ELength (u64 (p.2 + 1)));
              Ret (vresize result (u64 (p.2 + 1)) uninitialized)
            else Ret result);
  v ← vat result p.2;
  _ ← ensure (v =? uninitialized) (EMapDuplicate p.2);
  vset result p.2 (to_int p.1).

Lemma read_map_line_spec max_elements result line :
  read_map_line max_elements result line = (p ← map_line line; assign_bin max_elements result p).
Proof.
  unfold read_map_line, map_line.
  destruct (In_number_ok (InputStreamOk0 := TStringInput_ok) t_ui64 (string_input line) (string_input_good line)) as (s1 & -> & Hg1 & Hr1).
  change (rest (string_input line)) with line in *.
  destruct (IntFromString t_ui64 10 (next_number line).1) as [f|]; [|done]. cbn [mbind outcome_bind fst snd].
  destruct (In_number_ok (InputStreamOk0 := TStringInput_ok) t_ui64 s1 Hg1) as (s2 & -> & _ & _). rewrite Hr1.
  by destruct (IntFromString t_ui64 10 (next_number (next_number line).2).1).
Qed.

Lemma read_map_loop_spec {S} `{!IInputStream S, !InputStreamOk S} max_elements fuel result line (s : S) :
  good s → (length (rest s) < fuel)%nat →
  read_map_loop max_elements fuel result line s = mfold (read_map_line max_elements) result (lines_of (rest s)).
Proof.
  revert result line s. induction fuel as [|fuel IH]; intros result line s Hg Hf; [lia|].
  cbn [read_map_loop]. pose proof (ReadLine_ok line s Hg) as Hr. destruct (rest s) as [|c l] eqn:Hrest.
  - destruct Hr as (st' & s' & -> & _). by rewrite bind_Ret.
  - destruct Hr as (m & s' & -> & Hm & Hg' & Hr'). rewrite bind_Ret, (proj2 (Z.eqb_neq m 0)) by lia.
    rewrite lines_of_cons by done. cbn [mfold].
    destruct (read_map_line _ _ _) as [result'|]; [|done]. cbn [mbind outcome_bind].
    rewrite <- Hr'. apply IH; [done|]. rewrite Hr'. pose proof (cut_at_rest 10 (c :: l)). cbn [length] in *. lia.
Qed.

(** The vector after some assignments. *)
Definition map_inv (ps : list (Z * Z)) (result : list Z) : Prop :=
  NoDup ps.*2 ∧ (∀ f b, (f, b) ∈ ps → 0 ≤ f ∧ 0 ≤ b ∧ result !! Z.to_nat b = Some f) ∧
  (∀ i v, result !! i = Some v → v = uninitialized ∧ Z.of_nat i ∉ ps.*2 ∨ (v, Z.of_nat i) ∈ ps) ∧
  (result = [] ∨ vsize result - 1 ∈ ps.*2).

Lemma vresize_grow {A} (l : list A) n x : vsize l ≤ n → vresize l n x = l ++ replicate (Z.to_nat (n - vsize l)) x.
Proof.
  intros H. unfold vresize, vsize in *. rewrite take_ge by lia. do 2 f_equal. lia.
Qed.

(** The vector after making room for a bin: the new elements are uninitialized. *)
Lemma map_inv_grow ps result n : map_inv ps result → vsize result ≤ n →
  let r := vresize result n uninitialized in
  vsize r = n ∧ (∀ f b, (f, b) ∈ ps → 0 ≤ f ∧ 0 ≤ b ∧ r !! Z.to_nat b = Some f) ∧
  (∀ i v, r !! i = Some v → v = uninitialized ∧ Z.of_nat i ∉ ps.*2 ∨ (v, Z.of_nat i) ∈ ps).
Proof.
  intros (Hnd & Hin & Hlook & _) Hn r. pose proof (vsize_nonneg result).
  split; [apply vsize_vresize; lia|]. unfold r. rewrite vresize_grow by done. split.
  - intros f b Hfb. destruct (Hin f b Hfb) as (Hf & Hb & Hl). split_and!; [done|done|]. by apply lookup_app_l_Some.
  - intros i v [Hl|[Hle Hl]]%lookup_app_Some; [by apply Hlook|].
    apply lookup_replicate in Hl as [-> _]. left. split; [done|].
    intros (p & Hp & Hfb)%list_elem_of_fmap. destruct p as [f b]. cbn in Hp. subst b.
    destruct (Hin f (Z.of_nat i) Hfb) as (_ & _ & Hl'). apply lookup_lt_Some in Hl'. lia.
Qed.

Lemma assign_bin_ok max_elements ps result f b :
  map_inv ps result → 0 ≤ f < 2 ^ 31 → 0 ≤ b < max_elements → max_elements < 2 ^ 64 →
  (b ∉ ps.*2 → ∃ result', assign_bin max_elements result (f, b) = Ret result' ∧ map_inv (ps ++ [(f, b)]) result') ∧
  (b ∈ ps.*2 → assign_bin max_elements result (f, b) = Fail (Throw (EMapDuplicate b))).
Proof.
  intros Hinv Hf Hb Hmax. unfold assign_bin. cbn [fst snd]. rewrite (u64_small (b + 1)) by lia.
  set (r := if vsize result <=? b then vresize result (b + 1) uninitialized else result).
  assert ((if vsize result <=? b then
      _ ← ensure (b + 1 <=? max_elements) (ELength (b + 1)); Ret (vresize result (b + 1) uninitialized)
    else Ret result) = Ret r) as ->.
  { unfold r. destruct (vsize result <=? b); [|done]. by rewrite (proj2 (ensure_Ret _ _)) by (apply Z.leb_le; lia). }
  assert (b < vsize r ∧ (∀ f b, (f, b) ∈ ps → 0 ≤ f ∧ 0 ≤ b ∧ r !! Z.to_nat b = Some f) ∧
    (∀ i v, r !! i = Some v → v = uninitialized ∧ Z.of_nat i ∉ ps.*2 ∨ (v, Z.of_nat i) ∈ ps) ∧
    (vsize r - 1 = b ∨ vsize r - 1 ∈ ps.*2)) as (Hbr & Hin & Hlook & Hlast).
  { unfold r. destruct (Z.leb_spec (vsize result) b).
    - destruct (map_inv_grow ps result (b + 1) Hinv ltac:(lia)) as (Hsz & Hin & Hlook).
      split_and!; [lia|done|done|left; lia].
    - destruct Hinv as (_ & Hin & Hlook & Hlast). split_and!; [lia|done|done|].
      destruct Hlast as [->|]; [|by right]. rewrite vsize_nil in *. lia. }
  rewrite bind_Ret. destruct (vat_in_range r b ltac:(lia)) as (v & Hv & Hl). rewrite Hv, bind_Ret.
  split; intros Hnew.
  - assert (v = uninitialized) as ->.
    { destruct (Hlook _ _ Hl) as [[-> _]|Hp]; [done|]. exfalso. apply Hnew. rewrite Z2Nat.id in Hp by lia.
      apply list_elem_of_fmap. by exists (v, b). }
    rewrite Z.eqb_refl. cbn [ensure]. rewrite bind_Ret.
    assert (to_int f = f) as ->.
    { unfold to_int, u32. rewrite Z.mod_small by lia. destruct (Z.ltb_spec f (2 ^ 31)); lia. }
    rewrite (proj2 (vset_Ret r b f (<[Z.to_nat b := f]> r))) by (split; [lia|done]).
    eexists. split; [done|]. destruct Hinv as (Hnd & _). unfold map_inv. rewrite fmap_app. cbn.
    apply lookup_lt_Some in Hl. split_and!.
    + apply NoDup_app. split_and!; [done|set_solver|apply NoDup_singleton].
    + intros f' b' [Hp|[= -> ->]%list_elem_of_singleton]%elem_of_app.
      * destruct (Hin f' b' Hp) as (Hf' & Hb' & Hl'). split_and!; [done|done|].
        rewrite list_lookup_insert_ne; [done|]. intros Heq. apply Hnew. replace b with b' by lia.
        apply list_elem_of_fmap. by exists (f', b').
      * split_and!; [lia|lia|]. by rewrite list_lookup_insert_eq.
    + intros i w. destruct (decide (i = Z.to_nat b)) as [->|Hne].
      * rewrite list_lookup_insert_eq by done. intros [= <-]. right. rewrite Z2Nat.id by lia. set_solver.
      * rewrite list_lookup_insert_ne by done. intros Hw. destruct (Hlook _ _ Hw) as [[-> Hnot]|Hp]; [left|right; set_solver].
        split; [done|]. rewrite elem_of_app, list_elem_of_singleton. intros [?|?]; [done|lia].
    + right. rewrite vsize_insert. destruct Hlast as [->|]; set_solver.
  - apply list_elem_of_fmap in Hnew as ([f' b'] & Hb' & Hp). cbn in Hb'. subst b'.
    destruct (Hin f' b Hp) as (Hf' & _ & Hl'). rewrite Hl in Hl'. injection Hl' as ->.
    by rewrite (proj2 (Z.eqb_neq f' uninitialized)) by (unfold uninitialized; lia).
Qed.

(** The lines give pairs, no bin twice. *)
Definition good_map (ls : list TString) (ps : list (Z * Z)) : Prop :=
  mmap map_line ls = Ret ps ∧ NoDup ps.*2.

Lemma good_map_app ls ls' ps : good_map (ls ++ ls') ps →
  ∃ ps1 ps2, ps = ps1 ++ ps2 ∧ good_map ls ps1 ∧ mmap map_line ls' = Ret ps2.
Proof.
  intros [Hm%mmap_Forall2 Hnd]. apply Forall2_app_inv_l in Hm as (p1 & p2 & H1 & H2 & ->).
  rewrite fmap_app in Hnd. apply NoDup_app in Hnd as (Hnd & _). exists p1, p2. split; [done|].
  split; [split; [by apply mmap_Forall2|done]|by apply mmap_Forall2].
Qed.

Lemma read_map_lines_ok max_elements ls :
  max_elements < 2 ^ 64 →
  (∀ line p, line ∈ ls → map_line line = Ret p → p.1 < 2 ^ 31 ∧ p.2 < max_elements) →
  (∃ result, mfold (read_map_line max_elements) [] ls = Ret result ∧
     ∃ ps, mmap map_line ls = Ret ps ∧ map_inv ps result) ∨
  is_throw (mfold (read_map_line max_elements) [] ls) ∧ (∀ ps, ¬ good_map ls ps).
Proof.
  intros Hmax Hbound.
  apply (mfold_or_throw (λ pre result, ∃ ps, mmap map_line pre = Ret ps ∧ map_inv ps result)).
  { exists []. split; [done|]. split_and!; [constructor|set_solver|done|by left]. }
  intros pre line post result Hls (ps & Hm & Hinv). rewrite read_map_line_spec.
  assert (∀ x, map_line line = Ret x → mmap map_line (pre ++ [line]) = Ret (ps ++ [x])) as Hsnoc.
  { intros x Hx. apply mmap_Forall2. apply Forall2_app; [by apply mmap_Forall2|]. by constructor. }
  destruct (map_line_cases line) as [([f b] & Hp & Hf & Hb)|Ht].
  2: { right. split; [by apply is_throw_bind|]. intros ps' Hps'. subst ls.
       apply good_map_app in Hps' as (p1 & p2 & _ & _ & H2). cbn in H2. destruct Ht as [e He]. by rewrite He in H2. }
  destruct (Hbound line (f, b)) as [Hf' Hb']; [subst ls; set_solver|done|]. cbn in *.
  rewrite Hp, bind_Ret.
  destruct (assign_bin_ok max_elements ps result f b Hinv ltac:(lia) ltac:(lia) Hmax) as [Hnew Hdup].
  destruct (decide (b ∈ ps.*2)) as [Hin|Hin].
  - right. rewrite Hdup by done. split; [by eexists|]. intros ps' Hps'. subst ls.
    change (line :: post) with ([line] ++ post) in Hps'. rewrite app_assoc in Hps'.
    apply good_map_app in Hps' as (p1 & p2 & _ & [Hm1 Hnd] & _). rewrite (Hsnoc _ Hp) in Hm1.
    injection Hm1 as <-. rewrite fmap_app in Hnd. apply NoDup_app in Hnd as (_ & Hnd & _).
    apply (Hnd b Hin). cbn. set_solver.
  - left. destruct (Hnew Hin) as (result' & -> & Hinv'). eexists. split; [done|]. eauto.
Qed.

(** The vector is complete exactly when the bins are all numbers below their count. *)
Lemma map_inv_complete ps result : map_inv ps result →
  uninitialized ∉ result → length result = length ps.
Proof.
  intros (Hnd & Hin & Hlook & _) Hun.
  assert (ps.*2 ≡ₚ seqZ 0 (vsize result)) as Hperm.
  { apply NoDup_Permutation; [done|apply NoDup_seqZ|]. intros b. rewrite elem_of_seqZ. split.
    - intros (p & -> & Hp)%list_elem_of_fmap. destruct p as [f b']. destruct (Hin f b' Hp) as (_ & Hb & Hl).
      apply lookup_lt_Some in Hl. unfold vsize. cbn. lia.
    - intros Hb. destruct (lookup_lt_is_Some_2 result (Z.to_nat b)) as [v Hv]; [unfold vsize in Hb; lia|].
      destruct (Hlook _ _ Hv) as [[-> _]|Hp]; [destruct Hun; by eapply list_elem_of_lookup_2|].
      rewrite Z2Nat.id in Hp by lia. apply list_elem_of_fmap. by exists (v, b). }
  apply Permutation_length in Hperm. rewrite length_fmap, length_seqZ in Hperm. unfold vsize in Hperm. lia.
Qed.

Lemma map_inv_total ps result : map_inv ps result → (∀ b, b ∈ ps.*2 → b < vsize ps) →
  uninitialized ∉ result.
Proof.
  intros (Hnd & Hin & Hlook & Hlast) Hb [i Hi]%list_elem_of_lookup.
  destruct (Hlook _ _ Hi) as [[_ Hnot]|Hp]; [|destruct (Hin _ _ Hp) as [? _]; unfold uninitialized in *; lia].
  destruct Hlast as [->|Hlast]; [done|]. apply Hb in Hlast. apply lookup_lt_Some in Hi.
  assert (ps.*2 ⊆+ seqZ 0 (vsize ps)) as Hsub.
  { apply NoDup_submseteq; [done|]. intros b Hbp. apply elem_of_seqZ. split; [|by apply Hb].
    apply list_elem_of_fmap in Hbp as ([f b'] & -> & Hp). by apply Hin in Hp as (_ & ? & _). }
  apply submseteq_length_Permutation in Hsub; [|rewrite length_fmap, length_seqZ; unfold vsize; lia].
  apply Hnot. rewrite Hsub, elem_of_seqZ. unfold vsize in *. lia.
Qed.

Lemma ReadBinToFeatureMap_spec {S} `{!IInputStream S, !InputStreamOk S} (max_elements : Z) (s : S)
  (Hs : good s) (Hmax : max_elements < 2 ^ 64)
  (Hbound : ∀ line p, line ∈ lines_of (rest s) → map_line line = Ret p → p.1 < 2 ^ 31 ∧ p.2 < max_elements) :
  (∀ m, ReadBinToFeatureMap max_elements s = Ret m ↔
     ∃ ps, mmap map_line (lines_of (rest s)) = Ret ps ∧ NoDup ps.*2 ∧ length m = length ps ∧
       ∀ f b, (f, b) ∈ ps → 0 ≤ b ∧ m !! Z.to_nat b = Some f) ∧
  ((∃ m, ReadBinToFeatureMap max_elements s = Ret m) ∨ is_throw (ReadBinToFeatureMap max_elements s)).
Proof.
  unfold ReadBinToFeatureMap. pose proof (rest_size s Hs).
  rewrite (read_map_loop_spec max_elements _ [] [] s Hs) by lia.
  destruct (read_map_lines_ok max_elements (lines_of (rest s)) Hmax Hbound)
    as [(result & -> & ps & Hps & Hinv)|[[e ->] Hno]].
  2: { cbn. split; [|right; by eexists]. intros m. split; [done|]. intros (ps & Hm & Hnd & _). by destruct (Hno ps). }
  rewrite bind_Ret. cbv zeta. pose proof (Find_end result uninitialized) as Hfind.
  split; [|destruct (Z.eqb_spec (Find result uninitialized) (vsize result)); [left|right]; by eexists].
  intros m. destruct (Z.eqb_spec (Find result uninitialized) (vsize result)) as [Heq|Hneq].
  - apply Hfind in Heq. pose proof (map_inv_complete ps result Hinv Heq) as Hlen.
    destruct Hinv as (Hnd & Hin & Hlook & _). split.
    + intros [= <-]. exists ps. split_and!; try done; intros f b Hp; by apply Hin in Hp as (_ & ? & ?).
    + intros (ps' & Hps' & _ & Hlm & Hm). assert (ps' = ps) as -> by congruence. f_equal.
      apply list_eq. intros i. destruct (result !! i) as [v|] eqn:Hv.
      * destruct (Hlook _ _ Hv) as [[-> _]|Hp]; [destruct Heq; by eapply list_elem_of_lookup_2|].
        apply Hm in Hp as [_ Hp]. by rewrite Nat2Z.id in Hp.
      * apply lookup_ge_None in Hv. symmetry. apply lookup_ge_None. lia.
  - split; [done|]. intros (ps' & Hps' & _ & Hlm & Hm). assert (ps' = ps) as -> by congruence.
    destruct Hneq. apply Hfind. apply (map_inv_total ps); [done|].
    intros b ([f b'] & -> & Hp)%list_elem_of_fmap. apply Hm in Hp as [Hb Hl]. apply lookup_lt_Some in Hl.
    cbn. unfold vsize. lia.
Qed.

(** C23: [ReadBinToFeatureMap] returns exactly when every line has a feature and a bin,
    no bin occurs twice and the bins are the numbers below their count, in any
    order; the result then has the feature of every bin.  Otherwise it throws.  The
    features are [int]s and the bins are below the number of elements that can be
    allocated. *)
Theorem ReadBinToFeatureMap_correct {S} `{!IInputStream S, !InputStreamOk S} (max_elements : Z) (s : S)
  (Hs : good s) (Hmax : max_elements < 2 ^ 64)
  (Hbound : ∀ line p, line ∈ lines_of (rest s) → map_line line = Ret p → p.1 < 2 ^ 31 ∧ p.2 < max_elements) :
  (∀ m, ReadBinToFeatureMap max_elements s = Ret m ↔
     ∃ ps, mmap map_line (lines_of (rest s)) = Ret ps ∧ NoDup ps.*2 ∧ length m = length ps ∧
       ∀ f b, (f, b) ∈ ps → 0 ≤ b ∧ m !! Z.to_nat b = Some f) ∧
  ((∃ m, ReadBinToFeatureMap max_elements s = Ret m) ∨ is_throw (ReadBinToFeatureMap max_elements s)).
Proof. by apply ReadBinToFeatureMap_spec. Qed.

Lemma ReadBinToFeatureMap_correct_witness :
  let contents := STRINGBUF "1	1" ++ [10] ++ STRINGBUF "0 0" ++ [10; 32] ++ STRINGBUF "1  2" in
  good (string_input contents) ∧ 100 < 2 ^ 64 ∧ ReadBinToFeatureMap 100 (string_input contents) = Ret [0; 1; 1].
Proof.
  intros contents. split_and!; [apply string_input_good|lia|].
  apply (ReadBinToFeatureMap_correct (InputStreamOk0 := TStringInput_ok) 100 (string_input contents) (string_input_good contents) ltac:(lia)).
  - change (rest (string_input contents)) with contents. intros line p Hl Hp.
    assert (∃ q, map_line line = Ret q ∧ q.1 < 2 ^ 31 ∧ q.2 < 100) as (q & Hq & Hb).
    { vm_compute in Hl. repeat (apply elem_of_cons in Hl as [->|Hl]; [eexists; split; [vm_compute; reflexivity|cbn; lia]|]).
      by apply not_elem_of_nil in Hl. }
    congruence.
  - exists [(1, 1); (0, 0); (1, 2)]. split_and!; [vm_compute; reflexivity| |reflexivity|].
    + cbn. repeat constructor; set_solver.
    + intros f b Hp. repeat (apply elem_of_cons in Hp as [[= -> ->]|Hp]; [split; [lia|reflexivity]|]).
      by apply not_elem_of_nil in Hp.
Defined.

(** The bin index is not checked before it is incremented: for the largest [ui64] the
    vector is resized to nothing and then written outside. *)
Lemma ReadBinToFeatureMap_wraps max_elements : 0 ≤ max_elements →
  ReadBinToFeatureMap max_elements (string_input (STRINGBUF "0 18446744073709551615")) =
    Fail (Undef (UIndex (2 ^ 64 - 1) 0)).
Proof.
  intros Hm. unfold ReadBinToFeatureMap.
  rewrite (read_map_loop_spec (InputStreamOk0 := TStringInput_ok)); [|apply string_input_good|vm_compute; lia].
  change (rest (string_input ?c)) with c.
  assert (lines_of (STRINGBUF "0 18446744073709551615") = [STRINGBUF "0 18446744073709551615"]) as -> by (vm_compute; reflexivity).
  cbn [mfold]. rewrite read_map_line_spec.
  assert (map_line (STRINGBUF "0 18446744073709551615") = Ret (0, 2 ^ 64 - 1)) as -> by (vm_compute; reflexivity).
  rewrite bind_Ret. unfold assign_bin. cbn [fst snd].
  assert (u64 (2 ^ 64 - 1 + 1) = 0) as -> by reflexivity.
  rewrite (proj2 (Z.leb_le 0 max_elements)) by done. reflexivity.
Qed.

(** A feature index is converted to [int] unchecked: [2^32 - 1] reads as the mark of
    a missing bin, and [2^32] as feature 0. *)
Example ReadBinToFeatureMap_truncates :
  ReadBinToFeatureMap 100 (string_input (STRINGBUF "4294967295 0")) = Fail (Throw (EMapMissing 0)) ∧
  ReadBinToFeatureMap 100 (string_input (STRINGBUF "4294967296 0")) = Ret [0].
Proof. split; vm_compute; reflexivity. Qed.
