(* ===== verification/HashTable.v ===== *)
(** * The hash table: [util/generic/hash.h], [util/generic/hash_primes.cpp]

    [yhashtable] is the chained hash table under [yhash] and [yhash_set].  The
    program iterates over these containers, so the order of the buckets and of
    the chains decides the order of the bins of a feature and the order of the
    terms of an entropy: the model keeps both.

    A chain of nodes linked by [next] is the list of its values, head first; the
    tagged pointer that ends a chain is the end of the list.  The bucket array
    is a list of chains.  An empty default-constructed table has the single
    static bucket of [_yhashtable_empty_data]. *)
From S2P Require Import Prelude Arith XRange Algorithm.

(** ** Bucket counts *)

(** [_y_prime_list] *)
Definition y_prime_list : list Z :=
  [7; 17; 29; 53; 97; 193; 389; 769; 1543; 3079; 6151; 12289; 24593; 49157; 98317;
   196613; 393241; 786433; 1572869; 3145739; 6291469; 12582917; 25165843; 50331653;
   100663319; 201326611; 402653189; 805306457; 1610612741; 3221225473; 4294967291].

(** [_y_last_prime] points at the last prime, so the search runs over the
    others and returns the last one when none of them is large enough. *)
Definition HashBucketCount (element_count : Z) : outcome Z :=
  if element_count <=? 7 then Ret 7
  else
    i ← LowerBound_in Z.ltb y_prime_list 0 (vsize y_prime_list - 1) element_count;
    vat y_prime_list i.

Section Table.
  Context {V K : Type}.
  Variable get_key : V → K.
  (** [HashFcn] (a [size_t]) and [EqualKey]. *)
  Variable hash : K → Z.
  Variable equals : K → K → bool.

Record yhashtable : Type := {
  buckets : list (list V);
  num_elements : Z;
}.

Definition bucket_count (h : yhashtable) : Z := vsize (buckets h).
Definition size (h : yhashtable) : Z := num_elements h.
Definition empty (h : yhashtable) : bool := size h =? 0.

(** [initialize_buckets(buckets, sizeHint)] on a new table. *)
Definition initialize_buckets (size_hint : Z) : outcome yhashtable :=
  if size_hint =? 0 then Ret {| buckets := [[]]; num_elements := 0 |}
  else
    n ← HashBucketCount size_hint;
    Ret {| buckets := replicate (Z.to_nat n) []; num_elements := 0 |}.

(** [bkt_num_key(key, n)] and [bkt_num(obj, n)]. *)
Definition bkt_num_key (key : K) (n : Z) : Z := hash key mod n.
Definition bkt_num (obj : V) (n : Z) : Z := bkt_num_key (get_key obj) n.

(** The chain of a bucket, and the table with this chain replaced.  The index is
    a remainder by the number of buckets. *)
Definition chain (h : yhashtable) (n : Z) : list V := buckets h !!! Z.to_nat n.
Definition set_chain (h : yhashtable) (n : Z) (c : list V) (elements : Z) : yhashtable :=
  {| buckets := <[Z.to_nat n := c]> (buckets h); num_elements := elements |}.

(** The body of the copy loop of [reserve]: push a node on the chain of its new
    bucket. *)
Definition move_node (n : Z) (tmp : list (list V)) (node : V) : list (list V) :=
  <[Z.to_nat (bkt_num node n) := node :: tmp !!! Z.to_nat (bkt_num node n)]> tmp.

(** [reserve(num_elements_hint)]: the table, and whether it was rebuilt. *)
Definition reserve (h : yhashtable) (hint : Z) : outcome (yhashtable * bool) :=
  let old_n := bucket_count h in
  if old_n <? hint + 1 then
    if negb (old_n =? 1) && (hint <=? old_n) then Ret (h, false)
    else
      n ← HashBucketCount (hint + 1);
      if old_n <? n then
        Ret ({| buckets := foldl (foldl (move_node n)) (replicate (Z.to_nat n) []) (buckets h);
                num_elements := num_elements h |}, true)
      else Ret (h, false)
  else Ret (h, false).

(** Whether a node of the chain has the key. *)
Definition chain_has (c : list V) (key : K) : bool :=
  existsb (λ v, equals (get_key v) key) c.

(** [insert_unique_noresize(obj)] and [emplace_unique_noresize]. *)
Definition insert_unique_noresize (h : yhashtable) (obj : V) : yhashtable * bool :=
  let n := bkt_num obj (bucket_count h) in
  let first := chain h n in
  if chain_has first (get_key obj) then (h, false)
  else (set_chain h n (obj :: first) (num_elements h + 1), true).

(** [insert_unique(obj)] and [emplace_unique]. *)
Definition insert_unique (h : yhashtable) (obj : V) : outcome (yhashtable * bool) :=
  '(h, _) ← reserve h (num_elements h + 1);
  Ret (insert_unique_noresize h obj).

(** The chain after [emplace_equal_noresize]: the new node follows the first
    node with an equal key. *)
Fixpoint chain_insert_after (c : list V) (obj : V) : option (list V) :=
  match c with
  | [] => None
  | v :: c =>
      if equals (get_key v) (get_key obj) then Some (v :: obj :: c)
      else cons v <$> chain_insert_after c obj
  end.

(** [emplace_equal_noresize(obj)] *)
Definition emplace_equal_noresize (h : yhashtable) (obj : V) : yhashtable :=
  let n := bkt_num obj (bucket_count h) in
  let first := chain h n in
  set_chain h n (default (obj :: first) (chain_insert_after first obj)) (num_elements h + 1).

(** [insert_equal(obj)] and [emplace_equal]. *)
Definition insert_equal (h : yhashtable) (obj : V) : outcome yhashtable :=
  '(h, _) ← reserve h (num_elements h + 1);
  Ret (emplace_equal_noresize h obj).

(** [insert_unique(f, l)] for forward iterators: one [reserve] for the whole
    range. *)
Definition insert_unique_range (h : yhashtable) (l : list V) : outcome yhashtable :=
  '(h, _) ← reserve h (num_elements h + vsize l);
  Ret (foldl (λ h v, (insert_unique_noresize h v).1) h l).

(** [emplace_direct(ins, args)]: [ins] points at the bucket of the key in the
    table before a possible rebuild, and is recomputed after one. *)
Definition emplace_direct (h : yhashtable) (obj : V) : outcome yhashtable :=
  '(h, _) ← reserve h (num_elements h + 1);
  let n := bkt_num obj (bucket_count h) in
  Ret (set_chain h n (obj :: chain h n) (num_elements h + 1)).

(** [find(key)], [find_i(key, ins)]: the first node with the key. *)
Definition find (h : yhashtable) (key : K) : option V :=
  List.find (λ v, equals (get_key v) key) (chain h (bkt_num_key key (bucket_count h))).

(** [find_or_insert(v)]: the table and the value found or inserted. *)
Definition find_or_insert (h : yhashtable) (v : V) : outcome (yhashtable * V) :=
  '(h, _) ← reserve h (num_elements h + 1);
  let n := bkt_num_key (get_key v) (bucket_count h) in
  let first := chain h n in
  match List.find (λ w, equals (get_key w) (get_key v)) first with
  | Some w => Ret (h, w)
  | None => Ret (set_chain h n (v :: first) (num_elements h + 1), v)
  end.

(** [count(key)] *)
Definition count (h : yhashtable) (key : K) : Z :=
  vsize (filter (λ v, equals (get_key v) key = true)
    (chain h (bkt_num_key key (bucket_count h)))).

(** [bucket_size(n)] *)
Definition bucket_size (h : yhashtable) (n : Z) : Z := vsize (chain h n).

(** [erase(key)]: unlink every node of the key's bucket that has the key. *)
Definition erase (h : yhashtable) (key : K) : yhashtable * Z :=
  let n := bkt_num_key key (bucket_count h) in
  let kept := filter (λ v, equals (get_key v) key = false) (chain h n) in
  let erased := vsize (chain h n) - vsize kept in
  (set_chain h n kept (num_elements h - erased), erased).

(** The scan of [erase_one] over the nodes after the first one. *)
Fixpoint unlink_first (key : K) (c : list V) : option (list V) :=
  match c with
  | [] => None
  | v :: c => if equals (get_key v) key then Some c else cons v <$> unlink_first key c
  end.

(** [erase_one(key)]: the head of the chain is examined last. *)
Definition erase_one (h : yhashtable) (key : K) : yhashtable * Z :=
  let n := bkt_num_key key (bucket_count h) in
  match chain h n with
  | [] => (h, 0)
  | first :: rest =>
      match unlink_first key rest with
      | Some rest' => (set_chain h n (first :: rest') (num_elements h - 1), 1)
      | None =>
          if equals (get_key first) key
          then (set_chain h n rest (num_elements h - 1), 1)
          else (h, 0)
      end
  end.

(** [basic_clear()], and [release_nodes()], which differs in not deallocating. *)
Definition basic_clear (h : yhashtable) : yhashtable :=
  if num_elements h =? 0 then h
  else {| buckets := replicate (length (buckets h)) []; num_elements := 0 |}.

(** [clear(downsize)] *)
Definition clear_downsize (h : yhashtable) (downsize : Z) : outcome yhashtable :=
  let h := basic_clear h in
  if downsize <? bucket_count h then
    n ← HashBucketCount downsize;
    if n <? bucket_count h
    then Ret {| buckets := take (Z.to_nat n) (buckets h); num_elements := num_elements h |}
    else Ret h
  else Ret h.

(** [clear()] *)
Definition clear (h : yhashtable) : outcome yhashtable :=
  if negb (num_elements h =? 0)
  then clear_downsize h ((num_elements h * 2 + bucket_count h) / 3)
  else Ret h.

(** The copy constructor: [copy_from_dynamic] copies every chain in order. *)
Definition copy (h : yhashtable) : yhashtable :=
  if empty h then {| buckets := [[]]; num_elements := 0 |}
  else {| buckets := buckets h; num_elements := num_elements h |}.

(** The values from [begin()] to [end()]: [operator++] follows a chain, then
    moves to the next bucket that is not empty. *)
Definition elements (h : yhashtable) : list V := concat (buckets h).

End Table.

Arguments yhashtable : clear implicits.
Arguments buckets {V} _.
Arguments num_elements {V} _.

(** ** Bucket counts *)

Lemma y_prime_list_sorted : StronglySorted Z.le y_prime_list.
Proof. repeat constructor; lia. Qed.

(** The search of [HashBucketCount], for arguments above the first prime. *)
Lemma HashBucketCount_search n : 7 < n →
  ∃ i p, HashBucketCount n = Ret p ∧ 0 ≤ i ≤ 30 ∧ y_prime_list !! Z.to_nat i = Some p ∧
    ∀ j q, 0 ≤ j < 30 → y_prime_list !! Z.to_nat j = Some q → (q <? n) = (j <? i).
Proof.
  intros Hn. unfold HashBucketCount. destruct (Z.leb_spec n 7); [lia|].
  destruct (LowerBound_in_sorted y_prime_list 0 30 n) as (i & Hi & Hr & Hs);
    [apply y_prime_list_sorted|lia|done|]. cbv beta in Hr.
  change (vsize y_prime_list - 1) with 30. rewrite Hi. cbn.
  destruct (vat_in_range y_prime_list i) as (p & -> & Hp); [change (vsize y_prime_list) with 31; lia|].
  exists i, p. by split_and!; [|lia|lia| |].
Qed.

Lemma HashBucketCount_least (n : Z) (Hn : n ≤ 4294967291) :
  ∃ p, HashBucketCount n = Ret p ∧ p ∈ y_prime_list ∧ n ≤ p ∧
    ∀ q, q ∈ y_prime_list → n ≤ q → p ≤ q.
Proof.
  destruct (Z.le_gt_cases n 7) as [H7|H7].
  - exists 7. unfold HashBucketCount. rewrite (proj2 (Z.leb_le n 7)) by done.
    split_and!; [done|set_solver|lia|]. intros q Hq _. revert q Hq.
    apply Forall_forall. repeat constructor; lia.
  - destruct (HashBucketCount_search n H7) as (i & p & -> & Hi & Hp & Hs).
    exists p. split_and!; [done|by eapply list_elem_of_lookup_2| |].
    + destruct (Z.eq_dec i 30) as [->|Hne]; [vm_compute in Hp; injection Hp as <-; lia|].
      specialize (Hs i p ltac:(lia) Hp). lia.
    + intros q [j Hj]%list_elem_of_lookup_1 Hnq.
      assert (j < 31)%nat by (by apply lookup_lt_Some in Hj).
      eapply (sorted_lookup y_prime_list (Z.to_nat i) j); [apply y_prime_list_sorted| |done|done].
      destruct (decide (j = 30%nat)); [lia|].
      specialize (Hs (Z.of_nat j) q ltac:(lia)). rewrite Nat2Z.id in Hs.
      specialize (Hs Hj). lia.
Qed.

(** Below the last prime of the table, [HashBucketCount(n)] is a prime of
    the table not below [n], and the least one. *)
Theorem HashBucketCount_correct (n : Z) (Hn : n ≤ 4294967291) :
  ∃ p, HashBucketCount n = Ret p ∧ p ∈ y_prime_list ∧ n ≤ p ∧
    ∀ q, q ∈ y_prime_list → n ≤ q → p ≤ q.
Proof. by apply HashBucketCount_least. Qed.

Example HashBucketCount_correct_witness :
  HashBucketCount 100 = Ret 193 ∧
  ∃ p, HashBucketCount 100 = Ret p ∧ p ∈ y_prime_list ∧ 100 ≤ p ∧
    ∀ q, q ∈ y_prime_list → 100 ≤ q → p ≤ q.
Proof. split; [reflexivity|]. apply (HashBucketCount_correct 100). lia. Defined.

Lemma y_prime_list_ge_7 i p : y_prime_list !! i = Some p → 7 ≤ p.
Proof.
  intros Hp%list_elem_of_lookup_2. revert p Hp. apply Forall_forall. repeat constructor; lia.
Qed.

Lemma HashBucketCount_total n : ∃ p, HashBucketCount n = Ret p ∧ 7 ≤ p.
Proof.
  destruct (Z.le_gt_cases n 7) as [H7|H7].
  - exists 7. unfold HashBucketCount. by rewrite (proj2 (Z.leb_le n 7)).
  - destruct (HashBucketCount_search n H7) as (i & p & -> & _ & Hp & _).
    eauto using y_prime_list_ge_7.
Qed.

(** Above the last prime the result is the last prime, below the argument. *)
Lemma HashBucketCount_above (n : Z) : 4294967291 < n → HashBucketCount n = Ret 4294967291.
Proof.
  intros Hn. destruct (HashBucketCount_search n ltac:(lia)) as (i & p & -> & Hi & Hp & Hs).
  destruct (Z.eq_dec i 30) as [->|Hne]; [vm_compute in Hp; by injection Hp as <-|].
  specialize (Hs i p ltac:(lia) Hp). rewrite Z.ltb_irrefl in Hs.
  assert (p ≤ 4294967291); [|lia].
  by eapply (sorted_lookup y_prime_list (Z.to_nat i) 30); [apply y_prime_list_sorted|lia|done|].
Qed.

Lemma HashBucketCount_room n :
  ∃ p, HashBucketCount n = Ret p ∧ (n ≤ 4294967291 → n ≤ p).
Proof.
  destruct (Z.le_gt_cases n 4294967291) as [Hn|Hn].
  - destruct (HashBucketCount_least n Hn) as (p & ? & _ & ? & _). eauto.
  - rewrite HashBucketCount_above by done. eexists. split; [done|lia].
Qed.

Lemma concat_replicate_nil {A} n : concat (replicate n (@nil A)) = [].
Proof. induction n; cbn; done. Qed.

(** ** The invariant of the table *)

Section Correct.
  Context {V K : Type} (get_key : V → K) (hash : K → Z) (equals : K → K → bool).
  Hypothesis equals_hash : ∀ a b, equals a b = true → hash a = hash b.

  Local Abbreviation bkt_num := (bkt_num get_key hash).
  Local Abbreviation reserve := (reserve get_key hash).
  Local Abbreviation insert_unique_noresize := (insert_unique_noresize get_key hash equals).

(** Every node is in the bucket of its key, and the nodes are counted. *)
Definition wf (h : yhashtable V) : Prop :=
  0 < bucket_count h ∧
  (∀ i c v, buckets h !! i = Some c → v ∈ c → bkt_num v (bucket_count h) = Z.of_nat i) ∧
  num_elements h = vsize (elements h).

Lemma bkt_num_range v n : 0 < n → 0 ≤ bkt_num v n < n.
Proof. apply Z.mod_pos_bound. Qed.

Lemma chain_lookup (h : yhashtable V) n :
  0 ≤ n < bucket_count h → buckets h !! Z.to_nat n = Some (chain h n).
Proof.
  intros Hn. unfold chain. apply list_lookup_lookup_total_lt. unfold bucket_count, vsize in Hn. lia.
Qed.

Lemma elem_of_elements (h : yhashtable V) v :
  v ∈ elements h ↔ ∃ i c, buckets h !! i = Some c ∧ v ∈ c.
Proof.
  unfold elements. rewrite list_elem_of_In, in_concat. setoid_rewrite <- list_elem_of_In.
  setoid_rewrite list_elem_of_lookup at 1. split.
  - intros (c & [i Hi] & Hv). eauto.
  - intros (i & c & Hi & Hv). eauto.
Qed.

(** A node is in the chain of the bucket of its key. *)
Lemma elem_of_chain h v : wf h → v ∈ elements h ↔ v ∈ chain h (bkt_num v (bucket_count h)).
Proof.
  intros (Hpos & Hb & _). rewrite elem_of_elements. split.
  - intros (i & c & Hc & Hv). rewrite (Hb i c v Hc Hv). unfold chain.
    rewrite Nat2Z.id. by rewrite (list_lookup_total_correct _ _ _ Hc).
  - intros Hv. pose proof (bkt_num_range v (bucket_count h) Hpos).
    eauto using chain_lookup.
Qed.

(** ** Replacing one chain *)

Lemma concat_insert (b : list (list V)) i c :
  b !! i = Some c →
  ∃ r, concat b ≡ₚ c ++ r ∧ (∀ c', concat (<[i := c']> b) ≡ₚ c' ++ r) ∧
    ∀ v, v ∈ r → ∃ j c', j ≠ i ∧ b !! j = Some c' ∧ v ∈ c'.
Proof.
  intros Hi. exists (concat (take i b) ++ concat (drop (S i) b)).
  assert (i < length b)%nat by (by eapply lookup_lt_Some).
  split_and!.
  - rewrite <- (take_drop_middle b i c Hi) at 1. rewrite concat_app. cbn.
    rewrite Permutation_app_swap_app. done.
  - intros c'. rewrite insert_take_drop by done. rewrite concat_app. cbn.
    by rewrite Permutation_app_swap_app.
  - intros v Hv. rewrite elem_of_app, !list_elem_of_In, !in_concat in Hv.
    setoid_rewrite <- list_elem_of_In in Hv.
    destruct Hv as [(c' & [j Hj]%list_elem_of_lookup_1 & Hv)
                   |(c' & [j Hj]%list_elem_of_lookup_1 & Hv)].
    + apply lookup_take_Some in Hj as [Hj ?]. exists j, c'. split_and!; [lia|done|done].
    + rewrite lookup_drop in Hj. exists (S i + j)%nat, c'. split_and!; [lia|done|done].
Qed.

(** The effect of [set_chain] on the elements and on the invariant. *)
Lemma set_chain_spec h n c' count :
  wf h → 0 ≤ n < bucket_count h →
  (∀ v, v ∈ c' → bkt_num v (bucket_count h) = n) →
  count = num_elements h - vsize (chain h n) + vsize c' →
  ∃ r, elements h ≡ₚ chain h n ++ r ∧
    elements (set_chain h n c' count) ≡ₚ c' ++ r ∧ wf (set_chain h n c' count) ∧
    ∀ v, v ∈ r → bkt_num v (bucket_count h) ≠ n.
Proof.
  intros (Hpos & Hb & Hnum) Hn Hc' Hcount.
  destruct (concat_insert (buckets h) (Z.to_nat n) (chain h n)) as (r & Hr & Hr' & Hother);
    [by apply chain_lookup|].
  exists r. split_and!; [done|apply Hr'| |].
  2: { intros v (j & c & Hj & Hc & Hv)%Hother. rewrite (Hb j c v Hc Hv). lia. }
  unfold wf, bucket_count, elements; cbn.
  rewrite vsize_insert. split_and!; [done| |].
  - intros i c v Hi Hv. destruct (decide (Z.to_nat n = i)) as [<-|Hne].
    + rewrite list_lookup_insert_eq in Hi by (apply lookup_lt_is_Some; eauto using chain_lookup).
      simplify_eq. rewrite Z2Nat.id by lia. by apply Hc'.
    + rewrite list_lookup_insert_ne in Hi by done. eauto.
  - rewrite (vsize_Permutation _ _ (Hr' c')), Hcount, Hnum.
    unfold elements. rewrite (vsize_Permutation _ _ Hr). vlia.
Qed.

Lemma push_chain_spec h v :
  wf h →
  let n := bkt_num v (bucket_count h) in
  let h' := set_chain h n (v :: chain h n) (num_elements h + 1) in
  wf h' ∧ elements h' ≡ₚ v :: elements h ∧ bucket_count h' = bucket_count h.
Proof.
  intros Hwf n h'. destruct (Hwf) as (Hpos & Hb & _).
  assert (0 ≤ n < bucket_count h) by (by apply bkt_num_range).
  destruct (set_chain_spec h n (v :: chain h n) (num_elements h + 1)) as (r & Hr & Hr' & Hwf' & _).
  - done.
  - done.
  - intros w [->|Hw]%elem_of_cons; [done|].
    rewrite (Hb (Z.to_nat n) (chain h n) w); [lia|by apply chain_lookup|done].
  - rewrite vsize_cons. lia.
  - subst h'. split_and!; [done|by rewrite Hr', Hr|]. unfold bucket_count; cbn. by rewrite vsize_insert.
Qed.

(** ** [reserve] *)

Lemma move_nodes_spec n l tmp :
  0 < n → vsize tmp = n →
  (∀ i c v, tmp !! i = Some c → v ∈ c → bkt_num v n = Z.of_nat i) →
  let tmp' := foldl (move_node get_key hash n) tmp l in
  vsize tmp' = n ∧ concat tmp' ≡ₚ l ++ concat tmp ∧
  (∀ i c v, tmp' !! i = Some c → v ∈ c → bkt_num v n = Z.of_nat i).
Proof.
  intros Hn. revert tmp. induction l as [|v l IH]; intros tmp Hs Hb; cbn; [done|].
  pose (h := {| buckets := tmp; num_elements := vsize (concat tmp) |}).
  assert (bucket_count h = n) as Hbc by done.
  destruct (push_chain_spec h v) as ((_ & Hb' & _) & Hperm & Hbc');
    [split_and!; [lia|by rewrite Hbc|done]|].
  rewrite Hbc' in Hb'. rewrite Hbc in Hb', Hperm, Hbc'.
  destruct (IH (move_node get_key hash n tmp v)) as (Hs1 & Hp1 & Hb1).
  - exact Hbc'.
  - exact Hb'.
  - split_and!; [done| |done]. rewrite Hp1. unfold move_node.
    unfold elements in Hperm. cbn in Hperm. unfold chain in Hperm. cbn in Hperm.
    rewrite Hperm. by rewrite Permutation_middle.
Qed.

Lemma foldl_foldl_concat {A B} (f : B → A → B) (b : B) (ls : list (list A)) :
  foldl (foldl f) b ls = foldl f b (concat ls).
Proof. revert b. induction ls as [|l ls IH]; intros b; cbn; [done|]. by rewrite IH, foldl_app. Qed.

(** [reserve] keeps the elements; it makes room for [hint] of them as long as
    the prime table does. *)
Lemma reserve_spec h hint :
  wf h →
  ∃ h' r, reserve h hint = Ret (h', r) ∧ wf h' ∧ elements h' ≡ₚ elements h ∧
    num_elements h' = num_elements h ∧ bucket_count h ≤ bucket_count h' ∧
    (hint + 1 ≤ 4294967291 → hint ≤ bucket_count h').
Proof.
  intros Hwf. unfold HashTable.reserve.
  destruct (Z.ltb_spec (bucket_count h) (hint + 1)) as [Hh|Hh];
    [|exists h, false; split_and!; try done; lia].
  destruct (negb (bucket_count h =? 1) && (hint <=? bucket_count h)) eqn:Hc.
  { exists h, false. apply andb_true_iff in Hc as [_ Hc]. split_and!; try done; lia. }
  destruct (HashBucketCount_room (hint + 1)) as (n & -> & Hn). cbn.
  destruct (Z.ltb_spec (bucket_count h) n) as [Hlt|Hle];
    [|exists h, false; split_and!; try done; lia].
  rewrite foldl_foldl_concat. destruct Hwf as (Hpos & Hb & Hnum).
  destruct (move_nodes_spec n (concat (buckets h)) (replicate (Z.to_nat n) [])) as (Hs & Hp & Hb').
  - lia.
  - unfold vsize. rewrite length_replicate. lia.
  - intros i c v [-> _]%lookup_replicate_1 Hv. by apply elem_of_nil in Hv.
  - rewrite concat_replicate_nil, app_nil_r in Hp.
    eexists _, true. split; [reflexivity|]. unfold wf, bucket_count, elements; cbn.
    rewrite Hs, (vsize_Permutation _ _ Hp). split_and!; try done; unfold bucket_count in *; lia.
Qed.

(** ** Lookup *)

(** Whether an element of the table has the key. *)
Definition has_key (h : yhashtable V) (key : K) : Prop :=
  ∃ v, v ∈ elements h ∧ equals (get_key v) key = true.

(** The nodes with a key are all in the chain of its bucket. *)
Lemma key_in_chain h key v :
  wf h → equals (get_key v) key = true →
  v ∈ elements h ↔ v ∈ chain h (bkt_num_key hash key (bucket_count h)).
Proof.
  intros Hwf Hk. rewrite (elem_of_chain h v Hwf).
  unfold HashTable.bkt_num, bkt_num_key. by rewrite (equals_hash _ _ Hk).
Qed.

Lemma find_spec h key :
  wf h →
  match find get_key hash equals h key with
  | Some v => v ∈ elements h ∧ equals (get_key v) key = true
  | None => ¬ has_key h key
  end.
Proof.
  intros Hwf. unfold find. destruct (List.find _ _) as [v|] eqn:Hf.
  - apply find_some in Hf as [Hv Hk]. split; [|done].
    apply list_elem_of_In in Hv. by apply (key_in_chain h key).
  - intros (v & Hv & Hk). rewrite (key_in_chain h key) in Hv by done.
    apply list_elem_of_In in Hv. by rewrite (find_none _ _ Hf v Hv) in Hk.
Qed.

Lemma chain_has_spec h key :
  wf h →
  chain_has get_key equals (chain h (bkt_num_key hash key (bucket_count h))) key = true ↔
    has_key h key.
Proof.
  intros Hwf. unfold chain_has. rewrite existsb_exists. unfold has_key.
  setoid_rewrite <- list_elem_of_In. split; intros (v & Hv & Hk); exists v; split; try done.
  - by apply (key_in_chain h key).
  - by apply (key_in_chain h key) in Hv.
Qed.

Lemma has_key_perm h h' key : elements h' ≡ₚ elements h → has_key h' key ↔ has_key h key.
Proof. intros Hp. unfold has_key. by setoid_rewrite Hp. Qed.

(** ** Insertion *)

(** [insert_unique] adds the value when no element has its key, and reports
    whether it did. *)
Lemma insert_unique_noresize_spec h obj :
  wf h →
  ∃ h' b, insert_unique_noresize h obj = (h', b) ∧ wf h' ∧
    bucket_count h' = bucket_count h ∧
    (b = true ∧ ¬ has_key h (get_key obj) ∧ elements h' ≡ₚ obj :: elements h ∨
     b = false ∧ has_key h (get_key obj) ∧ h' = h).
Proof.
  intros Hwf. unfold HashTable.insert_unique_noresize, HashTable.bkt_num.
  destruct (chain_has _ _ _ _) eqn:Hh.
  - eexists _, _. split_and!; [done..|]. right. split_and!; [done| |done].
    by apply chain_has_spec.
  - destruct (push_chain_spec h obj Hwf) as (Hwf' & Hp & Hb).
    eexists _, _. split_and!; [done|done|done|]. left. split_and!; [done| |done].
    rewrite <- chain_has_spec by done. by rewrite Hh.
Qed.

Lemma insert_unique_spec h obj :
  wf h →
  ∃ h' b, insert_unique get_key hash equals h obj = Ret (h', b) ∧ wf h' ∧
    (num_elements h + 2 ≤ 4294967291 → num_elements h' ≤ bucket_count h') ∧
    (b = true ∧ ¬ has_key h (get_key obj) ∧ elements h' ≡ₚ obj :: elements h ∨
     b = false ∧ has_key h (get_key obj) ∧ elements h' ≡ₚ elements h).
Proof.
  intros Hwf. unfold insert_unique.
  destruct (reserve_spec h (num_elements h + 1) Hwf) as (h1 & r & -> & Hwf1 & Hp1 & Hn1 & _ & Hroom).
  cbn. destruct (insert_unique_noresize_spec h1 obj Hwf1) as (h2 & b & -> & Hwf2 & Hbc & Hcase).
  exists h2, b. split_and!; [done|done| |].
  - intros Hle. rewrite Hbc. destruct Hwf2 as (_ & _ & ->), Hwf1 as (_ & _ & Hnum1).
    specialize (Hroom ltac:(lia)). destruct Hcase as [(_ & _ & Hp)|(_ & _ & ->)].
    + rewrite (vsize_Permutation _ _ Hp), vsize_cons. lia.
    + lia.
  - pose proof (has_key_perm h h1 (get_key obj) Hp1) as Hkey.
    destruct Hcase as [(-> & Hk & Hp)|(-> & Hk & ->)]; [left|right];
      (split_and!; [done|tauto|by rewrite ?Hp, Hp1]).
Qed.

Lemma emplace_direct_spec h obj :
  wf h →
  ∃ h', emplace_direct get_key hash h obj = Ret h' ∧ wf h' ∧ elements h' ≡ₚ obj :: elements h.
Proof.
  intros Hwf. unfold emplace_direct.
  destruct (reserve_spec h (num_elements h + 1) Hwf) as (h1 & r & -> & Hwf1 & Hp1 & _). cbn.
  destruct (push_chain_spec h1 obj Hwf1) as (Hwf2 & Hp2 & _).
  eexists. split_and!; [done|done|]. by rewrite Hp2, Hp1.
Qed.

Lemma initialize_buckets_spec n :
  ∃ h, initialize_buckets n = Ret h ∧ wf h ∧ elements h = [].
Proof.
  unfold initialize_buckets. destruct (Z.eqb_spec n 0) as [->|Hn].
  - eexists. split_and!; [done| |done]. split_and!; [done| |done].
    intros [|i] c v Hi Hv; cbn in Hi; simplify_eq. by apply elem_of_nil in Hv.
  - destruct (HashBucketCount_total n) as (p & -> & Hp). cbn.
    eexists. split_and!; [done| |]; unfold wf, bucket_count, elements; cbn.
    + rewrite concat_replicate_nil. split_and!; [|intros i c v [-> _]%lookup_replicate_1 Hv|done].
      * unfold vsize. rewrite length_replicate. lia.
      * by apply elem_of_nil in Hv.
    + apply concat_replicate_nil.
Qed.

(** ** Removal *)

Lemma unlink_first_spec key c c' :
  unlink_first get_key equals key c = Some c' →
  ∃ v, equals (get_key v) key = true ∧ c ≡ₚ v :: c'.
Proof.
  revert c'. induction c as [|v c IH]; intros c'; cbn; [done|].
  destruct (equals (get_key v) key) eqn:Hk.
  - intros [= ->]. eauto.
  - destruct (unlink_first get_key equals key c) as [c1|]; [|done].
    intros [= <-]. destruct (IH c1 eq_refl) as (w & Hw & Hp). exists w.
    split; [done|]. rewrite Hp. constructor.
Qed.

Lemma unlink_first_None key c :
  unlink_first get_key equals key c = None →
  ∀ v, v ∈ c → equals (get_key v) key = false.
Proof.
  induction c as [|v c IH]; cbn; [set_solver|].
  destruct (equals (get_key v) key) eqn:Hk; [done|].
  destruct (unlink_first get_key equals key c); [done|]. intros _. set_solver.
Qed.

(** [erase_one] removes one element with the key, if there is one. *)
Lemma erase_one_spec h key :
  wf h →
  ∃ h' n, erase_one get_key hash equals h key = (h', n) ∧ wf h' ∧
    ((∃ v, n = 1 ∧ equals (get_key v) key = true ∧ elements h ≡ₚ v :: elements h') ∨
     n = 0 ∧ ¬ has_key h key ∧ h' = h).
Proof.
  intros Hwf. unfold erase_one. set (n := bkt_num_key hash key (bucket_count h)).
  pose proof (Hwf) as (Hpos & Hb & _).
  assert (Hn : 0 ≤ n < bucket_count h) by (by apply Z.mod_pos_bound).
  assert (Hdrop : ∀ v c', equals (get_key v) key = true → chain h n ≡ₚ v :: c' →
    wf (set_chain h n c' (num_elements h - 1)) ∧
    elements h ≡ₚ v :: elements (set_chain h n c' (num_elements h - 1))).
  { intros v c' Hk Hc. destruct (set_chain_spec h n c' (num_elements h - 1)) as (r & Hr & Hr' & Hwf' & _);
      [done|done| | |].
    - intros w Hw. rewrite (Hb (Z.to_nat n) (chain h n) w); [lia|by apply chain_lookup|].
      rewrite Hc. set_solver.
    - rewrite (vsize_Permutation _ _ Hc), vsize_cons. lia.
    - split; [done|]. by rewrite Hr, Hr', Hc. }
  destruct (chain h n) as [|first rest] eqn:Hc.
  { eexists _, _. split_and!; [done|done|]. right. split_and!; [done| |done].
    intros (v & Hv & Hk). rewrite (key_in_chain h key) in Hv by done.
    fold n in Hv. rewrite Hc in Hv. by apply elem_of_nil in Hv. }
  destruct (unlink_first _ _ key rest) as [rest'|] eqn:Hu.
  - destruct (unlink_first_spec _ _ _ Hu) as (v & Hk & Hp).
    destruct (Hdrop v (first :: rest') Hk) as [Hwf' Hel]; [rewrite Hp; constructor|].
    eexists _, _. split_and!; [done|done|]. left. eauto.
  - destruct (equals (get_key first) key) eqn:Hk.
    + destruct (Hdrop first rest Hk) as [Hwf' Hel]; [done|].
      eexists _, _. split_and!; [done|done|]. left. eauto.
    + eexists _, _. split_and!; [done|done|]. right. split_and!; [done| |done].
      intros (v & Hv & Hk'). rewrite (key_in_chain h key) in Hv by done.
      fold n in Hv. rewrite Hc in Hv.
      apply elem_of_cons in Hv as [->|Hv]; [congruence|].
      by rewrite (unlink_first_None _ _ Hu v Hv) in Hk'.
Qed.

(** [erase] removes every element with the key. *)
Lemma erase_spec h key :
  wf h →
  ∃ h' n, erase get_key hash equals h key = (h', n) ∧ wf h' ∧
    n = vsize (filter (λ v, equals (get_key v) key = true) (elements h)) ∧
    elements h' ≡ₚ filter (λ v, equals (get_key v) key = false) (elements h).
Proof.
  intros Hwf. unfold erase. set (n := bkt_num_key hash key (bucket_count h)).
  pose proof (Hwf) as (Hpos & Hb & _).
  assert (Hn : 0 ≤ n < bucket_count h) by (by apply Z.mod_pos_bound).
  set (kept := filter _ (chain h n)).
  destruct (set_chain_spec h n kept (num_elements h - (vsize (chain h n) - vsize kept)))
    as (r & Hr & Hr' & Hwf' & Hother); [done|done| |lia|].
  { intros w Hw. rewrite (Hb (Z.to_nat n) (chain h n) w); [lia|by apply chain_lookup|].
    by apply list_elem_of_filter in Hw as [_ ?]. }
  assert (Hrest : ∀ v, v ∈ r → equals (get_key v) key = false).
  { intros v Hv. apply not_true_iff_false. intros Hk. apply (Hother v Hv).
    unfold HashTable.bkt_num, n, bkt_num_key. by rewrite (equals_hash _ _ Hk). }
  eexists _, _. split_and!; [done|done| |].
  - pose proof (vsize_filter_bool (λ v, equals (get_key v) key) (chain h n)) as Hsz. cbv beta in Hsz.
    rewrite Hr, filter_app, (filter_none _ r), app_nil_r.
    + unfold kept. lia.
    + intros v Hv. by rewrite (Hrest v Hv).
  - rewrite Hr', Hr, filter_app.
    by rewrite (filter_all (λ v, equals (get_key v) key = false) r Hrest).
Qed.

(** ** Clearing *)

Lemma replicate_wf n : 0 < n →
  let h := {| buckets := replicate (Z.to_nat n) []; num_elements := 0 |} in
  wf h ∧ elements h = [].
Proof.
  intros Hn h. unfold wf, bucket_count, elements; cbn.
  rewrite concat_replicate_nil. split_and!; try done.
  - unfold vsize. rewrite length_replicate. lia.
  - intros i c v [-> _]%lookup_replicate_1 Hv. by apply elem_of_nil in Hv.
Qed.

Lemma basic_clear_spec h :
  wf h → wf (basic_clear h) ∧ elements (basic_clear h) = [] ∧
    bucket_count (basic_clear h) = bucket_count h ∧
    (∀ c, c ∈ buckets (basic_clear h) → c = []).
Proof.
  intros Hwf. unfold basic_clear. destruct (Z.eqb_spec (num_elements h) 0) as [H0|_].
  - destruct Hwf as (Hpos & Hb & Hnum). rewrite Hnum in H0.
    assert (elements h = []) as Hnil by (by apply length_zero_iff_nil; unfold vsize in H0; lia).
    split_and!; try done. intros c [i Hi]%list_elem_of_lookup.
    destruct c as [|v c]; [done|]. exfalso.
    assert (v ∈ elements h) as Hv by (apply elem_of_elements; exists i, (v :: c); split; [done|left]).
    rewrite Hnil in Hv. by apply elem_of_nil in Hv.
  - destruct Hwf as (Hpos & _ & _).
    destruct (replicate_wf (bucket_count h) Hpos) as [Hwf' Hel].
    unfold bucket_count, vsize in Hwf', Hel |- *. rewrite Nat2Z.id in Hwf', Hel.
    split_and!; try done; cbn.
    + by rewrite length_replicate.
    + by intros c [-> _]%elem_of_replicate.
Qed.

Lemma clear_spec h :
  wf h → ∃ h', clear h = Ret h' ∧ wf h' ∧ elements h' = [].
Proof.
  intros Hwf. unfold clear. destruct (Z.eqb_spec (num_elements h) 0) as [H0|_]; cbn.
  { exists h. split_and!; [done|done|]. apply length_zero_iff_nil.
    destruct Hwf as (_ & _ & Hn). unfold vsize in Hn. lia. }
  destruct (basic_clear_spec h Hwf) as (Hwf' & Hel & Hbc & Hnil).
  unfold clear_downsize. set (d := (_ + _) / 3).
  destruct (d <? _); [|eauto]. destruct (HashBucketCount_total d) as (n & -> & Hn). cbn.
  destruct (Z.ltb_spec n (bucket_count (basic_clear h))) as [Hlt|]; [|eauto].
  eexists. split; [done|].
  assert (Hel' : concat (take (Z.to_nat n) (buckets (basic_clear h))) = []).
  { apply concat_nil_Forall, Forall_take, Forall_forall. intros c Hc. by apply Hnil. }
  unfold wf, elements in *. cbn. rewrite Hel'. destruct Hwf' as (_ & _ & Hnum).
  rewrite Hnum, Hel. split_and!; [|intros i c v Hi Hv|done|done]; cbn.
  - unfold bucket_count, vsize in *. cbn. rewrite length_take. lia.
  - apply list_elem_of_lookup_2 in Hi. rewrite (Hnil c) in Hv; [by apply elem_of_nil in Hv|].
    rewrite <- (take_drop (Z.to_nat n) (buckets _)). apply elem_of_app. by left.
Qed.

End Correct.
