(* ===== verification/HashMap.v ===== *)
(** * Hash maps and hash sets: [util/generic/hash.h], [util/generic/hash_set.h]

    [yhash] and [yhash_set] wrap the hash table of [HashTable].  [MapImpl] is
    what the clients of a map rely on: operations that refine a finite map, and
    an iteration that is an enumeration of it in an order of the
    implementation's choice.  [yhash_map] discharges it. *)
From stdpp Require Export gmap.
From S2P Require Import Prelude Arith XRange Algorithm HashTable.

(** ** [yhash] *)

Section Yhash.
  Context {K T : Type}.
  Variable hash : K → Z.
  Variable equals : K → K → bool.

Definition yhash : Type := yhashtable (K * T).

(** [yhash()] *)
Definition yhash_empty : yhash := {| buckets := [[]]; num_elements := 0 |}.

(** [yhash(std::initializer_list)] *)
Definition yhash_of_list (l : list (K * T)) : outcome yhash :=
  h ← initialize_buckets (vsize l);
  Ret (foldl (λ h v, (insert_unique_noresize fst hash equals h v).1) h l).

(** [insert(obj)], [emplace(args)] *)
Definition yhash_insert (h : yhash) (obj : K * T) : outcome (yhash * bool) :=
  insert_unique fst hash equals h obj.

(** [find(key)] and [has(key)] *)
Definition yhash_find (h : yhash) (key : K) : option (K * T) := find fst hash equals h key.
Definition yhash_has (h : yhash) (key : K) : bool :=
  match yhash_find h key with Some _ => true | None => false end.

(** [operator[](key)]: the table afterwards and the value referred to, which is
    [T()] when the key was absent. *)
Definition yhash_subscript (h : yhash) (key : K) (value_init : T) : outcome (yhash * T) :=
  match yhash_find h key with
  | Some kv => Ret (h, kv.2)
  | None => h ← emplace_direct fst hash h (key, value_init); Ret (h, value_init)
  end.

(** A store through the reference [operator[]] returned for the key: the node
    stays where it is. *)
Fixpoint assign_chain (key : K) (v : T) (c : list (K * T)) : list (K * T) :=
  match c with
  | [] => []
  | kv :: c => if equals kv.1 key then (kv.1, v) :: c else kv :: assign_chain key v c
  end.

Definition yhash_assign (h : yhash) (key : K) (v : T) : yhash :=
  let n := bkt_num_key hash key (bucket_count h) in
  set_chain h n (assign_chain key v (chain h n)) (num_elements h).

(** [at(key)] *)
Definition yhash_at (h : yhash) (key : K) : outcome T :=
  match yhash_find h key with
  | Some kv => Ret kv.2
  | None => Fail (Throw EKeyNotFound)
  end.

(** [erase(key)] *)
Definition yhash_erase (h : yhash) (key : K) : yhash * Z := erase_one fst hash equals h key.

(** [count(key)] *)
Definition yhash_count (h : yhash) (key : K) : Z := count fst hash equals h key.

(** [operator==]: [value_eq] compares the mapped values. *)
Definition yhash_eq (value_eq : T → T → bool) (hm1 hm2 : yhash) : bool :=
  if negb (size hm1 =? size hm2) then false
  else
    forallb (λ it1,
      match yhash_find hm2 it1.1 with
      | None => false
      | Some it2 => equals it1.1 it2.1 && value_eq it1.2 it2.2
      end) (elements hm1).

End Yhash.
Arguments yhash : clear implicits.

(** ** [yhash_set] *)

Section YhashSet.
  Context {K : Type}.
  Variable hash : K → Z.
  Variable equals : K → K → bool.

Definition yhash_set : Type := yhashtable K.

Definition yhash_set_empty : yhash_set := {| buckets := [[]]; num_elements := 0 |}.

(** [insert(obj)], [find(key)], [has(key)], [erase(key)], [empty()] *)
Definition yhash_set_insert (s : yhash_set) (obj : K) : outcome (yhash_set * bool) :=
  insert_unique id hash equals s obj.
Definition yhash_set_find (s : yhash_set) (key : K) : option K := find id hash equals s key.
Definition yhash_set_has (s : yhash_set) (key : K) : bool :=
  match yhash_set_find s key with Some _ => true | None => false end.
Definition yhash_set_erase (s : yhash_set) (key : K) : yhash_set * Z :=
  erase id hash equals s key.

(** [yhash_set(first, last)]: one [reserve] for the range. *)
Definition yhash_set_of_range (l : list K) : outcome yhash_set :=
  insert_unique_range id hash equals yhash_set_empty l.

(** [operator==] of sets *)
Definition yhash_set_eq (hs1 hs2 : yhash_set) : bool :=
  if negb (size hs1 =? size hs2) then false
  else forallb (λ it, yhash_set_has hs2 it) (elements hs1).

End YhashSet.
Arguments yhash_set : clear implicits.

(** ** The interface of a map *)

Class MapImpl (K T M : Type) `{Countable K} : Type := {
  m_rep : M → gmap K T → Prop;
  m_empty : M;
  m_subscript : M → K → T → outcome (M * T);
  m_assign : M → K → T → M;
  m_at : M → K → outcome T;
  m_erase : M → K → M * Z;
  m_entries : M → list (K * T);
  m_rep_empty : m_rep m_empty ∅;
  (** [operator[]] inserts the initial value if the key is absent. *)
  m_rep_subscript m g k d : m_rep m g →
    ∃ m', m_subscript m k d = Ret (m', default d (g !! k)) ∧
      m_rep m' (<[k := default d (g !! k)]> g);
  (** A store through a reference to a present key. *)
  m_rep_assign m g k v : m_rep m g → is_Some (g !! k) → m_rep (m_assign m k v) (<[k := v]> g);
  m_rep_at m g k : m_rep m g →
    m_at m k = match g !! k with Some v => Ret v | None => Fail (Throw EKeyNotFound) end;
  m_rep_erase m g k : m_rep m g →
    ∃ m', m_erase m k = (m', if g !! k is Some _ then 1 else 0) ∧ m_rep m' (delete k g);
  (** Iteration enumerates the map. *)
  m_rep_entries m g : m_rep m g → m_entries m ≡ₚ map_to_list g;
}.

(** ** [yhash] implements it *)

Section Refinement.
  Context {K T : Type} `{Countable K} (hash : K → Z).

Definition key_eq (a b : K) : bool := bool_decide (a = b).

Lemma key_eq_true a b : key_eq a b = true ↔ a = b.
Proof. apply bool_decide_eq_true. Qed.

Lemma key_eq_hash a b : key_eq a b = true → hash a = hash b.
Proof. by intros ->%key_eq_true. Qed.

(** The table holds the entries of the map. *)
Definition yhash_rep (h : yhash K T) (g : gmap K T) : Prop :=
  wf fst hash h ∧ elements h ≡ₚ map_to_list g.

Lemma yhash_rep_elem h g k v : yhash_rep h g → (k, v) ∈ elements h ↔ g !! k = Some v.
Proof. intros [_ Hp]. by rewrite Hp, elem_of_map_to_list. Qed.

Lemma yhash_rep_size h g : yhash_rep h g → num_elements h = Z.of_nat (base.size g).
Proof.
  intros [(_ & _ & Hn) Hp]. rewrite Hn, Hp. unfold vsize. by rewrite length_map_to_list.
Qed.

Lemma yhash_rep_empty : yhash_rep yhash_empty ∅.
Proof.
  split; [|by rewrite map_to_list_empty]. split_and!; [done| |done].
  intros i c v Hi Hv. destruct i; cbn in Hi; simplify_eq. by apply elem_of_nil in Hv.
Qed.

Lemma yhash_rep_find h g k :
  yhash_rep h g → yhash_find hash key_eq h k = pair k <$> g !! k.
Proof.
  intros Hr. pose proof (find_spec fst hash key_eq key_eq_hash h k (proj1 Hr)) as Hf.
  unfold yhash_find. destruct (find _ _ _ h k) as [[k' v]|]; cbn in Hf.
  - destruct Hf as [Hv ->%key_eq_true]. by apply (yhash_rep_elem _ g) in Hv as ->.
  - destruct (g !! k) as [v|] eqn:Hg; [|done]. destruct Hf. exists (k, v).
    split; [by apply (yhash_rep_elem h g)|by apply key_eq_true].
Qed.

Lemma yhash_rep_has_key h g k :
  yhash_rep h g → has_key fst key_eq h k ↔ is_Some (g !! k).
Proof.
  intros Hr. split.
  - intros ([k' v] & Hv & Hk%key_eq_true). cbn in Hk. subst k'. exists v. by apply (yhash_rep_elem h g).
  - intros [v Hv]. exists (k, v). split; [by apply (yhash_rep_elem h g)|by apply key_eq_true].
Qed.

Lemma yhash_rep_insert_new h h' g k v :
  yhash_rep h g → g !! k = None → wf fst hash h' → elements h' ≡ₚ (k, v) :: elements h →
  yhash_rep h' (<[k := v]> g).
Proof.
  intros [_ Hp] Hg Hwf Hp'. split; [done|]. by rewrite Hp', Hp, map_to_list_insert.
Qed.

Lemma yhash_rep_subscript h g k d :
  yhash_rep h g →
  ∃ h', yhash_subscript hash key_eq h k d = Ret (h', default d (g !! k)) ∧
    yhash_rep h' (<[k := default d (g !! k)]> g).
Proof.
  intros Hr. unfold yhash_subscript. rewrite (yhash_rep_find _ g) by done.
  destruct (g !! k) as [v|] eqn:Hg; cbn.
  - exists h. split; [done|]. by rewrite insert_id.
  - destruct (emplace_direct_spec fst hash h (k, d) (proj1 Hr)) as (h' & -> & Hwf & Hp).
    exists h'. split; [done|]. by eapply yhash_rep_insert_new.
Qed.

Lemma assign_chain_spec k v (c : list (K * T)) :
  (∃ w, (k, w) ∈ c) →
  ∃ w r, c ≡ₚ (k, w) :: r ∧ assign_chain key_eq k v c ≡ₚ (k, v) :: r.
Proof.
  induction c as [|[k' w'] c IH]; intros [w Hw]; cbn; [by apply elem_of_nil in Hw|].
  destruct (key_eq k' k) eqn:Hk.
  - apply key_eq_true in Hk as ->. eauto.
  - assert (k' ≠ k) by (by intros Heq%key_eq_true; congruence). destruct IH as (w1 & r & Hp & Hp').
    { exists w. apply elem_of_cons in Hw as [?|?]; [congruence|done]. }
    exists w1, ((k', w') :: r). split; [rewrite Hp|rewrite Hp']; constructor.
Qed.

Lemma yhash_rep_assign h g k v :
  yhash_rep h g → is_Some (g !! k) → yhash_rep (yhash_assign hash key_eq h k v) (<[k := v]> g).
Proof.
  intros Hr [w Hw]. pose proof (Hr) as [Hwf Hp]. unfold yhash_assign.
  set (n := bkt_num_key hash k (bucket_count h)).
  pose proof Hwf as (Hpos & Hb & _).
  assert (Hn : 0 ≤ n < bucket_count h) by (by apply Z.mod_pos_bound).
  destruct (assign_chain_spec k v (chain h n)) as (w' & r & Hc & Hc').
  { exists w. apply (key_in_chain fst hash key_eq key_eq_hash h k (k, w)).
    - done.
    - by apply key_eq_true.
    - by apply (yhash_rep_elem h g). }
  destruct (set_chain_spec fst hash h n (assign_chain key_eq k v (chain h n)) (num_elements h))
    as (R & HR & HR' & Hwf' & _); [done|done| | |].
  - intros kv. rewrite Hc'. intros [->|Hkv]%elem_of_cons; [done|].
    rewrite (Hb (Z.to_nat n) (chain h n) kv); [lia|by apply chain_lookup|].
    rewrite Hc. set_solver.
  - rewrite (vsize_Permutation _ _ Hc), (vsize_Permutation _ _ Hc'), !vsize_cons. lia.
  - split; [done|]. rewrite HR', Hc'. rewrite HR, Hc in Hp. cbn in Hp |- *.
    assert (Hw' : g !! k = Some w').
    { apply (yhash_rep_elem h g); [done|]. rewrite HR, Hc. set_solver. }
    rewrite <- (map_to_list_delete g k w' Hw') in Hp. apply Permutation_cons_inv in Hp.
    rewrite Hp, <- insert_delete_eq, map_to_list_insert by apply lookup_delete_eq. done.
Qed.

Lemma yhash_rep_at h g k :
  yhash_rep h g →
  yhash_at hash key_eq h k =
    match g !! k with Some v => Ret v | None => Fail (Throw EKeyNotFound) end.
Proof.
  intros Hr. unfold yhash_at. rewrite (yhash_rep_find _ g) by done. by destruct (g !! k).
Qed.

Lemma yhash_rep_erase h g k :
  yhash_rep h g →
  ∃ h', yhash_erase hash key_eq h k = (h', if g !! k is Some _ then 1 else 0) ∧
    yhash_rep h' (delete k g).
Proof.
  intros Hr. pose proof Hr as [Hwf Hp].
  destruct (erase_one_spec fst hash key_eq key_eq_hash h k Hwf)
    as (h' & n & He & Hwf' & [([k' v] & -> & Hk & Hel)|(-> & Hk & ->)]);
    eexists; unfold yhash_erase; rewrite He.
  - apply key_eq_true in Hk. cbn in Hk. subst k'.
    assert (Hg : g !! k = Some v).
    { apply (yhash_rep_elem h g); [done|]. rewrite Hel. set_solver. }
    rewrite Hg. split; [done|]. split; [done|].
    rewrite Hel, <- (map_to_list_delete g k v Hg) in Hp. by apply Permutation_cons_inv in Hp.
  - rewrite (yhash_rep_has_key _ g), <- eq_None_not_Some in Hk by done. rewrite Hk.
    split; [done|]. by rewrite delete_id.
Qed.

#[export] Instance yhash_map : MapImpl K T (yhash K T) := {|
  m_rep := yhash_rep;
  m_empty := yhash_empty;
  m_subscript := yhash_subscript hash key_eq;
  m_assign := yhash_assign hash key_eq;
  m_at := yhash_at hash key_eq;
  m_erase := yhash_erase hash key_eq;
  m_entries := elements;
  m_rep_empty := yhash_rep_empty;
  m_rep_subscript := yhash_rep_subscript;
  m_rep_assign := yhash_rep_assign;
  m_rep_at := yhash_rep_at;
  m_rep_erase := yhash_rep_erase;
  m_rep_entries := λ m g, @proj2 _ _;
|}.

Lemma yhash_rep_insert h g k v :
  yhash_rep h g →
  ∃ h' b, yhash_insert hash key_eq h (k, v) = Ret (h', b) ∧
    b = bool_decide (g !! k = None) ∧ yhash_rep h' (<[k := default v (g !! k)]> g).
Proof.
  intros Hr. pose proof Hr as [Hwf Hp]. unfold yhash_insert.
  destruct (insert_unique_spec fst hash key_eq key_eq_hash h (k, v) Hwf)
    as (h' & b & -> & Hwf' & _ & [(-> & Hk & Hel)|(-> & Hk & Hel)]); eexists _, _;
    (split; [done|]); rewrite (yhash_rep_has_key h g) in Hk by done; cbn in Hk.
  - rewrite <- eq_None_not_Some in Hk. rewrite Hk. split; [done|].
    by eapply yhash_rep_insert_new.
  - destruct Hk as [w Hw]. rewrite Hw, insert_id by done. split; [done|].
    split; [done|]. by rewrite Hel.
Qed.

Lemma yhash_rep_clear h g :
  yhash_rep h g → ∃ h', clear h = Ret h' ∧ yhash_rep h' ∅.
Proof.
  intros [Hwf _]. destruct (clear_spec fst hash h Hwf) as (h' & -> & Hwf' & Hel).
  exists h'. split; [done|]. split; [done|]. by rewrite Hel, map_to_list_empty.
Qed.

(** Two tables are equal by [operator==] when they hold the same map, whatever
    their buckets. *)
Lemma yhash_eq_spec (value_eq : T → T → bool) h1 h2 g1 g2 :
  (∀ x y, value_eq x y = true ↔ x = y) → yhash_rep h1 g1 → yhash_rep h2 g2 →
  yhash_eq hash key_eq value_eq h1 h2 = true ↔ g1 = g2.
Proof.
  intros Hv Hr1 Hr2. unfold yhash_eq, size.
  rewrite (yhash_rep_size h1 g1), (yhash_rep_size h2 g2) by done.
  assert (Hall : forallb (λ it1, match yhash_find hash key_eq h2 it1.1 with
      | None => false
      | Some it2 => key_eq it1.1 it2.1 && value_eq it1.2 it2.2
      end) (elements h1) = true ↔ g1 ⊆ g2).
  { rewrite forallb_forall, map_subseteq_spec. split.
    - intros Hall k v Hk. specialize (Hall (k, v)). cbn in Hall.
      rewrite <- list_elem_of_In, (yhash_rep_elem h1 g1), (yhash_rep_find h2 g2) in Hall by done.
      specialize (Hall Hk). destruct (g2 !! k) as [w|]; cbn in Hall; [|done].
      apply andb_true_iff in Hall as [_ ->%Hv]. done.
    - intros Hsub [k v]. rewrite <- list_elem_of_In, (yhash_rep_elem h1 g1) by done. intros Hk%Hsub.
      cbn. rewrite (yhash_rep_find h2 g2), Hk by done. cbn. apply andb_true_iff. split.
      + by apply key_eq_true.
      + by apply Hv. }
  destruct (Z.eqb_spec (Z.of_nat (base.size g1)) (Z.of_nat (base.size g2))) as [Hsz|Hsz]; cbn.
  - rewrite Hall. split; [|by intros ->]. intros Hsub.
    apply Nat2Z.inj in Hsz. apply (map_subseteq_size_eq g1 g2); [done|]. by rewrite Hsz.
  - split; [done|]. by intros ->.
Qed.

(** *** Sequences of operations *)

Inductive map_op : Type :=
| OSubscript (k : K) (value_init : T)        (** [m[k]] *)
| OStore (k : K) (value_init v : T)          (** [m[k] = v] *)
| OInsert (k : K) (v : T)                    (** [m.insert({k, v})] *)
| OErase (k : K)                             (** [m.erase(k)] *)
| OClear.                                    (** [m.clear()] *)

Definition run_op (h : yhash K T) (op : map_op) : outcome (yhash K T) :=
  match op with
  | OSubscript k d => '(h, _) ← yhash_subscript hash key_eq h k d; Ret h
  | OStore k d v => '(h, _) ← yhash_subscript hash key_eq h k d; Ret (yhash_assign hash key_eq h k v)
  | OInsert k v => '(h, _) ← yhash_insert hash key_eq h (k, v); Ret h
  | OErase k => Ret (yhash_erase hash key_eq h k).1
  | OClear => clear h
  end.

(** The same operations on a finite map. *)
Definition spec_op (g : gmap K T) (op : map_op) : gmap K T :=
  match op with
  | OSubscript k d => <[k := default d (g !! k)]> g
  | OStore k d v => <[k := v]> g
  | OInsert k v => <[k := default v (g !! k)]> g
  | OErase k => delete k g
  | OClear => ∅
  end.

Lemma run_op_rep h g op :
  yhash_rep h g → ∃ h', run_op h op = Ret h' ∧ yhash_rep h' (spec_op g op).
Proof.
  intros Hr. destruct op as [k d|k d v|k v|k|]; cbn.
  - destruct (yhash_rep_subscript h g k d Hr) as (h' & -> & Hr'). cbn. eauto.
  - destruct (yhash_rep_subscript h g k d Hr) as (h' & -> & Hr'). cbn.
    eexists. split; [done|]. rewrite <- (insert_insert_eq g k v (default d (g !! k))).
    apply yhash_rep_assign; [done|]. rewrite lookup_insert_eq. eauto.
  - destruct (yhash_rep_insert h g k v Hr) as (h' & b & -> & _ & Hr'). cbn. eauto.
  - destruct (yhash_rep_erase h g k Hr) as (h' & -> & Hr'). eauto.
  - by apply (yhash_rep_clear h g).
Qed.

Lemma run_ops_rep ops :
  ∃ h, mfold run_op yhash_empty ops = Ret h ∧ yhash_rep h (foldl spec_op ∅ ops).
Proof.
  apply (mfold_inv (λ done h, yhash_rep h (foldl spec_op ∅ done))).
  - apply yhash_rep_empty.
  - intros pre op post h _ Hr. rewrite foldl_app. cbn. by apply run_op_rep.
Qed.

(** C28: a [yhash] refines a finite map.  Any sequence of [operator[]], stores
    through it, [insert], [erase] and [clear] on a new table returns; the
    resulting table enumerates exactly the entries the same operations give on a
    finite map, [find] and [at] look the keys up in that map, and [size] is its
    size.  This holds for every hash function. *)
Theorem yhash_refines_map (ops : list map_op) :
  let g := foldl spec_op ∅ ops in
  ∃ h, mfold run_op yhash_empty ops = Ret h ∧
    elements h ≡ₚ map_to_list g ∧ size h = Z.of_nat (base.size g) ∧
    (∀ k, yhash_find hash key_eq h k = pair k <$> g !! k) ∧
    (∀ k, yhash_at hash key_eq h k =
       match g !! k with Some v => Ret v | None => Fail (Throw EKeyNotFound) end).
Proof.
  cbv zeta.
  destruct (run_ops_rep ops) as (h & Hrun & Hr).
  exists h. split_and!; [done|by destruct Hr|by apply yhash_rep_size| |].
  - intros k. by apply yhash_rep_find.
  - intros k. by apply yhash_rep_at.
Qed.

(** [operator==] of two tables compares the maps they hold, whatever the
    order of insertion and the layout of the buckets. *)
Theorem yhash_eq_correct (value_eq : T → T → bool) (ops1 ops2 : list map_op)
    (Hv : ∀ x y, value_eq x y = true ↔ x = y) :
  ∃ h1 h2, mfold run_op yhash_empty ops1 = Ret h1 ∧ mfold run_op yhash_empty ops2 = Ret h2 ∧
    (yhash_eq hash key_eq value_eq h1 h2 = true ↔ foldl spec_op ∅ ops1 = foldl spec_op ∅ ops2).
Proof.
  destruct (run_ops_rep ops1) as (h1 & H1 & Hr1), (run_ops_rep ops2) as (h2 & H2 & Hr2).
  exists h1, h2. split_and!; [done|done|]. by apply yhash_eq_spec.
Qed.

End Refinement.

Example yhash_eq_correct_witness :
  let ops1 := [OStore 1 0 5; OStore 8 0 6; OErase 1; OInsert 15 7] in
  let ops2 := [OInsert 15 7; OSubscript 8 6] in
  foldl spec_op (∅ : gmap Z Z) ops1 = foldl spec_op ∅ ops2 ∧
  ∃ h1 h2, mfold (run_op id) yhash_empty ops1 = Ret h1 ∧
    mfold (run_op id) yhash_empty ops2 = Ret h2 ∧
    (yhash_eq id key_eq Z.eqb h1 h2 = true ↔
      foldl spec_op (∅ : gmap Z Z) ops1 = foldl spec_op ∅ ops2).
Proof.
  split; [by vm_compute|].
  apply (yhash_eq_correct id Z.eqb
    [OStore 1 0 5; OStore 8 0 6; OErase 1; OInsert 15 7] [OInsert 15 7; OSubscript 8 6]).
  exact Z.eqb_eq.
Defined.
