(* ===== verification/Info.v ===== *)
(** * Entropy of finite samples

    The exact values the entropy calculators approximate.  A sample is a list
    [l]; a variable is a function [f] on it.  [cnt l f a] is the number of
    sample points where [f] has the value it has at [a], and [hbits l f] is the
    empirical entropy in bits.  Summing over sample points instead of values
    makes the order of the values irrelevant and turns the conditional mutual
    information into one sum, from which its sign follows by double counting. *)
From Stdlib Require Import Reals Lra.
From S2P Require Import Prelude.

Open Scope R_scope.

(** ** Sums over lists *)

Fixpoint rsum {A} (g : A → R) (l : list A) : R :=
  match l with
  | [] => 0
  | a :: l => g a + rsum g l
  end.

Lemma rsum_app {A} (g : A → R) l k : rsum g (l ++ k) = rsum g l + rsum g k.
Proof. induction l as [|a l IH]; cbn; [lra|]. rewrite IH. lra. Qed.

Lemma rsum_ext {A} (g h : A → R) l : (∀ a, a ∈ l → g a = h a) → rsum g l = rsum h l.
Proof.
  induction l as [|a l IH]; intros Hg; cbn; [done|].
  rewrite Hg by set_solver. rewrite IH; [done|]. set_solver.
Qed.

Lemma rsum_le {A} (g h : A → R) l : (∀ a, a ∈ l → g a <= h a) → rsum g l <= rsum h l.
Proof.
  induction l as [|a l IH]; intros Hg; cbn; [lra|].
  apply Rplus_le_compat; [apply Hg; set_solver|]. apply IH. set_solver.
Qed.

Lemma rsum_scal {A} c (g : A → R) l : rsum (λ a, c * g a) l = c * rsum g l.
Proof. induction l as [|a l IH]; cbn; [lra|]. rewrite IH. lra. Qed.

Lemma rsum_plus {A} (g h : A → R) l : rsum (λ a, g a + h a) l = rsum g l + rsum h l.
Proof. induction l as [|a l IH]; cbn; [lra|]. rewrite IH. lra. Qed.

Lemma rsum_const {A} c (l : list A) : rsum (λ _, c) l = c * INR (length l).
Proof. induction l as [|a l IH]; cbn [rsum length]; [cbn; lra|]. rewrite IH, S_INR. lra. Qed.

Lemma rsum_0 {A} (g : A → R) l : (∀ a, a ∈ l → g a = 0) → rsum g l = 0.
Proof. intros Hg. rewrite (rsum_ext _ (λ _, 0)), rsum_const by done. lra. Qed.

Lemma rsum_swap {A B} (g : A → B → R) l k :
  rsum (λ a, rsum (g a) k) l = rsum (λ b, rsum (λ a, g a b) l) k.
Proof.
  induction l as [|a l IH]; cbn; [by rewrite rsum_const, Rmult_0_l|].
  by rewrite IH, <- rsum_plus.
Qed.

Lemma rsum_fmap {A B} (f : A → B) (g : B → R) l : rsum g (f <$> l) = rsum (λ a, g (f a)) l.
Proof. induction l as [|a l IH]; cbn; [done|]. by rewrite IH. Qed.

Lemma rsum_product {A B} (g : A → R) (h : B → R) l k c :
  rsum g l * rsum h k * c = rsum (λ a, rsum (λ b, g a * h b * c) k) l.
Proof.
  induction l as [|a l IH]; cbn; [lra|]. rewrite <- IH.
  rewrite (rsum_ext (λ b, g a * h b * c) (λ b, (g a * c) * h b)) by (intros; lra).
  rewrite rsum_scal. lra.
Qed.

#[export] Instance rsum_perm {A} (g : A → R) : Proper (Permutation ==> eq) (rsum g).
Proof.
  intros l k. induction 1; cbn; [done|congruence|lra|congruence].
Qed.

(** The indicator of a decidable property, and counting by summing it. *)
Definition ind (P : Prop) `{Decision P} : R := if decide P then 1 else 0.

Lemma ind_cases P `{Decision P} : P ∧ ind P = 1 ∨ ¬ P ∧ ind P = 0.
Proof. unfold ind. case_decide; auto. Qed.

Lemma ind_iff P Q `{Decision P, Decision Q} : (P ↔ Q) → ind P = ind Q.
Proof. intros HPQ. destruct (ind_cases P) as [[? ->]|[? ->]], (ind_cases Q) as [[? ->]|[? ->]]; tauto. Qed.

Lemma ind_bounds P `{Decision P} : 0 <= ind P <= 1.
Proof. destruct (ind_cases P) as [[_ ->]|[_ ->]]; lra. Qed.

Lemma rsum_ind {A} (P : A → Prop) `{!∀ a, Decision (P a)} l :
  rsum (λ a, ind (P a)) l = INR (length (filter P l)).
Proof.
  induction l as [|a l IH]; [done|]. cbn [rsum]. rewrite filter_cons, IH. unfold ind.
  case_decide; cbn [length]; [rewrite S_INR|]; lra.
Qed.

(** One element of a duplicate-free list. *)
Lemma rsum_ind_eq {A} `{EqDecision A} (g : A → R) a l :
  NoDup l → rsum (λ b, ind (a = b) * g b) l = ind (a ∈ l) * g a.
Proof.
  induction 1 as [|b l Hb Hl IH]; cbn.
  - destruct (ind_cases (a ∈ [])) as [[Hin _]|[_ ->]]; [by apply elem_of_nil in Hin|lra].
  - rewrite IH. destruct (ind_cases (a = b)) as [[<- ->]|[Hne ->]].
    + destruct (ind_cases (a ∈ l)) as [[? _]|[_ ->]]; [done|].
      destruct (ind_cases (a ∈ a :: l)) as [[_ ->]|[Hn _]]; [lra|]. destruct Hn. by left.
    + rewrite (ind_iff (a ∈ b :: l) (a ∈ l)) by (rewrite elem_of_cons; naive_solver). lra.
Qed.

(** ** Counts and entropy *)

Section Info.
  Context {A : Type}.

Definition cnt {K} `{EqDecision K} (l : list A) (f : A → K) (k : K) : R :=
  rsum (λ a, ind (f a = k)) l.

(** [log2] *)
Definition log2 (x : R) : R := ln x / ln 2.

Definition hbits {K} `{EqDecision K} (l : list A) (f : A → K) : R :=
  - rsum (λ a, log2 (cnt l f (f a) / INR (length l))) l / INR (length l).

End Info.

Section InfoFacts.
  Context {A : Type} (l : list A).
  Local Abbreviation n := (INR (length l)).

Lemma cnt_pos {K} `{EqDecision K} (f : A → K) a : a ∈ l → 1 <= cnt l f (f a).
Proof.
  intros Ha. unfold cnt. rewrite rsum_ind.
  assert (1 <= length (filter (λ b, f b = f a) l))%nat as Hlen.
  { destruct (filter _ l) as [|x k] eqn:Hf; [|cbn; lia]. exfalso.
    assert (a ∈ filter (λ b, f b = f a) l) as Hin by (by apply list_elem_of_filter).
    rewrite Hf in Hin. by apply elem_of_nil in Hin. }
  apply le_INR in Hlen. done.
Qed.

Lemma cnt_le_length {K} `{EqDecision K} (f : A → K) k : cnt l f k <= n.
Proof.
  unfold cnt. rewrite <- (Rmult_1_l n), <- rsum_const. apply rsum_le. intros a _.
  apply ind_bounds.
Qed.

Lemma cnt_le {K L} `{EqDecision K, EqDecision L} (f : A → K) (g : A → L) a :
  (∀ b, f b = f a → g b = g a) → cnt l f (f a) <= cnt l g (g a).
Proof.
  intros Hfg. apply rsum_le. intros b _.
  destruct (ind_cases (f b = f a)) as [[Hf ->]|[_ ->]]; [|apply ind_bounds].
  unfold ind. rewrite decide_True by auto. lra.
Qed.

Lemma length_pos a : a ∈ l → 1 <= n.
Proof. intros Ha. destruct l as [|b k]; [by apply elem_of_nil in Ha|]. cbn [length]. rewrite S_INR. pose proof (pos_INR (length k)). lra. Qed.

(** The entropy depends only on which sample points a variable identifies. *)
Lemma hbits_kernel {K L} `{EqDecision K, EqDecision L} (f : A → K) (g : A → L) :
  (∀ a b, a ∈ l → b ∈ l → f a = f b ↔ g a = g b) → hbits l f = hbits l g.
Proof.
  intros Hk. unfold hbits. f_equal. f_equal. apply rsum_ext. intros a Ha. f_equal. f_equal.
  apply rsum_ext. intros b Hb. by apply ind_iff, Hk.
Qed.

(** *** Bounds of the entropy *)

Lemma ln2_pos : 0 < ln 2.
Proof. apply (Rlt_trans _ (/ 2)); [lra|apply ln_lt_2]. Qed.

Lemma log2_le x y : 0 < x → x <= y → log2 x <= log2 y.
Proof.
  intros Hx Hxy. unfold log2. apply Rmult_le_compat_r.
  - pose proof ln2_pos. left. by apply Rinv_0_lt_compat.
  - destruct Hxy as [Hlt| ->]; [left; by apply ln_increasing|lra].
Qed.

Lemma log2_1 : log2 1 = 0.
Proof. unfold log2. rewrite ln_1. lra. Qed.

Lemma log2_div x y : 0 < x → 0 < y → log2 (x / y) = log2 x - log2 y.
Proof.
  intros. unfold log2, Rdiv. rewrite ln_mult, ln_Rinv by (done || by apply Rinv_0_lt_compat). lra.
Qed.

Lemma cnt_frac {K} `{EqDecision K} (f : A → K) a : a ∈ l →
  0 < cnt l f (f a) ∧ 0 < n.
Proof. intros Ha. pose proof (cnt_pos f a Ha). pose proof (length_pos a Ha). lra. Qed.

(** The entropy as a difference of logarithms. *)
Lemma hbits_alt {K} `{EqDecision K} (f : A → K) :
  l ≠ [] → hbits l f = log2 n - rsum (λ a, log2 (cnt l f (f a))) l / n.
Proof.
  intros Hl. unfold hbits.
  assert (0 < n) as Hn.
  { assert (∃ a, a ∈ l) as [a Ha] by (destruct l as [|a k]; [done|exists a; left]).
    pose proof (length_pos a Ha). lra. }
  rewrite (rsum_ext _ (λ a, log2 (cnt l f (f a)) + (- log2 n))).
  - rewrite rsum_plus, rsum_const. field. lra.
  - intros a Ha. destruct (cnt_frac f a Ha). rewrite log2_div by done. lra.
Qed.

Lemma sample_nonempty a : a ∈ l → l ≠ [].
Proof. intros Ha ->. by apply elem_of_nil in Ha. Qed.

Lemma hbits_nil {K} `{EqDecision K} (f : A → K) : l = [] → hbits l f = 0.
Proof. intros ->. unfold hbits; cbn. lra. Qed.

Lemma n_pos : l ≠ [] → 0 < n.
Proof. intros Hl. apply lt_0_INR. destruct l; [done|cbn; lia]. Qed.

(** A finer variable has more entropy. *)
Lemma hbits_le {K L} `{EqDecision K, EqDecision L} (f : A → K) (g : A → L) :
  (∀ a b, f a = f b → g a = g b) → hbits l g <= hbits l f.
Proof.
  intros Hfg. destruct (decide (l = [])) as [Hl|Hl]; [rewrite !hbits_nil by done; lra|].
  rewrite !hbits_alt by done. pose proof (n_pos Hl).
  assert (rsum (λ a, log2 (cnt l f (f a))) l <= rsum (λ a, log2 (cnt l g (g a))) l) as Hle.
  { apply rsum_le. intros a Ha. apply log2_le; [by apply cnt_frac|]. apply cnt_le. auto. }
  apply (Rmult_le_compat_r (/ n)) in Hle; [|left; by apply Rinv_0_lt_compat]. unfold Rdiv. lra.
Qed.

Lemma hbits_const : hbits l (λ _, ()) = 0.
Proof.
  destruct (decide (l = [])) as [Hl|Hl]; [by apply hbits_nil|]. rewrite hbits_alt by done.
  rewrite (rsum_ext _ (λ _, log2 n)), rsum_const; [field; pose proof (n_pos Hl); lra|].
  intros a _. f_equal. unfold cnt. rewrite (rsum_ext _ (λ _, 1)), rsum_const; [lra|].
  intros b _. unfold ind. by rewrite decide_True.
Qed.

Lemma hbits_nonneg {K} `{EqDecision K} (f : A → K) : 0 <= hbits l f.
Proof. rewrite <- hbits_const. by apply hbits_le. Qed.

Lemma hbits_le_log {K} `{EqDecision K} (f : A → K) : l ≠ [] → hbits l f <= log2 n.
Proof.
  intros Hl. rewrite hbits_alt by done. pose proof (n_pos Hl).
  assert (0 <= rsum (λ a, log2 (cnt l f (f a))) l / n); [|lra].
  apply Rmult_le_pos; [|left; by apply Rinv_0_lt_compat].
  rewrite <- (rsum_0 (λ _, 0) l) by done. apply rsum_le. intros a Ha.
  rewrite <- log2_1. apply log2_le; [lra|by apply cnt_pos].
Qed.

(** Summing over the values of a variable instead of the sample points. *)
Lemma rsum_grouped {K} `{EqDecision K} (f : A → K) (g : K → R) (ks : list K) :
  NoDup ks → (∀ a, a ∈ l → f a ∈ ks) →
  rsum (λ k, cnt l f k * g k) ks = rsum (λ a, g (f a)) l.
Proof.
  intros Hnd Hks. unfold cnt.
  rewrite (rsum_ext _ (λ k, rsum (λ a, ind (f a = k) * g k) l)).
  - rewrite rsum_swap. apply rsum_ext. intros a Ha.
    rewrite (rsum_ind_eq g (f a)) by done. unfold ind. rewrite decide_True by auto. lra.
  - intros k _. rewrite Rmult_comm, <- rsum_scal. apply rsum_ext. intros a _. lra.
Qed.

(** ** Conditional mutual information *)

Section Cmi.
  Context {X Y Z : Type} `{EqDecision X, EqDecision Y, EqDecision Z}.
  Variables (x : A → X) (y : A → Y) (z : A → Z).

  Local Abbreviation xz := (λ a, (x a, z a)).
  Local Abbreviation yz := (λ a, (y a, z a)).
  Local Abbreviation xyz := (λ a, (x a, y a, z a)).

(** [I(x; y | z)] in bits. *)
Definition cmi : R := hbits l xz - hbits l z - hbits l xyz + hbits l yz.

Lemma cmi_le_log : l ≠ [] → cmi <= log2 n.
Proof.
  intros Hl. unfold cmi.
  assert (hbits l yz <= hbits l xyz) by (apply hbits_le; intros; simplify_eq; congruence).
  pose proof (hbits_nonneg z). pose proof (hbits_le_log xz Hl). lra.
Qed.

(** Given [j] and [k] with the same [z], the sample points that have the [x] of
    [j] and the [y] of [k] form at most one class of [xyz], which contributes at
    most 1. *)
Lemma class_sum j k : z j = z k →
  rsum (λ i, ind (xz i = xz j) * ind (yz i = yz k) / cnt l xyz (xyz i)) l <= 1.
Proof.
  intros Hz. set (c := cnt l xyz (x j, y k, z j)).
  rewrite (rsum_ext _ (λ i, / c * ind (xyz i = (x j, y k, z j)))).
  - rewrite rsum_scal. apply (Rle_trans _ (/ c * c)); [right; reflexivity|].
    destruct (Req_dec c 0) as [Hc|Hc]; [rewrite Hc, Rmult_0_r; lra|]. rewrite Rinv_l by done. lra.
  - intros i _. destruct (ind_cases (xyz i = (x j, y k, z j))) as [[Heq ->]|[Hne ->]].
    + rewrite Heq. fold c. unfold ind. rewrite !decide_True by congruence. unfold Rdiv. lra.
    + destruct (ind_cases (xz i = xz j)) as [[? ->]|[_ ->]]; [|unfold Rdiv; lra].
      destruct (ind_cases (yz i = yz k)) as [[? ->]|[_ ->]]; [|unfold Rdiv; lra].
      exfalso. apply Hne. congruence.
Qed.

(** The double counting: the ratio of the counts sums to at most the size of the
    sample. *)
Lemma ratio_sum :
  rsum (λ i, cnt l xz (xz i) * cnt l yz (yz i) / (cnt l z (z i) * cnt l xyz (xyz i))) l <= n.
Proof.
  rewrite (rsum_ext _ (λ i, rsum (λ j, rsum (λ k,
      ind (z j = z k) / cnt l z (z j) *
      (ind (xz i = xz j) * ind (yz i = yz k) / cnt l xyz (xyz i))) l) l)).
  2: { intros i Hi. unfold cnt at 1 2.
    rewrite (rsum_ext (λ a, ind (xz a = xz i)) (λ a, ind (xz i = xz a))) by (intros; by apply ind_iff).
    rewrite (rsum_ext (λ a, ind (yz a = yz i)) (λ a, ind (yz i = yz a))) by (intros; by apply ind_iff).
    unfold Rdiv. rewrite rsum_product. apply rsum_ext. intros j Hj. apply rsum_ext. intros k Hk.
    destruct (ind_cases (xz i = xz j)) as [[Hxz ->]|[_ ->]]; [|lra].
    destruct (ind_cases (yz i = yz k)) as [[Hyz ->]|[_ ->]]; [|lra].
    unfold ind. rewrite decide_True by congruence. replace (z j) with (z i) by congruence.
    rewrite Rinv_mult. lra. }
  rewrite rsum_swap. rewrite <- (Rmult_1_l n), <- rsum_const. apply rsum_le. intros j Hj.
  rewrite rsum_swap.
  apply Rle_trans with (rsum (λ k, ind (z j = z k) * / cnt l z (z j)) l).
  - apply rsum_le. intros k Hk. cbv beta.
    rewrite rsum_scal. destruct (ind_cases (z j = z k)) as [[Hz ->]|[_ ->]]; [|unfold Rdiv; lra].
    pose proof (class_sum j k Hz). pose proof (cnt_pos z j Hj).
    assert (0 < / cnt l z (z j)) by (apply Rinv_0_lt_compat; lra). unfold Rdiv in *.
    rewrite !Rmult_1_l. rewrite <- (Rmult_1_r (/ cnt l z (z j))) at 2.
    apply Rmult_le_compat_l; lra.
  - rewrite (rsum_ext _ (λ k, / cnt l z (z j) * ind (z k = z j))).
    + rewrite rsum_scal. fold (cnt l z (z j)). pose proof (cnt_pos z j Hj). rewrite Rinv_l; lra.
    + intros k _. rewrite (ind_iff (z j = z k) (z k = z j)) by done. lra.
Qed.

(** The conditional mutual information of a sample is not negative. *)
Lemma cmi_nonneg : 0 <= cmi.
Proof.
  destruct (decide (l = [])) as [Hl|Hl]; [unfold cmi; rewrite !hbits_nil by done; lra|].
  pose proof (n_pos Hl) as Hn. pose proof ln2_pos as H2. pose proof ratio_sum as Hr.
  unfold cmi. rewrite !hbits_alt by done.
  set (t := λ i, cnt l xz (xz i) * cnt l yz (yz i) / (cnt l z (z i) * cnt l xyz (xyz i))) in Hr.
  assert (Hlog : rsum (λ a, log2 (cnt l xz (xz a))) l - rsum (λ a, log2 (cnt l z (z a))) l
      - rsum (λ a, log2 (cnt l xyz (xyz a))) l + rsum (λ a, log2 (cnt l yz (yz a))) l
      <= / ln 2 * (rsum t l - n)).
  { replace (rsum t l - n) with (rsum (λ a, t a + (-1)) l) by (rewrite rsum_plus, rsum_const; lra).
    rewrite <- rsum_scal.
    replace (_ - _ - _ + _) with (rsum (λ a, log2 (cnt l xz (xz a)) + (-1) * log2 (cnt l z (z a)) +
      ((-1) * log2 (cnt l xyz (xyz a)) + log2 (cnt l yz (yz a)))) l)
      by (rewrite !rsum_plus, !rsum_scal; lra).
    apply rsum_le. intros a Ha.
    destruct (cnt_frac xz a Ha) as [Hxz _], (cnt_frac yz a Ha) as [Hyz _],
      (cnt_frac z a Ha) as [Hz _], (cnt_frac xyz a Ha) as [Hxyz _].
    assert (Ht : ln (t a) = ln (cnt l xz (xz a)) + ln (cnt l yz (yz a)) -
      ln (cnt l z (z a)) - ln (cnt l xyz (xyz a))).
    { unfold t, Rdiv. rewrite ln_mult, ln_Rinv, !ln_mult; try lra; try by apply Rmult_lt_0_compat.
      apply Rinv_0_lt_compat. by apply Rmult_lt_0_compat. }
    assert (Hle : ln (t a) <= t a + (-1)).
    { assert (0 < t a) as Hpos.
      { unfold t. apply Rdiv_lt_0_compat; by apply Rmult_lt_0_compat. }
      pose proof (exp_ineq1_le (ln (t a))) as He. rewrite exp_ln in He by done. lra. }
    apply (Rmult_le_compat_l (/ ln 2)) in Hle; [|left; by apply Rinv_0_lt_compat].
    rewrite Ht in Hle. unfold log2, Rdiv. lra. }
  assert (/ ln 2 * (rsum t l - n) <= 0) as H0.
  { assert (0 < / ln 2) by by apply Rinv_0_lt_compat.
    rewrite <- (Rmult_0_r (/ ln 2)). apply Rmult_le_compat_l; lra. }
  assert (Hdiv : (rsum (λ a, log2 (cnt l xz (xz a))) l - rsum (λ a, log2 (cnt l z (z a))) l
      - rsum (λ a, log2 (cnt l xyz (xyz a))) l + rsum (λ a, log2 (cnt l yz (yz a))) l) * / n <= 0).
  { rewrite <- (Rmult_0_l (/ n)). apply Rmult_le_compat_r; [left; by apply Rinv_0_lt_compat|lra]. }
  unfold Rdiv. lra.
Qed.

End Cmi.

End InfoFacts.

Arguments cmi {A} l {X Y Z _ _ _} x y z.

(** ** Relabelling the sample *)

Lemma cnt_fmap {A B K} `{EqDecision K} (h : B → A) (f : A → K) (l : list B) k :
  cnt (h <$> l) f k = cnt l (λ b, f (h b)) k.
Proof. unfold cnt. by rewrite rsum_fmap. Qed.

Lemma hbits_fmap {A B K} `{EqDecision K} (h : B → A) (f : A → K) (l : list B) :
  hbits (h <$> l) f = hbits l (λ b, f (h b)).
Proof.
  unfold hbits. rewrite rsum_fmap, length_fmap. f_equal. f_equal. apply rsum_ext.
  intros b _. by rewrite cnt_fmap.
Qed.
