(* ===== verification/BinFeatureSet.v ===== *)
(** * Sets of binary features: [cmicot/lib/bin.h], [cmicot/lib/bin_feature_set.h/.cpp]

    A binarised feature is a group of consecutive bins.  [TBinFeatureSet] stores
    the bins of all features in one vector and the index where each feature
    starts; [TBackground] is a set of enabled bins over it.

    [rep s fs] relates a set to the list of features it stands for; every
    observer is specified against that list. *)
From stdpp Require Import gmap.
From S2P Require Import Prelude XRange Algorithm.

(** [TBin] *)
Abbreviation TBin := (list bool).

(** ** [TBinFeatureSet] *)

Record TBinFeatureSet : Type := {
  Bins : list TBin;
  FeatureStart : list Z;
}.

(** [TBinFeatureSet()] and [TBinFeatureSet(bins)] *)
Definition feature_set_empty : TBinFeatureSet := {| Bins := []; FeatureStart := [] |}.
Definition feature_set_of_bins (bins : list TBin) : TBinFeatureSet :=
  {| Bins := bins; FeatureStart := [0] |}.

Definition GetFeatureCount (s : TBinFeatureSet) : Z := vsize (FeatureStart s).
Definition GetBinCount (s : TBinFeatureSet) : Z := vsize (Bins s).

(** [AddFeature(feature)]: the set and the index of the new feature. *)
Definition AddFeature (s : TBinFeatureSet) (feature : list TBin) : TBinFeatureSet * Z :=
  let s := {| Bins := Bins s ++ feature;
              FeatureStart := FeatureStart s ++ [vsize (Bins s)] |} in
  (s, GetFeatureCount s - 1).

(** [Y_ENSURE_EX(0 <= index && index < count, TRangeEx())] *)
Definition ensure_range (index count : Z) : outcome () :=
  ensure ((0 <=? index) && (index <? count)) (ERange index count).

Definition GetBin (s : TBinFeatureSet) (index : Z) : outcome TBin :=
  _ ← ensure_range index (GetBinCount s);
  vat (Bins s) index.

(** [yvector<T>(begin, end)] of iterators of a vector. *)
Definition vslice {A} (l : list A) (b e : Z) : outcome (list A) :=
  if (0 <=? b) && (b <=? e) && (e <=? vsize l)
  then Ret (take (Z.to_nat (e - b)) (drop (Z.to_nat b) l))
  else Fail (Undef (UIndex e (vsize l))).

Definition GetFeature (s : TBinFeatureSet) (index : Z) : outcome (list TBin) :=
  _ ← ensure_range index (GetFeatureCount s);
  b ← vat (FeatureStart s) index;
  e ← (if index <? vsize (FeatureStart s) - 1
       then vat (FeatureStart s) (index + 1) else Ret (vsize (Bins s)));
  vslice (Bins s) b e.

Definition GetFeatureIndexByBinIndex (s : TBinFeatureSet) (bin_index : Z) : outcome Z :=
  _ ← ensure_range bin_index (GetBinCount s);
  p ← LowerBound Z.ltb (FeatureStart s) (bin_index + 1);
  Ret (p - 1).

Definition GetFeatureBinIndexes (s : TBinFeatureSet) (index : Z) : outcome TSimpleXRange :=
  _ ← ensure_range index (GetFeatureCount s);
  b ← vat (FeatureStart s) index;
  e ← (if index <? vsize (FeatureStart s) - 1
       then vat (FeatureStart s) (index + 1) else Ret (GetBinCount s));
  Ret (simple_range b e).

(** [AllBinIndexes()] *)
Definition AllBinIndexes (s : TBinFeatureSet) : list Z := xrange (vsize (Bins s)).

(** ** [TBackground]

    The pointer to the feature set is to a set that does not change while the
    background lives. *)

Record TBackground : Type := {
  Features : TBinFeatureSet;
  IsBinEnabled : list bool;
  LastEnabledBins : Z * Z;
}.

(** [TBackground(features)] *)
Definition background (features : TBinFeatureSet) : TBackground :=
  {| Features := features;
     IsBinEnabled := replicate (Z.to_nat (GetBinCount features)) true;
     LastEnabledBins := (0, 0) |}.

Definition SetFeatureEnabled (bg : TBackground) (index : Z) (enabled : bool) : outcome TBackground :=
  _ ← ensure_range index (GetFeatureCount (Features bg));
  index_range ← GetFeatureBinIndexes (Features bg) index;
  flags ← vfill (IsBinEnabled bg) (simple_begin index_range) (simple_end index_range) enabled;
  Ret {| Features := Features bg;
         IsBinEnabled := flags;
         LastEnabledBins :=
           if enabled then (simple_begin index_range, simple_end index_range)
           else LastEnabledBins bg |}.

Definition SetBinEnabled (bg : TBackground) (index : Z) (enabled : bool) : outcome TBackground :=
  _ ← ensure_range index (GetBinCount (Features bg));
  flags ← vset (IsBinEnabled bg) index enabled;
  Ret {| Features := Features bg;
         IsBinEnabled := flags;
         LastEnabledBins := if enabled then (index, index + 1) else LastEnabledBins bg |}.

(** The indexes [i] of [xrange(IsBinEnabled.size())] whose flag is [flag], in
    order. *)
Definition bins_with_flag (flag : bool) (bg : TBackground) : list Z :=
  filter (λ i, IsBinEnabled bg !! Z.to_nat i = Some flag) (xrange (vsize (IsBinEnabled bg))).

Definition EnabledBinIndexes (bg : TBackground) : list Z := bins_with_flag true bg.
Definition DisabledBinIndexes (bg : TBackground) : list Z := bins_with_flag false bg.

Definition EnabledBins (bg : TBackground) : outcome (list TBin) :=
  mmap (GetBin (Features bg)) (EnabledBinIndexes bg).

(** [DisableAll()] and [EnabledAll()] *)
Definition fill_all (flag : bool) (bg : TBackground) : TBackground :=
  {| Features := Features bg;
     IsBinEnabled := fill_range (IsBinEnabled bg) 0 (vsize (IsBinEnabled bg)) flag;
     LastEnabledBins := LastEnabledBins bg |}.
Definition DisableAll (bg : TBackground) : TBackground := fill_all false bg.
Definition EnabledAll (bg : TBackground) : TBackground := fill_all true bg.

Definition IsFeatureEnabled (bg : TBackground) (index : Z) : outcome bool :=
  _ ← ensure_range index (GetFeatureCount (Features bg));
  index_range ← GetFeatureBinIndexes (Features bg) index;
  flags ← vslice (IsBinEnabled bg) (simple_begin index_range) (simple_end index_range);
  Ret (AllOf flags (λ enabled, enabled)).

(** The loop of [EnabledFeatureIndexes]. *)
Definition EnabledFeatureIndexes (bg : TBackground) : outcome (list Z) :=
  mfold (λ (result : list Z) (i : Z), enabled ← IsFeatureEnabled bg i;
         Ret (if enabled : bool then result ++ [i] else result))
    [] (xrange (GetFeatureCount (Features bg))).

Definition LastEnabled (bg : TBackground) : outcome TBackground :=
  let result := DisableAll (background (Features bg)) in
  flags ← vfill (IsBinEnabled result) (LastEnabledBins bg).1 (LastEnabledBins bg).2 true;
  Ret {| Features := Features result;
         IsBinEnabled := flags;
         LastEnabledBins := LastEnabledBins result |}.

(** ** The features a set stands for *)

(** The starts of consecutive features, the first one at [n]. *)
Fixpoint starts (n : Z) (fs : list (list TBin)) : list Z :=
  match fs with
  | [] => []
  | f :: fs => n :: starts (n + vsize f) fs
  end.

Definition rep (s : TBinFeatureSet) (fs : list (list TBin)) : Prop :=
  Bins s = concat fs ∧ FeatureStart s = starts 0 fs.

(** The index of the first bin of a feature. *)
Definition fstart (fs : list (list TBin)) (i : Z) : Z := vsize (concat (take (Z.to_nat i) fs)).

Lemma fstart_0 fs : fstart fs 0 = 0.
Proof. reflexivity. Qed.

Lemma fstart_nonneg fs i : 0 ≤ fstart fs i.
Proof. apply vsize_nonneg. Qed.

Lemma fstart_end fs i : vsize fs ≤ i → fstart fs i = vsize (concat fs).
Proof. intros. unfold fstart. rewrite take_ge; [done|]. vlia. Qed.

Lemma fstart_S fs i f : 0 ≤ i → fs !! Z.to_nat i = Some f → fstart fs (i + 1) = fstart fs i + vsize f.
Proof.
  intros Hi Hf. unfold fstart. rewrite Z2Nat.inj_add by lia. rewrite Nat.add_1_r.
  by rewrite (take_S_r _ _ f), concat_app, vsize_app by done; cbn; rewrite app_nil_r.
Qed.

Lemma fstart_mono fs i j : i ≤ j → fstart fs i ≤ fstart fs j.
Proof.
  intros Hij. unfold fstart.
  replace (Z.to_nat i) with (Nat.min (Z.to_nat i) (Z.to_nat j)) by lia.
  rewrite <- take_take. rewrite <- (take_drop (Z.to_nat i) (take (Z.to_nat j) fs)) at 2.
  rewrite concat_app, vsize_app. pose proof (vsize_nonneg (concat (drop (Z.to_nat i) (take (Z.to_nat j) fs)))).
  lia.
Qed.

Lemma fstart_le_size fs i : fstart fs i ≤ vsize (concat fs).
Proof.
  destruct (Z.le_gt_cases (vsize fs) i).
  - by rewrite fstart_end.
  - rewrite <- (fstart_end fs (vsize fs)) by lia. apply fstart_mono. lia.
Qed.

Lemma length_starts n fs : length (starts n fs) = length fs.
Proof. revert n. induction fs as [|f fs IH]; intros n; cbn; [done|]. by rewrite IH. Qed.

Lemma vsize_starts n fs : vsize (starts n fs) = vsize fs.
Proof. unfold vsize. by rewrite length_starts. Qed.

Lemma starts_lookup n fs i :
  (i < length fs)%nat → starts n fs !! i = Some (n + fstart fs (Z.of_nat i)).
Proof.
  unfold fstart. rewrite Nat2Z.id.
  revert n i. induction fs as [|f fs IH]; intros n i Hi; cbn in Hi; [lia|].
  destruct i as [|i]; cbn; [f_equal; vlia|].
  rewrite IH by lia. f_equal. rewrite vsize_app. lia.
Qed.

Lemma starts_app n fs gs : starts n (fs ++ gs) = starts n fs ++ starts (n + vsize (concat fs)) gs.
Proof.
  revert n. induction fs as [|f fs IH]; intros n; cbn.
  - by rewrite vsize_nil, Z.add_0_r.
  - by rewrite IH, vsize_app, Z.add_assoc.
Qed.

Section Rep.
  Context (s : TBinFeatureSet) (fs : list (list TBin)) (Hrep : rep s fs).

Lemma rep_feature_count : GetFeatureCount s = vsize fs.
Proof. unfold GetFeatureCount. destruct Hrep as [_ ->]. apply vsize_starts. Qed.

Lemma rep_bin_count : GetBinCount s = vsize (concat fs).
Proof. unfold GetBinCount. by destruct Hrep as [-> _]. Qed.

Lemma rep_start i : 0 ≤ i < vsize fs → vat (FeatureStart s) i = Ret (fstart fs i).
Proof.
  intros Hi. apply vat_Ret. split; [lia|]. destruct Hrep as [_ ->].
  rewrite starts_lookup by vlia. by rewrite Z2Nat.id by lia.
Qed.

(** The end of a feature, as [GetFeature] and [GetFeatureBinIndexes] compute it. *)
Lemma rep_finish i : 0 ≤ i < vsize fs →
  (if i <? vsize (FeatureStart s) - 1 then vat (FeatureStart s) (i + 1)
   else Ret (GetBinCount s)) = Ret (fstart fs (i + 1)).
Proof.
  intros Hi. pose proof rep_feature_count as Hc. unfold GetFeatureCount in Hc.
  destruct (Z.ltb_spec i (vsize (FeatureStart s) - 1)); [apply rep_start; lia|].
  rewrite rep_bin_count, (fstart_end fs); [done|lia].
Qed.

Lemma ensure_range_Ret i n : 0 ≤ i < n → ensure_range i n = Ret ().
Proof. intros. unfold ensure_range. by rewrite (proj2 (Z.leb_le 0 i)), (proj2 (Z.ltb_lt i n)) by lia. Qed.

Lemma ensure_range_Throw i n : ¬ 0 ≤ i < n → ensure_range i n = Fail (Throw (ERange i n)).
Proof.
  intros. unfold ensure_range.
  destruct (Z.leb_spec 0 i), (Z.ltb_spec i n); try done; lia.
Qed.

Lemma rep_bin_indexes i : 0 ≤ i < vsize fs →
  GetFeatureBinIndexes s i = Ret (simple_range (fstart fs i) (fstart fs (i + 1))).
Proof.
  intros Hi. unfold GetFeatureBinIndexes.
  rewrite rep_feature_count, ensure_range_Ret, (rep_start i) by done. cbn.
  by rewrite rep_finish.
Qed.

Lemma simple_range_fstart i :
  simple_begin (simple_range (fstart fs i) (fstart fs (i + 1))) = fstart fs i ∧
  simple_end (simple_range (fstart fs i) (fstart fs (i + 1))) = fstart fs (i + 1).
Proof.
  unfold simple_begin, simple_end; cbn. pose proof (fstart_mono fs i (i + 1)). lia.
Qed.

Lemma rep_bin b : 0 ≤ b < vsize (concat fs) → ∃ bin, GetBin s b = Ret bin ∧ concat fs !! Z.to_nat b = Some bin.
Proof.
  intros Hb. unfold GetBin. rewrite rep_bin_count, ensure_range_Ret by done. cbn.
  destruct Hrep as [-> _]. by apply vat_in_range.
Qed.

Lemma rep_feature i f : 0 ≤ i → fs !! Z.to_nat i = Some f → GetFeature s i = Ret f.
Proof.
  intros Hi Hf. assert (Hlt : 0 ≤ i < vsize fs) by (apply lookup_lt_Some in Hf; vlia).
  unfold GetFeature. rewrite rep_feature_count, ensure_range_Ret, (rep_start i) by done. cbn.
  change (vsize (Bins s)) with (GetBinCount s). rewrite rep_finish by done. cbn.
  unfold vslice. change (vsize (Bins s)) with (GetBinCount s). rewrite rep_bin_count.
  pose proof (fstart_nonneg fs i). pose proof (fstart_mono fs i (i + 1)).
  pose proof (fstart_le_size fs (i + 1)).
  rewrite !(proj2 (Z.leb_le _ _)) by lia. cbn. f_equal.
  rewrite (fstart_S fs i f) by done. destruct Hrep as [-> _].
  replace (fstart fs i + vsize f - fstart fs i) with (vsize f) by lia.
  rewrite <- (take_drop_middle fs (Z.to_nat i) f Hf) at 2.
  rewrite concat_app. cbn. unfold fstart, vsize.
  by rewrite !Nat2Z.id, drop_app_length, take_app_length.
Qed.

(** The feature of a bin: the last one that starts at or before it. *)
Lemma rep_feature_of_bin b : 0 ≤ b < vsize (concat fs) →
  ∃ i, GetFeatureIndexByBinIndex s b = Ret i ∧ 0 ≤ i < vsize fs ∧
    fstart fs i ≤ b < fstart fs (i + 1).
Proof.
  intros Hb. unfold GetFeatureIndexByBinIndex.
  rewrite rep_bin_count, ensure_range_Ret by done. cbn.
  pose proof rep_feature_count as Hc. unfold GetFeatureCount in Hc.
  assert (Hn : 0 < vsize fs) by (destruct fs; [cbn in Hb|]; vlia).
  assert (Hl : ∀ j x, 0 ≤ j < vsize fs → FeatureStart s !! Z.to_nat j = Some x → x = fstart fs j).
  { intros j x Hj Hx. pose proof (rep_start j Hj) as [_ Hs]%vat_Ret. congruence. }
  destruct (bound_loop_spec (λ x, x <? b + 1) (FeatureStart s)
    (Z.to_nat (vsize (FeatureStart s) - 0)) 0 (vsize (FeatureStart s) - 0))
    as (p & Hp & Hr & Hs); [lia..| |].
  { intros i j x y Hi Hj Hx Hy. rewrite (Hl i x), (Hl j y) by (lia || done).
    rewrite !Z.ltb_lt. pose proof (fstart_mono fs i j). lia. }
  unfold LowerBound, LowerBound_in. rewrite Hp. cbn.
  assert (Hsplit : ∀ j, 0 ≤ j < vsize fs → (fstart fs j <? b + 1) = (j <? p)).
  { intros j Hj. apply (Hs j); [lia|]. by pose proof (rep_start j Hj) as [_ ?]%vat_Ret. }
  exists (p - 1). split; [done|]. pose proof (Hsplit 0 ltac:(lia)) as H0. rewrite fstart_0 in H0.
  pose proof (Hsplit (p - 1)). split; [lia|]. split; [lia|].
  replace (p - 1 + 1) with p by lia.
  destruct (Z.eq_dec p (vsize fs)) as [->|Hne]; [rewrite fstart_end by done; lia|].
  specialize (Hsplit p). lia.
Qed.

(** The features partition the bins. *)
Lemma feature_of_bin_unique b i j :
  fstart fs i ≤ b < fstart fs (i + 1) → fstart fs j ≤ b < fstart fs (j + 1) → i = j.
Proof.
  intros Hi Hj. destruct (Z.lt_trichotomy i j) as [Hlt|[|Hlt]]; [|done|].
  - pose proof (fstart_mono fs (i + 1) j). lia.
  - pose proof (fstart_mono fs (j + 1) i). lia.
Qed.

End Rep.

(** ** Construction *)

Lemma rep_empty : rep feature_set_empty [].
Proof. done. Qed.

Lemma rep_of_bins bins : rep (feature_set_of_bins bins) [bins].
Proof. split; cbn; [by rewrite app_nil_r|done]. Qed.

Lemma rep_AddFeature s fs f :
  rep s fs → rep (AddFeature s f).1 (fs ++ [f]) ∧ (AddFeature s f).2 = vsize fs.
Proof.
  intros Hr. pose proof (rep_feature_count s fs Hr) as Hc. destruct Hr as [Hb Hs]. split; [split|]; cbn.
  - by rewrite Hb, concat_app; cbn; rewrite app_nil_r.
  - by rewrite Hs, starts_app, Hb.
  - unfold GetFeatureCount in *. cbn. rewrite vsize_app, Hc. vlia.
Qed.

(** The set of a label and the set of a list of features, as the program builds
    them. *)
Definition feature_set_of (fs : list (list TBin)) : TBinFeatureSet :=
  foldl (λ s f, (AddFeature s f).1) feature_set_empty fs.

Lemma rep_AddFeatures l s gs :
  rep s gs → rep (foldl (λ s f, (AddFeature s f).1) s l) (gs ++ l).
Proof.
  revert s gs. induction l as [|f l IH]; intros s gs Hs; cbn; [by rewrite app_nil_r|].
  replace (gs ++ f :: l) with ((gs ++ [f]) ++ l) by (by rewrite <- app_assoc). apply IH, rep_AddFeature, Hs.
Qed.

Lemma rep_feature_set_of fs : rep (feature_set_of fs) fs.
Proof.
  apply (rep_AddFeatures fs _ []), rep_empty.
Qed.

(** a [TBinFeatureSet] built by any sequence of [AddFeature], on a default
    set or on the bins of a first feature, stands for the list of these
    features: it counts them and their bins, [GetFeature] returns each of them,
    [GetBin] indexes their concatenation, and an index out of range is an
    exception. *)
Theorem feature_set_correct (first : option (list TBin)) (added : list (list TBin)) :
  let s0 := match first with Some bins => feature_set_of_bins bins | None => feature_set_empty end in
  let s := foldl (λ s f, (AddFeature s f).1) s0 added in
  let fs := match first with Some bins => bins :: added | None => added end in
  GetFeatureCount s = vsize fs ∧ GetBinCount s = vsize (concat fs) ∧
  (∀ i, GetFeature s i =
     if (0 <=? i) && (i <? vsize fs) then Ret (fs !!! Z.to_nat i)
     else Fail (Throw (ERange i (vsize fs)))) ∧
  (∀ b, GetBin s b =
     if (0 <=? b) && (b <? vsize (concat fs)) then Ret (concat fs !!! Z.to_nat b)
     else Fail (Throw (ERange b (vsize (concat fs))))).
Proof.
  intros s0 s fs. assert (Hrep : rep s fs).
  { destruct first as [bins|]; subst s s0 fs.
    - apply (rep_AddFeatures added _ [bins]), rep_of_bins.
    - apply (rep_AddFeatures added _ []), rep_empty. }
  pose proof (rep_feature_count s fs Hrep) as Hfc. pose proof (rep_bin_count s fs Hrep) as Hbc.
  split_and!; [done|done| |].
  - intros i. destruct (Z.leb_spec 0 i), (Z.ltb_spec i (vsize fs)); cbn;
      try (unfold GetFeature; rewrite Hfc, ensure_range_Throw by lia; done).
    apply (rep_feature s fs); [done|done|]. apply list_lookup_lookup_total_lt. vlia.
  - intros b. destruct (Z.leb_spec 0 b), (Z.ltb_spec b (vsize (concat fs))); cbn;
      try (unfold GetBin; rewrite Hbc, ensure_range_Throw by lia; done).
    destruct (rep_bin s fs Hrep b) as (bin & -> & Hb); [lia|].
    by rewrite (list_lookup_total_correct _ _ _ Hb).
Qed.

(** ** Backgrounds *)

Section Background.
  Context (fs : list (list TBin)).

  Local Abbreviation bins := (vsize (concat fs)).

(** A background over the features [fs]. *)
Definition valid_bg (bg : TBackground) : Prop :=
  rep (Features bg) fs ∧ vsize (IsBinEnabled bg) = bins ∧
  0 ≤ (LastEnabledBins bg).1 ≤ (LastEnabledBins bg).2 ∧ (LastEnabledBins bg).2 ≤ bins.

(** Whether a bin is enabled. *)
Definition enabled (bg : TBackground) (b : Z) : Prop :=
  0 ≤ b ∧ IsBinEnabled bg !! Z.to_nat b = Some true.

#[export] Instance enabled_dec bg b : Decision (enabled bg b).
Proof. unfold enabled. apply _. Defined.

Lemma enabled_range bg b : valid_bg bg → enabled bg b → 0 ≤ b < bins.
Proof. intros (_ & Hsz & _) [? Hb%lookup_lt_Some]. vlia. Qed.

Lemma bins_with_flag_spec flag bg b :
  b ∈ bins_with_flag flag bg ↔ 0 ≤ b ∧ IsBinEnabled bg !! Z.to_nat b = Some flag.
Proof.
  unfold bins_with_flag. rewrite list_elem_of_filter, elem_of_xrange. split; [naive_solver|].
  intros [? Hb]. split_and!; [done|done|]. apply lookup_lt_Some in Hb. vlia.
Qed.

Lemma elem_of_EnabledBinIndexes bg b : b ∈ EnabledBinIndexes bg ↔ enabled bg b.
Proof. apply bins_with_flag_spec. Qed.

Lemma elem_of_DisabledBinIndexes bg b : valid_bg bg →
  b ∈ DisabledBinIndexes bg ↔ 0 ≤ b < bins ∧ ¬ enabled bg b.
Proof.
  intros (_ & Hsz & _). unfold DisabledBinIndexes, enabled. rewrite bins_with_flag_spec. split.
  - intros [? Hb]. split; [apply lookup_lt_Some in Hb; vlia|]. intros [_ ?]. congruence.
  - intros [Hb Hne]. split; [lia|]. destruct (lookup_lt_is_Some_2 (IsBinEnabled bg) (Z.to_nat b)) as [[] Hf];
      [vlia|by destruct Hne; split; [lia|]|done].
Qed.

Lemma NoDup_bins_with_flag flag bg : NoDup (bins_with_flag flag bg).
Proof. apply NoDup_filter. rewrite xrange_seqZ. apply NoDup_seqZ. Qed.

(** The bins of a vector of flags, in increasing order, are split by the flag. *)
Lemma vsize_bins_with_flag bg :
  vsize (EnabledBinIndexes bg) + vsize (DisabledBinIndexes bg) = vsize (IsBinEnabled bg).
Proof.
  unfold EnabledBinIndexes, DisabledBinIndexes, bins_with_flag.
  pose proof (vsize_filter_bool (λ i, IsBinEnabled bg !!! Z.to_nat i) (xrange (vsize (IsBinEnabled bg)))) as Hsz.
  cbv beta in Hsz. pose proof (vsize_nonneg (IsBinEnabled bg)).
  replace (vsize (xrange _)) with (vsize (IsBinEnabled bg)) in Hsz
    by (unfold vsize at 2; rewrite xrange_seqZ, length_seqZ; lia).
  etransitivity; [|exact Hsz]. f_equal; f_equal; apply filter_iff_in; intros i Hi%elem_of_xrange;
    rewrite list_lookup_alt; (split; [by intros [_ ?]|]);
    (intros; split; [vlia|done]).
Qed.

Lemma EnabledBins_spec bg : valid_bg bg →
  ∃ l, EnabledBins bg = Ret l ∧ vsize l = vsize (EnabledBinIndexes bg).
Proof.
  intros Hv. destruct (mmap_total (GetBin (Features bg)) (EnabledBinIndexes bg)) as [l Hl].
  - intros b Hb%elem_of_EnabledBinIndexes%(enabled_range bg b Hv).
    destruct (rep_bin _ fs (proj1 Hv) b Hb) as (bin & ? & _). eauto.
  - exists l. split; [done|]. apply mmap_Forall2, Forall2_length in Hl. vlia.
Qed.

(** *** New backgrounds *)

Lemma background_valid s : rep s fs → valid_bg (background s).
Proof.
  intros Hr. unfold valid_bg, background; cbn. pose proof (vsize_nonneg (concat fs)).
  split_and!; [done| |lia..]. rewrite (rep_bin_count s fs) by done.
  unfold vsize at 1. rewrite length_replicate. lia.
Qed.

Lemma background_enabled s b : rep s fs → enabled (background s) b ↔ 0 ≤ b < bins.
Proof.
  intros Hr. unfold enabled, background; cbn. rewrite lookup_replicate, (rep_bin_count s fs) by done.
  lia.
Qed.

Lemma fill_all_valid flag bg : valid_bg bg → valid_bg (fill_all flag bg).
Proof. intros (? & ? & ? & ?). unfold valid_bg; cbn. by rewrite vsize_fill_range. Qed.

Lemma fill_all_flags flag bg b f :
  IsBinEnabled (fill_all flag bg) !! Z.to_nat b = Some f →
  f = flag.
Proof.
  cbn. rewrite lookup_fill_range. destruct (_ !! _) as [g|] eqn:Hg; [|done]. cbn.
  apply lookup_lt_Some in Hg. rewrite (proj2 (Z.leb_le _ _)), (proj2 (Z.ltb_lt _ _)) by vlia.
  cbn. congruence.
Qed.

Lemma DisableAll_enabled bg b : ¬ enabled (DisableAll bg) b.
Proof. intros [_ Hb]. by apply fill_all_flags in Hb. Qed.

Lemma EnabledAll_enabled bg b : valid_bg bg → enabled (EnabledAll bg) b ↔ 0 ≤ b < bins.
Proof.
  intros Hv. split; [apply enabled_range, fill_all_valid, Hv|].
  intros Hb. split; [lia|]. unfold EnabledAll. destruct (fill_all_valid true bg Hv) as (_ & Hsz & _).
  destruct (lookup_lt_is_Some_2 (IsBinEnabled (fill_all true bg)) (Z.to_nat b)) as [f Hf];
    [unfold vsize in *; lia|].
  rewrite Hf. f_equal. by eapply fill_all_flags.
Qed.

(** *** Updates *)

(** [SetBinEnabled] changes one bin and, when it enables it, makes it the last
    enabled range. *)
Lemma SetBinEnabled_spec bg index flag :
  valid_bg bg → 0 ≤ index < bins →
  ∃ bg', SetBinEnabled bg index flag = Ret bg' ∧ valid_bg bg' ∧ Features bg' = Features bg ∧
    (∀ b, enabled bg' b ↔ if decide (b = index) then flag = true else enabled bg b) ∧
    LastEnabledBins bg' = if flag then (index, index + 1) else LastEnabledBins bg.
Proof.
  intros (Hr & Hsz & Hlast) Hi. unfold SetBinEnabled.
  rewrite (rep_bin_count _ fs), ensure_range_Ret by done. cbn.
  unfold vset. rewrite Hsz, (proj2 (Z.leb_le _ _)), (proj2 (Z.ltb_lt _ _)) by lia. cbn.
  eexists. split; [done|]. split_and!; cbn.
  - split_and!; cbn; [done|by rewrite vsize_insert|..]; destruct flag; cbn; lia.
  - done.
  - intros b. unfold enabled. cbn. case_decide as Hb.
    + subst b. rewrite list_lookup_insert_eq by vlia. split; [by intros [_ [=]]|intros ->; split; [lia|done]].
    + split; intros [? Hl]; (split; [done|]);
        [rewrite list_lookup_insert_ne in Hl by lia|rewrite list_lookup_insert_ne by lia]; done.
  - done.
Qed.

Lemma lookup_fill_range_Some {A} (l : list A) b e x i y :
  0 ≤ i → fill_range l b e x !! Z.to_nat i = Some y ↔
  0 ≤ i < vsize l ∧ if decide (b ≤ i < e) then y = x else l !! Z.to_nat i = Some y.
Proof.
  intros Hi. rewrite lookup_fill_range. rewrite Z2Nat.id by done. split.
  - destruct (l !! Z.to_nat i) as [z|] eqn:Hl; [|done]. cbn. intros [= <-].
    apply lookup_lt_Some in Hl as Hlt. split; [vlia|].
    destruct (Z.leb_spec b i), (Z.ltb_spec i e); case_decide; cbn; try lia; done.
  - intros [Hlt Hy]. destruct (lookup_lt_is_Some_2 l (Z.to_nat i)) as [z Hl]; [vlia|].
    rewrite Hl in Hy |- *. cbn. f_equal.
    destruct (Z.leb_spec b i), (Z.ltb_spec i e); case_decide; cbn; try lia; congruence.
Qed.

(** [SetFeatureEnabled] changes exactly the bins of the feature. *)
Lemma SetFeatureEnabled_spec bg index flag :
  valid_bg bg → 0 ≤ index < vsize fs →
  ∃ bg', SetFeatureEnabled bg index flag = Ret bg' ∧ valid_bg bg' ∧ Features bg' = Features bg ∧
    (∀ b, enabled bg' b ↔
       if decide (fstart fs index ≤ b < fstart fs (index + 1)) then flag = true else enabled bg b) ∧
    LastEnabledBins bg' =
      if flag then (fstart fs index, fstart fs (index + 1)) else LastEnabledBins bg.
Proof.
  intros (Hr & Hsz & Hlast) Hi. unfold SetFeatureEnabled.
  rewrite (rep_feature_count _ fs), ensure_range_Ret by done. cbn.
  rewrite (rep_bin_indexes _ fs), bind_Ret by done.
  destruct (simple_range_fstart fs index) as [-> ->].
  pose proof (fstart_nonneg fs index). pose proof (fstart_mono fs index (index + 1) ltac:(lia)).
  pose proof (fstart_le_size fs (index + 1)).
  unfold vfill. rewrite Hsz, !(proj2 (Z.leb_le _ _)) by lia. cbn.
  eexists. split; [done|]. split_and!; cbn; [|done| |done].
  - split_and!; cbn; [done|by rewrite vsize_fill_range|..]; destruct flag; cbn; lia.
  - intros b. unfold enabled; cbn. case_decide as Hb.
    + split; [intros [? Hf]; apply lookup_fill_range_Some in Hf as [_ Hf]; [|done];
              by rewrite decide_True in Hf by done|].
      intros ->. split; [lia|]. apply lookup_fill_range_Some; [lia|]. split; [lia|].
      by rewrite decide_True.
    + split; intros [? Hf].
      * split; [done|]. apply lookup_fill_range_Some in Hf as [_ Hf]; [|done].
        by rewrite decide_False in Hf by done.
      * split; [done|]. apply lookup_fill_range_Some; [done|].
        split; [apply lookup_lt_Some in Hf; vlia|]. by rewrite decide_False.
Qed.

(** [LastEnabled] is the background with just the last enabled range. *)
Lemma LastEnabled_spec bg :
  valid_bg bg →
  ∃ bg', LastEnabled bg = Ret bg' ∧ valid_bg bg' ∧ Features bg' = Features bg ∧
    ∀ b, enabled bg' b ↔ (LastEnabledBins bg).1 ≤ b < (LastEnabledBins bg).2.
Proof.
  intros (Hr & Hsz & Hlast). unfold LastEnabled.
  set (r := DisableAll (background (Features bg))).
  assert (Hv : valid_bg r) by (by apply fill_all_valid, background_valid).
  pose proof Hv as (_ & Hsz' & _).
  unfold vfill. rewrite Hsz', !(proj2 (Z.leb_le _ _)) by lia. cbn.
  eexists. split; [done|]. split_and!; cbn; [|done|].
  - destruct Hv as (? & ? & ?). unfold valid_bg; cbn [Features IsBinEnabled LastEnabledBins].
    rewrite vsize_fill_range. split_and!; cbn; lia || done.
  - intros b. unfold enabled; cbn. split.
    + intros [? Hf]. apply lookup_fill_range_Some in Hf as [_ Hf]; [|done]. case_decide; [done|].
      exfalso. by apply (DisableAll_enabled (background (Features bg)) b).
    + intros Hb. split; [lia|]. apply lookup_fill_range_Some; [lia|].
      change (fill_range _ _ _ false) with (IsBinEnabled r). split; [lia|].
      by rewrite decide_True.
Qed.

Lemma IsFeatureEnabled_spec bg index :
  valid_bg bg → 0 ≤ index < vsize fs →
  ∃ r, IsFeatureEnabled bg index = Ret r ∧
    (r = true ↔ ∀ b, fstart fs index ≤ b < fstart fs (index + 1) → enabled bg b).
Proof.
  intros (Hr & Hsz & Hlast) Hi. unfold IsFeatureEnabled.
  rewrite (rep_feature_count _ fs), ensure_range_Ret by done. cbn.
  rewrite (rep_bin_indexes _ fs), bind_Ret by done.
  destruct (simple_range_fstart fs index) as [-> ->].
  pose proof (fstart_nonneg fs index). pose proof (fstart_mono fs index (index + 1) ltac:(lia)).
  pose proof (fstart_le_size fs (index + 1)).
  unfold vslice. rewrite Hsz, !(proj2 (Z.leb_le _ _)) by lia. cbn.
  eexists. split; [done|]. rewrite AllOf_true. split.
  - intros Hall b Hb. split; [lia|].
    destruct (lookup_lt_is_Some_2 (IsBinEnabled bg) (Z.to_nat b)) as [f Hf]; [vlia|].
    rewrite Hf. f_equal. apply Hall. apply list_elem_of_lookup.
    exists (Z.to_nat b - Z.to_nat (fstart fs index))%nat.
    rewrite lookup_take_lt, lookup_drop by lia. rewrite <- Hf. f_equal. lia.
  - intros Hen f [i Hf]%list_elem_of_lookup. apply lookup_take_Some in Hf as [Hf Hlt].
    rewrite lookup_drop in Hf. destruct (Hen (fstart fs index + Z.of_nat i)) as [_ He]; [lia|].
    replace (Z.to_nat _) with (Z.to_nat (fstart fs index) + i)%nat in He by lia. congruence.
Qed.

End Background.

(** [GetFeatureIndexByBinIndex] inverts [GetFeatureBinIndexes]: a bin of the
    set belongs to exactly one feature's range of bins, and this feature is the
    one the binary search over the starts returns, also when some features have
    no bins. *)
Theorem feature_of_bin_correct (fs : list (list TBin)) (b : Z) (Hb : 0 ≤ b < vsize (concat fs)) :
  let s := feature_set_of fs in
  ∃ i, GetFeatureIndexByBinIndex s b = Ret i ∧ 0 ≤ i < GetFeatureCount s ∧
    ∀ j r, GetFeatureBinIndexes s j = Ret r →
      (simple_begin r ≤ b < simple_end r ↔ j = i).
Proof.
  intros s. assert (Hr : rep s fs) by apply rep_feature_set_of.
  rewrite (rep_feature_count s fs Hr).
  destruct (rep_feature_of_bin s fs Hr b Hb) as (i & Hi & Hlt & Hrange).
  exists i. split_and!; [done|lia|lia|]. intros j r Hj.
  assert (Hjr : 0 ≤ j < vsize fs).
  { unfold GetFeatureBinIndexes in Hj. rewrite (rep_feature_count s fs Hr) in Hj.
    destruct (decide (0 ≤ j < vsize fs)); [done|]. by rewrite ensure_range_Throw in Hj. }
  rewrite (rep_bin_indexes s fs Hr j Hjr) in Hj. injection Hj as <-.
  destruct (simple_range_fstart fs j) as [-> ->].
  split; [|by intros ->]. intros ?. by eapply (feature_of_bin_unique fs b).
Qed.

Example feature_of_bin_correct_witness :
  let fs := [[[true]; [false]]; []; [[true]]] in
  0 ≤ 2 < vsize (concat fs) ∧
  ∃ i, GetFeatureIndexByBinIndex (feature_set_of fs) 2 = Ret i ∧
    0 ≤ i < GetFeatureCount (feature_set_of fs) ∧
    ∀ j r, GetFeatureBinIndexes (feature_set_of fs) j = Ret r →
      (simple_begin r ≤ 2 < simple_end r ↔ j = i).
Proof. split; [by vm_compute|]. apply feature_of_bin_correct. by vm_compute. Defined.

(** *** Sequences of operations on a background *)

Inductive bg_op : Type :=
| OSetFeature (index : Z) (flag : bool)
| OSetBin (index : Z) (flag : bool)
| ODisableAll
| OEnabledAll.

Definition run_bg_op (bg : TBackground) (op : bg_op) : outcome TBackground :=
  match op with
  | OSetFeature i flag => SetFeatureEnabled bg i flag
  | OSetBin i flag => SetBinEnabled bg i flag
  | ODisableAll => Ret (DisableAll bg)
  | OEnabledAll => Ret (EnabledAll bg)
  end.

(** A background as the set of its enabled bins and the last enabled range. *)
Definition range_set (b e : Z) : gset Z := list_to_set (xrange2 b e).

Definition set_range (E : gset Z) (b e : Z) (flag : bool) : gset Z :=
  if flag then E ∪ range_set b e else E ∖ range_set b e.

Definition spec_bg_op (fs : list (list TBin)) (st : gset Z * (Z * Z)) (op : bg_op)
    : outcome (gset Z * (Z * Z)) :=
  let set_in i n b e flag :=
    if (0 <=? i) && (i <? n)
    then Ret (set_range st.1 b e flag, if flag : bool then (b, e) else st.2)
    else Fail (Throw (ERange i n)) in
  match op with
  | OSetFeature i flag => set_in i (vsize fs) (fstart fs i) (fstart fs (i + 1)) flag
  | OSetBin i flag => set_in i (vsize (concat fs)) i (i + 1) flag
  | ODisableAll => Ret (∅, st.2)
  | OEnabledAll => Ret (range_set 0 (vsize (concat fs)), st.2)
  end.

Definition bg_rep (fs : list (list TBin)) (bg : TBackground) (st : gset Z * (Z * Z)) : Prop :=
  valid_bg fs bg ∧ (∀ b, enabled bg b ↔ b ∈ st.1) ∧ LastEnabledBins bg = st.2.

Lemma elem_of_range_set b e i : i ∈ range_set b e ↔ b ≤ i < e.
Proof. unfold range_set. by rewrite elem_of_list_to_set, elem_of_xrange2. Qed.

Lemma elem_of_set_range E b e flag i :
  i ∈ set_range E b e flag ↔ if decide (b ≤ i < e) then flag = true else i ∈ E.
Proof.
  unfold set_range. destruct flag; rewrite ?elem_of_union, ?elem_of_difference, elem_of_range_set;
    case_decide; naive_solver.
Qed.

(** Both sides of an operation fail alike, or succeed in related states. *)
Definition outcome_rel {A B} (R : A → B → Prop) (x : outcome A) (y : outcome B) : Prop :=
  match x, y with
  | Ret a, Ret b => R a b
  | Fail f, Fail g => f = g
  | _, _ => False
  end.

Lemma run_bg_op_rep fs bg st op :
  bg_rep fs bg st → outcome_rel (bg_rep fs) (run_bg_op bg op) (spec_bg_op fs st op).
Proof.
  intros (Hv & Hen & Hl). destruct op as [i flag|i flag| |]; cbn.
  - destruct (decide (0 ≤ i < vsize fs)) as [Hi|Hi].
    + destruct (SetFeatureEnabled_spec fs bg i flag Hv Hi) as (bg' & -> & Hv' & _ & Hen' & Hl').
      rewrite (proj2 (Z.leb_le _ _)), (proj2 (Z.ltb_lt _ _)) by lia. cbn.
      split_and!; [done| |by rewrite Hl', Hl]. intros b. cbn.
      rewrite Hen', elem_of_set_range. case_decide; [done|apply Hen].
    + unfold SetFeatureEnabled. rewrite (rep_feature_count _ fs (proj1 Hv)), ensure_range_Throw by done.
      cbn. destruct (Z.leb_spec 0 i), (Z.ltb_spec i (vsize fs)); cbn; done || lia.
  - destruct (decide (0 ≤ i < vsize (concat fs))) as [Hi|Hi].
    + destruct (SetBinEnabled_spec fs bg i flag Hv Hi) as (bg' & -> & Hv' & _ & Hen' & Hl').
      rewrite (proj2 (Z.leb_le _ _)), (proj2 (Z.ltb_lt _ _)) by lia. cbn.
      split_and!; [done| |by rewrite Hl', Hl]. intros b. cbn.
      rewrite Hen', elem_of_set_range. repeat case_decide; try lia; [done|apply Hen].
    + unfold SetBinEnabled. rewrite (rep_bin_count _ fs (proj1 Hv)), ensure_range_Throw by done.
      cbn. destruct (Z.leb_spec 0 i), (Z.ltb_spec i (vsize (concat fs))); cbn; done || lia.
  - split_and!; [by apply fill_all_valid| |done]. intros b. cbn.
    pose proof (DisableAll_enabled bg b). set_solver.
  - split_and!; [by apply fill_all_valid| |done]. intros b. cbn.
    by rewrite elem_of_range_set, (EnabledAll_enabled fs).
Qed.

Lemma bg_rep_init fs :
  bg_rep fs (background (feature_set_of fs)) (range_set 0 (vsize (concat fs)), (0, 0)).
Proof.
  pose proof (rep_feature_set_of fs). split_and!; [by apply background_valid| |done].
  intros b. cbn. by rewrite (background_enabled fs), elem_of_range_set.
Qed.

(** C27: [TBackground] implements a set of bins.  Any sequence of
    [SetFeatureEnabled], [SetBinEnabled], [DisableAll] and [EnabledAll] on a new
    background fails with the exception of its first index out of range, or
    ends with exactly the bins enabled that the same sequence leaves in a set,
    all of them enabled at first; [LastEnabled] is then the last range that was
    enabled, alone. *)
Theorem background_refines_set (fs : list (list TBin)) (ops : list bg_op) :
  match mfold (spec_bg_op fs) (range_set 0 (vsize (concat fs)), (0, 0)) ops with
  | Fail f => mfold run_bg_op (background (feature_set_of fs)) ops = Fail f
  | Ret (E, last) =>
      ∃ bg last_bg, mfold run_bg_op (background (feature_set_of fs)) ops = Ret bg ∧
        list_to_set (EnabledBinIndexes bg) = E ∧
        list_to_set (DisabledBinIndexes bg) = range_set 0 (vsize (concat fs)) ∖ E ∧
        LastEnabled bg = Ret last_bg ∧
        list_to_set (EnabledBinIndexes last_bg) = range_set last.1 last.2
  end.
Proof.
  assert (Hrun : ∀ bg st, bg_rep fs bg st →
    outcome_rel (bg_rep fs) (mfold run_bg_op bg ops) (mfold (spec_bg_op fs) st ops)).
  { induction ops as [|op ops IH]; intros bg st Hr; cbn; [done|].
    pose proof (run_bg_op_rep fs bg st op Hr) as Hstep.
    destruct (run_bg_op bg op), (spec_bg_op fs st op); cbn in Hstep |- *; try done.
    by apply IH. }
  destruct (mfold run_bg_op _ ops) as [bg|f] eqn:Hbg, (mfold (spec_bg_op fs) _ ops) as [[E last]|g] eqn:Hsp.
  all: specialize (Hrun (background (feature_set_of fs)) (range_set 0 (vsize (concat fs)), (0, 0)));
    rewrite Hbg, Hsp in Hrun; specialize (Hrun (bg_rep_init fs)); cbn in Hrun; try (done || by f_equal).
  destruct Hrun as (Hv & Hen & Hl). cbn in Hen, Hl.
  destruct (LastEnabled_spec fs bg Hv) as (lbg & Hlast & _ & _ & Hlen).
  exists bg, lbg. split_and!; [done| | |done|]; apply set_eq; intros b.
  - by rewrite elem_of_list_to_set, elem_of_EnabledBinIndexes.
  - rewrite elem_of_list_to_set, (elem_of_DisabledBinIndexes fs), elem_of_difference,
      elem_of_range_set by done. by rewrite Hen.
  - by rewrite elem_of_list_to_set, elem_of_EnabledBinIndexes, Hlen, Hl, elem_of_range_set.
Qed.
