(* ===== verification/TestPool.v ===== *)
(** * Random test pools: [cmicot/lib/test_pool_gen.h/.cpp]

    The generators of features and labels of the unit tests: they draw bits with
    [Shuffle] and sizes with [Uniform] from a generator that meets [TRandGen].  A
    generator is passed by reference, here from call to call. *)
From S2P Require Import Prelude XRange BitOps Random BinFeatureSet PoolReader.
Open Scope Z_scope.

(** [a * b] of two [int]s. *)
Definition int_mul (a b : Z) : outcome Z :=
  if (- 2 ^ 31 <=? a * b) && (a * b <? 2 ^ 31) then Ret (a * b) else Fail (Undef UOverflow).

(** [yvector<T>(n, x)] and [v.resize(n, x)] with an [int]: a negative one is a huge size. *)
Definition new_vector {A} (n : Z) (x : A) : outcome (list A) :=
  _ ← ensure (0 <=? n) (ELength n);
  Ret (replicate (Z.to_nat n) x).

Definition resize_vector {A} (v : list A) (n : Z) (x : A) : outcome (list A) :=
  _ ← ensure (0 <=? n) (ELength n);
  Ret (vresize v n x).

Section TestPool.
  Context `{TRandGen G}.
  (** The words a call of [Uniform] may take. *)
  Variable draws : nat.

(** [RandomBin(size, onesPercent, rng)] *)
Definition RandomBin (size onesPercent : Z) (rng : G) : outcome (TBin * G) :=
  p ← int_mul onesPercent size;
  result ← new_vector (p `quot` 100) true;
  result ← resize_vector result size false;
  Shuffle draws result rng.

Definition RandomBin_half (size : Z) (rng : G) : outcome (TBin * G) := RandomBin size 50 rng.

(** [RandomFeature(binCount, binSize, onesPercent, rng)] *)
Definition RandomFeature (binCount binSize onesPercent : Z) (rng : G) : outcome (list TBin * G) :=
  mfold (λ (s : list TBin * G) (i : Z),
      r ← RandomBin binSize onesPercent s.2;
      Ret (s.1 ++ [r.1], r.2))
    ([], rng) (xrange binCount).

Definition RandomFeature_half (binCount binSize : Z) (rng : G) : outcome (list TBin * G) :=
  RandomFeature binCount binSize 50 rng.

(** [RemoveInfo(bin, percent, rng)] *)
Definition RemoveInfo (bin : TBin) (percent : Z) (rng : G) : outcome (TBin * G) :=
  r ← Shuffle draws (xrange (vsize bin)) rng;
  p ← int_mul percent (vsize r.1);
  bin ← mfold (λ (bin : TBin) (i : Z), pos ← vat r.1 i; vset bin pos false) bin (xrange (p `quot` 100));
  Ret (bin, r.2).

(** [MakeRandomFeatures(rng, featureCount, binSize, featureSizeRange)] *)
Definition random_feature_size (featureSizeRange : Z * Z) (rng : G) : outcome (Z * G) :=
  if negb (featureSizeRange.1 =? featureSizeRange.2)
  then r ← Uniform_from draws featureSizeRange.1 featureSizeRange.2 rng; Ret (to_int r.1, r.2)
  else Ret (featureSizeRange.1, rng).

Definition add_random_feature (binSize : Z) (featureSizeRange : Z * Z) (s : TBinFeatureSet * G) (i : Z)
    : outcome (TBinFeatureSet * G) :=
  size ← random_feature_size featureSizeRange s.2;
  currentFeature ← new_vector size.1 ([] : TBin);
  f ← mfold (λ (f : list TBin * G) (b : TBin), r ← RandomBin_half binSize f.2; Ret (f.1 ++ [r.1], r.2))
        ([], size.2) currentFeature;
  Ret ((AddFeature s.1 f.1).1, f.2).

Definition MakeRandomFeatures (rng : G) (featureCount binSize : Z) (featureSizeRange : Z * Z)
    : outcome (TBinFeatureSet * G) :=
  mfold (add_random_feature binSize featureSizeRange) (feature_set_empty, rng) (xrange featureCount).

Definition MakeRandomLabel (rng : G) (binSize : Z) (binCountRange : Z * Z) : outcome (TBinFeatureSet * G) :=
  MakeRandomFeatures rng 1 binSize binCountRange.

Definition MakeRandomBinaryFeatures (rng : G) (featureCount binSize : Z) : outcome (TBinFeatureSet * G) :=
  MakeRandomFeatures rng featureCount binSize (1, 1).

End TestPool.

(** [InvertPermutation(permutation)] *)
Definition InvertPermutation (permutation : list Z) : outcome (list Z) :=
  mfold (λ (result : list Z) (i : Z), p ← vat permutation i; vset result p i)
    (replicate (length permutation) 0) (xrange (vsize permutation)).

(** ** Runs of a generator

    [runs n op P]: with [n] more words whose runs of [draws] words are not all in the upper
    half, [op] returns a value of [P] and the generator after at most [n] words. *)
Section Runs.
  Context `{TRandGenOk G}.
  Variable draws : nat.

Definition runs {A} (n : nat) (op : G → outcome (A * G)) (P : A → Prop) : Prop :=
  ∀ g, rand_good g → low_words draws n g →
    ∃ a k, op g = Ret (a, skip_words k g) ∧ (k ≤ n)%nat ∧ P a.

Lemma low_words_skip a b k g : rand_good g → low_words draws (a + b) g → (k ≤ a)%nat →
  low_words draws b (skip_words k g).
Proof.
  intros Hg Hlow Hk i Hi. rewrite <- skip_words_add by done. apply Hlow. lia.
Qed.

Lemma runs_ret {A} n (a : A) (P : A → Prop) : P a → runs n (λ g, Ret (a, g)) P.
Proof. intros HP g Hg _. exists a, 0%nat. split; [done|]. split; [lia|done]. Qed.

Lemma runs_weaken {A} n m op (P Q : A → Prop) : runs n op P → (n ≤ m)%nat → (∀ a, P a → Q a) → runs m op Q.
Proof.
  intros Hop Hnm HPQ g Hg Hlow. destruct (Hop g Hg) as (a & k & Ha & Hk & HP); [intros i Hi; apply Hlow; lia|].
  exists a, k. split; [done|]. split; [lia|auto].
Qed.

Lemma runs_bind {A B} n m op (f : A * G → outcome (B * G)) (P : A → Prop) (Q : B → Prop) :
  runs n op P → (∀ a, P a → runs m (λ g, f (a, g)) Q) → runs (n + m) (λ g, r ← op g; f r) Q.
Proof.
  intros Hop Hf g Hg Hlow. destruct (Hop g Hg) as (a & k & Ha & Hk & HP); [intros i Hi; apply Hlow; lia|].
  destruct (Hf a HP (skip_words k g)) as (b & j & Hb & Hj & HQ); [by apply skip_words_good|by eapply low_words_skip|].
  exists b, (k + j)%nat. rewrite Ha, bind_Ret, skip_words_add by done. split; [done|]. split; [lia|done].
Qed.

(** A loop that threads the generator. *)
Lemma runs_fold {A X} n (I : list X → A → Prop) (step : A * G → X → outcome (A * G)) (l : list X) a :
  I [] a → (∀ dn x rest a, l = dn ++ x :: rest → I dn a → runs n (λ g, step (a, g) x) (I (dn ++ [x]))) →
  runs (n * length l) (λ g, mfold step (a, g) l) (I l).
Proof.
  intros Hinit Hstep g Hg Hlow.
  destruct (mfold_inv (λ dn (s : A * G), ∃ b k, s = (b, skip_words k g) ∧ (k ≤ n * length dn)%nat ∧ I dn b)
    step l (a, g)) as (s & Hs & b & k & -> & Hk & HI).
  - exists a, 0%nat. split; [done|]. split; [lia|done].
  - intros dn x rest s Hl (b & k & -> & Hk & HI).
    assert (Hlen : length l = (length dn + S (length rest))%nat) by (by rewrite Hl, length_app).
    destruct (Hstep dn x rest b Hl HI (skip_words k g)) as (b' & j & Hb & Hj & HI').
    + by apply skip_words_good.
    + apply (low_words_skip (n * length dn)); [done| |done]. intros i Hi. apply Hlow. rewrite Hlen. nia.
    + exists (b', skip_words (k + j) g). rewrite skip_words_add by done. split; [done|].
      exists b', (k + j)%nat. rewrite skip_words_add by done. split; [done|]. split; [|done].
      rewrite length_app. cbn. lia.
  - by exists b, k.
Qed.

Lemma runs_Shuffle {A} (l : list A) : vsize l ≤ RandMax (G := G) →
  runs (draws * length l) (Shuffle draws l) (λ l', l' ≡ₚ l).
Proof.
  intros Hl g Hg Hlow. destruct (Shuffle_choices draws l g Hg Hl) as (cs & k & Hs & Hk & _).
  { intros i Hi. apply Hlow. nia. }
  exists (shuffled l cs), k. split; [done|]. split; [nia|]. apply shuffled_Permutation.
Qed.

Lemma runs_Uniform_from f t : 0 ≤ f < t → t ≤ RandMax (G := G) →
  runs draws (Uniform_from draws f t) (λ r, f ≤ r < t).
Proof.
  intros Hf Ht g Hg Hlow. unfold Uniform_from.
  destruct (Uniform_spec draws (t - f) g Hg) as (r & k & Hu & Hk & Hr); [lia|apply (Hlow 0%nat); lia|].
  rewrite Hu, bind_Ret. cbn [fst snd]. exists (f + r), k.
  rewrite uw_small by (unfold RandMax in Ht; lia). split; [done|]. split; [done|lia].
Qed.

(** ** Bins *)

(** The number of ones. *)
Definition ones (bin : TBin) : Z := vsize (filter (λ b, b = true) bin).

Lemma ones_Permutation l k : l ≡ₚ k → ones l = ones k.
Proof. intros Hp. unfold ones, vsize. by rewrite Hp. Qed.

Lemma ones_app l k : ones (l ++ k) = ones l + ones k.
Proof. unfold ones, vsize. rewrite filter_app, length_app. lia. Qed.

Lemma ones_replicate n b : ones (replicate n b) = if b then Z.of_nat n else 0.
Proof.
  unfold ones, vsize. induction n as [|n IH]; [by destruct b|]. cbn [replicate]. rewrite filter_cons.
  destruct b; case_decide; try done; cbn [length]; lia.
Qed.

Lemma new_vector_Ret {A} n (x : A) : 0 ≤ n → new_vector n x = Ret (replicate (Z.to_nat n) x).
Proof. intros Hn. unfold new_vector. by replace (0 <=? n) with true by lia. Qed.

(** What [RandomBin] shuffles. *)
Lemma bin_template size p : 0 ≤ size → 0 ≤ p →
  vsize (vresize (replicate (Z.to_nat p) true) size false) = size ∧
  ones (vresize (replicate (Z.to_nat p) true) size false) = Z.min size p.
Proof.
  intros Hs Hp. unfold vresize. rewrite take_replicate, length_replicate. split.
  - unfold vsize. rewrite length_app, !length_replicate. lia.
  - rewrite ones_app, !ones_replicate. lia.
Qed.

Definition bin_of (size percent : Z) (bin : TBin) : Prop :=
  vsize bin = size ∧ ones bin = Z.min size (percent * size / 100).

Lemma runs_RandomBin size percent :
  0 ≤ size ≤ RandMax (G := G) → 0 ≤ percent → percent * size < 2 ^ 31 →
  runs (draws * Z.to_nat size) (RandomBin draws size percent) (bin_of size percent).
Proof.
  intros Hs Hp Hb. destruct (bin_template size (percent * size / 100)) as [Hv Ho]; [lia|by apply Z.div_pos; nia|].
  eapply runs_weaken; [|reflexivity|].
  2: { intros bin Hbin. split; [|rewrite <- Ho; apply ones_Permutation, Hbin].
       rewrite <- Hv. unfold vsize. by rewrite Hbin. }
  intros g Hg Hlow. unfold RandomBin, int_mul.
  replace ((- 2 ^ 31 <=? percent * size) && (percent * size <? 2 ^ 31)) with true by nia. rewrite bind_Ret.
  rewrite Z.quot_div_nonneg by nia. rewrite new_vector_Ret, bind_Ret by (apply Z.div_pos; nia).
  unfold resize_vector. replace (0 <=? size) with true by lia. unfold ensure. rewrite !bind_Ret.
  set (t := vresize _ _ _) in *. assert (Hl : length t = Z.to_nat size) by (unfold vsize in Hv; lia).
  rewrite <- Hl in *. apply (runs_Shuffle t); [lia|done|done].
Qed.

End Runs.

Section RandomFeatures.
  Context `{TRandGenOk G}.
  Variable draws : nat.

(** What the caller gives: sizes that fit. *)
Definition sizes_ok (binSize : Z) (range : Z * Z) : Prop :=
  0 ≤ binSize ≤ RandMax (G := G) ∧ 50 * binSize < 2 ^ 31 ∧
  0 ≤ range.1 ≤ range.2 ∧ range.2 < 2 ^ 31 ∧ range.2 ≤ RandMax (G := G).

Definition size_in (range : Z * Z) (n : Z) : Prop :=
  n = range.1 ∧ range.1 = range.2 ∨ range.1 ≤ n < range.2.

(** A feature of the range with half of the bits of each bin set. *)
Definition feature_ok (binSize : Z) (range : Z * Z) (feature : list TBin) : Prop :=
  size_in range (vsize feature) ∧ Forall (bin_of binSize 50) feature.

Lemma to_int_small v : 0 ≤ v < 2 ^ 31 → to_int v = v.
Proof. intros Hv. unfold to_int, u32. rewrite Z.mod_small by lia. by replace (v <? 2 ^ 31) with true by lia. Qed.

Lemma runs_feature_size binSize range : sizes_ok binSize range →
  runs draws draws (random_feature_size draws range) (size_in range).
Proof.
  intros (_ & _ & Hr & Hi & Hm). unfold random_feature_size.
  destruct (Z.eqb_spec range.1 range.2) as [He|Hne]; cbn [negb]; [apply runs_ret; by left|].
  intros g Hg Hlow. destruct (runs_Uniform_from draws range.1 range.2 ltac:(lia) Hm g Hg Hlow) as (r & k & Hu & Hk & Hrr).
  exists r, k. rewrite Hu, bind_Ret. cbn [fst snd]. rewrite to_int_small by lia. split; [done|]. split; [done|]. by right.
Qed.

(** The budget of words for a feature. *)
Definition feature_words (binSize : Z) (range : Z * Z) : nat :=
  draws + draws * Z.to_nat binSize * Z.to_nat range.2.

Lemma runs_bins {X} binSize percent (l : list X) :
  0 ≤ binSize ≤ RandMax (G := G) → 0 ≤ percent → percent * binSize < 2 ^ 31 →
  runs draws (draws * Z.to_nat binSize * length l)
    (λ g, mfold (λ (f : list TBin * G) (_ : X), r ← RandomBin draws binSize percent f.2; Ret (f.1 ++ [r.1], r.2)) ([], g) l)
    (λ f, length f = length l ∧ Forall (bin_of binSize percent) f).
Proof.
  intros Hs Hp Hb.
  apply (runs_fold draws _ (λ dn f, length f = length dn ∧ Forall (bin_of binSize percent) f)); [done|].
  intros dn x rest f Hl [Hlen Hf]. cbn [fst snd].
  rewrite <- (Nat.add_0_r (draws * Z.to_nat binSize)).
  apply (runs_bind draws _ _ _ _ (bin_of binSize percent)); [by apply runs_RandomBin|].
  intros bin Hbin. cbn [fst snd]. apply runs_ret. rewrite !length_app, Forall_app. cbn. auto with lia.
Qed.

Lemma runs_add_feature binSize range s fs i : sizes_ok binSize range → rep s fs → Forall (feature_ok binSize range) fs →
  runs draws (feature_words binSize range) (λ g, add_random_feature draws binSize range (s, g) i)
    (λ s', ∃ f, rep s' (fs ++ [f]) ∧ Forall (feature_ok binSize range) (fs ++ [f])).
Proof.
  intros Hok Hrep Hfs. unfold add_random_feature, feature_words. cbn [fst snd].
  apply (runs_bind draws _ _ _ _ (size_in range)); [by eapply runs_feature_size|].
  intros n Hn. cbn [fst snd]. destruct Hok as (Hs & Hb & Hr & _).
  assert (0 ≤ n ≤ range.2) by (destruct Hn as [[-> ->]|]; lia).
  rewrite new_vector_Ret by lia. intros g. rewrite bind_Ret. revert g.
  rewrite <- (Nat.add_0_r (_ * _ * _)). apply (runs_bind draws _ _ _ _ (λ f, vsize f = n ∧ Forall (bin_of binSize 50) f)).
  - eapply runs_weaken; [apply (runs_bins binSize 50 (replicate (Z.to_nat n) ([] : TBin))); [done|lia|done]| |].
    + rewrite length_replicate. nia.
    + intros f [Hl Hf]. rewrite length_replicate in Hl. split; [unfold vsize; lia|done].
  - intros f [Hl Hf]. cbn [fst snd]. apply runs_ret. exists f.
    destruct (rep_AddFeature s fs f Hrep) as [Hrep' _]. split; [done|]. apply Forall_app. split; [done|].
    constructor; [|done]. split; [by rewrite Hl|done].
Qed.

Lemma runs_features binSize range featureCount : sizes_ok binSize range →
  runs draws (feature_words binSize range * Z.to_nat featureCount)
    (λ g, MakeRandomFeatures draws g featureCount binSize range)
    (λ s, ∃ fs, rep s fs ∧ vsize fs = Z.max 0 featureCount ∧ Forall (feature_ok binSize range) fs).
Proof.
  intros Hok. unfold MakeRandomFeatures.
  assert (Hx : length (xrange featureCount) = Z.to_nat featureCount) by (by rewrite xrange_seqZ, length_seqZ).
  rewrite <- Hx. eapply runs_weaken; [|reflexivity|].
  - apply (runs_fold draws _ (λ dn s, ∃ fs, rep s fs ∧ length fs = length dn ∧ Forall (feature_ok binSize range) fs)).
    + exists []. split; [apply rep_empty|done].
    + intros dn x rest s _ (fs & Hrep & Hlen & Hfs).
      eapply runs_weaken; [by eapply runs_add_feature|reflexivity|].
      intros s' (f & Hrep' & Hfs'). exists (fs ++ [f]). split; [done|]. rewrite !length_app. cbn. auto with lia.
  - intros s (fs & Hrep & Hlen & Hfs). exists fs. split; [done|]. split; [|done]. unfold vsize. lia.
Qed.

(** C29: the pool of the unit tests has the shape they ask for.  From any generator that
    meets the interface and whose words do not stay in the upper half of their range,
    [MakeRandomFeatures] returns a feature set of [featureCount] features; each has a
    number of bins of the half-open range it was given (or its one value), and each bin has
    [binSize] bits of which exactly half, rounded down, are ones. *)
Theorem MakeRandomFeatures_correct (g : G) (featureCount binSize : Z) (range : Z * Z) :
  sizes_ok binSize range → rand_good g →
  low_words draws (feature_words binSize range * Z.to_nat featureCount) g →
  ∃ s fs k, MakeRandomFeatures draws g featureCount binSize range = Ret (s, skip_words k g) ∧
    rep s fs ∧ vsize fs = Z.max 0 featureCount ∧
    ∀ f, f ∈ fs → size_in range (vsize f) ∧
      ∀ bin, bin ∈ f → vsize bin = binSize ∧ ones bin = binSize / 2.
Proof.
  intros Hok Hg Hlow.
  destruct (runs_features binSize range featureCount Hok g Hg Hlow) as (s & k & Hs & _ & fs & Hrep & Hn & Hfs).
  exists s, fs, k. split; [done|]. split; [done|]. split; [done|]. intros f Hf.
  rewrite Forall_forall in Hfs. destruct (Hfs f Hf) as [Hsz Hbins]. split; [done|].
  intros bin Hbin. rewrite Forall_forall in Hbins. destruct (Hbins bin Hbin) as [Hv Ho]. split; [done|].
  rewrite Ho. assert (He : 50 * binSize / 100 = binSize / 2)
    by (replace 100 with (50 * 2) by done; by rewrite Z.div_mul_cancel_l by lia).
  rewrite He. destruct Hok as [[Hs0 _] _]. pose proof (Z.div_le_upper_bound binSize 2 binSize). lia.
Qed.

End RandomFeatures.

Lemma MakeRandomFeatures_correct_witness :
  ∃ s fs k, MakeRandomFeatures 12 (TReallyFastRng32 17) 2 2 (1, 3) = Ret (s, skip_words k (TReallyFastRng32 17)) ∧
    rep s fs ∧ vsize fs = 2 ∧
    ∀ f, f ∈ fs → size_in (1, 3) (vsize f) ∧ ∀ bin, bin ∈ f → vsize bin = 2 ∧ ones bin = 2 / 2.
Proof.
  apply (MakeRandomFeatures_correct 12 (TReallyFastRng32 17) 2 2 (1, 3)).
  - unfold sizes_ok, RandMax. cbn. lia.
  - vm_compute. by split.
  - apply low_words_check. vm_compute. reflexivity.
Defined.

(** ** [RemoveInfo] and [InvertPermutation] *)

Section RemoveInfo.
  Context `{TRandGenOk G}.
  Variable draws : nat.

(** A share of the positions is cleared, each at most once, and nothing else changes. *)
Definition removed (bin bin' : TBin) (percent : Z) : Prop :=
  ∃ cleared : list Z, NoDup cleared ∧ vsize cleared = percent * vsize bin / 100 ∧
    vsize bin' = vsize bin ∧
    ∀ j b, bin !! j = Some b → bin' !! j = Some (if decide (Z.of_nat j ∈ cleared) then false else b).

Lemma clear_positions (bin : TBin) positions m : positions ≡ₚ xrange (vsize bin) → 0 ≤ m ≤ vsize bin →
  ∃ bin', mfold (λ (bin : TBin) (i : Z), pos ← vat positions i; vset bin pos false) bin (xrange m) = Ret bin' ∧
    vsize bin' = vsize bin ∧
    ∀ j b, bin !! j = Some b →
      bin' !! j = Some (if decide (Z.of_nat j ∈ take (Z.to_nat m) positions) then false else b).
Proof.
  intros Hp Hm. rewrite xrange_seqZ. assert (Hl : vsize positions = vsize bin).
  { unfold vsize at 1. rewrite Hp. change (vsize (xrange (vsize bin)) = vsize bin). apply vsize_xrange, vsize_nonneg. }
  destruct (mfold_seqZ (λ i (bin' : TBin), vsize bin' = vsize bin ∧ ∀ j b, bin !! j = Some b →
      bin' !! j = Some (if decide (Z.of_nat j ∈ take (Z.to_nat i) positions) then false else b))
    (λ (bin : TBin) (i : Z), pos ← vat positions i; vset bin pos false) 0 m bin) as (bin' & Hr & Hv & Hb).
  - lia.
  - split; [done|]. intros j b Hj. by rewrite decide_False by (by intros ?%elem_of_nil).
  - intros i bin1 Hi [Hv Hb]. destruct (vat_in_range positions i) as (pos & Hpos & Hpl); [lia|].
    assert (Hin : pos ∈ xrange (vsize bin)) by (rewrite <- Hp; by eapply list_elem_of_lookup_2).
    apply elem_of_xrange in Hin. rewrite Hpos, bind_Ret. eexists. split; [apply vset_Ret; split; [lia|done]|].
    split; [unfold vsize in *; by rewrite length_insert|]. intros j b Hj.
    replace (Z.to_nat (i + 1)) with (S (Z.to_nat i)) by lia. rewrite (take_S_r _ _ _ Hpl).
    destruct (decide (Z.of_nat j = pos)) as [<-|Hne].
    + rewrite decide_True by (apply elem_of_app; right; by apply list_elem_of_singleton).
      rewrite Nat2Z.id. apply list_lookup_insert_eq. unfold vsize in *. lia.
    + rewrite list_lookup_insert_ne by lia. rewrite (Hb j b Hj). f_equal.
      apply decide_ext. rewrite elem_of_app, list_elem_of_singleton. naive_solver.
  - exists bin'. by rewrite Hr.
Qed.

Lemma RemoveInfo_correct bin percent : vsize bin ≤ RandMax (G := G) → 0 ≤ percent ≤ 100 → percent * vsize bin < 2 ^ 31 →
  runs draws (draws * length bin) (RemoveInfo draws bin percent) (λ bin', removed bin bin' percent).
Proof.
  intros Hv Hp Hb. unfold RemoveInfo. pose proof (vsize_nonneg bin) as Hn.
  assert (Hx : vsize (xrange (vsize bin)) = vsize bin) by (by apply vsize_xrange).
  apply (runs_weaken draws (draws * length (xrange (vsize bin)) + 0) _ _ (λ bin', removed bin bin' percent));
    [apply (runs_bind draws _ 0 _ _ (λ l, l ≡ₚ xrange (vsize bin)))| |].
  - apply runs_Shuffle. lia.
  - intros positions Hpos. cbn [fst snd].
    assert (Hl : vsize positions = vsize bin) by (unfold vsize at 1; by rewrite Hpos).
    destruct (clear_positions bin positions (percent * vsize bin / 100) Hpos) as (bin' & Hr & Hv' & Hb').
    { split; [apply Z.div_pos; nia|apply Z.div_le_upper_bound; nia]. }
    intros g Hg Hlow. exists bin', 0%nat. unfold int_mul. rewrite Hl.
    replace ((- 2 ^ 31 <=? percent * vsize bin) && (percent * vsize bin <? 2 ^ 31)) with true by nia.
    rewrite bind_Ret, Z.quot_div_nonneg by nia. rewrite Hr, bind_Ret. split; [done|]. split; [lia|].
    unfold removed. exists (take (Z.to_nat (percent * vsize bin / 100)) positions). split_and!; [| |done|done].
    + assert (Hnd : NoDup positions) by (rewrite Hpos, xrange_seqZ; apply NoDup_seqZ).
      rewrite <- (take_drop (Z.to_nat (percent * vsize bin / 100)) positions) in Hnd. by apply NoDup_app in Hnd as [? _].
    + unfold vsize at 1. rewrite length_take. unfold vsize in Hl |- *.
      pose proof (Z.div_pos (percent * Z.of_nat (length bin)) 100).
      pose proof (Z.div_le_upper_bound (percent * Z.of_nat (length bin)) 100 (Z.of_nat (length bin))).
      unfold vsize in *. nia.
  - assert (Hlen : length (xrange (vsize bin)) = length bin) by (unfold vsize in *; lia). rewrite Hlen. lia.
  - done.
Qed.

End RemoveInfo.

(** The inverse of a permutation of the first numbers is one, with the arguments and the
    values exchanged. *)
Lemma InvertPermutation_correct p : p ≡ₚ xrange (vsize p) →
  ∃ q, InvertPermutation p = Ret q ∧ q ≡ₚ xrange (vsize p) ∧
    ∀ i j, p !! i = Some (Z.of_nat j) ↔ q !! j = Some (Z.of_nat i).
Proof.
  intros Hp. assert (Hnd : NoDup p) by (rewrite Hp, xrange_seqZ; apply NoDup_seqZ).
  assert (Hin : ∀ z, z ∈ p ↔ 0 ≤ z < vsize p) by (intros z; rewrite Hp at 1; apply elem_of_xrange).
  unfold InvertPermutation. rewrite xrange_seqZ.
  destruct (mfold_seqZ (λ i q, vsize q = vsize p ∧ ∀ k z, Z.of_nat k < i → p !! k = Some z → q !! Z.to_nat z = Some (Z.of_nat k))
    (λ (result : list Z) (i : Z), p0 ← vat p i; vset result p0 i) 0 (vsize p) (replicate (length p) 0)) as (q & Hr & Hv & Hq).
  - apply vsize_nonneg.
  - split; [unfold vsize; by rewrite length_replicate|lia].
  - intros i q Hi [Hv Hq]. destruct (vat_in_range p i) as (x & Hx & Hxl); [lia|].
    pose proof (proj1 (Hin x) ltac:(by eapply list_elem_of_lookup_2)) as Hxr.
    rewrite Hx, bind_Ret. eexists. split; [apply vset_Ret; split; [lia|done]|].
    split; [unfold vsize in *; by rewrite length_insert|]. intros k z Hk Hz.
    pose proof (proj1 (Hin z) ltac:(by eapply list_elem_of_lookup_2)) as Hzr.
    destruct (decide (Z.of_nat k = i)) as [<-|Hne].
    + rewrite Nat2Z.id in Hxl. simplify_eq. apply list_lookup_insert_eq. unfold vsize in *. lia.
    + rewrite list_lookup_insert_ne; [apply Hq; [lia|done]|]. intros He.
      assert (x = z) as -> by lia. pose proof (NoDup_lookup _ _ _ _ Hnd Hxl Hz). lia.
  - rewrite Hr. exists q. split; [done|].
    assert (Hfw : ∀ i j, p !! i = Some (Z.of_nat j) → q !! j = Some (Z.of_nat i)).
    { intros i j Hij. rewrite <- (Nat2Z.id j). apply Hq; [|done]. apply lookup_lt_Some in Hij. unfold vsize. lia. }
    assert (Hiff : ∀ i j, p !! i = Some (Z.of_nat j) ↔ q !! j = Some (Z.of_nat i)).
    { intros i j. split; [apply Hfw|]. intros Hji. pose proof (lookup_lt_Some _ _ _ Hji) as Hj.
      assert (Hjp : Z.of_nat j ∈ p) by (apply Hin; unfold vsize in *; lia).
      apply list_elem_of_lookup in Hjp as [i' Hi']. pose proof (Hfw i' j Hi'). by simplify_eq. }
    assert (Hval : ∀ j x, q !! j = Some x → ∃ i, x = Z.of_nat i ∧ p !! i = Some (Z.of_nat j)).
    { intros j x Hj. pose proof (lookup_lt_Some _ _ _ Hj) as Hjl.
      assert (Hjp : Z.of_nat j ∈ p) by (apply Hin; unfold vsize in *; lia).
      apply list_elem_of_lookup in Hjp as [i Hi]. pose proof (Hfw i j Hi). simplify_eq. by exists i. }
    split; [|done]. apply NoDup_Permutation; [|apply NoDup_seqZ|].
    + apply NoDup_alt. intros i j x Hi Hj. destruct (Hval i x Hi) as (k & -> & Hk), (Hval j _ Hj) as (k' & He & Hk').
      assert (k' = k) as -> by lia. simplify_eq. lia.
    + intros z. rewrite elem_of_seqZ. split.
      * intros [j Hj]%list_elem_of_lookup. destruct (Hval j z Hj) as (k & -> & Hk%lookup_lt_Some). unfold vsize. lia.
      * intros Hz. destruct (lookup_lt_is_Some_2 p (Z.to_nat z)) as [y Hy]; [unfold vsize in Hz; lia|].
        pose proof (proj1 (Hin y) ltac:(by eapply list_elem_of_lookup_2)) as Hyr.
        apply (list_elem_of_lookup_2 _ (Z.to_nat y)). rewrite <- (Z2Nat.id z) by lia. apply Hfw.
        by rewrite Z2Nat.id by lia.
Qed.

(** So inverting twice gives the permutation back. *)
Lemma InvertPermutation_involutive p : p ≡ₚ xrange (vsize p) →
  (q ← InvertPermutation p; InvertPermutation q) = Ret p.
Proof.
  intros Hp. destruct (InvertPermutation_correct p Hp) as (q & -> & Hqp & Hq). rewrite bind_Ret.
  assert (Hv : vsize q = vsize p).
  { unfold vsize at 1. rewrite Hqp. apply (vsize_xrange (vsize p)), vsize_nonneg. }
  destruct (InvertPermutation_correct q) as (r & -> & Hrp & Hr); [by rewrite Hv|]. f_equal.
  assert (Hrange : ∀ j x, r !! j = Some x → 0 ≤ x).
  { intros j x Hj. assert (Hx : x ∈ r) by (by eapply list_elem_of_lookup_2). rewrite Hrp in Hx.
    apply elem_of_xrange in Hx. lia. }
  apply list_eq. intros j. destruct (r !! j) as [x|] eqn:Hj.
  - pose proof (Hrange j x Hj) as Hx. rewrite <- (Z2Nat.id x) in Hj |- * by done. symmetry. by apply Hq, Hr.
  - apply lookup_ge_None in Hj. symmetry. apply lookup_ge_None. assert (Hl : vsize r = vsize q).
    { unfold vsize at 1. rewrite Hrp. apply (vsize_xrange (vsize q)), vsize_nonneg. }
    unfold vsize in *. lia.
Qed.
