(* ===== verification/Entropy.v ===== *)
(** * Entropy: [cmicot/lib/entropy.h/.cpp], [cmicot/lib/entropy_calculator.h/.cpp]

    The bins of a sample point are the bits of a 64-bit value.  Two routines
    compute the entropy of such values: [Entropy] counts them in a hash map,
    [TEntropyCalculator] in a vector or a hash map, whichever fits the range of
    the values.  The definitions compute in any [Arith]; over the reals both are
    the entropy [hbits] of [Info]. *)
From Stdlib Require Import Reals Lra.
From S2P Require Import Prelude Arith XRange Algorithm HashTable HashMap BinFeatureSet Info.

Open Scope Z_scope.

(** ** Flattening bins: [Impl::Flatten], [Impl::FlattenBins] *)

(** [x <<= 1; if (b) x |= 1;] on a [ui64]. *)
Definition shift_in (x : Z) (b : bool) : Z :=
  let x := u64 (Z.shiftl x 1) in
  if b then Z.lor x 1 else x.

(** The loop of [Flatten], which stops at the shorter of the two vectors. *)
Fixpoint flatten_loop (result : list Z) (bin : TBin) : list Z :=
  match result, bin with
  | x :: result, b :: bin => shift_in x b :: flatten_loop result bin
  | result, _ => result
  end.

Definition Flatten (result : list Z) (bin : TBin) : list Z :=
  let result := if decide (result = []) then vresize result (vsize bin) 0 else result in
  flatten_loop result bin.

(** An argument of [FlattenBins]: a bin or a container of bins. *)
Inductive bins_arg : Type :=
| ABin (bin : TBin)
| ABins (bins : list TBin).

Definition flatten_arg (result : list Z) (arg : bins_arg) : list Z :=
  match arg with
  | ABin bin => Flatten result bin
  | ABins bins => foldl Flatten result bins
  end.

Definition FlattenBins (result : list Z) (args : list bins_arg) : list Z :=
  foldl flatten_arg result args.

(** ** The hash map of counts

    [THash<ui64>] is the identity. *)

Definition ui64_hash (x : Z) : Z := x.

#[export] Instance ui64_map T : MapImpl Z T (yhash Z T) := yhash_map ui64_hash.

(** The loops [for (auto x : values) ++count[x];] *)
Section Counting.
  Context {M : Type} {Himpl : MapImpl Z Z M}.

Definition count_value (count : M) (x : Z) : outcome M :=
  '(count, c) ← m_subscript count x 0;
  Ret (m_assign count x (c + 1)).

Definition count_values (count : M) (values : list Z) : outcome M :=
  mfold count_value count values.

End Counting.

(** ** [Entropy] *)

Section Numeric.
  Context `{Arith D}.

(** [kv.second * Log2(1.0 * kv.second / total)] *)
Definition entropy_term (total c : Z) : D :=
  a_ofZ c ⊠ Log2 (a_lit 1 0 ⊠ a_ofZ c ⊘ a_ofZ total).

(** [-result / total] after adding the terms of the counts to [0.0]. *)
Definition entropy_sum (total : Z) (counts : list Z) : D :=
  a_opp (foldl (λ result c, result ⊞ entropy_term total c) (a_lit 0 0) counts) ⊘ a_ofZ total.

(** [double Entropy(const yvector<ui64>& values)] *)
Definition Entropy_values (values : list Z) : outcome D :=
  count ← count_values (m_empty (M := yhash Z Z)) values;
  Ret (entropy_sum (vsize values) (snd <$> m_entries count)).

(** [Entropy(args...)] *)
Definition Entropy (args : list bins_arg) : outcome D := Entropy_values (FlattenBins [] args).

(** [MutualInformation(first, second)] *)
Definition MutualInformation (first second : bins_arg) : outcome D :=
  e1 ← Entropy [first]; e2 ← Entropy [second]; e12 ← Entropy [first; second];
  Ret (e1 ⊞ e2 ⊟ e12).

(** [ConditionalMutualInformation(first, second, condition)] *)
Definition ConditionalMutualInformation (first second condition : bins_arg) : outcome D :=
  let flattened_bins := FlattenBins [] [condition] in
  condition_entropy ← Entropy_values flattened_bins;
  let flattened_bins_copy := flattened_bins in
  let flattened_bins := FlattenBins flattened_bins [first] in
  first_condition_entropy ← Entropy_values flattened_bins;
  let flattened_bins := FlattenBins flattened_bins [second] in
  first_second_condition_entropy ← Entropy_values flattened_bins;
  let flattened_bins_copy := FlattenBins flattened_bins_copy [second] in
  second_condition_entropy ← Entropy_values flattened_bins_copy;
  Ret (first_condition_entropy ⊟ condition_entropy ⊟ first_second_condition_entropy
         ⊞ second_condition_entropy).

(** ** Frequency counters: [IFrequencyCounter] *)

Inductive frequency_counter : Type :=
| TVectorCounter (MinValue : Z) (ValueCount : list Z)
| THashMapCounter (ValueCount : yhash Z Z).

(** The constructor of [TVectorCounter]. *)
Definition vector_counter (min_value max_value : Z) : frequency_counter :=
  TVectorCounter min_value (replicate (Z.to_nat (u64 (max_value - min_value + 1))) 0).

(** [Add(value)] *)
Definition counter_add (f : frequency_counter) (value : Z) : outcome frequency_counter :=
  match f with
  | TVectorCounter min_value value_count =>
      let i := u64 (value - min_value) in
      c ← vat value_count i;
      value_count ← vset value_count i (c + 1);
      Ret (TVectorCounter min_value value_count)
  | THashMapCounter value_count =>
      value_count ← count_value value_count value;
      Ret (THashMapCounter value_count)
  end.

(** [GetEntropy(totalValues)] *)
Definition counter_entropy (f : frequency_counter) (total_values : Z) : D :=
  match f with
  | TVectorCounter _ value_count =>
      entropy_sum total_values (filter (λ kv, (0 <? kv) = true) value_count)
  | THashMapCounter value_count => entropy_sum total_values (snd <$> m_entries value_count)
  end.

(** [BuildFrequencyCounter(minValue, maxValue)] *)
Definition BuildFrequencyCounter (min_value max_value : Z) : frequency_counter :=
  let range_size := u64 (max_value - min_value + 1) in
  if Z.shiftl 1 22 <? range_size then THashMapCounter m_empty
  else vector_counter min_value max_value.

(** ** [TEntropyCalculator] *)

Definition MAX_BIN_COUNT : Z := 64.

Record TEntropyCalculator : Type := {
  BinCount : Z;
  Values : list Z;
}.

Definition entropy_calculator (bin_size : Z) : TEntropyCalculator :=
  {| BinCount := 0; Values := replicate (Z.to_nat bin_size) 0 |}.

Definition AddBin (calc : TEntropyCalculator) (bin : TBin) : outcome TEntropyCalculator :=
  _ ← verify (vsize bin =? vsize (Values calc)) (VBinSize (vsize (Values calc)) (vsize bin));
  _ ← verify (BinCount calc + 1 <=? MAX_BIN_COUNT) (VBinCount MAX_BIN_COUNT);
  Ret {| BinCount := BinCount calc + 1; Values := zip_with shift_in (Values calc) bin |}.

Definition GetEntropy (calc : TEntropyCalculator) : outcome D :=
  '(mn, mx) ← MinMaxElement (Values calc);
  freq_counter ← mfold counter_add (BuildFrequencyCounter mn mx) (Values calc);
  Ret (counter_entropy freq_counter (vsize (Values calc))).

(** [2 * Values[i] + bin[i]] on [ui64]. *)
Definition extra_value (x : Z) (b : bool) : Z := u64 (u64 (2 * x) + Z.b2z b).

Definition GetEntropyWithExtraBin (calc : TEntropyCalculator) (bin : TBin) : outcome D :=
  _ ← verify (vsize bin =? vsize (Values calc)) (VBinSize (vsize (Values calc)) (vsize bin));
  '(mn, mx) ← MinMaxElement (Values calc);
  freq_counter ← mfold counter_add
    (BuildFrequencyCounter (u64 (2 * mn)) (u64 (u64 (2 * mx) + 1)))
    (zip_with extra_value (Values calc) bin);
  Ret (counter_entropy freq_counter (vsize (Values calc))).

End Numeric.

(** ** Counts of values *)

(** The number of occurrences of a value. *)
Definition occ (xs : list Z) (k : Z) : Z := vsize (filter (λ x, x = k) xs).

(** The counts of the distinct values of [xs], in some order. *)
Definition counts_of (xs counts : list Z) : Prop :=
  ∃ ks, NoDup ks ∧ (∀ k, k ∈ ks ↔ k ∈ xs) ∧ counts = occ xs <$> ks.

Lemma occ_snoc xs x k : occ (xs ++ [x]) k = occ xs k + if decide (x = k) then 1 else 0.
Proof.
  unfold occ. rewrite filter_app, vsize_app, filter_cons, filter_nil.
  case_decide; autorewrite with vsize; lia.
Qed.

Lemma occ_pos xs k : 0 < occ xs k ↔ k ∈ xs.
Proof.
  unfold occ. induction xs as [|x xs IH]; [cbn; split; [done|by intros ?%elem_of_nil]|].
  rewrite filter_cons, elem_of_cons. pose proof (vsize_nonneg (filter (λ x, x = k) xs)).
  case_decide as Hx; [rewrite vsize_cons; split; [by left|lia]|].
  rewrite IH. naive_solver.
Qed.

Lemma occ_nonneg xs k : 0 ≤ occ xs k.
Proof. apply vsize_nonneg. Qed.

(** The order of the counts is the only freedom. *)
Lemma counts_of_perm xs c1 c2 : counts_of xs c1 → counts_of xs c2 → c1 ≡ₚ c2.
Proof.
  intros (k1 & Hn1 & Hk1 & ->) (k2 & Hn2 & Hk2 & ->).
  apply fmap_Permutation, NoDup_Permutation; [done|done|]. intros k. by rewrite Hk1, Hk2.
Qed.

(** *** Counting in a map *)

Definition count_map (g : gmap Z Z) (x : Z) : gmap Z Z := <[x := default 0 (g !! x) + 1]> g.

Lemma count_map_lookup xs k :
  foldl count_map ∅ xs !! k = if decide (k ∈ xs) then Some (occ xs k) else None.
Proof.
  induction xs as [|x xs IH] using rev_ind; [done|].
  rewrite foldl_snoc. unfold count_map at 1. rewrite occ_snoc.
  destruct (decide (x = k)) as [<-|Hne].
  - rewrite lookup_insert_eq, IH. rewrite (decide_True (P := x ∈ xs ++ [x])) by set_solver.
    f_equal. case_decide as Hx; [done|]. cbn. rewrite <- occ_pos in Hx. pose proof (occ_nonneg xs x). lia.
  - rewrite lookup_insert_ne, IH by done. repeat case_decide; try set_solver. f_equal. lia.
Qed.

Section CountingCorrect.
  Context {M : Type} {Himpl : MapImpl Z Z M}.

Lemma count_values_rep (m : M) g xs :
  m_rep m g → ∃ m', count_values m xs = Ret m' ∧ m_rep m' (foldl count_map g xs).
Proof.
  intros Hr. apply (mfold_inv (λ done m, m_rep m (foldl count_map g done))); [done|].
  intros pre x post m1 _ Hr1. rewrite foldl_snoc. unfold count_value.
  set (g1 := foldl count_map g pre) in *.
  destruct (m_rep_subscript m1 _ x 0 Hr1) as (m2 & -> & Hr2). cbn.
  eexists. split; [done|]. unfold count_map.
  rewrite <- (insert_insert_eq g1 x _ (default 0 (g1 !! x))).
  apply m_rep_assign; [done|]. rewrite lookup_insert_eq. eauto.
Qed.

(** Counting a vector in any map enumerates its distinct values with their
    numbers of occurrences. *)
Lemma count_values_spec xs :
  ∃ m : M, count_values m_empty xs = Ret m ∧ counts_of xs (snd <$> m_entries m).
Proof.
  destruct (count_values_rep (m_empty : M) ∅ xs m_rep_empty) as (m & -> & Hr).
  exists m. split; [done|]. apply m_rep_entries in Hr.
  assert (Hel : ∀ k c, (k, c) ∈ m_entries m ↔ k ∈ xs ∧ c = occ xs k).
  { intros k c. rewrite Hr, elem_of_map_to_list, count_map_lookup.
    case_decide; naive_solver. }
  exists (fst <$> m_entries m). split_and!.
  - rewrite Hr. apply NoDup_fst_map_to_list.
  - intros k. rewrite list_elem_of_fmap. split.
    + by intros ([k' c] & -> & [? _]%Hel).
    + intros Hk. exists (k, occ xs k). by rewrite Hel.
  - rewrite <- list_fmap_compose. apply list_fmap_ext. intros i [k c] Hi.
    apply list_elem_of_lookup_2, Hel in Hi as [_ ->]. done.
Qed.

End CountingCorrect.

(** *** Counting in a vector *)

Lemma seqZ_lookup_insert (f : Z → Z) m n x c :
  m ≤ x < m + n →
  <[Z.to_nat (x - m) := c]> (f <$> seqZ m n) = (λ k, if decide (k = x) then c else f k) <$> seqZ m n.
Proof.
  intros Hx. apply list_eq. intros i.
  destruct (decide (i = Z.to_nat (x - m))) as [->|Hne].
  - rewrite list_lookup_insert_eq by (rewrite length_fmap, length_seqZ; lia).
    rewrite list_lookup_fmap, lookup_seqZ_lt by lia. cbn. by rewrite decide_True by lia.
  - rewrite list_lookup_insert_ne by done. rewrite !list_lookup_fmap.
    destruct (seqZ m n !! i) as [k|] eqn:Hk; [|done]. cbn.
    apply lookup_seqZ in Hk as [-> ?]. by rewrite decide_False by lia.
Qed.

Section VectorCorrect.
  Context (mn mx : Z) (Hmn : 0 ≤ mn ≤ mx) (Hmx : mx < 2 ^ 64) (Hfull : mx - mn + 1 < 2 ^ 64).

Definition vector_counts (xs : list Z) : list Z := occ xs <$> seqZ mn (mx - mn + 1).

Lemma vector_counts_size xs : vsize (vector_counts xs) = mx - mn + 1.
Proof. unfold vsize, vector_counts. rewrite length_fmap, length_seqZ. lia. Qed.

Lemma vector_counter_add xs x :
  mn ≤ x ≤ mx →
  counter_add (TVectorCounter mn (vector_counts xs)) x =
    Ret (TVectorCounter mn (vector_counts (xs ++ [x]))).
Proof.
  intros Hx. unfold counter_add. rewrite u64_small by lia.
  assert (Hvat : vat (vector_counts xs) (x - mn) = Ret (occ xs x)).
  { apply vat_Ret. split; [lia|]. unfold vector_counts.
    rewrite list_lookup_fmap, lookup_seqZ_lt by lia. cbn. do 2 f_equal. lia. }
  rewrite Hvat. cbn. unfold vset. rewrite vector_counts_size.
  rewrite (proj2 (Z.leb_le _ _)), (proj2 (Z.ltb_lt _ _)) by lia. cbn. do 2 f_equal.
  unfold vector_counts. rewrite seqZ_lookup_insert by lia. apply list_fmap_ext. intros _ k _.
  rewrite occ_snoc. repeat case_decide; subst; try done; lia.
Qed.

Lemma vector_counter_values xs :
  Forall (λ x, mn ≤ x ≤ mx) xs →
  mfold counter_add (vector_counter mn mx) xs = Ret (TVectorCounter mn (vector_counts xs)).
Proof.
  intros Hxs.
  destruct (mfold_inv (λ done f, f = TVectorCounter mn (vector_counts done)) counter_add xs
    (vector_counter mn mx)) as (f & -> & ->); [| |done].
  - unfold vector_counter, vector_counts. rewrite u64_small by lia. f_equal.
    apply list_eq. intros i. rewrite list_lookup_fmap.
    destruct (decide (i < Z.to_nat (mx - mn + 1))%nat).
    + rewrite lookup_replicate_2, lookup_seqZ_lt by lia. done.
    + rewrite (lookup_ge_None_2 (replicate _ _)), lookup_seqZ_ge by (rewrite ?length_replicate; lia). done.
  - intros pre x post f -> ->. eexists. split; [|done]. apply vector_counter_add.
    by apply Forall_app in Hxs as [_ [? _]%Forall_cons].
Qed.

Lemma vector_counts_of xs :
  Forall (λ x, mn ≤ x ≤ mx) xs →
  counts_of xs (filter (λ kv, (0 <? kv) = true) (vector_counts xs)).
Proof.
  intros Hxs. exists (filter (λ k, (0 <? occ xs k) = true) (seqZ mn (mx - mn + 1))). split_and!.
  - apply NoDup_filter, NoDup_seqZ.
  - intros k. rewrite list_elem_of_filter, Z.ltb_lt, occ_pos, elem_of_seqZ. split; [by intros [? _]|].
    intros Hk. split; [done|]. rewrite Forall_forall in Hxs. specialize (Hxs k Hk). lia.
  - unfold vector_counts. induction (seqZ mn (mx - mn + 1)) as [|k ks IH]; [done|].
    cbn [fmap list_fmap]. rewrite !filter_cons, IH. by case_decide.
Qed.

End VectorCorrect.

(** *** Counting in either counter *)

Section Counters.
  Context `{Arith D}.

(** The counts a counter holds, in the order [GetEntropy] visits them. *)
Definition counter_counts (f : frequency_counter) : list Z :=
  match f with
  | TVectorCounter _ value_count => filter (λ kv, (0 <? kv) = true) value_count
  | THashMapCounter value_count => snd <$> m_entries value_count
  end.

Lemma counter_entropy_counts f n : counter_entropy f n = entropy_sum n (counter_counts f).
Proof. by destruct f. Qed.

Lemma hash_counter_values xs :
  ∃ f, mfold counter_add (THashMapCounter m_empty) xs = Ret f ∧ counts_of xs (counter_counts f).
Proof.
  destruct (count_values_spec (M := yhash Z Z) xs) as (m & Hm & Hc).
  exists (THashMapCounter m). split; [|done].
  assert (Hgen : ∀ c, mfold counter_add (THashMapCounter c) xs =
    m ← count_values c xs; Ret (THashMapCounter m)).
  { clear. induction xs as [|x xs IH]; intros c; [done|].
    unfold count_values in *. cbn [mfold counter_add].
    destruct (count_value c x) as [c'|]; [|done]. cbn. by rewrite IH. }
  by rewrite Hgen, Hm.
Qed.

(** The counter [BuildFrequencyCounter] picks accepts every value of its range
    and ends with the counts of the values.  The range must not be the whole of
    [ui64], where its size wraps to zero. *)
Lemma build_counter_values mn mx xs :
  0 ≤ mn ≤ mx → mx < 2 ^ 64 → mx - mn + 1 < 2 ^ 64 → Forall (λ x, mn ≤ x ≤ mx) xs →
  ∃ f, mfold counter_add (BuildFrequencyCounter mn mx) xs = Ret f ∧ counts_of xs (counter_counts f).
Proof.
  intros Hmn Hmx Hfull Hxs. unfold BuildFrequencyCounter.
  destruct (_ <? _); [apply hash_counter_values|].
  rewrite vector_counter_values by done. eexists. split; [done|].
  by apply (vector_counts_of mn mx).
Qed.

Lemma build_counter_entropy mn mx xs n :
  0 ≤ mn ≤ mx → mx < 2 ^ 64 → mx - mn + 1 < 2 ^ 64 → Forall (λ x, mn ≤ x ≤ mx) xs →
  ∃ counts, counts_of xs counts ∧
    (f ← mfold counter_add (BuildFrequencyCounter mn mx) xs; Ret (counter_entropy f n)) =
      Ret (entropy_sum n counts).
Proof.
  intros Hmn Hmx Hfull Hxs.
  destruct (build_counter_values mn mx xs) as (f & -> & Hc); [done..|].
  exists (counter_counts f). split; [done|]. cbn. by rewrite counter_entropy_counts.
Qed.

Lemma Entropy_values_counts xs :
  ∃ counts, counts_of xs counts ∧ Entropy_values xs = Ret (entropy_sum (vsize xs) counts).
Proof.
  destruct (count_values_spec (M := yhash Z Z) xs) as (m & Hm & Hc).
  eexists. split; [exact Hc|]. unfold Entropy_values. by rewrite Hm.
Qed.

End Counters.

(** The two counters agree.  On values of a range of less than [2 ^ 64]
    integers the vector counter and the hash map counter both accept every
    value and end with the same counts up to order, so the choice
    [BuildFrequencyCounter] makes by the size of the range only affects the order
    in which the terms of the entropy are added. *)
Lemma counters_agree (mn mx : Z) (xs : list Z) (Hrange : 0 ≤ mn ≤ mx) (Hmx : mx < 2 ^ 64)
    (Hfull : mx - mn + 1 < 2 ^ 64) (Hxs : Forall (λ x, mn ≤ x ≤ mx) xs) :
  ∃ v h f, mfold counter_add (vector_counter mn mx) xs = Ret v ∧
    mfold counter_add (THashMapCounter m_empty) xs = Ret h ∧
    mfold counter_add (BuildFrequencyCounter mn mx) xs = Ret f ∧
    counter_counts v ≡ₚ counter_counts h ∧ counter_counts f ≡ₚ counter_counts h ∧
    ∀ k, k ∈ xs → occ xs k ∈ counter_counts f.
Proof.
  destruct (hash_counter_values xs) as (h & Hh & Hch).
  destruct (build_counter_values mn mx xs Hrange Hmx Hfull Hxs) as (f & Hf & Hcf).
  pose proof (vector_counts_of mn mx xs Hxs) as Hcv.
  exists (TVectorCounter mn (vector_counts mn mx xs)), h, f.
  split_and!; [by apply vector_counter_values|done|done| | |].
  - by eapply counts_of_perm.
  - by eapply counts_of_perm.
  - destruct Hcf as (ks & _ & Hks & ->). intros k Hk. apply list_elem_of_fmap.
    exists k. split; [done|]. by apply Hks.
Qed.

Example counters_agree_witness :
  ∃ v h f, mfold counter_add (vector_counter 3 9) [5; 3; 9; 5] = Ret v ∧
    mfold counter_add (THashMapCounter m_empty) [5; 3; 9; 5] = Ret h ∧
    mfold counter_add (BuildFrequencyCounter 3 9) [5; 3; 9; 5] = Ret f ∧
    counter_counts v ≡ₚ counter_counts h ∧ counter_counts f ≡ₚ counter_counts h ∧
    ∀ k, k ∈ [5; 3; 9; 5] → occ [5; 3; 9; 5] k ∈ counter_counts f.
Proof.
  apply counters_agree; [lia|lia|lia|]. repeat (constructor; [lia|]). constructor.
Defined.

(** ** Exact entropy *)

Section Exact.
Local Open Scope R_scope.

Lemma occ_cnt xs k : IZR (occ xs k) = cnt xs (λ x, x) k.
Proof. unfold occ, vsize, cnt. by rewrite rsum_ind, <- INR_IZR_INZ. Qed.

Lemma foldl_rsum {A} (t : A → R) l a :
  foldl (λ r x, r + t x) a l = a + rsum t l.
Proof. revert a. induction l as [|x l IH]; intros a; cbn; [lra|]. rewrite IH. lra. Qed.

Lemma lit_0 : (a_lit 0 0 : R) = 0.
Proof. done. Qed.

Lemma lit_1 : (a_lit 1 0 : R) = 1.
Proof. done. Qed.

Lemma entropy_term_exact xs k :
  entropy_term (D := R) (vsize xs) (occ xs k) =
    cnt xs (λ x, x) k * log2 (cnt xs (λ x, x) k / INR (length xs)).
Proof.
  unfold entropy_term, Log2. rewrite lit_1. cbn [a_mul a_div a_ofZ a_log a_ln2_inv real_arith].
  rewrite occ_cnt, (INR_IZR_INZ (length xs)), Rmult_1_l. done.
Qed.

(** Over the reals the order of the counts does not matter: the sum is the
    entropy of the values. *)
Lemma entropy_sum_exact xs counts :
  counts_of xs counts → entropy_sum (D := R) (vsize xs) counts = hbits xs (λ x, x).
Proof.
  intros (ks & Hnd & Hks & ->). unfold entropy_sum. cbn [a_opp a_div a_add a_ofZ real_arith].
  rewrite (foldl_rsum (entropy_term (D := R) (vsize xs))), rsum_fmap, lit_0, Rplus_0_l.
  rewrite (rsum_ext _ _ _ (λ k _, entropy_term_exact xs k)).
  rewrite (rsum_grouped xs (λ x, x) (λ k, log2 (cnt xs (λ x, x) k / INR (length xs)))
    ks Hnd (λ a, proj2 (Hks a))).
  unfold hbits. by rewrite (INR_IZR_INZ (length xs)).
Qed.

End Exact.

(** ** Bins as bits *)

(** The value of a bin at a sample point, the values of several bins there, and
    the word whose bits they are, the first bin highest. *)
Definition bit (bin : TBin) (i : nat) : bool := default false (bin !! i).
Definition row (bins : list TBin) (i : nat) : list bool := (λ bin, bit bin i) <$> bins.
Definition word (bins : list TBin) (i : nat) : Z :=
  foldl (λ w bin, 2 * w + Z.b2z (bit bin i)) 0 bins.
Definition encode (n : nat) (bins : list TBin) : list Z := word bins <$> seq 0 n.

Lemma bit_lookup (bin : TBin) i b : bin !! i = Some b → bit bin i = b.
Proof. intros Hb. unfold bit. by rewrite Hb. Qed.

Lemma word_snoc bins bin i : word (bins ++ [bin]) i = 2 * word bins i + Z.b2z (bit bin i).
Proof. unfold word. by rewrite foldl_snoc. Qed.

Lemma word_bounds bins i : 0 ≤ word bins i < 2 ^ vsize bins.
Proof.
  induction bins as [|bin bins IH] using rev_ind; [by vm_compute|].
  rewrite word_snoc, vsize_snoc.
  rewrite Z.pow_add_r; [|apply vsize_nonneg|done].
  destruct (b2z_cases (bit bin i)) as [[-> _]|[-> _]]; lia.
Qed.

Lemma word_le bins i k : vsize bins ≤ k → 0 ≤ word bins i < 2 ^ k.
Proof.
  intros Hk. pose proof (word_bounds bins i). pose proof (vsize_nonneg bins).
  assert (2 ^ vsize bins ≤ 2 ^ k) by (by apply Z.pow_le_mono_r). lia.
Qed.

(** The word determines the bits. *)
Lemma word_inj bins i j : word bins i = word bins j ↔ row bins i = row bins j.
Proof.
  induction bins as [|bin bins IH] using rev_ind; [done|].
  rewrite !word_snoc. unfold row in *. rewrite !fmap_app. cbn. split.
  - intros [? ->]%cons_bit_inj. by rewrite (proj1 IH).
  - intros Heq. apply app_inj_2 in Heq as [? [= ->]]; [|done]. by rewrite (proj2 IH).
Qed.

Lemma length_encode n bins : length (encode n bins) = n.
Proof. unfold encode. by rewrite length_fmap, length_seq. Qed.

Lemma encode_nil n : encode n [] = replicate n 0.
Proof.
  unfold encode. cbn. induction n as [|n IH]; [done|].
  rewrite seq_S, fmap_app, IH, replicate_S_end. done.
Qed.

Lemma elem_of_encode n bins w : w ∈ encode n bins ↔ ∃ i, (i < n)%nat ∧ w = word bins i.
Proof. unfold encode. rewrite list_elem_of_fmap. setoid_rewrite elem_of_seq. naive_solver lia. Qed.

Lemma shift_in_small x b : 0 ≤ x < 2 ^ 63 → shift_in x b = 2 * x + Z.b2z b.
Proof.
  intros Hx. unfold shift_in. rewrite Z.shiftl_mul_pow2, u64_small by lia.
  replace (x * 2 ^ 1) with (2 * x) by lia. destruct b; [|cbn; lia]. destruct x; [done|reflexivity|lia].
Qed.

Lemma extra_value_small x b : 0 ≤ x < 2 ^ 63 → extra_value x b = 2 * x + Z.b2z b.
Proof.
  intros Hx. unfold extra_value. rewrite (u64_small (2 * x)) by lia.
  apply u64_small. destruct b; cbn; lia.
Qed.

(** Appending a bin to words of fewer than 64 bits, by either expression. *)
Lemma zip_with_encode (f : Z → bool → Z) n bins bin :
  (∀ x b, 0 ≤ x < 2 ^ 63 → f x b = 2 * x + Z.b2z b) →
  vsize bins < 64 → length bin = n →
  zip_with f (encode n bins) bin = encode n (bins ++ [bin]).
Proof.
  intros Hf Hk Hbin. apply list_eq. intros i. rewrite lookup_zip_with. unfold encode.
  rewrite !list_lookup_fmap. destruct (decide (i < n)%nat) as [Hi|Hi].
  - rewrite lookup_seq_lt by done. cbn.
    destruct (lookup_lt_is_Some_2 bin i) as [b Hb]; [lia|]. rewrite Hb. cbn.
    rewrite Hf by (apply word_le; lia). by rewrite word_snoc, (bit_lookup bin i b).
  - by rewrite lookup_seq_ge by lia.
Qed.

(** ** The calculator *)

(** The calculator holds the bins [bins] of [n] sample points. *)
Definition encodes (n : nat) (bins : list TBin) (calc : TEntropyCalculator) : Prop :=
  BinCount calc = vsize bins ∧ vsize bins ≤ 64 ∧ Forall (λ bin, length bin = n) bins ∧
  Values calc = encode n bins.

Lemma entropy_calculator_encodes n : encodes n [] (entropy_calculator (Z.of_nat n)).
Proof. split_and!; cbn; [done|done|done|]. by rewrite Nat2Z.id, encode_nil. Qed.

(** [AddBin] shifts the bin in below the limit, and aborts at it. *)
Lemma AddBin_spec n bins calc bin :
  encodes n bins calc → length bin = n → vsize bins < 64 →
  ∃ calc', AddBin calc bin = Ret calc' ∧ encodes n (bins ++ [bin]) calc'.
Proof.
  intros (Hc & Hle & Hall & Hv) Hbin Hlt. unfold AddBin. rewrite Hv, Hc.
  assert (vsize bin = vsize (encode n bins)) as -> by (unfold vsize; by rewrite length_encode, Hbin).
  rewrite Z.eqb_refl. cbn [verify]. rewrite bind_Ret, (proj2 (Z.leb_le _ _)) by (unfold MAX_BIN_COUNT; lia).
  cbn. eexists. split; [done|]. split_and!; cbn; autorewrite with vsize; [done|lia| |].
  - apply Forall_app. split; [done|]. by repeat constructor.
  - apply zip_with_encode; [apply shift_in_small|done|done].
Qed.

Lemma AddBin_full n bins calc bin :
  encodes n bins calc → length bin = n → vsize bins = 64 →
  AddBin calc bin = Fail (Abort (VBinCount 64)).
Proof.
  intros (Hc & Hle & Hall & Hv) Hbin Heq. unfold AddBin. rewrite Hv, Hc, Heq.
  assert (vsize bin = vsize (encode n bins)) as -> by (unfold vsize; by rewrite length_encode, Hbin).
  by rewrite Z.eqb_refl.
Qed.

(** The words span the whole of [ui64]: one is 0 and one is [2 ^ 64 - 1]. *)
Definition full_range (n : nat) (bins : list TBin) : Prop :=
  0 ∈ encode n bins ∧ 2 ^ 64 - 1 ∈ encode n bins.

Lemma not_full_range n bins : vsize bins < 64 → ¬ full_range n bins.
Proof.
  intros Hlt [_ (i & _ & Hi)%elem_of_encode]. pose proof (word_le bins i 63 ltac:(lia)). lia.
Qed.

Section CalculatorCorrect.
  Context `{Arith D}.

(** [GetEntropy] of a calculator is the entropy of its words. *)
Lemma GetEntropy_counts n bins calc :
  encodes n bins calc → (0 < n)%nat → ¬ full_range n bins →
  ∃ counts, counts_of (encode n bins) counts ∧
    GetEntropy calc = Ret (entropy_sum (Z.of_nat n) counts).
Proof.
  intros (Hc & Hle & Hall & Hv) Hn Hfull. unfold GetEntropy. rewrite Hv.
  assert (vsize (encode n bins) = Z.of_nat n) as -> by (unfold vsize; by rewrite length_encode).
  destruct (MinMaxElement_spec (encode n bins)) as (mn & mx & -> & Hmn & Hmx & Hr).
  { intros Hnil. pose proof (length_encode n bins) as Hl. rewrite Hnil in Hl. cbn in Hl. lia. }
  rewrite bind_Ret.
  pose proof Hmn as (i & Hi & ->)%elem_of_encode. pose proof Hmx as (j & Hj & ->)%elem_of_encode.
  pose proof (word_le bins i 64 Hle). pose proof (word_le bins j 64 Hle). pose proof (Hr _ Hmx).
  apply build_counter_entropy; [lia|lia| |by apply Forall_forall].
  destruct (decide (word bins j - word bins i + 1 = 2 ^ 64)); [|lia]. exfalso. apply Hfull.
  split; [replace 0 with (word bins i) by lia|replace (2 ^ 64 - 1) with (word bins j) by lia]; done.
Qed.

Lemma vsize_encode n bins : vsize (encode n bins) = Z.of_nat n.
Proof. unfold vsize. by rewrite length_encode. Qed.

(** [GetEntropyWithExtraBin] of a calculator is the entropy of the words with one
    more bit. *)
Lemma GetEntropyWithExtraBin_counts n bins calc bin :
  encodes n bins calc → length bin = n → (0 < n)%nat → vsize bins < 63 →
  ∃ counts, counts_of (encode n (bins ++ [bin])) counts ∧
    GetEntropyWithExtraBin calc bin = Ret (entropy_sum (Z.of_nat n) counts).
Proof.
  intros (Hc & Hle & Hall & Hv) Hbin Hn Hlt. unfold GetEntropyWithExtraBin. rewrite Hv.
  assert (vsize bin = Z.of_nat n) as -> by (unfold vsize; by rewrite Hbin).
  rewrite vsize_encode, Z.eqb_refl. cbn [verify]. rewrite bind_Ret.
  rewrite (zip_with_encode extra_value) by (done || lia || apply extra_value_small).
  destruct (MinMaxElement_spec (encode n bins)) as (mn & mx & -> & Hmn & Hmx & Hr).
  { intros Hnil. pose proof (length_encode n bins) as Hl. rewrite Hnil in Hl. cbn in Hl. lia. }
  rewrite bind_Ret.
  pose proof Hmn as (i & Hi & ->)%elem_of_encode. pose proof Hmx as (j & Hj & ->)%elem_of_encode.
  pose proof (word_le bins i 62 ltac:(lia)). pose proof (word_le bins j 62 ltac:(lia)).
  pose proof (Hr _ Hmx). rewrite (u64_small (2 * word bins i)), (u64_small (2 * word bins j)) by lia.
  rewrite u64_small by lia. apply build_counter_entropy; [lia|lia|lia|].
  apply Forall_forall. intros w (k & Hk & ->)%elem_of_encode. rewrite word_snoc.
  pose proof (Hr (word bins k) ltac:(apply elem_of_encode; eauto)).
  destruct (b2z_cases (bit bin k)) as [[-> _]|[-> _]]; lia.
Qed.

End CalculatorCorrect.

(** *** Building a calculator *)

(** Two sample points have the same row when every bin agrees on them. *)
Lemma row_eq n bins i j :
  Forall (λ bin, length bin = n) bins → (i < n)%nat → (j < n)%nat →
  row bins i = row bins j ↔ ∀ bin : TBin, bin ∈ bins → bin !! i = bin !! j.
Proof.
  intros Hall Hi Hj. unfold row. induction Hall as [|bin bins Hbin Hall IH]; cbn.
  - split; [|done]. intros _ bin Hb. by apply elem_of_nil in Hb.
  - destruct (lookup_lt_is_Some_2 bin i) as [b Hb]; [lia|].
    destruct (lookup_lt_is_Some_2 bin j) as [c Hc]; [lia|].
    rewrite (bit_lookup bin i b), (bit_lookup bin j c) by done. split.
    + intros [= -> Hr] bin' [->|Hin]%elem_of_cons; [congruence|]. by apply IH.
    + intros Heq. f_equal; [|apply IH; intros; apply Heq; by right].
      specialize (Heq bin ltac:(by left)). congruence.
Qed.

Lemma AddBins_spec n bins added calc :
  encodes n bins calc → Forall (λ bin, length bin = n) added → vsize bins + vsize added ≤ 64 →
  ∃ calc', mfold AddBin calc added = Ret calc' ∧ encodes n (bins ++ added) calc'.
Proof.
  revert bins calc. induction added as [|bin added IH]; intros bins calc Henc Hall Hle; cbn.
  - exists calc. by rewrite app_nil_r.
  - apply Forall_cons in Hall as [Hbin Hall]. rewrite vsize_cons in Hle.
    pose proof (vsize_nonneg added).
    destruct (AddBin_spec n bins calc bin) as (calc1 & -> & Henc1); [done|done|lia|]. rewrite bind_Ret.
    replace (bins ++ bin :: added) with ((bins ++ [bin]) ++ added) by (by rewrite <- app_assoc).
    apply IH; [done|done|]. rewrite vsize_snoc. lia.
Qed.

Lemma AddBins_full n bins added calc :
  encodes n bins calc → Forall (λ bin, length bin = n) added → 64 < vsize bins + vsize added →
  mfold AddBin calc added = Fail (Abort (VBinCount 64)).
Proof.
  revert bins calc. induction added as [|bin added IH]; intros bins calc Henc Hall Hlt; cbn.
  - destruct Henc as (_ & ? & _). rewrite vsize_nil in Hlt. lia.
  - apply Forall_cons in Hall as [Hbin Hall]. rewrite vsize_cons in Hlt.
    destruct (decide (vsize bins = 64)); [by rewrite (AddBin_full n bins)|].
    destruct (AddBin_spec n bins calc bin) as (calc1 & -> & Henc1);
      [done|done|destruct Henc as (_ & ? & _); lia|]. rewrite bind_Ret.
    apply (IH (bins ++ [bin])); [done|done|]. rewrite vsize_snoc. lia.
Qed.

(** C36: adding bins to a new calculator for [n] values.  Up to 64 bins it returns,
    its values are below [2 ^ k] for [k] bins, and two sample points get the same
    value exactly when all bins agree on them; the next bin aborts the process
    with the bin count check. *)
Theorem AddBin_encodes (n : nat) (bins : list TBin) (Hlen : Forall (λ bin, length bin = n) bins) :
  if decide (vsize bins ≤ 64) then
    ∃ calc, mfold AddBin (entropy_calculator (Z.of_nat n)) bins = Ret calc ∧
      length (Values calc) = n ∧ Forall (λ v, 0 ≤ v < 2 ^ vsize bins) (Values calc) ∧
      ∀ i j v w, Values calc !! i = Some v → Values calc !! j = Some w →
        (v = w ↔ ∀ bin, bin ∈ bins → bin !! i = bin !! j)
  else mfold AddBin (entropy_calculator (Z.of_nat n)) bins = Fail (Abort (VBinCount 64)).
Proof.
  case_decide as Hk.
  - destruct (AddBins_spec n [] bins (entropy_calculator (Z.of_nat n))) as (calc & Hrun & Henc);
      [apply entropy_calculator_encodes|done|done|].
    exists calc. destruct Henc as (_ & _ & _ & Hv). cbn in Hv. rewrite Hv. split_and!; [done| | |].
    + apply length_encode.
    + apply Forall_forall. intros v (i & _ & ->)%elem_of_encode. apply word_bounds.
    + intros i j v w Hi Hj. unfold encode in Hi, Hj.
      apply list_lookup_fmap_Some in Hi as (i' & -> & [-> Hi]%lookup_seq).
      apply list_lookup_fmap_Some in Hj as (j' & -> & [-> Hj]%lookup_seq).
      rewrite word_inj. apply (row_eq n); [done|lia|lia].
  - apply (AddBins_full n []); [apply entropy_calculator_encodes|done|]. rewrite vsize_nil. revert Hk. lia.
Qed.

Example AddBin_encodes_witness :
  ∃ calc, mfold AddBin (entropy_calculator 3) [[true; false; true]; [false; false; true]] = Ret calc ∧
    length (Values calc) = 3%nat ∧ Forall (λ v, 0 ≤ v < 2 ^ 2) (Values calc) ∧
    ∀ i j v w, Values calc !! i = Some v → Values calc !! j = Some w →
      (v = w ↔ ∀ bin, bin ∈ [[true; false; true]; [false; false; true]] → bin !! i = bin !! j).
Proof. apply (AddBin_encodes 3 [[true; false; true]; [false; false; true]]). by repeat constructor. Defined.

(** ** Flattening *)

(** The result of flattening bins: empty without bins, their words otherwise. *)
Definition flat (n : nat) (bins : list TBin) : list Z :=
  if decide (bins = []) then [] else encode n bins.

Lemma flatten_loop_zip xs bin :
  length xs = length bin → flatten_loop xs bin = zip_with shift_in xs bin.
Proof. revert bin. induction xs as [|x xs IH]; intros [|b bin] Hl; cbn in *; try done. f_equal. apply IH. lia. Qed.

Lemma Flatten_spec n bins bin :
  (0 < n)%nat → length bin = n → vsize bins < 64 →
  Flatten (flat n bins) bin = flat n (bins ++ [bin]).
Proof.
  intros Hn Hbin Hk. unfold Flatten, flat.
  rewrite (decide_False (P := bins ++ [bin] = [])) by (by intros [_ ?]%app_nil).
  assert (Hne : ∀ bs, encode n bs ≠ []).
  { intros bs Hnil. pose proof (length_encode n bs) as Hl. rewrite Hnil in Hl. cbn in Hl. lia. }
  rewrite <- (zip_with_encode shift_in n bins bin) by (done || apply shift_in_small).
  rewrite <- flatten_loop_zip by (by rewrite length_encode).
  destruct (decide (bins = [])) as [->|Hb].
  - rewrite decide_True, encode_nil by done. f_equal. unfold vresize, vsize.
    rewrite take_nil, Nat2Z.id, Hbin. cbn [app length]. f_equal. lia.
  - by rewrite decide_False.
Qed.

(** The bins of the arguments of [FlattenBins]. *)
Definition arg_bins (arg : bins_arg) : list TBin :=
  match arg with ABin bin => [bin] | ABins bins => bins end.

Lemma FlattenBins_concat result args :
  FlattenBins result args = foldl Flatten result (concat (arg_bins <$> args)).
Proof.
  unfold FlattenBins. revert result. induction args as [|arg args IH]; intros result; [done|].
  cbn. rewrite IH, foldl_app. f_equal. by destruct arg.
Qed.

Lemma FlattenBins_spec n bins args :
  (0 < n)%nat → Forall (λ bin, length bin = n) (concat (arg_bins <$> args)) →
  vsize bins + vsize (concat (arg_bins <$> args)) ≤ 64 →
  FlattenBins (flat n bins) args = flat n (bins ++ concat (arg_bins <$> args)).
Proof.
  intros Hn. rewrite FlattenBins_concat. generalize (concat (arg_bins <$> args)) as added.
  intros added. revert bins. induction added as [|bin added IH]; intros bins Hall Hle; cbn.
  - by rewrite app_nil_r.
  - apply Forall_cons in Hall as [Hbin Hall]. rewrite vsize_cons in Hle.
    pose proof (vsize_nonneg added). rewrite Flatten_spec by (done || lia).
    rewrite IH; [by rewrite <- app_assoc|done|rewrite vsize_snoc; lia].
Qed.

(** ** Exact entropies of bins *)

Section ExactBins.
Local Open Scope R_scope.

(** The joint entropy of bins over [n] sample points. *)
Definition bins_entropy (n : nat) (bins : list TBin) : R := hbits (seq 0 n) (row bins).

Lemma hbits_encode n bins : hbits (encode n bins) (λ x, x) = bins_entropy n bins.
Proof.
  unfold encode, bins_entropy. rewrite (hbits_fmap (word bins) (λ x, x)).
  apply hbits_kernel. intros i j _ _. apply word_inj.
Qed.

Lemma entropy_sum_encode n bins counts :
  counts_of (encode n bins) counts →
  entropy_sum (D := R) (Z.of_nat n) counts = bins_entropy n bins.
Proof.
  intros Hc. rewrite <- (vsize_encode n bins). rewrite <- hbits_encode.
  by apply entropy_sum_exact.
Qed.

Lemma GetEntropy_exact n bins calc :
  encodes n bins calc → (0 < n)%nat → ¬ full_range n bins →
  GetEntropy (D := R) calc = Ret (bins_entropy n bins).
Proof.
  intros Henc Hn Hf. destruct (GetEntropy_counts (D := R) n bins calc) as (c & Hc & ->); [done..|].
  by rewrite (entropy_sum_encode n bins).
Qed.

Lemma GetEntropyWithExtraBin_exact n bins calc bin :
  encodes n bins calc → length bin = n → (0 < n)%nat → (vsize bins < 63)%Z →
  GetEntropyWithExtraBin (D := R) calc bin = Ret (bins_entropy n (bins ++ [bin])).
Proof.
  intros Henc Hbin Hn Hk.
  destruct (GetEntropyWithExtraBin_counts (D := R) n bins calc bin) as (c & Hc & ->); [done..|].
  by rewrite (entropy_sum_encode n (bins ++ [bin])).
Qed.

Lemma Entropy_values_exact n bins :
  Entropy_values (D := R) (encode n bins) = Ret (bins_entropy n bins).
Proof.
  destruct (Entropy_values_counts (D := R) (encode n bins)) as (c & Hc & ->).
  rewrite vsize_encode. by rewrite (entropy_sum_encode n bins).
Qed.

Lemma Entropy_exact n args :
  (0 < n)%nat → Forall (λ bin, length bin = n) (concat (arg_bins <$> args)) →
  concat (arg_bins <$> args) ≠ [] → (vsize (concat (arg_bins <$> args)) ≤ 64)%Z →
  Entropy (D := R) args = Ret (bins_entropy n (concat (arg_bins <$> args))).
Proof.
  intros Hn Hall Hne Hk. unfold Entropy. change (@nil Z) with (flat n []).
  rewrite (FlattenBins_spec n []) by (done || (rewrite vsize_nil; lia)). cbn [app].
  unfold flat. rewrite decide_False by done. apply Entropy_values_exact.
Qed.

Lemma length_samples n : INR (length (seq 0 n)) = INR n.
Proof. by rewrite length_seq. Qed.

Lemma bins_entropy_bounds n bins : (0 < n)%nat → 0 <= bins_entropy n bins <= log2 (INR n).
Proof.
  intros Hn. split; [apply hbits_nonneg|]. rewrite <- length_samples. apply hbits_le_log.
  destruct n; [lia|done].
Qed.

(** Bins in any order, with repetitions, have the same joint entropy. *)
Lemma row_mem_eq bins1 bins2 i j :
  (∀ bin, bin ∈ bins1 ↔ bin ∈ bins2) → row bins1 i = row bins1 j → row bins2 i = row bins2 j.
Proof.
  intros Hmem Hr. unfold row in *. apply list_fmap_ext. intros k bin Hk%list_elem_of_lookup_2.
  apply Hmem, list_elem_of_lookup in Hk as [k' Hk'].
  assert (((λ bin, bit bin i) <$> bins1) !! k' = ((λ bin, bit bin j) <$> bins1) !! k') as Heq by (by rewrite Hr).
  rewrite !list_lookup_fmap, Hk' in Heq. cbn in Heq. congruence.
Qed.

Lemma bins_entropy_mem n bins1 bins2 :
  (∀ bin, bin ∈ bins1 ↔ bin ∈ bins2) → bins_entropy n bins1 = bins_entropy n bins2.
Proof.
  intros Hmem. apply hbits_kernel. intros i j _ _.
  split; apply row_mem_eq; [done|]. intros bin. by rewrite Hmem.
Qed.

End ExactBins.

(** C10: [GetEntropyWithExtraBin] computes what [AddBin] followed by [GetEntropy]
    would, without changing the calculator, and both compute the function
    [Entropy] of all the bins: for fewer than 63 bins of the same positive size,
    in exact arithmetic, the three return the same number, which is the joint
    entropy of the bins, between 0 and the logarithm of the size. *)
Theorem entropy_calculator_correct (n : nat) (bins : list TBin) (bin : TBin)
    (Hn : (0 < n)%nat) (Hlen : Forall (λ bin, length bin = n) (bins ++ [bin]))
    (Hk : vsize bins < 63) :
  ∃ calc calc' e,
    mfold AddBin (entropy_calculator (Z.of_nat n)) bins = Ret calc ∧
    AddBin calc bin = Ret calc' ∧
    GetEntropyWithExtraBin (D := R) calc bin = Ret e ∧
    GetEntropy (D := R) calc' = Ret e ∧
    Entropy (D := R) [ABins bins; ABin bin] = Ret e ∧
    e = bins_entropy n (bins ++ [bin]) ∧
    (0 <= e <= log2 (INR n))%R.
Proof.
  pose proof Hlen as [Hbins [Hbin _]%Forall_cons]%Forall_app.
  destruct (AddBins_spec n [] bins (entropy_calculator (Z.of_nat n))) as (calc & Hrun & Henc);
    [apply entropy_calculator_encodes|done|rewrite vsize_nil; lia|]. cbn [app] in Henc.
  destruct (AddBin_spec n bins calc bin) as (calc' & Hadd & Henc'); [done|done|lia|].
  exists calc, calc', (bins_entropy n (bins ++ [bin])). split_and!; [done|done| | | |done|..].
  - by apply GetEntropyWithExtraBin_exact.
  - apply GetEntropy_exact; [done|done|]. apply not_full_range. rewrite vsize_snoc. lia.
  - apply (Entropy_exact n [ABins bins; ABin bin]); cbn; [done|done| |].
    + by intros [_ ?]%app_nil.
    + rewrite vsize_snoc. lia.
  - by apply bins_entropy_bounds.
  - by apply bins_entropy_bounds.
Qed.

Example entropy_calculator_correct_witness :
  ∃ calc calc' e,
    mfold AddBin (entropy_calculator 3) [[true; false; true]] = Ret calc ∧
    AddBin calc [true; true; false] = Ret calc' ∧
    GetEntropyWithExtraBin (D := R) calc [true; true; false] = Ret e ∧
    GetEntropy (D := R) calc' = Ret e ∧
    Entropy (D := R) [ABins [[true; false; true]]; ABin [true; true; false]] = Ret e ∧
    e = bins_entropy 3 [[true; false; true]; [true; true; false]] ∧
    (0 <= e <= log2 (INR 3))%R.
Proof.
  apply (entropy_calculator_correct 3 [[true; false; true]] [true; true; false]);
    [lia|by repeat constructor|by vm_compute].
Defined.

(** The limit of [GetEntropyWithExtraBin].  With 63 bins, one sample point
    where all of them are false and one where all are true, the range of the
    extended values is the whole of [ui64]: its size wraps to zero, the vector
    counter is empty and the first [Add] writes outside of it. *)
Theorem extra_bin_wraps (n : nat) (bins : list TBin) (bin : TBin) (calc : TEntropyCalculator) `{Arith D}
    (Hcalc : encodes n bins calc) (Hbin : length bin = n)
    (Hzero : 0 ∈ Values calc) (Hones : 2 ^ 63 - 1 ∈ Values calc) (Hk : vsize bins = 63) :
  ∃ i, GetEntropyWithExtraBin calc bin = Fail (Undef (UIndex i 0)).
Proof.
  destruct Hcalc as (Hc & Hle & Hall & Hv). rewrite Hv in *. unfold GetEntropyWithExtraBin.
  rewrite Hv, vsize_encode. assert (vsize bin = Z.of_nat n) as -> by (unfold vsize; by rewrite Hbin).
  rewrite Z.eqb_refl. cbn [verify]. rewrite bind_Ret.
  destruct (MinMaxElement_spec (encode n bins)) as (mn & mx & -> & Hmn & Hmx & Hr).
  { intros Hnil. rewrite Hnil in Hzero. by apply elem_of_nil in Hzero. }
  rewrite bind_Ret.
  assert (Hbounds : ∀ w, w ∈ encode n bins → 0 ≤ w < 2 ^ 63).
  { intros w (i & _ & ->)%elem_of_encode. apply word_le. lia. }
  assert (mn = 0) as -> by (pose proof (Hr _ Hzero); pose proof (Hbounds mn Hmn); lia).
  assert (mx = 2 ^ 63 - 1) as -> by (pose proof (Hr _ Hones); pose proof (Hbounds mx Hmx); lia).
  change (BuildFrequencyCounter _ _) with (TVectorCounter 0 []).
  destruct (zip_with extra_value (encode n bins) bin) as [|v vs] eqn:Hz.
  - apply (f_equal length) in Hz. rewrite length_zip_with, length_encode, Hbin in Hz. cbn in Hz.
    apply elem_of_encode in Hzero as (i & ? & _). lia.
  - cbn [mfold counter_add]. unfold vat.
    destruct (Z.ltb_spec (u64 (v - 0)) 0); [pose proof (u64_range (v - 0)); lia|].
    rewrite lookup_nil. eexists. reflexivity.
Qed.

Example extra_bin_wraps_witness :
  let bins := replicate 63 [false; true] in
  let calc := {| BinCount := 63; Values := [0; 2 ^ 63 - 1] |} in
  ∃ i, GetEntropyWithExtraBin (D := R) calc [true; false] = Fail (Undef (UIndex i 0)).
Proof.
  intros bins calc. apply (extra_bin_wraps 2 bins [true; false] calc).
  - split_and!; [by vm_compute|by vm_compute| |by vm_compute].
    apply Forall_forall. by intros b [-> _]%elem_of_replicate.
  - done.
  - by left.
  - right. by left.
  - by vm_compute.
Defined.
