(* ===== verification/Cmi.v ===== *)
(** * Mutual information: [cmicot/lib/cmi_calculator.h/.cpp],
    [cmicot/lib/mutual_information_calculator.h/.cpp]

    [TCmiCalculator] keeps four entropy calculators, for the joint variables
    [(x, z)], [z], [(x, y, z)] and [(y, z)]; the conditional mutual information
    [I(x; y | z)] is a signed sum of their entropies. *)
From Stdlib Require Import Reals Lra.
From S2P Require Import Prelude Arith XRange Algorithm HashTable HashMap Info BinFeatureSet Entropy.

Open Scope Z_scope.

(** ** [TCmiCalculator] *)

Record TCmiCalculator : Type := {
  FirstCondition : TEntropyCalculator;
  Condition : TEntropyCalculator;
  FirstSecondCondition : TEntropyCalculator;
  SecondCondition : TEntropyCalculator;
}.

Definition cmi_calculator (bin_size : Z) : TCmiCalculator := {|
  FirstCondition := entropy_calculator bin_size;
  Condition := entropy_calculator bin_size;
  FirstSecondCondition := entropy_calculator bin_size;
  SecondCondition := entropy_calculator bin_size;
|}.

Definition AddFirstVariableBin (c : TCmiCalculator) (bin : TBin) : outcome TCmiCalculator :=
  first_condition ← AddBin (FirstCondition c) bin;
  first_second_condition ← AddBin (FirstSecondCondition c) bin;
  Ret {| FirstCondition := first_condition; Condition := Condition c;
         FirstSecondCondition := first_second_condition; SecondCondition := SecondCondition c |}.

Definition AddSecondVariableBin (c : TCmiCalculator) (bin : TBin) : outcome TCmiCalculator :=
  second_condition ← AddBin (SecondCondition c) bin;
  first_second_condition ← AddBin (FirstSecondCondition c) bin;
  Ret {| FirstCondition := FirstCondition c; Condition := Condition c;
         FirstSecondCondition := first_second_condition; SecondCondition := second_condition |}.

Definition AddConditionBin (c : TCmiCalculator) (bin : TBin) : outcome TCmiCalculator :=
  first_condition ← AddBin (FirstCondition c) bin;
  condition ← AddBin (Condition c) bin;
  first_second_condition ← AddBin (FirstSecondCondition c) bin;
  second_condition ← AddBin (SecondCondition c) bin;
  Ret {| FirstCondition := first_condition; Condition := condition;
         FirstSecondCondition := first_second_condition; SecondCondition := second_condition |}.

Section Numeric.
  Context `{Arith D}.

Definition GetValueWithConditionBin (c : TCmiCalculator) (bin : TBin) : outcome D :=
  fc ← GetEntropyWithExtraBin (FirstCondition c) bin;
  z ← GetEntropyWithExtraBin (Condition c) bin;
  fsc ← GetEntropyWithExtraBin (FirstSecondCondition c) bin;
  sc ← GetEntropyWithExtraBin (SecondCondition c) bin;
  Ret (fc ⊟ z ⊟ fsc ⊞ sc).

Definition GetValue (c : TCmiCalculator) : outcome D :=
  fc ← GetEntropy (FirstCondition c);
  z ← GetEntropy (Condition c);
  fsc ← GetEntropy (FirstSecondCondition c);
  sc ← GetEntropy (SecondCondition c);
  Ret (fc ⊟ z ⊟ fsc ⊞ sc).

(** ** [TMutualInformationCalculator] *)

Record TMutualInformationCalculator : Type := { First : TEntropyCalculator }.

Definition mutual_information_calculator (bin_size : Z) : TMutualInformationCalculator :=
  {| First := entropy_calculator bin_size |}.

Definition mi_AddFirstVariableBin (c : TMutualInformationCalculator) (bin : TBin)
    : outcome TMutualInformationCalculator :=
  first ← AddBin (First c) bin; Ret {| First := first |}.

Definition GetValueWithSecondVariableBin (c : TMutualInformationCalculator) (bin : TBin) : outcome D :=
  h1 ← GetEntropy (First c);
  h2 ← Entropy [ABin bin];
  h12 ← GetEntropyWithExtraBin (First c) bin;
  Ret (h1 ⊞ h2 ⊟ h12).

End Numeric.

(** ** The variables of a calculator

    The order in which bins of different variables arrive decides the order of
    the bits in the joint words, so the calculators are related to the bins
    through the list of all the bins each received. *)

Inductive variable : Type := VFirst | VSecond | VCondition.

(** The bins a calculator received, in order, with their variables. *)
Abbreviation feed := (list (variable * TBin)).

Definition add_bin (c : TCmiCalculator) (vb : variable * TBin) : outcome TCmiCalculator :=
  match vb.1 with
  | VFirst => AddFirstVariableBin c vb.2
  | VSecond => AddSecondVariableBin c vb.2
  | VCondition => AddConditionBin c vb.2
  end.

(** The bins of the variables that satisfy [p], in order of arrival. *)
Definition bins_of (p : variable → bool) (f : feed) : list TBin :=
  snd <$> filter (λ vb, p vb.1 = true) f.

Definition is_first (v : variable) : bool := match v with VFirst => true | _ => false end.
Definition is_second (v : variable) : bool := match v with VSecond => true | _ => false end.
Definition is_condition (v : variable) : bool := match v with VCondition => true | _ => false end.
Definition not_second (v : variable) : bool := negb (is_second v).
Definition not_first (v : variable) : bool := negb (is_first v).
Definition is_any (v : variable) : bool := true.

(** The four calculators hold the bins of their variables. *)
Definition holds (n : nat) (f : feed) (c : TCmiCalculator) : Prop :=
  encodes n (bins_of not_second f) (FirstCondition c) ∧
  encodes n (bins_of is_condition f) (Condition c) ∧
  encodes n (bins_of is_any f) (FirstSecondCondition c) ∧
  encodes n (bins_of not_first f) (SecondCondition c).

Lemma bins_of_snoc p f v bin :
  bins_of p (f ++ [(v, bin)]) = bins_of p f ++ if p v then [bin] else [].
Proof.
  unfold bins_of. rewrite filter_app, fmap_app, filter_cons, filter_nil. cbn.
  destruct (p v); by case_decide.
Qed.

Lemma bins_of_le p f : vsize (bins_of p f) ≤ vsize f.
Proof.
  unfold bins_of, vsize. rewrite length_fmap. pose proof (length_filter (λ vb, p vb.1 = true) f). lia.
Qed.

Lemma bins_of_any f : vsize (bins_of is_any f) = vsize f.
Proof. unfold bins_of, vsize. rewrite length_fmap, filter_all; [done|by intros]. Qed.

Lemma cmi_calculator_holds n : holds n [] (cmi_calculator (Z.of_nat n)).
Proof. split_and!; apply entropy_calculator_encodes. Qed.

(** Below 64 bins in all, a calculator accepts a bin for any variable. *)
Lemma add_bin_spec n f c v bin :
  holds n f c → length bin = n → vsize f < 64 →
  ∃ c', add_bin c (v, bin) = Ret c' ∧ holds n (f ++ [(v, bin)]) c'.
Proof.
  intros (Hfc & Hc & Hfsc & Hsc) Hbin Hk.
  assert (Hadd : ∀ p calc, encodes n (bins_of p f) calc → ∃ calc', AddBin calc bin = Ret calc' ∧
    encodes n (bins_of p f ++ [bin]) calc').
  { intros p calc He. apply AddBin_spec; [done|done|]. pose proof (bins_of_le p f). lia. }
  destruct (Hadd not_second _ Hfc) as (fc & Efc & Hfc'), (Hadd is_condition _ Hc) as (z & Ez & Hz'),
    (Hadd is_any _ Hfsc) as (fsc & Efsc & Hfsc'), (Hadd not_first _ Hsc) as (sc & Esc & Hsc').
  destruct v; unfold add_bin, AddFirstVariableBin, AddSecondVariableBin, AddConditionBin; cbn [fst snd];
    rewrite ?Efc, ?bind_Ret, ?Ez, ?bind_Ret, ?Efsc, ?bind_Ret, ?Esc, ?bind_Ret, ?Efsc, ?bind_Ret;
    (eexists; split; [done|]); unfold holds; rewrite !bins_of_snoc; cbn;
    rewrite ?app_nil_r; done.
Qed.

Lemma add_bins_spec n f g c :
  holds n f c → Forall (λ vb, length vb.2 = n) g → vsize f + vsize g ≤ 64 →
  ∃ c', mfold add_bin c g = Ret c' ∧ holds n (f ++ g) c'.
Proof.
  revert f c. induction g as [|[v bin] g IH]; intros f c Hh Hall Hle; cbn.
  - exists c. by rewrite app_nil_r.
  - apply Forall_cons in Hall as [Hbin Hall]. rewrite vsize_cons in Hle. pose proof (vsize_nonneg g).
    destruct (add_bin_spec n f c v bin) as (c1 & -> & Hh1); [done|done|lia|]. rewrite bind_Ret.
    replace (f ++ (v, bin) :: g) with ((f ++ [(v, bin)]) ++ g) by (by rewrite <- app_assoc).
    apply IH; [done|done|]. rewrite vsize_snoc. lia.
Qed.

Lemma mi_add_bins_spec n bins added c :
  encodes n bins (First c) → Forall (λ bin : TBin, length bin = n) added →
  vsize bins + vsize added ≤ 64 →
  ∃ c', mfold mi_AddFirstVariableBin c added = Ret c' ∧ encodes n (bins ++ added) (First c').
Proof.
  revert bins c. induction added as [|bin added IH]; intros bins c Henc Hall Hle; cbn.
  - exists c. by rewrite app_nil_r.
  - apply Forall_cons in Hall as [Hbin Hall]. rewrite vsize_cons in Hle. pose proof (vsize_nonneg added).
    destruct (AddBin_spec n bins (First c) bin) as (calc & Hadd & Henc1); [done|done|lia|].
    assert (mi_AddFirstVariableBin c bin = Ret {| First := calc |}) as ->
      by (unfold mi_AddFirstVariableBin; by rewrite Hadd). rewrite bind_Ret.
    replace (bins ++ bin :: added) with ((bins ++ [bin]) ++ added) by (by rewrite <- app_assoc).
    apply IH; [done|done|]. rewrite vsize_snoc. lia.
Qed.

(** The bins a calculator received determine it. *)
Lemma encodes_unique n bins c c' : encodes n bins c → encodes n bins c' → c = c'.
Proof.
  intros (Hc & _ & _ & Hv) (Hc' & _ & _ & Hv'). destruct c, c'; cbn in *. by subst.
Qed.

Lemma holds_unique n f c c' : holds n f c → holds n f c' → c = c'.
Proof.
  intros (H1 & H2 & H3 & H4) (G1 & G2 & G3 & G4).
  apply (encodes_unique _ _ _ _ H1) in G1. apply (encodes_unique _ _ _ _ H2) in G2.
  apply (encodes_unique _ _ _ _ H3) in G3. apply (encodes_unique _ _ _ _ H4) in G4.
  destruct c, c'; cbn in *. by subst.
Qed.

Definition sized_feed (n : nat) (f : feed) : Prop := Forall (λ vb, length vb.2 = n) f.

(** The calculator that received the bins of [f], and the value it gives to a
    condition bin. *)
Definition cmi_value `{Arith D} (n : nat) (f : feed) (bin : TBin) : outcome D :=
  c ← mfold add_bin (cmi_calculator (Z.of_nat n)) f;
  GetValueWithConditionBin c bin.

Lemma feed_calculator n f :
  sized_feed n f → vsize f ≤ 64 →
  ∃ c, mfold add_bin (cmi_calculator (Z.of_nat n)) f = Ret c ∧ holds n f c.
Proof.
  intros Hf Hk. apply (add_bins_spec n []); [apply cmi_calculator_holds|done|]. by rewrite vsize_nil.
Qed.

Lemma cmi_value_holds `{Arith D} n f c bin :
  sized_feed n f → vsize f ≤ 64 → holds n f c →
  GetValueWithConditionBin c bin = cmi_value n f bin.
Proof.
  intros Hf Hk Hh. unfold cmi_value. destruct (feed_calculator n f Hf Hk) as (c' & -> & Hh').
  by rewrite bind_Ret, (holds_unique n f c c').
Qed.

(** ** The values *)

Section Returns.
  Context `{Arith D}.

(** With bins to spare both values are returned, whatever the arithmetic. *)
Lemma GetValueWithConditionBin_returns n f c bin :
  holds n f c → length bin = n → (0 < n)%nat → vsize f < 63 →
  ∃ v, GetValueWithConditionBin (D := D) c bin = Ret v.
Proof.
  intros (Hfc & Hc & Hfsc & Hsc) Hbin Hn Hk. unfold GetValueWithConditionBin.
  assert (Hget : ∀ p calc, encodes n (bins_of p f) calc →
    ∃ e : D, GetEntropyWithExtraBin calc bin = Ret e).
  { intros p calc He. destruct (GetEntropyWithExtraBin_counts (D := D) n (bins_of p f) calc bin)
      as (counts & _ & ->); eauto. pose proof (bins_of_le p f). lia. }
  destruct (Hget _ _ Hfc) as [? ->], (Hget _ _ Hc) as [? ->], (Hget _ _ Hfsc) as [? ->],
    (Hget _ _ Hsc) as [? ->]. rewrite !bind_Ret. eauto.
Qed.

Lemma cmi_value_returns n f bin :
  sized_feed n f → length bin = n → (0 < n)%nat → vsize f < 63 →
  ∃ v : D, cmi_value n f bin = Ret v.
Proof.
  intros Hf Hbin Hn Hk. destruct (feed_calculator n f Hf ltac:(lia)) as (c & Hc & Hh).
  rewrite <- (cmi_value_holds n f c) by (done || lia).
  by eapply GetValueWithConditionBin_returns.
Qed.

Lemma GetValue_returns n f c :
  holds n f c → (0 < n)%nat → vsize f < 64 → ∃ v, GetValue (D := D) c = Ret v.
Proof.
  intros (Hfc & Hc & Hfsc & Hsc) Hn Hk. unfold GetValue.
  assert (Hget : ∀ p calc, encodes n (bins_of p f) calc → ∃ e : D, GetEntropy calc = Ret e).
  { intros p calc He. destruct (GetEntropy_counts (D := D) n (bins_of p f) calc)
      as (counts & _ & ->); eauto. apply not_full_range. pose proof (bins_of_le p f). lia. }
  destruct (Hget _ _ Hfc) as [? ->], (Hget _ _ Hc) as [? ->], (Hget _ _ Hfsc) as [? ->],
    (Hget _ _ Hsc) as [? ->]. rewrite !bind_Ret. eauto.
Qed.

End Returns.

Section Exact.
Local Open Scope R_scope.

Lemma row_agree bins i j :
  row bins i = row bins j ↔ ∀ bin, bin ∈ bins → bit bin i = bit bin j.
Proof.
  unfold row. induction bins as [|bin bins IH]; cbn.
  - split; [|done]. intros _ bin Hb. by apply elem_of_nil in Hb.
  - split.
    + intros [= Hb Hr] bin' [->|Hin]%elem_of_cons; [done|]. by apply IH.
    + intros Heq. f_equal; [apply Heq; by left|]. apply IH. intros; apply Heq. by right.
Qed.

Lemma elem_of_bins_of p (f : feed) bin : bin ∈ bins_of p f ↔ ∃ v, p v = true ∧ (v, bin) ∈ f.
Proof.
  unfold bins_of. rewrite list_elem_of_fmap. split.
  - intros ([v b] & -> & [Hp Hin]%list_elem_of_filter). eauto.
  - intros (v & Hp & Hin). exists (v, bin). split; [done|]. by apply list_elem_of_filter.
Qed.

(** [I(x; y | z)] of the bins a calculator received. *)
Definition cmi_of_feed (n : nat) (f : feed) : R :=
  cmi (seq 0 n) (row (bins_of is_first f)) (row (bins_of is_second f)) (row (bins_of is_condition f)).

Lemma row_bins_of p (f : feed) i j :
  row (bins_of p f) i = row (bins_of p f) j ↔
  ∀ v bin, p v = true → (v, bin) ∈ f → bit bin i = bit bin j.
Proof. rewrite row_agree. setoid_rewrite elem_of_bins_of. naive_solver. Qed.

(** The four joint variables, from the three sets of bins. *)
Lemma joint_entropies n (f : feed) :
  bins_entropy n (bins_of not_second f) =
    hbits (seq 0 n) (λ i, (row (bins_of is_first f) i, row (bins_of is_condition f) i)) ∧
  bins_entropy n (bins_of not_first f) =
    hbits (seq 0 n) (λ i, (row (bins_of is_second f) i, row (bins_of is_condition f) i)) ∧
  bins_entropy n (bins_of is_any f) =
    hbits (seq 0 n) (λ i, (row (bins_of is_first f) i, row (bins_of is_second f) i,
                           row (bins_of is_condition f) i)).
Proof.
  split_and!; apply hbits_kernel; intros i j _ _;
    rewrite !pair_equal_spec, !row_bins_of; (split;
    [intros Hall; split_and!; intros v bin Hv; apply Hall; by destruct v
    |intros Hall [] bin Hv Hin; cbn in Hv; try done; destruct_and?;
     match goal with Hv : ∀ _ _, _ |- _ => by (eapply Hv; [|exact Hin]) end]).
Qed.

(** Concatenating the bins of two or three variables instead of keeping their
    order of arrival. *)
Lemma joined_bins n (f : feed) :
  bins_entropy n (bins_of is_condition f ++ bins_of is_first f) = bins_entropy n (bins_of not_second f) ∧
  bins_entropy n (bins_of is_condition f ++ bins_of is_second f) = bins_entropy n (bins_of not_first f) ∧
  bins_entropy n (bins_of is_condition f ++ bins_of is_first f ++ bins_of is_second f) =
    bins_entropy n (bins_of is_any f).
Proof.
  split_and!; apply bins_entropy_mem; intros b; rewrite !elem_of_app, !elem_of_bins_of; (split;
    [intros Hb; destruct_or?; destruct Hb as (v & Hv & ?); exists v; by destruct v
    |intros ([] & Hv & ?); try done;
     let go := eexists; (split; [|eassumption]); done in
     first [left; go|right; go|right; left; go|right; right; go]]).
Qed.

Lemma GetValue_exact n f c :
  holds n f c → (0 < n)%nat → (vsize f < 64)%Z →
  GetValue (D := R) c = Ret (cmi_of_feed n f).
Proof.
  intros (Hfc & Hc & Hfsc & Hsc) Hn Hk. unfold GetValue.
  assert (Hnf : ∀ p, ¬ full_range n (bins_of p f)).
  { intros p. apply not_full_range. pose proof (bins_of_le p f). lia. }
  rewrite (GetEntropy_exact n _ _ Hfc), (GetEntropy_exact n _ _ Hc),
    (GetEntropy_exact n _ _ Hfsc), (GetEntropy_exact n _ _ Hsc) by done.
  rewrite !bind_Ret. destruct (joint_entropies n f) as (-> & -> & ->). done.
Qed.

Lemma GetValueWithConditionBin_exact n f c bin :
  holds n f c → length bin = n → (0 < n)%nat → (vsize f < 63)%Z →
  GetValueWithConditionBin (D := R) c bin = Ret (cmi_of_feed n (f ++ [(VCondition, bin)])).
Proof.
  intros (Hfc & Hc & Hfsc & Hsc) Hbin Hn Hk. unfold GetValueWithConditionBin.
  assert (Hlt : ∀ p, (vsize (bins_of p f) < 63)%Z) by (intros p; pose proof (bins_of_le p f); lia).
  rewrite (GetEntropyWithExtraBin_exact n _ _ bin Hfc), (GetEntropyWithExtraBin_exact n _ _ bin Hc),
    (GetEntropyWithExtraBin_exact n _ _ bin Hfsc), (GetEntropyWithExtraBin_exact n _ _ bin Hsc) by done.
  rewrite !bind_Ret. destruct (joint_entropies n (f ++ [(VCondition, bin)])) as (E1 & E2 & E3).
  rewrite !bins_of_snoc in E1, E2, E3. cbn in E1, E2, E3. rewrite !bins_of_snoc in *. cbn in *.
  unfold cmi_of_feed. rewrite !bins_of_snoc. cbn. rewrite !app_nil_r in *.
  by rewrite E1, E2, E3.
Qed.

Lemma cmi_value_exact n f bin :
  sized_feed n f → length bin = n → (0 < n)%nat → (vsize f < 63)%Z →
  cmi_value (D := R) n f bin = Ret (cmi_of_feed n (f ++ [(VCondition, bin)])).
Proof.
  intros Hf Hbin Hn Hk. destruct (feed_calculator n f Hf ltac:(lia)) as (c & Hc & Hh).
  rewrite <- (cmi_value_holds n f c) by (done || lia).
  by apply GetValueWithConditionBin_exact.
Qed.

Lemma samples_nonempty n : (0 < n)%nat → seq 0 n ≠ [].
Proof. by destruct n; [lia|]. Qed.

Lemma cmi_of_feed_bounds n f : (0 < n)%nat → 0 <= cmi_of_feed n f <= log2 (INR n).
Proof.
  intros Hn. split; [apply cmi_nonneg|]. rewrite <- length_samples.
  by apply cmi_le_log, samples_nonempty.
Qed.

(** Only the sets of bins of the three variables matter. *)
Lemma cmi_of_feed_mem n f g :
  (∀ vb, vb ∈ f ↔ vb ∈ g) → cmi_of_feed n f = cmi_of_feed n g.
Proof.
  intros Hmem.
  assert (Hp : ∀ p, bins_entropy n (bins_of p f) = bins_entropy n (bins_of p g)).
  { intros p. apply bins_entropy_mem. intros bin. rewrite !elem_of_bins_of. by setoid_rewrite Hmem. }
  unfold cmi_of_feed, cmi.
  destruct (joint_entropies n f) as (<- & <- & <-), (joint_entropies n g) as (<- & <- & <-).
  rewrite !Hp. pose proof (Hp is_condition) as Hc. unfold bins_entropy in Hc. by rewrite Hc.
Qed.

(** *** The mutual information calculator *)

(** [I(first; bin)] *)
Definition mi_of_bins (n : nat) (bins : list TBin) (bin : TBin) : R :=
  bins_entropy n bins + bins_entropy n [bin] - bins_entropy n (bins ++ [bin]).

Lemma mi_of_bins_cmi n bins bin :
  (0 < n)%nat → mi_of_bins n bins bin = cmi_of_feed n (((VFirst,.) <$> bins) ++ [(VSecond, bin)]).
Proof.
  intros Hn. set (f := ((VFirst,.) <$> bins) ++ [(VSecond, bin)]).
  assert (Hp : ∀ p, bins_of p f = (if p VFirst then bins else []) ++ if p VSecond then [bin] else []).
  { intros p. unfold f. rewrite bins_of_snoc. f_equal. unfold bins_of.
    clear f. induction bins as [|b bins IH]; [by destruct (p VFirst)|].
    rewrite fmap_cons, filter_cons. cbn [fst].
    destruct (p VFirst); case_decide; try done; rewrite ?fmap_cons, IH; done. }
  unfold cmi_of_feed, cmi. destruct (joint_entropies n f) as (<- & <- & <-). rewrite !Hp. cbn.
  rewrite app_nil_r. unfold mi_of_bins.
  assert (Hz : hbits (seq 0 n) (row []) = 0).
  { rewrite <- (hbits_const (seq 0 n)). by apply hbits_kernel. }
  rewrite Hz. lra.
Qed.

Lemma GetValueWithSecondVariableBin_exact n bins c bin :
  encodes n bins (First c) → length bin = n → (0 < n)%nat → (vsize bins < 63)%Z →
  GetValueWithSecondVariableBin (D := R) c bin = Ret (mi_of_bins n bins bin).
Proof.
  intros Henc Hbin Hn Hk. unfold GetValueWithSecondVariableBin.
  rewrite (GetEntropy_exact n bins) by (done || apply not_full_range; lia). rewrite bind_Ret.
  rewrite (Entropy_exact n [ABin bin]) by (done || by repeat constructor). rewrite bind_Ret.
  by rewrite (GetEntropyWithExtraBin_exact n bins).
Qed.

(** *** [entropy.h] *)

Lemma FlattenBins_one n bins added :
  (0 < n)%nat → Forall (λ bin : TBin, length bin = n) added → (vsize bins + vsize added ≤ 64)%Z →
  FlattenBins (flat n bins) [ABins added] = flat n (bins ++ added).
Proof.
  intros Hn Hall Hle. pose proof (FlattenBins_spec n bins [ABins added] Hn) as Hf. cbn in Hf.
  rewrite app_nil_r in Hf. by apply Hf.
Qed.

Lemma Entropy_values_flat n bins : bins ≠ [] →
  Entropy_values (D := R) (flat n bins) = Ret (bins_entropy n bins).
Proof. intros Hne. unfold flat. rewrite decide_False by done. apply Entropy_values_exact. Qed.

Lemma MutualInformation_exact n bins bin :
  (0 < n)%nat → bins ≠ [] → Forall (λ b : TBin, length b = n) (bins ++ [bin]) → (vsize bins < 64)%Z →
  MutualInformation (D := R) (ABins bins) (ABin bin) = Ret (mi_of_bins n bins bin).
Proof.
  intros Hn Hne Hall Hk. pose proof Hall as [Hbins Hbin]%Forall_app. unfold MutualInformation.
  pose proof (Entropy_exact n [ABins bins] Hn) as H1. cbn [arg_bins fmap list_fmap concat app] in H1. rewrite app_nil_r in H1.
  rewrite H1 by (done || lia). rewrite bind_Ret.
  rewrite (Entropy_exact n [ABin bin]) by done. rewrite bind_Ret.
  pose proof (Entropy_exact n [ABins bins; ABin bin] Hn) as H2. cbn [arg_bins fmap list_fmap concat app] in H2. rewrite H2; [done|done| |].
  - by intros [_ ?]%app_nil.
  - rewrite vsize_snoc. lia.
Qed.

Lemma ConditionalMutualInformation_exact n first second condition :
  (0 < n)%nat → condition ≠ [] →
  Forall (λ bin : TBin, length bin = n) (first ++ second ++ condition) →
  (vsize first + vsize second + vsize condition ≤ 64)%Z →
  ConditionalMutualInformation (D := R) (ABins first) (ABins second) (ABins condition) =
    Ret (bins_entropy n (condition ++ first) - bins_entropy n condition
         - bins_entropy n (condition ++ first ++ second) + bins_entropy n (condition ++ second)).
Proof.
  intros Hn Hne [Hf [Hs Hc]%Forall_app]%Forall_app Hle.
  pose proof (vsize_nonneg first). pose proof (vsize_nonneg second).
  assert (Happ : ∀ l, condition ++ l ≠ []) by (by intros l [? _]%app_nil).
  unfold ConditionalMutualInformation. change (@nil Z) with (flat n []).
  rewrite (FlattenBins_one n [] condition) by (done || (rewrite vsize_nil; lia)). cbn [app].
  rewrite (FlattenBins_one n condition first), (FlattenBins_one n condition second) by (done || lia).
  rewrite (FlattenBins_one n (condition ++ first) second) by (done || (rewrite vsize_app; lia)).
  rewrite <- app_assoc. rewrite !Entropy_values_flat by done. done.
Qed.

End Exact.

(** C1: [TCmiCalculator] computes the conditional mutual information.  However the
    bins of the first variable, the second one and the condition are interleaved,
    as long as they are fewer than 63, the calculator accepts them; [GetValue] is
    [I(first; second | condition)], which lies between 0 and the logarithm of
    the size of the bins; and [GetValueWithConditionBin] is what [GetValue] would
    be after [AddConditionBin]. *)
Theorem cmi_calculator_correct (n : nat) (f : feed) (bin : TBin)
    (Hn : (0 < n)%nat) (Hlen : Forall (λ vb, length vb.2 = n) (f ++ [(VCondition, bin)]))
    (Hk : vsize f < 63) :
  ∃ c c', mfold add_bin (cmi_calculator (Z.of_nat n)) f = Ret c ∧
    AddConditionBin c bin = Ret c' ∧
    GetValue (D := R) c = Ret (cmi_of_feed n f) ∧
    (0 <= cmi_of_feed n f <= log2 (INR n))%R ∧
    GetValueWithConditionBin (D := R) c bin = GetValue c'.
Proof.
  apply Forall_app in Hlen as [Hf [Hbin _]%Forall_cons]. cbn in Hbin.
  destruct (add_bins_spec n [] f (cmi_calculator (Z.of_nat n))) as (c & Hrun & Hh);
    [apply cmi_calculator_holds|done|rewrite vsize_nil; lia|]. cbn [app] in Hh.
  destruct (add_bin_spec n f c VCondition bin) as (c' & Hadd & Hh'); [done|done|lia|].
  exists c, c'. split_and!; [done|done| | | |].
  - apply GetValue_exact; [done|done|lia].
  - by apply cmi_of_feed_bounds.
  - by apply cmi_of_feed_bounds.
  - rewrite (GetValueWithConditionBin_exact n f) by done. symmetry.
    apply GetValue_exact; [done|done|]. rewrite vsize_snoc. lia.
Qed.

Example cmi_calculator_correct_witness :
  let f := [(VFirst, [true; false; true]); (VCondition, [true; true; false]);
            (VSecond, [false; false; true])] in
  ∃ c c', mfold add_bin (cmi_calculator 3) f = Ret c ∧
    AddConditionBin c [false; true; true] = Ret c' ∧
    GetValue (D := R) c = Ret (cmi_of_feed 3 f) ∧
    (0 <= cmi_of_feed 3 f <= log2 (INR 3))%R ∧
    GetValueWithConditionBin (D := R) c [false; true; true] = GetValue c'.
Proof. intros f. apply (cmi_calculator_correct 3 f [false; true; true]); [lia|by repeat constructor|by vm_compute]. Defined.



(** [TMutualInformationCalculator] computes the mutual information of the
    first variable and a bin, which is what [MutualInformation] of [entropy.h]
    computes and is never negative. *)
Theorem mutual_information_correct (n : nat) (bins : list TBin) (bin : TBin)
    (Hn : (0 < n)%nat) (Hlen : Forall (λ b, length b = n) (bins ++ [bin]))
    (Hne : bins ≠ []) (Hk : vsize bins < 63) :
  ∃ c v, mfold mi_AddFirstVariableBin (mutual_information_calculator (Z.of_nat n)) bins = Ret c ∧
    GetValueWithSecondVariableBin (D := R) c bin = Ret v ∧
    MutualInformation (ABins bins) (ABin bin) = Ret v ∧ (0 <= v)%R.
Proof.
  pose proof Hlen as [Hbins [Hbin _]%Forall_cons]%Forall_app.
  destruct (mi_add_bins_spec n [] bins (mutual_information_calculator (Z.of_nat n))) as (c & Hrun & Henc);
    [apply entropy_calculator_encodes|done|rewrite vsize_nil; lia|]. cbn [app] in Henc.
  exists c, (mi_of_bins n bins bin). split_and!; [done| | |].
  - by apply GetValueWithSecondVariableBin_exact.
  - apply MutualInformation_exact; [done|done|done|lia].
  - rewrite mi_of_bins_cmi by done. by apply cmi_of_feed_bounds.
Qed.

Example mutual_information_correct_witness :
  ∃ c v, mfold mi_AddFirstVariableBin (mutual_information_calculator 3) [[true; false; true]] = Ret c ∧
    GetValueWithSecondVariableBin (D := R) c [true; true; false] = Ret v ∧
    MutualInformation (ABins [[true; false; true]]) (ABin [true; true; false]) = Ret v ∧ (0 <= v)%R.
Proof. apply (mutual_information_correct 3); [lia|by repeat constructor|done|by vm_compute]. Defined.
