(* ===== verification/MtpQueue.v ===== *)
(** * The queue of a thread pool: [util/thread/queue.cpp]

    [TMtpQueue::TImpl] is a queue of jobs that a fixed number of threads take, bounded
    and blocking if asked to be.  The model interleaves the workers that run [DoExecute],
    any number of threads that call [Add], and the owner, who calls [Stop] from the
    destructor.  A step is an access to what threads share: taking a mutex, an atomic
    read, a critical section up to the next such point, a wait or a signal of a
    condition variable.  The mutexes have an owner; a wait of a condition variable gives
    the mutex back and blocks in one step, and a signal wakes some waiting thread, if
    any, which has to take the mutex again; spurious wake-ups are steps of their own.

    The jobs are opaque: [Process] is one step, and may throw.  The restart of a queue
    in the child of a fork is left out, as is the failure to create a thread. *)
From S2P Require Import Prelude.
Open Scope Z_scope.

Section Queue.
  Context {J : Type}.
  (** Whether [Add] waits when the queue is full, whether exceptions of jobs are caught, and what a job throws. *)
  Variables (Blocking Catching : bool) (throws : J → option exn).

(** ** State *)

(** The threads that can own a mutex. *)
Inductive who : Type := Worker (i : nat) | Client (i : nat) | Owner.

#[export] Instance who_eq_dec : EqDecision who.
Proof. solve_decision. Defined.

(** The fields of [TImpl]; [Tharr] is the number of its threads.  [Alive] is false when the
    object is destroyed.  The last four are what happened: the jobs pushed, popped, and
    processed by workers, and those processed by [Add] itself. *)
Record shared : Type := {
  Queue : list J;
  ShouldTerminate : bool;
  MaxQueueSize : Z;
  Tharr : Z;
  ThreadCountReal : Z;
  QueueMutex : option who;
  StopMutex : option who;
  Alive : bool;
  pushed : list J;
  popped : list J;
  processed : list J;
  inlined : list J;
}.

(** Where a worker is in [DoExecute]. *)
Inductive wpc : Type :=
| WLock               (** takes [QueueMutex], at first or after a wait *)
| WEmpty              (** tests the condition of the loop *)
| WWait               (** waits for [QueuePushCond] *)
| WTerm               (** behind the loop *)
| WSignal (job : J)   (** has left the critical section *)
| WProcess (job : J)
| WFinish             (** in [FinishOneThread], takes [StopMutex] *)
| WCount
| WEnd.

(** Where a thread is in [Add]. *)
Inductive cpc : Type :=
| CIdle               (** between two calls *)
| CStart (job : J)
| CTharr (job : J)
| CInline (job : J)
| CLock (job : J)     (** takes [QueueMutex], at first or after a wait *)
| CFull (job : J)     (** tests the condition of the loop *)
| CWait (job : J)     (** waits for [QueuePopCond] *)
| CTerm (job : J)     (** behind the loop *)
| CPush (job : J)
| CSignal (job : J).

(** A thread with the jobs it is going to add, and the answers it got. *)
Record client : Type := { calls : list J; cpos : cpc; answers : list (J * outcome bool) }.

(** Where the owner is in [Stop]. *)
Inductive spc : Type :=
| SReady              (** has not called it *)
| SSet
| SLockPop            (** takes [QueueMutex] *)
| SBroadcast
| SLockStop           (** in [WaitForComplete], takes [StopMutex], at first or after a wait *)
| SCount              (** tests [ThreadCountReal] *)
| SLockPush           (** takes [QueueMutex] *)
| SSignal
| SWait               (** begins to wait *)
| SWaiting            (** waits for [StopCond] *)
| SClear
| SDone.              (** the object is destroyed *)

Record state : Type := { sh : shared; workers : list wpc; clients : list client; owner : spc }.

(** The state after the constructor: [n] threads, and threads that are going to call [Add]. *)
Definition start (n : nat) (maxqueue : Z) (jobs : list (list J)) : state := {|
  sh := {| Queue := []; ShouldTerminate := false; MaxQueueSize := maxqueue; Tharr := Z.of_nat n;
           ThreadCountReal := Z.of_nat n; QueueMutex := None; StopMutex := None; Alive := true;
           pushed := []; popped := []; processed := []; inlined := [] |};
  workers := replicate n WLock;
  clients := (λ js, {| calls := js; cpos := CIdle; answers := [] |}) <$> jobs;
  owner := SReady;
|}.

Definition with_queue_mutex (g : shared) (o : option who) : shared := {|
  Queue := Queue g; ShouldTerminate := ShouldTerminate g; MaxQueueSize := MaxQueueSize g; Tharr := Tharr g;
  ThreadCountReal := ThreadCountReal g; QueueMutex := o; StopMutex := StopMutex g; Alive := Alive g;
  pushed := pushed g; popped := popped g; processed := processed g; inlined := inlined g |}.

Definition with_stop_mutex (g : shared) (o : option who) : shared := {|
  Queue := Queue g; ShouldTerminate := ShouldTerminate g; MaxQueueSize := MaxQueueSize g; Tharr := Tharr g;
  ThreadCountReal := ThreadCountReal g; QueueMutex := QueueMutex g; StopMutex := o; Alive := Alive g;
  pushed := pushed g; popped := popped g; processed := processed g; inlined := inlined g |}.

(** The mutexes; none when another thread has it. *)
Definition acquire_queue (g : shared) (w : who) : option shared :=
  match QueueMutex g with None => Some (with_queue_mutex g (Some w)) | Some _ => None end.
Definition acquire_stop (g : shared) (w : who) : option shared :=
  match StopMutex g with None => Some (with_stop_mutex g (Some w)) | Some _ => None end.
Definition release_queue (g : shared) : shared := with_queue_mutex g None.
Definition release_stop (g : shared) : shared := with_stop_mutex g None.

Definition set_terminate (g : shared) : shared := {|
  Queue := Queue g; ShouldTerminate := true; MaxQueueSize := MaxQueueSize g; Tharr := Tharr g;
  ThreadCountReal := ThreadCountReal g; QueueMutex := QueueMutex g; StopMutex := StopMutex g; Alive := Alive g;
  pushed := pushed g; popped := popped g; processed := processed g; inlined := inlined g |}.

Definition dec_thread_count (g : shared) : shared := {|
  Queue := Queue g; ShouldTerminate := ShouldTerminate g; MaxQueueSize := MaxQueueSize g; Tharr := Tharr g;
  ThreadCountReal := u64 (ThreadCountReal g - 1); QueueMutex := QueueMutex g; StopMutex := StopMutex g; Alive := Alive g;
  pushed := pushed g; popped := popped g; processed := processed g; inlined := inlined g |}.

Definition push (g : shared) (j : J) : shared := {|
  Queue := Queue g ++ [j]; ShouldTerminate := ShouldTerminate g; MaxQueueSize := MaxQueueSize g; Tharr := Tharr g;
  ThreadCountReal := ThreadCountReal g; QueueMutex := QueueMutex g; StopMutex := StopMutex g; Alive := Alive g;
  pushed := pushed g ++ [j]; popped := popped g; processed := processed g; inlined := inlined g |}.

Definition pop (g : shared) (j : J) (q : list J) : shared := {|
  Queue := q; ShouldTerminate := ShouldTerminate g; MaxQueueSize := MaxQueueSize g; Tharr := Tharr g;
  ThreadCountReal := ThreadCountReal g; QueueMutex := QueueMutex g; StopMutex := StopMutex g; Alive := Alive g;
  pushed := pushed g; popped := popped g ++ [j]; processed := processed g; inlined := inlined g |}.

Definition log_processed (g : shared) (j : J) : shared := {|
  Queue := Queue g; ShouldTerminate := ShouldTerminate g; MaxQueueSize := MaxQueueSize g; Tharr := Tharr g;
  ThreadCountReal := ThreadCountReal g; QueueMutex := QueueMutex g; StopMutex := StopMutex g; Alive := Alive g;
  pushed := pushed g; popped := popped g; processed := processed g ++ [j]; inlined := inlined g |}.

Definition log_inlined (g : shared) (j : J) : shared := {|
  Queue := Queue g; ShouldTerminate := ShouldTerminate g; MaxQueueSize := MaxQueueSize g; Tharr := Tharr g;
  ThreadCountReal := ThreadCountReal g; QueueMutex := QueueMutex g; StopMutex := StopMutex g; Alive := Alive g;
  pushed := pushed g; popped := popped g; processed := processed g; inlined := inlined g ++ [j] |}.

(** The end of [Stop] and of the object. *)
Definition destroy (g : shared) : shared := {|
  Queue := Queue g; ShouldTerminate := ShouldTerminate g; MaxQueueSize := 0; Tharr := 0;
  ThreadCountReal := ThreadCountReal g; QueueMutex := QueueMutex g; StopMutex := StopMutex g; Alive := false;
  pushed := pushed g; popped := popped g; processed := processed g; inlined := inlined g |}.

(** ** Steps of the threads *)

(** What a step signals. *)
Inductive signal : Type := NoSignal | PushCond | PopCond | PopBroadcast | StopCond.

(** [DoExecute] and [FinishOneThread].  A worker whose queue is destroyed, or that pops from an
    empty queue, has no step. *)
Definition wstep (i : nat) (g : shared) (pc : wpc) : option (shared * wpc * signal) :=
  if negb (Alive g) then None else
  match pc with
  | WLock => g ← acquire_queue g (Worker i); Some (g, WEmpty, NoSignal)
  | WEmpty =>
      if (vsize (Queue g) =? 0) && negb (ShouldTerminate g) then Some (release_queue g, WWait, NoSignal)
      else Some (g, WTerm, NoSignal)
  | WWait => None
  | WTerm =>
      if ShouldTerminate g && (vsize (Queue g) =? 0) then Some (release_queue g, WFinish, NoSignal)
      else match Queue g with
           | [] => None
           | j :: q => Some (release_queue (pop g j q), WSignal j, NoSignal)
           end
  | WSignal j => Some (g, WProcess j, PopCond)
  | WProcess j =>
      if Catching || bool_decide (throws j = None) then Some (log_processed g j, WLock, NoSignal)
      else None
  | WFinish => g ← acquire_stop g (Worker i); Some (g, WCount, NoSignal)
  | WCount => Some (release_stop (dec_thread_count g), WEnd, StopCond)
  | WEnd => None
  end.

Definition goes_on (c : client) (pc : cpc) : client := {| calls := calls c; cpos := pc; answers := answers c |}.
Definition returns (c : client) (j : J) (r : outcome bool) : client :=
  {| calls := calls c; cpos := CIdle; answers := answers c ++ [(j, r)] |}.

(** [TMtpQueue::Add] and [TImpl::Add].  A thread in a call has no step when the queue is destroyed. *)
Definition cstep (i : nat) (g : shared) (c : client) : option (shared * client * signal) :=
  match cpos c, calls c with
  | CIdle, [] => None
  | CIdle, j :: js =>
      let c := {| calls := js; cpos := CStart j; answers := answers c |} in
      if Alive g then Some (g, c, NoSignal)
      else Some (g, returns c j (Fail (Throw EQueueNotStarted)), NoSignal)
  | pc, _ =>
      if negb (Alive g) then None else
      match pc with
      | CIdle => None
      | CStart j => Some (g, if ShouldTerminate g then returns c j (Ret false) else goes_on c (CTharr j), NoSignal)
      | CTharr j => Some (g, goes_on c (if Tharr g =? 0 then CInline j else CLock j), NoSignal)
      | CInline j =>
          Some (log_inlined g j, returns c j (match throws j with Some e => Fail (Throw e) | None => Ret true end), NoSignal)
      | CLock j => g ← acquire_queue g (Client i); Some (g, goes_on c (CFull j), NoSignal)
      | CFull j =>
          if (0 <? MaxQueueSize g) && (MaxQueueSize g <=? vsize (Queue g)) && negb (ShouldTerminate g) then
            if Blocking then Some (release_queue g, goes_on c (CWait j), NoSignal)
            else Some (release_queue g, returns c j (Ret false), NoSignal)
          else Some (g, goes_on c (CTerm j), NoSignal)
      | CWait j => None
      | CTerm j =>
          if ShouldTerminate g then Some (release_queue g, returns c j (Ret false), NoSignal)
          else Some (g, goes_on c (CPush j), NoSignal)
      | CPush j => Some (release_queue (push g j), goes_on c (CSignal j), NoSignal)
      | CSignal j => Some (g, returns c j (Ret true), PushCond)
      end
  end.

(** [Stop], [WaitForComplete] and the end of the destructor. *)
Definition sstep (g : shared) (pc : spc) : option (shared * spc * signal) :=
  match pc with
  | SReady => None
  | SSet => Some (set_terminate g, SLockPop, NoSignal)
  | SLockPop => g ← acquire_queue g Owner; Some (g, SBroadcast, NoSignal)
  | SBroadcast => Some (release_queue g, SLockStop, PopBroadcast)
  | SLockStop => g ← acquire_stop g Owner; Some (g, SCount, NoSignal)
  | SCount =>
      if ThreadCountReal g =? 0 then Some (release_stop g, SClear, NoSignal) else Some (g, SLockPush, NoSignal)
  | SLockPush => g ← acquire_queue g Owner; Some (g, SSignal, NoSignal)
  | SSignal => Some (release_queue g, SWait, PushCond)
  | SWait => Some (release_stop g, SWaiting, NoSignal)
  | SWaiting => None
  | SClear => Some (destroy g, SDone, NoSignal)
  | SDone => None
  end.

(** ** Steps of the queue *)

(** The thread a wake-up lets go on. *)
Definition wake_worker (pc : wpc) : wpc := match pc with WWait => WLock | pc => pc end.
Definition wake_client (c : client) : client := match cpos c with CWait j => goes_on c (CLock j) | _ => c end.
Definition wake_owner (pc : spc) : spc := match pc with SWaiting => SLockStop | pc => pc end.

Definition client_waits (c : client) : bool := match cpos c with CWait _ => true | _ => false end.

Definition with_worker (s : state) (i : nat) (pc : wpc) : state :=
  {| sh := sh s; workers := <[i := pc]> (workers s); clients := clients s; owner := owner s |}.
Definition with_client (s : state) (i : nat) (c : client) : state :=
  {| sh := sh s; workers := workers s; clients := <[i := c]> (clients s); owner := owner s |}.
Definition with_owner (s : state) (pc : spc) : state :=
  {| sh := sh s; workers := workers s; clients := clients s; owner := pc |}.
Definition with_shared (s : state) (g : shared) : state :=
  {| sh := g; workers := workers s; clients := clients s; owner := owner s |}.

(** A signal wakes one of the threads that wait, a broadcast all of them. *)
Inductive wakes : signal → state → state → Prop :=
| wakes_nothing s : wakes NoSignal s s
| wakes_worker s i : workers s !! i = Some WWait → wakes PushCond s (with_worker s i WLock)
| wakes_no_worker s : WWait ∉ workers s → wakes PushCond s s
| wakes_client s i c : clients s !! i = Some c → client_waits c = true → wakes PopCond s (with_client s i (wake_client c))
| wakes_no_client s : Forall (λ c, client_waits c = false) (clients s) → wakes PopCond s s
| wakes_clients s :
    wakes PopBroadcast s {| sh := sh s; workers := workers s; clients := wake_client <$> clients s; owner := owner s |}
| wakes_owner s : wakes StopCond s (with_owner s (wake_owner (owner s))).

Inductive step : state → state → Prop :=
| step_worker s i pc g pc' k s' : workers s !! i = Some pc → wstep i (sh s) pc = Some (g, pc', k) →
    wakes k (with_worker (with_shared s g) i pc') s' → step s s'
| step_client s i c g c' k s' : clients s !! i = Some c → cstep i (sh s) c = Some (g, c', k) →
    wakes k (with_client (with_shared s g) i c') s' → step s s'
| step_owner s g pc' k s' : sstep (sh s) (owner s) = Some (g, pc', k) →
    wakes k (with_owner (with_shared s g) pc') s' → step s s'.

(** What happens without a cause in the queue: the owner calls [Stop], a waiting thread wakes up. *)
Inductive event : state → state → Prop :=
| event_stop s : owner s = SReady → event s (with_owner s SSet)
| event_worker s i : workers s !! i = Some WWait → event s (with_worker s i WLock)
| event_client s i c : clients s !! i = Some c → client_waits c = true → event s (with_client s i (wake_client c))
| event_owner s : owner s = SWaiting → event s (with_owner s SLockStop).

Inductive reachable (n : nat) (maxqueue : Z) (jobs : list (list J)) : state → Prop :=
| reachable_start : reachable n maxqueue jobs (start n maxqueue jobs)
| reachable_step s s' : reachable n maxqueue jobs s → step s s' → reachable n maxqueue jobs s'
| reachable_event s s' : reachable n maxqueue jobs s → event s s' → reachable n maxqueue jobs s'.

(** An exception leaves [DoExecute]: the process ends. *)
Definition dies (s : state) : Prop :=
  ∃ i j, workers s !! i = Some (WProcess j) ∧ Catching = false ∧ throws j ≠ None.

(** ** Positions *)

(** Who has the mutexes, by where the threads are. *)
Definition wq (pc : wpc) : bool := match pc with WEmpty | WTerm => true | _ => false end.
Definition cq (pc : cpc) : bool := match pc with CFull _ | CTerm _ | CPush _ => true | _ => false end.
Definition sq (pc : spc) : bool := match pc with SBroadcast | SSignal => true | _ => false end.
Definition wt (pc : wpc) : bool := match pc with WCount => true | _ => false end.
Definition st (pc : spc) : bool := match pc with SCount | SLockPush | SSignal | SWait => true | _ => false end.

Definition has_queue (s : state) (w : who) : bool :=
  match w with
  | Worker i => match workers s !! i with Some pc => wq pc | None => false end
  | Client i => match clients s !! i with Some c => cq (cpos c) | None => false end
  | Owner => sq (owner s)
  end.
Definition has_stop (s : state) (w : who) : bool :=
  match w with
  | Worker i => match workers s !! i with Some pc => wt pc | None => false end
  | Client i => false
  | Owner => st (owner s)
  end.

(** The mutexes exclude. *)
Record mutexes_ok (s : state) : Prop := {
  queue_mutex w : has_queue s w = true ↔ QueueMutex (sh s) = Some w;
  stop_mutex w : has_stop s w = true ↔ StopMutex (sh s) = Some w;
}.

Lemma list_insert_cases {A} (l : list A) i x y j z : l !! i = Some x →
  <[i := y]> l !! j = Some z → (j = i ∧ z = y) ∨ (j ≠ i ∧ l !! j = Some z).
Proof.
  intros Hi. destruct (decide (j = i)) as [->|Hne].
  - rewrite list_lookup_insert_eq by (by eapply lookup_lt_Some). intros [= ->]. by left.
  - rewrite list_lookup_insert_ne by done. by right.
Qed.

Lemma wakes_frame k s s' : wakes k s s' → sh s' = sh s ∧ ∀ w, has_queue s' w = has_queue s w ∧ has_stop s' w = has_stop s w.
Proof.
  intros Hw. inversion Hw as [ | ? i Hi | | ? i c Hi Hc | | |]; subst; (split; [done|]); intros [j|j|]; try done; cbn.
  - destruct (decide (j = i)) as [->|]; [|by rewrite list_lookup_insert_ne].
    by rewrite list_lookup_insert_eq, Hi by (by eapply lookup_lt_Some).
  - destruct (decide (j = i)) as [->|]; [|by rewrite list_lookup_insert_ne].
    rewrite list_lookup_insert_eq, Hi by (by eapply lookup_lt_Some). split; [|done].
    destruct c as [? [] ?]; done.
  - rewrite list_lookup_fmap. destruct (clients s !! j) as [[? [] ?]|]; done.
  - by destruct (owner s).
Qed.

Lemma wakes_mutexes k s s' : wakes k s s' → mutexes_ok s → mutexes_ok s'.
Proof.
  intros [Hs Hh]%wakes_frame [Hq Ht]. split; intros w; destruct (Hh w) as [Hw1 Hw2]; rewrite Hs; [by rewrite Hw1|by rewrite Hw2].
Qed.

(** A thread changes its position and the mutexes together. *)
Lemma mutexes_change s s' w :
  mutexes_ok s → (∀ v, v ≠ w → has_queue s' v = has_queue s v ∧ has_stop s' v = has_stop s v) →
  (QueueMutex (sh s') = QueueMutex (sh s) ∧ has_queue s' w = has_queue s w ∨
   QueueMutex (sh s) = None ∧ QueueMutex (sh s') = Some w ∧ has_queue s' w = true ∨
   has_queue s w = true ∧ QueueMutex (sh s') = None ∧ has_queue s' w = false) →
  (StopMutex (sh s') = StopMutex (sh s) ∧ has_stop s' w = has_stop s w ∨
   StopMutex (sh s) = None ∧ StopMutex (sh s') = Some w ∧ has_stop s' w = true ∨
   has_stop s w = true ∧ StopMutex (sh s') = None ∧ has_stop s' w = false) →
  mutexes_ok s'.
Proof.
  intros [Hq Ht] Ho Cq Ct. split; intros v.
  - destruct (decide (v = w)) as [->|Hne].
    + destruct Cq as [[-> ->]|[(_ & -> & ->)|(_ & -> & ->)]]; [apply Hq|done|done].
    + destruct (Ho v Hne) as [-> _]. rewrite Hq. destruct Cq as [[-> _]|[(Hn & -> & _)|(Hh & -> & _)]]; [done| |].
      * rewrite Hn. split; [done|congruence].
      * apply Hq in Hh. rewrite Hh. split; [congruence|done].
  - destruct (decide (v = w)) as [->|Hne].
    + destruct Ct as [[-> ->]|[(_ & -> & ->)|(_ & -> & ->)]]; [apply Ht|done|done].
    + destruct (Ho v Hne) as [_ ->]. rewrite Ht. destruct Ct as [[-> _]|[(Hn & -> & _)|(Hh & -> & _)]]; [done| |].
      * rewrite Hn. split; [done|congruence].
      * apply Ht in Hh. rewrite Hh. split; [congruence|done].
Qed.

Ltac thread_cases H :=
  unfold wstep, cstep, sstep, acquire_queue, acquire_stop in H; repeat (case_match || simplify_eq/=).

Lemma worker_mutexes s i pc g pc' k : mutexes_ok s → workers s !! i = Some pc → wstep i (sh s) pc = Some (g, pc', k) →
  mutexes_ok (with_worker (with_shared s g) i pc').
Proof.
  intros Hm Hi Hl. apply (mutexes_change s _ (Worker i) Hm).
  - intros [j|j|] Hj; [|done..]. cbn. by rewrite list_lookup_insert_ne by congruence.
  - cbn. rewrite list_lookup_insert_eq, Hi by (by eapply lookup_lt_Some). thread_cases Hl; cbn; auto 10.
  - cbn. rewrite list_lookup_insert_eq, Hi by (by eapply lookup_lt_Some). thread_cases Hl; cbn; auto 10.
Qed.

Lemma client_mutexes s i c g c' k : mutexes_ok s → clients s !! i = Some c → cstep i (sh s) c = Some (g, c', k) →
  mutexes_ok (with_client (with_shared s g) i c').
Proof.
  intros Hm Hi Hl. apply (mutexes_change s _ (Client i) Hm).
  - intros [j|j|] Hj; [done| |done]. cbn. by rewrite list_lookup_insert_ne by congruence.
  - cbn. rewrite list_lookup_insert_eq, Hi by (by eapply lookup_lt_Some). destruct c as [js pos ans].
    thread_cases Hl; cbn; auto 10.
  - left. destruct c as [js pos ans]. thread_cases Hl; done.
Qed.

Lemma owner_mutexes s g pc' k : mutexes_ok s → sstep (sh s) (owner s) = Some (g, pc', k) →
  mutexes_ok (with_owner (with_shared s g) pc').
Proof.
  intros Hm Hl. apply (mutexes_change s _ Owner Hm).
  - intros [j|j|] Hj; done.
  - cbn. destruct (owner s); thread_cases Hl; cbn; auto 10.
  - cbn. destruct (owner s); thread_cases Hl; cbn; auto 10.
Qed.

Lemma worker_holds s i pc : mutexes_ok s → workers s !! i = Some pc → wq pc = true → QueueMutex (sh s) = Some (Worker i).
Proof. intros [Hq _] Hi Hp. apply Hq. cbn. by rewrite Hi. Qed.
Lemma client_holds s i c : mutexes_ok s → clients s !! i = Some c → cq (cpos c) = true → QueueMutex (sh s) = Some (Client i).
Proof. intros [Hq _] Hi Hp. apply Hq. cbn. by rewrite Hi. Qed.
Lemma owner_holds s : mutexes_ok s → sq (owner s) = true → QueueMutex (sh s) = Some Owner.
Proof. intros [Hq _] Hp. by apply Hq. Qed.

(** ** What the threads know of the queue *)

(** A worker that is going to end. *)
Definition wexits (pc : wpc) : bool := match pc with WFinish | WCount | WEnd => true | _ => false end.

Definition worker_ok (g : shared) (pc : wpc) : Prop :=
  (pc = WTerm → ShouldTerminate g = true ∨ Queue g ≠ []) ∧
  (wexits pc = true → ShouldTerminate g = true ∧ Queue g = []).

(** Behind the first tests of [Add]. *)
Definition inside (pc : cpc) : bool :=
  match pc with CIdle | CStart _ | CTharr _ | CInline _ => false | _ => true end.

Definition has_room (maxqueue : Z) (g : shared) : Prop := 0 < maxqueue → vsize (Queue g) < maxqueue.

Definition client_ok (n : nat) (maxqueue : Z) (g : shared) (pc : cpc) : Prop :=
  match pc with
  | CTerm _ => ShouldTerminate g = true ∨ has_room maxqueue g
  | CPush _ => has_room maxqueue g
  | CWait _ => Blocking = true ∧ 0 < maxqueue
  | CInline _ => n = O
  | _ => True
  end ∧ (inside pc = true → n ≠ O).

(** The owner has set [ShouldTerminate]. *)
Definition stopping (pc : spc) : bool := match pc with SReady | SSet => false | _ => true end.
Definition destroyed (pc : spc) : bool := match pc with SDone => true | _ => false end.

Record data_ok (n : nat) (maxqueue : Z) (s : state) : Prop := {
  data_mutexes : mutexes_ok s;
  data_workers i pc : workers s !! i = Some pc → worker_ok (sh s) pc;
  data_clients i c : clients s !! i = Some c → client_ok n maxqueue (sh s) (cpos c);
  data_push i c j k pc : clients s !! i = Some c → cpos c = CPush j → workers s !! k = Some pc → wexits pc = false;
  data_fifo : pushed (sh s) = popped (sh s) ++ Queue (sh s);
  data_bound : 0 < maxqueue → vsize (Queue (sh s)) ≤ maxqueue;
  data_consts : Alive (sh s) = true → MaxQueueSize (sh s) = maxqueue ∧ Tharr (sh s) = Z.of_nat n;
  data_stopping : ShouldTerminate (sh s) = stopping (owner s);
  data_alive : Alive (sh s) = negb (destroyed (owner s));
}.

Lemma wake_client_pos c : client_waits c = true → ∃ j, cpos c = CWait j ∧ cpos (wake_client c) = CLock j.
Proof. destruct c as [? [] ?]; try done. by eauto. Qed.

Lemma client_ok_wake n maxqueue g c : client_ok n maxqueue g (cpos c) → client_ok n maxqueue g (cpos (wake_client c)).
Proof. destruct c as [? [] ?]; try done. unfold client_ok. cbn. tauto. Qed.

Lemma wake_client_push c j : cpos (wake_client c) = CPush j → cpos c = CPush j.
Proof. by destruct c as [? [] ?]. Qed.

(** What a wake-up does, seen from a thread. *)
Lemma wakes_worker_cases k s s' i pc : wakes k s s' → workers s' !! i = Some pc →
  workers s !! i = Some pc ∨ workers s !! i = Some WWait ∧ pc = WLock.
Proof.
  intros Hw Hi. inversion Hw; subst; try (by left). cbn in Hi.
  eapply list_insert_cases in Hi as [[-> ->]|[_ Hi]]; [by right|by left|done].
Qed.

Lemma wakes_client_cases k s s' i c : wakes k s s' → clients s' !! i = Some c →
  clients s !! i = Some c ∨ ∃ c0, clients s !! i = Some c0 ∧ c = wake_client c0.
Proof.
  intros Hw Hi. inversion Hw; subst; try (by left); cbn in Hi.
  - eapply list_insert_cases in Hi as [[-> ->]|[_ Hi]]; [by eauto|by left|done].
  - rewrite list_lookup_fmap in Hi. apply fmap_Some in Hi as (c0 & Hc & ->). eauto.
Qed.

Lemma wakes_owner_cases k s s' : wakes k s s' → owner s' = owner s ∨ owner s = SWaiting ∧ owner s' = SLockStop.
Proof. intros Hw. inversion Hw; subst; try (by left). cbn. destruct (owner s); auto. Qed.

Lemma wakes_data n maxqueue k s s' : wakes k s s' → data_ok n maxqueue s → data_ok n maxqueue s'.
Proof.
  intros Hw [Hm Hws Hcs Hp Hf Hb Hc Hst Ha]. destruct (wakes_frame k s s' Hw) as [Hs _].
  pose proof (wakes_owner_cases k s s' Hw) as Ho. split; rewrite ?Hs; try done.
  - by eapply wakes_mutexes.
  - intros i pc Hi. destruct (wakes_worker_cases k s s' i pc Hw Hi) as [|[_ ->]]; [by eapply Hws|done].
  - intros i c Hi. destruct (wakes_client_cases k s s' i c Hw Hi) as [|(c0 & Hc0 & ->)]; [by eapply Hcs|].
    apply client_ok_wake. by eapply Hcs.
  - intros i c j m pc Hi Hj Hk. assert (∃ c0, clients s !! i = Some c0 ∧ cpos c0 = CPush j) as (c0 & Hc0 & Hj0).
    { destruct (wakes_client_cases k s s' i c Hw Hi) as [|(c0 & Hc0 & ->)]; eauto using wake_client_push. }
    destruct (wakes_worker_cases k s s' m pc Hw Hk) as [|[_ ->]]; [by eapply Hp|done].
  - rewrite Hst. destruct Ho as [->|[-> ->]]; done.
  - rewrite Ha. destruct Ho as [->|[-> ->]]; done.
Qed.

(** ** The steps by cases *)

Lemma size_0 {A} (l : list A) : (vsize l =? 0) = true ↔ l = [].
Proof. destruct l; [done|]. rewrite vsize_cons. pose proof (vsize_nonneg l). split; [lia|done]. Qed.

Inductive wcase (i : nat) (g : shared) : wpc → shared → wpc → signal → Prop :=
| wcase_lock : QueueMutex g = None → wcase i g WLock (with_queue_mutex g (Some (Worker i))) WEmpty NoSignal
| wcase_wait : Queue g = [] → ShouldTerminate g = false → wcase i g WEmpty (release_queue g) WWait NoSignal
| wcase_leave : Queue g ≠ [] ∨ ShouldTerminate g = true → wcase i g WEmpty g WTerm NoSignal
| wcase_exit : ShouldTerminate g = true → Queue g = [] → wcase i g WTerm (release_queue g) WFinish NoSignal
| wcase_pop j q : Queue g = j :: q → wcase i g WTerm (release_queue (pop g j q)) (WSignal j) NoSignal
| wcase_signal j : wcase i g (WSignal j) g (WProcess j) PopCond
| wcase_process j : (Catching = false → throws j = None) → wcase i g (WProcess j) (log_processed g j) WLock NoSignal
| wcase_finish : StopMutex g = None → wcase i g WFinish (with_stop_mutex g (Some (Worker i))) WCount NoSignal
| wcase_count : wcase i g WCount (release_stop (dec_thread_count g)) WEnd StopCond.

Lemma wstep_cases i g pc g' pc' k : wstep i g pc = Some (g', pc', k) → Alive g = true ∧ wcase i g pc g' pc' k.
Proof.
  unfold wstep, acquire_queue, acquire_stop. destruct (Alive g); [|done]. cbn [negb]. intros Hl. split; [done|].
  destruct pc; simplify_eq/=; repeat (case_match; simplify_eq/=); try done; try by constructor.
  - rewrite andb_true_iff, size_0, negb_true_iff in *. constructor; tauto.
  - constructor. destruct (Queue g'); [|by left]. right. by destruct (ShouldTerminate g').
  - rewrite andb_true_iff, size_0 in *. constructor; tauto.
  - constructor. intros Hc. rewrite Hc in *. by apply bool_decide_eq_true in H.
Qed.

Inductive ccase (i : nat) (g : shared) (js : list J) (l : list (J * outcome bool)) : cpc → shared → client → signal → Prop :=
| ccase_tharr j : ShouldTerminate g = false → ccase i g js l (CStart j) g {| calls := js; cpos := CTharr j; answers := l |} NoSignal
| ccase_late j : ShouldTerminate g = true →
    ccase i g js l (CStart j) g {| calls := js; cpos := CIdle; answers := l ++ [(j, Ret false)] |} NoSignal
| ccase_inline j : Tharr g = 0 → ccase i g js l (CTharr j) g {| calls := js; cpos := CInline j; answers := l |} NoSignal
| ccase_queue j : Tharr g ≠ 0 → ccase i g js l (CTharr j) g {| calls := js; cpos := CLock j; answers := l |} NoSignal
| ccase_process j r : r = (match throws j with Some e => Fail (Throw e) | None => Ret true end) →
    ccase i g js l (CInline j) (log_inlined g j) {| calls := js; cpos := CIdle; answers := l ++ [(j, r)] |} NoSignal
| ccase_lock j : QueueMutex g = None →
    ccase i g js l (CLock j) (with_queue_mutex g (Some (Client i))) {| calls := js; cpos := CFull j; answers := l |} NoSignal
| ccase_wait j : 0 < MaxQueueSize g ≤ vsize (Queue g) → ShouldTerminate g = false → Blocking = true →
    ccase i g js l (CFull j) (release_queue g) {| calls := js; cpos := CWait j; answers := l |} NoSignal
| ccase_full j : 0 < MaxQueueSize g ≤ vsize (Queue g) → ShouldTerminate g = false → Blocking = false →
    ccase i g js l (CFull j) (release_queue g) {| calls := js; cpos := CIdle; answers := l ++ [(j, Ret false)] |} NoSignal
| ccase_leave j : ShouldTerminate g = true ∨ has_room (MaxQueueSize g) g →
    ccase i g js l (CFull j) g {| calls := js; cpos := CTerm j; answers := l |} NoSignal
| ccase_stopped j : ShouldTerminate g = true →
    ccase i g js l (CTerm j) (release_queue g) {| calls := js; cpos := CIdle; answers := l ++ [(j, Ret false)] |} NoSignal
| ccase_room j : ShouldTerminate g = false → ccase i g js l (CTerm j) g {| calls := js; cpos := CPush j; answers := l |} NoSignal
| ccase_push j : ccase i g js l (CPush j) (release_queue (push g j)) {| calls := js; cpos := CSignal j; answers := l |} NoSignal
| ccase_signal j : ccase i g js l (CSignal j) g {| calls := js; cpos := CIdle; answers := l ++ [(j, Ret true)] |} PushCond.

(** A call begins. *)
Inductive call_case (g : shared) (l : list (J * outcome bool)) : list J → client → Prop :=
| call_enters j js : Alive g = true → call_case g l (j :: js) {| calls := js; cpos := CStart j; answers := l |}
| call_throws j js : Alive g = false →
    call_case g l (j :: js) {| calls := js; cpos := CIdle; answers := l ++ [(j, Fail (Throw EQueueNotStarted))] |}.

Lemma cstep_cases i g c g' c' k : cstep i g c = Some (g', c', k) →
  (cpos c = CIdle ∧ g' = g ∧ k = NoSignal ∧ call_case g (answers c) (calls c) c') ∨
  (Alive g = true ∧ ccase i g (calls c) (answers c) (cpos c) g' c' k).
Proof.
  destruct c as [js pos l]. unfold cstep, acquire_queue, goes_on, returns. cbn [calls cpos answers]. intros Hl.
  destruct pos; [left|right; destruct (Alive g); [|done]; split; [done|]..].
  { destruct js as [|j js]; [done|]. repeat (case_match; simplify_eq/=); auto using call_case. }
  all: simplify_eq/=; repeat (case_match; simplify_eq/=); try done; try by constructor.
  - constructor. by apply Z.eqb_eq.
  - constructor. by apply Z.eqb_neq.
  - constructor. by rewrite H.
  - constructor. by rewrite H.
  - rewrite !andb_true_iff, negb_true_iff in *. constructor; [lia|tauto|done].
  - rewrite !andb_true_iff, negb_true_iff in *. constructor; [lia|tauto|done].
  - constructor. destruct (ShouldTerminate g'); [by left|]. right. intros Hm. rewrite andb_true_r in *. lia.
Qed.

Inductive scase (g : shared) : spc → shared → spc → signal → Prop :=
| scase_set : scase g SSet (set_terminate g) SLockPop NoSignal
| scase_lock_pop : QueueMutex g = None → scase g SLockPop (with_queue_mutex g (Some Owner)) SBroadcast NoSignal
| scase_broadcast : scase g SBroadcast (release_queue g) SLockStop PopBroadcast
| scase_lock_stop : StopMutex g = None → scase g SLockStop (with_stop_mutex g (Some Owner)) SCount NoSignal
| scase_all : ThreadCountReal g = 0 → scase g SCount (release_stop g) SClear NoSignal
| scase_more : ThreadCountReal g ≠ 0 → scase g SCount g SLockPush NoSignal
| scase_lock_push : QueueMutex g = None → scase g SLockPush (with_queue_mutex g (Some Owner)) SSignal NoSignal
| scase_signal : scase g SSignal (release_queue g) SWait PushCond
| scase_wait : scase g SWait (release_stop g) SWaiting NoSignal
| scase_clear : scase g SClear (destroy g) SDone NoSignal.

Lemma sstep_cases g pc g' pc' k : sstep g pc = Some (g', pc', k) → scase g pc g' pc' k.
Proof.
  unfold sstep, acquire_queue, acquire_stop. intros Hl.
  destruct pc; simplify_eq/=; repeat (case_match; simplify_eq/=); try done; try by constructor.
  - constructor. by apply Z.eqb_eq.
  - constructor. by apply Z.eqb_neq.
Qed.

(** ** The invariant of the data *)

Lemma worker_data n maxqueue s i pc g pc' k : data_ok n maxqueue s → mutexes_ok (with_worker (with_shared s g) i pc') →
  workers s !! i = Some pc → Alive (sh s) = true → wcase i (sh s) pc g pc' k →
  data_ok n maxqueue (with_worker (with_shared s g) i pc').
Proof.
  intros [Hm Hws Hcs Hp Hf Hb Hc Hst Ha] Hm' Hi Hal Hl. pose proof (Hws i pc Hi) as Hpc.
  assert (Hhold : ∀ l c, clients s !! l = Some c → cq (cpos c) = true → wq pc = true → False).
  { intros l c Hl' H1 H2. pose proof (client_holds s l c Hm Hl' H1). pose proof (worker_holds s i pc Hm Hi H2). congruence. }
  split; [done|..].
  - intros l pc2 Hl2. cbn in Hl2. eapply list_insert_cases in Hl2 as [[-> ->]|[Hne Hl2]]; [| |exact Hi].
    + destruct Hl; unfold worker_ok in *; cbn in *; intuition congruence.
    + specialize (Hws l pc2 Hl2). destruct Hl; try done. split; [|intros He; apply Hws in He; cbn; naive_solver congruence].
      intros ->. pose proof (worker_holds s l _ Hm Hl2 eq_refl). pose proof (worker_holds s i _ Hm Hi eq_refl). congruence.
  - intros l c Hl2. specialize (Hcs l c Hl2). destruct Hl; try done. split; [|apply Hcs].
    destruct Hcs as [Hcs _]. specialize (Hhold l c Hl2). cbn in *. destruct (cpos c); naive_solver.
  - intros l c j m pc2 Hl2 Hj Hm2. cbn in Hm2. eapply list_insert_cases in Hm2 as [[-> ->]|[Hne Hm2]]; [| |exact Hi].
    + specialize (Hp l c j i pc Hl2 Hj Hi). specialize (Hhold l c Hl2). rewrite Hj in Hhold. destruct Hl; naive_solver.
    + by eapply Hp.
  - destruct Hl; try done. cbn. rewrite Hf, H, <- app_assoc. done.
  - intros Hpos. specialize (Hb Hpos). destruct Hl; try done. cbn. rewrite H, vsize_cons in Hb. lia.
  - by destruct Hl.
  - by destruct Hl.
  - by destruct Hl.
Qed.

Lemma has_room_eq maxqueue g g' : Queue g' = Queue g → has_room maxqueue g → has_room maxqueue g'.
Proof. unfold has_room. by intros ->. Qed.

(** The position of the client that makes the step. *)
Lemma client_pos_ok n maxqueue s i pos js l g c' k : data_ok n maxqueue s → Alive (sh s) = true →
  client_ok n maxqueue (sh s) pos → ccase i (sh s) js l pos g c' k → client_ok n maxqueue g (cpos c').
Proof.
  intros [_ _ _ _ _ _ Hc _ _] Hal [Hpc Hin] Hl. destruct (Hc Hal) as [Hmax Hthr].
  unfold client_ok, has_room in *. destruct Hl; cbn [cpos inside] in *; rewrite ?Hmax, ?Hthr in *; cbn [Queue ShouldTerminate with_queue_mutex] in *;
    (split; [|first [done|intros _; first [lia|by apply Hin]]]); try done; try lia.
  - split; [done|lia].
  - by destruct Hpc as [?|?]; [congruence|].
Qed.

Lemma client_data n maxqueue s i c g c' k : data_ok n maxqueue s → mutexes_ok (with_client (with_shared s g) i c') →
  clients s !! i = Some c → Alive (sh s) = true → ccase i (sh s) (calls c) (answers c) (cpos c) g c' k →
  data_ok n maxqueue (with_client (with_shared s g) i c').
Proof.
  intros Hd Hm' Hi Hal Hl. pose proof Hd as [Hm Hws Hcs Hp Hf Hb Hc Hst Ha]. pose proof (Hcs i c Hi) as Hpc.
  assert (Hhold : ∀ l c2, l ≠ i → clients s !! l = Some c2 → cq (cpos c2) = true → cq (cpos c) = true → False).
  { intros l c2 Hne Hl' H1 H2. pose proof (client_holds s l c2 Hm Hl' H1). pose proof (client_holds s i c Hm Hi H2). congruence. }
  assert (Hhold2 : ∀ l pc, workers s !! l = Some pc → wq pc = true → cq (cpos c) = true → False).
  { intros l pc Hl' H1 H2. pose proof (worker_holds s l pc Hm Hl' H1). pose proof (client_holds s i c Hm Hi H2). congruence. }
  assert (Hpos := client_pos_ok n maxqueue s i _ _ _ g c' k Hd Hal Hpc Hl).
  split; [done|..].
  - intros l pc Hl2. cbn in Hl2. specialize (Hws l pc Hl2). specialize (Hhold2 l pc Hl2). specialize (Hp i c).
    remember (cpos c) as pos. destruct Hl; try done. cbn. split.
    + intros ->. by destruct Hhold2.
    + intros He. by rewrite (Hp j l pc) in He.
  - intros l c2 Hl2. cbn in Hl2. eapply list_insert_cases in Hl2 as [[-> ->]|[Hne Hl2]]; [done| |exact Hi].
    specialize (Hcs l c2 Hl2). specialize (Hhold l c2 Hne Hl2). remember (cpos c) as pos. destruct Hl; try done.
    split; [|apply Hcs]. destruct Hcs as [Hcs _]. cbn in *. destruct (cpos c2); naive_solver.
  - intros l c2 j m pc Hl2 Hj Hm2. cbn in Hl2. eapply list_insert_cases in Hl2 as [[-> ->]|[Hne Hl2]]; [|by eapply Hp|exact Hi].
    cbn in Hm2. specialize (Hws m pc Hm2). remember (cpos c) as pos. destruct Hl; cbn in Hj; simplify_eq.
    destruct (wexits pc) eqn:He; [|done]. destruct Hws as [_ Hws]. destruct (Hws He). congruence.
  - destruct Hl; try done. cbn. rewrite Hf. by rewrite app_assoc.
  - intros Hpos2. specialize (Hb Hpos2). remember (cpos c) as pos. destruct Hl; try done. cbn. rewrite vsize_snoc.
    destruct Hpc as [Hpc _]. specialize (Hpc Hpos2). lia.
  - by destruct Hl.
  - by destruct Hl.
  - by destruct Hl.
Qed.

(** A call that begins changes nothing the others see. *)
Lemma call_data n maxqueue s i c c' : data_ok n maxqueue s → mutexes_ok (with_client s i c') →
  clients s !! i = Some c → call_case (sh s) (answers c) (calls c) c' → data_ok n maxqueue (with_client s i c').
Proof.
  intros [Hm Hws Hcs Hp Hf Hb Hc Hst Ha] Hm' Hi Hl. split; try done.
  - intros l c2 Hl2. cbn in Hl2. eapply list_insert_cases in Hl2 as [[-> ->]|[Hne Hl2]]; [|by eapply Hcs|exact Hi].
    by destruct Hl.
  - intros l c2 j m pc Hl2 Hj Hm2. cbn in Hl2. eapply list_insert_cases in Hl2 as [[-> ->]|[Hne Hl2]]; [|by eapply Hp|exact Hi].
    by destruct Hl.
Qed.

Lemma owner_data n maxqueue s g pc' k : data_ok n maxqueue s → mutexes_ok (with_owner (with_shared s g) pc') →
  scase (sh s) (owner s) g pc' k → data_ok n maxqueue (with_owner (with_shared s g) pc').
Proof.
  intros [Hm Hws Hcs Hp Hf Hb Hc Hst Ha] Hm' Hl. split; try done.
  - intros l pc Hl2. specialize (Hws l pc Hl2). remember (owner s) as pos. destruct Hl; try done.
    destruct Hws as [H1 H2]. split; cbn; naive_solver.
  - intros l c Hl2. specialize (Hcs l c Hl2). remember (owner s) as pos. destruct Hl; try done.
    destruct Hcs as [Hcs Hin]. split; [|done]. destruct (cpos c); try done. by left.
  - by destruct Hl.
  - by destruct Hl.
  - by destruct Hl.
  - remember (owner s) as pos. by destruct Hl.
  - remember (owner s) as pos. by destruct Hl.
Qed.

Lemma event_data n maxqueue s s' : event s s' → data_ok n maxqueue s → data_ok n maxqueue s'.
Proof.
  intros He Hd. destruct He as [s Ho|s i Hi|s i c Hi Hc|s Ho].
  - destruct Hd as [[Hq Ht] Hws Hcs Hp Hf Hb Hc Hst Ha]. split; try done.
    + split; intros [j|j|]; [apply (Hq (Worker j))|apply (Hq (Client j))|rewrite <- (Hq Owner)|apply (Ht (Worker j))|
        apply (Ht (Client j))|rewrite <- (Ht Owner)]; cbn; by rewrite Ho.
    + cbn. by rewrite Hst, Ho.
    + cbn. by rewrite Ha, Ho.
  - by apply (wakes_data n maxqueue PushCond s); [constructor|].
  - by apply (wakes_data n maxqueue PopCond s); [constructor|].
  - apply (wakes_data n maxqueue StopCond s); [|done]. pose proof (wakes_owner s) as Hw. by rewrite Ho in Hw.
Qed.

Lemma start_data n maxqueue jobs : data_ok n maxqueue (start n maxqueue jobs).
Proof.
  assert (Hws : ∀ i pc, replicate n WLock !! i = Some pc → pc = WLock) by (by intros i pc [-> _]%lookup_replicate).
  assert (Hcs : ∀ i c, clients (start n maxqueue jobs) !! i = Some c → cpos c = CIdle).
  { intros i c Hc. cbn in Hc. rewrite list_lookup_fmap in Hc. by apply fmap_Some in Hc as (js & _ & ->). }
  split; try done.
  - split; intros [i|i|]; cbn; try done.
    + destruct (replicate n WLock !! i) as [pc|] eqn:Hi; [|done]. by rewrite (Hws i pc Hi).
    + rewrite list_lookup_fmap. by destruct (jobs !! i).
    + destruct (replicate n WLock !! i) as [pc|] eqn:Hi; [|done]. by rewrite (Hws i pc Hi).
  - intros i pc Hi. by rewrite (Hws i pc Hi).
  - intros i c Hi. by rewrite (Hcs i c Hi).
  - intros i c j k pc Hi Hj. rewrite (Hcs i c Hi) in Hj. done.
  - cbn. intros. unfold vsize. cbn. lia.
Qed.

Lemma with_shared_id s : with_shared s (sh s) = s.
Proof. by destruct s. Qed.

Lemma step_data n maxqueue s s' : step s s' → data_ok n maxqueue s → data_ok n maxqueue s'.
Proof.
  intros Hs Hd. pose proof (data_mutexes _ _ _ Hd) as Hm.
  destruct Hs as [s i pc g pc' k s' Hi Hl Hw|s i c g c' k s' Hi Hl Hw|s g pc' k s' Hl Hw]; apply (wakes_data _ _ _ _ _ Hw).
  - pose proof (worker_mutexes s i pc g pc' k Hm Hi Hl). apply wstep_cases in Hl as [Hal Hl]. by eapply worker_data.
  - pose proof (client_mutexes s i c g c' k Hm Hi Hl) as Hm'. apply cstep_cases in Hl as [(Hp & -> & -> & Hl)|[Hal Hl]].
    + rewrite with_shared_id in *. by eapply call_data.
    + by eapply client_data.
  - pose proof (owner_mutexes s g pc' k Hm Hl). apply sstep_cases in Hl. by eapply owner_data.
Qed.

Lemma reachable_data n maxqueue jobs s : reachable n maxqueue jobs s → data_ok n maxqueue s.
Proof. induction 1; eauto using start_data, step_data, event_data. Qed.

(** ** What becomes of the jobs *)

Lemma concat_fmap_insert {A B} (f : A → list B) (l : list A) i x y : l !! i = Some x →
  concat (f <$> <[i := y]> l) ++ f x ≡ₚ concat (f <$> l) ++ f y.
Proof.
  revert i. induction l as [|a l IH]; intros [|i] Hi; try done; cbn in *.
  - injection Hi as <-. rewrite (Permutation_app_comm (f y ++ _)), (Permutation_app_comm (f a ++ _)).
    apply Permutation_app_swap_app.
  - rewrite <- !app_assoc. by rewrite (IH i Hi).
Qed.

(** The job a worker has taken, the jobs whose [Add] returned or will return [true]. *)
Definition taken (pc : wpc) : list J := match pc with WSignal j | WProcess j => [j] | _ => [] end.
Definition is_true (r : outcome bool) : bool := match r with Ret b => b | Fail _ => false end.
Definition answered_true (l : list (J * outcome bool)) : list J := (filter (λ a, is_true a.2 = true) l).*1.
Definition accepted (c : client) : list J :=
  answered_true (answers c) ++ match cpos c with CSignal j => [j] | _ => [] end.

Definition ended (pc : wpc) : bool := match pc with WEnd => true | _ => false end.
Definition counted (pc : wpc) : nat := if ended pc then 0 else 1.

#[local] Arguments answered_true : simpl never.

Record jobs_ok (n : nat) (s : state) : Prop := {
  jobs_processed : popped (sh s) ≡ₚ processed (sh s) ++ concat (taken <$> workers s);
  jobs_accepted : pushed (sh s) ++ filter (λ j, throws j = None) (inlined (sh s)) ≡ₚ concat (accepted <$> clients s);
  jobs_inlined : n ≠ O → inlined (sh s) = [];
  jobs_threads : ThreadCountReal (sh s) = Z.of_nat (sum_list_with counted (workers s));
  jobs_workers : length (workers s) = n;
  jobs_pushed : n = O → pushed (sh s) = [];
}.

Lemma answered_true_snoc l a : answered_true (l ++ [a]) = answered_true l ++ (if is_true a.2 then [a.1] else []).
Proof.
  unfold answered_true. rewrite filter_app, fmap_app. f_equal. rewrite filter_cons. case_decide as Ha; [by rewrite Ha|].
  by apply not_true_is_false in Ha as ->.
Qed.

Lemma accepted_wake c : accepted (wake_client c) = accepted c.
Proof. by destruct c as [? [] ?]. Qed.

Lemma wakes_jobs n k s s' : wakes k s s' → jobs_ok n s → jobs_ok n s'.
Proof.
  intros Hw [Hp Ha Hi Ht Hl Hpu]. destruct (wakes_frame k s s' Hw) as [Hs _]. split; rewrite ?Hs; try done.
  - rewrite Hp. apply Permutation_app_head. inversion Hw as [|? i Hwi| | | | |]; subst; try done. cbn.
    pose proof (concat_fmap_insert taken (workers s) i WWait WLock Hwi) as Hc. cbn in Hc. by rewrite !app_nil_r in Hc.
  - rewrite Ha. inversion Hw as [| | |? i c Hwi Hc| | |]; subst; try done; cbn.
    + pose proof (concat_fmap_insert accepted (clients s) i c (wake_client c) Hwi) as Hcc.
      rewrite accepted_wake in Hcc. by apply Permutation_app_inv_r in Hcc.
    + rewrite <- list_fmap_compose. apply reflexive_eq. f_equal. apply list_fmap_ext. intros i c _. cbn. by rewrite accepted_wake.
  - rewrite Ht. inversion Hw as [|? i Hwi| | | | |]; subst; try done. cbn.
    pose proof (sum_list_insert counted (workers s) i WWait WLock Hwi). cbn in *. lia.
  - inversion Hw; subst; try done. cbn. by rewrite length_insert.
Qed.

Lemma worker_jobs n s i pc g pc' k : Z.of_nat n < 2 ^ 64 → jobs_ok n s → workers s !! i = Some pc →
  wcase i (sh s) pc g pc' k → jobs_ok n (with_worker (with_shared s g) i pc').
Proof.
  intros Hn [Hp Ha Hi Ht Hl Hpu] Hwi Hc. pose proof (concat_fmap_insert taken (workers s) i pc pc' Hwi) as Ht2.
  pose proof (sum_list_insert counted (workers s) i pc pc' Hwi) as Hs.
  split; try (by destruct Hc); cbn.
  - destruct Hc; cbn in *; rewrite ?app_nil_r in Ht2; rewrite ?Hp; try (by rewrite Ht2).
    + rewrite <- app_assoc. by rewrite Ht2.
    + by apply Permutation_app_inv_r in Ht2 as ->.
    + rewrite <- app_assoc. apply Permutation_app_head. by rewrite <- Ht2, (Permutation_app_comm _ [j]).
  - destruct Hc; cbn in *; try lia. rewrite Ht. unfold u64. rewrite Z.mod_small; [lia|].
    assert (sum_list_with counted (workers s) ≤ n)%nat; [|lia]. rewrite <- Hl. clear. induction (workers s) as [|pc ws IH]; [done|].
    cbn. destruct pc; cbn in *; lia.
  - by rewrite length_insert.
Qed.

(** The jobs a step of a client adds. *)
Lemma client_adds i g js l pos g' c' k : ccase i g js l pos g' c' k →
  ∃ d, accepted c' = accepted {| calls := js; cpos := pos; answers := l |} ++ d ∧
    pushed g' ++ filter (λ j, throws j = None) (inlined g') ≡ₚ
      (pushed g ++ filter (λ j, throws j = None) (inlined g)) ++ d.
Proof.
  intros Hc. unfold accepted. destruct Hc as [| | | |j r Hr| | | | | | |j|]; cbn [cpos answers];
    try (exists []; rewrite ?answered_true_snoc; cbn; by rewrite ?app_nil_r).
  - exists (if is_true r then [j] else []). rewrite answered_true_snoc, !app_nil_r. split; [done|]. cbn.
    rewrite filter_app, filter_cons, filter_nil, app_assoc, Hr. destruct (throws j) eqn:Hj.
    + rewrite decide_False by done. done.
    + rewrite decide_True by done. done.
  - exists [j]. rewrite app_nil_r. split; [done|]. cbn. rewrite <- !app_assoc. apply Permutation_app_head, Permutation_app_comm.
Qed.

Lemma client_jobs n maxqueue s i c g c' k : data_ok n maxqueue s → jobs_ok n s → clients s !! i = Some c →
  ccase i (sh s) (calls c) (answers c) (cpos c) g c' k → jobs_ok n (with_client (with_shared s g) i c').
Proof.
  intros Hd [Hp Ha Hi Ht Hl Hpu] Hci Hc. pose proof (concat_fmap_insert accepted (clients s) i c c' Hci) as Ha2.
  pose proof (data_clients _ _ _ Hd i c Hci) as [Hpos Hin].
  split; try (by destruct Hc); [|intros ->; destruct Hc; try (by apply Hpu); by destruct Hin]. cbn. destruct (client_adds i (sh s) _ _ _ g c' k Hc) as (d & Hd1 & Hd2). rewrite Hd2, Ha.
  assert (Hcc : accepted c' = accepted c ++ d) by (by destruct c).
  rewrite Hcc, (Permutation_app_comm (accepted c)), app_assoc in Ha2. by apply Permutation_app_inv_r in Ha2.
Qed.

Lemma call_jobs n s i c c' : jobs_ok n s → clients s !! i = Some c → cpos c = CIdle →
  call_case (sh s) (answers c) (calls c) c' → jobs_ok n (with_client s i c').
Proof.
  intros [Hp Ha Hi Ht Hl Hpu] Hci Hpos Hc. pose proof (concat_fmap_insert accepted (clients s) i c c' Hci) as Ha2.
  split; try done. cbn. rewrite Ha. assert (Hcc : accepted c' = accepted c).
  { unfold accepted. rewrite Hpos. destruct Hc; cbn; [done|]. rewrite answered_true_snoc. cbn. by rewrite !app_nil_r. }
  rewrite Hcc in Ha2. by apply Permutation_app_inv_r in Ha2.
Qed.

Lemma owner_jobs n s g pc' k : jobs_ok n s → scase (sh s) (owner s) g pc' k → jobs_ok n (with_owner (with_shared s g) pc').
Proof. intros [Hp Ha Hi Ht Hl Hpu] Hc. split; by destruct Hc. Qed.

Lemma step_jobs n maxqueue s s' : Z.of_nat n < 2 ^ 64 → data_ok n maxqueue s → step s s' → jobs_ok n s → jobs_ok n s'.
Proof.
  intros Hn Hd Hs Hj.
  destruct Hs as [s i pc g pc' k s' Hi Hl Hw|s i c g c' k s' Hi Hl Hw|s g pc' k s' Hl Hw]; apply (wakes_jobs _ _ _ _ Hw).
  - apply wstep_cases in Hl as [Hal Hl]. by eapply worker_jobs.
  - apply cstep_cases in Hl as [(Hp & -> & -> & Hl)|[Hal Hl]].
    + rewrite with_shared_id. by eapply call_jobs.
    + by eapply client_jobs.
  - apply sstep_cases in Hl. by eapply owner_jobs.
Qed.

(** An event is a wake-up, or the call of [Stop]. *)
Lemma event_wakes s s' : event s s' → (∃ k, k ≠ PopBroadcast ∧ wakes k s s') ∨ owner s = SReady ∧ s' = with_owner s SSet.
Proof.
  intros He. destruct He as [s Ho|s i Hi|s i c Hi Hc|s Ho]; [by right|left..].
  - exists PushCond. split; [done|]. by constructor.
  - exists PopCond. split; [done|]. by constructor.
  - exists StopCond. split; [done|]. pose proof (wakes_owner s) as Hw. by rewrite Ho in Hw.
Qed.

Lemma event_jobs n s s' : event s s' → jobs_ok n s → jobs_ok n s'.
Proof.
  intros [(k & _ & Hw)|[_ ->]]%event_wakes Hj; [by eapply wakes_jobs|]. destruct Hj as [Hp Ha Hi Ht Hl Hpu]. by split.
Qed.

Lemma start_jobs n maxqueue jobs : jobs_ok n (start n maxqueue jobs).
Proof.
  split; cbn; try done.
  - induction n as [|n IH]; [done|]. exact IH.
  - rewrite <- list_fmap_compose. induction jobs as [|js jobs IH]; [done|]. exact IH.
  - f_equal. induction n as [|n IH]; [done|]. cbn. by rewrite <- IH.
  - apply length_replicate.
Qed.

Lemma reachable_jobs n maxqueue jobs s : Z.of_nat n < 2 ^ 64 → reachable n maxqueue jobs s → jobs_ok n s.
Proof. intros Hn. induction 1; eauto using start_jobs, step_jobs, event_jobs, reachable_data. Qed.

(** ** No signal is lost *)

Definition broadcasted (pc : spc) : bool :=
  match pc with SReady | SSet | SLockPop | SBroadcast => false | _ => true end.
Definition waits_for_workers (pc : spc) : bool := match pc with SWait | SWaiting => true | _ => false end.
Definition signals_worker (pc : spc) : bool := match pc with SLockPush | SSignal => true | _ => false end.
Definition completed (pc : spc) : bool := match pc with SClear | SDone => true | _ => false end.

(** A worker that does not wait and has not ended. *)
Definition live (pc : wpc) : bool := match pc with WWait | WEnd => false | _ => true end.
Definition has_live (s : state) : Prop := ∃ i pc, workers s !! i = Some pc ∧ live pc = true.
Definition has_signal (s : state) : Prop := ∃ i c j, clients s !! i = Some c ∧ cpos c = CSignal j.
Definition no_client_waits (s : state) : Prop := ∀ i c, clients s !! i = Some c → client_waits c = false.

(** The workers that are going to signal [QueuePopCond], the clients that are going to test whether there is room. *)
Definition popping (pc : wpc) : nat := match pc with WSignal _ => 1 | _ => 0 end.
Definition testing (c : client) : nat := match cpos c with CLock _ | CFull _ | CTerm _ | CPush _ => 1 | _ => 0 end.
Definition wakers (s : state) : nat := sum_list_with popping (workers s) + sum_list_with testing (clients s).

Record live_ok (s : state) : Prop := {
  live_clients : broadcasted (owner s) = true → no_client_waits s;
  live_ended : completed (owner s) = true → ∀ i pc, workers s !! i = Some pc → pc = WEnd;
  live_signal : signals_worker (owner s) = true → ThreadCountReal (sh s) ≠ 0;
  live_workers : waits_for_workers (owner s) = true → has_live s;
}.

(** Not all workers sleep on a job. *)
Definition idle_ok (s : state) : Prop := WWait ∈ workers s → Queue (sh s) ≠ [] → has_signal s ∨ has_live s.

(** The room in the queue is not more than the threads that are going to use it or to wake a client for it. *)
Definition room_ok (maxqueue : Z) (s : state) : Prop :=
  no_client_waits s ∨ (ShouldTerminate (sh s) = false → maxqueue ≤ vsize (Queue (sh s)) + Z.of_nat (wakers s)).

(** *** Wake-ups *)

Lemma wakes_no_client_waits k s s' : wakes k s s' → no_client_waits s → no_client_waits s'.
Proof.
  intros Hw Hn i c Hi. destruct (wakes_client_cases k s s' i c Hw Hi) as [|(c0 & Hc0 & ->)]; [by eapply Hn|].
  by destruct c0 as [? [] ?].
Qed.

Lemma wakes_has_live k s s' : wakes k s s' → has_live s → has_live s'.
Proof.
  intros Hw (i & pc & Hi & Hl). inversion Hw as [|? j Hj| | | | |]; subst; try (by exists i, pc). exists i, pc.
  split; [|done]. cbn. rewrite list_lookup_insert_ne; [done|]. intros ->. rewrite Hj in Hi. by injection Hi as <-.
Qed.

Lemma wake_client_signal c j : cpos c = CSignal j → wake_client c = c.
Proof. by destruct c as [? [] ?]. Qed.

Lemma wakes_has_signal k s s' : wakes k s s' → has_signal s → has_signal s'.
Proof.
  intros Hw (i & c & j & Hi & Hc). inversion Hw as [| | |? l c2 Hl Hc2| | |]; subst; try (by exists i, c, j); exists i, c, j; (split; [|done]); cbn.
  - rewrite list_lookup_insert_ne; [done|]. intros ->. rewrite Hl in Hi. injection Hi as ->. unfold client_waits in Hc2. by rewrite Hc in Hc2.
  - rewrite list_lookup_fmap, Hi. cbn. f_equal. by eapply wake_client_signal.
Qed.

Lemma testing_wake c : (testing c ≤ testing (wake_client c))%nat.
Proof. destruct c as [? [] ?]; cbn; lia. Qed.

Lemma wakes_wakers k s s' : wakes k s s' → (wakers s ≤ wakers s')%nat.
Proof.
  intros Hw. inversion Hw as [|? i Hi| |? i c Hi Hc| | |]; subst; unfold wakers; cbn [workers clients with_worker with_client with_owner]; try lia.
  - pose proof (sum_list_insert popping (workers s) i WWait WLock Hi). cbn in *. lia.
  - pose proof (sum_list_insert testing (clients s) i c (wake_client c) Hi). pose proof (testing_wake c). lia.
  - assert (sum_list_with testing (clients s) ≤ sum_list_with testing (wake_client <$> clients s))%nat; [|lia].
    clear. induction (clients s) as [|c cs IH]; [done|]. rewrite fmap_cons. cbn [sum_list_with]. pose proof (testing_wake c). lia.
Qed.

Lemma wakes_waiting k s s' : wakes k s s' → WWait ∈ workers s' → WWait ∈ workers s.
Proof.
  intros Hw [i Hi]%list_elem_of_lookup. destruct (wakes_worker_cases k s s' i _ Hw Hi) as [Hi2|[_ ?]]; [|done].
  by eapply list_elem_of_lookup_2.
Qed.

Lemma wakes_live k s s' : wakes k s s' → live_ok s → live_ok s'.
Proof.
  intros Hw [Hc He Hs Hl]. destruct (wakes_frame k s s' Hw) as [Hsh _].
  destruct (wakes_owner_cases k s s' Hw) as [Ho|[Ho1 Ho2]].
  - split; rewrite ?Ho, ?Hsh; [| |done|].
    + intros Hb. by eapply wakes_no_client_waits, Hc.
    + intros Hb i pc Hi2. destruct (wakes_worker_cases k s s' i pc Hw Hi2) as [|[Hi3 _]]; [by eapply He|].
      by specialize (He Hb i _ Hi3).
    + intros Hb. by eapply wakes_has_live, Hl.
  - rewrite Ho1 in *. split; rewrite ?Ho2, ?Hsh; try done. intros _. by eapply wakes_no_client_waits, Hc.
Qed.

Lemma wakes_idle k s s' : wakes k s s' → idle_ok s → idle_ok s'.
Proof.
  intros Hw Hi Hww%(wakes_waiting _ _ _ Hw) Hq. destruct (wakes_frame k s s' Hw) as [Hsh _]. rewrite Hsh in Hq.
  destruct (Hi Hww Hq); [left; by eapply wakes_has_signal|right; by eapply wakes_has_live].
Qed.

Lemma wakes_room maxqueue k s s' : wakes k s s' → room_ok maxqueue s → room_ok maxqueue s'.
Proof.
  intros Hw [Hr|Hr]; [left; by eapply wakes_no_client_waits|right]. destruct (wakes_frame k s s' Hw) as [-> _].
  pose proof (wakes_wakers k s s' Hw). intros Ht. specialize (Hr Ht). lia.
Qed.

(** *** Steps *)

(** A worker that goes on is live. *)
Lemma wcase_live i g pc g' pc' k : wcase i g pc g' pc' k → live pc = true.
Proof. by destruct 1. Qed.

(** A worker that makes a step stays live, unless it waits or ends. *)
Lemma wcase_stays i g pc g' pc' k : wcase i g pc g' pc' k →
  live pc' = true ∨ pc' = WWait ∧ Queue g' = [] ∧ ShouldTerminate g = false ∨ pc' = WEnd ∧ pc = WCount ∧ k = StopCond.
Proof. destruct 1; cbn; auto 10. Qed.

(** Who signals. *)
Lemma wcase_signals i g pc g' pc' k : wcase i g pc g' pc' k →
  k = NoSignal ∨ (k = PopCond ∧ g' = g ∧ ∃ j, pc = WSignal j ∧ pc' = WProcess j) ∨ k = StopCond ∧ pc = WCount.
Proof. destruct 1; eauto 10. Qed.

(** After a step of a worker, before it wakes another thread. *)
Lemma worker_live n maxqueue s i pc g pc' k : data_ok n maxqueue s → live_ok s → workers s !! i = Some pc →
  wcase i (sh s) pc g pc' k → (k = StopCond → waits_for_workers (owner s) = false) → live_ok (with_worker (with_shared s g) i pc').
Proof.
  intros Hd [Hc He Hs Hl] Hwi Hcase Hk. pose proof (data_mutexes _ _ _ Hd) as Hm. split; [done|..].
  - intros Hcomp. specialize (He Hcomp i pc Hwi). subst pc. inversion Hcase.
  - intros Hsg. specialize (Hs Hsg). cbn in Hsg. destruct Hcase; try done. exfalso.
    assert (H1 : StopMutex (sh s) = Some (Worker i)) by (apply (stop_mutex _ Hm); cbn; by rewrite Hwi).
    assert (H2 : StopMutex (sh s) = Some Owner) by (apply (stop_mutex _ Hm); cbn; by destruct (owner s)). congruence.
  - intros Hww. destruct (wcase_stays _ _ _ _ _ _ Hcase) as [Hp|[(_ & _ & Ht)|(_ & _ & ->)]].
    + exists i, pc'. split; [|done]. cbn. apply list_lookup_insert_eq. by eapply lookup_lt_Some.
    + rewrite (data_stopping _ _ _ Hd) in Ht. cbn in Hww. by destruct (owner s).
    + cbn in Hww. by rewrite Hk in Hww.
Qed.

(** A worker that ends wakes the owner. *)
Lemma last_worker_live n maxqueue s i g pc' s' : data_ok n maxqueue s → live_ok s → workers s !! i = Some WCount →
  wcase i (sh s) WCount g pc' StopCond → wakes StopCond (with_worker (with_shared s g) i pc') s' → live_ok s'.
Proof.
  intros Hd Hl Hwi Hcase Hw. pose proof (data_mutexes _ _ _ Hd) as Hm.
  destruct (waits_for_workers (owner s)) eqn:Hww.
  - inversion Hw; subst. cbn. destruct (owner s) eqn:Ho; try done.
    + exfalso. assert (H1 : StopMutex (sh s) = Some (Worker i)) by (apply (stop_mutex _ Hm); cbn; by rewrite Hwi).
      assert (H2 : StopMutex (sh s) = Some Owner) by (apply (stop_mutex _ Hm); cbn; by rewrite Ho). congruence.
    + split; try done; cbn. intros _. apply (live_clients _ Hl). by rewrite Ho.
  - apply (wakes_live _ _ _ Hw). by eapply (worker_live n maxqueue).
Qed.

Lemma worker_idle n maxqueue s i pc g pc' k : data_ok n maxqueue s → workers s !! i = Some pc →
  wcase i (sh s) pc g pc' k → idle_ok (with_worker (with_shared s g) i pc').
Proof.
  intros Hd Hwi Hcase _ Hq. right. destruct (wcase_stays _ _ _ _ _ _ Hcase) as [Hp|[(_ & Hq2 & _)|(-> & -> & _)]].
  - exists i, pc'. split; [|done]. cbn. apply list_lookup_insert_eq. by eapply lookup_lt_Some.
  - by destruct Hq.
  - destruct Hq. destruct (data_workers _ _ _ Hd i _ Hwi) as [_ Hx]. destruct (Hx eq_refl) as [_ Hx2].
    change (Queue g = []). by inversion Hcase; subst.
Qed.

Lemma worker_room n maxqueue s i pc g pc' k s' : data_ok n maxqueue s → room_ok maxqueue s → workers s !! i = Some pc →
  wcase i (sh s) pc g pc' k → wakes k (with_worker (with_shared s g) i pc') s' → room_ok maxqueue s'.
Proof.
  intros Hd Hr Hwi Hcase Hw. pose proof (sum_list_insert popping (workers s) i pc pc' Hwi) as Hsum.
  assert (Hterm : ShouldTerminate g = ShouldTerminate (sh s)) by by destruct Hcase.
  destruct (wcase_signals _ _ _ _ _ _ Hcase) as [Hk|[(-> & -> & j & -> & ->)|(Hk & ->)]].
  - apply (wakes_room _ _ _ _ Hw). destruct Hr as [Hr|Hr]; [by left|right]. cbn. rewrite Hterm. intros Ht. specialize (Hr Ht).
    unfold wakers in *. cbn [workers clients with_worker]. destruct Hcase; try discriminate Hk; cbn in *; try lia. rewrite H, vsize_cons in Hr. lia.
  - inversion Hw as [| | |? l c Hl Hc|? Hn| |]; subst.
    + destruct Hr as [Hr|Hr]; [exfalso; specialize (Hr l c Hl); congruence|right]. intros Ht. specialize (Hr Ht). cbn.
      pose proof (sum_list_insert testing (clients s) l c (wake_client c) Hl) as Hsum2. unfold wakers in *. cbn in *.
      destruct c as [? [] ?]; cbn in *; try done. lia.
    + left. intros l c Hl. rewrite Forall_lookup in Hn. by apply (Hn l).
  - apply (wakes_room _ _ _ _ Hw). destruct Hr as [Hr|Hr]; [by left|right]. cbn. rewrite Hterm. intros Ht. specialize (Hr Ht).
    unfold wakers in *. cbn [workers clients with_worker]. inversion Hcase; subst; cbn in *. lia.
Qed.

(** Who signals, and who waits. *)
Lemma ccase_signals i g js l pos g' c' k : ccase i g js l pos g' c' k →
  (k = NoSignal ∧ (∀ j, pos ≠ CSignal j)) ∨ k = PushCond ∧ g' = g ∧ cpos c' = CIdle ∧ ∃ j, pos = CSignal j.
Proof. destruct 1; eauto 10. Qed.

Lemma ccase_waits i g js l pos g' c' k : ccase i g js l pos g' c' k → client_waits c' = true →
  ShouldTerminate g = false ∧ 0 < MaxQueueSize g ≤ vsize (Queue g') ∧ g' = release_queue g.
Proof. by destruct 1. Qed.

Lemma client_live n maxqueue s i c g c' k : data_ok n maxqueue s → live_ok s → clients s !! i = Some c →
  ccase i (sh s) (calls c) (answers c) (cpos c) g c' k → live_ok (with_client (with_shared s g) i c').
Proof.
  intros Hd [Hc He Hs Hl] Hi Hcase. split; [|done| |done].
  - intros Hb l c2 Hl2. cbn in Hl2. eapply list_insert_cases in Hl2 as [[-> ->]|[_ Hl2]]; [|by eapply Hc|exact Hi].
    destruct (client_waits c') eqn:Hw; [|done]. destruct (ccase_waits _ _ _ _ _ _ _ _ Hcase Hw) as [Ht _].
    rewrite (data_stopping _ _ _ Hd) in Ht. cbn in Hb. by destruct (owner s).
  - by destruct Hcase.
Qed.

Lemma client_idle s i c g c' k s' : idle_ok s → clients s !! i = Some c → ccase i (sh s) (calls c) (answers c) (cpos c) g c' k →
  wakes k (with_client (with_shared s g) i c') s' → idle_ok s'.
Proof.
  intros Hid Hi Hcase Hw. destruct (ccase_signals _ _ _ _ _ _ _ _ Hcase) as [[-> Hns]|(-> & -> & _)].
  - apply (wakes_idle _ _ _ Hw). intros Hww Hq.
    assert (Hq2 : Queue (sh s) ≠ [] ∨ ∃ j, cpos c' = CSignal j) by (destruct Hcase; eauto).
    destruct Hq2 as [Hq2|[j Hj]].
    + destruct (Hid Hww Hq2) as [(l & c2 & j & Hl2 & Hj)|Hl]; [left|by right]. exists l, c2, j. split; [|done]. cbn.
      rewrite list_lookup_insert_ne; [done|]. intros ->. rewrite Hi in Hl2. injection Hl2 as ->. by destruct (Hns j).
    + left. exists i, c', j. split; [|done]. cbn. apply list_lookup_insert_eq. by eapply lookup_lt_Some.
  - inversion Hw as [|? l Hl|? Hno| | | |]; subst; [|by intros Hww].
    intros _ _. right. exists l, WLock. split; [|done]. cbn. apply list_lookup_insert_eq. by eapply lookup_lt_Some.
Qed.

Lemma client_room n maxqueue s i c g c' k : data_ok n maxqueue s → room_ok maxqueue s → Alive (sh s) = true → clients s !! i = Some c →
  ccase i (sh s) (calls c) (answers c) (cpos c) g c' k → room_ok maxqueue (with_client (with_shared s g) i c').
Proof.
  intros Hd Hr Hal Hi Hcase. destruct (data_consts _ _ _ Hd Hal) as [Hmax _].
  pose proof (sum_list_insert testing (clients s) i c c' Hi) as Hsum. unfold room_ok, wakers. cbn [workers clients sh with_client with_shared].
  destruct (client_waits c') eqn:Hww.
  - right. destruct (ccase_waits _ _ _ _ _ _ _ _ Hcase Hww) as (_ & Hfull & ->). intros _. rewrite Hmax in Hfull. lia.
  - destruct Hr as [Hr|Hr].
    + left. intros l c2 Hl2. cbn in Hl2. eapply list_insert_cases in Hl2 as [[-> ->]|[_ Hl2]]; [done|by apply (Hr l)|exact Hi].
    + right. intros Ht. assert (Ht2 : ShouldTerminate (sh s) = false) by by destruct Hcase. specialize (Hr Ht2). unfold wakers in Hr.
      unfold testing in Hsum at 2 4.
      destruct Hcase; cbn [cpos Queue with_queue_mutex release_queue push log_inlined] in *; rewrite ?vsize_snoc; try congruence; try lia.
Qed.

(** The owner. *)
Lemma no_counted ws : sum_list_with counted ws = O → ∀ i pc, ws !! i = Some pc → pc = WEnd.
Proof.
  induction ws as [|pc ws IH]; [done|]. cbn. intros Hs [|i] pc2 Hi.
  - injection Hi as <-. destruct pc; try done; cbn in Hs; lia.
  - apply (IH ltac:(lia) i pc2 Hi).
Qed.

Lemma some_counted ws : sum_list_with counted ws ≠ O → ∃ i pc, ws !! i = Some pc ∧ pc ≠ WEnd.
Proof.
  induction ws as [|pc ws IH]; [done|]. intros Hs. destruct (ended pc) eqn:He.
  - destruct pc; try done. destruct (IH Hs) as (i & pc2 & Hi & Hp). by exists (S i), pc2.
  - exists O, pc. split; [done|]. by intros ->.
Qed.

(** The owner has woken a worker, or none waits. *)
Lemma signal_has_live s s' : sum_list_with counted (workers s) ≠ O → wakes PushCond s s' → has_live s'.
Proof.
  intros Hs Hw. inversion Hw as [|? l Hl|? Hno| | | |]; subst.
  - exists l, WLock. split; [|done]. cbn. apply list_lookup_insert_eq. by eapply lookup_lt_Some.
  - destruct (some_counted _ Hs) as (i & pc & Hi & Hp). exists i, pc. split; [done|]. destruct pc; try done.
    destruct Hno. by eapply list_elem_of_lookup_2.
Qed.

Lemma owner_live n s g pc' k s' : jobs_ok n s → live_ok s → scase (sh s) (owner s) g pc' k →
  wakes k (with_owner (with_shared s g) pc') s' → live_ok s'.
Proof.
  intros Hj [Hc He Hs Hl] Hcase Hw. remember (owner s) as pos. pose proof (jobs_threads _ _ Hj) as Ht.
  destruct Hcase; inversion Hw; subst; split; try done; cbn.
  - (* broadcast *)
    intros _ i c Hi. cbn in Hi. rewrite list_lookup_fmap in Hi. apply fmap_Some in Hi as (c0 & _ & ->). by destruct c0 as [? [] ?].
  - (* all workers have ended *)
    intros _. apply no_counted. lia.
  - intros _. eapply signal_has_live; [|exact Hw]. cbn. specialize (Hs eq_refl). lia.
  - intros _. eapply signal_has_live; [|exact Hw]. cbn. specialize (Hs eq_refl). lia.
Qed.

Lemma owner_idle s g pc' k s' : idle_ok s → scase (sh s) (owner s) g pc' k →
  wakes k (with_owner (with_shared s g) pc') s' → idle_ok s'.
Proof. intros Hid Hcase Hw. apply (wakes_idle _ _ _ Hw). by destruct Hcase. Qed.

Lemma owner_room maxqueue s g pc' k s' : room_ok maxqueue s → scase (sh s) (owner s) g pc' k →
  wakes k (with_owner (with_shared s g) pc') s' → room_ok maxqueue s'.
Proof.
  intros Hr Hcase Hw. apply (wakes_room _ _ _ _ Hw). destruct Hr as [Hr|Hr]; [by left|right]. by destruct Hcase.
Qed.

(** *** All of them *)

Record queue_ok (n : nat) (maxqueue : Z) (s : state) : Prop := {
  queue_data : data_ok n maxqueue s;
  queue_jobs : jobs_ok n s;
  queue_live : live_ok s;
  queue_idle : idle_ok s;
  queue_room : room_ok maxqueue s;
}.

Lemma worker_step_live n maxqueue s i pc g pc' k s' : data_ok n maxqueue s → live_ok s → workers s !! i = Some pc →
  wcase i (sh s) pc g pc' k → wakes k (with_worker (with_shared s g) i pc') s' → live_ok s'.
Proof.
  intros Hd Hl Hi Hs Hw. destruct (wcase_signals _ _ _ _ _ _ Hs) as [->|[(-> & _)|(-> & ->)]].
  - apply (wakes_live _ _ _ Hw). by eapply worker_live.
  - apply (wakes_live _ _ _ Hw). by eapply worker_live.
  - by eapply last_worker_live.
Qed.

Lemma step_queue_ok n maxqueue s s' : Z.of_nat n < 2 ^ 64 → step s s' → queue_ok n maxqueue s → queue_ok n maxqueue s'.
Proof.
  intros Hn Hst [Hd Hj Hl Hid Hr]. assert (Hd' := step_data _ _ _ _ Hst Hd). assert (Hj' := step_jobs _ _ _ _ Hn Hd Hst Hj).
  destruct Hst as [s i pc g pc' k s' Hi Hs Hw|s i c g c' k s' Hi Hs Hw|s g pc' k s' Hs Hw].
  - apply wstep_cases in Hs as [Hal Hs]. split; [done|done|by apply (worker_step_live n maxqueue s i pc g pc' k)| |by apply (worker_room n maxqueue s i pc g pc' k)].
    apply (wakes_idle _ _ _ Hw). by apply (worker_idle n maxqueue s i pc g pc' k).
  - apply cstep_cases in Hs as [(Hp & -> & -> & Hs)|[Hal Hs]].
    + rewrite with_shared_id in Hw. inversion Hw; subst. split; try done.
      * destruct Hl as [Hc He Hs2 Hl]. split; try done. intros Hb l c2 Hl2. cbn in Hl2.
        eapply list_insert_cases in Hl2 as [[-> ->]|[_ Hl2]]; [by destruct Hs|by eapply Hc|exact Hi].
      * intros Hww Hq. destruct (Hid Hww Hq) as [(l & c2 & j & Hl2 & Hj2)|]; [left|by right]. exists l, c2, j. split; [|done].
        cbn. rewrite list_lookup_insert_ne; [done|]. intros ->. rewrite Hi in Hl2. injection Hl2 as ->. congruence.
      * destruct Hr as [Hr|Hr]; [left|right].
        -- intros l c2 Hl2. cbn in Hl2. eapply list_insert_cases in Hl2 as [[-> ->]|[_ Hl2]]; [by destruct Hs|by apply (Hr l)|exact Hi].
        -- intros Ht. specialize (Hr Ht). pose proof (sum_list_insert testing (clients s) i c c' Hi) as Hsum. unfold wakers in *.
           cbn [workers clients with_client sh]. unfold testing in Hsum at 2 4. rewrite Hp in Hsum. destruct Hs; cbn [cpos] in *; lia.
    + split; [done|done| |by apply (client_idle s i c g c' k)|]; [apply (wakes_live _ _ _ Hw)|apply (wakes_room _ _ _ _ Hw)];
        [by apply (client_live n maxqueue s i c g c' k)|by apply (client_room n maxqueue s i c g c' k)].
  - apply sstep_cases in Hs. split; [done|done|by apply (owner_live n s g pc' k)|by apply (owner_idle s g pc' k)|by apply (owner_room maxqueue s g pc' k)].
Qed.

Lemma event_queue_ok n maxqueue s s' : event s s' → queue_ok n maxqueue s → queue_ok n maxqueue s'.
Proof.
  intros He [Hd Hj Hl Hid Hr]. assert (Hd' := event_data _ _ _ _ He Hd). assert (Hj' := event_jobs _ _ _ He Hj).
  apply event_wakes in He as [(k & _ & Hw)|[Ho ->]].
  - split; [done|done|by eapply wakes_live|by eapply wakes_idle|by eapply wakes_room].
  - split; [done|done| |done|done]. destruct Hl as [Hc He Hs Hl]. by split.
Qed.

Lemma start_queue_ok n maxqueue jobs : queue_ok n maxqueue (start n maxqueue jobs).
Proof.
  split; [apply start_data|apply start_jobs|by split|by intros ? ?|left].
  intros i c Hi. cbn in Hi. rewrite list_lookup_fmap in Hi. by apply fmap_Some in Hi as (js & _ & ->).
Qed.

Lemma reachable_queue_ok n maxqueue jobs s : Z.of_nat n < 2 ^ 64 → reachable n maxqueue jobs s → queue_ok n maxqueue s.
Proof. intros Hn. induction 1; eauto using start_queue_ok, step_queue_ok, event_queue_ok. Qed.

(** ** Runs are finite *)

(** A bound on the steps a thread can still make, with those it lets others make: a wake-up of a
    worker or a client costs two, one of the owner seven, a job in the queue seven. *)
Definition wenergy (pc : wpc) : nat :=
  match pc with
  | WLock => 12 | WEmpty => 11 | WWait => 10 | WTerm => 10 | WSignal _ => 16 | WProcess _ => 13
  | WFinish => 9 | WCount => 8 | WEnd => 0
  end.
Definition cenergy (c : client) : nat :=
  17 * length (calls c) +
  match cpos c with
  | CIdle => 0 | CStart _ => 16 | CTharr _ => 15 | CInline _ => 1 | CLock _ => 14 | CFull _ => 13 | CWait _ => 12
  | CTerm _ => 12 | CPush _ => 11 | CSignal _ => 3
  end.
Definition senergy (clients : nat) (pc : spc) : nat :=
  match pc with
  | SReady => 11 + 2 * clients | SSet => 10 + 2 * clients | SLockPop => 9 + 2 * clients | SBroadcast => 8 + 2 * clients
  | SLockStop => 7 | SCount => 6 | SLockPush => 5 | SSignal => 4 | SWait => 1 | SWaiting => 0 | SClear => 1 | SDone => 0
  end.
Definition energy (s : state) : nat :=
  sum_list_with wenergy (workers s) + sum_list_with cenergy (clients s) + senergy (length (clients s)) (owner s) +
  7 * length (Queue (sh s)).

Definition cost (clients : nat) (k : signal) : nat :=
  match k with NoSignal => 0 | PushCond => 2 | PopCond => 2 | PopBroadcast => 2 * clients | StopCond => 7 end.

Lemma wake_client_energy c : (cenergy (wake_client c) ≤ cenergy c + 2)%nat.
Proof. destruct c as [? [] ?]; cbn; lia. Qed.

Lemma wakes_energy k s s' : wakes k s s' → (energy s' ≤ energy s + cost (length (clients s)) k)%nat.
Proof.
  intros Hw. inversion Hw as [|? i Hi| |? i c Hi Hc| | |]; subst; unfold energy;
    cbn [workers clients owner sh with_worker with_client with_owner cost]; rewrite ?length_insert, ?length_fmap; try lia.
  - pose proof (sum_list_insert wenergy (workers s) i WWait WLock Hi). cbn in *. lia.
  - pose proof (sum_list_insert cenergy (clients s) i c (wake_client c) Hi). pose proof (wake_client_energy c). lia.
  - assert (sum_list_with cenergy (wake_client <$> clients s) ≤ sum_list_with cenergy (clients s) + 2 * length (clients s))%nat; [|lia].
    clear. induction (clients s) as [|c cs IH]; [done|]. rewrite fmap_cons. cbn [sum_list_with length].
    pose proof (wake_client_energy c). lia.
  - destruct (owner s); cbn; lia.
Qed.

Lemma worker_energy s i pc g pc' k : workers s !! i = Some pc → wcase i (sh s) pc g pc' k →
  (energy (with_worker (with_shared s g) i pc') + cost (length (clients s)) k < energy s)%nat.
Proof.
  intros Hi Hc. pose proof (sum_list_insert wenergy (workers s) i pc pc' Hi) as Hs. unfold energy.
  cbn [workers clients owner sh with_worker with_shared].
  destruct Hc; cbn [Queue release_queue release_stop with_queue_mutex with_stop_mutex log_processed dec_thread_count pop wenergy cost] in *; try lia.
  rewrite H. cbn [length]. lia.
Qed.

Lemma client_energy s i c g c' k : clients s !! i = Some c → ccase i (sh s) (calls c) (answers c) (cpos c) g c' k →
  (energy (with_client (with_shared s g) i c') + cost (length (clients s)) k < energy s)%nat.
Proof.
  intros Hi Hc. pose proof (sum_list_insert cenergy (clients s) i c c' Hi) as Hs. unfold energy.
  cbn [workers clients owner sh with_client with_shared]. rewrite length_insert. unfold cenergy in Hs at 2 4.
  destruct Hc; cbn [calls cpos Queue release_queue with_queue_mutex log_inlined push cost] in *; rewrite ?length_app; cbn [length]; lia.
Qed.

Lemma call_energy s i c c' : clients s !! i = Some c → cpos c = CIdle → call_case (sh s) (answers c) (calls c) c' →
  (energy (with_client s i c') < energy s)%nat.
Proof.
  intros Hi Hp Hc. pose proof (sum_list_insert cenergy (clients s) i c c' Hi) as Hs. unfold energy.
  cbn [workers clients owner sh with_client]. rewrite length_insert. unfold cenergy in Hs at 2 4. rewrite Hp in Hs.
  destruct Hc; cbn [calls cpos length] in *; lia.
Qed.

Lemma owner_energy s g pc' k : scase (sh s) (owner s) g pc' k →
  (energy (with_owner (with_shared s g) pc') + cost (length (clients s)) k < energy s)%nat.
Proof.
  intros Hc. unfold energy. cbn [workers clients owner sh with_owner with_shared]. remember (owner s) as pos.
  destruct Hc; cbn [Queue release_queue release_stop with_queue_mutex with_stop_mutex set_terminate destroy senergy cost]; lia.
Qed.

Lemma step_energy s s' : step s s' → (energy s' < energy s)%nat.
Proof.
  intros Hst. destruct Hst as [s i pc g pc' k s' Hi Hs Hw|s i c g c' k s' Hi Hs Hw|s g pc' k s' Hs Hw];
    pose proof (wakes_energy _ _ _ Hw) as He.
  - apply wstep_cases in Hs as [_ Hs]. pose proof (worker_energy s i pc g pc' k Hi Hs). cbn [clients with_worker with_shared] in He. lia.
  - apply cstep_cases in Hs as [(Hp & -> & -> & Hs)|[_ Hs]].
    + rewrite with_shared_id in He. pose proof (call_energy s i c c' Hi Hp Hs). cbn [cost] in He. lia.
    + pose proof (client_energy s i c g c' k Hi Hs). cbn [clients with_client with_shared] in He. rewrite length_insert in He. lia.
  - apply sstep_cases in Hs. pose proof (owner_energy s g pc' k Hs). cbn [clients with_owner with_shared] in He. lia.
Qed.

Lemma steps_energy m s s' : nsteps step m s s' → (m + energy s' ≤ energy s)%nat.
Proof. induction 1 as [|m s1 s2 s3 Hs _ IH]; [lia|]. apply step_energy in Hs. lia. Qed.

(** ** Scheduled runs *)

Definition worker_waits (pc : wpc) : bool := match pc with WWait => true | _ => false end.

(** The wake-up of thread [t], if it waits. *)
Definition wake (k : signal) (t : nat) (s : state) : option state :=
  match k with
  | NoSignal => Some s
  | PushCond =>
      match workers s !! t with
      | Some WWait => Some (with_worker s t WLock)
      | _ => if existsb worker_waits (workers s) then None else Some s
      end
  | PopCond =>
      match clients s !! t with
      | Some c => if client_waits c then Some (with_client s t (wake_client c))
                  else if existsb client_waits (clients s) then None else Some s
      | None => if existsb client_waits (clients s) then None else Some s
      end
  | PopBroadcast => Some {| sh := sh s; workers := workers s; clients := wake_client <$> clients s; owner := owner s |}
  | StopCond => Some (with_owner s (wake_owner (owner s)))
  end.

Definition move (w : who) (t : nat) (s : state) : option state :=
  match w with
  | Worker i =>
      pc ← workers s !! i; r ← wstep i (sh s) pc;
      wake r.2 t (with_worker (with_shared s r.1.1) i r.1.2)
  | Client i =>
      c ← clients s !! i; r ← cstep i (sh s) c;
      wake r.2 t (with_client (with_shared s r.1.1) i r.1.2)
  | Owner => r ← sstep (sh s) (owner s); wake r.2 t (with_owner (with_shared s r.1.1) r.1.2)
  end.

(** A run: the threads that move, with the threads they wake. *)
Fixpoint run (schedule : list (who * nat)) (s : state) : option state :=
  match schedule with
  | [] => Some s
  | (w, t) :: schedule => s ← move w t s; run schedule s
  end.

Lemma existsb_lookup {A} (f : A → bool) (l : list A) : existsb f l = true ↔ ∃ i x, l !! i = Some x ∧ f x = true.
Proof.
  rewrite existsb_exists. split.
  - intros (x & [i Hi]%list_elem_of_In%list_elem_of_lookup & Hf). by exists i, x.
  - intros (i & x & Hi & Hf). exists x. split; [|done]. by eapply list_elem_of_In, list_elem_of_lookup_2.
Qed.

Lemma no_worker_waits s : existsb worker_waits (workers s) = false → WWait ∉ workers s.
Proof.
  intros Hn [i Hi]%list_elem_of_lookup. assert (Hw : existsb worker_waits (workers s) = true); [|congruence].
  apply existsb_lookup. by exists i, WWait.
Qed.

Lemma none_waits s : existsb client_waits (clients s) = false → Forall (λ c, client_waits c = false) (clients s).
Proof.
  intros Hn. apply Forall_lookup. intros i c Hi. destruct (client_waits c) eqn:Hc; [|done].
  assert (Hw : existsb client_waits (clients s) = true); [|congruence]. apply existsb_lookup. by exists i, c.
Qed.

Lemma wake_wakes k t s s' : wake k t s = Some s' → wakes k s s'.
Proof.
  unfold wake. destruct k.
  - intros [= ->]. constructor.
  - destruct (workers s !! t) as [[]|] eqn:Ht; try (by intros [= <-]; constructor);
      (destruct (existsb _ _) eqn:Hn; [done|]); intros [= <-]; constructor; by apply no_worker_waits.
  - destruct (clients s !! t) as [c|] eqn:Ht; [destruct (client_waits c) eqn:Hc; [by intros [= <-]; constructor|]|];
      (destruct (existsb _ _) eqn:Hn; [done|]); intros [= <-]; constructor; by apply none_waits.
  - intros [= <-]. constructor.
  - intros [= <-]. constructor.
Qed.

Lemma wakes_something k s : ∃ s', wakes k s s'.
Proof.
  destruct k; try (by eexists; constructor).
  - destruct (existsb worker_waits (workers s)) eqn:Hw.
    + apply existsb_lookup in Hw as (i & [] & Hi & Hp); try done. exists (with_worker s i WLock). by constructor.
    + exists s. constructor. by apply no_worker_waits.
  - destruct (existsb client_waits (clients s)) eqn:Hw.
    + apply existsb_lookup in Hw as (i & c & Hi & Hc).
      exists (with_client s i (wake_client c)). by constructor.
    + exists s. constructor. by apply none_waits.
Qed.

Lemma move_step w t s s' : move w t s = Some s' → step s s'.
Proof.
  destruct w as [i|i|]; cbn; intros Hm.
  - destruct (workers s !! i) as [pc|] eqn:Hi; [|done]. cbn in Hm. destruct (wstep i (sh s) pc) as [[[g pc'] k]|] eqn:Hs; [|done].
    eapply step_worker; [done|done|by eapply wake_wakes].
  - destruct (clients s !! i) as [c|] eqn:Hi; [|done]. cbn in Hm. destruct (cstep i (sh s) c) as [[[g c'] k]|] eqn:Hs; [|done].
    eapply step_client; [done|done|by eapply wake_wakes].
  - destruct (sstep (sh s) (owner s)) as [[[g pc'] k]|] eqn:Hs; [|done]. eapply step_owner; [done|by eapply wake_wakes].
Qed.

Lemma run_reachable n maxqueue jobs schedule s s' : reachable n maxqueue jobs s → run schedule s = Some s' →
  reachable n maxqueue jobs s'.
Proof.
  revert s. induction schedule as [|[w t] schedule IH]; intros s Hr Hs; cbn in Hs; [by injection Hs as <-|].
  destruct (move w t s) as [s1|] eqn:Hm; [|done]. apply (IH s1); [|done]. eapply reachable_step; [done|]. by eapply move_step.
Qed.

(** ** No deadlock *)

(** No thread can go on. *)
Definition stuck (s : state) : Prop := ∀ s', ¬ step s s'.

Lemma stuck_worker s i pc : stuck s → workers s !! i = Some pc → wstep i (sh s) pc = None.
Proof.
  intros Hs Hi. destruct (wstep i (sh s) pc) as [[[g pc'] k]|] eqn:Hw; [|done].
  destruct (wakes_something k (with_worker (with_shared s g) i pc')) as [s' Hk]. destruct (Hs s'). by eapply step_worker.
Qed.

Lemma stuck_client s i c : stuck s → clients s !! i = Some c → cstep i (sh s) c = None.
Proof.
  intros Hs Hi. destruct (cstep i (sh s) c) as [[[g c'] k]|] eqn:Hw; [|done].
  destruct (wakes_something k (with_client (with_shared s g) i c')) as [s' Hk]. destruct (Hs s'). by eapply step_client.
Qed.

Lemma stuck_owner s : stuck s → sstep (sh s) (owner s) = None.
Proof.
  intros Hs. destruct (sstep (sh s) (owner s)) as [[[g pc'] k]|] eqn:Hw; [|done].
  destruct (wakes_something k (with_owner (with_shared s g) pc')) as [s' Hk]. destruct (Hs s'). by eapply step_owner.
Qed.

(** Nobody has a mutex. *)
Lemma stuck_queue_mutex n maxqueue s : data_ok n maxqueue s → Alive (sh s) = true → stuck s → QueueMutex (sh s) = None.
Proof.
  intros Hd Hal Hs. destruct (QueueMutex (sh s)) as [w|] eqn:Hq; [exfalso|done]. apply (queue_mutex _ (data_mutexes _ _ _ Hd)) in Hq.
  destruct w as [i|i|]; cbn in Hq.
  - destruct (workers s !! i) as [pc|] eqn:Hi; [|done]. pose proof (stuck_worker s i pc Hs Hi) as Hw.
    pose proof (data_workers _ _ _ Hd i pc Hi) as [Ht _]. unfold wstep in Hw. rewrite Hal in Hw. destruct pc; try done; cbn in Hw.
    + by destruct (_ && _).
    + destruct (ShouldTerminate (sh s)), (Queue (sh s)); try done. by destruct (Ht eq_refl).
  - destruct (clients s !! i) as [[js pos l]|] eqn:Hi; [|done]. pose proof (stuck_client s i _ Hs Hi) as Hw.
    unfold cstep in Hw. rewrite Hal in Hw. cbn in Hq. destruct pos; try done; cbn in Hw; repeat case_match; done.
  - pose proof (stuck_owner s Hs) as Hw. by destruct (owner s).
Qed.

Lemma stuck_stop_mutex n maxqueue s : data_ok n maxqueue s → Alive (sh s) = true → stuck s → StopMutex (sh s) = None.
Proof.
  intros Hd Hal Hs. pose proof (stuck_queue_mutex n maxqueue s Hd Hal Hs) as Hqm.
  destruct (StopMutex (sh s)) as [w|] eqn:Hq; [exfalso|done]. apply (stop_mutex _ (data_mutexes _ _ _ Hd)) in Hq.
  destruct w as [i|i|]; cbn in Hq; [|done|].
  - destruct (workers s !! i) as [pc|] eqn:Hi; [|done]. pose proof (stuck_worker s i pc Hs Hi) as Hw.
    unfold wstep in Hw. rewrite Hal in Hw. by destruct pc.
  - pose proof (stuck_owner s Hs) as Hw. unfold sstep, acquire_queue in Hw. rewrite Hqm in Hw.
    destruct (owner s); try done. by destruct (_ =? _).
Qed.

(** Where the threads are. *)
Lemma stuck_positions n maxqueue s : data_ok n maxqueue s → Alive (sh s) = true → stuck s → ¬ dies s →
  (∀ i pc, workers s !! i = Some pc → pc = WWait ∨ pc = WEnd) ∧
  (∀ i c, clients s !! i = Some c → cpos c = CIdle ∧ calls c = [] ∨ client_waits c = true) ∧
  (owner s = SReady ∨ owner s = SWaiting).
Proof.
  intros Hd Hal Hs Hnd. pose proof (stuck_queue_mutex n maxqueue s Hd Hal Hs) as Hq.
  pose proof (stuck_stop_mutex n maxqueue s Hd Hal Hs) as Ht. split; [|split].
  - intros i pc Hi. pose proof (stuck_worker s i pc Hs Hi) as Hw. unfold wstep, acquire_queue, acquire_stop in Hw.
    rewrite Hal, Hq, Ht in Hw. destruct pc; cbn in Hw; try (by auto); try done.
    + by destruct (_ && _).
    + destruct (data_workers _ _ _ Hd i _ Hi) as [Hx _]. destruct (ShouldTerminate (sh s)), (Queue (sh s)); try done.
      by destruct (Hx eq_refl).
    + destruct Hnd. exists i, job. split; [done|]. destruct Catching, (throws job); try done; by rewrite ?bool_decide_true in Hw.
  - intros i [js pos l] Hi. pose proof (stuck_client s i _ Hs Hi) as Hw. unfold cstep, acquire_queue in Hw.
    rewrite Hal, Hq in Hw. destruct pos; cbn in Hw; try (by auto); try done; repeat case_match; try done; by left.
  - pose proof (stuck_owner s Hs) as Hw. unfold sstep, acquire_queue, acquire_stop in Hw. rewrite Hq, Ht in Hw.
    pose proof (data_alive _ _ _ Hd) as Ha. rewrite Hal in Ha. destruct (owner s); try (by auto); try done. by destruct (_ =? _).
Qed.

(** A thread that has made its calls; one that is in a call. *)
Definition finished (c : client) : Prop := cpos c = CIdle ∧ calls c = [].
Definition in_call (c : client) : Prop := cpos c ≠ CIdle.

Lemma stuck_destroyed s i c : stuck s → clients s !! i = Some c → finished c ∨ in_call c.
Proof.
  intros Hs Hi. pose proof (stuck_client s i c Hs Hi) as Hc. unfold finished, in_call. destruct c as [js pos l].
  unfold cstep in Hc. destruct pos; cbn in *; try (by right). destruct js; [by left|]. by destruct (Alive (sh s)).
Qed.

(** What is taken by no worker, and popped from an empty queue, is processed. *)
Lemma all_processed n maxqueue s : data_ok n maxqueue s → jobs_ok n s → Queue (sh s) = [] →
  (∀ i pc, workers s !! i = Some pc → pc = WWait ∨ pc = WEnd) → processed (sh s) ≡ₚ pushed (sh s).
Proof.
  intros Hd Hj Hq Hw. rewrite (data_fifo _ _ _ Hd), Hq, app_nil_r, (jobs_processed _ _ Hj).
  assert (Ht : concat (taken <$> workers s) = []); [|by rewrite Ht, app_nil_r].
  clear Hd Hj Hq. induction (workers s) as [|pc ws IH]; [done|]. rewrite fmap_cons. cbn [concat].
  rewrite IH by (intros i; apply (Hw (S i))). by destruct (Hw O pc eq_refl) as [-> | ->].
Qed.

Lemma no_wakers s : (∀ i pc, workers s !! i = Some pc → pc = WWait) →
  (∀ i c, clients s !! i = Some c → finished c ∨ client_waits c = true) → wakers s = O.
Proof.
  intros Hw Hc. unfold wakers. assert (Hp : sum_list_with popping (workers s) = O).
  { clear Hc. induction (workers s) as [|pc ws IH]; [done|]. cbn [sum_list_with].
    rewrite (Hw O pc eq_refl), IH; [done|]. intros k. apply (Hw (S k)). }
  assert (Ht : sum_list_with testing (clients s) = O); [|lia]. clear Hw Hp.
  induction (clients s) as [|c cs IH]; [done|]. cbn [sum_list_with].
  rewrite IH by (intros k; apply (Hc (S k))). unfold testing.
  destruct (Hc O c eq_refl) as [[-> _]|Hx]; [done|]. by destruct c as [? [] ?].
Qed.

(** While the owner has not called [Stop]: nothing is left to do. *)
Lemma stuck_ready n maxqueue s : queue_ok n maxqueue s → stuck s → ¬ dies s → owner s = SReady →
  Queue (sh s) = [] ∧ (∀ i pc, workers s !! i = Some pc → pc = WWait) ∧ ∀ i c, clients s !! i = Some c → finished c.
Proof.
  intros [Hd Hj Hl Hid Hr] Hs Hnd Ho.
  assert (Hal : Alive (sh s) = true) by (by rewrite (data_alive _ _ _ Hd), Ho).
  assert (Hterm : ShouldTerminate (sh s) = false) by (by rewrite (data_stopping _ _ _ Hd), Ho).
  destruct (stuck_positions n maxqueue s Hd Hal Hs Hnd) as (Hw & Hc & _).
  assert (Hwait : ∀ i pc, workers s !! i = Some pc → pc = WWait).
  { intros i pc Hi. destruct (Hw i pc Hi) as [| ->]; [done|]. destruct (data_workers _ _ _ Hd i _ Hi) as [_ Hx].
    destruct (Hx eq_refl). congruence. }
  assert (Hq : Queue (sh s) = []).
  { destruct (decide (n = O)) as [Hn|Hn].
    - pose proof (data_fifo _ _ _ Hd) as Hf. rewrite (jobs_pushed _ _ Hj Hn) in Hf. symmetry in Hf. by apply app_eq_nil in Hf as [_ ->].
    - destruct (Queue (sh s)) as [|j q] eqn:Hq; [done|exfalso]. destruct (workers s) as [|pc ws] eqn:Hws.
      { pose proof (jobs_workers _ _ Hj) as Hlen. rewrite Hws in Hlen. by apply Hn. }
      destruct Hid as [(i & c & j2 & Hi & Hj2)|(i & pc2 & Hi & Hp)].
      + rewrite Hws, (Hwait O pc eq_refl). by left.
      + by rewrite Hq.
      + destruct (Hc i c Hi) as [[Hx _]|Hx]; [congruence|]. unfold client_waits in Hx. by rewrite Hj2 in Hx.
      + rewrite Hws in Hi. by rewrite (Hwait i pc2 Hi) in Hp. }
  split; [done|]. split; [done|]. intros i c Hi. destruct (Hc i c Hi) as [Hx|Hx]; [done|exfalso].
  destruct Hr as [Hr|Hr]; [specialize (Hr i c Hi); congruence|]. specialize (Hr Hterm).
  assert (H0 : wakers s = O) by by eapply no_wakers.
  rewrite H0, Hq, (vsize_nil (A := J)) in Hr. destruct (data_clients _ _ _ Hd i c Hi) as [Hok _]. destruct c as [? [] ?]; try done. cbn in *. lia.
Qed.

(** The owner does not wait forever. *)
Lemma stuck_waiting n maxqueue s : queue_ok n maxqueue s → stuck s → ¬ dies s → owner s ≠ SWaiting.
Proof.
  intros [Hd Hj Hl Hid Hr] Hs Hnd Ho. assert (Hal : Alive (sh s) = true) by (by rewrite (data_alive _ _ _ Hd), Ho).
  destruct (stuck_positions n maxqueue s Hd Hal Hs Hnd) as (Hw & _ & _).
  destruct (live_workers _ Hl) as (i & pc & Hi & Hp); [by rewrite Ho|]. by destruct (Hw i pc Hi) as [-> | ->].
Qed.

(** C13: In every interleaving of the workers, the callers of [Add] and the owner of a [TMtpQueue] the mutexes
    exclude, the queue is first in first out and never longer than its limit, every job is processed at most once and
    by a worker that popped it, the jobs [Add] has accepted are those that were pushed or processed in the call,
    [ThreadCountReal] counts the workers that have not ended, a worker never pops from an empty queue, and none is left
    when the object is destroyed. *)
Theorem mtp_queue_safe n maxqueue jobs s : Z.of_nat n < 2 ^ 64 → reachable n maxqueue jobs s →
  (∀ v w, has_queue s v = true → has_queue s w = true → v = w) ∧
  (∀ v w, has_stop s v = true → has_stop s w = true → v = w) ∧
  pushed (sh s) = popped (sh s) ++ Queue (sh s) ∧ (0 < maxqueue → vsize (Queue (sh s)) ≤ maxqueue) ∧
  popped (sh s) ≡ₚ processed (sh s) ++ concat (taken <$> workers s) ∧
  pushed (sh s) ++ filter (λ j, throws j = None) (inlined (sh s)) ≡ₚ concat (accepted <$> clients s) ∧
  ThreadCountReal (sh s) = Z.of_nat (sum_list_with counted (workers s)) ∧
  (∀ i, workers s !! i = Some WTerm → wstep i (sh s) WTerm ≠ None) ∧
  (owner s = SDone → ∀ pc, pc ∈ workers s → pc = WEnd).
Proof.
  intros Hn Hr. destruct (reachable_queue_ok n maxqueue jobs s Hn Hr) as [Hd Hj Hl _ _].
  destruct (data_mutexes _ _ _ Hd) as [Hq Ht]. split; [|split].
  - intros v w Hv%Hq Hw%Hq. congruence.
  - intros v w Hv%Ht Hw%Ht. congruence.
  - split; [by apply (data_fifo _ _ _ Hd)|]. split; [by apply (data_bound _ _ _ Hd)|]. split; [by apply (jobs_processed _ _ Hj)|].
    split; [by apply (jobs_accepted _ _ Hj)|]. split; [by apply (jobs_threads _ _ Hj)|]. split.
    + intros i Hi. assert (Hal : Alive (sh s) = true).
      { rewrite (data_alive _ _ _ Hd). destruct (owner s) eqn:Ho; try done. pose proof (live_ended _ Hl) as He. rewrite Ho in He.
        by specialize (He eq_refl i _ Hi). }
      destruct (data_workers _ _ _ Hd i _ Hi) as [Hx _]. unfold wstep. rewrite Hal. cbn.
      destruct (ShouldTerminate (sh s)), (Queue (sh s)); try done. by destruct (Hx eq_refl).
    + intros Ho pc [i Hi]%list_elem_of_lookup. pose proof (live_ended _ Hl) as He. rewrite Ho in He. by apply (He eq_refl i).
Qed.

(** When no thread can go on. *)
Lemma stuck_state n maxqueue s : queue_ok n maxqueue s → stuck s → ¬ dies s → processed (sh s) ≡ₚ pushed (sh s) ∧
  (owner s = SReady ∧ (∀ pc, pc ∈ workers s → pc = WWait) ∧ (∀ c, c ∈ clients s → finished c) ∨
   owner s = SDone ∧ (∀ pc, pc ∈ workers s → pc = WEnd) ∧ ∀ c, c ∈ clients s → finished c ∨ in_call c).
Proof.
  intros Hok Hs Hnd. pose proof Hok as [Hd Hj Hl _ _].
  destruct (Alive (sh s)) eqn:Hal.
  - destruct (stuck_positions n maxqueue s Hd Hal Hs Hnd) as (Hw & _ & [Ho|Ho]); [|by destruct (stuck_waiting n maxqueue s)].
    destruct (stuck_ready n maxqueue s Hok Hs Hnd Ho) as (Hq & Hww & Hc). split; [by eapply all_processed|]. left. split; [done|].
    split; [intros pc [i Hi]%list_elem_of_lookup; by eapply Hww|intros c [i Hi]%list_elem_of_lookup; by eapply Hc].
  - assert (Ho : owner s = SDone) by (pose proof (data_alive _ _ _ Hd) as Ha; rewrite Hal in Ha; by destruct (owner s)).
    pose proof (live_ended _ Hl) as He. rewrite Ho in He. specialize (He eq_refl).
    assert (Hq : Queue (sh s) = []).
    { destruct (workers s) as [|pc ws] eqn:Hws.
      - pose proof (data_fifo _ _ _ Hd) as Hf. pose proof (jobs_workers _ _ Hj) as Hlen. rewrite Hws in Hlen.
        rewrite (jobs_pushed _ _ Hj (eq_sym Hlen)) in Hf. symmetry in Hf. by apply app_eq_nil in Hf as [_ ->].
      - rewrite <- Hws in He. assert (H0 : workers s !! O = Some pc) by (by rewrite Hws). pose proof (He O pc H0) as ->.
        destruct (data_workers _ _ _ Hd O _ H0) as [_ Hx]. by apply Hx. }
    split; [eapply all_processed; [done|done|done|]; intros i pc Hi; right; by eapply He|]. right. split; [done|].
    split; [intros pc [i Hi]%list_elem_of_lookup; by eapply He|intros c [i Hi]%list_elem_of_lookup; by eapply stuck_destroyed].
Qed.

(** C12: Without spurious wake-ups every run of a [TMtpQueue] is finite, and it cannot end too early: when no thread can
    go on, and no exception has ended the process, every job that was accepted has been processed, and either the owner
    has not called [Stop], the workers wait for a job and the callers have returned, or [Stop] has returned, the workers
    have ended, and a caller that has not returned is in an [Add] of a queue that is destroyed. *)
Theorem mtp_queue_live n maxqueue jobs s : Z.of_nat n < 2 ^ 64 → reachable n maxqueue jobs s →
  (∀ m s', nsteps step m s s' → (m ≤ energy s)%nat) ∧
  (stuck s → ¬ dies s → processed (sh s) ≡ₚ pushed (sh s) ∧
    (owner s = SReady ∧ (∀ pc, pc ∈ workers s → pc = WWait) ∧ (∀ c, c ∈ clients s → finished c) ∨
     owner s = SDone ∧ (∀ pc, pc ∈ workers s → pc = WEnd) ∧ ∀ c, c ∈ clients s → finished c ∨ in_call c)).
Proof.
  intros Hn Hr. split; [intros m s' Hm%steps_energy; lia|]. apply (stuck_state n maxqueue). by apply (reachable_queue_ok n maxqueue jobs).
Qed.

End Queue.

(** ** A run *)

(** A queue of one job with one worker, and a thread that adds three; the third [Add] waits when the owner calls
    [Stop], which wakes it and does not wait for it. *)
Definition moves (w : who) (n : nat) : list (who * nat) := replicate n (w, O).

Definition three_adds : state := start (J := Z) 1 1 [[1; 2; 3]].
Definition no_throws : Z → option exn := λ _, None.

Definition to_blocked : list (who * nat) := moves (Client 0) 8 ++ moves (Worker 0) 4 ++ moves (Client 0) 13.
Definition to_stopped : list (who * nat) := moves Owner 8 ++ moves (Worker 0) 11 ++ moves Owner 3.

Definition blocked : state := default three_adds (run true true no_throws to_blocked three_adds).
Definition stopped : state := default three_adds (run true true no_throws to_stopped (with_owner blocked SSet)).

Lemma stopped_reachable : reachable true true no_throws 1 1 [[1; 2; 3]] stopped.
Proof.
  assert (Hb : reachable true true no_throws 1 1 [[1; 2; 3]] blocked).
  { apply (run_reachable _ _ _ _ _ _ to_blocked three_adds); [apply reachable_start|]. vm_compute. reflexivity. }
  assert (He : event blocked (with_owner blocked SSet)) by (apply event_stop; vm_compute; reflexivity).
  apply (run_reachable _ _ _ _ _ _ to_stopped (with_owner blocked SSet)); [by eapply reachable_event|].
  vm_compute. reflexivity.
Qed.

Lemma mtp_queue_safe_witness : reachable true true no_throws 1 1 [[1; 2; 3]] stopped ∧
  pushed (sh stopped) = [1; 2] ∧ popped (sh stopped) ≡ₚ processed (sh stopped) ++ concat (taken <$> workers stopped).
Proof.
  split; [exact stopped_reachable|]. split; [vm_compute; reflexivity|].
  apply (mtp_queue_safe true true no_throws 1 1 [[1; 2; 3]] stopped); [lia|exact stopped_reachable].
Defined.

Lemma stopped_stuck : stuck true true no_throws stopped.
Proof.
  intros s' Hs. assert (Hi : ∀ {A} (a x : A) i, [a] !! i = Some x → i = O ∧ x = a).
  { intros A a x [|[]] Hi; by simplify_eq/=. }
  set (s := stopped) in Hs. assert (He : s = stopped) by reflexivity. clearbody s. vm_compute in He.
  destruct Hs as [s i pc g pc' k s' Hw Hs _|s i c g c' k s' Hc Hs _|s g pc' k s' Hs _]; subst s; cbn in *.
  - apply Hi in Hw as [-> ->]. discriminate.
  - apply Hi in Hc as [-> ->]. discriminate.
  - discriminate.
Qed.

(** The owner has destroyed the queue, and the third [Add] is going to take its mutex. *)
Lemma mtp_queue_live_witness : owner stopped = SDone ∧
  (∃ c, clients stopped !! O = Some c ∧ cpos c = CLock 3) ∧ processed (sh stopped) ≡ₚ pushed (sh stopped).
Proof.
  split; [vm_compute; reflexivity|]. split; [eexists; split; vm_compute; reflexivity|].
  apply (mtp_queue_live true true no_throws 1 1 [[1; 2; 3]] stopped); [lia|exact stopped_reachable|exact stopped_stuck|].
  intros (i & j & Hi & Hc & _). discriminate Hc.
Defined.
