(* ===== verification/Parallel.v ===== *)
(** * Parallel loops: [library/threading/algorithm/parallel_algorithm.h],
    [library/threading/future/legacy_future.h], [util/thread/queue.cpp] and
    [cmicot/lib/algorithm.h]

    [ParallelForEach] submits one task per element to a queue served by
    [maxParallel] threads and collects the results in the order of the elements.
    [Pool] models the queue and its threads as a transition system whose steps
    interleave the atomic actions of the tasks; each task works on a cell of its
    own.  The functions below compute the result of every complete run of it,
    which is what the theorem [pool_schedule_independent] is about. *)
From Stdlib Require Reals.Rdefinitions.
From S2P Require Import Prelude Arith XRange Algorithm.

Open Scope Z_scope.

(** ** Failures of tasks *)

(** A failure that ends the process rather than the task. *)
Definition fatal {A} (r : outcome A) : bool :=
  match r with Ret _ | Fail (Throw _) => false | Fail _ => true end.

(** What [Get()] of a future gives for a finished task.  A queue thread catches
    an exception of its task, logs it and leaves the promise without a value; a
    thread of the system pool ([maxParallel = 0]) does not catch it. *)
Definition future_get {A} (max_parallel : Z) (r : outcome A) : outcome A :=
  match r with
  | Fail (Throw _) =>
      if max_parallel =? 0 then Fail (Abort VTerminate) else Fail (Throw EFutureNotSet)
  | r => r
  end.

(** The failure of a process in which a task failed fatally.  When several do, the
    schedule decides which is first; the model takes the first in order. *)
Fixpoint first_fatal {A} (rs : list (outcome A)) : option failure :=
  match rs with
  | [] => None
  | r :: rs => match r with
               | Fail f => if fatal r then Some f else first_fatal rs
               | Ret _ => first_fatal rs
               end
  end.

(** The results of the tasks as [ParallelForEach] returns them. *)
Definition collect {A} (max_parallel : Z) (rs : list (outcome A)) : outcome (list A) :=
  match first_fatal rs with
  | Some f => Fail f
  | None => mmap (future_get max_parallel) rs
  end.

(** [ParallelForEach(begin, end, f, res, maxParallel)]: the vector [res]. *)
Definition ParallelForEach {X A} (f : X → outcome A) (xs : list X) (max_parallel : Z)
    : outcome (list A) :=
  collect max_parallel (f <$> xs).

(** ** [cmicot/lib/algorithm.h] *)

Section Extreme.
  Context {X D : Type}.

(** [Impl::ParallelExtremeElementBy] *)
Definition ParallelExtremeElementBy (pred : D → D → bool) (xs : list X) (func : X → outcome D)
    (thread_count : Z) : outcome Z :=
  values ← ParallelForEach func xs thread_count;
  ExtremeElementBy pred values Ret.

End Extreme.

(** [ParallelMinElementBy] and [ParallelMaxElementBy]: the position found. *)
Definition ParallelMinElementBy {X D} `{Arith D} (xs : list X) (func : X → outcome D)
    (thread_count : Z) : outcome Z :=
  ParallelExtremeElementBy a_ltb xs func thread_count.
Definition ParallelMaxElementBy {X D} `{Arith D} (xs : list X) (func : X → outcome D)
    (thread_count : Z) : outcome Z :=
  ParallelExtremeElementBy a_gtb xs func thread_count.

(** ** The results of a loop *)

Lemma first_fatal_None {A} (rs : list (outcome A)) :
  first_fatal rs = None ↔ Forall (λ r, fatal r = false) rs.
Proof.
  induction rs as [|r rs IH]; cbn; [by split|]. rewrite Forall_cons.
  destruct r as [a|[]]; cbn; naive_solver.
Qed.

Lemma collect_Ret {A} mp (rs : list (outcome A)) vs :
  collect mp rs = Ret vs ↔ rs = Ret <$> vs.
Proof.
  unfold collect. split.
  - destruct (first_fatal rs); [done|]. intros Hm%mmap_Forall2.
    induction Hm as [|r v rs vs Hr _ IH]; [done|]. cbn. f_equal; [|done].
    destruct r as [|[]]; cbn in Hr; try congruence. by destruct (mp =? 0).
  - intros ->. rewrite (proj2 (first_fatal_None _)).
    + induction vs as [|v vs IH]; cbn; [done|]. by rewrite IH.
    + apply Forall_forall. by intros r (v & -> & _)%list_elem_of_fmap.
Qed.

(** A loop whose tasks all return collects their values, whatever the number of
    threads, as [mmap] does. *)
Lemma ParallelForEach_Ret {X A} (f : X → outcome A) xs mp vs :
  ParallelForEach f xs mp = Ret vs ↔ mmap f xs = Ret vs.
Proof.
  unfold ParallelForEach. rewrite collect_Ret, mmap_Forall2. split.
  - revert vs. induction xs as [|x xs IH]; intros [|v vs] Hf; try done; constructor.
    + by injection Hf.
    + apply IH. by injection Hf.
  - induction 1 as [|x v xs vs Hx _ IH]; [done|]. cbn. by rewrite Hx, IH.
Qed.

Lemma mmap_Ret_id {A} (vs : list A) : mmap Ret vs = Ret vs.
Proof. induction vs as [|v vs IH]; cbn; [done|]. by rewrite IH. Qed.

(** When every task returns, the parallel search finds the position the
    sequential one finds. *)
Lemma ParallelExtremeElementBy_sequential {X D} pred (xs : list X) (func : X → outcome D) vs tc :
  mmap func xs = Ret vs →
  ParallelExtremeElementBy pred xs func tc = ExtremeElementBy pred xs func.
Proof.
  intros Hm. unfold ParallelExtremeElementBy.
  rewrite (proj2 (ParallelForEach_Ret func xs tc vs) Hm), bind_Ret.
  by rewrite !ExtremeElementBy_values, Hm, mmap_Ret_id.
Qed.

(** ** The pool *)

Section Pool.
  Context {X L A : Type}.
  (** The elements, the number of threads, and one atomic action of the task of an
      element: the new content of its cell, and its result when it ends. *)
  Variable xs : list X.
  Variable threads : nat.
  Variable action : X → L → L * option (outcome A).

Inductive status : Type :=
| SPending                 (** not submitted *)
| SQueued                  (** in the queue *)
| SRunning                 (** taken by a thread *)
| SDone (r : outcome A).   (** [DoExecute] ended *)

(** The main thread has submitted the tasks below [submitted]; [queue] is
    [TImpl::Queue] and [idle] the number of threads that wait for a job. *)
Record pool : Type := {
  tasks : list (status * L);
  submitted : nat;
  queue : list nat;
  idle : nat;
}.

Definition init (cells : list L) : pool := {|
  tasks := pair SPending <$> cells;
  submitted := 0;
  queue := [];
  idle := threads;
|}.

Definition set_task (p : pool) (i : nat) (t : status * L) : list (status * L) := <[i := t]> (tasks p).

(** A step of the pool: the main thread adds a job, a thread pops the oldest job,
    a thread makes the next action of its task, a thread ends its task. *)
Inductive step : pool → pool → Prop :=
| step_submit p l :
    tasks p !! submitted p = Some (SPending, l) →
    step p {| tasks := set_task p (submitted p) (SQueued, l); submitted := S (submitted p);
              queue := queue p ++ [submitted p]; idle := idle p |}
| step_pop p i q l k :
    queue p = i :: q → idle p = S k → tasks p !! i = Some (SQueued, l) →
    step p {| tasks := set_task p i (SRunning, l); submitted := submitted p;
              queue := q; idle := k |}
| step_action p i l x l' :
    tasks p !! i = Some (SRunning, l) → xs !! i = Some x → action x l = (l', None) →
    step p {| tasks := set_task p i (SRunning, l'); submitted := submitted p;
              queue := queue p; idle := idle p |}
| step_finish p i l x l' r :
    tasks p !! i = Some (SRunning, l) → xs !! i = Some x → action x l = (l', Some r) →
    fatal r = false →
    step p {| tasks := set_task p i (SDone r, l'); submitted := submitted p;
              queue := queue p; idle := S (idle p) |}.

(** The process dies: a task fails fatally. *)
Definition dies (p : pool) (f : failure) : Prop :=
  ∃ i l x l', tasks p !! i = Some (SRunning, l) ∧ xs !! i = Some x ∧
    action x l = (l', Some (Fail f)) ∧ fatal (A := A) (Fail f) = true.

(** The destructor of the queue returns when every task is done. *)
Definition complete (p : pool) : Prop := ∀ i t, tasks p !! i = Some t → ∃ r, t.1 = SDone r.

(** A task alone: [n] actions that do not end it, and one that does. *)
Inductive actions (x : X) : nat → L → L → Prop :=
| actions_O l : actions x O l l
| actions_S n l l1 l' : actions x n l l1 → action x l1 = (l', None) → actions x (S n) l l'.

Definition alone (x : X) (l l' : L) (r : outcome A) : Prop :=
  ∃ n l1, actions x n l l1 ∧ action x l1 = (l', Some r).

Lemma actions_det x n m l l1 l2 :
  actions x n l l1 → actions x m l l2 → (n ≤ m)%nat →
  actions x (m - n) l1 l2.
Proof.
  intros Hn Hm Hle. revert n l1 Hn Hle. induction Hm as [l|m l l3 l4 Hm IH Ha]; intros n l1 Hn Hle.
  - replace n with O in * by lia. inversion Hn; subst. constructor.
  - destruct (decide (n = S m)) as [->|Hne].
    + rewrite Nat.sub_diag. inversion Hn as [|? ? l5 ? Hn5 Ha5]; subst.
      specialize (IH m l5 Hn5 ltac:(lia)). rewrite Nat.sub_diag in IH. inversion IH; subst.
      rewrite Ha in Ha5. injection Ha5 as <-. constructor.
    + replace (S m - n)%nat with (S (m - n)) by lia. econstructor; [apply IH; [done|lia]|done].
Qed.

(** An action that ends the task is not followed by another one. *)
Lemma actions_finished x n l l1 l' r : action x l = (l', Some r) → actions x n l l1 → n = O.
Proof.
  intros Ha Hd. induction Hd as [l|n l l2 l3 Hd IH Hb]; [done|].
  rewrite (IH Ha) in Hd. inversion Hd; subst. congruence.
Qed.

(** What a task does alone is determined. *)
Lemma alone_det x l l1 r1 l2 r2 : alone x l l1 r1 → alone x l l2 r2 → l1 = l2 ∧ r1 = r2.
Proof.
  intros (n & a & Ha & Hr) (m & b & Hb & Hs).
  assert (Hsame : ∀ n m a b, (n ≤ m)%nat → actions x n l a → actions x m l b →
    (∃ l' r, action x a = (l', Some r)) → a = b).
  { clear. intros n m a b Hle Ha Hb (l' & r & Hr). pose proof (actions_det x n m l a b Ha Hb Hle) as Hd.
    rewrite (actions_finished x _ a b l' r Hr Hd) in Hd. by inversion Hd. }
  assert (a = b) as -> by (destruct (decide (n ≤ m)%nat);
    [eapply (Hsame n m); eauto|symmetry; eapply (Hsame m n); eauto; lia]).
  rewrite Hr in Hs. by simplify_eq.
Qed.

(** *** The invariant of the pool *)

Definition is_running (t : status * L) : nat := match t.1 with SRunning => 1 | _ => 0 end.
Definition running (p : pool) : nat := sum_list_with is_running (tasks p).

(** What is known of a task from its status, its cell and its initial cell. *)
Definition task_ok (p : pool) (i : nat) (x : X) (c : L) (t : status * L) : Prop :=
  match t.1 with
  | SPending => t.2 = c ∧ (submitted p ≤ i)%nat
  | SQueued => t.2 = c ∧ (i < submitted p)%nat ∧ i ∈ queue p
  | SRunning => (i < submitted p)%nat ∧ ∃ n, actions x n c t.2
  | SDone r => (i < submitted p)%nat ∧ alone x c t.2 r ∧ fatal r = false
  end.

Record invariant (cells : list L) (p : pool) : Prop := {
  inv_length : length (tasks p) = length cells;
  inv_tasks i x c t : xs !! i = Some x → cells !! i = Some c → tasks p !! i = Some t →
    task_ok p i x c t;
  inv_queue i : i ∈ queue p → ∃ l, tasks p !! i = Some (SQueued, l);
  inv_nodup : NoDup (queue p);
  inv_pending i t : (submitted p ≤ i)%nat → tasks p !! i = Some t → t.1 = SPending;
  inv_submitted : (submitted p ≤ length cells)%nat;
  inv_idle : (idle p + running p = threads)%nat;
}.

Lemma init_invariant cells : invariant cells (init cells).
Proof.
  assert (Htasks : ∀ i t, tasks (init cells) !! i = Some t → ∃ c, t = (SPending, c) ∧ cells !! i = Some c).
  { intros i t Ht. unfold init in Ht; cbn in Ht. rewrite list_lookup_fmap in Ht.
    destruct (cells !! i) as [c|]; [|done]. injection Ht as <-. eauto. }
  constructor; cbn; [by rewrite length_fmap| | |constructor| |lia|].
  - intros i x c t _ Hc (c' & -> & Hc')%Htasks. unfold task_ok; cbn. split; [congruence|lia].
  - intros i Hi. by apply elem_of_nil in Hi.
  - by intros i t _ (c & -> & _)%Htasks.
  - assert (Hsum : sum_list_with is_running (pair SPending <$> cells) = O).
    { clear Htasks. by induction cells as [|c cells IH]. }
    unfold running; cbn. rewrite Hsum. lia.
Qed.

(** Changing one task: the others keep what is known of them as long as the
    queue keeps their indexes. *)
Lemma set_task_invariant cells p i t t' sub q k :
  invariant cells p → tasks p !! i = Some t →
  (submitted p ≤ sub)%nat → (sub ≤ length cells)%nat →
  (∀ j, j ≠ i → (submitted p ≤ j)%nat → (sub ≤ j)%nat) →
  (∀ j, j ≠ i → j ∈ q ↔ j ∈ queue p) → NoDup q →
  (i < sub)%nat → (i ∈ q → ∃ l, t' = (SQueued, l)) →
  (∀ x c, xs !! i = Some x → cells !! i = Some c →
    task_ok {| tasks := set_task p i t'; submitted := sub; queue := q; idle := k |} i x c t') →
  (k + is_running t' + idle p = idle p + idle p + is_running t)%nat →
  invariant cells {| tasks := set_task p i t'; submitted := sub; queue := q; idle := k |}.
Proof.
  intros [Hlen Htasks Hqueue Hnd Hpend Hsub Hidle] Ht Hge Hle Hsubj Hqj Hndq Hi Hiq Hok Hk.
  assert (Hilt : (i < length (tasks p))%nat) by (by eapply lookup_lt_Some).
  constructor; unfold set_task in *; cbn [tasks submitted queue idle].
  - by rewrite length_insert.
  - intros j x c u Hx Hc Hu. destruct (decide (j = i)) as [->|Hne].
    + rewrite list_lookup_insert_eq in Hu by done. injection Hu as <-. by apply Hok.
    + rewrite list_lookup_insert_ne in Hu by done. specialize (Htasks j x c u Hx Hc Hu).
      unfold task_ok in *; cbn [submitted queue]. destruct (u.1); [|..].
      * destruct Htasks. split; [done|]. by apply Hsubj.
      * destruct Htasks as (? & ? & ?). split_and!; [done|lia|]. by apply Hqj.
      * destruct Htasks as (? & ?). split; [lia|done].
      * destruct Htasks as (? & ? & ?). split_and!; [lia|done|done].
  - intros j Hj. destruct (decide (j = i)) as [->|Hne].
    + destruct (Hiq Hj) as [l ->]. exists l. by rewrite list_lookup_insert_eq.
    + rewrite list_lookup_insert_ne by done. apply Hqueue. by apply Hqj.
  - done.
  - intros j u Hj Hu. rewrite list_lookup_insert_ne in Hu by lia. apply (Hpend j); [lia|done].
  - done.
  - unfold running in *. cbn. pose proof (sum_list_insert is_running (tasks p) i t t' Ht). lia.
Qed.

Lemma step_invariant cells p p' :
  length xs = length cells → invariant cells p → step p p' → invariant cells p'.
Proof.
  intros Hxs Hinv Hstep. pose proof Hinv as [Hlen Htasks Hqueue Hnd Hpend Hsub Hidle].
  assert (Hcell : ∀ i t, tasks p !! i = Some t → ∃ x c, xs !! i = Some x ∧ cells !! i = Some c).
  { intros i t Ht%lookup_lt_Some. destruct (lookup_lt_is_Some_2 xs i), (lookup_lt_is_Some_2 cells i); eauto; lia. }
  destruct Hstep as [p l Ht|p i q l k Hq Hk Ht|p i l x l' Ht Hx Ha|p i l x l' r Ht Hx Ha Hf];
    destruct (Hcell _ _ Ht) as (x0 & c0 & Hx0 & Hc0); pose proof (Htasks _ _ _ _ Hx0 Hc0 Ht) as Hok;
    unfold task_ok in Hok; cbn in Hok;
    (eapply set_task_invariant; [done|exact Ht|lia|..|unfold is_running; cbn; lia]);
    try (intros y d Hy Hd; simplify_eq; unfold task_ok; cbn); try done; try lia.
  - apply lookup_lt_Some in Ht. lia.
  - intros j Hj. rewrite elem_of_app, list_elem_of_singleton. naive_solver.
  - apply NoDup_app. split_and!; [done| |apply NoDup_singleton].
    intros j Hj ->%list_elem_of_singleton. destruct (Hqueue _ Hj) as [l0 Hl0]. congruence.
  - eauto.
  - destruct Hok as [-> _]. split_and!; [done|lia|]. apply elem_of_app. right. by left.
  - intros j Hj. rewrite Hq, elem_of_cons. naive_solver.
  - rewrite Hq in Hnd. by apply NoDup_cons in Hnd as [_ ?].
  - intros Hi. rewrite Hq in Hnd. apply NoDup_cons in Hnd as [? _]. done.
  - destruct Hok as (-> & ? & _). split; [done|]. exists O. constructor.
  - intros Hi. destruct (Hqueue i Hi) as [l0 ?]. congruence.
  - destruct Hok as (? & n & Hn). split; [done|]. exists (S n). by econstructor.
  - intros Hi. destruct (Hqueue i Hi) as [l0 ?]. congruence.
  - destruct Hok as (? & n & Hn). split_and!; [done| |done]. exists n, l. done.
Qed.

Lemma reachable_invariant cells p :
  length xs = length cells → rtc step (init cells) p → invariant cells p.
Proof.
  intros Hxs Hr. assert (Hgen : ∀ a b, rtc step a b → invariant cells a → invariant cells b).
  { intros a b. induction 1; [done|]. eauto using step_invariant. }
  eapply Hgen; [done|]. apply init_invariant.
Qed.

(** *** Complete runs *)

(** The function each task computes from its cell. *)
Definition computes (cells : list L) (f : X → L → L * outcome A) : Prop :=
  ∀ i x c, xs !! i = Some x → cells !! i = Some c → alone x c (f x c).1 (f x c).2.

Lemma complete_tasks cells f p :
  length xs = length cells → computes cells f → rtc step (init cells) p → complete p →
  tasks p = zip_with (λ x c, (SDone (f x c).2, (f x c).1)) xs cells.
Proof.
  intros Hxs Hf Hr Hc. destruct (reachable_invariant cells p Hxs Hr) as [Hlen Htasks _ _ _ _ _].
  apply list_eq. intros i. rewrite lookup_zip_with.
  destruct (tasks p !! i) as [[st l]|] eqn:Ht.
  - apply lookup_lt_Some in Ht as Hlt.
    destruct (lookup_lt_is_Some_2 xs i) as [x Hx]; [lia|].
    destruct (lookup_lt_is_Some_2 cells i) as [c Hc']; [lia|]. rewrite Hx, Hc'. cbn. f_equal.
    destruct (Hc i _ Ht) as [r Hst]. cbn in Hst. subst st.
    pose proof (Htasks i x c _ Hx Hc' Ht) as (_ & Ha & _).
    destruct (alone_det x c _ _ _ _ Ha (Hf i x c Hx Hc')) as [Hl Hr']. cbn in Hl. by subst.
  - apply lookup_ge_None in Ht. rewrite (lookup_ge_None_2 xs) by lia. done.
Qed.

(** A pool with a thread is never stuck. *)
Lemma progress cells p :
  length xs = length cells → (0 < threads)%nat → rtc step (init cells) p →
  complete p ∨ (∃ p', step p p') ∨ ∃ f, dies p f.
Proof.
  intros Hxs Hth Hr. destruct (reachable_invariant cells p Hxs Hr) as [Hlen Htasks Hqueue _ Hpend Hsub Hidle].
  destruct (decide (Exists (λ t, is_running t = 1%nat) (tasks p))) as [Hrun|Hrun].
  { apply Exists_exists in Hrun as ([st l] & [i Hi]%list_elem_of_lookup & Hst).
    destruct st; try done. apply lookup_lt_Some in Hi as Hlt.
    destruct (lookup_lt_is_Some_2 xs i) as [x Hx]; [lia|].
    right. destruct (action x l) as [l' [r|]] eqn:Ha.
    - destruct (fatal r) eqn:Hf.
      + destruct r as [a|f]; [done|]. right. exists f, i, l, x, l'. done.
      + left. eexists. by eapply step_finish.
    - left. eexists. by eapply step_action. }
  assert (Hnone : ∀ i t, tasks p !! i = Some t → is_running t = O).
  { intros i t Ht. destruct (is_running t) as [|[|k]] eqn:Hk; [done| |by destruct t as [[]]].
    destruct Hrun. apply Exists_exists. exists t. split; [by eapply list_elem_of_lookup_2|done]. }
  assert (Hidle' : idle p = threads).
  { enough (running p = O) by lia. unfold running. clear -Hnone.
    induction (tasks p) as [|t ts IH]; [done|]. cbn. rewrite (Hnone O t eq_refl).
    apply IH. intros i u Hu. by apply (Hnone (S i)). }
  destruct (queue p) as [|i q] eqn:Hq.
  - destruct (decide (submitted p < length cells)%nat) as [Hlt|Hge].
    + right. left. destruct (lookup_lt_is_Some_2 (tasks p) (submitted p)) as [[st l] Ht]; [lia|].
      pose proof (Hpend _ _ (le_n _) Ht) as Hst. cbn in Hst. subst st. eexists. by apply (step_submit p l).
    + left. intros i [st l] Ht. cbn. apply lookup_lt_Some in Ht as Hlt.
      destruct (lookup_lt_is_Some_2 xs i) as [x Hx]; [lia|].
      destruct (lookup_lt_is_Some_2 cells i) as [c Hc]; [lia|].
      pose proof (Htasks i x c _ Hx Hc Ht) as Hok. unfold task_ok in Hok; cbn in Hok.
      destruct st as [| | |r]; [lia| | |by eexists].
      * rewrite Hq in Hok. destruct Hok as (_ & _ & Hi). by apply elem_of_nil in Hi.
      * pose proof (Hnone i _ Ht). done.
  - right. left. destruct (Hqueue i) as [l Hl]; [by left|].
    destruct threads as [|k]; [lia|]. eexists. by eapply step_pop.
Qed.

(** What is left to do for a task that takes [n] actions before its last one. *)
Definition work (x : X) (c : L) (n : nat) (t : status * L) (w : nat) : Prop :=
  match t.1 with
  | SPending => w = S (S (S n))
  | SQueued => w = S (S n)
  | SRunning => ∃ k, actions x k c t.2 ∧ (k ≤ n)%nat ∧ w = (S n - k)%nat
  | SDone _ => w = O
  end.

Definition works (cells : list L) (ns : list nat) (p : pool) (ws : list nat) : Prop :=
  length ws = length (tasks p) ∧
  ∀ i x c n t w, xs !! i = Some x → cells !! i = Some c → ns !! i = Some n →
    tasks p !! i = Some t → ws !! i = Some w → work x c n t w.

(** The numbers of actions the tasks take before the last one. *)
Definition lengths (cells : list L) (ns : list nat) : Prop :=
  length ns = length cells ∧
  ∀ i x c n, xs !! i = Some x → cells !! i = Some c → ns !! i = Some n →
    ∃ l l' r, actions x n c l ∧ action x l = (l', Some r).

Lemma actions_le x n k c l l1 l' r :
  actions x n c l → action x l = (l', Some r) → actions x k c l1 → (k ≤ n)%nat.
Proof.
  intros Hn Ha Hk. destruct (decide (k ≤ n)%nat); [done|]. exfalso.
  pose proof (actions_det x n k c l l1 Hn Hk ltac:(lia)) as Hd.
  destruct (k - n)%nat as [|d] eqn:Hd0; [lia|]. clear Hd0.
  by apply (actions_finished x (S d) l l1 l' r) in Hd.
Qed.

Lemma step_works cells ns p p' ws :
  length xs = length cells → lengths cells ns → invariant cells p → works cells ns p ws →
  step p p' → ∃ ws', works cells ns p' ws' ∧ (sum_list ws' < sum_list ws)%nat.
Proof.
  intros Hxs [Hlns Hns] Hinv [Hlws Hws] Hstep. pose proof Hinv as [Hlen Htasks _ _ _ _ _].
  assert (Hset : ∀ i t t' w' sub q k,
    tasks p !! i = Some t →
    (∀ x c n w, xs !! i = Some x → cells !! i = Some c → ns !! i = Some n → work x c n t w →
       work x c n t' (w' n w) ∧ (w' n w < w)%nat) →
    ∃ ws', works cells ns {| tasks := set_task p i t'; submitted := sub; queue := q; idle := k |} ws' ∧
      (sum_list ws' < sum_list ws)%nat).
  { intros i t t' w' sub q k Ht Hw. apply lookup_lt_Some in Ht as Hlt.
    destruct (lookup_lt_is_Some_2 xs i) as [x Hx]; [lia|].
    destruct (lookup_lt_is_Some_2 cells i) as [c Hc]; [lia|].
    destruct (lookup_lt_is_Some_2 ns i) as [n Hn]; [lia|].
    destruct (lookup_lt_is_Some_2 ws i) as [w Hwi]; [lia|].
    destruct (Hw x c n w Hx Hc Hn (Hws i x c n t w Hx Hc Hn Ht Hwi)) as [Hw' Hwlt].
    exists (<[i := w' n w]> ws). split; [split|].
    - cbn. unfold set_task. by rewrite !length_insert.
    - intros j y d m u v Hy Hd Hm Hu Hv. unfold set_task in Hu. cbn in Hu.
      destruct (decide (j = i)) as [->|Hne].
      + rewrite list_lookup_insert_eq in Hu by done. rewrite list_lookup_insert_eq in Hv by lia. by simplify_eq.
      + rewrite list_lookup_insert_ne in Hu by done. rewrite list_lookup_insert_ne in Hv by done.
        by eapply Hws.
    - pose proof (sum_list_insert id ws i w (w' n w) Hwi) as Hsum. cbn in Hsum.
      change (sum_list_with id ?l) with (sum_list l) in Hsum. lia. }
  destruct Hstep as [p l Ht|p i q l k Hq Hk Ht|p i l x l' Ht Hx Ha|p i l x l' r Ht Hx Ha Hf].
  - eapply (Hset _ _ _ (λ n _, S (S n)) _ _ _ Ht). intros y c n w _ _ _ ->. split; [done|cbn; lia].
  - eapply (Hset _ _ _ (λ n _, S n) _ _ _ Ht). intros y c n w Hy Hc _ ->. split; [|cbn; lia].
    destruct (Htasks i y c _ Hy Hc Ht) as [Hl _]. cbn in Hl. subst l.
    exists O. split_and!; [constructor|lia|lia].
  - eapply (Hset _ _ _ (λ _ w, pred w) _ _ _ Ht). intros y c n w Hy Hc Hn (k & Hk & Hle & ->).
    assert (y = x) as -> by congruence. destruct (Hns i x c n Hx Hc Hn) as (lf & l2 & r & Hlf & Hr).
    assert (Hk' : actions x (S k) c l') by (by econstructor).
    pose proof (actions_le x n (S k) c lf l' l2 r Hlf Hr Hk'). split; [|lia].
    exists (S k). split_and!; [done|done|cbn; lia].
  - eapply (Hset _ _ _ (λ _ _, O) _ _ _ Ht). intros y c n w _ _ _ (k & _ & Hle & ->). split; [done|lia].
Qed.

(** Every run of terminating tasks is finite: the sum of the work left bounds the
    number of steps. *)
Lemma runs_finite cells ns :
  length xs = length cells → lengths cells ns →
  ∀ n p, nsteps step n (init cells) p → (n ≤ sum_list ((λ m, S (S (S m))) <$> ns))%nat.
Proof.
  intros Hxs Hns. pose proof Hns as [Hlns _].
  assert (Hgen : ∀ n p p' ws, nsteps step n p p' → invariant cells p → works cells ns p ws →
    (n ≤ sum_list ws)%nat).
  { intros n p p' ws Hsteps. revert ws. induction Hsteps as [p|n p p1 p2 Hstep Hsteps IH];
      intros ws Hinv Hws; [lia|].
    destruct (step_works cells ns p p1 ws) as (ws' & Hws' & Hlt); [done..|].
    specialize (IH ws' ltac:(by eapply step_invariant) Hws'). lia. }
  intros n p Hsteps. eapply Hgen; [done|apply init_invariant|]. split.
  - cbn. rewrite !length_fmap. done.
  - intros i x c m t w Hx Hc Hm Ht Hw. cbn in Ht. rewrite list_lookup_fmap, Hc in Ht.
    rewrite list_lookup_fmap, Hm in Hw. by simplify_eq/=.
Qed.

Lemma computes_lengths cells f :
  length xs = length cells → computes cells f → ∃ ns, lengths cells ns.
Proof.
  intros Hxs Hf. unfold computes, lengths in *. clear threads. revert cells Hxs Hf.
  induction xs as [|x ys IH]; intros [|c cells] Hl Hf; try done; [by exists []|].
  destruct (Hf O x c) as (n & l & Hn & Ha); [done..|].
  destruct (IH cells) as (ns & Hlns & Hns); [by injection Hl|intros i; apply (Hf (S i))|].
  exists (n :: ns). split; [cbn; lia|].
  intros [|i] y d m; cbn; [|apply Hns]. intros; simplify_eq. eauto.
Qed.

End Pool.

Arguments alone {X L A} action x l l' r.
Arguments init {L A} threads cells.

(** C11: the result of a parallel loop does not depend on the schedule.  Take
    tasks that each compute [f] on a cell of their own, by any number of atomic
    actions, and a queue served by at least one thread.  Every run of the pool is
    finite; a run that cannot go on has completed, unless a task failed fatally;
    and every complete run leaves in the cells and in the results exactly what
    the tasks compute one after the other, so that [ParallelForEach] returns the
    collected results of [f]. *)
Theorem pool_schedule_independent {X L A : Type} (xs : list X) (threads : nat)
    (action : X → L → L * option (outcome A)) (cells : list L) (f : X → L → L * outcome A)
    (mp : Z) (Hlen : length xs = length cells) (Hthreads : (0 < threads)%nat)
    (Hf : ∀ i x c, xs !! i = Some x → cells !! i = Some c → alone action x c (f x c).1 (f x c).2) :
  (∃ bound, ∀ n p, nsteps (step xs action) n (init threads cells) p → (n ≤ bound)%nat) ∧
  (∀ p, rtc (step xs action) (init threads cells) p →
     complete p ∨ (∃ p', step xs action p p') ∨ ∃ e, dies xs action p e) ∧
  (∀ p, rtc (step xs action) (init threads cells) p → complete p →
     (tasks p).*2 = zip_with (λ x c, (f x c).1) xs cells ∧
     ∃ rs, (tasks p).*1 = SDone <$> rs ∧
       collect mp rs = ParallelForEach (λ xc, (f xc.1 xc.2).2) (zip xs cells) mp).
Proof.
  split_and!.
  - destruct (computes_lengths xs action cells f Hlen Hf) as [ns Hns].
    eexists. intros n p. by apply (runs_finite xs threads action cells ns).
  - intros p. by apply progress.
  - intros p Hr Hc. rewrite (complete_tasks xs threads action cells f p) by done. split.
    + clear. revert cells. induction xs as [|x xs IH]; intros [|c cells]; cbn; try done. by rewrite IH.
    + exists (zip_with (λ x c, (f x c).2) xs cells). split.
      * clear. revert cells. induction xs as [|x xs IH]; intros [|c cells]; cbn; try done. by rewrite IH.
      * unfold ParallelForEach. f_equal. clear.
        revert cells. induction xs as [|x xs IH]; intros [|c cells]; cbn; try done. by rewrite IH.
Qed.

(** Two tasks with cells 5 and 7: each increments its cell, then returns its
    double plus the element. *)
Example pool_schedule_independent_witness :
  let action (x : Z) (l : Z * bool) : (Z * bool) * option (outcome Z) :=
    if l.2 then (l, Some (Ret (x + 2 * l.1))) else ((l.1 + 1, true), None) in
  let f (x : Z) (l : Z * bool) := ((l.1 + 1, true), Ret (x + 2 * (l.1 + 1))) in
  let cells := [(5, false); (7, false)] in
  (∃ bound, ∀ n p, nsteps (step [10; 20] action) n (init 2 cells) p → (n ≤ bound)%nat) ∧
  (∀ p, rtc (step [10; 20] action) (init 2 cells) p →
     complete p ∨ (∃ p', step [10; 20] action p p') ∨ ∃ e, dies [10; 20] action p e) ∧
  (∀ p, rtc (step [10; 20] action) (init 2 cells) p → complete p →
     (tasks p).*2 = zip_with (λ x c, (f x c).1) [10; 20] cells ∧
     ∃ rs, (tasks p).*1 = SDone <$> rs ∧
       collect 2 rs = ParallelForEach (λ xc, (f xc.1 xc.2).2) (zip [10; 20] cells) 2).
Proof.
  intros action f cells.
  apply (pool_schedule_independent [10; 20] 2 action cells f 2); [done|lia|].
  intros [|[|i]] x c Hx Hc; [| |done]; injection Hx as <-; injection Hc as <-;
    eexists 1%nat, _; (split; [econstructor; [constructor|done]|done]).
Defined.

(** [ParallelMinElementBy] and [ParallelMaxElementBy] find what the sequential
    searches of [util/generic/algorithm.h] find, with any number of threads: for
    a callback that returns on every element, the position of the first element
    with the extreme value, and the end for an empty range. *)
Theorem parallel_search_sequential {X D : Type} `{Arith D} (xs : list X) (func : X → outcome D)
    (vs : list D) (thread_count : Z) (Hfunc : mmap func xs = Ret vs) :
  ParallelMinElementBy xs func thread_count = MinElementBy xs func ∧
  ParallelMaxElementBy xs func thread_count = MaxElementBy xs func.
Proof. split; by eapply ParallelExtremeElementBy_sequential. Qed.

Example parallel_search_sequential_witness :
  let func (x : Z) : outcome Rdefinitions.R := Ret (Rdefinitions.IZR (x * x)) in
  mmap func [3; -1; 2] = Ret [Rdefinitions.IZR 9; Rdefinitions.IZR 1; Rdefinitions.IZR 4] ∧
  ParallelMinElementBy [3; -1; 2] func 8 = MinElementBy [3; -1; 2] func ∧
  ParallelMaxElementBy [3; -1; 2] func 8 = MaxElementBy [3; -1; 2] func.
Proof.
  intros func. split; [reflexivity|].
  apply (parallel_search_sequential [3; -1; 2] func [Rdefinitions.IZR 9; Rdefinitions.IZR 1; Rdefinitions.IZR 4] 8). reflexivity.
Defined.
