(* ===== verification/QueuePool.v ===== *)
(** * The pool of a parallel loop on its queue

    [ParallelForEach] gives a task for each element to a [TMtpQueue] without a limit, in the
    order of the elements.  Here every run of that queue, with its mutexes, condition
    variables and wake-ups, is a run of the pool of [Parallel], in which a submission, a pop
    and the end of a task are single steps. *)
From S2P Require Import Prelude Parallel MtpQueue.
Open Scope Z_scope.

Section Refinement.
  Context {X L A : Type}.
  Variables (xs : list X) (action : X → L → L * option (outcome A)) (cells : list L) (f : X → L → L * outcome A).
  Hypothesis Hlen : length xs = length cells.
  Hypothesis Hf : ∀ i x c, xs !! i = Some x → cells !! i = Some c → alone action x c (f x c).1 (f x c).2.
  Hypothesis Hfatal : ∀ i x c, xs !! i = Some x → cells !! i = Some c → fatal (f x c).2 = false.
  (** The queue: the number of its threads, and what a job throws behind its promise, which the queue catches. *)
  Variables (Blocking : bool) (throws : nat → option exn) (n : nat).
  Hypothesis Hn : (0 < n)%nat.
  Hypothesis Hn64 : Z.of_nat n < 2 ^ 64.

  Notation qstep := (MtpQueue.step Blocking true throws).
  Notation qreachable := (MtpQueue.reachable Blocking true throws n 0 [seq 0 (length xs)]).
  Notation pstep := (Parallel.step xs action).
  Notation start_pool := (Parallel.init n cells).

(** ** The jobs are added in order *)

(** The job of the call a client is in, while it is not added. *)
Definition current (c : @client nat) : list nat :=
  match cpos c with
  | CIdle | CSignal _ => []
  | CStart j | CTharr j | CInline j | CLock j | CFull j | CWait j | CTerm j | CPush j => [j]
  end.
Definition pushing (c : @client nat) : bool := match cpos c with CPush _ => true | _ => false end.

(** Everything was added that was called for, or the queue is stopped and nothing is added any more. *)
Definition in_order (s : @state nat) : Prop :=
  pushed (sh s) `prefix_of` seq 0 (length xs) ∧ ∃ c, clients s = [c] ∧
    (pushed (sh s) ++ current c ++ calls c = seq 0 (length xs) ∨ ShouldTerminate (sh s) = true ∧ pushing c = false).

Lemma wake_current c : current (wake_client c) = current c ∧ calls (wake_client c) = calls c ∧ pushing (wake_client c) = pushing c.
Proof. by destruct c as [? [] ?]. Qed.

Lemma wakes_in_order k s s' : wakes k s s' → in_order s → in_order s'.
Proof.
  intros Hw (Hp & c & Hc & Ho). destruct (wakes_frame k s s' Hw) as [Hs _]. unfold in_order. rewrite Hs. split; [done|].
  assert (Hc' : clients s' = [c] ∨ clients s' = [wake_client c]).
  { inversion Hw as [| | |? i c2 Hi Hc2| | |]; subst; try (by left); right; cbn.
    - rewrite Hc in *. destruct i as [|[]]; by simplify_eq/=.
    - by rewrite Hc. }
  destruct (wake_current c) as (E1 & E2 & E3).
  destruct Hc' as [->| ->]; [by exists c|]. exists (wake_client c). by rewrite E1, E2, E3.
Qed.

(** A client's step adds the next job, or is refused when the queue stops. *)
Lemma client_in_order s i c g c' k : data_ok Blocking n 0 s → in_order s → Alive (sh s) = true → clients s !! i = Some c →
  ccase Blocking throws i (sh s) (calls c) (answers c) (cpos c) g c' k → in_order (with_client (with_shared s g) i c').
Proof.
  intros Hd (Hp & c0 & Hc0 & Ho) Hal Hi Hcase. destruct (data_consts _ _ _ _ Hd Hal) as [Hmax Hthr].
  assert (i = O ∧ c0 = c) as [-> ->] by (rewrite Hc0 in Hi; destruct i as [|[]]; by simplify_eq/=).
  unfold in_order. cbn [sh with_client with_shared clients]. rewrite Hc0. cbn.
  unfold current, pushing in Ho. unfold current, pushing. remember (cpos c) as pos.
  destruct (data_clients _ _ _ _ Hd O c Hi) as [Hpos _]. rewrite <- Heqpos in Hpos.
  destruct Hcase; cbn [cpos calls pushed with_queue_mutex release_queue log_inlined push ShouldTerminate] in *;
    try (split; [done|]; eexists; split; [done|]; first [exact Ho|by right]).
  - cbn in Hpos. lia.
  - lia.
  - split; [done|]. eexists; split; [done|]. destruct Ho as [Ho|[Ho _]]; [by left|congruence].
  - destruct Ho as [Ho|[_ ?]]; [|done]. rewrite app_assoc in Ho. split; [by exists (calls c)|].
    eexists; split; [done|]. by left.
Qed.

Lemma call_in_order s i c c' : data_ok Blocking n 0 s → in_order s → clients s !! i = Some c → cpos c = CIdle →
  call_case (sh s) (answers c) (calls c) c' → in_order (with_client s i c').
Proof.
  intros Hd (Hp & c0 & Hc0 & Ho) Hi Hpos Hcase.
  assert (i = O ∧ c0 = c) as [-> ->] by (rewrite Hc0 in Hi; destruct i as [|[]]; by simplify_eq/=).
  split; [done|]. exists c'. cbn. rewrite Hc0. split; [done|]. unfold current, pushing in *. rewrite Hpos in Ho.
  remember (calls c) as js. destruct Hcase as [j js Hal|j js Hal]; cbn in *; [exact Ho|].
  right. split; [|done]. rewrite (data_stopping _ _ _ _ Hd). rewrite (data_alive _ _ _ _ Hd) in Hal. by destruct (owner s).
Qed.

(** ** The simulation *)

(** The jobs the workers have. *)
Definition running_jobs (s : @state nat) : list nat := concat (taken <$> workers s).

Record simulates (s : @state nat) (p : pool) : Prop := {
  sim_run : rtc pstep start_pool p;
  sim_submitted : submitted p = length (pushed (sh s));
  sim_queue : Parallel.queue p = Queue (sh s);
  sim_idle : (idle p + length (running_jobs s) = n)%nat;
  sim_running i : i ∈ running_jobs s → ∃ c, cells !! i = Some c ∧ tasks p !! i = Some (Parallel.SRunning, c);
  sim_done i : i ∈ processed (sh s) → ∃ x c, xs !! i = Some x ∧ cells !! i = Some c ∧
    tasks p !! i = Some (Parallel.SDone (f x c).2, (f x c).1);
}.

Lemma sim_eq s s' p : simulates s p → pushed (sh s') = pushed (sh s) → Queue (sh s') = Queue (sh s) →
  running_jobs s' ≡ₚ running_jobs s → processed (sh s') = processed (sh s) → simulates s' p.
Proof.
  intros [Hr Hs Hq Hi Hru Hd] E1 E2 E3 E4. split; rewrite ?E1, ?E2, ?E3, ?E4; try done.
  intros i Hi2. rewrite E3 in Hi2. by apply Hru.
Qed.

Lemma wakes_running k s s' : wakes k s s' → running_jobs s' ≡ₚ running_jobs s.
Proof.
  intros Hw. unfold running_jobs. inversion Hw as [|? i Hi| | | | |]; subst; try done. cbn.
  pose proof (concat_fmap_insert taken (workers s) i WWait WLock Hi) as Hc. cbn in Hc. by rewrite !app_nil_r in Hc.
Qed.

Lemma wakes_simulates k s s' p : wakes k s s' → simulates s p → simulates s' p.
Proof.
  intros Hw Hs. destruct (wakes_frame k s s' Hw) as [E _]. apply (sim_eq s); [done|by rewrite E..| |by rewrite E].
  by eapply wakes_running.
Qed.

Lemma sim_invariant s p : simulates s p → invariant xs n action cells p.
Proof. intros Hs. by apply reachable_invariant, (sim_run _ _ Hs). Qed.

(** A job that runs or is done is not another job. *)
Lemma tasks_ne s p i j st l : simulates s p → tasks p !! j = Some (st, l) → (st = SPending ∨ st = SQueued) →
  i ∈ running_jobs s ∨ i ∈ processed (sh s) → i ≠ j.
Proof.
  intros Hs Hj Hst [Hi|Hi] ->.
  - destruct (sim_running _ _ Hs j Hi) as (c & _ & Hc). rewrite Hj in Hc. destruct Hst; congruence.
  - destruct (sim_done _ _ Hs j Hi) as (x & c & _ & _ & Hc). rewrite Hj in Hc. destruct Hst; congruence.
Qed.

(** A job is pushed: it is submitted. *)
Lemma sim_push s s' p j : simulates s p → length (pushed (sh s)) = j → (j < length xs)%nat →
  pushed (sh s') = pushed (sh s) ++ [j] → Queue (sh s') = Queue (sh s) ++ [j] → processed (sh s') = processed (sh s) →
  running_jobs s' = running_jobs s → ∃ p', simulates s' p'.
Proof.
  intros Hsim Hj Hlt E1 E2 E3 E4. pose proof (sim_invariant s p Hsim) as Hinv.
  pose proof Hsim as [Hr Hs Hq Hi Hru Hd]. rewrite <- Hs in Hj.
  destruct (lookup_lt_is_Some_2 (tasks p) j) as [[st l] Ht]; [rewrite (inv_length _ _ _ _ _ Hinv); lia|].
  pose proof (inv_pending _ _ _ _ _ Hinv j _ ltac:(lia) Ht) as Hst. cbn in Hst. subst st.
  rewrite <- Hj in Ht. eexists. split.
  - eapply rtc_r; [exact Hr|]. by eapply step_submit.
  - cbn. rewrite E1, length_app. cbn. lia.
  - cbn. by rewrite Hq, E2, Hj.
  - cbn. by rewrite E4.
  - intros i Hi2. rewrite E4 in Hi2. cbn. unfold set_task.
    rewrite list_lookup_insert_ne; [by apply Hru|]. intros E. symmetry in E. revert E. eapply (tasks_ne s p); eauto.
  - intros i Hi2. rewrite E3 in Hi2. cbn. unfold set_task.
    rewrite list_lookup_insert_ne; [by apply Hd|]. intros E. symmetry in E. revert E. eapply (tasks_ne s p); eauto.
Qed.

(** A job is popped: a thread takes it. *)
Lemma sim_pop s s' p j q : simulates s p → Queue (sh s) = j :: q → (length (running_jobs s') ≤ n)%nat →
  pushed (sh s') = pushed (sh s) → Queue (sh s') = q → processed (sh s') = processed (sh s) →
  running_jobs s' ≡ₚ j :: running_jobs s → ∃ p', simulates s' p'.
Proof.
  intros Hsim Hqs Hle E1 E2 E3 E4. pose proof (sim_invariant s p Hsim) as Hinv.
  pose proof Hsim as [Hr Hs Hq Hi Hru Hd]. rewrite Hqs in Hq.
  destruct (inv_queue _ _ _ _ _ Hinv j) as [l Ht]; [rewrite Hq; by left|].
  assert (Hlt : (j < length (tasks p))%nat) by (by eapply lookup_lt_Some). rewrite (inv_length _ _ _ _ _ Hinv) in Hlt.
  destruct (lookup_lt_is_Some_2 xs j) as [x Hx]; [lia|]. destruct (lookup_lt_is_Some_2 cells j) as [c Hc]; [lia|].
  pose proof (inv_tasks _ _ _ _ _ Hinv j x c _ Hx Hc Ht) as [Hl _]. cbn in Hl. subst l.
  rewrite E4 in Hle. cbn [length] in Hle. destruct (idle p) as [|k] eqn:Hidle; [lia|]. eexists. split.
  - eapply rtc_r; [exact Hr|]. by eapply step_pop.
  - cbn. by rewrite E1.
  - cbn. by rewrite E2.
  - cbn. rewrite E4. cbn. lia.
  - intros i Hi2. rewrite E4 in Hi2. cbn. unfold set_task. apply elem_of_cons in Hi2 as [->|Hi2].
    + exists c. rewrite list_lookup_insert_eq by (by eapply lookup_lt_Some). done.
    + rewrite list_lookup_insert_ne; [by apply Hru|]. intros E. symmetry in E. revert E. eapply (tasks_ne s p); eauto.
  - intros i Hi2. rewrite E3 in Hi2. cbn. unfold set_task.
    rewrite list_lookup_insert_ne; [by apply Hd|]. intros E. symmetry in E. revert E. eapply (tasks_ne s p); eauto.
Qed.

(** The actions of a task. *)
Lemma run_actions p j x m l l1 : tasks p !! j = Some (Parallel.SRunning, l) → xs !! j = Some x → actions action x m l l1 →
  rtc pstep p {| tasks := <[j := (Parallel.SRunning, l1)]> (tasks p); submitted := submitted p; queue := queue p; idle := idle p |}.
Proof.
  intros Ht Hx Ha. revert Ht. induction Ha as [l|m l l2 l3 Ha IH Hl]; intros Ht.
  - rewrite list_insert_id by done. destruct p. apply rtc_refl.
  - eapply rtc_r; [by apply IH|].
    assert (Hlt : (j < length (tasks p))%nat) by (by eapply lookup_lt_Some).
    pose proof (step_action xs action {| tasks := <[j := (Parallel.SRunning, l2)]> (tasks p); submitted := submitted p;
      queue := queue p; idle := idle p |} j l2 x l3) as Hs. cbn in Hs. unfold set_task in Hs. cbn in Hs.
    rewrite list_insert_insert_eq in Hs. apply Hs; [by apply list_lookup_insert_eq|done|done].
Qed.

(** A worker processes its job: the task makes its actions and ends. *)
Lemma sim_process s s' p j : simulates s p → NoDup (processed (sh s) ++ running_jobs s) →
  pushed (sh s') = pushed (sh s) → Queue (sh s') = Queue (sh s) → processed (sh s') = processed (sh s) ++ [j] →
  running_jobs s ≡ₚ j :: running_jobs s' → ∃ p', simulates s' p'.
Proof.
  intros Hsim Hnd E1 E2 E3 E4. pose proof (sim_invariant s p Hsim) as Hinv. pose proof Hsim as [Hr Hs Hq Hi Hru Hd].
  destruct (Hru j) as (c & Hc & Ht); [rewrite E4; by left|].
  assert (Hlt : (j < length (tasks p))%nat) by (by eapply lookup_lt_Some).
  destruct (lookup_lt_is_Some_2 xs j) as [x Hx]; [rewrite (inv_length _ _ _ _ _ Hinv) in Hlt; lia|].
  destruct (Hf j x c Hx Hc) as (m & l1 & Hm & Hl1). pose proof (Hfatal j x c Hx Hc) as Hfat.
  rewrite E4, <- Permutation_middle in Hnd. apply NoDup_cons in Hnd as [Hnj _]. rewrite elem_of_app in Hnj.
  assert (Hne : ∀ i, i ∈ running_jobs s' ∨ i ∈ processed (sh s) → i ≠ j) by (intros i Hi2 ->; tauto).
  eexists. split.
  - eapply rtc_r; [etrans; [exact Hr|by eapply run_actions]|]. eapply step_finish; [by apply list_lookup_insert_eq|done|done|done].
  - cbn. by rewrite E1.
  - cbn. by rewrite E2.
  - cbn. rewrite E4 in Hi. cbn in Hi. lia.
  - intros i Hi2. cbn. unfold set_task. cbn. rewrite !list_lookup_insert_ne by (apply not_eq_sym, Hne; auto). apply Hru. rewrite E4. by right.
  - intros i Hi2. rewrite E3 in Hi2. cbn. unfold set_task. cbn. apply elem_of_app in Hi2 as [Hi2|Hi2%list_elem_of_singleton].
    + rewrite !list_lookup_insert_ne by (apply not_eq_sym, Hne; auto). by apply Hd.
    + subst i. exists x, c. rewrite list_lookup_insert_eq by (by rewrite length_insert). done.
Qed.

(** ** Every step *)

Lemma taken_le (ws : list (@wpc nat)) : (length (concat (taken <$> ws)) ≤ length ws)%nat.
Proof.
  induction ws as [|pc ws IH]; [done|]. rewrite fmap_cons. cbn [concat length]. rewrite length_app. destruct pc; cbn; lia.
Qed.

Lemma no_taken m : concat (taken <$> replicate m WLock) =@{list nat} [].
Proof. induction m as [|m IH]; [done|]. exact IH. Qed.

Lemma worker_simulates s i pc g pc' k p : data_ok Blocking n 0 s → jobs_ok throws n s → simulates s p → in_order s →
  workers s !! i = Some pc → wcase true throws i (sh s) pc g pc' k → ∃ p', simulates (with_worker (with_shared s g) i pc') p'.
Proof.
  intros Hd Hj Hsim [[rest Hpre] _] Hi Hcase. pose proof (concat_fmap_insert taken (workers s) i pc pc' Hi) as Hrun.
  assert (Hle : (length (running_jobs (with_worker (with_shared s g) i pc')) ≤ n)%nat).
  { unfold running_jobs. etrans; [apply taken_le|]. cbn. by rewrite length_insert, (jobs_workers _ _ _ Hj). }
  assert (Hnd : NoDup (processed (sh s) ++ running_jobs s)).
  { unfold running_jobs. rewrite <- (jobs_processed _ _ _ Hj). pose proof (NoDup_seq 0 (length xs)) as Hseq.
    rewrite Hpre, (data_fifo _ _ _ _ Hd), <- app_assoc in Hseq. by apply NoDup_app in Hseq as [? _]. }
  destruct Hcase; cbn [taken] in Hrun; rewrite ?app_nil_r in Hrun;
    try (exists p; apply (sim_eq s); [done|done|done|exact Hrun|done]).
  - eapply (sim_pop s _ p j q); [done|done|done|done|done|done|]. unfold running_jobs. cbn.
    by rewrite Hrun, (Permutation_app_comm _ [j]).
  - exists p. apply (sim_eq s); [done|done|done| |done]. by apply Permutation_app_inv_r in Hrun.
  - eapply (sim_process s _ p j); [done|done|done|done|done|]. unfold running_jobs. cbn.
    by rewrite <- Hrun, (Permutation_app_comm _ [j]).
Qed.

Lemma client_simulates s i c g c' k p : simulates s p → in_order s → clients s !! i = Some c →
  ccase Blocking throws i (sh s) (calls c) (answers c) (cpos c) g c' k → ∃ p', simulates (with_client (with_shared s g) i c') p'.
Proof.
  intros Hsim (_ & c0 & Hc0 & Ho) Hi Hcase.
  assert (i = O ∧ c0 = c) as [-> ->] by (rewrite Hc0 in Hi; destruct i as [|[]]; by simplify_eq/=).
  unfold current, pushing in Ho. remember (cpos c) as pos.
  destruct Hcase; try (exists p; by apply (sim_eq s)).
  destruct Ho as [Ho|[_ ?]]; [|done]. assert (Hj : seq 0 (length xs) !! length (pushed (sh s)) = Some j).
  { rewrite <- Ho. by apply list_lookup_middle. }
  apply lookup_seq in Hj as [Hj Hlt]. eapply (sim_push s _ p j); by try lia.
Qed.

Lemma step_simulates s s' p : qstep s s' → queue_ok Blocking throws n 0 s → in_order s → simulates s p →
  in_order s' ∧ ∃ p', simulates s' p'.
Proof.
  intros Hst [Hd Hj _ _ _] Ho Hsim.
  destruct Hst as [s i pc g pc' k s' Hi Hs Hw|s i c g c' k s' Hi Hs Hw|s g pc' k s' Hs Hw].
  - apply wstep_cases in Hs as [Hal Hs]. split.
    + apply (wakes_in_order _ _ _ Hw). destruct Ho as (Hp & c & Hc & Ho). destruct Hs; (split; [done|]); by exists c.
    + destruct (worker_simulates s i pc g pc' k p Hd Hj Hsim Ho Hi Hs) as [p' Hp']. exists p'. by eapply wakes_simulates.
  - apply cstep_cases in Hs as [(Hp & -> & -> & Hs)|[Hal Hs]].
    + rewrite with_shared_id in Hw. inversion Hw; subst. split; [by eapply call_in_order|]. exists p. by apply (sim_eq s).
    + split; [eapply wakes_in_order; [exact Hw|]; by eapply client_in_order|].
      destruct (client_simulates s i c g c' k p Hsim Ho Hi Hs) as [p' Hp']. exists p'. by eapply wakes_simulates.
  - apply sstep_cases in Hs. split.
    + apply (wakes_in_order _ _ _ Hw). destruct Ho as (Hp & c & Hc & Ho). destruct Hs; (split; [done|]); exists c; (split; [done|]); cbn; tauto.
    + exists p. apply (wakes_simulates _ _ _ _ Hw). destruct Hs; by apply (sim_eq s).
Qed.

Lemma reachable_simulates s : qreachable s → queue_ok Blocking throws n 0 s ∧ in_order s ∧ ∃ p, simulates s p.
Proof.
  intros Hr. split; [by eapply reachable_queue_ok|]. induction Hr as [|s s' Hr [Ho [p Hp]] Hst|s s' Hr [Ho [p Hp]] He].
  - split.
    + split; [apply prefix_nil|]. eexists. split; [done|]. by left.
    + assert (E : running_jobs (start n 0 [seq 0 (length xs)]) = []) by apply no_taken.
      exists start_pool. split; rewrite ?E; try done.
      * intros i Hi. by apply elem_of_nil in Hi.
      * intros i Hi. by apply elem_of_nil in Hi.
  - eapply step_simulates; [done| |done|done]. by eapply reachable_queue_ok.
  - apply event_wakes in He as [(k & _ & Hw)|[_ ->]].
    + split; [by eapply wakes_in_order|]. exists p. by eapply wakes_simulates.
    + split; [exact Ho|]. exists p. by apply (sim_eq s).
Qed.

(** When nobody can go on every job that was pushed is done. *)
Lemma stuck_complete s p : qreachable s → simulates s p → stuck Blocking true throws s → length (pushed (sh s)) = length xs →
  complete p.
Proof.
  intros Hr Hsim Hst Hall i [st l] Ht. destruct (reachable_simulates s Hr) as ([Hd Hj Hl Hid Hroom] & [[rest Hpre] _] & _).
  assert (Hlt : (i < length xs)%nat).
  { apply lookup_lt_Some in Ht. rewrite (inv_length _ _ _ _ _ (sim_invariant s p Hsim)) in Ht. lia. }
  assert (Hpu : pushed (sh s) = seq 0 (length xs)).
  { destruct rest as [|y rest]; [by rewrite app_nil_r in Hpre|]. apply (f_equal length) in Hpre.
    rewrite length_app, length_seq in Hpre. cbn in Hpre. lia. }
  assert (Hpr : processed (sh s) ≡ₚ pushed (sh s)).
  { apply (stuck_state Blocking true throws n 0 s); [by split|done|]. intros (k & j & _ & ? & _). done. }
  destruct (sim_done _ _ Hsim i) as (x & c & _ & _ & Ht2); [rewrite Hpr, Hpu; apply elem_of_seq; lia|].
  rewrite Ht in Ht2. injection Ht2 as -> ->. by eexists.
Qed.

End Refinement.

(** C14: The queue implements the pool.  When the jobs of a loop are added in order to a [TMtpQueue] with threads and
    without a limit, every state it reaches, in any interleaving and with any wake-ups, is one of a run of the pool: as
    many tasks are submitted as jobs were pushed, the queues are equal, a task runs when a worker has its job, and is
    done, with its result, when the job is processed.  When no thread can go on and every job was pushed, the run of the
    pool is complete. *)
Theorem queue_refines_pool {X L A : Type} (xs : list X) (action : X → L → L * option (outcome A)) (cells : list L)
    (f : X → L → L * outcome A) (Blocking : bool) (throws : nat → option exn) (n : nat) s :
  length xs = length cells →
  (∀ i x c, xs !! i = Some x → cells !! i = Some c → alone action x c (f x c).1 (f x c).2) →
  (∀ i x c, xs !! i = Some x → cells !! i = Some c → fatal (f x c).2 = false) →
  (0 < n)%nat → Z.of_nat n < 2 ^ 64 → MtpQueue.reachable Blocking true throws n 0 [seq 0 (length xs)] s →
  ∃ p, rtc (Parallel.step xs action) (Parallel.init n cells) p ∧
    submitted p = length (pushed (sh s)) ∧ Parallel.queue p = Queue (sh s) ∧
    (idle p + length (concat (taken <$> workers s)) = n)%nat ∧
    (∀ i, i ∈ concat (taken <$> workers s) → ∃ l, tasks p !! i = Some (Parallel.SRunning, l)) ∧
    (∀ i, i ∈ processed (sh s) → ∃ x c, xs !! i = Some x ∧ cells !! i = Some c ∧
       tasks p !! i = Some (Parallel.SDone (f x c).2, (f x c).1)) ∧
    (stuck Blocking true throws s → length (pushed (sh s)) = length xs → complete p).
Proof.
  intros Hlen Hf Hfatal Hn Hn64 Hr.
  destruct (reachable_simulates xs action cells f Hlen Hf Hfatal Blocking throws n Hn Hn64 s Hr) as (_ & _ & p & Hp).
  exists p. pose proof Hp as [H1 H2 H3 H4 H5 H6]. do 4 (split; [done|]). split; [|split; [done|]].
  - intros i Hi. destruct (H5 i Hi) as (c & _ & Hc). eauto.
  - intros Hst Hall. by eapply stuck_complete.
Qed.

(** Two jobs and a worker, until it waits. *)
Definition two_jobs : @state nat := start 1 0 [[0; 1]%nat].
Definition two_done : @state nat :=
  default two_jobs (run false true (λ _, None) (moves (Client 0) 16 ++ moves (Worker 0) 12) two_jobs).

Lemma queue_refines_pool_witness :
  let action (x l : Z) := (l + x, Some (Ret l)) in
  processed (sh two_done) = [0; 1]%nat ∧
  ∃ p, rtc (Parallel.step [10; 20] action) (Parallel.init 1 [5; 7]) p ∧
    ∀ i, i ∈ processed (sh two_done) → ∃ x c, [10; 20] !! i = Some x ∧ [5; 7] !! i = Some c ∧
      tasks p !! i = Some (Parallel.SDone (Ret c), c + x).
Proof.
  intros action. split; [vm_compute; reflexivity|].
  destruct (queue_refines_pool [10; 20] action [5; 7] (λ x c, (c + x, Ret c)) false (λ _, None) 1 two_done)
    as (p & Hr & _ & _ & _ & _ & Hd & _).
  - reflexivity.
  - intros i x c _ _. exists O, c. split; [constructor|reflexivity].
  - reflexivity.
  - lia.
  - lia.
  - apply (run_reachable _ _ _ _ _ _ (moves (Client 0) 16 ++ moves (Worker 0) 12) two_jobs); [apply reachable_start|].
    vm_compute. reflexivity.
  - exists p. split; [exact Hr|exact Hd].
Defined.
