(* ===== verification/Future.v ===== *)
(** * Futures and promises: [library/threading/future/future.h],
    [future-inl.h], [legacy_future.h] and [async.h]

    A future and its promise share a [TFutureState]; threads read it, wait for it,
    subscribe callbacks to it and set it, once.  The methods are programs of the type
    [prog], trees of atomic actions on a shared store, and threads interleave them:
    [tstep] is the next action of one thread, [step] a step of any of them.

    The section of a method under [StateLock] is one action: what it changes is read
    under the lock only, except for [State], which it writes last.  [State] and the
    value or exception behind it are one member here, [None] while it is [NotReady].
    The templates for [T] and their specialisations for [void] are the same programs on
    values of the type [value].  States are not deallocated: the threads that use one
    own a reference to it. *)
From S2P Require Import Prelude Parallel.

Section Future.
(** The values of the [T]s of the futures, and the memory of the program itself. *)
Context {V M : Type}.

(** [TFuture] and [TPromise]: the pointer [State], null by default. *)
Definition TFuture : Type := option nat.

(** What functions return: nothing, a flag, a value or a future. *)
Inductive value : Type :=
| VVoid
| VBool (b : bool)
| VData (v : V)
| VFuture (f : TFuture).

(** [ValueSet] with [Value], [ExceptionSet] with [Exception]. *)
Inductive result : Type :=
| ValueSet (v : value)
| ExceptionSet (e : exn).

(** [TWaitAll] and [TWaitAny] without their promise, which never changes. *)
Record TWaiter : Type := { Count : Z; Lock : bool }.

(** ** Programs *)

Inductive prog : Type :=
| PRet (v : value)                                        (* return v *)
| PThrow (e : exn)                                        (* throw e *)
| PTry (body : prog) (k : value → prog) (h : exn → prog)  (* body, in try if h handles *)
| PUser (f : M → M) (k : M → prog)                        (* the program's own memory *)
| PNew (s : option result) (k : nat → prog)               (* new TFutureState *)
| PLoad (p : nat) (k : option result → prog)              (* AtomicGet(State) *)
| PSet (p : nat) (r : result) (k : prog)                  (* SetValue, SetException *)
| PSubscribe (p : nat) (cb : nat → prog) (k : bool → prog)
| PWait (p : nat) (infinite : bool) (k : bool → prog)
| PNewWaiter (count : Z) (k : nat → prog)
| PAcquire (w : nat) (k : prog)
| PTryAcquire (w : nat) (k : bool → prog)
| PRelease (w : nat) (k : prog)
| PDecrement (w : nat) (k : Z → prog).

(** A callback takes the future it is called with; its [State] is not null. *)
Definition callback : Type := nat → prog.

(** A call whose exceptions the caller does not catch. *)
Definition call (body : prog) (k : value → prog) : prog := PTry body k PThrow.

(** [ReadyEvent]: none, or an event that is signaled or not.  Each subscription has a
    number. *)
Record TFutureState : Type := {
  State : option result;
  Callbacks : list (nat * callback);
  ReadyEvent : option bool;
}.

Definition new_state (s : option result) : TFutureState :=
  {| State := s; Callbacks := []; ReadyEvent := None |}.

(** ** Threads *)

(** What a thread returns to: the rest of a caller, the signal [SetValue] sends after
    its locked section, the loop over the callbacks it took, an event. *)
Inductive frame : Type :=
| FTry (k : value → prog) (h : exn → prog)
| FSignal (p : nat)
| FCalls (p : nat) (cbs : list (nat * callback))
| FWait (p : nat) (infinite : bool).

Definition thread : Type := prog * list frame.

(** [States] and [Waiters] are the objects in the order they were made.  The other
    members are the history: the future of each subscription, and the subscriptions
    that were called and those a throwing callback kept from being called. *)
Record store : Type := {
  Memory : M;
  States : list TFutureState;
  Waiters : list TWaiter;
  subscribed : list nat;
  called : list nat;
  lost : list nat;
}.

Definition with_states (g : store) (ss : list TFutureState) : store :=
  {| Memory := Memory g; States := ss; Waiters := Waiters g; subscribed := subscribed g;
     called := called g; lost := lost g |}.
Definition with_waiters (g : store) (ws : list TWaiter) : store :=
  {| Memory := Memory g; States := States g; Waiters := ws; subscribed := subscribed g;
     called := called g; lost := lost g |}.
Definition with_memory (g : store) (m : M) : store :=
  {| Memory := m; States := States g; Waiters := Waiters g; subscribed := subscribed g;
     called := called g; lost := lost g |}.
Definition with_subscribed (g : store) (l : list nat) : store :=
  {| Memory := Memory g; States := States g; Waiters := Waiters g; subscribed := l;
     called := called g; lost := lost g |}.
Definition with_called (g : store) (l : list nat) : store :=
  {| Memory := Memory g; States := States g; Waiters := Waiters g; subscribed := subscribed g;
     called := l; lost := lost g |}.
Definition with_lost (g : store) (l : list nat) : store :=
  {| Memory := Memory g; States := States g; Waiters := Waiters g; subscribed := subscribed g;
     called := called g; lost := l |}.

Definition set_state (g : store) (p : nat) (s : TFutureState) : store :=
  with_states g (<[p := s]> (States g)).
Definition set_waiter (g : store) (w : nat) (s : TWaiter) : store :=
  with_waiters g (<[w := s]> (Waiters g)).

(** ** The locked sections *)

(** [TFutureState::SetValue] and [SetException]: the new state and the frames of what
    follows the locked section, or nothing when the state is not [NotReady]. *)
Definition SetResult (p : nat) (r : result) (s : TFutureState) : option (TFutureState * list frame) :=
  match State s with
  | Some _ => None
  | None => Some ({| State := Some r; Callbacks := []; ReadyEvent := ReadyEvent s |},
                  match ReadyEvent s with Some _ => [FSignal p] | None => [] end ++ [FCalls p (Callbacks s)])
  end.

(** [TFutureState::Subscribe] *)
Definition Subscribe_locked (id : nat) (cb : callback) (s : TFutureState) : option TFutureState :=
  match State s with
  | Some _ => None
  | None => Some {| State := None; Callbacks := Callbacks s ++ [(id, cb)]; ReadyEvent := ReadyEvent s |}
  end.

(** [TFutureState::Wait]: nothing when the state is ready. *)
Definition Wait_locked (s : TFutureState) : option TFutureState :=
  match State s with
  | Some _ => None
  | None => Some {| State := None; Callbacks := Callbacks s;
                    ReadyEvent := Some (default false (ReadyEvent s)) |}
  end.

(** [Event::Signal] *)
Definition Signal (s : TFutureState) : TFutureState :=
  {| State := State s; Callbacks := Callbacks s; ReadyEvent := Some true |}.

(** ** Steps *)

(** A value or an exception returns to the top frame. *)
Definition return_step (g : store) (v : value) (st : list frame) : option (store * thread) :=
  match st with
  | [] => None
  | FTry k _ :: st => Some (g, (k v, st))
  | FSignal p :: st =>
      s ← States g !! p;
      Some (set_state g p (Signal s), (PRet VVoid, st))
  | FCalls p [] :: st => Some (g, (PRet VVoid, st))
  | FCalls p ((id, cb) :: cbs) :: st =>
      Some (with_called g (called g ++ [id]), (cb p, FCalls p cbs :: st))
  | FWait p _ :: st =>
      s ← States g !! p;
      if decide (ReadyEvent s = Some true) then Some (g, (PRet (VBool true), st)) else None
  end.

Definition throw_step (g : store) (e : exn) (st : list frame) : option (store * thread) :=
  match st with
  | [] => None
  | FTry _ h :: st => Some (g, (h e, st))
  | FCalls p cbs :: st => Some (with_lost g (lost g ++ cbs.*1), (PThrow e, st))
  | _ :: st => Some (g, (PThrow e, st))
  end.

(** The next action of a thread: nothing when it has ended, is blocked, or uses an
    object that was not made. *)
Definition tstep (g : store) (t : thread) : option (store * thread) :=
  let st := t.2 in
  match t.1 with
  | PRet v => return_step g v st
  | PThrow e => throw_step g e st
  | PTry body k h => Some (g, (body, FTry k h :: st))
  | PUser f k => Some (with_memory g (f (Memory g)), (k (Memory g), st))
  | PNew s k => Some (with_states g (States g ++ [new_state s]), (k (length (States g)), st))
  | PLoad p k => s ← States g !! p; Some (g, (k (State s), st))
  | PSet p r k =>
      s ← States g !! p;
      match SetResult p r s with
      | Some (s', fs) => Some (set_state g p s', (PRet VVoid, fs ++ FTry (λ _, k) PThrow :: st))
      | None => Some (g, (PThrow EFutureAlreadySet, st))
      end
  | PSubscribe p cb k =>
      s ← States g !! p;
      match Subscribe_locked (length (subscribed g)) cb s with
      | Some s' => Some (with_subscribed (set_state g p s') (subscribed g ++ [p]), (k true, st))
      | None => Some (g, (k false, st))
      end
  | PWait p infinite k =>
      s ← States g !! p;
      match Wait_locked s with
      | Some s' =>
          Some (set_state g p s', (PRet VVoid, FWait p infinite ::
                 FTry (λ v, k (match v with VBool b => b | _ => false end)) PThrow :: st))
      | None => Some (g, (k true, st))
      end
  | PNewWaiter count k =>
      Some (with_waiters g (Waiters g ++ [{| Count := count; Lock := false |}]), (k (length (Waiters g)), st))
  | PAcquire w k =>
      s ← Waiters g !! w;
      if Lock s then None else Some (set_waiter g w {| Count := Count s; Lock := true |}, (k, st))
  | PTryAcquire w k =>
      s ← Waiters g !! w;
      if Lock s then Some (g, (k false, st))
      else Some (set_waiter g w {| Count := Count s; Lock := true |}, (k true, st))
  | PRelease w k =>
      s ← Waiters g !! w;
      Some (set_waiter g w {| Count := Count s; Lock := false |}, (k, st))
  | PDecrement w k =>
      s ← Waiters g !! w;
      let count := u64 (Count s - 1) in
      Some (set_waiter g w {| Count := count; Lock := Lock s |}, (k count, st))
  end.

(** The deadline of a thread that waits for an event passes. *)
Definition timeout_step (t : thread) : option thread :=
  match t with
  | (PRet _, FWait p false :: st) => Some (PRet (VBool false), st)
  | _ => None
  end.

(** A step of any thread of the process. *)
Inductive step : store * list thread → store * list thread → Prop :=
| step_thread g ts i t g' t' :
    ts !! i = Some t → tstep g t = Some (g', t') → step (g, ts) (g', <[i := t']> ts)
| step_timeout g ts i t t' :
    ts !! i = Some t → timeout_step t = Some t' → step (g, ts) (g, <[i := t']> ts).

(** A process starts with some futures and a thread for each program. *)
Definition start (m : M) (ss : list (option result)) (ps : list prog) : store * list thread :=
  ({| Memory := m; States := new_state <$> ss; Waiters := []; subscribed := []; called := []; lost := [] |},
   (λ c, (c, [])) <$> ps).

Definition reachable (m : M) (ss : list (option result)) (ps : list prog) (σ : store * list thread) : Prop :=
  rtc step (start m ss ps) σ.

(** ** [TFuture] and [TPromise] *)

(** [EnsureInitialized] *)
Definition EnsureInitialized (f : TFuture) (k : nat → prog) : prog :=
  match f with Some p => k p | None => PThrow EFutureNotInitialized end.

Definition NewPromise (k : TFuture → prog) : prog := PNew None (λ p, k (Some p)).

(** [MakeFuture(value)]; the shared instance of [MakeFuture()] behaves as a new one. *)
Definition MakeFuture (v : value) (k : TFuture → prog) : prog :=
  PNew (Some (ValueSet v)) (λ p, k (Some p)).

Definition HasValue (f : TFuture) (k : bool → prog) : prog :=
  match f with
  | None => k false
  | Some p => PLoad p (λ s, k (match s with Some (ValueSet _) => true | _ => false end))
  end.

Definition HasException (f : TFuture) (k : bool → prog) : prog :=
  match f with
  | None => k false
  | Some p => PLoad p (λ s, k (match s with Some (ExceptionSet _) => true | _ => false end))
  end.

(** What [GetValue] returns for a state that is ready. *)
Definition of_result (r : result) : prog :=
  match r with ValueSet v => PRet v | ExceptionSet e => PThrow e end.

(** [TFutureState::GetValue(timeout)]; a timeout is zero, or no deadline at all, or
    one that passes. *)
Inductive TDuration : Type := Zero | Finite | Max.

Definition is_max (d : TDuration) : bool := match d with Max => true | _ => false end.

Definition State_GetValue (p : nat) (timeout : TDuration) : prog :=
  PLoad p (λ state,
    match state with
    | Some r => of_result r
    | None =>
        match timeout with
        | Zero => PThrow EFutureNotSet
        | _ =>
            PWait p (is_max timeout) (λ signaled,
              if signaled then
                PLoad p (λ state, match state with Some r => of_result r | None => PRet VVoid end)
              else PThrow EFutureTimeout)
        end
    end).

Definition GetValue (f : TFuture) (timeout : TDuration) : prog :=
  EnsureInitialized f (λ p, State_GetValue p timeout).

(** [Wait()] and [Wait(timeout)] *)
Definition Wait (f : TFuture) (timeout : TDuration) : prog :=
  EnsureInitialized f (λ p, PWait p (is_max timeout) (λ b, PRet (VBool b))).

Definition SetValue (f : TFuture) (v : value) (k : prog) : prog :=
  EnsureInitialized f (λ p, PSet p (ValueSet v) k).

Definition SetException (f : TFuture) (e : exn) (k : prog) : prog :=
  EnsureInitialized f (λ p, PSet p (ExceptionSet e) k).

(** [TFuture::Subscribe]: the callback of a future that is ready is called at once. *)
Definition Subscribe (f : TFuture) (cb : callback) (k : prog) : prog :=
  EnsureInitialized f (λ p,
    PSubscribe p cb (λ added, if added then k else call (cb p) (λ _, k))).

(** *** Promises set from functions *)

(** The callback of [SetValueImpl] for a future, of [IgnoreResult] and of [Return]: set
    the promise to [g] of the value of the future, or to its exception. *)
Definition forward (promise : TFuture) (g : value → value) : callback := λ p,
  PTry (call (GetValue (Some p) Zero) (λ v, SetValue promise (g v) (PRet VVoid)))
       PRet (λ e, SetException promise e (PRet VVoid)).

(** [SetValueImpl(promise, value)] and [SetValueImpl(promise, future)] *)
Definition SetValueImpl (promise : TFuture) (v : value) : prog :=
  match v with
  | VFuture f => Subscribe f (forward promise id) (PRet VVoid)
  | _ => SetValue promise v (PRet VVoid)
  end.

(** [NImpl::SetValue(promise, func)] *)
Definition SetValueFrom (promise : TFuture) (func : prog) : prog :=
  PTry (call func (SetValueImpl promise)) PRet (λ e, SetException promise e (PRet VVoid)).

Definition Apply (f : TFuture) (func : callback) (k : TFuture → prog) : prog :=
  NewPromise (λ promise, Subscribe f (λ p, SetValueFrom promise (func p)) (k promise)).

Definition IgnoreResult (f : TFuture) (k : TFuture → prog) : prog :=
  NewPromise (λ promise, Subscribe f (forward promise (λ _, VVoid)) (k promise)).

Definition Return (f : TFuture) (v : value) (k : TFuture → prog) : prog :=
  NewPromise (λ promise, Subscribe f (forward promise (λ _, v)) (k promise)).

(** *** [TWaitAll] and [TWaitAny] *)

(** [TWaitAll::Set]; the guard releases the lock on every way out. *)
Definition TWaitAll_Set (w : nat) (promise : TFuture) : callback := λ p,
  PAcquire w
    (PTry
      (PTry
        (call (GetValue (Some p) Zero) (λ _,
          PDecrement w (λ count,
            if count =? 0 then SetValue promise VVoid (PRet VVoid) else PRet VVoid)))
        PRet
        (λ e, HasException promise (λ b, if b then PRet VVoid else SetException promise e (PRet VVoid))))
      (λ v, PRelease w (PRet v))
      (λ e, PRelease w (PThrow e))).

(** [TWaitAny::Set]; the lock is never released. *)
Definition TWaitAny_Set (w : nat) (promise : TFuture) : callback := λ p,
  PTryAcquire w (λ acquired,
    if acquired then
      PTry (call (GetValue (Some p) Zero) (λ _, SetValue promise VVoid (PRet VVoid)))
        PRet (λ e, SetException promise e (PRet VVoid))
    else PRet VVoid).

(** The loop [fut.Subscribe(callback)] *)
Fixpoint subscribe_all (futures : list TFuture) (cb : callback) (k : prog) : prog :=
  match futures with
  | [] => k
  | f :: futures => Subscribe f cb (subscribe_all futures cb k)
  end.

Definition WaitWith (set : nat → TFuture → callback) (count : Z) (futures : list TFuture)
    (k : TFuture → prog) : prog :=
  NewPromise (λ promise,
    PNewWaiter count (λ w, subscribe_all futures (set w promise) (k promise))).

(** [WaitAll(futures)]; the overloads for one and two futures do the same. *)
Definition WaitAll (futures : list TFuture) (k : TFuture → prog) : prog :=
  match futures with
  | [] => MakeFuture VVoid k
  | [f] => k f
  | _ => WaitWith TWaitAll_Set (vsize futures) futures k
  end.

(** [WaitAny(futures)] *)
Definition WaitAny (futures : list TFuture) (k : TFuture → prog) : prog :=
  match futures with
  | [] => MakeFuture VVoid k
  | [f] => k f
  | _ => WaitWith TWaitAny_Set 0 futures k
  end.

(** *** [TLegacyFuture] and [Async] *)

(** [TExecutor::SetPromise] *)
Definition SetPromise (ignore_exception : bool) (promise : TFuture) (func : prog) : prog :=
  let body := call func (λ v, SetValue promise v (PRet VVoid)) in
  if ignore_exception then PTry body PRet (λ _, PRet VVoid) else body.

(** What a thread of the queue does with a job: it logs an exception. *)
Definition Process (job : prog) : prog := PTry job PRet (λ _, PRet VVoid).

(** The job [Async] gives to the queue. *)
Definition Async_job (promise : TFuture) (func : prog) : prog := Process (SetValueFrom promise func).

(** ** Safety of every interleaving *)

(** *** Subscriptions are conserved *)

Definition occ (i : nat) (l : list nat) : nat := sum_list_with (λ j, if decide (i = j) then 1%nat else O) l.

Definition frame_ids (f : frame) : list nat := match f with FCalls _ cbs => cbs.*1 | _ => [] end.

(** Where subscription [i] is: stored in a state, in the loop of a thread, called or
    lost. *)
Definition stored (i : nat) (ss : list TFutureState) : nat := sum_list_with (λ s, occ i (Callbacks s).*1) ss.
Definition looping (i : nat) (st : list frame) : nat := sum_list_with (λ f, occ i (frame_ids f)) st.
Definition placed (i : nat) (g : store) : nat := (stored i (States g) + occ i (called g) + occ i (lost g))%nat.

Definition all_looping (i : nat) (ts : list thread) : nat := sum_list_with (λ t, looping i t.2) ts.

Definition is_new (i : nat) (g g' : store) : nat :=
  if decide (length (subscribed g) ≤ i < length (subscribed g'))%nat then 1%nat else O.

Arguments stored : simpl never.
Arguments looping : simpl never.
Arguments all_looping : simpl never.

Lemma occ_app i l k : occ i (l ++ k) = (occ i l + occ i k)%nat.
Proof. apply sum_list_with_app. Qed.

Lemma occ_zero i l : occ i l = O ↔ i ∉ l.
Proof.
  induction l as [|j l IH]; cbn; [by split; [set_solver|]|]. fold (occ i l).
  case_decide; subst; [split; [lia|set_solver]|]. rewrite Nat.add_0_l, IH. set_solver.
Qed.

Lemma occ_cons i j l : occ i (j :: l) = ((if decide (i = j) then 1 else 0) + occ i l)%nat.
Proof. reflexivity. Qed.

Lemma occ_nil i : occ i [] = O.
Proof. reflexivity. Qed.

Lemma looping_cons i f st : looping i (f :: st) = (occ i (frame_ids f) + looping i st)%nat.
Proof. reflexivity. Qed.

Lemma stored_new i s : stored i [new_state s] = O.
Proof. reflexivity. Qed.

Lemma stored_app i ss ks : stored i (ss ++ ks) = (stored i ss + stored i ks)%nat.
Proof. apply sum_list_with_app. Qed.

Lemma stored_insert i ss p s s' : ss !! p = Some s →
  (stored i (<[p := s']> ss) + occ i (Callbacks s).*1 = stored i ss + occ i (Callbacks s').*1)%nat.
Proof. apply (sum_list_insert (λ s, occ i (Callbacks s).*1)). Qed.

Lemma all_looping_insert i ts j t t' : ts !! j = Some t →
  (all_looping i (<[j := t']> ts) + looping i t.2 = all_looping i ts + looping i t'.2)%nat.
Proof. apply (sum_list_insert (λ t, looping i t.2)). Qed.

(** What the action of a thread does to the store: states keep their result and their
    event, and subscriptions are only added. *)
Record grows (g g' : store) : Prop := {
  grows_states p s : States g !! p = Some s → ∃ s', States g' !! p = Some s' ∧
    (State s = None ∨ State s' = State s) ∧ (ReadyEvent s ≠ None → ReadyEvent s' ≠ None);
  grows_subscribed : subscribed g `prefix_of` subscribed g';
}.

Lemma grows_refl g : grows g g.
Proof. split; [|done]. intros p s Hs. exists s. auto. Qed.

Lemma grows_same_states g g' : States g' = States g → subscribed g' = subscribed g → grows g g'.
Proof. intros Hs Hn. split; rewrite ?Hs, ?Hn; [|done]. intros p s Hp. exists s. auto. Qed.

Lemma grows_set_state g p s s' : States g !! p = Some s →
  (State s = None ∨ State s' = State s) → (ReadyEvent s ≠ None → ReadyEvent s' ≠ None) →
  grows g (set_state g p s').
Proof.
  intros Hp Hs He. split; [|done]. intros q t Hq. cbn. destruct (decide (p = q)) as [<-|Hne].
  - exists s'. rewrite list_lookup_insert_eq by (by eapply lookup_lt_Some). by simplify_eq.
  - exists t. rewrite list_lookup_insert_ne by done. auto.
Qed.

Lemma grows_subscribed_snoc g g' l : grows g g' → subscribed g' = subscribed g →
  grows g (with_subscribed g' (subscribed g' ++ l)).
Proof. intros [Hs _] Hn. split; [done|]. cbn. rewrite Hn. by apply prefix_app_r. Qed.

(** Split an action of a thread into its cases. *)
Ltac step_cases :=
  match goal with
  | H : tstep ?g ?t = Some _ |- _ =>
      let c := fresh "c" in let st := fresh "st" in
      destruct t as [c st]; unfold tstep in H; cbn in H;
      destruct c; cbn in H;
      try match type of H with
      | return_step _ _ _ = _ => unfold return_step in H; destruct st as [|[? ?|?|? [|[] ?]|? ?] ?]
      | throw_step _ _ _ = _ => unfold throw_step in H; destruct st as [|[? ?|?|? ?|? ?] ?]
      end; cbn in H;
      unfold SetResult, Subscribe_locked, Wait_locked in H;
      repeat match type of H with
             | (?o ≫= _) = Some _ => let E := fresh "Eo" in destruct o eqn:E; cbn in H; [|discriminate H]
             | context [match State ?s with _ => _ end] => let E := fresh "Es" in destruct (State s) eqn:E; cbn in H
             | (if ?b then _ else _) = Some _ => let E := fresh "Eb" in destruct b eqn:E; cbn in H
             end;
      simplify_eq/=
  end.

Lemma tstep_grows g t g' t' : tstep g t = Some (g', t') → grows g g'.
Proof.
  intros H. step_cases; try apply grows_refl; try (by apply grows_same_states).
  - eapply grows_set_state; cbn; eauto.
  - split; [|done]. intros p t Hp. exists t. cbn. rewrite lookup_app_l by (by eapply lookup_lt_Some). auto.
  - eapply grows_set_state; cbn; eauto.
  - apply (grows_subscribed_snoc g (set_state g p _)); [|done]. eapply grows_set_state; cbn; eauto.
  - eapply grows_set_state; cbn; eauto.
Qed.

(** *** The invariant *)

Definition ready (g : store) (p : nat) : Prop := ∃ s r, States g !! p = Some s ∧ State s = Some r.
Definition has_event (g : store) (p : nat) : Prop := ∃ s, States g !! p = Some s ∧ ReadyEvent s ≠ None.

(** A frame that is not the top one: signals and waits are always on top. *)
Definition frame_ok (g : store) (f : frame) : Prop :=
  match f with
  | FTry _ _ => True
  | FCalls p cbs => ready g p ∧ Forall (λ c, subscribed g !! c.1 = Some p) cbs
  | FSignal _ | FWait _ _ => False
  end.

Definition top_ok (g : store) (c : prog) (f : frame) : Prop :=
  match f with
  | FSignal p | FWait p _ => (∃ v, c = PRet v) ∧ has_event g p
  | _ => frame_ok g f
  end.

Definition thread_ok (g : store) (t : thread) : Prop :=
  match t.2 with [] => True | f :: st => top_ok g t.1 f ∧ Forall (frame_ok g) st end.

Record store_ok (g : store) : Prop := {
  ok_callbacks p s : States g !! p = Some s →
    Forall (λ c, State s = None ∧ subscribed g !! c.1 = Some p) (Callbacks s);
  ok_called i : i ∈ called g ++ lost g → ∃ p, subscribed g !! i = Some p ∧ ready g p;
}.

(** A future that is ready is signaled or some thread is about to signal it. *)
Definition unsignaled (g : store) (p : nat) : Prop :=
  ∃ s, States g !! p = Some s ∧ State s ≠ None ∧ ReadyEvent s = Some false.

Record process_ok (σ : store * list thread) : Prop := {
  ok_store : store_ok σ.1;
  ok_threads : Forall (thread_ok σ.1) σ.2;
  ok_placed i : (placed i σ.1 + all_looping i σ.2)%nat =
    if decide (i < length (subscribed σ.1))%nat then 1%nat else O;
  ok_signals p : unsignaled σ.1 p → ∃ t, t ∈ σ.2 ∧ head t.2 = Some (FSignal p);
}.

Lemma ready_grows g g' p : grows g g' → ready g p → ready g' p.
Proof.
  intros Hg (s & r & Hs & Hr). destruct (grows_states _ _ Hg p s Hs) as (s' & Hs' & [Hn|He] & _); [congruence|].
  exists s', r. split; [done|congruence].
Qed.

Lemma has_event_grows g g' p : grows g g' → has_event g p → has_event g' p.
Proof.
  intros Hg (s & Hs & He). destruct (grows_states _ _ Hg p s Hs) as (s' & Hs' & _ & He'). exists s'. auto.
Qed.

Lemma subscribed_grows g g' i p : grows g g' → subscribed g !! i = Some p → subscribed g' !! i = Some p.
Proof. intros Hg Hi. eapply prefix_lookup_Some; [exact Hi|]. apply (grows_subscribed _ _ Hg). Qed.

Lemma frame_ok_grows g g' f : grows g g' → frame_ok g f → frame_ok g' f.
Proof.
  intros Hg. destruct f as [| |p cbs|]; cbn; [done..| |done]. intros [Hp Hc].
  split; [by eapply ready_grows|]. eapply Forall_impl; [exact Hc|]. intros c. by apply subscribed_grows.
Qed.

Lemma top_ok_grows g g' c f : grows g g' → top_ok g c f → top_ok g' c f.
Proof.
  intros Hg. destruct f; cbn [top_ok]; try apply (frame_ok_grows g g'); try done;
    intros [? ?]; split; by eauto using has_event_grows.
Qed.

Lemma thread_ok_grows g g' t : grows g g' → thread_ok g t → thread_ok g' t.
Proof.
  unfold thread_ok. intros Hg. destruct t.2 as [|f st]; [done|]. intros [Hf Hst].
  split; [by eapply top_ok_grows|]. eapply Forall_impl; [exact Hst|]. intros f'. by apply frame_ok_grows.
Qed.

(** Under the top frame of a thread that does not return from a call, and above any
    stack whose frames may be covered. *)
Lemma thread_ok_frames g c st : (∀ v, c ≠ PRet v) → thread_ok g (c, st) → Forall (frame_ok g) st.
Proof.
  intros Hc. unfold thread_ok. cbn. destruct st as [|f st]; [done|]. intros [Hf Hst]. constructor; [|done].
  destruct f; cbn in *; try done; by destruct Hf as [[v ->] _]; destruct (Hc v).
Qed.

Lemma frames_thread_ok g c st : Forall (frame_ok g) st → thread_ok g (c, st).
Proof.
  unfold thread_ok. cbn. destruct 1 as [|f st Hf Hst]; [done|]. split; [|done]. by destruct f.
Qed.

Lemma ready_set_state g p s r : (p < length (States g))%nat → State s = Some r → ready (set_state g p s) p.
Proof. intros Hp Hr. exists s, r. cbn. by rewrite list_lookup_insert_eq. Qed.

Lemma has_event_set_state g p s : (p < length (States g))%nat → ReadyEvent s ≠ None → has_event (set_state g p s) p.
Proof. intros Hp He. exists s. cbn. by rewrite list_lookup_insert_eq. Qed.

(** A state that changes keeps the store in order when its callbacks are. *)
Lemma store_ok_set_state g p s s' : store_ok g → States g !! p = Some s → grows g (set_state g p s') →
  Forall (λ c, State s' = None ∧ subscribed g !! c.1 = Some p) (Callbacks s') →
  store_ok (set_state g p s').
Proof.
  intros [Hc Hd] Hs Hg Hs'. split.
  - intros q t Hq. cbn in Hq. destruct (decide (p = q)) as [<-|Hne].
    + rewrite list_lookup_insert_eq in Hq by (by eapply lookup_lt_Some). by injection Hq as <-.
    + rewrite list_lookup_insert_ne in Hq by done. by apply Hc in Hq.
  - intros i Hi. destruct (Hd i Hi) as (q & Hq & Hr). exists q. split; [done|]. by eapply ready_grows.
Qed.

Lemma placed_set_state i g p s s' : States g !! p = Some s →
  (placed i (set_state g p s') + occ i (Callbacks s).*1 = placed i g + occ i (Callbacks s').*1)%nat.
Proof. intros Hs. unfold placed. cbn [set_state with_states States called lost]. pose proof (stored_insert i (States g) p s s' Hs) as Hi. lia. Qed.

Lemma is_new_same i g g' : subscribed g' = subscribed g → is_new i g g' = O.
Proof. intros He. unfold is_new. rewrite He. case_decide; lia. Qed.

(** The preconditions of the cases of a step. *)
Ltac thread_inv :=
  repeat match goal with
  | H : thread_ok _ (PRet _, _ :: _) |- _ => destruct H as [H ?]; cbn in H
  | H : thread_ok _ (PThrow _, _ :: _) |- _ => destruct H as [H ?]; cbn in H
  | H : thread_ok _ _ |- _ => apply thread_ok_frames in H; [|done]
  | H : (∃ v, _ = PRet v) ∧ _ |- _ => destruct H as [[? ?] ?]
  end; simplify_eq/=.

Lemma store_ok_same_states g g' : store_ok g → grows g g' → States g' = States g → subscribed g' = subscribed g →
  (∀ i, i ∈ called g' ++ lost g' → i ∈ called g ++ lost g ∨ ∃ p, subscribed g !! i = Some p ∧ ready g p) →
  store_ok g'.
Proof.
  intros [Hc Hd] Hg Hs Hn Hi. split.
  - intros p s. rewrite Hs, Hn. apply Hc.
  - intros i [Hin|Hin]%Hi; [apply Hd in Hin|]; destruct Hin as (p & Hp & Hr);
      exists p; rewrite Hn; split; eauto using ready_grows.
Qed.

(** A subscription to a state that is not ready. *)
Lemma store_ok_subscribed g p s cb :
  let s' := {| State := None; Callbacks := Callbacks s ++ [(length (subscribed g), cb)]; ReadyEvent := ReadyEvent s |} in
  store_ok g → States g !! p = Some s → State s = None →
  store_ok (with_subscribed (set_state g p s') (subscribed g ++ [p])).
Proof.
  intros s' Hg Hs Hn.
  assert (Hgr : grows g (with_subscribed (set_state g p s') (subscribed g ++ [p]))).
  { apply (grows_subscribed_snoc g (set_state g p _)); [|done]. eapply grows_set_state; cbn; eauto. }
  assert (Hsub : ∀ c q, subscribed g !! c = Some q → (subscribed g ++ [p]) !! c = Some q).
  { intros c q. apply (subscribed_grows _ _ c q Hgr). }
  split.
  - intros q t Hq. cbn in Hq |- *. destruct (decide (p = q)) as [<-|Hne].
    + rewrite list_lookup_insert_eq in Hq by (by eapply lookup_lt_Some). injection Hq as <-. cbn.
      apply Forall_app. split; [|repeat constructor; cbn; by rewrite list_lookup_middle].
      eapply Forall_impl; [exact (ok_callbacks _ Hg _ _ Hs)|]. intros c [_ ?]; auto.
    + rewrite list_lookup_insert_ne in Hq by done.
      eapply Forall_impl; [exact (ok_callbacks _ Hg _ _ Hq)|]. intros c [? ?]; auto.
  - intros i Hi. destruct (ok_called _ Hg i Hi) as (q & Hq & Hr). exists q. split; [by apply Hsub|by eapply ready_grows].
Qed.

(** A step keeps the store and its thread in order. *)
Lemma tstep_store_ok g t g' t' : store_ok g → thread_ok g t → tstep g t = Some (g', t') → store_ok g'.
Proof.
  intros Hg Ht H. pose proof (tstep_grows _ _ _ _ H) as Hgr. step_cases; thread_inv; try done.
  all: try (by apply (store_ok_same_states g); auto).
  - eapply store_ok_set_state; [done|eassumption|done|]. exact (ok_callbacks _ Hg _ _ Eo).
  - apply (store_ok_same_states g); [done..|]. intros i. cbn. rewrite !elem_of_app, list_elem_of_singleton.
    destruct Ht as [Hr Hc]. apply Forall_cons in Hc as [Hn _]. intros [[?| ->]|?]; eauto.
  - apply (store_ok_same_states g); [done..|]. intros i. cbn. rewrite !elem_of_app.
    destruct Ht as [Hr Hc]. rewrite Forall_forall in Hc. intros [?|[?|(c & -> & Hi)%list_elem_of_fmap]]; eauto.
  - split.
    + intros p t Hp. cbn in Hp. apply lookup_snoc_Some in Hp as [[_ Hp]|[_ <-]]; [|constructor].
      by apply (ok_callbacks _ Hg).
    + intros i Hi. destruct (ok_called _ Hg i Hi) as (p & Hp & Hr). exists p. split; [done|]. by eapply ready_grows.
  - eapply store_ok_set_state; [done|eassumption|done|constructor].
  - by apply store_ok_subscribed.
  - eapply store_ok_set_state; [done|eassumption|done|].
    eapply Forall_impl; [exact (ok_callbacks _ Hg _ _ Eo)|]. by intros c [_ ?].
Qed.

Lemma tstep_thread_ok g t g' t' : store_ok g → thread_ok g t → tstep g t = Some (g', t') → thread_ok g' t'.
Proof.
  intros Hg Ht H. pose proof (tstep_grows _ _ _ _ H) as Hgr. step_cases; thread_inv.
  all: match type of Hgr with grows ?a ?b => assert (Hst : ∀ fs, Forall (frame_ok a) fs → Forall (frame_ok b) fs)
    by (intros fs Hfs; eapply Forall_impl; [exact Hfs|]; intros fr; by apply frame_ok_grows) end.
  all: try (by apply frames_thread_ok, Hst; auto).
  - destruct Ht as [Hr Hc]. apply Forall_cons in Hc as [_ Hc].
    apply frames_thread_ok. constructor; [by split|by apply Hst].
  - apply frames_thread_ok. constructor; [done|by apply Hst].
  - pose proof (lookup_lt_Some _ _ _ Eo) as Hp.
    assert (Hcalls : frame_ok (set_state g p {| State := Some r; Callbacks := []; ReadyEvent := ReadyEvent t |})
              (FCalls p (Callbacks t))).
    { split; [by eapply ready_set_state|].
      eapply Forall_impl; [exact (ok_callbacks _ Hg _ _ Eo)|]. by intros fc [_ ?]. }
    destruct (ReadyEvent t) eqn:Ee; cbn [app].
    + split; [split; [eauto|by apply has_event_set_state]|]. repeat constructor; auto; apply Hcalls.
    + apply frames_thread_ok. repeat constructor; auto; apply Hcalls.
  - split; [|constructor; [done|by apply Hst]]. split; [eauto|].
    apply has_event_set_state; [by eapply lookup_lt_Some|done].
Qed.

(** A step moves subscriptions and adds at most its own. *)
Lemma tstep_placed g t g' t' i : tstep g t = Some (g', t') →
  (placed i g' + looping i t'.2 = placed i g + looping i t.2 + is_new i g g')%nat.
Proof.
  intros H. step_cases.
  all: try (rewrite is_new_same by done).
  all: try (destruct (ReadyEvent t)).
  all: cbn [app]; rewrite ?looping_cons; cbn [frame_ids fmap list_fmap].
  all: unfold placed; cbn [set_state set_waiter with_states with_waiters with_memory with_called with_lost
         with_subscribed States called lost subscribed fst].
  all: rewrite ?stored_app, ?stored_new, ?occ_app, ?occ_cons, ?occ_nil; try lia.
  all: match goal with Eo : States ?g !! ?p = Some ?t |- context [<[?p:=?s]> (States ?g)] =>
         pose proof (stored_insert i _ p t s Eo) as Hi end;
       cbn [Callbacks Signal] in Hi; rewrite ?fmap_app, ?occ_app, ?fmap_nil, ?occ_nil in Hi; try lia.
  all: unfold is_new; cbn [with_subscribed set_state with_states subscribed]; rewrite length_app;
       cbn [fmap list_fmap length] in *; rewrite occ_cons, occ_nil in Hi; repeat case_decide; cbn in *; lia.
Qed.

Lemma unsignaled_set_state g p q s : unsignaled (set_state g p s) q →
  (q = p ∧ State s ≠ None ∧ ReadyEvent s = Some false) ∨ (q ≠ p ∧ unsignaled g q).
Proof.
  intros (t & Hq & Hs & He). cbn in Hq. apply list_lookup_insert_Some in Hq as [(-> & -> & _)|[Hne Hq]]; [by left|].
  right. split; [done|]. by exists t.
Qed.

Lemma frames_no_signal g st p : Forall (frame_ok g) st → head st ≠ Some (FSignal p).
Proof. intros [|f fs Hf _]; [done|]. by intros [= ->]. Qed.

(** A future that a step makes ready is about to be signaled by its thread. *)
Lemma tstep_unsignaled g t g' t' p : thread_ok g t → tstep g t = Some (g', t') → unsignaled g' p →
  head t'.2 = Some (FSignal p) ∨ (unsignaled g p ∧ head t.2 ≠ Some (FSignal p)).
Proof.
  intros Ht H Hu. step_cases; thread_inv; try (by right).
  all: try (by right; split; [|eapply frames_no_signal]).
  all: try (apply unsignaled_set_state in Hu as [(-> & Hn & He)|[Hne Hu]]; cbn in *; [try congruence|]).
  all: try (by right; split; [|eapply frames_no_signal]).
  - right. split; [done|congruence].
  - right. split; [|by eapply frames_no_signal].
    destruct Hu as (u & Hp & Hn & He). cbn in Hp. apply lookup_snoc_Some in Hp as [[_ Hp]|[_ <-]]; [by exists u|done].
  - left. by rewrite He.
Qed.

Lemma elem_of_insert_other {A} (l : list A) i x y u : l !! i = Some x → u ∈ l → u ≠ x → u ∈ <[i:=y]> l.
Proof.
  intros Hi [j Hj]%list_elem_of_lookup Hu. apply list_elem_of_lookup. exists j.
  rewrite list_lookup_insert_ne; [done|]. by intros <-; simplify_eq.
Qed.

(** The invariant holds of every reachable process. *)
Lemma new_state_lookup (ss : list (option result)) (p : nat) (s : TFutureState) : (new_state <$> ss) !! p = Some s → ∃ o, s = new_state o.
Proof. rewrite list_lookup_fmap. destruct (ss !! p); cbn; [intros [= <-]; eauto|done]. Qed.

Lemma start_ok m ss ps : process_ok (start m ss ps).
Proof.
  split; cbn.
  - split; cbn; [|set_solver]. intros p s (o & ->)%new_state_lookup. constructor.
  - apply Forall_forall. by intros t (c & -> & _)%list_elem_of_fmap.
  - intros i. assert (Hz : all_looping i ((λ c, (c, [])) <$> ps) = O) by (induction ps; done).
    assert (Hs : stored i (new_state <$> ss) = O) by (induction ss; done).
    unfold start, placed. cbn [fst snd States called lost subscribed]. rewrite Hz, Hs. case_decide; cbn in *; lia.
  - intros p (s & Hs & _ & He). cbn in Hs. by apply new_state_lookup in Hs as [o ->].
Qed.

Lemma step_ok σ σ' : process_ok σ → step σ σ' → process_ok σ'.
Proof.
  intros Hok H. destruct H as [g ts i t g' t' Hi H|g ts i t t' Hi H];
    pose proof (proj1 (Forall_lookup _ _) (ok_threads _ Hok) i t Hi) as Ht; cbn in Ht.
  - pose proof (tstep_grows _ _ _ _ H) as Hg. split; cbn.
    + eapply tstep_store_ok; [apply Hok|done..].
    + apply Forall_insert; [|eapply tstep_thread_ok; [apply Hok|done..]].
      eapply Forall_impl; [apply (ok_threads _ Hok)|]. intros u. by apply thread_ok_grows.
    + intros j. pose proof (ok_placed _ Hok j) as Hp. pose proof (tstep_placed _ _ _ _ j H) as Hj. cbn in Hp.
      pose proof (all_looping_insert j ts i t t' Hi) as Hsum.
      pose proof (prefix_length _ _ (grows_subscribed _ _ Hg)). unfold is_new in Hj.
      unfold thread in *. repeat case_decide; lia.
    + intros p Hu. destruct (tstep_unsignaled _ _ _ _ _ Ht H Hu) as [Hh|[Hu' Hh]].
      * exists t'. split; [|done]. eapply list_elem_of_lookup_2, list_lookup_insert_eq, lookup_lt_Some, Hi.
      * destruct (ok_signals _ Hok p Hu') as (u & Hu2 & Hhu). exists u. split; [|done].
        by eapply elem_of_insert_other; [exact Hi| |intros ->].
  - destruct t as [[] [|[| | |p []] st]]; try done. cbn in H. injection H as <-. destruct Ht as [_ Hst].
    split; cbn; [apply Hok|..].
    + apply Forall_insert; [apply Hok|by apply frames_thread_ok].
    + intros j. pose proof (ok_placed _ Hok j) as Hp. cbn in Hp.
      pose proof (all_looping_insert j ts i _ (PRet (VBool false), st) Hi) as Hsum.
      cbn [snd] in Hsum. rewrite looping_cons in Hsum. cbn [frame_ids] in Hsum. rewrite occ_nil in Hsum.
      unfold thread in *. lia.
    + intros q Hu. destruct (ok_signals _ Hok q Hu) as (u & Hu2 & Hhu). exists u. split; [|done].
      by eapply elem_of_insert_other; [exact Hi| |intros ->].
Qed.

Lemma reachable_ok m ss ps σ : reachable m ss ps σ → process_ok σ.
Proof.
  unfold reachable. generalize (start_ok m ss ps). intros Hs H. revert Hs.
  induction H as [|σ σ1 σ2 H1 _ IH]; [done|]. intros Hs. by apply IH, (step_ok σ).
Qed.

(** ** Runs of one thread *)

(** The thread runs [c] until it has [c'] left, under any callers. *)
Definition evals (g : store) (c : prog) (g' : store) (c' : prog) : Prop :=
  ∀ st, rtc (λ a b, tstep a.1 a.2 = Some b) (g, (c, st)) (g', (c', st)).

Lemma evals_refl g c : evals g c g c.
Proof. intros st. reflexivity. Qed.

Lemma evals_trans g c g1 c1 g' c' : evals g c g1 c1 → evals g1 c1 g' c' → evals g c g' c'.
Proof. intros H1 H2 st. by etrans; [apply H1|apply H2]. Qed.

(** One action that leaves the callers alone. *)
Lemma evals_step g c g1 c1 g' c' : (∀ st, tstep g (c, st) = Some (g1, (c1, st))) →
  evals g1 c1 g' c' → evals g c g' c'.
Proof. intros H1 H2 st. eapply rtc_l; [apply H1|apply H2]. Qed.

Lemma evals_try g body k h g1 v g' c' : evals g body g1 (PRet v) → evals g1 (k v) g' c' →
  evals g (PTry body k h) g' c'.
Proof.
  intros H1 H2 st. eapply rtc_l; [reflexivity|]. etrans; [apply H1|]. eapply rtc_l; [reflexivity|]. apply H2.
Qed.

Lemma evals_catch g body k h g1 e g' c' : evals g body g1 (PThrow e) → evals g1 (h e) g' c' →
  evals g (PTry body k h) g' c'.
Proof.
  intros H1 H2 st. eapply rtc_l; [reflexivity|]. etrans; [apply H1|]. eapply rtc_l; [reflexivity|]. apply H2.
Qed.

(** [GetValue()] of a future that is ready. *)
Lemma GetValue_evals g p s r timeout : States g !! p = Some s → State s = Some r →
  evals g (GetValue (Some p) timeout) g (of_result r).
Proof.
  intros Hs Hr. eapply evals_step; [intros st; unfold tstep; cbn; rewrite Hs; reflexivity|].
  rewrite Hr. apply evals_refl.
Qed.

(** [SetValue] and [SetException] without an event: the callback is called with the
    future ready. *)
Lemma PSet_evals g p r k cbs : 
  States g !! p = Some {| State := None; Callbacks := cbs; ReadyEvent := None |} →
  ∀ g', match cbs with
        | [] => g' = set_state g p (new_state (Some r))
        | [(id, cb)] =>
            let g1 := set_state g p (new_state (Some r)) in
            ∃ v, evals (with_called g1 (called g1 ++ [id])) (cb p) g' (PRet v)
        | _ => False
        end →
  evals g (PSet p r k) g' k.
Proof.
  intros Hs g' Hc st. eapply rtc_l; [unfold tstep; cbn; rewrite Hs; reflexivity|]. cbn.
  destruct cbs as [|[id cb] [|]]; [subst g'| |done].
  - do 2 (eapply rtc_l; [reflexivity|]). reflexivity.
  - destruct Hc as [v Hc]. eapply rtc_l; [reflexivity|]. etrans; [apply Hc|].
    do 2 (eapply rtc_l; [reflexivity|]). reflexivity.
Qed.

(** *** Waiting for several futures *)

(** Setting futures one after the other. *)
Fixpoint set_all (sets : list (nat * result)) (k : prog) : prog :=
  match sets with
  | [] => k
  | (p, r) :: sets => PSet p r (set_all sets k)
  end.

(** [TWaitAll]: the first exception, or a value when all [n] futures have one. *)
Fixpoint first_exception (rs : list result) : option exn :=
  match rs with
  | [] => None
  | ExceptionSet e :: _ => Some e
  | ValueSet _ :: rs => first_exception rs
  end.

Definition wait_all_result (n : nat) (rs : list result) : option result :=
  match first_exception rs with
  | Some e => Some (ExceptionSet e)
  | None => if decide (length rs = n) then Some (ValueSet VVoid) else None
  end.

(** [TWaitAny]: the first result. *)
Definition wait_any_result (rs : list result) : option result :=
  match rs with
  | [] => None
  | ValueSet _ :: _ => Some (ValueSet VVoid)
  | ExceptionSet e :: _ => Some (ExceptionSet e)
  end.

(** What both waiters have in common: a callback [cb] that, called with a future that
    is ready, adds its result to the [rs] the waiter has seen.  [q] is its promise. *)
Section Waiter.
Variables (cb : callback) (q : nat) (limit : nat) (waiting : store → list result → Prop).

(** The states of the other futures. *)
Definition same_others (g g' : store) : Prop := ∀ p, p ≠ q → States g' !! p = States g !! p.

Hypothesis cb_spec : ∀ g rs p s r, waiting g rs → (length rs < limit)%nat → p ≠ q →
  States g !! p = Some s → State s = Some r →
  ∃ g', evals g (cb p) g' (PRet VVoid) ∧ waiting g' (rs ++ [r]) ∧ same_others g g'.
Hypothesis waiting_ext : ∀ g g' rs, waiting g rs → Waiters g' = Waiters g →
  States g' !! q = States g !! q → waiting g' rs.

(** A future with the waiter as its only callback. *)
Definition registered (g : store) (p : nat) : Prop :=
  ∃ id, States g !! p = Some {| State := None; Callbacks := [(id, cb)]; ReadyEvent := None |}.

Lemma set_all_evals sets k : ∀ g rs, waiting g rs → NoDup sets.*1 → q ∉ sets.*1 →
  (∀ p, p ∈ sets.*1 → registered g p) → (length rs + length sets ≤ limit)%nat →
  ∃ g', evals g (set_all sets k) g' k ∧ waiting g' (rs ++ sets.*2).
Proof.
  induction sets as [|[p r] sets IH]; intros g rs Hw Hnd Hq Hreg Hlen; cbn in *.
  - exists g. rewrite app_nil_r. split; [apply evals_refl|done].
  - apply NoDup_cons in Hnd as [Hp Hnd]. apply not_elem_of_cons in Hq as [Hqp Hq].
    destruct (Hreg p ltac:(set_solver)) as [id Hs].
    set (g1 := set_state g p (new_state (Some r))).
    assert (Hs1 : States g1 !! p = Some (new_state (Some r)))
      by (apply list_lookup_insert_eq; by eapply lookup_lt_Some).
    assert (Hne : ∀ p', p' ≠ p → States g1 !! p' = States g !! p') by (intros; by apply list_lookup_insert_ne).
    destruct (cb_spec (with_called g1 (called g1 ++ [id])) rs p (new_state (Some r)) r) as (g2 & He & Hw2 & Hsame);
      [apply (waiting_ext g); auto|lia|done|done|done|].
    destruct (IH g2 (rs ++ [r])) as (g' & He' & Hw'); [done..| |rewrite length_app; cbn; lia|].
    + intros p' Hp'. destruct (Hreg p' ltac:(set_solver)) as [id' Hs']. exists id'.
      rewrite Hsame by set_solver. cbn. fold (States g1). by rewrite Hne by set_solver.
    + exists g'. rewrite <-app_assoc in Hw'. split; [|done].
      eapply evals_trans; [|exact He']. eapply (PSet_evals _ _ _ _ _ Hs). by exists VVoid.
Qed.

(** The result of a future that is ready. *)
Definition result_of (g : store) (p : nat) : option result := s ← States g !! p; State s.

(** A future to wait for: ready, or new. *)
Definition waitable (g : store) (p : nat) : Prop :=
  ∃ s, States g !! p = Some s ∧ (State s = None → s = new_state None).

Lemma Subscribe_ready g g' p s r k v : States g !! p = Some s → State s = Some r →
  evals g (cb p) g' (PRet v) → evals g (Subscribe (Some p) cb k) g' k.
Proof.
  intros Hs Hr He. eapply evals_step; [intros st; unfold tstep; cbn; rewrite Hs; cbn; unfold Subscribe_locked;
    rewrite Hr; reflexivity|]. eapply evals_try; [exact He|apply evals_refl].
Qed.

Lemma Subscribe_new g p k : States g !! p = Some (new_state None) →
  ∃ g', evals g (Subscribe (Some p) cb k) g' k ∧ registered g' p ∧ Waiters g' = Waiters g ∧
    ∀ p', p' ≠ p → States g' !! p' = States g !! p'.
Proof.
  intros Hs. eexists. split.
  - eapply evals_step; [intros st; unfold tstep; cbn; rewrite Hs; reflexivity|apply evals_refl].
  - split; [|split; [done|intros; by apply list_lookup_insert_ne]].
    exists (length (subscribed g)). apply list_lookup_insert_eq. by eapply lookup_lt_Some.
Qed.

Lemma subscribe_all_evals ps k : ∀ g rs, waiting g rs → NoDup ps → q ∉ ps →
  (∀ p, p ∈ ps → waitable g p) → (length rs + length ps ≤ limit)%nat →
  ∃ g', evals g (subscribe_all (Some <$> ps) cb k) g' k ∧ waiting g' (rs ++ omap (result_of g) ps) ∧
    (∀ p, p ∈ ps → result_of g p = None → registered g' p) ∧
    (∀ p, p ∉ ps → p ≠ q → States g' !! p = States g !! p).
Proof.
  induction ps as [|p ps IH]; intros g rs Hw Hnd Hq Hps Hlen; cbn in *.
  { exists g. rewrite app_nil_r. split; [apply evals_refl|]. split; [done|]. split; [set_solver|done]. }
  apply NoDup_cons in Hnd as [Hp Hnd]. apply not_elem_of_cons in Hq as [Hqp Hq].
  destruct (Hps p ltac:(set_solver)) as (s & Hs & Hnew).
  assert (∃ g1, evals g (Subscribe (Some p) cb (subscribe_all (Some <$> ps) cb k)) g1 (subscribe_all (Some <$> ps) cb k) ∧
    waiting g1 (rs ++ option_list (State s)) ∧ (State s = None → registered g1 p) ∧
    ∀ p', p' ≠ p → p' ≠ q → States g1 !! p' = States g !! p') as (g1 & He1 & Hw1 & Hreg1 & Hsame1).
  { destruct (State s) as [r|] eqn:Er.
    - destruct (cb_spec g rs p s r) as (g1 & He & Hw1 & Hsame); [done|lia|done..|]. exists g1.
      split; [by eapply Subscribe_ready|]. split; [done|]. split; [done|]. intros p' _. apply Hsame.
    - rewrite (Hnew eq_refl) in Hs. destruct (Subscribe_new g p (subscribe_all (Some <$> ps) cb k) Hs)
        as (g1 & He & Hreg & Hwt & Hsame). exists g1. rewrite app_nil_r.
      split; [done|]. split; [by apply (waiting_ext g); auto|]. split; [done|]. auto. }
  assert (Hres : ∀ p', p' ∈ ps → States g1 !! p' = States g !! p') by (intros; apply Hsame1; set_solver).
  destruct (IH g1 (rs ++ option_list (State s))) as (g' & He' & Hw' & Hreg' & Hsame'); [done..| | |].
  - intros p' Hp'. unfold waitable. rewrite Hres by done. apply Hps. set_solver.
  - rewrite length_app. destruct (State s); cbn; lia.
  - exists g'. split; [by eapply evals_trans|]. rewrite <-app_assoc in Hw'. split; [|split].
    + unfold result_of at 1. rewrite Hs. cbn. replace (omap (result_of g) ps) with (omap (result_of g1) ps).
      { by destruct (State s). }
      apply list_omap_ext, Forall_Forall2_diag, Forall_forall. intros p' Hp'. unfold result_of. by rewrite Hres.
    + intros p' [->|Hp']%elem_of_cons Hn.
      * unfold registered. rewrite Hsame' by done. apply Hreg1. unfold result_of in Hn. by rewrite Hs in Hn.
      * apply Hreg'; [done|]. unfold result_of in *. by rewrite Hres.
    + intros p' [Hne Hp']%not_elem_of_cons Hq'. rewrite Hsame' by done. by apply Hsame1.
Qed.

End Waiter.

Lemma length_omap_filter (g : store) ps :
  (length (omap (result_of g) ps) + length (filter (λ p, result_of g p = None) ps) = length ps)%nat.
Proof.
  induction ps as [|p ps IH]; [done|]. rewrite filter_cons. cbn [omap list_omap].
  destruct (result_of g p) eqn:E; case_decide; try congruence; cbn; lia.
Qed.

Lemma WaitWith_evals (set : nat → TFuture → callback) count (limit : nat)
    (waiting : nat → nat → store → list result → Prop) g ps sets (k : TFuture → prog) :
  let w := length (Waiters g) in
  let q := length (States g) in
  (∀ g, Waiters g !! w = Some {| Count := count; Lock := false |} → States g !! q = Some (new_state None) →
    waiting w q g []) →
  (∀ g rs p s r, waiting w q g rs → (length rs < limit)%nat → p ≠ q → States g !! p = Some s → State s = Some r →
    ∃ g', evals g (set w (Some q) p) g' (PRet VVoid) ∧ waiting w q g' (rs ++ [r]) ∧ same_others q g g') →
  (∀ g g' rs, waiting w q g rs → Waiters g' = Waiters g → States g' !! q = States g !! q → waiting w q g' rs) →
  NoDup ps → (∀ p, p ∈ ps → waitable g p) → (length ps ≤ limit)%nat →
  NoDup sets.*1 → (∀ p, p ∈ sets.*1 → p ∈ ps ∧ result_of g p = None) →
  ∃ g', evals g (WaitWith set count (Some <$> ps) (λ f, set_all sets (k f))) g' (k (Some q)) ∧
    waiting w q g' (omap (result_of g) ps ++ sets.*2).
Proof.
  intros w q Hinit Hspec Hext Hnd Hps Hlim Hnds Hsets.
  set (g1 := with_waiters (with_states g (States g ++ [new_state None])) (Waiters g ++ [{| Count := count; Lock := false |}])).
  assert (Hold : ∀ p, p ∈ ps → States g1 !! p = States g !! p ∧ p ≠ q).
  { intros p Hp. destruct (Hps p Hp) as (s & Hs%lookup_lt_Some & _). cbn. rewrite lookup_app_l by done. split; [done|subst q; lia]. }
  assert (Hlen : (length (omap (result_of g) ps) + length sets ≤ length ps)%nat).
  { rewrite <-(length_omap_filter g ps), <-(length_fmap fst sets). apply Nat.add_le_mono_l, submseteq_length.
    apply NoDup_submseteq; [done|]. intros p Hp. apply list_elem_of_filter. naive_solver. }
  destruct (subscribe_all_evals (set w (Some q)) q limit (waiting w q) Hspec Hext ps (set_all sets (k (Some q))) g1 [])
    as (g2 & He2 & Hw2 & Hreg & _); [|done| | |cbn; lia|].
  - apply Hinit; by apply list_lookup_middle.
  - by intros [_ Hq]%Hold.
  - intros p Hp. unfold waitable. rewrite (proj1 (Hold p Hp)). by apply Hps.
  - assert (Hsame : ∀ p, p ∈ ps → result_of g1 p = result_of g p)
      by (intros p Hp; unfold result_of; by rewrite (proj1 (Hold p Hp))).
    rewrite (list_omap_ext _ (result_of g) ps ps) in Hw2 by (apply Forall_Forall2_diag, Forall_forall, Hsame).
    destruct (set_all_evals (set w (Some q)) q limit (waiting w q) Hspec Hext sets (k (Some q)) g2 (omap (result_of g) ps))
      as (g' & He' & Hw'); [done..| | |cbn in *; lia|].
    + intros [Hq _]%Hsets. by apply Hold in Hq as [_ ?].
    + intros p [Hp Hn]%Hsets. apply Hreg; [done|]. by rewrite Hsame.
    + exists g'. split; [|done]. eapply evals_step; [reflexivity|]. eapply evals_step; [reflexivity|].
      by eapply evals_trans.
Qed.

(** *** [TWaitAll::Set] and [TWaitAny::Set] *)

Definition is_value (r : result) : bool := match r with ValueSet _ => true | _ => false end.
Definition values (rs : list result) : list result := filter (λ r, is_value r = true) rs.

Definition all_waiting (n w q : nat) (g : store) (rs : list result) : Prop :=
  Waiters g !! w = Some {| Count := Z.of_nat n - Z.of_nat (length (values rs)); Lock := false |} ∧
  States g !! q = Some (new_state (wait_all_result n rs)).

Definition any_waiting (w q : nat) (g : store) (rs : list result) : Prop :=
  Waiters g !! w = Some {| Count := 0; Lock := bool_decide (rs ≠ []) |} ∧
  States g !! q = Some (new_state (wait_any_result rs)).

Lemma first_exception_app rs r : first_exception (rs ++ [r]) =
  match first_exception rs with
  | Some e => Some e
  | None => match r with ExceptionSet e => Some e | _ => None end
  end.
Proof. induction rs as [|[] rs IH]; cbn; [by destruct r|done..]. Qed.

Lemma first_exception_values rs : first_exception rs = None → values rs = rs.
Proof.
  induction rs as [|[] rs IH]; [done| |done]. intros H. unfold values. rewrite filter_cons_True by done.
  f_equal. by apply IH.
Qed.

Lemma values_app rs ks : values (rs ++ ks) = values rs ++ values ks.
Proof. apply filter_app. Qed.

Lemma length_values_snoc rs r :
  length (values (rs ++ [r])) = (length (values rs) + (if is_value r then 1 else 0))%nat.
Proof. rewrite values_app, length_app. by destruct r. Qed.

Lemma length_values rs : (length (values rs) ≤ length rs)%nat.
Proof. apply length_filter. Qed.

Lemma values_full rs : length (values rs) = length rs → first_exception rs = None.
Proof.
  induction rs as [|[] rs IH]; [done| |]; unfold values; cbn [first_exception].
  - rewrite filter_cons_True by done. cbn. intros [= H]. by apply IH.
  - rewrite filter_cons_False by done. intros H. pose proof (length_values rs) as Hl. unfold values in Hl.
    cbn in H. rewrite H in Hl. lia.
Qed.

Lemma PSet_new g q r k : States g !! q = Some (new_state None) →
  evals g (PSet q r k) (set_state g q (new_state (Some r))) k.
Proof. intros Hq. by apply (PSet_evals _ _ _ _ []). Qed.

Lemma same_others_set_state q g s : same_others q g (set_state g q s).
Proof. intros p Hp. by apply list_lookup_insert_ne. Qed.

(** The part of [TWaitAll::Set] between the lock and the guard, with [c] futures left. *)
Definition TWaitAll_body (w : nat) (promise : TFuture) (p : nat) : prog :=
  PTry (call (GetValue (Some p) Zero) (λ _,
         PDecrement w (λ count, if count =? 0 then SetValue promise VVoid (PRet VVoid) else PRet VVoid)))
    PRet
    (λ e, HasException promise (λ b, if b then PRet VVoid else SetException promise e (PRet VVoid))).

Lemma TWaitAll_value g w q p s v c l : States g !! p = Some s → State s = Some (ValueSet v) →
  Waiters g !! w = Some {| Count := c; Lock := l |} → 1 ≤ c < 2 ^ 64 →
  (c = 1 → States g !! q = Some (new_state None)) →
  evals g (TWaitAll_body w (Some q) p)
    (let g' := set_waiter g w {| Count := c - 1; Lock := l |} in
     if decide (c = 1) then set_state g' q (new_state (Some (ValueSet VVoid))) else g') (PRet VVoid).
Proof.
  intros Hs Hr Hw Hc Hq. eapply evals_try; [|apply evals_refl].
  eapply evals_try; [exact (GetValue_evals _ _ _ _ _ Hs Hr)|].
  eapply evals_step; [intros st; unfold tstep; cbn [fst snd]; rewrite Hw; cbn [mbind option_bind Count Lock];
    rewrite u64_small by lia; reflexivity|].
  case_decide as Hd; destruct (Z.eqb_spec (c - 1) 0); try lia; [|apply evals_refl].
  apply PSet_new. by apply Hq.
Qed.

Lemma TWaitAll_exception g w q p s e o : States g !! p = Some s → State s = Some (ExceptionSet e) →
  States g !! q = Some (new_state o) → (∀ v, o ≠ Some (ValueSet v)) →
  evals g (TWaitAll_body w (Some q) p)
    (if o is None then set_state g q (new_state (Some (ExceptionSet e))) else g) (PRet VVoid).
Proof.
  intros Hs Hr Hq Ho. eapply evals_catch.
  - eapply evals_catch; [exact (GetValue_evals _ _ _ _ _ Hs Hr)|apply evals_refl].
  - eapply evals_step; [intros st; unfold tstep; cbn; rewrite Hq; reflexivity|].
    destruct o as [[v|e']|]; cbn; [by destruct (Ho v)|apply evals_refl|by apply PSet_new].
Qed.

Lemma TWaitAll_Set_evals g w q p c g' : Waiters g !! w = Some {| Count := c; Lock := false |} →
  evals (set_waiter g w {| Count := c; Lock := true |}) (TWaitAll_body w (Some q) p) g' (PRet VVoid) →
  ∀ s, Waiters g' !! w = Some s →
  evals g (TWaitAll_Set w (Some q) p) (set_waiter g' w {| Count := Count s; Lock := false |}) (PRet VVoid).
Proof.
  intros Hw He s Hs. eapply evals_step; [intros st; unfold tstep; cbn; rewrite Hw; reflexivity|].
  eapply evals_try; [exact He|]. eapply evals_step; [intros st; unfold tstep; cbn; rewrite Hs; reflexivity|].
  apply evals_refl.
Qed.

Lemma wait_all_result_open n rs r : (length rs < n)%nat → wait_all_result n rs = Some r → ∃ e, r = ExceptionSet e.
Proof.
  unfold wait_all_result. intros Hn. destruct (first_exception rs); [intros [= <-]; eauto|].
  rewrite decide_False by lia. done.
Qed.

Lemma wait_all_result_snoc n rs r : (length rs < n)%nat → wait_all_result n (rs ++ [r]) =
  match wait_all_result n rs with
  | Some x => Some x
  | None => match r with
            | ExceptionSet e => Some (ExceptionSet e)
            | ValueSet _ => if decide (S (length (values rs)) = n) then Some (ValueSet VVoid) else None
            end
  end.
Proof.
  intros Hn. unfold wait_all_result. rewrite first_exception_app, length_app.
  destruct (first_exception rs) eqn:He; [done|]. rewrite (first_exception_values _ He).
  rewrite (decide_False (P := length rs = n)) by lia. destruct r; [|done]. cbn. do 2 case_decide; lia || done.
Qed.

(** The last value comes when no future had an exception. *)
Lemma wait_all_result_last n rs : (length rs < n)%nat → S (length (values rs)) = n → wait_all_result n rs = None.
Proof.
  intros Hn Hv. unfold wait_all_result. pose proof (length_values rs) as Hl.
  rewrite (values_full rs) by lia. by rewrite decide_False by lia.
Qed.

Lemma all_waiting_spec n w q : (Z.of_nat n < 2 ^ 64) → ∀ g rs p s r,
  all_waiting n w q g rs → (length rs < n)%nat → p ≠ q → States g !! p = Some s → State s = Some r →
  ∃ g', evals g (TWaitAll_Set w (Some q) p) g' (PRet VVoid) ∧ all_waiting n w q g' (rs ++ [r]) ∧ same_others q g g'.
Proof.
  intros Hn g rs p s r [Hw Hq] Hlen Hpq Hs Hr.
  pose proof (length_values rs) as Hv. set (c := Z.of_nat n - Z.of_nat (length (values rs))) in *.
  set (g1 := set_waiter g w {| Count := c; Lock := true |}).
  assert (Hlt : (w < length (Waiters g))%nat) by (by eapply lookup_lt_Some).
  assert (Hltq : (q < length (States g))%nat) by (by eapply lookup_lt_Some).
  assert (Hw1 : Waiters g1 !! w = Some {| Count := c; Lock := true |}) by (by apply list_lookup_insert_eq).
  unfold all_waiting. rewrite length_values_snoc, wait_all_result_snoc by done.
  destruct r as [v|e].
  - pose proof (TWaitAll_value g1 w q p s v c true Hs Hr Hw1 ltac:(lia)) as He.
    assert (Hlast : c = 1 → wait_all_result n rs = None) by (intros; apply wait_all_result_last; lia).
    specialize (He ltac:(intros Hc; change (States g1) with (States g); by rewrite Hq, Hlast)).
    eexists. split; [eapply TWaitAll_Set_evals; [exact Hw|exact He|]|].
    + cbn. case_decide; cbn; rewrite list_insert_insert_eq; by apply list_lookup_insert_eq.
    + cbn [set_waiter with_waiters Waiters States Count]. split; [split|].
      * rewrite list_lookup_insert_eq by (case_decide; cbn; by rewrite length_insert, ?length_insert).
        do 2 f_equal. cbn. lia.
      * case_decide as Hc; cbn.
        -- rewrite list_lookup_insert_eq, Hlast by done. by rewrite decide_True by lia.
        -- rewrite Hq. destruct (wait_all_result n rs); [done|]. by rewrite decide_False by lia.
      * intros p' Hp'. case_decide; cbn; [by apply list_lookup_insert_ne|done].
  - pose proof (TWaitAll_exception g1 w q p s e _ Hs Hr Hq) as He.
    specialize (He ltac:(intros v Ho; by destruct (wait_all_result_open n rs _ Hlen Ho))).
    eexists. split; [eapply TWaitAll_Set_evals; [exact Hw|exact He|]|].
    + instantiate (1 := {| Count := c; Lock := true |}). by destruct (wait_all_result n rs).
    + cbn [set_waiter with_waiters Waiters States Count]. split; [split|].
      * destruct (wait_all_result n rs); cbn; rewrite list_lookup_insert_eq by (by rewrite length_insert);
          do 2 f_equal; cbn; lia.
      * destruct (wait_all_result n rs) eqn:E; cbn; [by rewrite Hq|by apply list_lookup_insert_eq].
      * intros p' Hp'. destruct (wait_all_result n rs); cbn; [done|by apply list_lookup_insert_ne].
Qed.

Lemma any_waiting_spec w q g rs p s r : any_waiting w q g rs → p ≠ q → States g !! p = Some s → State s = Some r →
  ∃ g', evals g (TWaitAny_Set w (Some q) p) g' (PRet VVoid) ∧ any_waiting w q g' (rs ++ [r]) ∧ same_others q g g'.
Proof.
  intros [Hw Hq] Hpq Hs Hr.
  assert (Hlt : (w < length (Waiters g))%nat) by (by eapply lookup_lt_Some).
  assert (Hltq : (q < length (States g))%nat) by (by eapply lookup_lt_Some).
  unfold any_waiting. destruct rs as [|r0 rs].
  - set (g1 := set_waiter g w {| Count := 0; Lock := true |}).
    exists (set_state g1 q (new_state (wait_any_result [r]))). split; [|split; [split|]].
    + eapply (evals_step _ _ g1); [intros st; unfold tstep; cbn [fst snd TWaitAny_Set]; rewrite Hw; reflexivity|].
      pose proof (GetValue_evals g1 p s r Zero Hs Hr) as Hg.
      destruct r as [v|e]; cbn [of_result] in Hg.
      * eapply evals_try; [|apply evals_refl]. eapply evals_try; [exact Hg|]. by apply PSet_new.
      * eapply evals_catch; [|by apply PSet_new]. eapply evals_catch; [exact Hg|apply evals_refl].
    + by apply list_lookup_insert_eq.
    + by apply list_lookup_insert_eq.
    + intros p' Hp'. by apply list_lookup_insert_ne.
  - exists g. split; [|done].
    eapply evals_step; [intros st; unfold tstep; cbn; rewrite Hw; reflexivity|apply evals_refl].
Qed.

(** [f.Wait] for several futures as one program: the waits, then the sets. *)
Lemma WaitAll_evals g ps sets k : (2 ≤ length ps)%nat → Z.of_nat (length ps) < 2 ^ 64 →
  NoDup ps → (∀ p, p ∈ ps → waitable g p) →
  NoDup sets.*1 → (∀ p, p ∈ sets.*1 → p ∈ ps ∧ result_of g p = None) →
  ∃ g', evals g (WaitAll (Some <$> ps) (λ f, set_all sets (k f))) g' (k (Some (length (States g)))) ∧
    result_of g' (length (States g)) = wait_all_result (length ps) (omap (result_of g) ps ++ sets.*2).
Proof.
  intros H2 Hlim Hnd Hps Hnds Hsets.
  destruct (WaitWith_evals TWaitAll_Set (Z.of_nat (length ps)) (length ps) (all_waiting (length ps)) g ps sets k)
    as (g' & He & _ & Hq); [..|done|done|done|done|done|].
  - intros g1 Hw Hq. split; [rewrite Hw; do 2 f_equal; cbn; lia|].
    rewrite Hq. unfold wait_all_result. by rewrite decide_False by (cbn; lia).
  - intros g1 rs p s r. by apply all_waiting_spec.
  - intros g1 g2 rs [Hw Hq] HW HS. split; [by rewrite HW|by rewrite HS].
  - exists g'. unfold result_of at 1. rewrite Hq. split; [|done].
    destruct ps as [|p1 [|p2 ps]]; cbn in H2; try lia.
    change (Z.of_nat (length (p1 :: p2 :: ps))) with (vsize (p1 :: p2 :: ps)) in He.
    unfold vsize in He. rewrite <-(length_fmap Some) in He. exact He.
Qed.

Lemma WaitAny_evals g ps sets k : (2 ≤ length ps)%nat → NoDup ps → (∀ p, p ∈ ps → waitable g p) →
  NoDup sets.*1 → (∀ p, p ∈ sets.*1 → p ∈ ps ∧ result_of g p = None) →
  ∃ g', evals g (WaitAny (Some <$> ps) (λ f, set_all sets (k f))) g' (k (Some (length (States g)))) ∧
    result_of g' (length (States g)) = wait_any_result (omap (result_of g) ps ++ sets.*2).
Proof.
  intros H2 Hnd Hps Hnds Hsets.
  destruct (WaitWith_evals TWaitAny_Set 0 (length ps) any_waiting g ps sets k)
    as (g' & He & _ & Hq); [..|done|done|done|done|done|].
  - intros g1 Hw Hq. by split.
  - intros g1 rs p s r Hw _. by apply any_waiting_spec.
  - intros g1 g2 rs [Hw Hq] HW HS. split; [by rewrite HW|by rewrite HS].
  - exists g'. unfold result_of at 1. rewrite Hq. split; [|done].
    destruct ps as [|p1 [|p2 ps]]; cbn in H2; try lia. exact He.
Qed.

(** *** Asynchronous calls *)

(** A function that does nothing but return or throw. *)
Definition of_outcome (r : value + exn) : prog :=
  match r with inl v => PRet v | inr e => PThrow e end.

Definition as_result (r : value + exn) : result :=
  match r with inl v => ValueSet v | inr e => ExceptionSet e end.

(** The job of [Async] sets the promise to what the function does. *)
Lemma Async_evals g q r : States g !! q = Some (new_state None) → (∀ f, r ≠ inl (VFuture f)) →
  evals g (Async_job (Some q) (of_outcome r)) (set_state g q (new_state (Some (as_result r)))) (PRet VVoid).
Proof.
  intros Hq Hr. eapply evals_try; [|apply evals_refl]. destruct r as [v|e].
  - eapply evals_try; [|apply evals_refl]. eapply evals_try; [apply evals_refl|].
    destruct v; [by apply PSet_new..|by destruct (Hr f)].
  - eapply evals_catch; [|by apply PSet_new]. eapply evals_catch; apply evals_refl.
Qed.

(** The job of a [TLegacyFuture] in a queue leaves its promise alone on an exception. *)
Lemma SetPromise_evals g q r ignore : States g !! q = Some (new_state None) →
  evals g (Process (SetPromise ignore (Some q) (of_outcome r)))
    (if r is inl v then set_state g q (new_state (Some (ValueSet v))) else g) (PRet VVoid).
Proof.
  intros Hq. destruct r as [v|e], ignore; cbn [SetPromise].
  - eapply evals_try; [|apply evals_refl]. eapply evals_try; [|apply evals_refl].
    eapply evals_try; [apply evals_refl|by apply PSet_new].
  - eapply evals_try; [|apply evals_refl]. eapply evals_try; [apply evals_refl|by apply PSet_new].
  - eapply evals_try; [|apply evals_refl]. eapply evals_catch; [|apply evals_refl].
    eapply evals_catch; apply evals_refl.
  - eapply evals_catch; [|apply evals_refl]. eapply evals_catch; apply evals_refl.
Qed.

(** *** Futures made from futures *)

Lemma forward_evals g p q s r (h : value → value) : States g !! p = Some s → State s = Some r →
  States g !! q = Some (new_state None) →
  evals g (forward (Some q) h p)
    (set_state g q (new_state (Some (match r with ValueSet v => ValueSet (h v) | ExceptionSet e => ExceptionSet e end))))
    (PRet VVoid).
Proof.
  intros Hs Hr Hq. pose proof (GetValue_evals g p s r Zero Hs Hr) as Hg. destruct r as [v|e]; cbn [of_result] in Hg.
  - eapply evals_try; [|apply evals_refl]. eapply evals_try; [exact Hg|by apply PSet_new].
  - eapply evals_catch; [|by apply PSet_new]. eapply evals_catch; [exact Hg|apply evals_refl].
Qed.

(** A function of the result of the future it is called with. *)
Definition of_function (fn : result → value + exn) : callback := λ p,
  PTry (GetValue (Some p) Zero) (λ v, of_outcome (fn (ValueSet v))) (λ e, of_outcome (fn (ExceptionSet e))).

Lemma of_function_evals g p s r fn : States g !! p = Some s → State s = Some r →
  evals g (of_function fn p) g (of_outcome (fn r)).
Proof.
  intros Hs Hr. pose proof (GetValue_evals g p s r Zero Hs Hr) as Hg.
  destruct r; [eapply evals_try|eapply evals_catch]; first [exact Hg|apply evals_refl].
Qed.

(** A new future [q] set by a callback of [p], once [p] is set. *)
Lemma derived_evals g p r cb k g' : 
  let q := length (States g) in
  let g0 := with_states g (States g ++ [new_state None]) in
  States g !! p = Some (new_state None) →
  (∀ g1, States g1 !! p = Some (new_state (Some r)) → States g1 !! q = Some (new_state None) →
    (∀ p', p' ≠ p → States g1 !! p' = States g0 !! p') →
    ∃ v, evals g1 (cb (Some q) p) (g' g1) (PRet v)) →
  ∃ g1, States g1 !! p = Some (new_state (Some r)) ∧ States g1 !! q = Some (new_state None) ∧
    (∀ p', p' ≠ p → States g1 !! p' = States g0 !! p') ∧
    evals g (NewPromise (λ promise, Subscribe (Some p) (cb promise) (PSet p r (k promise)))) (g' g1) (k (Some q)).
Proof.
  intros q g0 Hp Hcb. pose proof (lookup_lt_Some _ _ _ Hp) as Hlt. fold q in Hlt.
  assert (Hp0 : States g0 !! p = Some (new_state None)) by (cbn; by rewrite lookup_app_l).
  assert (Hq0 : States g0 !! q = Some (new_state None)) by (by apply list_lookup_middle).
  destruct (Subscribe_new (cb (Some q)) g0 p (PSet p r (k (Some q))) Hp0) as (g2 & He & [id Hreg] & _ & Hsame).
  set (g3 := set_state g2 p (new_state (Some r))). set (g1 := with_called g3 (called g3 ++ [id])).
  assert (Hp1 : States g1 !! p = Some (new_state (Some r)))
    by (apply list_lookup_insert_eq; by eapply lookup_lt_Some).
  assert (Hsame1 : ∀ p', p' ≠ p → States g1 !! p' = States g0 !! p')
    by (intros p' Hne; cbn; rewrite list_lookup_insert_ne by done; by apply Hsame).
  assert (Hq1 : States g1 !! q = Some (new_state None)) by (rewrite Hsame1; [done|lia]).
  exists g1. split; [done|]. split; [done|]. split; [done|].
  eapply evals_step; [reflexivity|]. eapply evals_trans; [exact He|].
  eapply (PSet_evals _ _ _ _ _ Hreg). by apply Hcb.
Qed.

(** [Apply] with a function that returns no future. *)
Lemma Apply_evals g p fn r k : States g !! p = Some (new_state None) → (∀ f, fn r ≠ inl (VFuture f)) →
  ∃ g', evals g (Apply (Some p) (of_function fn) (λ f, PSet p r (k f))) g' (k (Some (length (States g)))) ∧
    result_of g' (length (States g)) = Some (as_result (fn r)).
Proof.
  intros Hp Hfn. set (q := length (States g)).
  destruct (derived_evals g p r (λ promise p, SetValueFrom promise (of_function fn p)) k
    (λ g1, set_state g1 q (new_state (Some (as_result (fn r))))) Hp) as (g1 & Hp1 & Hq1 & _ & He).
  - intros g1 Hp1 Hq1 _. exists VVoid. pose proof (of_function_evals g1 p _ r fn Hp1 eq_refl) as Hf.
    destruct (fn r) as [v|e]; cbn [of_outcome] in Hf.
    + eapply evals_try; [|apply evals_refl]. eapply evals_try; [exact Hf|].
      destruct v; [by apply PSet_new..|by destruct (Hfn f)].
    + eapply evals_catch; [|by apply PSet_new]. eapply evals_catch; [exact Hf|apply evals_refl].
  - eexists. split; [exact He|]. unfold result_of. cbn. rewrite list_lookup_insert_eq; [done|by eapply lookup_lt_Some].
Qed.

(** [Apply] with a function that returns a future: the result is the result of that. *)
Lemma Apply_future_evals g p p2 s2 r r2 fn k : States g !! p = Some (new_state None) → fn r = inl (VFuture (Some p2)) →
  States g !! p2 = Some s2 → State s2 = Some r2 → p2 ≠ p →
  ∃ g', evals g (Apply (Some p) (of_function fn) (λ f, PSet p r (k f))) g' (k (Some (length (States g)))) ∧
    result_of g' (length (States g)) = Some r2.
Proof.
  intros Hp Hfn Hp2 Hr2 Hne. set (q := length (States g)).
  destruct (derived_evals g p r (λ promise p, SetValueFrom promise (of_function fn p)) k
    (λ g1, set_state g1 q (new_state (Some r2))) Hp) as (g1 & Hp1 & Hq1 & _ & He).
  - intros g1 Hp1 Hq1 Hsame. exists VVoid. pose proof (of_function_evals g1 p _ r fn Hp1 eq_refl) as Hf.
    rewrite Hfn in Hf. cbn [of_outcome] in Hf.
    assert (Hp2' : States g1 !! p2 = Some s2)
      by (rewrite Hsame by done; cbn; rewrite lookup_app_l; [done|by eapply lookup_lt_Some]).
    eapply evals_try; [|apply evals_refl]. eapply evals_try; [exact Hf|].
    eapply Subscribe_ready; [done..|]. pose proof (forward_evals g1 p2 q s2 r2 id Hp2' Hr2 Hq1) as Hfw.
    by destruct r2.
  - eexists. split; [exact He|]. unfold result_of. cbn. rewrite list_lookup_insert_eq; [done|by eapply lookup_lt_Some].
Qed.

(** [IgnoreResult] and [Return] *)
Lemma forward_correct g p r h k : States g !! p = Some (new_state None) →
  ∃ g', evals g (NewPromise (λ promise, Subscribe (Some p) (forward promise h) (PSet p r (k promise)))) g'
      (k (Some (length (States g)))) ∧
    result_of g' (length (States g)) =
      Some (match r with ValueSet v => ValueSet (h v) | ExceptionSet e => ExceptionSet e end).
Proof.
  intros Hp. set (q := length (States g)).
  destruct (derived_evals g p r (λ promise, forward promise h) k (λ g1, set_state g1 q (new_state (Some
      (match r with ValueSet v => ValueSet (h v) | ExceptionSet e => ExceptionSet e end)))) Hp)
    as (g1 & Hp1 & Hq1 & _ & He).
  - intros g1 Hp1 Hq1 _. exists VVoid. by eapply forward_evals.
  - eexists. split; [exact He|]. unfold result_of. cbn. rewrite list_lookup_insert_eq; [done|by eapply lookup_lt_Some].
Qed.

(** *** Blocked threads *)

Definition ended (t : thread) : Prop := t.2 = [] ∧ ((∃ v, t.1 = PRet v) ∨ ∃ e, t.1 = PThrow e).

(** A thread in [Wait()] for a future that nobody has set. *)
Definition waits (g : store) (t : thread) : Prop :=
  ∃ v p st, t = (PRet v, FWait p true :: st) ∧ ¬ ready g p.

(** A thread that spins on the lock of a [TWaitAll]. *)
Definition spins (g : store) (t : thread) : Prop :=
  ∃ w k s, t.1 = PAcquire w k ∧ Waiters g !! w = Some s ∧ Lock s = true.

(** A thread that uses an object that was not made. *)
Definition dangling (g : store) (t : thread) : Prop :=
  match t.1 with
  | PLoad p _ | PSet p _ _ | PSubscribe p _ _ | PWait p _ _ => States g !! p = None
  | PAcquire w _ | PTryAcquire w _ | PRelease w _ | PDecrement w _ => Waiters g !! w = None
  | _ => False
  end.

Lemma blocked_cases g ts t : process_ok (g, ts) → t ∈ ts → (∀ u, u ∈ ts → tstep g u = None) →
  timeout_step t = None → ended t ∨ waits g t ∨ spins g t ∨ dangling g t.
Proof.
  intros Hok Ht Hall Hto. pose proof (Hall t Ht) as Hn.
  pose proof (proj1 (Forall_forall _ _) (ok_threads _ Hok) t Ht) as Hth. cbn in Hth.
  destruct t as [c st]. unfold tstep in Hn. destruct c; cbn in Hn; try discriminate Hn.
  3-6: do 3 right; destruct (States g !! p) as [s|] eqn:Hs; [|done]; cbn in Hn;
    unfold SetResult, Subscribe_locked, Wait_locked in Hn; by destruct (State s).
  3-6: do 2 right; unfold spins, dangling; cbn [fst]; destruct (Waiters g !! w) as [s|] eqn:Hw; [|by right];
    left; cbn in Hn; try discriminate Hn; destruct (Lock s) eqn:Hl; try discriminate Hn; eauto 6.
  - destruct st as [|[| |? [|[]]|] st]; cbn in Hn; try discriminate Hn.
    + left. split; [done|]. eauto.
    + destruct Hth as [[_ (s & Hs & _)] _]. by rewrite Hs in Hn.
    + right; left. destruct Hth as [[_ (s & Hs & He)] _]. rewrite Hs in Hn. cbn in Hn.
      case_decide as Hd; [done|]. destruct infinite; [|done]. exists v, p, st. split; [done|].
      intros (s' & r & Hs' & Hr). simplify_eq.
      destruct (ok_signals _ Hok p) as (u & Hu & Hh).
      { exists s. split; [done|]. split; [congruence|]. by destruct (ReadyEvent s) as [[]|]. }
      pose proof (Hall u Hu) as Hnu. pose proof (proj1 (Forall_forall _ _) (ok_threads _ Hok) u Hu) as Hthu.
      destruct u as [cu [|fu stu]]; [done|]. injection Hh as ->. destruct Hthu as [[[v' Hc] _] _]. cbn in Hc. subst cu.
      unfold tstep in Hnu. cbn in Hnu. by rewrite Hs in Hnu.
  - destruct st as [|[] st]; cbn in Hn; try discriminate Hn. left. split; [done|]. eauto.
Qed.

(** *** Subscriptions of futures that are ready *)

Lemma stored_zero i ss : (∀ s c, s ∈ ss → c ∈ Callbacks s → c.1 ≠ i) → stored i ss = O.
Proof.
  induction ss as [|s ss IH]; intros Hc; [done|]. change (stored i (s :: ss)) with (occ i (Callbacks s).*1 + stored i ss)%nat.
  rewrite IH by (intros; eapply Hc; [by right|done]). rewrite Nat.add_0_r. apply occ_zero.
  intros (c & -> & Hin)%list_elem_of_fmap. eapply Hc; [by left|done|done].
Qed.

Lemma all_looping_zero i ts : Forall ended ts → all_looping i ts = O.
Proof.
  induction 1 as [|t ts [Hst _] _ IH]; [done|].
  change (all_looping i (t :: ts)) with (looping i t.2 + all_looping i ts)%nat. by rewrite Hst, IH.
Qed.

Lemma called_once g ts i p : process_ok (g, ts) → subscribed g !! i = Some p →
  (occ i (called g) ≤ 1)%nat ∧ (i ∈ called g → ready g p) ∧
  (ready g p → Forall ended ts → i ∉ lost g → i ∈ called g).
Proof.
  intros Hok Hi. pose proof (ok_placed _ Hok i) as Hp. cbn in Hp. rewrite decide_True in Hp by (by eapply lookup_lt_Some).
  unfold placed in Hp. split; [lia|]. split.
  - intros Hin. destruct (ok_called _ (ok_store _ Hok) i) as (q & Hq & Hr); [apply elem_of_app; by left|].
    cbn in *. by simplify_eq.
  - intros (s & r & Hs & Hr) Hend Hlost. rewrite all_looping_zero in Hp by done.
    apply occ_zero in Hlost. rewrite Hlost in Hp.
    assert (Hst : stored i (States g) = O).
    { apply stored_zero. intros s' c [q Hq]%list_elem_of_lookup Hc <-.
      pose proof (ok_callbacks _ (ok_store _ Hok) q s' Hq) as Hcs. rewrite Forall_forall in Hcs.
      destruct (Hcs c Hc) as [Hn Hsub]. cbn in Hsub. simplify_eq. }
    rewrite Hst in Hp. destruct (decide (i ∈ called g)) as [|Hno]; [done|]. apply occ_zero in Hno. lia.
Qed.

Lemma step_result_stable σ σ' p s r : step σ σ' → States σ.1 !! p = Some s → State s = Some r →
  ∃ s', States σ'.1 !! p = Some s' ∧ State s' = Some r.
Proof.
  intros H Hs Hr. destruct H as [g ts i t g' t' _ H|]; cbn in *; [|eauto].
  destruct (grows_states _ _ (tstep_grows _ _ _ _ H) p s Hs) as (s' & Hs' & [Hn|He] & _); [congruence|].
  exists s'. split; [done|congruence].
Qed.

Lemma steps_result_stable σ σ' p s r : rtc step σ σ' → States σ.1 !! p = Some s → State s = Some r →
  ∃ s', States σ'.1 !! p = Some s' ∧ State s' = Some r.
Proof.
  intros H. revert s. induction H as [|σ σ1 σ2 H1 _ IH]; intros s Hs Hr; [eauto|].
  destruct (step_result_stable σ σ1 p s r H1 Hs Hr) as (s1 & Hs1 & Hr1). by apply (IH s1).
Qed.

(** *** Schedules *)

(** The process after the threads of a schedule have made a step each. *)
Fixpoint run (schedule : list nat) (σ : store * list thread) : option (store * list thread) :=
  match schedule with
  | [] => Some σ
  | i :: schedule =>
      t ← σ.2 !! i;
      r ← tstep σ.1 t;
      run schedule (r.1, <[i := r.2]> σ.2)
  end.

Lemma run_steps schedule : ∀ σ σ', run schedule σ = Some σ' → rtc step σ σ'.
Proof.
  induction schedule as [|i schedule IH]; intros [g ts] σ'; cbn; [by intros [= <-]|].
  destruct (ts !! i) as [t|] eqn:Hi; cbn; [|done]. destruct (tstep g t) as [[g' t']|] eqn:Ht; cbn; [|done].
  intros H. eapply rtc_l; [by eapply step_thread|]. by apply IH.
Qed.

End Future.

(** ** Properties *)

(** C15: In every interleaving of threads, a future keeps the result it was set to, a
    subscribed callback is called at most once and only after its future is ready, and
    when the threads have ended every callback of a future that is ready was called,
    except those that an exception of an earlier callback of the same loop discarded. *)
Theorem futures_call_once {V M} (m : M) (ss : list (option (result (V := V)))) ps g ts :
  reachable m ss ps (g, ts) →
  (∀ p s r g' ts', States g !! p = Some s → State s = Some r → rtc step (g, ts) (g', ts') →
    ∃ s', States g' !! p = Some s' ∧ State s' = Some r) ∧
  (∀ i p, subscribed g !! i = Some p →
    (occ i (called g) ≤ 1)%nat ∧ (i ∈ called g → ready g p) ∧
    (ready g p → Forall ended ts → i ∉ lost g → i ∈ called g)).
Proof.
  intros Hr. split.
  - intros p s r g' ts' Hs Hres H. by apply (steps_result_stable _ _ p s r H).
  - intros i p. by apply called_once, (reachable_ok m ss ps).
Qed.

(** Two threads: one subscribes a callback and waits, the other sets the future. *)
Definition two_threads : list (prog (V := Z) (M := Z)) :=
  [Subscribe (Some 0%nat) (λ p, PUser (λ n, n + 1) (λ _, PRet VVoid)) (GetValue (Some 0%nat) Max);
   SetValue (Some 0%nat) (VData 5) (PRet VVoid)].

(** The process after a schedule that the threads can follow. *)
Definition after {V M} (schedule : list nat) (σ : store (V := V) (M := M) * list thread) : store * list thread :=
  default σ (run schedule σ).

Lemma after_reachable {V M} schedule (m : M) (ss : list (option (result (V := V)))) ps :
  is_Some (run schedule (start m ss ps)) → reachable m ss ps (after schedule (start m ss ps)).
Proof. intros [σ Hσ]. unfold after. rewrite Hσ. by apply (run_steps schedule). Qed.

Lemma futures_call_once_witness :
  let σ := after [0;0;0;1;1;1;1;1;1;0;0;0]%nat (start 0 [None] two_threads) in
  reachable 0 [None] two_threads σ ∧ Forall ended σ.2 ∧ Memory σ.1 = 1 ∧ 0%nat ∈ called σ.1.
Proof.
  cbv zeta. set (σ := after _ _).
  assert (Hr : reachable 0 [None] two_threads σ) by (apply after_reachable; vm_compute; eauto).
  assert (He : Forall ended σ.2) by (vm_compute; repeat constructor; eauto).
  split; [exact Hr|]. split; [exact He|]. split; [vm_compute; reflexivity|].
  assert (Hσ : σ = (σ.1, σ.2)) by apply surjective_pairing. rewrite Hσ in Hr.
  apply (proj2 (futures_call_once _ _ _ _ _ Hr) 0%nat 0%nat); [vm_compute; reflexivity| |exact He|].
  - exists (default (new_state None) (States σ.1 !! 0%nat)), (ValueSet (VData 5)). split; vm_compute; reflexivity.
  - assert (Hl : lost σ.1 = []) by (vm_compute; reflexivity). rewrite Hl. apply not_elem_of_nil.
Defined.




(** Three futures, of which the second is ready and the third is set first. *)
Definition three_futures : store (V := Z) (M := ()) := (start () [None; Some (ValueSet VVoid); None] []).1.


(** The outcome of a function, as the models of its callers have it. *)
Definition outcome_of {V} (r : value (V := V) + exn) : outcome (value (V := V)) :=
  match r with inl v => Ret v | inr e => Fail (Throw e) end.

Definition gives {V M} (o : outcome (value (V := V))) (c : prog (V := V) (M := M)) : Prop :=
  match o with
  | Ret v => c = PRet v
  | Fail (Throw e) => c = PThrow e
  | Fail _ => False
  end.



(** ** What modelling showed *)

(** [TWaitAll] sets its promise, and so runs its callbacks, under its lock: a callback
    that sets another of the futures waits for that lock forever. *)
Definition cancel_others : prog (V := Z) (M := ()) :=
  WaitAll [Some 0%nat; Some 1%nat] (λ f,
    Subscribe f (λ _, SetValue (Some 1%nat) VVoid (PRet VVoid))
      (SetException (Some 0%nat) EZeroLength (PRet VVoid))).

Lemma WaitAll_deadlocks :
  ∃ g c st, reachable () [None; None] [cancel_others] (g, [(PAcquire 0 c, st)]) ∧
    tstep g (PAcquire 0 c, st) = None.
Proof.
  assert (Hr : reachable () [None; None] [cancel_others]
    (after (replicate 19 0%nat) (start () [None; None] [cancel_others])))
    by (apply after_reachable; vm_compute; eauto).
  vm_compute in Hr. eexists _, _, _. split; [exact Hr|reflexivity].
Qed.

(** An exception of a callback reaches the [catch] around [SetValue], which sets the
    exception of a promise that has its value: the exception is replaced. *)
Lemma callback_exception_replaced :
  ∃ g, reachable () [None] [Subscribe (V := Z) (Some 0%nat) (λ _, PThrow EZeroLength)
      (SetValueFrom (Some 0%nat) (PRet (VData 1)))]
    (g, [(PThrow EFutureAlreadySet, [])]).
Proof.
  assert (Hr : reachable () [None] [Subscribe (V := Z) (Some 0%nat) (λ _, PThrow EZeroLength)
      (SetValueFrom (Some 0%nat) (PRet (VData 1)))]
    (after (replicate 10 0%nat) (start () [None] [Subscribe (V := Z) (Some 0%nat) (λ _, PThrow EZeroLength)
      (SetValueFrom (Some 0%nat) (PRet (VData 1)))])))
    by (apply after_reachable; vm_compute; eauto).
  vm_compute in Hr. eexists. exact Hr.
Qed.
