(* ===== verification/Binarize.v ===== *)
(** * Binarization: [cmicot/lib/binarize.h/.cpp]

    A feature becomes one bin for each border its border builder returns: the bin
    of a border tells which values are above it.  The order of the bins is the
    iteration order of the hash set of borders, so nothing depends on it here.

    The values are [double]s of type [D]; borders are [float]s of type [F],
    computed from the values rounded to [float] and compared with the unrounded
    ones. *)
From Stdlib Require Import Reals Lra.
From S2P Require Import Prelude Arith XRange Algorithm HashTable HashMap BinFeatureSet Parallel.

(** ** Operations *)

Section Binarize.
  Context {F D : Type} `{Arith D} `{Conv F D}.

(** [TBorderBuilder].  It may change the vector it receives, a copy. *)
Definition TBorderBuilder : Type := list F → outcome (yhash_set F).

(** The bin of a border: [x > border] for the values of the feature. *)
Definition border_bin (feature : list D) (border : F) : TBin :=
  (λ x, a_gtb x (widen border)) <$> feature.

Definition BinarizeFeature (feature : list D) (border_builder : TBorderBuilder)
    : outcome (list TBin) :=
  let values := narrow <$> feature in
  borders ← border_builder values;
  if HashTable.empty borders then Ret [replicate (length feature) false]
  else Ret (border_bin feature <$> HashTable.elements borders).

(** [bool << int]: the shift of an [int], converted to [ui64] by [|=]. *)
Definition shift_flag (flag : bool) (bin_index : Z) : outcome Z :=
  if 32 <=? bin_index then Fail (Undef (UShift bin_index))
  else let v := Z.shiftl (Z.b2z flag) bin_index in
       Ret (u64 (if 2 ^ 31 <=? v then v - 2 ^ 32 else v)).

(** One pass of the inner loop. *)
Definition unite_value (bin : TBin) (bin_index : Z) (result : list Z) (value_index : Z)
    : outcome (list Z) :=
  flag ← vat bin value_index;
  v ← shift_flag flag bin_index;
  old ← vat result value_index;
  vset result value_index (Z.lor old v).

Definition UniteLabelBins (binarized_label : list TBin) : outcome (list Z) :=
  front ← vfront binarized_label;
  let result := replicate (length front) 0 in
  mfold (λ result bin_index,
      bin ← vat binarized_label bin_index;
      mfold (unite_value bin bin_index) result (xrange (vsize result)))
    result (xrange (vsize binarized_label)).

Definition BinarizeRawPool (input_data : list (list D)) (border_builder : TBorderBuilder)
    (max_parallel : Z) : outcome (TBinFeatureSet * TBinFeatureSet) :=
  binarized ← ParallelForEach (λ values, BinarizeFeature values border_builder)
                input_data max_parallel;
  match binarized with
  | [] => Fail (Undef (UIndex 0 0))
  | first :: rest =>
      Ret (feature_set_of_bins first,
           foldl (λ s f, (AddFeature s f).1) feature_set_empty rest)
  end.

(** [static_cast<ui32>(value)] *)
Definition to_ui32 (value : D) : outcome Z :=
  match a_trunc value with
  | Some z => if (0 <=? z) && (z <? 2 ^ 32) then Ret z else Fail (Undef UConvert)
  | None => Fail (Undef UConvert)
  end.

Definition binary_value (value : D) : outcome bool :=
  v ← to_ui32 value;
  _ ← ensure (v <=? 1) ENotBinary;
  Ret (negb (v =? 0)).

(** [features[binToFeatureMap[i]].push_back(std::move(poolBins[i]))] *)
Definition push_bin (bin_to_feature_map : list Z) (pool_bins : list TBin)
    (features : list (list TBin)) (i : Z) : outcome (list (list TBin)) :=
  f ← vat bin_to_feature_map i;
  bin ← vat pool_bins i;
  bins ← vat features f;
  vset features f (bins ++ [bin]).

Definition BinarizeWithMap (pool : list (list D)) (bin_to_feature_map : list Z)
    : outcome TBinFeatureSet :=
  pool_bins ← mmap (mmap binary_value) pool;
  _ ← ensure (vsize pool_bins =? vsize bin_to_feature_map)
        (EPoolMapSize (vsize pool_bins) (vsize bin_to_feature_map));
  feature_count ← MaxElement bin_to_feature_map;
  _ ← ensure (0 <=? feature_count + 1) (ELength (feature_count + 1));
  features ← mfold (push_bin bin_to_feature_map pool_bins)
               (replicate (Z.to_nat (feature_count + 1)) []) (xrange (vsize pool_bins));
  Ret (foldl (λ s f, (AddFeature s f).1) feature_set_empty features).

End Binarize.
Arguments TBorderBuilder : clear implicits.

(** ** Codes of united bins *)

Lemma shift_flag_bits flag b :
  0 ≤ b < 31 → shift_flag flag b = Ret (Z.shiftl (Z.b2z flag) b).
Proof.
  intros Hb. unfold shift_flag. rewrite (proj2 (Z.leb_gt _ _)) by lia.
  assert (0 ≤ Z.shiftl (Z.b2z flag) b < 2 ^ 31).
  { rewrite Z.shiftl_mul_pow2 by lia. assert (2 ^ b < 2 ^ 31) by (apply Z.pow_lt_mono_r; lia).
    assert (0 < 2 ^ b) by (apply Z.pow_pos_nonneg; lia). destruct flag; cbn [Z.b2z]; lia. }
  cbv zeta. rewrite (proj2 (Z.leb_gt _ _)) by lia. f_equal. apply u64_small. lia.
Qed.

(** One bin is OR-ed into every code. *)
Lemma unite_bin bin b codes :
  0 ≤ b < 31 → length bin = length codes →
  mfold (unite_value bin b) codes (xrange (vsize codes)) =
    Ret (imap (λ i c, Z.lor c (Z.shiftl (Z.b2z (bin !!! i)) b)) codes).
Proof.
  intros Hb Hlen. apply mfold_update. intros acc i c Hacc Hi Hc. unfold unite_value.
  destruct (lookup_lt_is_Some_2 bin i) as [flag Hf]; [lia|].
  rewrite (proj2 (vat_Ret bin (Z.of_nat i) flag)) by (split; [lia|by rewrite Nat2Z.id]).
  rewrite bind_Ret, shift_flag_bits, bind_Ret by done.
  rewrite (proj2 (vat_Ret acc (Z.of_nat i) c)) by (split; [lia|by rewrite Nat2Z.id]).
  rewrite bind_Ret, (proj2 (vset_Ret acc _ _ (<[i := Z.lor c (Z.shiftl (Z.b2z flag) b)]> acc))).
  - by rewrite (list_lookup_total_correct _ _ _ Hf).
  - rewrite Nat2Z.id. split; [unfold vsize; lia|done].
Qed.

(** The codes of a rectangular matrix of bins: bit [b] is the flag of bin [b]. *)
Definition code_of (bins : list TBin) (i : nat) (c : Z) : Prop :=
  0 ≤ c ∧ ∀ b, 0 ≤ b → Z.testbit c b = default false (bins !! Z.to_nat b ≫= (.!! i)).

Lemma UniteLabelBins_codes bins n :
  bins ≠ [] → Forall (λ bin, length bin = n) bins → vsize bins ≤ 31 →
  ∃ codes, UniteLabelBins bins = Ret codes ∧ length codes = n ∧
    ∀ i c, codes !! i = Some c → code_of bins i c.
Proof.
  intros Hne Hall Hsize. unfold UniteLabelBins.
  destruct bins as [|bin0 bins']; [done|]. cbn [vfront]. rewrite bind_Ret.
  rewrite (Forall_inv Hall). set (bins := bin0 :: bins') in *.
  edestruct (mfold_inv (λ (done codes : list Z), length codes = n ∧
    ∀ i c, codes !! i = Some c → code_of (take (length done) bins) i c))
    as (codes & Hr & Hlen & Hcodes); [| |exists codes; split; [exact Hr|]].
  - split; [apply length_replicate|]. intros i c [-> ?]%lookup_replicate.
    split; [lia|]. intros. by rewrite Z.testbit_0_l.
  - intros pre b rest codes Hsplit (Hlen & Hcodes).
    apply xrange_split in Hsplit as (Hb & Hpre & Hrange).
    destruct (vat_in_range bins b) as (bin & -> & Hbin); [lia|]. rewrite bind_Ret.
    assert (length bin = n) as Hbn.
    { rewrite Forall_lookup in Hall. eauto. }
    rewrite unite_bin by (lia || congruence). eexists. split; [done|].
    rewrite length_imap. split; [done|]. intros i c Hi.
    rewrite list_lookup_imap in Hi. destruct (codes !! i) as [c0|] eqn:Hc0; [|done].
    injection Hi as <-. destruct (Hcodes i c0 Hc0) as [H0 Hbits].
    assert (i < n)%nat as Hin by (rewrite <- Hlen; by eapply lookup_lt_Some).
    destruct (lookup_lt_is_Some_2 bin i) as [flag Hf]; [lia|].
    rewrite (list_lookup_total_correct _ _ _ Hf).
    split; [apply Z.lor_nonneg; split; [done|]; apply Z.shiftl_nonneg; by destruct flag|].
    intros k Hk. rewrite Z.lor_spec, Hbits, Z.shiftl_spec by done.
    assert (length pre = Z.to_nat b) as Hlp by (unfold vsize in Hb; lia).
    rewrite length_app. cbn [length]. rewrite Hlp, Nat.add_1_r.
    destruct (Z.lt_trichotomy k b) as [Hkb|[->|Hkb]].
    + rewrite !lookup_take_lt by lia. by rewrite Z.testbit_neg_r, orb_false_r by lia.
    + rewrite lookup_take_ge by lia. rewrite lookup_take_lt, Hbin by lia.
      cbn [mbind option_bind default]. rewrite Hf, Z.sub_diag. by destruct flag.
    + rewrite !lookup_take_ge by lia. cbn.
      destruct flag; cbn [Z.b2z]; [|by rewrite Z.testbit_0_l].
      replace 1 with (2 ^ 0) by done. apply Z.pow2_bits_false. lia.
  - split; [done|]. intros i c Hi. specialize (Hcodes i c Hi).
    by rewrite xrange_seqZ, length_seqZ, take_ge in Hcodes by (unfold vsize; lia).
Qed.

Lemma unite_value_Ret bin b codes i codes' :
  unite_value bin b codes i = Ret codes' → b < 32 ∧ length codes' = length codes.
Proof.
  unfold unite_value. intros. inv_ret. unfold shift_flag in *.
  destruct (Z.leb_spec 32 b); [done|]. split; [done|].
  match goal with H : vset _ _ _ = Ret _ |- _ => apply vset_Ret in H as [_ ->] end.
  apply length_insert.
Qed.

(** No more than 32 bins of a non-empty label can be united. *)
Lemma UniteLabelBins_bound bins front codes :
  head bins = Some front → front ≠ [] → UniteLabelBins bins = Ret codes → vsize bins ≤ 32.
Proof.
  destruct bins as [|bin bins]; [done|]. intros [= ->] Hn Hu. unfold UniteLabelBins in Hu.
  cbn [vfront] in Hu. rewrite bind_Ret in Hu.
  eapply (mfold_partial (λ (done codes : list Z), length codes = length front ∧ vsize done ≤ 32))
    in Hu as [_ Hs].
  - rewrite xrange_seqZ in Hs. unfold vsize in *. rewrite length_seqZ in Hs. lia.
  - split; [apply length_replicate|]. by rewrite vsize_nil.
  - intros pre b rest s s' Hl [Hlen Hpre] Hs. apply xrange_split in Hl as (Hb & _ & _).
    rewrite vsize_snoc, <- Hb. clear Hb. inv_ret.
    match goal with H : mfold _ s _ = Ret s' |- _ => rename H into Hm end.
    assert (vsize s = vsize front) as Hv by (unfold vsize; by rewrite Hlen).
    split.
    + eapply (mfold_partial (λ _ c, length c = length front)) in Hm; [done|done|].
      intros ??? c c' _ Hc Hc'. apply unite_value_Ret in Hc' as [_ ->]. done.
    + rewrite xrange_cons in Hm by (rewrite Hv; by apply vsize_pos). cbn in Hm. inv_ret.
      match goal with H : unite_value _ _ s 0 = Ret _ |- _ => apply unite_value_Ret in H end. lia.
Qed.

(** ** Binarization of one feature *)

Section Order.
  Context {F D : Type} `{HD : Arith D} `{!ArithOrder D} `{Conv F D}.

(** [x] and [y] are on the two sides of a border. *)
Definition border_between (borders : list F) (x y : D) : Prop :=
  ∃ border, border ∈ borders ∧ (widen border ≺ x) = false ∧ (widen border ≺ y) = true.

Lemma BinarizeFeature_shape (feature : list D) (bb : TBorderBuilder F) borders :
  bb (narrow <$> feature) = Ret borders → num_elements borders = vsize (HashTable.elements borders) →
  ∃ bins, BinarizeFeature feature bb = Ret bins ∧ bins ≠ [] ∧
    Forall (λ bin, length bin = length feature) bins ∧
    vsize bins = Z.max 1 (vsize (HashTable.elements borders)) ∧
    ∀ b i, bins !! b ≫= (.!! i) =
      match HashTable.elements borders with
      | [] => if (b =? 0)%nat then (λ _, false) <$> feature !! i else None
      | borders => border ← borders !! b; x ← feature !! i; Some (widen border ≺ x)
      end.
Proof.
  intros Hbb Hnum. unfold BinarizeFeature. rewrite Hbb, bind_Ret.
  unfold HashTable.empty, HashTable.size. rewrite Hnum.
  destruct (HashTable.elements borders) as [|border rest] eqn:He.
  - eexists. split; [done|]. split; [done|]. rewrite Forall_singleton, length_replicate.
    split; [done|]. split; [done|]. intros [|b] i; cbn; [|done].
    destruct (feature !! i) eqn:Hi; cbn.
    + apply lookup_replicate. split; [done|]. by eapply lookup_lt_Some.
    + apply lookup_replicate_None. by apply lookup_ge_None in Hi.
  - rewrite <- He in *. pose proof (vsize_pos (HashTable.elements borders)) as Hpos.
    rewrite (proj2 (Z.eqb_neq _ _)) by (rewrite He in *; specialize (Hpos ltac:(done)); lia).
    eexists. split; [done|]. split; [by rewrite He|]. split.
    + apply Forall_fmap, Forall_true. intros. apply length_fmap.
    + rewrite He in *. specialize (Hpos ltac:(done)). split; [unfold vsize in *; rewrite length_fmap; lia|].
      intros b i. rewrite list_lookup_fmap. destruct ((border :: rest) !! b); [|done].
      cbn [fmap option_fmap option_map mbind option_bind]. unfold border_bin.
      rewrite list_lookup_fmap. by destruct (feature !! i).
Qed.

Lemma code_le_iff bins i j ci cj :
  code_of bins i ci → code_of bins j cj →
  (∀ b, default false (bins !! b ≫= (.!! i)) = true → default false (bins !! b ≫= (.!! j)) = true) →
  ci ≤ cj.
Proof.
  intros [Hi Hbi] [Hj Hbj] Hsub. apply Z.ldiff_le; [done|].
  apply Z.bits_inj'. intros b Hb. rewrite Z.bits_0, Z.ldiff_spec, Hbi, Hbj by done.
  specialize (Hsub (Z.to_nat b)). destruct (default false (bins !! Z.to_nat b ≫= (.!! i))); [|done].
  by rewrite Hsub.
Qed.

End Order.

(** C40: for every border builder that returns at most 31 borders, the code that
    [UniteLabelBins] makes of the bins of [BinarizeFeature] orders the values of the
    feature as the borders do: one code is smaller than another exactly when a border
    separates the values that way, so values with no border between them share a
    code; a non-empty label of more than 32 bins is never united. *)
Theorem binarize_unite_order {F D} `{HD : Arith D} `{!ArithOrder D} `{Conv F D}
  (feature : list D) (border_builder : TBorderBuilder F) (borders : yhash_set F)
  (Hbb : border_builder (narrow <$> feature) = Ret borders)
  (Hnum : num_elements borders = vsize (HashTable.elements borders))
  (Hvals : Forall a_num feature)
  (Hborders : Forall (λ border, a_num (widen border)) (HashTable.elements borders)) :
  ∃ bins, BinarizeFeature feature border_builder = Ret bins ∧
    vsize bins = Z.max 1 (num_elements borders) ∧
    (vsize bins ≤ 31 →
     ∃ codes, UniteLabelBins bins = Ret codes ∧ length codes = length feature ∧
       ∀ i j x y cx cy, feature !! i = Some x → feature !! j = Some y →
         codes !! i = Some cx → codes !! j = Some cy →
         (cx < cy ↔ border_between (HashTable.elements borders) x y)) ∧
    (32 < vsize bins → feature ≠ [] → ∀ codes, UniteLabelBins bins ≠ Ret codes).
Proof.
  destruct (BinarizeFeature_shape feature border_builder borders Hbb Hnum)
    as (bins & Hbins & Hne & Hlen & Hsize & Hflag).
  exists bins. split; [done|]. split; [by rewrite Hsize, Hnum|]. split.
  - intros H31. destruct (UniteLabelBins_codes bins (length feature)) as (codes & Hc & Hcl & Hcodes);
      [done..|].
    exists codes. split; [done|]. split; [done|]. intros i j x y cx cy Hx Hy Hcx Hcy.
    apply Hcodes in Hcx, Hcy. pose proof (proj1 (Forall_forall _ _) Hvals) as Hv. pose proof (proj1 (Forall_forall _ _) Hborders) as Hbn.
    cbn beta in Hv, Hbn. clear Hvals Hborders. rename Hv into Hvals, Hbn into Hborders.
    assert (∀ b k z, feature !! k = Some z → default false (bins !! b ≫= (.!! k)) = true ↔
      ∃ border, HashTable.elements borders !! b = Some border ∧ (widen border ≺ z) = true) as Hset.
    { intros b k z Hz. rewrite Hflag. destruct (HashTable.elements borders) as [|b0 bs].
      - destruct (b =? 0)%nat; rewrite ?Hz; cbn; (split; [done|]); naive_solver.
      - destruct ((b0 :: bs) !! b); cbn; [rewrite Hz; cbn|]; naive_solver. }
    assert (Hnx : a_num x) by (eapply Hvals, list_elem_of_lookup_2; done).
    assert (Hny : a_num y) by (eapply Hvals, list_elem_of_lookup_2; done).
    split.
    + intros Hlt. apply Z.lt_nge in Hlt. destruct (decide (Exists (λ border,
        (widen border ≺ x) = false ∧ (widen border ≺ y) = true) (HashTable.elements borders)))
        as [He|Hn]; [apply Exists_exists in He; destruct He as (b & Hb & Hs); by exists b|].
      destruct Hlt. eapply code_le_iff; [done|done|]. intros b.
      rewrite (Hset b j y), (Hset b i x) by done. intros (border & Hb & Hs).
      exists border. split; [done|]. destruct (widen border ≺ x) eqn:Hbx; [done|].
      destruct Hn. apply Exists_exists. exists border. split; [|done].
      by eapply list_elem_of_lookup_2.
    + intros (border & Hb & Hbx & Hby).
      assert (Hxy : (x ≺ y) = true) by (eapply (a_le_ltb_trans x (widen border) y); auto).
      apply list_elem_of_lookup in Hb as [b Hb]. apply Z.le_neq. split.
      * eapply code_le_iff; [done|done|]. intros k. rewrite (Hset k i x), (Hset k j y) by done.
        intros (b' & Hb' & Hs). exists b'. split; [done|]. by eapply a_ltb_trans.
      * intros ->. destruct Hcx as [_ Hcx], Hcy as [_ Hcy].
        specialize (Hcx (Z.of_nat b) ltac:(lia)). specialize (Hcy (Z.of_nat b) ltac:(lia)).
        rewrite Nat2Z.id in Hcx, Hcy. rewrite Hcx in Hcy.
        pose proof (Hset b i x Hx) as Hsx. pose proof (Hset b j y Hy) as Hsy.
        destruct (default false (bins !! b ≫= (.!! i))).
        -- destruct Hsx as [Hsx _]. destruct (Hsx eq_refl) as (b' & Hb' & ?). congruence.
        -- rewrite <- Hcy in Hsy. destruct Hsy as [_ Hsy].
           discriminate Hsy. by exists border.
  - intros H32 Hf codes Hu. destruct bins as [|bin bins]; [done|].
    eapply (UniteLabelBins_bound _ bin) in Hu; [lia|done|].
    intros ->. apply Forall_inv in Hlen. by destruct feature.
Qed.

Lemma binarize_unite_order_witness :
  let borders := {| buckets := [[2.5%R]; [1.5%R]]; num_elements := 2 |} in
  ∃ bins, BinarizeFeature [1%R; 2%R; 3%R] (λ _, Ret borders) = Ret bins ∧ vsize bins = 2 ∧
    ∃ codes, UniteLabelBins bins = Ret codes.
Proof.
  intros borders.
  destruct (binarize_unite_order (F := R) [1%R; 2%R; 3%R] (λ _, Ret borders) borders)
    as (bins & Hb & Hs & Hcodes & _); [done|reflexivity|by apply Forall_true|by apply Forall_true|].
  exists bins. split; [done|]. split; [done|].
  destruct Hcodes as (codes & Hc & _); [rewrite Hs; vm_compute; discriminate|]. by exists codes.
Defined.

(** ** Pools *)

(** [BinarizeRawPool] binarizes the columns of a pool independently, whatever
    the number of threads: the first column becomes the one feature of the label and
    the others, in order, the features. *)
Theorem BinarizeRawPool_correct {F D} `{HD : Arith D} `{Conv F D}
  (label : list D) (columns : list (list D)) (border_builder : TBorderBuilder F)
  (max_parallel : Z) (binarize : list D → list TBin)
  (Hok : ∀ column, column ∈ label :: columns →
     BinarizeFeature column border_builder = Ret (binarize column)) :
  ∃ l f, BinarizeRawPool (label :: columns) border_builder max_parallel = Ret (l, f) ∧
    rep l [binarize label] ∧ rep f (binarize <$> columns).
Proof.
  unfold BinarizeRawPool.
  rewrite (proj2 (ParallelForEach_Ret _ (label :: columns) max_parallel
             (binarize <$> (label :: columns)))) by (by apply mmap_Ret).
  rewrite bind_Ret. eexists _, _. split; [reflexivity|].
  split; [apply rep_of_bins|apply rep_feature_set_of].
Qed.

Lemma BinarizeRawPool_correct_witness :
  let builder : TBorderBuilder R := λ _, Ret {| buckets := [[1.5%R]]; num_elements := 1 |} in
  let binarize column := [border_bin column 1.5%R] in
  ∃ l f, BinarizeRawPool [[1%R; 2%R]; [3%R; 0%R]] builder 4 = Ret (l, f) ∧
    rep l [binarize [1%R; 2%R]] ∧ rep f [binarize [3%R; 0%R]].
Proof.
  intros builder binarize.
  apply (BinarizeRawPool_correct [1%R; 2%R] [[3%R; 0%R]] builder 4 binarize).
  intros column _. reflexivity.
Defined.

(** ** Binarized pools *)

Section WithMap.
  Context {D : Type} `{HD : Arith D}.

Lemma binary_value_bit value b : a_trunc value = Some (Z.b2z b) → binary_value value = Ret b.
Proof. unfold binary_value, to_ui32. intros ->. by destruct b. Qed.

Lemma binary_value_Throw value z :
  a_trunc value = Some z → 1 < z < 2 ^ 32 → binary_value value = Fail (Throw ENotBinary).
Proof.
  unfold binary_value, to_ui32. intros -> Hz.
  rewrite (proj2 (Z.leb_le _ _)), (proj2 (Z.ltb_lt _ _)) by lia.
  cbn [andb]. rewrite bind_Ret. by rewrite (proj2 (Z.leb_gt _ _)) by lia.
Qed.

(** The bins the map gives to feature [f]. *)
Definition bins_of_feature (bin_to_feature_map : list Z) (bins : list TBin) (f : Z) : list TBin :=
  snd <$> filter (λ p, p.1 = f) (zip bin_to_feature_map bins).

Lemma bins_of_feature_snoc map bins m bin f :
  length map = length bins →
  bins_of_feature (map ++ [m]) (bins ++ [bin]) f =
    bins_of_feature map bins f ++ (if decide (m = f) then [bin] else []).
Proof.
  intros Hlen. unfold bins_of_feature. rewrite zip_with_app by done.
  rewrite filter_app, fmap_app. f_equal. cbn. by case_decide.
Qed.

Lemma push_bins map bins count :
  vsize map = vsize bins → (∀ m, m ∈ map → 0 ≤ m < count) →
  ∃ features, mfold (push_bin map bins) (replicate (Z.to_nat count) []) (xrange (vsize bins)) =
      Ret features ∧
    vsize features = Z.max 0 count ∧
    ∀ f fb, features !! f = Some fb → fb = bins_of_feature map bins (Z.of_nat f).
Proof.
  intros Hlen Hmap.
  edestruct (mfold_inv (λ (pre : list Z) features,
    vsize features = Z.max 0 count ∧
    ∀ f fb, features !! f = Some fb →
      fb = bins_of_feature (take (length pre) map) (take (length pre) bins) (Z.of_nat f)))
    as (features & Hr & Hs & Hf); [| |exists features; split; [exact Hr|]].
  - split; [unfold vsize; rewrite length_replicate; lia|]. by intros f fb [-> _]%lookup_replicate.
  - intros pre i rest features Hl (Hs & Hf). apply xrange_split in Hl as (Hi & Hpre & Hr).
    unfold push_bin. destruct (vat_in_range map i) as (m & -> & Hm); [lia|]. rewrite bind_Ret.
    destruct (vat_in_range bins i) as (bin & -> & Hbin); [lia|]. rewrite bind_Ret.
    assert (0 ≤ m < count) as Hmr by (eapply Hmap, list_elem_of_lookup_2; done).
    destruct (vat_in_range features m) as (fb & -> & Hfb); [lia|]. rewrite bind_Ret.
    rewrite (proj2 (vset_Ret features m _ (<[Z.to_nat m := fb ++ [bin]]> features)))
      by (split; [lia|done]).
    eexists. split; [done|]. rewrite vsize_insert. split; [done|]. intros f fb'.
    assert (length pre = Z.to_nat i) as Hlp by (unfold vsize in Hi; lia).
    rewrite length_app. cbn [length]. rewrite Nat.add_1_r, Hlp, (take_S_r map _ _ Hm), (take_S_r bins _ _ Hbin).
    rewrite bins_of_feature_snoc by (rewrite !length_take; unfold vsize in *; lia).
    rewrite <- Hlp. destruct (decide (f = Z.to_nat m)) as [->|Hne].
    + rewrite list_lookup_insert_eq by (unfold vsize in *; lia). intros [= <-].
      rewrite Z2Nat.id in * by lia. rewrite decide_True by done. f_equal.
      rewrite (Hf _ _ Hfb). by rewrite Z2Nat.id by lia.
    + rewrite list_lookup_insert_ne by done. intros Hfb'.
      rewrite decide_False by lia. rewrite app_nil_r. auto.
  - split; [done|]. intros f fb Hfb. rewrite (Hf f fb Hfb).
    rewrite xrange_seqZ, length_seqZ, !take_ge by (unfold vsize in *; lia). done.
Qed.

End WithMap.

(** The features [BinarizeWithMap] rebuilds. *)
Lemma BinarizeWithMap_rebuild {D} `{HD : Arith D} (pool : list (list D)) (bin_to_feature_map : list Z) (bins : list TBin) :
  bin_to_feature_map ≠ [] → Forall (λ m, 0 ≤ m) bin_to_feature_map →
  mmap (mmap binary_value) pool = Ret bins → vsize pool = vsize bin_to_feature_map →
  ∃ s fs, BinarizeWithMap pool bin_to_feature_map = Ret s ∧ rep s fs ∧
    (∀ m, m ∈ bin_to_feature_map → m < vsize fs) ∧ vsize fs - 1 ∈ bin_to_feature_map ∧
    ∀ f fb, fs !! f = Some fb → fb = bins_of_feature bin_to_feature_map bins (Z.of_nat f).
Proof.
  intros Hne Hmap Hpool Hlen.
  assert (vsize bins = vsize pool) as Hsize.
  { apply mmap_Forall2 in Hpool. unfold vsize. by rewrite (Forall2_length _ _ _ Hpool). }
  unfold BinarizeWithMap. rewrite Hpool, bind_Ret, Hsize, Hlen, Z.eqb_refl.
  cbn [ensure]. rewrite bind_Ret.
  destruct (MinMaxElement_spec bin_to_feature_map Hne) as (mn & mx & Hmm & _ & Hmx & Hle).
  unfold MinMaxElement in Hmm. inv_ret.
  match goal with H : MaxElement _ = _ |- _ => rewrite H end. rewrite bind_Ret.
  rewrite Forall_forall in Hmap. pose proof (Hmap mx Hmx).
  rewrite (proj2 (Z.leb_le 0 (mx + 1))) by lia. cbn [ensure]. rewrite bind_Ret.
  destruct (push_bins bin_to_feature_map bins (mx + 1)) as (fs & Hfs & Hn & Hf).
  { lia. } { intros m Hm. specialize (Hle m Hm). specialize (Hmap m Hm). lia. }
  rewrite <- Hlen, <- Hsize, Hfs, bind_Ret. eexists _, fs. split; [reflexivity|].
  split; [apply rep_feature_set_of|]. split; [intros m Hm; specialize (Hle m Hm); lia|].
  split; [|done]. by replace (vsize fs - 1) with mx by lia.
Qed.

(** [BinarizeWithMap] rebuilds the features of a binarized pool from its map:
    feature [f] gets the columns mapped to [f], in their order, for every feature up
    to the largest one of the map; a column with a value of two or more and a map of
    another size than the pool are exceptions. *)
Theorem BinarizeWithMap_correct {D} `{HD : Arith D} (pool : list (list D))
  (bin_to_feature_map : list Z) (bins : list TBin)
  (Hne : bin_to_feature_map ≠ []) (Hmap : Forall (λ m, 0 ≤ m) bin_to_feature_map)
  (Hbits : Forall2 (Forall2 (λ x b, a_trunc x = Some (Z.b2z b))) pool bins) :
  (vsize pool = vsize bin_to_feature_map →
   ∃ s fs, BinarizeWithMap pool bin_to_feature_map = Ret s ∧ rep s fs ∧
     (∀ m, m ∈ bin_to_feature_map → m < vsize fs) ∧ vsize fs - 1 ∈ bin_to_feature_map ∧
     ∀ f fb, fs !! f = Some fb → fb = bins_of_feature bin_to_feature_map bins (Z.of_nat f)) ∧
  (vsize pool ≠ vsize bin_to_feature_map →
   BinarizeWithMap pool bin_to_feature_map =
     Fail (Throw (EPoolMapSize (vsize pool) (vsize bin_to_feature_map)))) ∧
  (∀ column value z, a_trunc value = Some z → 1 < z < 2 ^ 32 →
   BinarizeWithMap (pool ++ [column ++ [value]]) bin_to_feature_map =
     match mmap binary_value column with
     | Ret _ => Fail (Throw ENotBinary)
     | Fail e => Fail e
     end).
Proof.
  assert (mmap (mmap binary_value) pool = Ret bins) as Hpool.
  { apply mmap_Forall2. eapply Forall2_impl; [exact Hbits|]. intros column bin Hc.
    apply mmap_Forall2. eapply Forall2_impl; [exact Hc|]. intros ??. apply binary_value_bit. }
  assert (vsize bins = vsize pool) as Hsize.
  { unfold vsize. by rewrite (Forall2_length _ _ _ Hbits). }
  split_and!.
  - intros Hlen. by apply BinarizeWithMap_rebuild.
  - intros Hlen. unfold BinarizeWithMap. rewrite Hpool, bind_Ret, Hsize.
    by rewrite (proj2 (Z.eqb_neq _ _)).
  - intros column value z Hz Hr. unfold BinarizeWithMap.
    assert (∀ A B (f : A → outcome B) l x, mmap f (l ++ [x]) =
      (ys ← mmap f l; y ← f x; Ret (ys ++ [y]))) as Hsnoc.
    { intros A B f l x. induction l as [|a l IH]; cbn; [by destruct (f x)|].
      destruct (f a); cbn; [|done]. rewrite IH. destruct (mmap f l); cbn; [|done].
      by destruct (f x). }
    rewrite Hsnoc, Hpool, bind_Ret. rewrite Hsnoc.
    destruct (mmap binary_value column); [|done]. rewrite bind_Ret.
    by rewrite (binary_value_Throw value z).
Qed.

Lemma BinarizeWithMap_correct_witness :
  let pool := [[0%R; 1%R]; [1%R; 1%R]; [1%R; 0%R]] in
  let bins := [[false; true]; [true; true]; [true; false]] in
  ∃ s fs, BinarizeWithMap pool [0; 1; 0] = Ret s ∧ rep s fs ∧ vsize fs - 1 ∈ [0; 1; 0] ∧
    ∀ fb, fs !! 0%nat = Some fb → fb = [[false; true]; [true; false]].
Proof.
  intros pool bins.
  destruct (BinarizeWithMap_correct pool [0; 1; 0] bins) as [Hok _].
  - done.
  - repeat constructor; lia.
  - assert (Rtrunc 0 = 0 ∧ Rtrunc 1 = 1) as [H0 H1].
    { unfold Rtrunc. rewrite !(proj2 (Rltb_false _ _)) by lra. split.
      - pose proof (Int_part_INR 0) as H0. exact H0.
      - pose proof (Int_part_INR 1) as H1. exact H1. }
    repeat constructor; cbn; by rewrite ?H0, ?H1.
  - destruct Hok as (s & fs & Hs & Hrep & _ & Hlast & Hf); [done|].
    exists s, fs. split; [done|]. split; [done|]. split; [done|].
    intros fb Hfb. by rewrite (Hf _ _ Hfb).
Defined.
