(* ===== verification/Grid.v ===== *)
(** * Borders of a feature: [library/grid_creator/binarization.h/.cpp]

    The binarizers that place borders at quantiles and at equal distances, and the
    interface [IBinarizer] all binarizers implement.  [float] is a type [F] with an
    arithmetic; the statements about the positions of borders are for exact
    arithmetic.

    [binarizer_ok] is what a binarizer promises to its clients: on a feature with
    values it returns a set of at most [bordersCount] borders, each of them between
    two values of the feature, and leaves a permutation of the values behind. *)
From Stdlib Require Import Reals Lra.
From S2P Require Import Prelude Arith XRange Algorithm HashTable HashMap.
Open Scope Z_scope.

(** ** Operations *)

Section Grid.
  Context {F : Type} `{Arith F}.
  (** [hash<float>] *)
  Variable hash : F → Z.

(** [Max(l, r)] and [Min(l, r)] *)
Definition f_max (l r : F) : F := if r ≺ l then l else r.
Definition f_min (l r : F) : F := if l ≺ r then l else r.

(** [Sort(begin, end)]; the values are not NaN. *)
Definition f_le (x y : F) : Prop := (y ≺ x) = false.
#[export] Instance f_le_dec x y : Decision (f_le x y).
Proof. unfold f_le. apply _. Defined.
Definition Sort (values : list F) : list F := merge_sort f_le values.

(** Border before element with value "border". *)
Definition RegularBorder (border : F) (sorted_values : list F) : outcome F :=
  lower_bound ← LowerBound a_ltb sorted_values border;
  if lower_bound =? vsize sorted_values then
    back ← vback sorted_values;
    Ret (f_max (a_lit 2 0 ⊠ back) (back ⊞ a_lit 1 0))
  else if lower_bound =? 0 then
    front ← vfront sorted_values;
    Ret (f_min (a_lit 5 (-1) ⊠ front) (a_lit 2 0 ⊠ front))
  else
    above ← vat sorted_values lower_bound;
    below ← vat sorted_values (lower_bound - 1);
    let res := (above ⊞ below) ⊠ a_lit 5 (-1) in
    Ret (if a_eqb res above then below else res).

(** [borders.insert(border)] *)
Definition add_border (borders : yhash_set F) (border : F) : outcome (yhash_set F) :=
  r ← yhash_set_insert hash a_eqb borders border; Ret r.1.

(** One pass of the loop of [GenerateMedianBorders]. *)
Definition median_border (feature_values : list F) (front : F) (borders_count : Z)
    (result : yhash_set F) (i : Z) : outcome (yhash_set F) :=
  let total := vsize feature_values in
  let i1 := u64 (u64 (i + 1) * total) / u64 (borders_count + 1) in
  let i1 := Z.min i1 (total - 1) in
  val1 ← vat feature_values i1;
  if a_eqb val1 front then Ret result
  else border ← RegularBorder val1 feature_values; add_border result border.

Definition GenerateMedianBorders (feature_values : list F) (borders_count : Z)
    : outcome (yhash_set F) :=
  if vsize feature_values =? 0 then Ret yhash_set_empty
  else
    front ← vfront feature_values;
    back ← vback feature_values;
    if a_eqb front back then Ret yhash_set_empty
    else mfold (median_border feature_values front borders_count) yhash_set_empty
           (xrange borders_count).

(** [featureValues.empty() || featureValues.front() == featureValues.back()] *)
Definition no_borders (feature_values : list F) : outcome bool :=
  if vsize feature_values =? 0 then Ret true
  else
    front ← vfront feature_values;
    back ← vback feature_values;
    Ret (a_eqb front back).

(** [minValue + (i + 1) * (maxValue - minValue) / (count + 1)] *)
Definition uniform_value (min_value max_value : F) (count i : Z) : F :=
  min_value ⊞ (a_ofZ (i + 1) ⊠ (max_value ⊟ min_value)) ⊘ a_ofZ (count + 1).

(** ** [IBinarizer] *)

(** [BestSplit(featureValues, bordersCount, isSorted)]: the vector it leaves and
    the borders. *)
Record IBinarizer : Type := {
  BestSplit : list F → Z → bool → outcome (list F * yhash_set F);
}.

(** [if (!isSorted) Sort(featureValues.begin(), featureValues.end())] *)
Definition ensure_sorted (feature_values : list F) (is_sorted : bool) : list F :=
  if is_sorted then feature_values else Sort feature_values.

Definition TMedianBinarizer : IBinarizer := {|
  BestSplit := λ feature_values borders_count is_sorted,
    let feature_values := ensure_sorted feature_values is_sorted in
    borders ← GenerateMedianBorders feature_values borders_count;
    Ret (feature_values, borders)
|}.

Definition TMedianPlusUniformBinarizer : IBinarizer := {|
  BestSplit := λ feature_values borders_count is_sorted,
    let feature_values := ensure_sorted feature_values is_sorted in
    none ← no_borders feature_values;
    if none : bool then Ret (feature_values, yhash_set_empty)
    else
      let half_borders := Z.quot borders_count 2 in
      borders ← GenerateMedianBorders feature_values (borders_count - half_borders);
      min_value ← vfront feature_values;
      max_value ← vback feature_values;
      borders ← mfold (λ borders i,
          let val := uniform_value min_value max_value half_borders i in
          border ← RegularBorder val feature_values;
          add_border borders border)
        borders (xrange half_borders);
      Ret (feature_values, borders)
|}.

Definition TUniformBinarizer : IBinarizer := {|
  BestSplit := λ feature_values borders_count is_sorted,
    let feature_values := ensure_sorted feature_values is_sorted in
    none ← no_borders feature_values;
    if none : bool then Ret (feature_values, yhash_set_empty)
    else
      min_value ← vfront feature_values;
      max_value ← vback feature_values;
      borders ← mfold (λ borders i,
          add_border borders (uniform_value min_value max_value borders_count i))
        yhash_set_empty (xrange borders_count);
      Ret (feature_values, borders)
|}.

End Grid.
Arguments IBinarizer : clear implicits.

(** ** Borders in exact arithmetic *)

(** A border between two values. *)
Definition separates (values : list R) (b : R) : Prop :=
  ∃ x y, x ∈ values ∧ y ∈ values ∧ (x <= b < y)%R.

(** What a binarizer promises. *)
Definition binarizer_ok (B : IBinarizer R) : Prop :=
  ∀ values borders_count is_sorted,
    values ≠ [] → 0 ≤ borders_count < 2 ^ 31 → vsize values < 2 ^ 31 →
    (is_sorted = true → StronglySorted Rle values) →
    ∃ values' borders,
      BestSplit B values borders_count is_sorted = Ret (values', borders) ∧
      values' ≡ₚ values ∧ StronglySorted Rle values' ∧
      num_elements borders = vsize (HashTable.elements borders) ∧
      num_elements borders ≤ borders_count ∧ NoDup (HashTable.elements borders) ∧
      ∀ b, b ∈ HashTable.elements borders → separates values b.

Section Exact.
  Context (hash : R → Z).

(** *** Sorted values *)

Lemma f_le_Rle (x y : R) : f_le x y ↔ (x <= y)%R.
Proof. unfold f_le. cbn. apply Rltb_false. Qed.

Lemma StronglySorted_f_le (l : list R) : StronglySorted f_le l ↔ StronglySorted Rle l.
Proof.
  split; induction 1 as [|x l Hs IH Hf]; constructor; try done;
    (eapply Forall_impl; [exact Hf|]; intros; by apply f_le_Rle).
Qed.

Lemma Sort_spec (l : list R) : Sort l ≡ₚ l ∧ StronglySorted Rle (Sort l).
Proof.
  split; [apply merge_sort_Permutation|]. apply StronglySorted_f_le.
  apply StronglySorted_merge_sort.
  - intros x y z. rewrite !f_le_Rle. lra.
  - intros x y. rewrite !f_le_Rle. lra.
Qed.

Lemma ensure_sorted_spec (l : list R) is_sorted :
  (is_sorted = true → StronglySorted Rle l) →
  ensure_sorted l is_sorted ≡ₚ l ∧ StronglySorted Rle (ensure_sorted l is_sorted).
Proof. intros Hl. destruct is_sorted; cbn; [auto|apply Sort_spec]. Qed.

Lemma sorted_le (l : list R) i j x y :
  StronglySorted Rle l → (i ≤ j)%nat → l !! i = Some x → l !! j = Some y → (x <= y)%R.
Proof.
  intros Hs. revert i j. induction Hs as [|z l Hs IH Hz]; intros i j Hij Hi Hj; [done|].
  destruct i as [|i], j as [|j]; cbn in *; simplify_eq; [lra| |lia|].
  - rewrite Forall_forall in Hz. apply Hz. by eapply list_elem_of_lookup_2.
  - eapply (IH i j); [lia|done|done].
Qed.

Lemma sorted_partitioned (l : list R) v :
  StronglySorted Rle l → partitioned (λ x, Rltb x v) l 0 (vsize l).
Proof.
  intros Hs i j x y Hij Hj Hx Hy. rewrite !Rltb_true.
  assert (x <= y)%R by (eapply (sorted_le l); [done| |done..]; lia). lra.
Qed.

(** *** One border *)

Lemma literal_half : real_literal 5 (-1) = (/ 2)%R.
Proof.
  unfold real_literal. change (0 <=? -1) with false. change (10 ^ - -1) with 10. lra.
Qed.

(** The border before [v], for a value above the first and not above the last. *)
Lemma RegularBorder_spec (l : list R) v x0 xn i j :
  StronglySorted Rle l → l !! i = Some x0 → l !! j = Some xn → (x0 < v <= xn)%R →
  ∃ b, RegularBorder v l = Ret b ∧ separates l b.
Proof.
  intros Hs Hi Hj Hv. unfold RegularBorder.
  destruct (LowerBound_correct a_ltb l v) as (p & Hp & Hrange & Hsplit);
    [by apply sorted_partitioned|].
  rewrite Hp, bind_Ret. cbn in Hsplit.
  assert (0 < p) as Hp0.
  { specialize (Hsplit (Z.of_nat i) x0). rewrite Nat2Z.id in Hsplit.
    pose proof (lookup_lt_Some _ _ _ Hi). unfold vsize in *.
    specialize (Hsplit ltac:(lia) Hi). rewrite (proj2 (Rltb_true x0 v)) in Hsplit by lra. lia. }
  assert (p < vsize l) as Hpn.
  { specialize (Hsplit (Z.of_nat j) xn). rewrite Nat2Z.id in Hsplit.
    pose proof (lookup_lt_Some _ _ _ Hj). unfold vsize in *.
    specialize (Hsplit ltac:(lia) Hj). rewrite (proj2 (Rltb_false xn v)) in Hsplit by lra. lia. }
  rewrite (proj2 (Z.eqb_neq p (vsize l))), (proj2 (Z.eqb_neq p 0)) by lia.
  destruct (vat_in_range l p) as (above & -> & Ha); [lia|].
  destruct (vat_in_range l (p - 1)) as (below & -> & Hb); [lia|]. rewrite !bind_Ret.
  pose proof (Hsplit p above ltac:(lia) Ha) as Hva.
  pose proof (Hsplit (p - 1) below ltac:(lia) Hb) as Hvb.
  rewrite Z.ltb_irrefl in Hva. apply Rltb_false in Hva.
  rewrite (proj2 (Z.ltb_lt _ _)) in Hvb by lia. apply Rltb_true in Hvb.
  eexists. split; [done|]. exists below, above.
  split; [by eapply list_elem_of_lookup_2|]. split; [by eapply list_elem_of_lookup_2|].
  cbn -[real_literal]. rewrite literal_half.
  unfold Reqb. destruct (Req_dec_T _ _); lra.
Qed.

(** *** Sets of borders *)

Definition border_set (values : list R) (n : Z) (s : yhash_set R) : Prop :=
  wf Datatypes.id hash s ∧ vsize (HashTable.elements s) ≤ n ∧ NoDup (HashTable.elements s) ∧
  ∀ b, b ∈ HashTable.elements s → separates values b.

Lemma border_set_empty values n : 0 ≤ n → border_set values n yhash_set_empty.
Proof.
  intros Hn. split; [|split; [done|split; [constructor|]]].
  - split; [done|]. split; [|done]. intros i c v Hc Hv. destruct i; [|done].
    injection Hc as <-. by apply not_elem_of_nil in Hv.
  - intros b Hb. by apply not_elem_of_nil in Hb.
Qed.

Lemma add_border_spec values n s b :
  border_set values n s → separates values b →
  ∃ s', add_border hash s b = Ret s' ∧ border_set values (n + 1) s'.
Proof.
  intros (Hwf & Hn & Hd & Hall) Hb. unfold add_border, yhash_set_insert.
  destruct (insert_unique_spec Datatypes.id hash a_eqb) with (h := s) (obj := b)
    as (s' & r & -> & Hwf' & _ & Hcase).
  { intros x y. cbn. rewrite Reqb_true. by intros ->. }
  { done. }
  rewrite bind_Ret. exists s'. split; [done|]. split; [done|].
  destruct Hcase as [(_ & Hk & Hp)|(_ & _ & Hp)]; rewrite Hp.
  - rewrite vsize_cons. split; [lia|]. split.
    + constructor; [|done]. intros Hin. apply Hk. exists b. split; [done|]. by apply Reqb_true.
    + intros x. rewrite Hp, elem_of_cons. intros [->|]; auto.
  - split; [lia|]. split; [done|]. intros x. rewrite Hp. auto.
Qed.

(** A loop that adds at most one border in each pass. *)
Lemma border_loop_list {A} values n (l : list A) (f : yhash_set R → A → outcome (yhash_set R)) s :
  (∀ s i, i ∈ l → f s i = Ret s ∨ ∃ b, separates values b ∧ f s i = add_border hash s b) →
  border_set values n s →
  ∃ s', mfold f s l = Ret s' ∧ border_set values (n + vsize l) s'.
Proof.
  intros Hf Hs.
  apply (mfold_inv (λ (pre : list A) s, border_set values (n + vsize pre) s) f l s).
  - by rewrite vsize_nil, Z.add_0_r.
  - intros pre i rest s1 Hl Hs1. rewrite vsize_snoc, Z.add_assoc.
    destruct (Hf s1 i) as [->|(b & Hb & ->)]; [set_solver| |by apply add_border_spec].
    exists s1. split; [done|]. destruct Hs1 as (? & ? & ?). split; [done|]. split; [lia|done].
Qed.

Lemma border_loop values n count (f : yhash_set R → Z → outcome (yhash_set R)) s :
  0 ≤ count →
  (∀ s i, 0 ≤ i < count → f s i = Ret s ∨ ∃ b, separates values b ∧ f s i = add_border hash s b) →
  border_set values n s →
  ∃ s', mfold f s (xrange count) = Ret s' ∧ border_set values (n + count) s'.
Proof.
  intros Hc Hf Hs. pose proof (border_loop_list values n (xrange count) f s) as Hl.
  rewrite vsize_xrange in Hl by done. apply Hl; [|done].
  intros s1 i Hi%elem_of_xrange. auto.
Qed.

(** *** The binarizers *)

Lemma front_back (l : list R) :
  l ≠ [] → ∃ front back, vfront l = Ret front ∧ vback l = Ret back ∧
    l !! 0%nat = Some front ∧ l !! (length l - 1)%nat = Some back.
Proof.
  intros Hl. destruct l as [|x l]; [done|]. exists x.
  assert (is_Some (list.last (x :: l))) as [back Hb] by (by apply last_is_Some).
  exists back. split; [done|]. split; [unfold vback; by rewrite Hb|]. split; [done|].
  rewrite last_lookup in Hb. rewrite <- Hb. f_equal. lia.
Qed.

Lemma separates_perm l l' b : l ≡ₚ l' → separates l b → separates l' b.
Proof. intros Hp (x & y & Hx & Hy & Hb). exists x, y. by rewrite <- Hp. Qed.

Lemma no_borders_spec (l : list R) :
  l ≠ [] → StronglySorted Rle l →
  ∃ front back none, no_borders l = Ret none ∧ vfront l = Ret front ∧ vback l = Ret back ∧
    l !! 0%nat = Some front ∧ l !! (length l - 1)%nat = Some back ∧
    if none : bool then front = back else (front < back)%R.
Proof.
  intros Hl Hs. destruct (front_back l Hl) as (front & back & Hf & Hb & Hf0 & Hb0).
  exists front, back, (Reqb front back). unfold no_borders.
  pose proof (vsize_pos l Hl). rewrite (proj2 (Z.eqb_neq _ _)) by lia.
  rewrite Hf, bind_Ret, Hb, bind_Ret. do 5 (split; [done|]).
  assert (front <= back)%R by (eapply (sorted_le l 0); [done|lia|done|done]).
  unfold Reqb. destruct (Req_dec_T front back); lra.
Qed.

Lemma GenerateMedianBorders_spec (l : list R) count :
  l ≠ [] → StronglySorted Rle l → 0 ≤ count < 2 ^ 31 → vsize l < 2 ^ 31 →
  ∃ s, GenerateMedianBorders hash l count = Ret s ∧ border_set l count s.
Proof.
  intros Hl Hs Hc Hn. unfold GenerateMedianBorders.
  destruct (no_borders_spec l Hl Hs) as (front & back & none & Hnone & Hf & Hb & Hf0 & Hb0 & Hfb).
  unfold no_borders in Hnone. pose proof (vsize_pos l Hl).
  rewrite (proj2 (Z.eqb_neq _ _)) in * by lia. rewrite Hf, bind_Ret, Hb, bind_Ret in *.
  assert (a_eqb front back = none) as -> by (by injection Hnone). destruct none.
  { exists yhash_set_empty. split; [done|]. apply border_set_empty. lia. }
  apply (border_loop l 0 count); [lia| |by apply border_set_empty].
  intros s i Hi. unfold median_border. cbv zeta.
  set (k := Z.min _ _).
  assert (0 ≤ k < vsize l) as Hk.
  { subst k. split; [|lia]. apply Z.min_glb; [|lia]. apply Z.div_pos; [apply u64_range|].
    rewrite u64_small by lia. lia. }
  destruct (vat_in_range l k) as (val1 & -> & Hv); [done|]. rewrite bind_Ret.
  cbn [a_eqb real_arith]. unfold Reqb.
  destruct (Req_dec_T val1 front) as [|Hne]; [by left|right].
  assert (front <= val1)%R by (eapply (sorted_le l 0); [done|lia|done|done]).
  destruct (RegularBorder_spec l val1 front val1 0 (Z.to_nat k)) as (b & -> & Hsep);
    [done|done|done|lra|]. exists b. split; [done|]. by rewrite bind_Ret.
Qed.

Lemma uniform_value_between (mn mx : R) count i :
  (mn < mx)%R → 0 ≤ i < count → (mn < uniform_value mn mx count i < mx)%R.
Proof.
  intros Hm Hi. unfold uniform_value. cbn.
  assert (0 < IZR (i + 1) < IZR (count + 1))%R as [H0 H1] by (split; apply IZR_lt; lia).
  assert (IZR (i + 1) * (mx - mn) / IZR (count + 1) =
          (mx - mn) * (IZR (i + 1) / IZR (count + 1)))%R as -> by (field; lra).
  assert (0 < IZR (i + 1) / IZR (count + 1) < 1)%R.
  { split; [apply Rdiv_lt_0_compat; lra|]. apply (Rmult_lt_reg_r (IZR (count + 1))); [lra|].
    unfold Rdiv. rewrite Rmult_assoc, Rinv_l by lra. lra. }
  nra.
Qed.

(** Finish a binarizer from the set it computes on the sorted values. *)
Lemma binarizer_ok_intro (B : IBinarizer R) (f : list R → Z → outcome (yhash_set R)) :
  (∀ values count is_sorted, BestSplit B values count is_sorted =
     (borders ← f (ensure_sorted values is_sorted) count;
      Ret (ensure_sorted values is_sorted, borders))) →
  (∀ values count, values ≠ [] → StronglySorted Rle values → 0 ≤ count < 2 ^ 31 →
     vsize values < 2 ^ 31 → ∃ s, f values count = Ret s ∧ border_set values count s) →
  binarizer_ok B.
Proof.
  intros HB Hf values count is_sorted Hne Hc Hn Hs.
  destruct (ensure_sorted_spec values is_sorted Hs) as [Hp Hsorted].
  destruct (Hf (ensure_sorted values is_sorted) count)
    as (s & Hr & (_ & _ & Hnum) & Hsize & Hd & Hall); [|done|done| |].
  { intros Hnil. rewrite Hnil in Hp. by apply Permutation_nil in Hp. }
  { by rewrite (vsize_Permutation _ _ Hp). }
  rewrite HB, Hr, bind_Ret. eexists _, s. split; [done|]. split; [done|]. split; [done|].
  split; [done|]. split; [by rewrite Hnum|]. split; [done|]. intros b Hb.
  eapply separates_perm; [exact Hp|]. auto.
Qed.

Lemma TMedianBinarizer_ok : binarizer_ok (TMedianBinarizer hash).
Proof.
  apply (binarizer_ok_intro _ (GenerateMedianBorders hash)); [done|].
  intros. by apply GenerateMedianBorders_spec.
Qed.

Lemma TUniformBinarizer_ok : binarizer_ok (TUniformBinarizer hash).
Proof.
  apply (binarizer_ok_intro _ (λ l count, none ← no_borders l;
    if none : bool then Ret yhash_set_empty
    else min_value ← vfront l; max_value ← vback l;
      mfold (λ borders i, add_border hash borders (uniform_value min_value max_value count i))
        yhash_set_empty (xrange count))).
  - intros l count b. cbn. destruct (no_borders _) as [[]|]; cbn; [done| |done].
    destruct (vfront _); cbn; [|done]. by destruct (vback _).
  - intros l count Hl Hs Hc _.
    destruct (no_borders_spec l Hl Hs) as (front & back & none & -> & -> & -> & Hf0 & Hb0 & Hfb).
    rewrite ?bind_Ret. destruct none.
    { exists yhash_set_empty. split; [done|]. apply border_set_empty. lia. }
    rewrite ?bind_Ret. apply (border_loop l 0 count); [lia| |by apply border_set_empty].
    intros s i Hi. right. exists (uniform_value front back count i). split; [|done].
    exists front, back. do 2 (split; [by eapply list_elem_of_lookup_2|]).
    pose proof (uniform_value_between front back count i Hfb Hi). lra.
Qed.

Lemma TMedianPlusUniformBinarizer_ok : binarizer_ok (TMedianPlusUniformBinarizer hash).
Proof.
  apply (binarizer_ok_intro _ (λ l count, none ← no_borders l;
    if none : bool then Ret yhash_set_empty
    else borders ← GenerateMedianBorders hash l (count - Z.quot count 2);
      min_value ← vfront l; max_value ← vback l;
      mfold (λ borders i,
          border ← RegularBorder (uniform_value min_value max_value (Z.quot count 2) i) l;
          add_border hash borders border)
        borders (xrange (Z.quot count 2)))).
  - intros l count b. cbn. destruct (no_borders _) as [[]|]; cbn; [done| |done].
    destruct (GenerateMedianBorders _ _ _); cbn; [|done].
    destruct (vfront _); cbn; [|done]. by destruct (vback _).
  - intros l count Hl Hs Hc Hn.
    destruct (no_borders_spec l Hl Hs) as (front & back & none & -> & -> & -> & Hf0 & Hb0 & Hfb).
    rewrite ?bind_Ret. destruct none.
    { exists yhash_set_empty. split; [done|]. apply border_set_empty. lia. }
    rewrite Z.quot_div_nonneg by lia.
    assert (0 ≤ count / 2 ≤ count) by (split; [apply Z.div_pos; lia|apply Z.div_le_upper_bound; lia]).
    destruct (GenerateMedianBorders_spec l (count - count / 2)) as (s & -> & Hset); [done|done|lia|done|].
    rewrite ?bind_Ret.
    destruct (border_loop l (count - count / 2) (count / 2)
      (λ borders i, border ← RegularBorder (uniform_value front back (count / 2) i) l;
         add_border hash borders border) s) as (s' & -> & Hs'); [lia| |done|].
    + intros s1 i Hi. right. pose proof (uniform_value_between front back (count / 2) i Hfb Hi).
      destruct (RegularBorder_spec l (uniform_value front back (count / 2) i) front back 0 (length l - 1))
        as (b & -> & Hsep); [done|done|done|lra|]. exists b. by rewrite bind_Ret.
    + exists s'. split; [done|]. by replace (count - count / 2 + count / 2) with count in Hs' by lia.
Qed.

End Exact.
