(* ===== verification/MedianInBin.v ===== *)
(** * Greedy median splits: [library/grid_creator/median_in_bin_binarization.cpp]

    A bin is a range of positions of the sorted values with the best position to
    split it at.  The binarizer splits the bin with the largest score until it has
    a bin for every border or the best bin cannot be split.

    The queue is a list of bins.  [std::priority_queue] leaves open which of the
    bins with the largest score is its top, so the choice is a parameter [pick]; the
    theorems hold for every choice that [pick_top] allows. *)
From Stdlib Require Import Reals Lra.
From S2P Require Import Prelude Arith XRange Algorithm HashTable HashMap Grid.
Open Scope Z_scope.

(** ** [TFeatureBin] *)

(** The range and its best split; the vector of features is an argument of the
    operations. *)
Record TFeatureBin {D : Type} : Type := {
  BinStart : Z;
  BinEnd : Z;
  BestSplit : Z;
  BestScore : D;
}.
Arguments TFeatureBin : clear implicits.

Section MedianInBin.
  Context {F D : Type} `{HF : Arith F} `{HD : Arith D}.
  (** [hash<float>] *)
  Variable hash : F → Z.
  (** The position of the top of the queue. *)
  Variable pick : list (TFeatureBin D) → nat.

(** [log((double)(split - start)) + log((double)(end - split))] unless the split is
    at the end [border] of the range. *)
Definition split_score (start finish split border : Z) : D :=
  if split =? border then a_ofZ 0
  else a_log (a_ofZ (split - start)) ⊞ a_log (a_ofZ (finish - split)).

(** [UpdateBestSplitProperties] *)
Definition UpdateBestSplitProperties (features : list F) (start finish : Z)
    : outcome (TFeatureBin D) :=
  let mid := (start + finish) / 2 in
  mid_value ← vat features mid;
  lb ← LowerBound_in a_ltb features start mid mid_value;
  up ← UpperBound_in a_ltb features mid finish mid_value;
  let score_left := split_score start finish lb start in
  let score_right := split_score start finish up finish in
  let best_split := if (score_right ≺ score_left) || a_eqb score_left score_right
                    then lb else up in
  let best_score := if best_split =? lb then score_left else score_right in
  Ret {| BinStart := start; BinEnd := finish; BestSplit := best_split; BestScore := best_score |}.

(** The constructor. *)
Definition feature_bin (features : list F) (start finish : Z) : outcome (TFeatureBin D) :=
  UpdateBestSplitProperties features start finish.

Definition CanSplit (b : TFeatureBin D) : bool :=
  negb (BinStart b =? BestSplit b) && negb (BinEnd b =? BestSplit b).

(** [Split()]: the left part and the bin itself, which becomes the right part. *)
Definition Split (features : list F) (b : TFeatureBin D)
    : outcome (TFeatureBin D * TFeatureBin D) :=
  _ ← ensure (CanSplit b) ECannotSplit;
  left ← feature_bin features (BinStart b) (BestSplit b);
  right ← UpdateBestSplitProperties features (BestSplit b) (BinEnd b);
  Ret (left, right).

Definition Border (features : list F) (b : TFeatureBin D) : outcome F :=
  last_value ← vat features (BinEnd b - 1);
  next_value ← (if BinEnd b <? vsize features then vat features (BinEnd b)
                else vat features (BinEnd b - 1));
  Ret (a_lit 5 (-1) ⊠ last_value ⊞ a_lit 5 (-1) ⊠ next_value).

Definition IsLast (features : list F) (b : TFeatureBin D) : bool :=
  BinEnd b =? vsize features.

(** ** The queue *)

(** [splits.top()] and the queue after [splits.pop()]. *)
Definition top (splits : list (TFeatureBin D)) : outcome (TFeatureBin D) :=
  match splits !! pick splits with Some b => Ret b | None => Fail (Undef UDeref) end.
Definition pop (splits : list (TFeatureBin D)) : list (TFeatureBin D) :=
  delete (pick splits) splits.

(** [while (splits.size() <= bordersCount && splits.top().CanSplit())]: every pass
    adds a bin. *)
Fixpoint split_loop (features : list F) (borders_count : Z) (fuel : nat)
    (splits : list (TFeatureBin D)) : outcome (list (TFeatureBin D)) :=
  if borders_count <? vsize splits then Ret splits
  else
    b ← top splits;
    if negb (CanSplit b) then Ret splits
    else match fuel with
         | O => Ret splits
         | S fuel =>
             p ← Split features b;
             split_loop features borders_count fuel (pop splits ++ [p.1; p.2])
         end.

(** [while (splits.size())] *)
Fixpoint drain_loop (features : list F) (fuel : nat) (splits : list (TFeatureBin D))
    (borders : yhash_set F) : outcome (yhash_set F) :=
  match fuel with
  | O => Ret borders
  | S fuel =>
      if vsize splits =? 0 then Ret borders
      else
        b ← top splits;
        borders ← (if IsLast features b then Ret borders
                   else border ← Border features b; add_border hash borders border);
        drain_loop features fuel (pop splits) borders
  end.

Definition TMedianInBinBinarizer : IBinarizer F := {|
  Grid.BestSplit := λ feature_values borders_count is_sorted,
    let feature_values := ensure_sorted feature_values is_sorted in
    all ← feature_bin feature_values 0 (vsize feature_values);
    splits ← split_loop feature_values borders_count (Z.to_nat borders_count) [all];
    borders ← drain_loop feature_values (length splits) splits yhash_set_empty;
    Ret (feature_values, borders)
|}.

End MedianInBin.

(** ** Bins of sorted values *)

(** [std::priority_queue::top()]: an element that no other exceeds. *)
Definition pick_top {D} `{Arith D} (pick : list (TFeatureBin D) → nat) : Prop :=
  ∀ splits, splits ≠ [] → ∃ b, splits !! pick splits = Some b ∧
    ∀ b', b' ∈ splits → (BestScore b ≺ BestScore b') = false.

Section Exact.
  Context {D : Type} `{HD : Arith D} (hash : R → Z) (pick : list (TFeatureBin D) → nat).
  Hypothesis Hpick : pick_top pick.
  Context (values : list R) (Hsorted : StronglySorted Rle values).

Local Abbreviation n := (vsize values).

(** A position where the values grow. *)
Definition cut (p : Z) : Prop :=
  0 < p < n ∧ ∀ x y, values !! Z.to_nat (p - 1) = Some x → values !! Z.to_nat p = Some y → (x < y)%R.

(** A non-empty range that ends where the values grow or with them, whose split, if
    inside, is at such a position. *)
Definition good_bin (b : TFeatureBin D) : Prop :=
  0 ≤ BinStart b < BinEnd b ∧ BinEnd b ≤ n ∧ (BinEnd b = n ∨ cut (BinEnd b)) ∧
  BinStart b ≤ BestSplit b ≤ BinEnd b ∧
  (BinStart b < BestSplit b < BinEnd b → cut (BestSplit b)).

Lemma UpdateBestSplit_spec start finish :
  0 ≤ start < finish → finish ≤ n → finish = n ∨ cut finish →
  ∃ b, UpdateBestSplitProperties values start finish = Ret b ∧ good_bin b ∧
    BinStart b = start ∧ BinEnd b = finish.
Proof.
  intros Hs Hf Hcut. unfold UpdateBestSplitProperties.
  set (mid := (start + finish) / 2).
  assert (start ≤ mid < finish) as Hmid.
  { subst mid. split; [apply Z.div_le_lower_bound; lia|apply Z.div_lt_upper_bound; lia]. }
  destruct (vat_in_range values mid) as (v & -> & Hv); [lia|]. rewrite bind_Ret.
  unfold LowerBound_in, UpperBound_in.
  pose proof (bound_loop_spec (λ x, Rltb x v) values (Z.to_nat (mid - start)) start (mid - start)) as Hlb.
  replace (start + (mid - start)) with mid in Hlb by lia.
  destruct Hlb as (lb & Hlb & Hlr & Hls); [lia|lia|lia| |].
  { intros i j x y ??. apply (sorted_partitioned values v Hsorted); lia. }
  pose proof (bound_loop_spec (λ x, negb (Rltb v x)) values (Z.to_nat (finish - mid)) mid (finish - mid)) as Hup.
  replace (mid + (finish - mid)) with finish in Hup by lia.
  destruct Hup as (up & Hup & Hur & Hus); [lia|lia|lia| |].
  { intros i j x y ?? Hx Hy. rewrite !negb_true_iff, !Rltb_false.
    assert (x <= y)%R by (eapply (sorted_le values); [done| |done..]; lia). lra. }
  cbn [a_ltb real_arith]. rewrite Hlb, bind_Ret, Hup, bind_Ret.
  eexists. split; [reflexivity|]. unfold good_bin; cbn [BinStart BinEnd BestSplit].
  set (c := orb _ _). split; [|done]. split; [done|]. split; [done|]. split; [done|].
  split; [destruct c; lia|]. intros Hin. split; [destruct c; lia|]. intros x y Hx Hy.
  destruct c.
  - pose proof (Hls (lb - 1) x ltac:(lia) Hx) as Hxv. rewrite (proj2 (Z.ltb_lt _ _)) in Hxv by lia.
    apply Rltb_true in Hxv. destruct (decide (lb = mid)) as [->|].
    + rewrite Hv in Hy. by injection Hy as <-.
    + pose proof (Hls lb y ltac:(lia) Hy) as Hyv. rewrite Z.ltb_irrefl in Hyv.
      apply Rltb_false in Hyv. lra.
  - pose proof (Hus up y ltac:(lia) Hy) as Hyv. rewrite Z.ltb_irrefl in Hyv.
    apply negb_false_iff, Rltb_true in Hyv.
    assert (mid < up) as Hmu.
    { pose proof (Hus mid v ltac:(lia) Hv) as Hvv.
      rewrite (proj2 (Rltb_false v v)) in Hvv by lra. cbn in Hvv. lia. }
    pose proof (Hus (up - 1) x ltac:(lia) Hx) as Hxv. rewrite (proj2 (Z.ltb_lt _ _)) in Hxv by lia.
    apply negb_true_iff, Rltb_false in Hxv. lra.
Qed.

Lemma Split_spec b :
  good_bin b → CanSplit b = true →
  ∃ l r, Split values b = Ret (l, r) ∧ good_bin l ∧ good_bin r ∧ BinEnd r = BinEnd b ∧
    BinEnd l < n.
Proof.
  intros (Hs & Hf & Hcut & Hb & Hin) Hcan. unfold Split. rewrite Hcan. cbn [ensure].
  rewrite bind_Ret. unfold CanSplit in Hcan.
  apply andb_prop in Hcan as [H1%negb_true_iff%Z.eqb_neq H2%negb_true_iff%Z.eqb_neq].
  destruct (UpdateBestSplit_spec (BinStart b) (BestSplit b)) as (l & Hl & Hgl & _ & Hel);
    [lia|lia|right; apply Hin; lia|].
  destruct (UpdateBestSplit_spec (BestSplit b) (BinEnd b)) as (r & Hr & Hgr & _ & Her);
    [lia|lia|done|].
  unfold feature_bin. rewrite Hl, bind_Ret, Hr, bind_Ret. exists l, r.
  split; [done|]. split; [done|]. split; [done|]. split; [done|]. lia.
Qed.

(** ** The loops *)

Lemma top_pop splits :
  splits ≠ [] → ∃ b, top pick splits = Ret b ∧ splits ≡ₚ b :: pop pick splits.
Proof.
  intros Hne. destruct (Hpick splits Hne) as (b & Hb & _). exists b.
  unfold top, pop. rewrite Hb. split; [done|]. by apply delete_Permutation.
Qed.

(** The bins that are not last. *)
Definition inner_bins (splits : list (TFeatureBin D)) : Z :=
  vsize (filter (λ b, IsLast values b = false) splits).

Lemma inner_bins_cons b splits :
  inner_bins (b :: splits) = (if IsLast values b then 0 else 1) + inner_bins splits.
Proof.
  unfold inner_bins. rewrite filter_cons.
  destruct (IsLast values b); case_decide; try done. by rewrite vsize_cons.
Qed.

Lemma inner_bins_perm l k : l ≡ₚ k → inner_bins l = inner_bins k.
Proof. intros Hp. unfold inner_bins. apply vsize_Permutation. by rewrite Hp. Qed.

Definition good_queue (count : Z) (splits : list (TFeatureBin D)) : Prop :=
  Forall good_bin splits ∧ vsize splits ≤ count + 1 ∧ inner_bins splits < vsize splits.

Lemma good_queue_perm count l k : l ≡ₚ k → good_queue count l → good_queue count k.
Proof.
  intros Hp (Hg & Hn & Hi). split; [by rewrite <- Hp|].
  by rewrite <- (vsize_Permutation _ _ Hp), <- (inner_bins_perm _ _ Hp).
Qed.

Lemma split_loop_spec count fuel splits :
  good_queue count splits → splits ≠ [] → count + 1 - vsize splits ≤ Z.of_nat fuel →
  ∃ splits', split_loop pick values count fuel splits = Ret splits' ∧
    good_queue count splits' ∧
    (count < vsize splits' ∨ ∃ b, top pick splits' = Ret b ∧ CanSplit b = false).
Proof.
  revert splits. induction fuel as [|fuel IH]; intros splits Hq Hne Hfuel; cbn [split_loop].
  - rewrite (proj2 (Z.ltb_lt _ _)) by lia. exists splits. split; [done|]. split; [done|]. left. lia.
  - destruct (Z.ltb_spec count (vsize splits)).
    { exists splits. split; [done|]. split; [done|]. by left. }
    destruct (top_pop splits Hne) as (b & Hb & Hp). rewrite Hb, bind_Ret.
    destruct (CanSplit b) eqn:Hcan; cbn [negb].
    2:{ exists splits. split; [done|]. split; [done|]. right. eauto. }
    apply (good_queue_perm _ _ _ Hp) in Hq as (Hg & Hn & Hi).
    apply Forall_cons in Hg as [Hgb Hg].
    destruct (Split_spec b Hgb Hcan) as (l & r & -> & Hgl & Hgr & Her & Hel). rewrite bind_Ret.
    rewrite (vsize_Permutation _ _ Hp) in *. rewrite vsize_cons, inner_bins_cons in *.
    apply IH.
    + eapply good_queue_perm; [apply Permutation_app_comm|]. cbn [fst snd app].
      split; [by apply Forall_cons; split; [|apply Forall_cons]|].
      rewrite !vsize_cons, !inner_bins_cons. unfold IsLast in *. rewrite Her in *.
      rewrite (proj2 (Z.eqb_neq (BinEnd l) n)) by lia.
      destruct (_ =? _); lia.
    + by destruct (pop pick splits).
    + rewrite vsize_app. rewrite !vsize_cons, vsize_nil. lia.
Qed.

Lemma Border_separates b :
  good_bin b → IsLast values b = false → ∃ border, Border values b = Ret border ∧ separates values border.
Proof.
  intros (Hs & Hf & Hcut & _) Hlast%Z.eqb_neq. destruct Hcut as [|[Hr Hcut]]; [done|].
  unfold Border. destruct (vat_in_range values (BinEnd b - 1)) as (x & -> & Hx); [lia|].
  rewrite bind_Ret, (proj2 (Z.ltb_lt _ _)) by lia.
  destruct (vat_in_range values (BinEnd b)) as (y & -> & Hy); [lia|]. rewrite bind_Ret.
  eexists. split; [reflexivity|]. exists x, y.
  split; [by eapply list_elem_of_lookup_2|]. split; [by eapply list_elem_of_lookup_2|].
  specialize (Hcut x y Hx Hy). cbn -[real_literal]. rewrite literal_half. lra.
Qed.

Lemma drain_loop_spec fuel splits k borders :
  Forall good_bin splits → length splits = fuel → border_set hash values k borders →
  ∃ borders', drain_loop hash pick values fuel splits borders = Ret borders' ∧
    border_set hash values (k + inner_bins splits) borders'.
Proof.
  revert splits k borders. induction fuel as [|fuel IH]; intros splits k borders Hg Hlen Hset;
    cbn [drain_loop].
  { apply nil_length_inv in Hlen as ->. exists borders. split; [done|].
    by rewrite Z.add_0_r. }
  assert (splits ≠ []) as Hne by (by intros ->).
  pose proof (vsize_pos splits Hne). rewrite (proj2 (Z.eqb_neq _ _)) by lia.
  destruct (top_pop splits Hne) as (b & Hb & Hp). rewrite Hb, bind_Ret.
  rewrite (inner_bins_perm _ _ Hp), inner_bins_cons.
  rewrite Hp in Hg. apply Forall_cons in Hg as [Hgb Hg].
  assert (length (pop pick splits) = fuel) as Hpop.
  { apply Permutation_length in Hp. cbn in Hp. lia. }
  destruct (IsLast values b) eqn:Hlast.
  - rewrite bind_Ret. apply IH; [done|done|]. by rewrite ?Z.add_0_l.
  - destruct (Border_separates b Hgb Hlast) as (border & -> & Hsep). rewrite bind_Ret.
    destruct (add_border_spec hash values k borders border Hset Hsep) as (s' & -> & Hs').
    rewrite bind_Ret. rewrite Z.add_assoc. by apply IH.
Qed.

End Exact.

Lemma TMedianInBinBinarizer_ok {D} `{Arith D} (hash : R → Z) (pick : list (TFeatureBin D) → nat) :
  pick_top pick → binarizer_ok (TMedianInBinBinarizer hash pick).
Proof.
  intros Hpick. apply (binarizer_ok_intro hash _ (λ l count,
    all ← feature_bin l 0 (vsize l);
    splits ← split_loop pick l count (Z.to_nat count) [all];
    drain_loop hash pick l (length splits) splits yhash_set_empty)).
  - intros l count b. cbn. destruct (feature_bin _ _ _); cbn; [|done].
    by destruct (split_loop _ _ _ _ _).
  - intros l count Hl Hs Hc Hn. pose proof (vsize_pos l Hl).
    destruct (UpdateBestSplit_spec (D := D) l Hs 0 (vsize l)) as (b & Hb & Hg & _ & Hend);
      [lia|lia|by left|].
    unfold feature_bin. rewrite Hb, bind_Ret.
    destruct (split_loop_spec pick Hpick l Hs count (Z.to_nat count) [b])
      as (splits & Hr & (Hgs & Hn' & Hi) & _).
    { split; [by apply Forall_singleton|]. rewrite inner_bins_cons, vsize_cons, vsize_nil.
      unfold IsLast. rewrite Hend, Z.eqb_refl. change (inner_bins l []) with 0. lia. }
    { done. } { rewrite vsize_cons, vsize_nil. lia. }
    rewrite Hr, bind_Ret.
    destruct (drain_loop_spec hash pick Hpick l (length splits) splits 0 yhash_set_empty)
      as (s & Hd & Hset); [done|done|by apply border_set_empty|].
    exists s. split; [done|]. destruct Hset as (Hwf & Hsz & Hrest).
    split; [done|]. split; [lia|done].
Qed.
