(* ===== verification/OptimalSplit.v ===== *)
(** * Optimal splits: the dynamic programming of [library/grid_creator/binarization.cpp]

    [BestSplit] on weights divides a sequence of weights into [bordersCount + 1]
    consecutive bins.  Layer [l] of the dynamic programming holds, for each [j], the
    smallest error of [l + 2] bins that end at position [l + j + 1] (or [j] in the
    two base modes) and where the last of them starts.  A mode is a way to compute a
    layer; the program uses [E_RLM2].

    The theorems on this file hold for every arithmetic, so they cover rounding, the
    tolerance [Eps] and the NaNs a penalty may produce: no mode leaves its arrays,
    every loop ends within the fuel given, and the thresholds are positions of the
    weights. *)
From Stdlib Require Import SpecFloat.
From S2P Require Import Prelude Arith XRange.

(** ** Modes and penalties *)

Inductive ESF : Type :=
| E_Base        (** Base dp solution *)
| E_Old_Linear  (** First linear dp version *)
| E_Base2       (** Full dp solution with at least one value in each bin *)
| E_Linear      (** Similar to E_Old_Linear *)
| E_Linear_2L   (** Run 2 loops and choose best one *)
| E_Safe        (** Correct solution in good time *)
| E_RLM         (** Recursive linear model *)
| E_RLM2        (** Almost always O(wsize * bins) time *)
| E_DaC         (** Guaranteed O(wsize * log(wsize) * bins) time *)
| E_SF_End.
#[export] Instance ESF_eq_dec : EqDecision ESF.
Proof. solve_decision. Defined.

Inductive EPenaltyType : Type := MinEntropy | MaxSumLog | W2.

Section OptimalSplit.
  Context {W D : Type} `{HW : Arith W} `{HD : Arith D} `{HC : Conv W D}.

Definition Penalty (weight expected_weight : D) (type : EPenaltyType) : D :=
  match type with
  | MinEntropy => weight ⊠ a_log (weight ⊞ a_lit 1 (-8))
  | MaxSumLog => a_opp (a_log (weight ⊞ a_lit 1 (-8)))
  | W2 => weight ⊠ weight
  end.

Definition Eps : D := a_lit 1 (-12).

(** [x <= y] *)
Definition d_le (x y : D) : bool := (x ≺ y) || a_eqb x y.

(** ** One layer *)

Section Layer.
  Context (type : EPenaltyType) (expected : D) (sweights : list W) (dsize : Z)
          (prevError : list D) (l : Z).

(** The error of ending at [to] a bin that starts after [from], behind the best
    solution [i] of the previous layer. *)
Definition step_error (i to from : Z) : outcome D :=
  prev ← vat prevError i;
  a ← vat sweights to;
  b ← vat sweights from;
  Ret (prev ⊞ Penalty (widen (a ⊟ b)) expected type).

(** [prevError[i] + Penalty(double(sweights[j] - sweights[i]), expected, type)] *)
Definition base_error (j i : Z) : outcome D := step_error i j i.
(** [prevError[i] + Penalty(double(sweights[l + j + 1] - sweights[l + i]), ...)] *)
Definition new_error (j i : Z) : outcome D := step_error i (l + j + 1) (l + i).
(** The same with both indexes counted from the end. *)
Definition inverted_error (j i : Z) : outcome D := new_error (dsize - j - 1) (dsize - i - 1).

(** [for (i = from; i < to; ++i)], keeping the better error and its index. *)
Definition scan (better : D → D → bool) (err : Z → outcome D) (from to : Z) (best : D * Z)
    : outcome (D * Z) :=
  mfold (λ best i, e ← err i; Ret (if better e best.1 then (e, i) else best))
    best (xrange2 from to).

(** Fill a row of solutions and errors cell by cell. *)
Definition fill_row (cell : Z → outcome (D * Z)) : outcome (list Z * list D) :=
  cells ← Prelude.mmap cell (xrange dsize); Ret (map snd cells, map fst cells).

(** [E_Base] and [E_Base2] *)
Definition full_row (err : Z → Z → outcome D) : outcome (list Z * list D) :=
  fill_row (λ j, e ← err j 0; scan d_le (err j) 1 (j + 1) (e, 0)).

(** [for (; i < limit; ++i)] until the error grows by more than [Eps]. *)
Fixpoint slide (err : Z → outcome D) (fuel : nat) (i limit : Z) (best : D) : outcome (Z * D) :=
  if limit <=? i then Ret (i, best)
  else match fuel with
       | O => Ret (i, best)
       | S fuel =>
           e ← err i;
           if (best ⊞ Eps) ≺ e then Ret (i, best) else slide err fuel (i + 1) limit e
       end.

(** The start at [i], the loop from [++i] and [--i]. *)
Definition slide_from (err : Z → outcome D) (i limit : Z) : outcome (Z * D) :=
  best ← err i;
  r ← slide err (Z.to_nat (limit - i)) (i + 1) limit best;
  Ret (r.1 - 1, r.2).

(** [E_Old_Linear], [E_Linear] and the first loop of the others: the best index never
    moves back. *)
Definition linear_row (err : Z → Z → outcome D) (limit : Z → Z) : outcome (list Z * list D) :=
  r ← mfold (λ '(i, bs, es) j,
        r ← slide_from (err j) i (limit j);
        Ret (r.1, bs ++ [r.1], es ++ [r.2])) (0, [], []) (xrange dsize);
  let '(_, bs, es) := r in Ret (bs, es).

(** The second loop: the same from the end. *)
Definition inverted_row : outcome (list Z * list D) :=
  r ← mfold (λ '(i, bs, es) j,
        r ← slide_from (inverted_error j) (Z.max i j) dsize;
        Ret (r.1, (dsize - r.1 - 1) :: bs, r.2 :: es)) (0, [], []) (xrange dsize);
  let '(_, bs, es) := r in Ret (bs, es).

(** [bs1], [bs2], [e1], [e2] *)
Record tables : Type := { bs1 : list Z; bs2 : list Z; e1 : list D; e2 : list D }.

Definition two_loops : outcome tables :=
  first ← linear_row new_error (λ j, j + 1);
  second ← inverted_row;
  Ret {| bs1 := first.1; bs2 := second.1; e1 := first.2; e2 := second.2 |}.

Definition linear_2l_row (t : tables) : outcome (list Z * list D) :=
  fill_row (λ j,
    x1 ← vat (e1 t) j; x2 ← vat (e2 t) j; b1 ← vat (bs1 t) j; b2 ← vat (bs2 t) j;
    Ret (if x1 ≺ x2 ⊞ Eps then (x1, b1) else (x2, b2))).

Definition safe_row (t : tables) : outcome (list Z * list D) :=
  fill_row (λ j,
    bestError ← vat (e1 t) j; bestIndex ← vat (bs1 t) j; last ← vat (bs2 t) j;
    scan d_le (new_error j) (bestIndex + 1) (last + 1) (bestError, bestIndex)).

(** *** [E_RLM] *)

(** [bestSolutions[l][j] = bs1[j] = bs2[j] = index], and the same for the errors. *)
Definition settle (t : tables) (row : list Z) (cur : list D) (j index : Z) (error : D)
    : outcome (tables * list Z * list D) :=
  b1 ← vset (bs1 t) j index; b2 ← vset (bs2 t) j index;
  x1 ← vset (e1 t) j error; x2 ← vset (e2 t) j error;
  row ← vset row j index; cur ← vset cur j error;
  Ret ({| bs1 := b1; bs2 := b2; e1 := x1; e2 := x2 |}, row, cur).

(** [bs1[j] + 1 >= bs2[j]] *)
Definition settled (t : tables) (j : Z) : outcome bool :=
  b1 ← vat (bs1 t) j; b2 ← vat (bs2 t) j; Ret (b2 <=? b1 + 1).

(** Step 1: the last of the positions that need a rebuild. *)
Fixpoint rebuild_end (t : tables) (fuel : nat) (j2 : Z) : outcome Z :=
  if dsize <=? j2 then Ret (j2 - 1)
  else match fuel with
       | O => Ret (j2 - 1)
       | S fuel => s ← settled t j2; if s : bool then Ret (j2 - 1) else rebuild_end t fuel (j2 + 1)
       end.

(** [newError < bestError - Eps] *)
Definition clearly_less (e best : D) : bool := e ≺ best ⊟ Eps.

(** Step 3: the first loop again on [(j1, j2]]. *)
Definition rebuild_first (t : tables) (j1 j2 : Z) : outcome tables :=
  i ← vat (bs1 t) j1;
  r ← mfold (λ '(i, b1, x1) ji,
        r ← slide_from (new_error ji) i (ji + 1);
        b1 ← vset b1 ji r.1; x1 ← vset x1 ji r.2; Ret (r.1, b1, x1))
      (i, bs1 t, e1 t) (xrange2 (j1 + 1) (j2 + 1));
  let '(_, b1, x1) := r in Ret {| bs1 := b1; bs2 := bs2 t; e1 := x1; e2 := e2 t |}.

(** Step 5: the second loop again on [(j1, j2)]. *)
Definition rebuild_second (t : tables) (j1 j2 : Z) : outcome tables :=
  b ← vat (bs2 t) j2;
  r ← mfold (λ '(i, b2, x2) ji,
        r ← slide_from (inverted_error ji) (Z.max i ji) dsize;
        b2 ← vset b2 (dsize - ji - 1) (dsize - r.1 - 1);
        x2 ← vset x2 (dsize - ji - 1) r.2; Ret (r.1, b2, x2))
      (dsize - b - 1, bs2 t, e2 t) (xrange2 (dsize - j2) (dsize - j1 - 1));
  let '(_, b2, x2) := r in Ret {| bs1 := bs1 t; bs2 := b2; e1 := e1 t; e2 := x2 |}.

Definition rlm_cell (st : tables * list Z * list D) (j : Z) : outcome (tables * list Z * list D) :=
  let '(t, row, cur) := st in
  s ← settled t j;
  if s : bool then
    b ← vat (bs1 t) j; e ← vat (e1 t) j;
    row ← vset row j b; cur ← vset cur j e; Ret (t, row, cur)
  else
    j2 ← rebuild_end t (Z.to_nat dsize) (j + 1);
    first ← vat (bs1 t) j; last ← vat (bs2 t) j; x1 ← vat (e1 t) j;
    best ← scan clearly_less (new_error j) (first + 2) (last + 1) (x1, first);
    st ← settle t row cur j best.2 best.1;
    let '(t, row, cur) := st in
    if j + 1 <? j2 then
      t ← (if first =? best.2 then Ret t else rebuild_first t j j2);
      from ← vat (bs1 t) j2; last ← vat (bs2 t) j2; x2 ← vat (e2 t) j2;
      best ← scan clearly_less (new_error j2) from (u64 (last - 1)) (x2, last);
      st ← settle t row cur j2 best.2 best.1;
      let '(t, row, cur) := st in
      t ← (if last =? best.2 then Ret t else rebuild_second t j j2);
      Ret (t, row, cur)
    else Ret (t, row, cur).

Definition rlm_row (t : tables) : outcome (list Z * list D) :=
  r ← mfold rlm_cell (t, replicate (Z.to_nat dsize) 0, e1 t) (xrange dsize);
  let '(_, row, cur) := r in Ret (row, cur).

(** *** [E_RLM2] *)

(** [for (; i + 1 < maxi; ++i)] until an error is clearly below the best. *)
Fixpoint first_better (err : Z → outcome D) (fuel : nat) (i maxi : Z) (best : D)
    : outcome (Z * D) :=
  if maxi <=? i + 1 then Ret (i, best)
  else match fuel with
       | O => Ret (i, best)
       | S fuel =>
           e ← err i;
           if (e ⊞ Eps) ≺ best then Ret (i, e) else first_better err fuel (i + 1) maxi best
       end.

(** The search for an improvement below [maxi], [maxi] when there is none. *)
Definition improve (err : Z → outcome D) (i maxi : Z) (best : D) : outcome (Z * D) :=
  r ← first_better err (Z.to_nat (maxi - i)) i maxi best;
  if maxi <=? r.1 + 1 then Ret (maxi, r.2)
  else
    r ← slide err (Z.to_nat (maxi - r.1)) (r.1 + 1) (maxi - 1) r.2;
    Ret (r.1 - 1, r.2).

(** The body of the inverted loops at [j], counted from the end, from the index
    [i]. *)
Definition inverted_cell (st : Z * list Z * list D) (b1 : list Z) (x1 : list D) (j i : Z)
    : outcome (Z * list Z * list D) :=
  let '(_, b2, x2) := st in
  let p := dsize - j - 1 in
  b ← vat b1 p; e ← vat x1 p;
  let maxi := dsize - b - 1 in
  if maxi <=? i + 1 then
    b2 ← vset b2 p b; x2 ← vset x2 p e; Ret (maxi, b2, x2)
  else
    r ← improve (inverted_error j) i maxi e;
    b2 ← vset b2 p (dsize - r.1 - 1); x2 ← vset x2 p r.2; Ret (r.1, b2, x2).

(** First inverted loop. *)
Definition first_inverted (b1 : list Z) (x1 : list D) : outcome tables :=
  r ← mfold (λ st j, inverted_cell st b1 x1 j (Z.max st.1.1 j))
        (0, replicate (Z.to_nat dsize) 0, x1) (xrange dsize);
  let '(_, b2, x2) := r in Ret {| bs1 := b1; bs2 := b2; e1 := x1; e2 := x2 |}.

(** Forward loop from [j] while the index [i] is above [bs1[j]]: the end [maxj]. *)
Fixpoint forward_rebuild (t : tables) (fuel : nat) (j i : Z) : outcome (tables * Z) :=
  if dsize <=? j then Ret (t, dsize)
  else match fuel with
       | O => Ret (t, dsize)
       | S fuel =>
           b ← vat (bs1 t) j;
           if i <=? b then Ret (t, j)
           else
             maxi ← vat (bs2 t) j; x2 ← vat (e2 t) j;
             r ← (if maxi <=? i + 1 then Ret (maxi, x2) else improve (new_error j) i maxi x2);
             b1 ← vset (bs1 t) j r.1; x1 ← vset (e1 t) j r.2;
             forward_rebuild {| bs1 := b1; bs2 := bs2 t; e1 := x1; e2 := e2 t |} fuel (j + 1) r.1
       end.

(** Inverted loop over the positions from [maxj - 1] down to [k]. *)
Definition inverted_rebuild (t : tables) (k maxj : Z) : outcome tables :=
  let j1 := dsize - maxj in
  b ← vat (bs2 t) (dsize - j1 - 1);
  r ← mfold (λ st j, inverted_cell st (bs1 t) (e1 t) j st.1.1)
        (dsize - b - 1 + 2, bs2 t, e2 t) (xrange2 j1 (dsize - k));
  let '(_, b2, x2) := r in Ret {| bs1 := bs1 t; bs2 := b2; e1 := e1 t; e2 := x2 |}.

(** [while (bs1[k] + 1 < bs2[k])] *)
Fixpoint rebuild_loop (fuel : nat) (t : tables) (k : Z) : outcome tables :=
  s ← settled t k;
  if s : bool then Ret t
  else match fuel with
       | O => Ret t
       | S fuel =>
           b ← vat (bs1 t) k;
           r ← forward_rebuild t (Z.to_nat dsize) k (b + 2);
           t ← inverted_rebuild r.1 k r.2;
           rebuild_loop fuel t k
       end.

Definition rlm2_row : outcome (list Z * list D) :=
  first ← linear_row new_error (λ j, j + 1);
  t ← first_inverted first.1 first.2;
  r ← mfold (λ '(t, row, cur) k,
        t ← rebuild_loop (Z.to_nat dsize) t k;
        b ← vat (bs1 t) k; e ← vat (e1 t) k; Ret (t, row ++ [b], cur ++ [e]))
      (t, [], []) (xrange dsize);
  let '(_, row, cur) := r in Ret (row, cur).

(** *** [E_DaC] *)

(** [std::tuple<size_t, size_t, size_t, size_t>]: [jbegin], [jend], [ibegin], [iend] *)
Definition box : Type := Z * Z * Z * Z.

(** One box of the queue. *)
Definition dac_box (row : list Z) (cur : list D) (b : box) : outcome (list Z * list D * list box) :=
  let '(jbegin, jend, ibegin, iend) := b in
  if jend <=? jbegin then Ret (row, cur, [])
  else if iend - ibegin =? 1 then
    r ← mfold (λ '(row, cur) j,
          row ← vset row j ibegin; e ← new_error j ibegin; cur ← vset cur j e; Ret (row, cur))
        (row, cur) (xrange2 jbegin jend);
    Ret (r.1, r.2, [])
  else
    let j := (jbegin + jend) / 2 in
    e ← new_error j ibegin;
    let iend2 := Z.min iend (j + 1) in
    best ← scan d_le (new_error j) (ibegin + 1) iend2 (e, ibegin);
    row ← vset row j best.2; cur ← vset cur j best.1;
    Ret (row, cur, [(jbegin, j, ibegin, best.2 + 1); (j + 1, jend, best.2, iend)]).

(** [while (!qr.empty())] *)
Fixpoint dac_loop (fuel : nat) (row : list Z) (cur : list D) (qr : list box)
    : option (outcome (list Z * list D)) :=
  match qr with
  | [] => Some (Ret (row, cur))
  | b :: qr =>
      match fuel with
      | O => None
      | S fuel =>
          match dac_box row cur b with
          | Ret (row, cur, more) => dac_loop fuel row cur (qr ++ more)
          | Fail f => Some (Fail f)
          end
      end
  end.

(** More than the boxes that are ever queued. *)
Definition dac_fuel : nat := S (Z.to_nat (2 * dsize)).

Definition dac_row (cur : list D) : outcome (list Z * list D) :=
  default (Ret ([], [])) (dac_loop dac_fuel (replicate (Z.to_nat dsize) 0) cur [(0, dsize, 0, dsize)]).

(** The row of layer [l] and its errors; [cur] is the array the errors overwrite. *)
Definition layer (mode : ESF) (cur : list D) : outcome (list Z * list D) :=
  match mode with
  | E_Base => full_row base_error
  | E_Old_Linear => linear_row base_error (λ j, j)
  | E_Base2 => full_row new_error
  | E_Linear => linear_row new_error (λ j, j + 1)
  | E_Linear_2L => t ← two_loops; linear_2l_row t
  | E_Safe => t ← two_loops; safe_row t
  | E_RLM => t ← two_loops; rlm_row t
  | E_RLM2 => rlm2_row
  | E_DaC => dac_row cur
  | E_SF_End => Ret (replicate (Z.to_nat dsize) 0, cur)
  end.

End Layer.
Arguments tables : clear implicits.

(** ** [BestSplit] on weights *)

(** [sweights[i] += sweights[i - 1]] *)
Fixpoint partial_sums (acc : W) (weights : list W) : list W :=
  match weights with
  | [] => []
  | w :: weights => (w ⊞ acc) :: partial_sums (w ⊞ acc) weights
  end.
Definition sums_of (weights : list W) : list W :=
  match weights with [] => [] | w :: weights => w :: partial_sums w weights end.

Definition is_base (mode : ESF) : bool :=
  match mode with E_Base | E_Old_Linear => true | _ => false end.

(** The loop of the first lines of the answer for a short vector. *)
Definition short_thresholds (thresholds : list Z) (bins wsize : Z) : outcome (list Z) :=
  thresholds ← mfold (λ t i, vset t i i) thresholds (xrange (wsize - 1));
  mfold (λ t i, vset t i (wsize - 1)) thresholds (xrange2 (wsize - 1) (bins - 1)).

(** The last match: the best end of the last bin, the walk back through the layers
    and the adjustment. *)
Definition last_match (type : EPenaltyType) (expected : D) (sweights : list W) (dsize bins : Z)
    (mode : ESF) (best_solutions : list (list Z)) (prev_error : list D) (thresholds : list Z)
    : outcome (list Z) :=
  let l := bins - 2 in
  let j := dsize - 1 in
  let err := if is_base mode then base_error type expected sweights prev_error j
             else new_error type expected sweights prev_error l j in
  e ← err 0;
  best ← scan a_ltb err 1 (j + 1) (e, 0);
  thresholds ← vset thresholds (bins - 2) best.2;
  (* for (; l > 0; --l) *)
  r ← mfold (λ '(t, index) k,
        let l := bins - 2 - k in
        row ← vat best_solutions (l - 1);
        index ← vat row index;
        t ← vset t (l - 1) index; Ret (t, index))
      (thresholds, best.2) (xrange (bins - 2));
  Ret (if is_base mode then r.1 else imap (λ l t, t + Z.of_nat l) r.1).

Definition BestSplit (weights : list W) (borders_count : Z) (thresholds : list Z)
    (type : EPenaltyType) (mode : ESF) : outcome (list Z) :=
  let bins := u64 (borders_count + 1) in
  if (bins <=? 1) || (vsize weights =? 0) then Ret thresholds
  else
    let thresholds := if vsize thresholds =? bins - 1 then thresholds
                      else vresize thresholds (bins - 1) 0 in
    let wsize := vsize weights in
    if wsize <=? bins then short_thresholds thresholds bins wsize
    else
      let sweights := sums_of weights in
      total ← vat sweights (wsize - 1);
      let expected := widen total ⊘ a_ofZ bins in
      let dsize := if is_base mode then wsize else wsize - bins + 1 in
      let current_error := (λ w, Penalty (widen w) expected type) <$> take (Z.to_nat dsize) sweights in
      r ← mfold (λ '(current, prev, rows) l,
            (* current_error.swap(prevError) *)
            r ← layer type expected sweights dsize current l mode prev;
            Ret (r.2, current, rows ++ [r.1]))
          (current_error, replicate (Z.to_nat dsize) (a_ofZ 0), []) (xrange (bins - 2));
      let '(current, _, rows) := r in
      last_match type expected sweights dsize bins mode rows current thresholds.

End OptimalSplit.
Arguments tables : clear implicits.

(** ** Vectors whose elements satisfy a predicate *)

Lemma vat_all {A} (P : A → Prop) (l : list A) i :
  Forall P l → 0 ≤ i < vsize l → ∃ x, vat l i = Ret x ∧ P x ∧ l !! Z.to_nat i = Some x.
Proof.
  intros Hl Hi. destruct (vat_in_range l i Hi) as (x & Hx & Hlk). exists x.
  split; [done|]. split; [|done]. by eapply Forall_lookup_1.
Qed.

Lemma vset_all {A} (P : A → Prop) (l : list A) i x :
  Forall P l → 0 ≤ i < vsize l → P x →
  vset l i x = Ret (<[Z.to_nat i := x]> l) ∧ vsize (<[Z.to_nat i := x]> l) = vsize l ∧
  Forall P (<[Z.to_nat i := x]> l).
Proof.
  intros Hl Hi Hx. split; [by apply vset_Ret|]. split; [apply vsize_insert|].
  by apply Forall_insert.
Qed.

Lemma vset_Ret_insert {A} (l : list A) i x :
  0 ≤ i < vsize l → vset l i x = Ret (<[Z.to_nat i := x]> l).
Proof. intros. by apply vset_Ret. Qed.

(** ** Safety of the layers *)

(** The index of a scan is the initial one or one it visits. *)
Lemma scan_ok {D} better (err : Z → outcome D) from to best :
  (∀ i, from ≤ i < to → ∃ e, err i = Ret e) →
  ∃ r, scan better err from to best = Ret r ∧ (r.2 = best.2 ∨ from ≤ r.2 < to).
Proof.
  intros Herr. unfold scan.
  apply (mfold_inv (λ _ r, r.2 = best.2 ∨ from ≤ r.2 < to)); [by left|].
  intros pre i rest r Hl Hr.
  assert (from ≤ i < to) as Hi.
  { apply elem_of_xrange2. rewrite Hl. set_solver. }
  destruct (Herr i Hi) as (e & ->). rewrite bind_Ret. eexists. split; [done|].
  destruct (better e r.1); cbn; auto.
Qed.

Section Safe.
  Context {D : Type} `{HD : Arith D} (dsize : Z).
  Hypothesis Hdsize : 0 < dsize.

Definition idx (i : Z) : Prop := 0 ≤ i < dsize.

Definition row_ok (r : list Z * list D) : Prop :=
  vsize r.1 = dsize ∧ vsize r.2 = dsize ∧ Forall idx r.1.

(** The errors of a layer are defined for all positions. *)
Definition err_total (err : Z → Z → outcome D) : Prop :=
  ∀ j i, idx j → idx i → ∃ e, err j i = Ret e.

Lemma fill_row_ok (cell : Z → outcome (D * Z)) :
  (∀ j, idx j → ∃ c, cell j = Ret c ∧ idx c.2) → ∃ r, fill_row dsize cell = Ret r ∧ row_ok r.
Proof.
  intros Hcell. unfold fill_row.
  destruct (mmap_total cell (xrange dsize)) as (cells & Hm).
  { intros j Hj%elem_of_xrange. destruct (Hcell j Hj) as (c & ? & _). eauto. }
  rewrite Hm, bind_Ret. eexists. split; [done|]. apply mmap_Forall2 in Hm.
  pose proof (Forall2_length _ _ _ Hm) as Hlen. rewrite xrange_seqZ, length_seqZ in Hlen.
  unfold row_ok, vsize; cbn. rewrite !length_map. split; [lia|]. split; [lia|].
  apply Forall_forall. intros i Hi. apply list_elem_of_In, in_map_iff in Hi as (c & <- & Hc).
  apply list_elem_of_In, list_elem_of_lookup in Hc as [k Hc].
  destruct (Forall2_lookup_r _ _ _ _ _ Hm Hc) as (j & Hj & Hcj).
  apply list_elem_of_lookup_2, elem_of_xrange in Hj. destruct (Hcell j Hj) as (c' & Hc' & ?). congruence.
Qed.

Lemma slide_ok (err : Z → outcome D) fuel i limit best :
  (∀ k, i ≤ k < limit → ∃ e, err k = Ret e) →
  ∃ r, slide err fuel i limit best = Ret r ∧ i ≤ r.1 ≤ Z.max i limit.
Proof.
  revert i best. induction fuel as [|fuel IH]; intros i best Herr; cbn [slide].
  - destruct (limit <=? i); (eexists; split; [done|cbn; lia]).
  - destruct (Z.leb_spec limit i) as [|Hi]; [eexists; split; [done|cbn; lia]|].
    destruct (Herr i) as (e & ->); [lia|]. rewrite bind_Ret.
    destruct (a_ltb (best ⊞ Eps) e); [eexists; split; [done|cbn; lia]|].
    destruct (IH (i + 1) e) as (r & -> & Hr); [intros; apply Herr; lia|].
    exists r. split; [done|lia].
Qed.

(** The sliding index never moves back and stays below the limit. *)
Lemma slide_from_ok (err : Z → outcome D) i limit :
  idx i → limit ≤ dsize → (∀ k, idx k → ∃ e, err k = Ret e) →
  ∃ r, slide_from err i limit = Ret r ∧ i ≤ r.1 ∧ idx r.1.
Proof.
  intros Hi Hl Herr. unfold slide_from. destruct (Herr i Hi) as (b & ->). rewrite bind_Ret.
  destruct (slide_ok err (Z.to_nat (limit - i)) (i + 1) limit b) as (r & -> & Hr).
  { intros k Hk. apply Herr. unfold idx in *. lia. }
  rewrite bind_Ret. eexists. split; [done|]. cbn. unfold idx in *. lia.
Qed.

Lemma linear_row_ok err limit :
  err_total err → (∀ j, idx j → limit j ≤ dsize) →
  ∃ r, linear_row dsize err limit = Ret r ∧ row_ok r.
Proof.
  intros Herr Hlim. unfold linear_row.
  edestruct (mfold_inv (λ (pre : list Z) (s : Z * list Z * list D),
    idx s.1.1 ∧ Forall idx s.1.2 ∧ vsize s.1.2 = vsize pre ∧ vsize s.2 = vsize pre))
    as ([[i bs] es] & Hr & (_ & Hall & Hb & He)); [| |rewrite Hr, bind_Ret].
  - cbn. unfold idx. repeat split; first [lia|constructor].
  - intros pre j rest [[i bs] es] Hl (Hi & Hall & Hb & He). cbn in Hi, Hall, Hb, He.
    apply xrange_split in Hl as (_ & _ & Hj).
    destruct (slide_from_ok (err j) i (limit j)) as (r & -> & _ & Hr); [done|auto|auto|].
    rewrite bind_Ret. eexists. split; [done|]. cbn. rewrite !vsize_snoc, Hb, He.
    split; [done|]. split; [by apply Forall_app; split; [|apply Forall_singleton]|]. done.
  - exists (bs, es). split; [done|]. cbn in *.
    rewrite vsize_xrange in * by lia. done.
Qed.

End Safe.

(** ** Safety of the modes *)

Section SafeModes.
  Context {W D : Type} `{HW : Arith W} `{HD : Arith D} `{HC : Conv W D}.
  Context (type : EPenaltyType) (expected : D) (sweights : list W) (dsize : Z)
          (prevError : list D) (l : Z).
  Hypothesis Hdsize : 0 < dsize.

Local Abbreviation new_error := (new_error type expected sweights prevError l).
Local Abbreviation inverted_error := (inverted_error type expected sweights dsize prevError l).
Local Abbreviation idx := (idx dsize).
Local Abbreviation row_ok := (row_ok dsize).

  Hypothesis Hnew : err_total dsize new_error.

Lemma inverted_total : err_total dsize inverted_error.
Proof. intros j i Hj Hi. apply Hnew; unfold OptimalSplit.idx in *; lia. Qed.

Lemma full_row_ok err : err_total dsize err → ∃ r, full_row dsize err = Ret r ∧ row_ok r.
Proof.
  intros Herr. apply fill_row_ok; [done|]. intros j Hj.
  destruct (Herr j 0 Hj) as (e & ->); [unfold OptimalSplit.idx; lia|]. rewrite bind_Ret.
  destruct (scan_ok d_le (err j) 1 (j + 1) (e, 0)) as (r & -> & Hr).
  { intros i Hi. apply Herr; [done|]. unfold OptimalSplit.idx in *. lia. }
  exists r. split; [done|]. unfold OptimalSplit.idx in *. cbn in Hr. lia.
Qed.

Lemma inverted_row_ok :
  ∃ r, inverted_row type expected sweights dsize prevError l = Ret r ∧ row_ok r.
Proof.
  unfold inverted_row.
  edestruct (mfold_inv (λ (pre : list Z) (s : Z * list Z * list D),
    idx s.1.1 ∧ Forall idx s.1.2 ∧ vsize s.1.2 = vsize pre ∧ vsize s.2 = vsize pre))
    as ([[i bs] es] & Hr & (_ & Hall & Hb & He)); [| |rewrite Hr, bind_Ret].
  - cbn. unfold OptimalSplit.idx. repeat split; first [lia|constructor].
  - intros pre j rest [[i bs] es] Hl (Hi & Hall & Hb & He). cbn in Hi, Hall, Hb, He.
    apply xrange_split in Hl as (_ & _ & Hj).
    destruct (slide_from_ok dsize (inverted_error j) (Z.max i j) dsize) as (r & -> & _ & Hr);
      [unfold OptimalSplit.idx in *; lia|lia|intros k Hk; by apply inverted_total|].
    rewrite bind_Ret. eexists. split; [done|]. cbn. rewrite !vsize_cons, !vsize_snoc, Hb, He.
    split; [done|]. split; [apply Forall_cons; unfold OptimalSplit.idx in *; split; [lia|done]|]. lia.
  - exists (bs, es). split; [done|]. rewrite vsize_xrange in * by lia. done.
Qed.

(** The tables of the two loops. *)
Definition tables_ok (t : tables D) : Prop := row_ok (bs1 t, e1 t) ∧ row_ok (bs2 t, e2 t).

Lemma two_loops_ok :
  ∃ t, two_loops type expected sweights dsize prevError l = Ret t ∧ tables_ok t.
Proof.
  unfold two_loops.
  destruct (linear_row_ok dsize Hdsize new_error (λ j, j + 1) Hnew) as (r1 & -> & H1).
  { unfold OptimalSplit.idx. lia. }
  destruct inverted_row_ok as (r2 & -> & H2). rewrite !bind_Ret.
  eexists. split; [done|]. split; done.
Qed.

(** Read a table at a position. *)
Lemma bs_at (b : list Z) (e : list D) j :
  row_ok (b, e) → idx j → ∃ i, vat b j = Ret i ∧ idx i ∧ b !! Z.to_nat j = Some i.
Proof. intros (Hb & _ & Hall) Hj. apply vat_all; [done|]. cbn in Hb. by rewrite Hb. Qed.

Lemma e_at (b : list Z) (e : list D) j : row_ok (b, e) → idx j → ∃ x, vat e j = Ret x.
Proof.
  intros (_ & He & _) Hj. cbn in He. destruct (vat_in_range e j) as (x & ? & _); [by rewrite He|eauto].
Qed.

(** Write a cell of a row. *)
Lemma row_set (b : list Z) (e : list D) j i x :
  row_ok (b, e) → idx j → idx i →
  vset b j i = Ret (<[Z.to_nat j := i]> b) ∧ vset e j x = Ret (<[Z.to_nat j := x]> e) ∧
  row_ok (<[Z.to_nat j := i]> b, <[Z.to_nat j := x]> e).
Proof.
  intros (Hb & He & Hall) Hj Hi. cbn in *.
  split; [apply vset_Ret_insert; by rewrite Hb|].
  split; [apply vset_Ret_insert; by rewrite He|].
  unfold OptimalSplit.row_ok. cbn. rewrite !vsize_insert. split; [done|]. split; [done|].
  by apply Forall_insert.
Qed.

Lemma linear_2l_row_ok t : tables_ok t → ∃ r, linear_2l_row dsize t = Ret r ∧ row_ok r.
Proof.
  intros [H1 H2]. apply fill_row_ok; [done|]. intros j Hj.
  destruct (e_at _ _ j H1 Hj) as (x1 & ->), (e_at _ _ j H2 Hj) as (x2 & ->).
  destruct (bs_at _ _ j H1 Hj) as (b1 & -> & ? & _), (bs_at _ _ j H2 Hj) as (b2 & -> & ? & _).
  rewrite !bind_Ret. eexists. split; [done|]. by destruct (x1 ≺ x2 ⊞ Eps).
Qed.

Lemma safe_row_ok t :
  tables_ok t → ∃ r, safe_row type expected sweights dsize prevError l t = Ret r ∧ row_ok r.
Proof.
  intros [H1 H2]. apply fill_row_ok; [done|]. intros j Hj.
  destruct (e_at _ _ j H1 Hj) as (x1 & ->).
  destruct (bs_at _ _ j H1 Hj) as (b1 & -> & Hb1 & _), (bs_at _ _ j H2 Hj) as (b2 & -> & Hb2 & _).
  rewrite !bind_Ret.
  destruct (scan_ok d_le (new_error j) (b1 + 1) (b2 + 1) (x1, b1)) as (r & -> & Hr).
  { intros i Hi. apply Hnew; [done|]. unfold OptimalSplit.idx in *. lia. }
  exists r. split; [done|]. unfold OptimalSplit.idx in *. cbn in Hr. lia.
Qed.

(** *** [E_RLM2] *)

Lemma first_better_ok (err : Z → outcome D) fuel i maxi best :
  (∀ k, i ≤ k → k + 1 < maxi → ∃ e, err k = Ret e) →
  ∃ r, first_better err fuel i maxi best = Ret r ∧ i ≤ r.1.
Proof using HD.
  revert i best. induction fuel as [|fuel IH]; intros i best Herr; cbn [first_better].
  - destruct (maxi <=? i + 1); (eexists; split; [done|cbn; lia]).
  - destruct (Z.leb_spec maxi (i + 1)) as [|Hi]; [eexists; split; [done|cbn; lia]|].
    destruct (Herr i) as (e & ->); [lia|lia|]. rewrite bind_Ret.
    destruct (a_ltb (e ⊞ Eps) best); [eexists; split; [done|cbn; lia]|].
    destruct (IH (i + 1) best) as (r & -> & Hr); [intros; apply Herr; lia|].
    exists r. split; [done|lia].
Qed.

Lemma improve_ok (err : Z → outcome D) i maxi best :
  i + 1 < maxi → (∀ k, i ≤ k → k + 1 < maxi → ∃ e, err k = Ret e) →
  ∃ r, improve err i maxi best = Ret r ∧ i ≤ r.1 ≤ maxi.
Proof using HD.
  intros Hi Herr. unfold improve.
  destruct (first_better_ok err (Z.to_nat (maxi - i)) i maxi best Herr) as (r & -> & Hr).
  rewrite bind_Ret. destruct (Z.leb_spec maxi (r.1 + 1)); [eexists; split; [done|cbn; lia]|].
  destruct (slide_ok err (Z.to_nat (maxi - r.1)) (r.1 + 1) (maxi - 1) r.2) as (r' & -> & Hr').
  { intros k Hk. apply Herr; lia. }
  rewrite bind_Ret. eexists. split; [done|]. cbn. lia.
Qed.

(** A cell of an inverted loop gets an index not below that of the first table. *)
Lemma inverted_cell_ok i0 b1 x1 b2 x2 j i :
  row_ok (b1, x1) → row_ok (b2, x2) → idx j → 0 ≤ i →
  ∃ i' v x, inverted_cell type expected sweights dsize prevError l (i0, b2, x2) b1 x1 j i =
      Ret (i', <[Z.to_nat (dsize - j - 1) := v]> b2, <[Z.to_nat (dsize - j - 1) := x]> x2) ∧
    0 ≤ i' ∧ idx v ∧ (∀ b, b1 !! Z.to_nat (dsize - j - 1) = Some b → b ≤ v).
Proof.
  intros H1 H2 Hj Hi. unfold inverted_cell.
  assert (idx (dsize - j - 1)) as Hp by (unfold OptimalSplit.idx in *; lia).
  destruct (bs_at b1 x1 (dsize - j - 1) H1 Hp) as (b & -> & Hb & Hlk).
  destruct (e_at b1 x1 (dsize - j - 1) H1 Hp) as (e & ->). rewrite !bind_Ret.
  destruct (Z.leb_spec (dsize - b - 1) (i + 1)) as [Hle|Hlt].
  - destruct (row_set b2 x2 (dsize - j - 1) b e H2 Hp Hb) as (-> & -> & _). rewrite !bind_Ret.
    eexists _, _, _. split; [done|]. unfold OptimalSplit.idx in *. split; [lia|]. split; [done|].
    intros b' Hb'. rewrite Hlk in Hb'. injection Hb'. lia.
  - destruct (improve_ok (inverted_error j) i (dsize - b - 1) e) as (r & -> & Hr); [done| |].
    { intros k Hk Hk'. apply inverted_total; [done|]. unfold OptimalSplit.idx in *. lia. }
    assert (idx (dsize - r.1 - 1)) as Hv by (unfold OptimalSplit.idx in *; lia).
    rewrite bind_Ret.
    destruct (row_set b2 x2 (dsize - j - 1) (dsize - r.1 - 1) r.2 H2 Hp Hv) as (-> & -> & _).
    rewrite !bind_Ret. eexists _, _, _. split; [done|]. split; [lia|]. split; [done|].
    intros b' Hb'. rewrite Hlk in Hb'. injection Hb'. lia.
Qed.

(** The first index is never above the second from position [p] on. *)
Definition ordered_from (p : Z) (b1 b2 : list Z) : Prop :=
  ∀ q i1 i2, p ≤ q → 0 ≤ q → b1 !! Z.to_nat q = Some i1 → b2 !! Z.to_nat q = Some i2 → i1 ≤ i2.

Lemma ordered_from_insert p b1 b2 q v :
  ordered_from p b1 b2 → 0 ≤ q < vsize b2 → (∀ b, b1 !! Z.to_nat q = Some b → b ≤ v) →
  ordered_from p b1 (<[Z.to_nat q := v]> b2).
Proof using.
  intros Ho Hq Hv r i1 i2 Hr Hr0 H1. destruct (decide (r = q)) as [->|Hne].
  - rewrite list_lookup_insert_eq by (unfold vsize in *; lia). intros [= <-]. auto.
  - rewrite list_lookup_insert_ne by lia. eauto.
Qed.

Lemma inverted_cells b1 x1 b2 x2 (f : Z * list Z * list D → Z → Z) from to :
  row_ok (b1, x1) → row_ok (b2, x2) → 0 ≤ from → to ≤ dsize →
  (∀ st j, 0 ≤ st.1.1 → 0 ≤ j → 0 ≤ f st j) →
  ∀ i, 0 ≤ i → ordered_from (dsize - from) b1 b2 →
  ∃ i' b2' x2',
    mfold (λ st j, inverted_cell type expected sweights dsize prevError l st b1 x1 j (f st j))
      (i, b2, x2) (xrange2 from to) = Ret (i', b2', x2') ∧
    row_ok (b2', x2') ∧ ordered_from (dsize - Z.max from to) b1 b2' ∧
    (ordered_from 0 b1 b2 → ordered_from 0 b1 b2').
Proof.
  intros H1 H2 Hfrom Hto Hf i Hi Hord.
  edestruct (mfold_inv (λ (pre : list Z) (s : Z * list Z * list D),
    0 ≤ s.1.1 ∧ row_ok (s.1.2, s.2) ∧ ordered_from (dsize - (from + vsize pre)) b1 s.1.2 ∧
    (ordered_from 0 b1 b2 → ordered_from 0 b1 s.1.2))) as ([[i' b2'] x2'] & Hr & _ & Hok & Ho & H0);
    [| |exists i', b2', x2'; split; [exact Hr|]].
  - cbn. rewrite Z.add_0_r. done.
  - intros pre j rest [[i1 b2'] x2'] Hl (Hi1 & Hok & Ho & H0). cbn in Hi1, Hok, Ho, H0.
    assert (j = from + vsize pre ∧ j < to) as [Hj Hjt].
    { rewrite xrange2_seqZ in Hl.
      assert (seqZ from (to - from) !! length pre = Some j) as Hlk
        by (rewrite Hl; by apply list_lookup_middle).
      apply lookup_seqZ in Hlk. unfold vsize. lia. }
    assert (idx j) as Hidx by (unfold OptimalSplit.idx; pose proof (vsize_nonneg pre); lia).
    destruct (inverted_cell_ok i1 b1 x1 b2' x2' j (f (i1, b2', x2') j)) as (i2 & v & x & -> & Hi2 & Hv & Hb);
      [done|done|done|apply Hf; [done|unfold OptimalSplit.idx in Hidx; lia]|].
    eexists. split; [done|]. cbn [fst snd].
    assert (idx (dsize - j - 1)) as Hp by (unfold OptimalSplit.idx in *; lia).
    assert (0 ≤ dsize - j - 1 < vsize b2') as Hp'.
    { destruct Hok as (Hb2 & _). cbn in Hb2. rewrite Hb2. done. }
    split; [done|]. split; [by apply (row_set b2' x2' _ v x Hok Hp Hv)|]. split.
    + intros q i1' i2' Hq Hq0 Hl1 Hl2. rewrite vsize_snoc in Hq.
      destruct (decide (q = dsize - j - 1)) as [->|Hne].
      * rewrite list_lookup_insert_eq in Hl2 by (unfold vsize in *; lia).
        injection Hl2 as <-. auto.
      * rewrite list_lookup_insert_ne in Hl2 by lia. apply (Ho q); [lia|done..].
    + intros Hb12. by apply ordered_from_insert; [apply H0|..].
  - split; [done|]. split; [|done]. cbn in Ho. rewrite xrange2_seqZ in Ho.
    unfold vsize in Ho. rewrite length_seqZ in Ho. intros q ? ? Hq. apply Ho. lia.
Qed.

(** The first index of every position is not above the second. *)
Definition ordered (t : tables D) : Prop := ordered_from 0 (bs1 t) (bs2 t).

Lemma settled_at t j :
  tables_ok t → idx j →
  ∃ i1 i2, bs1 t !! Z.to_nat j = Some i1 ∧ bs2 t !! Z.to_nat j = Some i2 ∧ idx i1 ∧ idx i2 ∧
    vat (bs1 t) j = Ret i1 ∧ vat (bs2 t) j = Ret i2 ∧ settled t j = Ret (i2 <=? i1 + 1).
Proof.
  intros [H1 H2] Hj. unfold settled.
  destruct (bs_at _ _ j H1 Hj) as (i1 & Hv1 & ? & ?), (bs_at _ _ j H2 Hj) as (i2 & Hv2 & ? & ?).
  rewrite Hv1, Hv2, !bind_Ret. exists i1, i2. auto 10.
Qed.

(** The forward loop raises the first indexes up to [maxj], and strictly raises the
    one it starts at. *)
Lemma forward_rebuild_ok fuel t j i :
  tables_ok t → ordered t → 0 ≤ j → 0 ≤ i →
  ∃ t' maxj, forward_rebuild type expected sweights dsize prevError l t fuel j i = Ret (t', maxj) ∧
    tables_ok t' ∧ ordered t' ∧ Z.min j dsize ≤ maxj ≤ dsize ∧
    (∀ q, (q < Z.to_nat j)%nat → bs1 t' !! q = bs1 t !! q) ∧
    ((0 < fuel)%nat → ∀ b b2, bs1 t !! Z.to_nat j = Some b → bs2 t !! Z.to_nat j = Some b2 →
       b < i → b + 1 < b2 → j < maxj ∧ ∃ b', bs1 t' !! Z.to_nat j = Some b' ∧ b < b').
Proof.
  revert t j i. induction fuel as [|fuel IH]; intros t j i Ht Ho Hj Hi; cbn [forward_rebuild].
  { exists t, dsize. destruct (dsize <=? j); (split; [done|]); (split; [done|]); (split; [done|]);
      (split; [lia|]); (split; [done|intros; lia]). }
  destruct (Z.leb_spec dsize j) as [Hge|Hlt].
  { exists t, dsize. do 3 (split; [done|]). split; [lia|]. split; [done|].
    intros _ b b2 Hb. apply lookup_lt_Some in Hb. destruct Ht as [(Hs & _) _]. cbn in Hs. unfold vsize in Hs. lia. }
  assert (idx j) as Hidx by (unfold OptimalSplit.idx; lia).
  destruct (settled_at t j Ht Hidx) as (i1 & i2 & Hl1 & Hl2 & Hi1 & Hi2 & Hv1 & Hv2 & _).
  rewrite Hv1, bind_Ret. destruct (Z.leb_spec i i1) as [Hle|Hgt].
  { exists t, j. do 3 (split; [done|]). split; [lia|]. split; [done|].
    intros _ b b2 Hb. rewrite Hl1 in Hb. injection Hb as <-. lia. }
  rewrite Hv2, bind_Ret. destruct Ht as [H1 H2].
  destruct (e_at _ _ j H2 Hidx) as (x2 & ->). rewrite bind_Ret.
  assert (∃ r, (if i2 <=? i + 1 then Ret (i2, x2) else improve (new_error j) i i2 x2) = Ret r ∧
    Z.min i i2 ≤ r.1 ≤ i2) as (r & -> & Hr).
  { destruct (Z.leb_spec i2 (i + 1)); [eexists; split; [done|cbn; lia]|].
    destruct (improve_ok (new_error j) i i2 x2) as (r & -> & Hr); [lia| |].
    { intros k Hk Hk2. apply Hnew; [done|]. unfold OptimalSplit.idx in *. lia. }
    exists r. split; [done|lia]. }
  assert (i1 ≤ i2) as Hi12 by (by eapply (Ho j)).
  assert (idx r.1) as Hr1 by (unfold OptimalSplit.idx in *; lia).
  rewrite bind_Ret. destruct (row_set _ _ j r.1 r.2 H1 Hidx Hr1) as (-> & -> & H1').
  rewrite !bind_Ret.
  destruct (IH {| bs1 := <[Z.to_nat j := r.1]> (bs1 t); bs2 := bs2 t;
                  e1 := <[Z.to_nat j := r.2]> (e1 t); e2 := e2 t |} (j + 1) r.1)
    as (t' & maxj & Hrun & Ht' & Ho' & Hm & Hsame & _); [by split| |lia|unfold OptimalSplit.idx in *; lia|].
  { intros q k1 k2 Hq Hq0 Hk1 Hk2. cbn in Hk1, Hk2. destruct (decide (q = j)) as [->|Hne].
    - rewrite list_lookup_insert_eq in Hk1 by (eapply lookup_lt_Some; done).
      rewrite Hl2 in Hk2. injection Hk1 as <-. injection Hk2 as <-. lia.
    - rewrite list_lookup_insert_ne in Hk1 by lia. by apply (Ho q). }
  exists t', maxj. split; [done|]. split; [done|]. split; [done|]. split; [lia|]. split.
  - intros q Hq. rewrite Hsame by lia. cbn. by rewrite list_lookup_insert_ne by lia.
  - intros _ b b2 Hb Hb2 Hbi Hbb. split; [lia|]. exists r.1. rewrite Hsame by lia. cbn.
    rewrite list_lookup_insert_eq by (eapply lookup_lt_Some; done). split; [done|].
    rewrite Hl1 in Hb. rewrite Hl2 in Hb2. injection Hb as <-. injection Hb2 as <-. lia.
Qed.

Lemma inverted_rebuild_ok t k maxj :
  tables_ok t → ordered t → 0 ≤ k < maxj → maxj ≤ dsize →
  ∃ t', inverted_rebuild type expected sweights dsize prevError l t k maxj = Ret t' ∧
    tables_ok t' ∧ ordered t' ∧ bs1 t' = bs1 t.
Proof.
  intros [H1 H2] Ho Hk Hm. unfold inverted_rebuild.
  destruct (bs_at _ _ (dsize - (dsize - maxj) - 1) H2) as (b & -> & Hb & _);
    [unfold OptimalSplit.idx; lia|].
  rewrite bind_Ret.
  destruct (inverted_cells (bs1 t) (e1 t) (bs2 t) (e2 t) (λ st _, st.1.1) (dsize - maxj) (dsize - k))
    with (i := dsize - b - 1 + 2) as (i' & b2' & x2' & -> & Hok & _ & Ho');
    [done|done|lia|lia|done|unfold OptimalSplit.idx in *; lia| |].
  { intros q ? ? Hq Hq0. by apply Ho. }
  rewrite bind_Ret. eexists. split; [done|]. split; [by split|]. split; [|done].
  by apply Ho'.
Qed.

(** The loop ends with its condition false: every pass raises [bs1[k]]. *)
Lemma rebuild_loop_ok fuel t k :
  tables_ok t → ordered t → idx k →
  (∀ b, bs1 t !! Z.to_nat k = Some b → dsize - b ≤ Z.of_nat fuel) →
  ∃ t', rebuild_loop type expected sweights dsize prevError l fuel t k = Ret t' ∧
    tables_ok t' ∧ ordered t' ∧ settled t' k = Ret true.
Proof.
  revert t. induction fuel as [|fuel IH]; intros t Ht Ho Hk Hfuel; cbn [rebuild_loop];
    destruct (settled_at t k Ht Hk) as (i1 & i2 & Hl1 & Hl2 & Hi1 & Hi2 & Hv1 & Hv2 & Hs);
    rewrite Hs, bind_Ret; specialize (Hfuel i1 Hl1).
  { exfalso. unfold OptimalSplit.idx in *. lia. }
  destruct (Z.leb_spec i2 (i1 + 1)) as [|Hlt].
  { exists t. split; [done|]. split; [done|]. split; [done|]. rewrite Hs. f_equal; lia. }
  rewrite Hv1, bind_Ret.
  destruct (forward_rebuild_ok (Z.to_nat dsize) t k (i1 + 2))
    as (t1 & maxj & -> & Ht1 & Ho1 & Hm & _ & Hstrict);
    [done|done|unfold OptimalSplit.idx in *; lia|unfold OptimalSplit.idx in *; lia|].
  rewrite bind_Ret. cbn [fst snd].
  destruct (Hstrict ltac:(lia) i1 i2 Hl1 Hl2 ltac:(lia) ltac:(lia)) as (Hkm & b' & Hb' & Hbb).
  destruct (inverted_rebuild_ok t1 k maxj) as (t2 & -> & Ht2 & Ho2 & Hsame);
    [done|done|unfold OptimalSplit.idx in *; lia|lia|].
  rewrite bind_Ret. apply IH; [done|done|done|]. rewrite Hsame, Hb'. intros b [= <-]. lia.
Qed.

Lemma first_inverted_ok b1 x1 :
  row_ok (b1, x1) →
  ∃ t, first_inverted type expected sweights dsize prevError l b1 x1 = Ret t ∧
    tables_ok t ∧ ordered t.
Proof.
  intros H1. unfold first_inverted.
  destruct (inverted_cells b1 x1 (replicate (Z.to_nat dsize) 0) x1 (λ st j, Z.max st.1.1 j) 0 dsize)
    with (i := 0) as (i' & b2 & x2 & Hr & Hok & Ho & _); [done| |lia|lia|lia|lia| |].
  { destruct H1 as (_ & Hx & _). cbn in Hx. unfold OptimalSplit.row_ok; cbn.
    unfold vsize at 1. rewrite length_replicate. split; [lia|]. split; [done|].
    apply Forall_replicate. unfold OptimalSplit.idx. lia. }
  { intros q k1 k2 Hq Hq0 Hk1. apply lookup_lt_Some in Hk1. destruct H1 as (Hb & _).
    cbn in Hb. unfold vsize in Hb. lia. }
  change (xrange dsize) with (xrange2 0 dsize). rewrite Hr, bind_Ret.
  eexists. split; [done|]. split; [by split|]. intros q k1 k2 Hq Hq0. apply Ho; lia.
Qed.

Lemma rlm2_row_ok :
  ∃ r, rlm2_row type expected sweights dsize prevError l = Ret r ∧ row_ok r.
Proof.
  unfold rlm2_row.
  destruct (linear_row_ok dsize Hdsize new_error (λ j, j + 1) Hnew) as (r1 & -> & H1).
  { unfold OptimalSplit.idx. lia. }
  rewrite bind_Ret. destruct r1 as [b1 x1]. cbn [fst snd].
  destruct (first_inverted_ok b1 x1 H1) as (t & -> & Ht & Ho). rewrite bind_Ret.
  edestruct (mfold_inv (λ (pre : list Z) (s : tables D * list Z * list D),
    tables_ok s.1.1 ∧ ordered s.1.1 ∧ Forall idx s.1.2 ∧ vsize s.1.2 = vsize pre ∧ vsize s.2 = vsize pre))
    as ([[t' row] cur] & Hr & _ & _ & Hall & Hb & He); [| |rewrite Hr, bind_Ret].
  - cbn. do 2 (split; [done|]). by split; [constructor|].
  - intros pre k rest [[t1 row] cur] Hl (Ht1 & Ho1 & Hall & Hb & He). cbn in *.
    apply xrange_split in Hl as (_ & _ & Hk).
    destruct (rebuild_loop_ok (Z.to_nat dsize) t1 k) as (t2 & -> & Ht2 & Ho2 & _);
      [done|done|done| |].
    { intros b Hlk. destruct Ht1 as [(_ & _ & Hf) _].
      eapply Forall_lookup_1 in Hf; [|exact Hlk]. unfold OptimalSplit.idx in Hf. lia. }
    rewrite bind_Ret. destruct Ht2 as [H2a H2b].
    destruct (bs_at _ _ k H2a Hk) as (b & -> & Hbi & _), (e_at _ _ k H2a Hk) as (e & ->).
    rewrite !bind_Ret. eexists. split; [done|]. cbn. rewrite !vsize_snoc, Hb, He.
    split; [by split|]. split; [done|]. split; [by apply Forall_app; split; [|apply Forall_singleton]|].
    done.
  - exists (row, cur). split; [done|]. rewrite vsize_xrange in * by lia. done.
Qed.

(** *** [E_RLM] *)

Lemma rebuild_end_ok t fuel j :
  tables_ok t → 0 < j ≤ dsize →
  ∃ j2, rebuild_end dsize t fuel j = Ret j2 ∧ j - 1 ≤ j2 < dsize ∧
    ∀ p, j ≤ p ≤ j2 → settled t p = Ret false.
Proof.
  intros Ht. revert j. induction fuel as [|fuel IH]; intros j Hj; cbn [rebuild_end].
  { exists (j - 1). destruct (dsize <=? j); (split; [done|]); (split; [lia|]); intros; lia. }
  destruct (Z.leb_spec dsize j) as [|Hlt].
  { exists (j - 1). split; [done|]. split; [lia|]. intros; lia. }
  destruct (settled_at t j Ht) as (i1 & i2 & _ & _ & _ & _ & _ & _ & Hs);
    [unfold OptimalSplit.idx; lia|].
  rewrite Hs, bind_Ret. destruct (i2 <=? i1 + 1).
  { exists (j - 1). split; [done|]. split; [lia|]. intros; lia. }
  destruct (IH (j + 1)) as (j2 & -> & Hj2 & Hall); [lia|]. exists j2. split; [done|]. split; [lia|].
  intros p Hp. destruct (decide (p = j)) as [->|]; [done|]. apply Hall. lia.
Qed.

(** What [settle] writes. *)
Lemma settle_ok t row cur j i x :
  tables_ok t → row_ok (row, cur) → idx j → idx i →
  ∃ t' row' cur', settle t row cur j i x = Ret (t', row', cur') ∧ tables_ok t' ∧
    row_ok (row', cur') ∧ bs2 t' = <[Z.to_nat j := i]> (bs2 t).
Proof.
  intros [H1 H2] Hrow Hj Hi. unfold settle.
  destruct (row_set _ _ j i x H1 Hj Hi) as (-> & Hx1 & H1').
  destruct (row_set _ _ j i x H2 Hj Hi) as (-> & Hx2 & H2').
  destruct (row_set _ _ j i x Hrow Hj Hi) as (-> & -> & Hrow').
  rewrite !bind_Ret, Hx1, !bind_Ret, Hx2, !bind_Ret.
  eexists _, _, _. split; [done|]. split; [by split|]. done.
Qed.

Lemma rebuild_first_ok t j1 j2 :
  tables_ok t → idx j1 → j2 < dsize →
  ∃ t', rebuild_first type expected sweights prevError l t j1 j2 = Ret t' ∧
    tables_ok t' ∧ bs2 t' = bs2 t.
Proof.
  intros [H1 H2] Hj1 Hj2. unfold rebuild_first.
  destruct (bs_at _ _ j1 H1 Hj1) as (i & -> & Hi & _). rewrite bind_Ret.
  edestruct (mfold_inv (λ (_ : list Z) (s : Z * list Z * list D), idx s.1.1 ∧ row_ok (s.1.2, s.2)))
    as ([[i' b1] x1] & Hr & _ & Hok); [| |rewrite Hr, bind_Ret].
  - done.
  - intros pre ji rest [[i1 b1] x1] Hl [Hi1 Hok]. cbn in Hi1, Hok.
    assert (ji ∈ xrange2 (j1 + 1) (j2 + 1)) as Hji%elem_of_xrange2 by (rewrite Hl; set_solver).
    assert (idx ji) as Hidx by (unfold OptimalSplit.idx in *; lia).
    destruct (slide_from_ok dsize (new_error ji) i1 (ji + 1)) as (r & -> & _ & Hr);
      [done|lia|intros; by apply Hnew|].
    rewrite bind_Ret. destruct (row_set _ _ ji r.1 r.2 Hok Hidx Hr) as (-> & -> & Hok').
    rewrite !bind_Ret. eexists. split; [done|]. done.
  - eexists. split; [done|]. split; [by split|done].
Qed.

Lemma rebuild_second_ok t j1 j2 :
  tables_ok t → 0 ≤ j1 → idx j2 →
  ∃ t', rebuild_second type expected sweights dsize prevError l t j1 j2 = Ret t' ∧ tables_ok t'.
Proof.
  intros [H1 H2] Hj1 Hj2. unfold rebuild_second.
  destruct (bs_at _ _ j2 H2 Hj2) as (b & -> & Hb & _). rewrite bind_Ret.
  edestruct (mfold_inv (λ (_ : list Z) (s : Z * list Z * list D), idx s.1.1 ∧ row_ok (s.1.2, s.2)))
    as ([[i' b2] x2] & Hr & _ & Hok); [| |rewrite Hr, bind_Ret].
  - split; [|done]. cbn. unfold OptimalSplit.idx in *. lia.
  - intros pre ji rest [[i1 b2] x2] Hl [Hi1 Hok]. cbn in Hi1, Hok.
    assert (ji ∈ xrange2 (dsize - j2) (dsize - j1 - 1)) as Hji%elem_of_xrange2 by (rewrite Hl; set_solver).
    assert (idx ji) as Hidx by (unfold OptimalSplit.idx in *; lia).
    destruct (slide_from_ok dsize (inverted_error ji) (Z.max i1 ji) dsize) as (r & -> & _ & Hr);
      [unfold OptimalSplit.idx in *; lia|lia|intros; by apply inverted_total|].
    rewrite bind_Ret.
    assert (idx (dsize - ji - 1) ∧ idx (dsize - r.1 - 1)) as [Hp Hv] by (unfold OptimalSplit.idx in *; lia).
    destruct (row_set _ _ (dsize - ji - 1) (dsize - r.1 - 1) r.2 Hok Hp Hv) as (-> & -> & Hok').
    rewrite !bind_Ret. eexists. split; [done|]. done.
  - eexists. split; [done|]. by split.
Qed.

Lemma rlm_cell_ok t row cur j :
  tables_ok t → row_ok (row, cur) → idx j → dsize < 2 ^ 64 →
  ∃ t' row' cur', rlm_cell type expected sweights dsize prevError l (t, row, cur) j =
      Ret (t', row', cur') ∧ tables_ok t' ∧ row_ok (row', cur').
Proof.
  intros Ht Hrow Hj H64. unfold rlm_cell.
  destruct (settled_at t j Ht Hj) as (i1 & i2 & _ & _ & Hi1 & Hi2 & Hv1 & Hv2 & Hs).
  destruct (e_at _ _ j (proj1 Ht) Hj) as (x1 & Hx1).
  rewrite Hs, bind_Ret. destruct (i2 <=? i1 + 1).
  { rewrite Hv1, bind_Ret, Hx1, bind_Ret.
    destruct (row_set _ _ j i1 x1 Hrow Hj Hi1) as (-> & -> & Hrow'). rewrite !bind_Ret.
    eexists _, _, _. done. }
  destruct (rebuild_end_ok t (Z.to_nat dsize) (j + 1)) as (j2 & -> & Hj2 & Hall);
    [done|unfold OptimalSplit.idx in *; lia|].
  rewrite bind_Ret, Hv1, bind_Ret, Hv2, bind_Ret, Hx1, bind_Ret.
  destruct (scan_ok clearly_less (new_error j) (i1 + 2) (i2 + 1) (x1, i1)) as (best & -> & Hbest).
  { intros i Hi. apply Hnew; [done|]. unfold OptimalSplit.idx in *. lia. }
  rewrite bind_Ret. cbn in Hbest.
  assert (idx best.2) as Hbi by (unfold OptimalSplit.idx in *; lia).
  destruct (settle_ok t row cur j best.2 best.1) as (t1 & row1 & cur1 & -> & Ht1 & Hrow1 & Hb2);
    [done..|]. rewrite bind_Ret.
  destruct (Z.ltb_spec (j + 1) j2) as [Hlt|]; [|by eexists _, _, _].
  assert (idx j2) as Hj2i by (unfold OptimalSplit.idx in *; lia).
  assert (∃ t2, (if i1 =? best.2 then Ret t1
     else rebuild_first type expected sweights prevError l t1 j j2) = Ret t2 ∧ tables_ok t2 ∧
     bs2 t2 = bs2 t1) as (t2 & -> & Ht2 & Hsame).
  { destruct (i1 =? best.2); [by exists t1|]. apply rebuild_first_ok; [done|done|lia]. }
  rewrite bind_Ret.
  destruct (settled_at t2 j2 Ht2 Hj2i) as (k1 & k2 & _ & Hk2 & Hk1i & Hk2i & -> & -> & _).
  destruct (e_at _ _ j2 (proj2 Ht2) Hj2i) as (x2 & ->). rewrite !bind_Ret.
  assert (2 ≤ k2) as Hk22.
  { destruct (settled_at t j2 Ht Hj2i) as (m1 & m2 & _ & Hm2 & Hm1 & _ & _ & _ & Hm).
    rewrite (Hall j2) in Hm by lia. injection Hm as Hm. symmetry in Hm. apply Z.leb_gt in Hm.
    rewrite Hsame, Hb2, list_lookup_insert_ne in Hk2 by (unfold OptimalSplit.idx in *; lia).
    rewrite Hm2 in Hk2.
    injection Hk2 as <-. unfold OptimalSplit.idx in *. lia. }
  rewrite u64_small by (unfold OptimalSplit.idx in *; lia).
  destruct (scan_ok clearly_less (new_error j2) k1 (k2 - 1) (x2, k2)) as (best2 & -> & Hbest2).
  { intros i Hi. apply Hnew; [done|]. unfold OptimalSplit.idx in *. lia. }
  rewrite bind_Ret. cbn in Hbest2.
  assert (idx best2.2) as Hbi2 by (unfold OptimalSplit.idx in *; lia).
  destruct (settle_ok t2 row1 cur1 j2 best2.2 best2.1) as (t3 & row2 & cur2 & -> & Ht3 & Hrow2 & _);
    [done..|]. rewrite bind_Ret.
  assert (∃ t4, (if k2 =? best2.2 then Ret t3
     else rebuild_second type expected sweights dsize prevError l t3 j j2) = Ret t4 ∧ tables_ok t4)
    as (t4 & -> & Ht4).
  { destruct (k2 =? best2.2); [by exists t3|].
    apply rebuild_second_ok; [done|unfold OptimalSplit.idx in *; lia|done]. }
  rewrite bind_Ret. by eexists _, _, _.
Qed.

(** A row of zeros. *)
Lemma zero_row_ok (e : list D) :
  vsize e = dsize → row_ok (replicate (Z.to_nat dsize) 0, e).
Proof.
  intros He. unfold OptimalSplit.row_ok; cbn. unfold vsize at 1. rewrite length_replicate.
  split; [lia|]. split; [done|]. apply Forall_replicate. unfold OptimalSplit.idx. lia.
Qed.

Lemma rlm_row_ok t :
  tables_ok t → dsize < 2 ^ 64 →
  ∃ r, rlm_row type expected sweights dsize prevError l t = Ret r ∧ row_ok r.
Proof.
  intros Ht H64. unfold rlm_row.
  edestruct (mfold_inv (λ (_ : list Z) (s : tables D * list Z * list D),
    tables_ok s.1.1 ∧ row_ok (s.1.2, s.2)))
    as ([[t' row] cur] & Hr & _ & Hok); [| |rewrite Hr, bind_Ret].
  - split; [done|]. apply zero_row_ok. by destruct Ht as [(_ & He & _) _].
  - intros pre j rest [[t1 row] cur] Hl [Ht1 Hok]. cbn in Ht1, Hok.
    apply xrange_split in Hl as (_ & _ & Hj).
    destruct (rlm_cell_ok t1 row cur j) as (t2 & row2 & cur2 & -> & ? & ?); [done..|].
    eexists. split; [done|]. done.
  - by eexists.
Qed.

(** *** [E_DaC] *)

Definition box_ok (b : box) : Prop :=
  let '(jbegin, jend, ibegin, iend) := b in
  0 ≤ jbegin ≤ jend ∧ jend ≤ dsize ∧ 0 ≤ ibegin < iend ∧ iend ≤ dsize.

(** Twice the positions of a box and one for the box itself. *)
Definition box_weight (b : box) : Z :=
  let '(jbegin, jend, _, _) := b in 2 * (jend - jbegin) + 1.

Definition boxes_weight (bs : list box) : Z := foldr (λ b n, box_weight b + n) 0 bs.

Lemma boxes_weight_app bs bs' : boxes_weight (bs ++ bs') = boxes_weight bs + boxes_weight bs'.
Proof using. induction bs as [|b bs IH]; cbn; [done|]. fold (boxes_weight (bs ++ bs')). unfold boxes_weight in *. lia. Qed.

Lemma dac_box_ok row cur b :
  row_ok (row, cur) → box_ok b →
  ∃ row' cur' more, dac_box type expected sweights prevError l row cur b = Ret (row', cur', more) ∧
    row_ok (row', cur') ∧ Forall box_ok more ∧ boxes_weight more < box_weight b.
Proof.
  destruct b as [[[jb je] ib] ie]. intros Hrow (Hj & Hje & Hi & Hie). unfold dac_box.
  cbn [box_weight].
  destruct (Z.leb_spec je jb).
  { eexists _, _, []. split; [done|]. split; [done|]. split; [constructor|]. cbn. lia. }
  destruct (Z.eqb_spec (ie - ib) 1) as [Hone|Hmore].
  - edestruct (mfold_inv (λ (_ : list Z) (s : list Z * list D), row_ok s))
      as ([row' cur'] & Hr & Hok); [| |rewrite Hr, bind_Ret].
    + exact Hrow.
    + intros pre j rest [row1 cur1] Hl Hok.
      assert (j ∈ xrange2 jb je) as Hjr%elem_of_xrange2 by (rewrite Hl; set_solver).
      assert (idx j ∧ idx ib) as [Hji Hib] by (unfold OptimalSplit.idx; lia).
      destruct (Hnew j ib Hji Hib) as (e & ->).
      destruct (row_set _ _ j ib e Hok Hji Hib) as (-> & He & Hok').
      rewrite !bind_Ret, He, bind_Ret. eexists. split; [done|]. done.
    + eexists _, _, []. split; [done|]. split; [done|]. split; [constructor|]. cbn. lia.
  - set (j := (jb + je) / 2).
    assert (jb ≤ j < je) as Hjr.
    { subst j. split; [apply Z.div_le_lower_bound; lia|apply Z.div_lt_upper_bound; lia]. }
    assert (idx j ∧ idx ib) as [Hji Hib] by (unfold OptimalSplit.idx; lia).
    destruct (Hnew j ib Hji Hib) as (e & ->). rewrite bind_Ret.
    destruct (scan_ok d_le (new_error j) (ib + 1) (Z.min ie (j + 1)) (e, ib)) as (best & -> & Hbest).
    { intros i Hir. apply Hnew; [done|]. unfold OptimalSplit.idx. lia. }
    rewrite bind_Ret. cbn in Hbest.
    assert (idx best.2) as Hbi by (unfold OptimalSplit.idx; lia).
    destruct (row_set _ _ j best.2 best.1 Hrow Hji Hbi) as (-> & -> & Hrow'). rewrite !bind_Ret.
    eexists _, _, _. split; [done|]. split; [done|]. split.
    + repeat (apply Forall_cons; split); [..|by apply Forall_nil]; cbn; lia.
    + cbn. lia.
Qed.

Lemma dac_loop_ok fuel row cur qr :
  row_ok (row, cur) → Forall box_ok qr → boxes_weight qr ≤ Z.of_nat fuel →
  ∃ r, dac_loop type expected sweights prevError l fuel row cur qr = Some (Ret r) ∧ row_ok r.
Proof.
  revert row cur qr. induction fuel as [|fuel IH]; intros row cur qr Hrow Hqr Hw.
  { destruct qr as [|b qr]; [by exists (row, cur)|]. exfalso.
    assert (∀ bs, Forall box_ok bs → 0 ≤ boxes_weight bs) as Hpos.
    { induction 1 as [|[[[jb je] ib] ie] bs Hb _ IHb]; cbn; [lia|].
      destruct Hb as (? & _). unfold boxes_weight in IHb. lia. }
    apply Forall_cons in Hqr as [Hb Hqr]. apply Hpos in Hqr.
    change (boxes_weight (b :: qr)) with (box_weight b + boxes_weight qr) in Hw.
    destruct b as [[[jb je] ib] ie], Hb as (? & _). cbn [box_weight] in Hw. lia. }
  destruct qr as [|b qr]; [by exists (row, cur)|]. cbn [dac_loop].
  apply Forall_cons in Hqr as [Hb Hqr].
  destruct (dac_box_ok row cur b Hrow Hb) as (row' & cur' & more & -> & Hrow' & Hmore & Hlt).
  apply IH; [done|by apply Forall_app|]. rewrite boxes_weight_app.
  change (boxes_weight (b :: qr)) with (box_weight b + boxes_weight qr) in Hw. lia.
Qed.

Lemma dac_row_ok cur :
  vsize cur = dsize →
  ∃ r, dac_row type expected sweights dsize prevError l cur = Ret r ∧ row_ok r.
Proof.
  intros Hcur. unfold dac_row.
  destruct (dac_loop_ok (dac_fuel dsize) (replicate (Z.to_nat dsize) 0) cur [(0, dsize, 0, dsize)])
    as (r & -> & Hr).
  - by apply zero_row_ok.
  - apply Forall_singleton. cbn. lia.
  - unfold dac_fuel, boxes_weight, box_weight. cbn [foldr]. lia.
  - by exists r.
Qed.

(** *** Every mode *)

End SafeModes.

Section BestSplit.
  Context {W D : Type} `{HW : Arith W} `{HD : Arith D} `{HC : Conv W D}.
  Context (type : EPenaltyType) (expected : D) (sweights : list W) (dsize : Z).
  Hypothesis Hdsize : 0 < dsize < 2 ^ 64.

Lemma layer_ok prev l mode cur :
  err_total dsize (if is_base mode then base_error type expected sweights prev
                   else new_error type expected sweights prev l) →
  vsize cur = dsize →
  ∃ r, layer type expected sweights dsize prev l mode cur = Ret r ∧ row_ok dsize r.
Proof.
  intros Herr Hcur.
  destruct mode; cbn [is_base layer] in *.
  - apply full_row_ok; [lia|done].
  - apply linear_row_ok; [lia|done|]. unfold idx. lia.
  - apply full_row_ok; [lia|done].
  - apply linear_row_ok; [lia|done|]. unfold idx. lia.
  - destruct (two_loops_ok type expected sweights dsize prev l ltac:(lia) Herr) as (t & -> & Ht).
    apply linear_2l_row_ok; [lia|done].
  - destruct (two_loops_ok type expected sweights dsize prev l ltac:(lia) Herr) as (t & -> & Ht).
    apply safe_row_ok; [lia|done|done].
  - destruct (two_loops_ok type expected sweights dsize prev l ltac:(lia) Herr) as (t & -> & Ht).
    apply rlm_row_ok; [lia|done|done|lia].
  - apply rlm2_row_ok; [lia|done].
  - apply dac_row_ok; [lia|done|done].
  - eexists. split; [done|]. apply zero_row_ok; [lia|done].
Qed.

(** The errors a layer reads are defined. *)
Lemma base_total prev :
  vsize sweights = dsize → vsize prev = dsize →
  err_total dsize (base_error type expected sweights prev).
Proof.
  intros Hs Hp j i Hj Hi. unfold base_error, step_error, idx in *.
  destruct (vat_in_range prev i) as (x & -> & _); [lia|].
  destruct (vat_in_range sweights j) as (a & -> & _); [lia|].
  destruct (vat_in_range sweights i) as (b & -> & _); [lia|]. eauto.
Qed.

Lemma new_total prev l :
  0 ≤ l → l + dsize < vsize sweights → vsize prev = dsize →
  err_total dsize (new_error type expected sweights prev l).
Proof.
  intros Hl Hs Hp j i Hj Hi. unfold new_error, step_error, idx in *.
  destruct (vat_in_range prev i) as (x & -> & _); [lia|].
  destruct (vat_in_range sweights (l + j + 1)) as (a & -> & _); [lia|].
  destruct (vat_in_range sweights (l + i)) as (b & -> & _); [lia|]. eauto.
Qed.

(** The walk back through the rows stays inside them. *)
Lemma last_match_ok bins mode rows prev thresholds :
  2 ≤ bins → vsize thresholds = bins - 1 → vsize rows = bins - 2 →
  Forall (λ row, vsize row = dsize ∧ Forall (idx dsize) row) rows →
  err_total dsize (if is_base mode then base_error type expected sweights prev
                   else new_error type expected sweights prev (bins - 2)) →
  ∃ t, last_match type expected sweights dsize bins mode rows prev thresholds = Ret t ∧
    vsize t = bins - 1 ∧
    ∀ i x, t !! i = Some x → idx dsize (if is_base mode then x else x - Z.of_nat i).
Proof.
  intros Hbins Hth Hrows Hall Herr. unfold last_match.
  set (err := if is_base mode then _ else _).
  assert (∀ i, idx dsize i → ∃ e, err i = Ret e) as Herr'.
  { intros i Hi. subst err. specialize (Herr (dsize - 1) i).
    destruct (is_base mode); apply Herr; unfold idx in *; lia. }
  destruct (Herr' 0) as (e & ->); [unfold idx; lia|]. rewrite bind_Ret.
  destruct (scan_ok a_ltb err 1 (dsize - 1 + 1) (e, 0)) as (best & -> & Hbest).
  { intros i Hi. apply Herr'. unfold idx. lia. }
  rewrite bind_Ret. cbn in Hbest.
  assert (idx dsize best.2) as Hbi by (unfold idx; lia).
  rewrite vset_Ret_insert, bind_Ret by lia.
  edestruct (mfold_inv (λ (pre : list Z) (s : list Z * Z),
    vsize s.1 = bins - 1 ∧ idx dsize s.2 ∧
    ∀ i x, bins - 2 - vsize pre ≤ Z.of_nat i → s.1 !! i = Some x → idx dsize x))
    as ([t index] & Hr & Hs & _ & Ht); [| |rewrite Hr, bind_Ret].
  - cbn [fst snd]. rewrite vsize_insert. split; [done|]. split; [done|].
    intros i x Hi Hx. rewrite vsize_nil in Hi. pose proof (lookup_lt_Some _ _ _ Hx) as Hlt.
    rewrite length_insert in Hlt. unfold vsize in Hth.
    assert (i = Z.to_nat (bins - 2)) as -> by lia.
    rewrite list_lookup_insert_eq in Hx by lia. by injection Hx as <-.
  - intros pre k rest [t index] Hl (Hs & Hi & Ht). cbn [fst snd] in *.
    apply xrange_split in Hl as (Hk & _ & Hkr). cbv zeta.
    destruct (vat_all _ rows (bins - 2 - k - 1) Hall) as (row & -> & (Hrs & Hrow) & _); [lia|].
    rewrite bind_Ret. destruct (vat_all _ row index Hrow) as (index' & -> & Hi' & _);
      [unfold idx in *; lia|].
    rewrite bind_Ret, vset_Ret_insert, bind_Ret by lia. eexists. split; [done|]. cbn [fst snd].
    rewrite vsize_insert. split; [done|]. split; [done|]. intros i x Hix Hx.
    rewrite vsize_snoc in Hix. destruct (decide (i = Z.to_nat (bins - 2 - k - 1))) as [->|Hne].
    + rewrite list_lookup_insert_eq in Hx by (unfold vsize in *; lia). by injection Hx as <-.
    + rewrite list_lookup_insert_ne in Hx by done. apply (Ht i); [lia|done].
  - cbn [fst snd] in *. rewrite vsize_xrange in Ht by lia. eexists. split; [done|].
    destruct (is_base mode).
    + split; [done|]. intros i x. apply Ht. lia.
    + split; [unfold vsize; by rewrite length_imap|]. intros i x Hx.
      rewrite list_lookup_imap in Hx. destruct (t !! i) as [y|] eqn:Hy; [|done].
      injection Hx as <-. rewrite Z.add_simpl_r. apply (Ht i); [lia|done].
Qed.

End BestSplit.

Lemma partial_sums_length {W} `{Arith W} acc (l : list W) : length (partial_sums acc l) = length l.
Proof. revert acc. induction l as [|w l IH]; intros acc; cbn; [done|]. by rewrite IH. Qed.

Lemma vsize_sums_of {W} `{Arith W} (l : list W) : vsize (sums_of l) = vsize l.
Proof. unfold vsize. destruct l; cbn; [done|]. by rewrite partial_sums_length. Qed.

(** The answer for no more weights than bins. *)
Lemma short_thresholds_ok thresholds bins wsize :
  0 < wsize ≤ bins → vsize thresholds = bins - 1 →
  ∃ t, short_thresholds thresholds bins wsize = Ret t ∧ vsize t = bins - 1 ∧
    ∀ i x, t !! i = Some x → x = Z.min (Z.of_nat i) (wsize - 1).
Proof.
  intros Hw Hth. unfold short_thresholds.
  edestruct (mfold_inv (λ (pre : list Z) (t : list Z), vsize t = bins - 1 ∧
    ∀ i x, Z.of_nat i < vsize pre → t !! i = Some x → x = Z.of_nat i))
    as (t1 & Hr & Hs1 & Ht1); [| |rewrite Hr, bind_Ret].
  - split; [done|]. intros i x Hi. rewrite vsize_nil in Hi. lia.
  - intros pre k rest t Hl (Hs & Ht). apply xrange_split in Hl as (Hk & _ & Hkr).
    rewrite vset_Ret_insert by lia. eexists. split; [done|]. rewrite vsize_insert. split; [done|].
    intros i x Hi Hx. rewrite vsize_snoc in Hi. destruct (decide (i = Z.to_nat k)) as [->|Hne].
    + rewrite list_lookup_insert_eq in Hx by (unfold vsize in *; lia). injection Hx as <-. lia.
    + rewrite list_lookup_insert_ne in Hx by done. apply Ht; [lia|done].
  - rewrite vsize_xrange in Ht1 by lia.
    edestruct (mfold_inv (λ (pre : list Z) (t : list Z), vsize t = bins - 1 ∧
      ∀ i x, Z.of_nat i < wsize - 1 + vsize pre → t !! i = Some x →
        x = Z.min (Z.of_nat i) (wsize - 1)))
      as (t2 & Hr2 & Hs2 & Ht2); [| |exists t2; split; [exact Hr2|]].
    + split; [done|]. intros i x Hi Hx. rewrite vsize_nil in Hi.
      rewrite (Ht1 i x) by (lia || done). lia.
    + intros pre k rest t Hl (Hs & Ht).
      assert (k = wsize - 1 + vsize pre ∧ k < bins - 1) as [Hk Hkb].
      { rewrite xrange2_seqZ in Hl.
        assert (seqZ (wsize - 1) (bins - 1 - (wsize - 1)) !! length pre = Some k) as Hlk
          by (rewrite Hl; by apply list_lookup_middle).
        apply lookup_seqZ in Hlk. unfold vsize. lia. }
      pose proof (vsize_nonneg pre). rewrite vset_Ret_insert by lia. eexists. split; [done|]. rewrite vsize_insert. split; [done|].
      intros i x Hi Hx. rewrite vsize_snoc in Hi. destruct (decide (i = Z.to_nat k)) as [->|Hne].
      * rewrite list_lookup_insert_eq in Hx by (unfold vsize in *; lia). injection Hx as <-. lia.
      * rewrite list_lookup_insert_ne in Hx by done. apply Ht; [lia|done].
    + split; [done|]. intros i x Hx. apply Ht2; [|done].
      pose proof (lookup_lt_Some _ _ _ Hx). rewrite xrange2_seqZ. unfold vsize in *.
      rewrite length_seqZ. lia.
Qed.

(** The property of [BestSplit] that its callers use. *)
Lemma BestSplit_safe_lemma {W D} `{HW : Arith W} `{HD : Arith D} `{HC : Conv W D}
  (weights : list W) (borders_count : Z) (thresholds : list Z) (type : EPenaltyType) (mode : ESF)
  (Hcount : 0 ≤ borders_count < 2 ^ 64 - 1) (Hsize : vsize weights < 2 ^ 64) :
  ∃ t, BestSplit (D := D) weights borders_count thresholds type mode = Ret t ∧
    (borders_count = 0 ∨ weights = [] → t = thresholds) ∧
    (0 < borders_count → weights ≠ [] → vsize t = borders_count ∧
       ∀ i x, t !! i = Some x → 0 ≤ x < vsize weights ∧
         (borders_count + 1 < vsize weights → is_base mode = false →
          Z.of_nat i ≤ x < vsize weights - 1)).
Proof.
  unfold BestSplit. rewrite u64_small by lia. pose proof (vsize_nonneg weights).
  destruct (Z.leb_spec (borders_count + 1) 1), (Z.eqb_spec (vsize weights) 0); cbn [orb];
    try (exists thresholds; split; [done|]; split; [done|]; intros ? Hw; exfalso;
         pose proof (vsize_pos weights Hw); lia).
  set (th := if vsize thresholds =? _ then _ else _).
  assert (vsize th = borders_count) as Hth.
  { subst th. destruct (Z.eqb_spec (vsize thresholds) (borders_count + 1 - 1)); [lia|].
    rewrite vsize_vresize; lia. }
  assert (¬ (borders_count = 0 ∨ weights = [])) as Hno.
  { intros [Hz|Hz]; [lia|]. rewrite Hz, vsize_nil in *. lia. }
  destruct (Z.leb_spec (vsize weights) (borders_count + 1)) as [Hle|Hgt].
  - destruct (short_thresholds_ok th (borders_count + 1) (vsize weights)) as (t & -> & Hs & Ht);
      [lia|lia|].
    exists t. split; [done|]. split; [by intros ?%Hno|]. intros _ _. split; [lia|].
    intros i x Hx. rewrite (Ht i x Hx). split; [lia|]. intros. lia.
  - destruct (vat_in_range (sums_of weights) (vsize weights - 1)) as (total & -> & _);
      [rewrite vsize_sums_of; lia|]. rewrite bind_Ret. cbv zeta.
    set (expected := _ ⊘ _).
    set (dsize := if is_base mode then _ else _).
    assert (0 < dsize < 2 ^ 64 ∧ dsize ≤ vsize weights) as [Hd Hdw] by (subst dsize; destruct (is_base mode); lia).
    edestruct (mfold_inv (λ (pre : list Z) (s : list D * list D * list (list Z)),
      vsize s.1.1 = dsize ∧ vsize s.1.2 = dsize ∧ vsize s.2 = vsize pre ∧
      Forall (λ row, vsize row = dsize ∧ Forall (idx dsize) row) s.2))
      as ([[current prev] rows] & Hr & Hc & _ & Hrows & Hall); [| |rewrite Hr, bind_Ret].
    + cbn [fst snd]. unfold vsize at 1 2. rewrite length_fmap, length_take, length_replicate.
      pose proof (vsize_sums_of weights) as Hss. unfold vsize in Hss.
      split; [unfold vsize in *; lia|]. split; [lia|]. split; [done|constructor].
    + intros pre k rest [[current prev] rows] Hl (Hc & Hp & Hrows & Hall). cbn [fst snd] in *.
      apply xrange_split in Hl as (Hk & _ & Hkr).
      destruct (layer_ok type expected (sums_of weights) dsize Hd current k mode prev)
        as (r & -> & Hr1 & Hr2 & Hr3); [|done|].
      { subst dsize. destruct (is_base mode);
          [apply base_total|apply new_total]; rewrite ?vsize_sums_of; lia. }
      rewrite bind_Ret. eexists. split; [done|]. cbn [fst snd].
      rewrite !vsize_snoc. split; [done|]. split; [done|]. split; [lia|].
      apply Forall_app. split; [done|]. by apply Forall_singleton.
    + cbn [fst snd] in *. rewrite vsize_xrange in Hrows by lia.
      destruct (last_match_ok type expected (sums_of weights) dsize Hd (borders_count + 1) mode
        rows current th) as (t & -> & Hts & Ht); [lia|lia|lia|done| |].
      { subst dsize. destruct (is_base mode);
          [apply base_total|apply new_total]; rewrite ?vsize_sums_of; lia. }
      exists t. split; [done|]. split; [by intros ?%Hno|]. intros _ _. split; [lia|].
      intros i x Hx. specialize (Ht i x Hx). pose proof (lookup_lt_Some _ _ _ Hx).
      unfold idx in Ht. subst dsize. unfold vsize in Hts. destruct (is_base mode).
      * split; [lia|]. done.
      * split; [lia|]. intros. lia.
Qed.


