(* ===== verification/GridCreator.v ===== *)
(** * Choice of a binarizer: [library/grid_creator/binarization.h/.cpp]

    The binarizers over the optimal splits, and [BestSplit], which sorts the values
    and runs the binarizer of a border selection type. *)
From Stdlib Require Import Reals Lra.
From S2P Require Import Prelude Arith XRange Algorithm HashTable HashMap Grid MedianInBin OptimalSplit.
Open Scope Z_scope.

(** ** [EBorderSelectionType] *)

Inductive EBorderSelectionType : Type :=
| Median
| GreedyLogSum
| UniformAndQuantiles
| MinEntropy
| MaxLogSum
| Uniform.

Section GridCreator.
  Context {F D : Type} `{HF : Arith F} `{HD : Arith D} `{HC : Conv F D}.
  (** [hash<float>] and the top of [std::priority_queue] *)
  Variable hash : F → Z.
  Variable pick : list (TFeatureBin D) → nat.

(** ** Optimal splits of values *)

(** The borders after the positions [thresholds]. *)
Definition BestSplit_weights (values weight : list F) (borders_count : Z) (type : EPenaltyType)
    : outcome (yhash_set F) :=
  thresholds ← OptimalSplit.BestSplit (D := D) weight (u64 borders_count) [] type E_RLM2;
  mfold (λ borders t,
      if t + 1 =? vsize values then Ret borders
      else
        x ← vat values t; y ← vat values (t + 1);
        add_border hash borders ((x ⊞ y) ⊘ a_ofZ 2))
    yhash_set_empty thresholds.

(** One pass over the values: [features] are the different ones, [weights] how often
    they occur. *)
Definition count_value (s : list F * list F) (f : F) : list F * list F :=
  let '(features, weights) := s in
  match list.last features with
  | Some back =>
      if a_eqb back f
      then (features, alter (λ w, w ⊞ a_ofZ 1) (pred (length weights)) weights)
      else (features ++ [f], weights ++ [a_ofZ 1])
  | None => (features ++ [f], weights ++ [a_ofZ 1])
  end.

Definition SplitWithGuaranteedOptimum (feature_values : list F) (borders_count : Z)
    (type : EPenaltyType) (is_sorted : bool) : outcome (list F * yhash_set F) :=
  let feature_values := ensure_sorted feature_values is_sorted in
  let '(features, weights) := foldl count_value ([], []) feature_values in
  borders ← BestSplit_weights features weights borders_count type;
  Ret (feature_values, borders).

Definition TMinEntropyBinarizer : IBinarizer F := {|
  Grid.BestSplit := λ feature_values borders_count is_sorted,
    SplitWithGuaranteedOptimum feature_values borders_count OptimalSplit.MinEntropy is_sorted
|}.

Definition TMaxSumLogBinarizer : IBinarizer F := {|
  Grid.BestSplit := λ feature_values borders_count is_sorted,
    SplitWithGuaranteedOptimum feature_values borders_count MaxSumLog is_sorted
|}.

(** ** [BestSplit] *)

Definition binarizer_of (type : EBorderSelectionType) : IBinarizer F :=
  match type with
  | UniformAndQuantiles => TMedianPlusUniformBinarizer hash
  | MinEntropy => TMinEntropyBinarizer
  | MaxLogSum => TMaxSumLogBinarizer
  | Median => TMedianBinarizer hash
  | GreedyLogSum => TMedianInBinBinarizer hash pick
  | Uniform => TUniformBinarizer hash
  end.

(** [std::isnan(v)] *)
Definition is_nan (v : F) : bool := negb (a_eqb v v).

Definition BestSplit (feature_vals : list F) (borders_count : Z) (type : EBorderSelectionType)
    (nan_values_is_infty : bool) : outcome (list F * yhash_set F) :=
  let feature_vals := Sort feature_vals in
  let feature_vals := if nan_values_is_infty
                      then filter (λ v, is_nan v = false) feature_vals else feature_vals in
  Grid.BestSplit (binarizer_of type) feature_vals borders_count true.

End GridCreator.

(** ** Different values *)

Section Exact.
  Context {D : Type} `{HD : Arith D} `{HC : Conv R D} (hash : R → Z).

(** The values seen so far, strictly ordered, and a weight for each. *)
Definition counted (pre : list R) (s : list R * list R) : Prop :=
  length s.1 = length s.2 ∧ (∀ x, x ∈ s.1 → x ∈ pre) ∧ (pre ≠ [] → s.1 ≠ []) ∧
  StronglySorted Rlt s.1.

Lemma StronglySorted_snoc {A} (P : A → A → Prop) (l : list A) x :
  StronglySorted P l → (∀ y, y ∈ l → P y x) → StronglySorted P (l ++ [x]).
Proof.
  induction 1 as [|z l Hs IH Hz]; intros Hall; cbn; [by repeat constructor|].
  constructor; [apply IH; set_solver|]. apply Forall_app. split; [done|].
  apply Forall_singleton, Hall. set_solver.
Qed.

Lemma sorted_last (l : list R) x y :
  StronglySorted Rlt l → list.last l = Some y → x ∈ l → (x <= y)%R.
Proof.
  induction 1 as [|z l Hs IH Hz]; intros Hl Hx; [by apply not_elem_of_nil in Hx|].
  destruct l as [|z' l].
  - injection Hl as <-. apply list_elem_of_singleton in Hx as ->. lra.
  - cbn [list.last] in Hl. apply elem_of_cons in Hx as [->|Hx]; [|by apply IH].
    rewrite Forall_forall in Hz. specialize (Hz y).
    assert (y ∈ z' :: l) as Hy. { apply last_Some in Hl as [l' ->]. set_solver. }
    specialize (Hz Hy). lra.
Qed.

Lemma count_value_spec pre s f :
  counted pre s → (∀ x, x ∈ pre → (x <= f)%R) → counted (pre ++ [f]) (count_value s f).
Proof.
  destruct s as [features weights]. intros (Hlen & Hin & Hne & Hs) Hle. unfold count_value.
  cbn [fst snd] in *.
  destruct (list.last features) as [back|] eqn:Hback.
  - cbn [a_eqb real_arith]. unfold Reqb. destruct (Req_dec_T back f) as [->|Hneq].
    + split; [by cbn; rewrite length_alter|]. split; [cbn; set_solver|]. split; [|done].
      cbn. intros _ ->. done.
    + split; [cbn; rewrite !length_app; cbn; lia|]. split; [cbn; set_solver|].
      split; [cbn; by destruct features|]. apply StronglySorted_snoc; [done|].
      intros y Hy. pose proof (sorted_last features y back Hs Hback Hy).
      assert (back ∈ features) as Hbf by (apply last_Some in Hback as [l' ->]; set_solver).
      specialize (Hle back (Hin back Hbf)). lra.
  - apply last_None in Hback as ->. cbn in Hlen. destruct weights; [|done].
    split; [done|]. split; [cbn; set_solver|]. split; [done|]. cbn. by repeat constructor.
Qed.

Lemma counted_values (values : list R) :
  StronglySorted Rle values → counted values (foldl count_value ([], []) values).
Proof.
  intros Hs.
  assert (∀ post pre s, values = pre ++ post → counted pre s →
    counted values (foldl count_value s post)) as Hgen.
  { induction post as [|f post IH]; intros pre s Hv Hc; cbn.
    - by rewrite Hv, app_nil_r.
    - apply (IH (pre ++ [f])); [by rewrite <- app_assoc|]. apply count_value_spec; [done|].
      intros x Hx. apply list_elem_of_lookup in Hx as [i Hi].
      eapply (sorted_le values i (length pre)); [done| | |].
      + apply lookup_lt_Some in Hi. lia.
      + rewrite Hv. by apply lookup_app_l_Some.
      + rewrite Hv. by apply list_lookup_middle. }
  apply (Hgen values []); [done|]. split; [done|]. split; [done|]. split; [done|constructor].
Qed.

Lemma strictly_sorted_next (l : list R) i x y :
  StronglySorted Rlt l → l !! i = Some x → l !! S i = Some y → (x < y)%R.
Proof.
  intros Hs. revert i. induction Hs as [|z l Hs IH Hz]; intros i Hi Hj; [done|].
  destruct i as [|i]; cbn in *; [|by eapply IH]. injection Hi as <-.
  rewrite Forall_forall in Hz. apply Hz. by eapply list_elem_of_lookup_2.
Qed.

Lemma guaranteed_ok (B : IBinarizer R) type :
  (∀ values count is_sorted, Grid.BestSplit B values count is_sorted =
     SplitWithGuaranteedOptimum (D := D) hash values count type is_sorted) →
  binarizer_ok B.
Proof.
  intros HB. apply (binarizer_ok_intro hash B (λ l count,
    let '(features, weights) := foldl count_value ([], []) l in
    BestSplit_weights (D := D) hash features weights count type)).
  { intros l count b. rewrite HB. unfold SplitWithGuaranteedOptimum.
    by destruct (foldl _ _ _) as [features weights]. }
  intros l count Hl Hs Hc Hn. pose proof (counted_values l Hs) as Hcounted.
  destruct (foldl count_value ([], []) l) as [features weights].
  destruct Hcounted as (Hlen & Hin & Hne & Hfs). cbn [fst snd] in *.
  unfold BestSplit_weights. rewrite u64_small by lia.
  assert (length features ≤ length l)%nat as Hfl.
  { apply (submseteq_length features l), NoDup_submseteq; [|done].
    clear -Hfs. induction Hfs as [|x k Hk IH Hx]; constructor; [|done].
    intros Hin. rewrite Forall_forall in Hx. specialize (Hx x Hin). lra. }
  destruct (BestSplit_safe_lemma (D := D) weights count [] type E_RLM2) as (t & -> & Hnone & Ht);
    [lia|unfold vsize in *; lia|].
  rewrite bind_Ret. specialize (Hne Hl).
  assert (weights ≠ []) as Hw by (intros ->; by destruct features).
  assert (vsize t = count ∧ ∀ i x, t !! i = Some x → 0 ≤ x < vsize weights) as [Hts Htx].
  { destruct (decide (count = 0)) as [->|].
    - rewrite Hnone by auto. split; [done|]. intros i x Hx. done.
    - destruct (Ht ltac:(lia) Hw) as [? Hx]. split; [done|]. intros i x Hi. by apply (Hx i). }
  rewrite <- Hts, <- (Z.add_0_l (vsize t)). apply border_loop_list; [|by apply border_set_empty].
  intros s x Hx. apply list_elem_of_lookup in Hx as [i Hx]. specialize (Htx i x Hx).
  assert (vsize features = vsize weights) as Hfw by (unfold vsize; by rewrite Hlen).
  destruct (Z.eqb_spec (x + 1) (vsize features)); [by left|right].
  destruct (vat_in_range features x) as (a & -> & Ha); [lia|].
  destruct (vat_in_range features (x + 1)) as (b & -> & Hb); [lia|]. rewrite !bind_Ret.
  eexists. split; [|reflexivity]. exists a, b.
  split; [apply Hin; by eapply list_elem_of_lookup_2|].
  split; [apply Hin; by eapply list_elem_of_lookup_2|].
  assert (a < b)%R.
  { eapply strictly_sorted_next; [done|exact Ha|].
    by replace (S (Z.to_nat x)) with (Z.to_nat (x + 1)) by lia. }
  cbn. lra.
Qed.

Lemma TMinEntropyBinarizer_ok : binarizer_ok (TMinEntropyBinarizer (D := D) hash).
Proof. by eapply guaranteed_ok. Qed.

Lemma TMaxSumLogBinarizer_ok : binarizer_ok (TMaxSumLogBinarizer (D := D) hash).
Proof. by eapply guaranteed_ok. Qed.

(** Every binarizer keeps the promise of [IBinarizer]. *)
Lemma binarizer_of_ok (pick : list (TFeatureBin D) → nat) type :
  pick_top pick → binarizer_ok (binarizer_of hash pick type).
Proof.
  intros Hpick. destruct type; cbn.
  - apply TMedianBinarizer_ok.
  - by apply TMedianInBinBinarizer_ok.
  - apply TMedianPlusUniformBinarizer_ok.
  - apply TMinEntropyBinarizer_ok.
  - apply TMaxSumLogBinarizer_ok.
  - apply TUniformBinarizer_ok.
Qed.

End Exact.

(** C22: for every border selection type, number of borders and vector of values,
    [BestSplit] sorts the values and returns at most the requested number of
    different borders, each of them between two of the values; the theorem is for
    exact values with any arithmetic for the scores and any choice among equal bins. *)
Theorem BestSplit_correct {D} `{HD : Arith D} `{HC : Conv R D} (hash : R → Z)
  (pick : list (TFeatureBin D) → nat) (Hpick : pick_top pick) (values : list R)
  (borders_count : Z) (type : EBorderSelectionType) (nan : bool)
  (Hne : values ≠ []) (Hcount : 0 ≤ borders_count < 2 ^ 31) (Hsize : vsize values < 2 ^ 31) :
  ∃ values' borders,
    BestSplit hash pick values borders_count type nan = Ret (values', borders) ∧
    values' ≡ₚ values ∧ StronglySorted Rle values' ∧
    num_elements borders = vsize (HashTable.elements borders) ∧
    num_elements borders ≤ borders_count ∧ NoDup (HashTable.elements borders) ∧
    ∀ b, b ∈ HashTable.elements borders → separates values b.
Proof.
  destruct (Sort_spec values) as [Hp Hs]. unfold BestSplit.
  assert ((if nan then filter (λ v, is_nan v = false) (Sort values) else Sort values) = Sort values)
    as ->.
  { destruct nan; [|done]. apply filter_all. intros x _. unfold is_nan. cbn.
    by rewrite (proj2 (Reqb_true x x)). }
  destruct (binarizer_of_ok hash pick type Hpick (Sort values) borders_count true)
    as (values' & borders & Hr & Hp' & Hs' & Hn & Hc & Hd & Hall);
    [|done|by rewrite (vsize_Permutation _ _ Hp)|done|].
  { intros Hnil. rewrite Hnil in Hp. by apply Permutation_nil in Hp. }
  exists values', borders. split; [done|]. split; [by rewrite Hp'|]. split; [done|].
  split; [done|]. split; [done|]. split; [done|]. intros b Hb.
  eapply separates_perm; [exact Hp|]. auto.
Qed.

(** The first bin with the largest score is a top of the queue. *)
Definition pick_first (splits : list (TFeatureBin R)) : nat :=
  Z.to_nat (extreme_of a_gtb (BestScore <$> splits)).

Lemma pick_first_top : pick_top pick_first.
Proof.
  intros splits Hne. destruct (extreme_max (BestScore <$> splits)) as (best & Hp & Hb & Hle & _);
    [by destruct splits|by apply Forall_true|].
  unfold pick_first. rewrite list_lookup_fmap in Hb.
  destruct (splits !! Z.to_nat (extreme_of a_gtb (BestScore <$> splits))) as [b|]; [|done].
  injection Hb as <-. exists b. split; [done|]. intros b' Hb'. apply Hle.
  by apply list_elem_of_fmap_2.
Qed.

Lemma BestSplit_correct_witness :
  ∃ values' borders,
    BestSplit (λ _, 0) pick_first [3%R; 1%R; 2%R] 2 GreedyLogSum true = Ret (values', borders) ∧
    values' ≡ₚ [3%R; 1%R; 2%R] ∧
    ∀ b, b ∈ HashTable.elements borders → separates [3%R; 1%R; 2%R] b.
Proof.
  destruct (BestSplit_correct (λ _, 0) pick_first pick_first_top [3%R; 1%R; 2%R] 2 GreedyLogSum true)
    as (values' & borders & Hr & Hp & _ & _ & _ & _ & Hall); [done|lia|reflexivity|].
  exists values', borders. split; [done|]. by split.
Defined.
