(* ===== verification/Score.v ===== *)
(** * Scores of bins and features: [cmicot/lib/bin_score.h/.cpp],
    [cmicot/lib/miximizers.h/.cpp], [cmicot/lib/bin_score_normalize.h/.cpp],
    [cmicot/lib/feature_score.h/.cpp]

    The score of a bin alternates two greedy phases.  The maximize phase picks
    bins of the background that help the evaluated bin inform about the label,
    the minimize phase picks bins that explain this information away.  A
    miximizer runs the phases with a calculator fed with the bins of the label. *)
From S2P Require Import Prelude Arith XRange Algorithm HashTable HashMap BinFeatureSet Entropy Cmi Parallel.

Section Score.
  Context `{Arith D}.

(** ** Results *)

Record TStepResult : Type := {
  BinIndex : Z;
  Cmi : D;
}.

Record TBinScore : Type := {
  Score : D;
  MaximizingSteps : list TStepResult;
  MinimizingSteps : list TStepResult;
}.

Definition GetMaximizingBinIndexes (s : TBinScore) : list Z := BinIndex <$> MaximizingSteps s.
Definition GetMinimizingBinIndexes (s : TBinScore) : list Z := BinIndex <$> MinimizingSteps s.

(** [Abs(x)] and [operator==], which compares numbers up to [1e-8]. *)
Definition a_abs (x : D) : D := if x ≺ a_lit 0 0 then a_opp x else x.
Definition close (x y : D) : bool := a_abs (x ⊟ y) ≺ a_lit 1 (-8).

Definition step_result_eq (lhs rhs : TStepResult) : bool :=
  close (Cmi lhs) (Cmi rhs) && (BinIndex lhs =? BinIndex rhs).

(** [operator==] of vectors *)
Fixpoint vector_eq {A} (eq : A → A → bool) (l k : list A) : bool :=
  match l, k with
  | [], [] => true
  | x :: l, y :: k => eq x y && vector_eq eq l k
  | _, _ => false
  end.

Definition bin_score_eq (lhs rhs : TBinScore) : bool :=
  close (Score lhs) (Score rhs) &&
  vector_eq step_result_eq (MaximizingSteps lhs) (MaximizingSteps rhs) &&
  vector_eq step_result_eq (MinimizingSteps lhs) (MinimizingSteps rhs).

(** ** [TParallelMiximizer] *)

Record TParallelMiximizer : Type := {
  MixCmi : TCmiCalculator;
  MaxSteps : Z;
  MinSteps : Z;
  MaxParallel : Z;
}.

Definition parallel_miximizer (label : TBinFeatureSet) (maximize_steps minimize_steps max_parallel : Z)
    : outcome TParallelMiximizer :=
  bin0 ← GetBin label 0;
  cmi ← mfold AddFirstVariableBin (cmi_calculator (vsize bin0)) (Bins label);
  Ret {| MixCmi := cmi; MaxSteps := maximize_steps; MinSteps := minimize_steps;
         MaxParallel := max_parallel |}.

(** [*iter] for an iterator of a vector. *)
Definition deref {A} (l : list A) (i : Z) : outcome A :=
  match vat l i with Ret x => Ret x | Fail _ => Fail (Undef UDeref) end.

(** [binValue(binIndex)], with the calculator and the background it captures. *)
Definition bin_value (cmi : TCmiCalculator) (features : TBinFeatureSet) (bin_index : Z) : outcome D :=
  bin ← GetBin features bin_index;
  GetValueWithConditionBin cmi bin.

(** One pass of the loop of [DoMaximizePhase]. *)
Definition maximize_step (max_parallel : Z) (st : TBackground * list TStepResult * TCmiCalculator)
    (step : Z) : outcome (TBackground * list TStepResult * TCmiCalculator) :=
  let '(local_bg, result, maximizer_cmi) := st in
  let value := bin_value maximizer_cmi (Features local_bg) in
  i ← ParallelMaxElementBy (EnabledBinIndexes local_bg) value max_parallel;
  best_bin ← deref (EnabledBinIndexes local_bg) i;
  local_bg ← SetBinEnabled local_bg best_bin false;
  cmi ← value best_bin;
  bin ← GetBin (Features local_bg) best_bin;
  maximizer_cmi ← AddConditionBin maximizer_cmi bin;
  Ret (local_bg, result ++ [{| BinIndex := best_bin; Cmi := cmi |}], maximizer_cmi).

(** [DoMaximizePhase(bg, evalBinIndex)]; it works on a copy of the background. *)
Definition DoMaximizePhase (m : TParallelMiximizer) (bg : TBackground) (eval_bin_index : Z)
    : outcome (list TStepResult) :=
  enabled_bins ← EnabledBins bg;
  _ ← ensure (MaxSteps m <=? vsize enabled_bins) (ENotEnoughBins (MaxSteps m));
  bin ← GetBin (Features bg) eval_bin_index;
  maximizer_cmi ← AddSecondVariableBin (MixCmi m) bin;
  '(_, result, _) ← mfold (maximize_step (MaxParallel m)) (bg, [], maximizer_cmi) (xrange (MaxSteps m));
  Ret result.

(** One pass of the loop of [DoMinimizePhase]. *)
Definition minimize_step (max_parallel : Z) (max_steps : list TStepResult)
    (st : TBackground * list TStepResult * TCmiCalculator) (step : Z)
    : outcome (TBackground * list TStepResult * TCmiCalculator) :=
  let '(bg, result, minimizer_cmi) := st in
  let value := bin_value minimizer_cmi (Features bg) in
  i ← ParallelMinElementBy (EnabledBinIndexes bg) value max_parallel;
  best_bin ← deref (EnabledBinIndexes bg) i;
  cmi ← value best_bin;
  bg ← SetBinEnabled bg best_bin false;
  bin ← GetBin (Features bg) best_bin;
  minimizer_cmi ← AddConditionBin minimizer_cmi bin;
  minimizer_cmi ←
    (if step <? vsize max_steps then
       max_step ← vat max_steps step;
       max_bin ← GetBin (Features bg) (BinIndex max_step);
       AddSecondVariableBin minimizer_cmi max_bin
     else Ret minimizer_cmi);
  Ret (bg, result ++ [{| BinIndex := best_bin; Cmi := cmi |}], minimizer_cmi).

(** [DoMinimizePhase(bg, evalBinIndex, maxSteps)]: the background it disables bins
    of, and the steps. *)
Definition DoMinimizePhase (m : TParallelMiximizer) (bg : TBackground) (eval_bin_index : Z)
    (max_steps : list TStepResult) : outcome (TBackground * list TStepResult) :=
  enabled_bins ← EnabledBins bg;
  _ ← ensure (MinSteps m <=? vsize enabled_bins) (ENotEnoughBins (MinSteps m));
  bin ← GetBin (Features bg) eval_bin_index;
  minimizer_cmi ← AddSecondVariableBin (MixCmi m) bin;
  '(bg, result, _) ← mfold (minimize_step (MaxParallel m) max_steps) (bg, [], minimizer_cmi)
                       (xrange (MinSteps m));
  Ret (bg, result).

(** ** Bin scorers *)

(** The end of the three scoring functions: the minimize phase and the score. *)
Definition minimize_and_score (m : TParallelMiximizer) (bg : TBackground) (bin_index : Z)
    (max_steps : list TStepResult) : outcome TBinScore :=
  '(_, min_steps) ← DoMinimizePhase m bg bin_index max_steps;
  last ← vback min_steps;
  Ret {| Score := Cmi last; MaximizingSteps := max_steps; MinimizingSteps := min_steps |}.

Definition ensure_eval_index (bin_index : Z) (bg : TBackground) : outcome () :=
  ensure ((0 <=? bin_index) && (bin_index <? GetBinCount (Features bg)))
    (EEvalIndex bin_index (GetBinCount (Features bg))).

Definition GetScoreWithEvalFeatureAwareMaximization (bg : TBackground) (bin_index : Z)
    (m : TParallelMiximizer) : outcome TBinScore :=
  _ ← ensure_eval_index bin_index bg;
  feature ← GetFeatureIndexByBinIndex (Features bg) bin_index;
  bg ← SetFeatureEnabled bg feature true;
  max_steps ← DoMaximizePhase m bg bin_index;
  feature ← GetFeatureIndexByBinIndex (Features bg) bin_index;
  bg ← SetFeatureEnabled bg feature false;
  minimize_and_score m bg bin_index max_steps.

Definition GetScoreWithBtm (bg : TBackground) (bin_index : Z) (m : TParallelMiximizer)
    : outcome TBinScore :=
  let maximization_bg := EnabledAll bg in
  max_steps ← DoMaximizePhase m maximization_bg bin_index;
  bg ← SetBinEnabled bg bin_index false;
  minimize_and_score m bg bin_index max_steps.

Definition GetBinScore (background : TBackground) (eval_bin_index : Z) (m : TParallelMiximizer)
    : outcome TBinScore :=
  _ ← ensure_eval_index eval_bin_index background;
  background ← SetBinEnabled background eval_bin_index true;
  max_steps ← DoMaximizePhase m background eval_bin_index;
  feature ← GetFeatureIndexByBinIndex (Features background) eval_bin_index;
  background ← SetFeatureEnabled background feature false;
  minimize_and_score m background eval_bin_index max_steps.

(** [IBinScorer]: [Eval(bg, binIndex)]. *)
Definition IBinScorer : Type := TBackground → Z → outcome TBinScore.

Definition BuildBinScorerForEval (label : TBinFeatureSet)
    (maximization_steps minimization_steps max_parallel : Z) : outcome IBinScorer :=
  m ← parallel_miximizer label maximization_steps minimization_steps max_parallel;
  Ret (λ bg bin_index, GetBinScore bg bin_index m).

Definition BuildEfamBinScorer (label : TBinFeatureSet) (step_count max_parallel : Z) : outcome IBinScorer :=
  m ← parallel_miximizer label (step_count - 1) step_count max_parallel;
  Ret (λ bg bin_index, GetScoreWithEvalFeatureAwareMaximization bg bin_index m).

Definition BuildBtmBinScorer (label : TBinFeatureSet) (step_count max_parallel : Z) : outcome IBinScorer :=
  m ← parallel_miximizer label (step_count - 1) step_count max_parallel;
  Ret (λ bg bin_index, GetScoreWithBtm bg bin_index m).

(** ** Normalization *)

Inductive EBinScoreNormalization : Type :=
| NormNone
| LabelEntropy
| BinEntropy
| BinAndLabelEntropy.

Definition TBinScoreNormalier : Type := TBinScore → TBackground → Z → outcome D.

Definition BuildBinScoreNormalizer (normalization_type : EBinScoreNormalization)
    (label : TBinFeatureSet) : outcome TBinScoreNormalier :=
  match normalization_type with
  | NormNone => Ret (λ bs _ _, Ret (Score bs))
  | LabelEntropy =>
      label_entropy ← Entropy [ABins (Bins label)];
      Ret (λ bs _ _, Ret (Score bs ⊘ label_entropy))
  | BinEntropy =>
      Ret (λ bs bg bin_index,
        bin ← GetBin (Features bg) bin_index;
        bin_entropy ← Entropy [ABin bin];
        Ret (Score bs ⊘ bin_entropy))
  | BinAndLabelEntropy =>
      label_entropy ← Entropy [ABins (Bins label)];
      Ret (λ bs bg bin_index,
        bin ← GetBin (Features bg) bin_index;
        bin_entropy ← Entropy [ABin bin];
        Ret (Score bs ⊘ label_entropy ⊘ bin_entropy))
  end.

(** ** [feature_score.cpp] *)

Record TFeatureScore : Type := {
  FScore : D;
  FBinScore : list TBinScore;
}.

(** The bin indexes of a feature, as a loop visits them. *)
Definition feature_bin_list (features : TBinFeatureSet) (index : Z) : outcome (list Z) :=
  r ← GetFeatureBinIndexes features index;
  Ret (xrange2 (simple_begin r) (simple_end r)).

Definition GetFeatureScore (background : TBackground) (feature_index : Z) (bin_scorer : IBinScorer)
    (bin_score_normalier : TBinScoreNormalier) : outcome TFeatureScore :=
  bin_index_range ← feature_bin_list (Features background) feature_index;
  scores ← mmap (λ bin_index,
    current ← bin_scorer background bin_index;
    score ← bin_score_normalier current background bin_index;
    Ret {| Score := score; MaximizingSteps := MaximizingSteps current;
           MinimizingSteps := MinimizingSteps current |}) bin_index_range;
  i ← MaxElementBy scores (λ s, Ret (Score s));
  best ← deref scores i;
  Ret {| FScore := Score best; FBinScore := scores |}.

Record TCmimScore : Type := {
  CScore : D;
  MinimizingFeatureIndex : Z;
}.

(** The kernel of [GetCmimScore]: the bins of a feature as conditions. *)
Definition cmim_kernel (cmi_calc : TCmiCalculator) (features : TBinFeatureSet) (index : Z) : outcome D :=
  bins ← feature_bin_list features index;
  local_cmi ← mfold (λ c b, bin ← GetBin features b; AddConditionBin c bin) cmi_calc bins;
  GetValue local_cmi.

Definition GetCmimScore (label : TBinFeatureSet) (background : TBackground) (feature_index thread_count : Z)
    : outcome TCmimScore :=
  bin0 ← GetBin label 0;
  cmi_calc ← mfold AddFirstVariableBin (cmi_calculator (vsize bin0)) (Bins label);
  eval_bins ← feature_bin_list (Features background) feature_index;
  cmi_calc ← mfold (λ c b, bin ← GetBin (Features background) b; AddSecondVariableBin c bin)
               cmi_calc eval_bins;
  background ← SetFeatureEnabled background feature_index false;
  search_range ← EnabledFeatureIndexes background;
  best_feature_iter ← ParallelMinElementBy search_range
                        (cmim_kernel cmi_calc (Features background)) thread_count;
  if negb (best_feature_iter =? vsize search_range) then
    let best_feature_index := best_feature_iter in
    score ← cmim_kernel cmi_calc (Features background) best_feature_index;
    Ret {| CScore := score; MinimizingFeatureIndex := best_feature_index |}
  else Ret {| CScore := a_lit 0 0; MinimizingFeatureIndex := 0 |}.

End Score.

Arguments TStepResult D : clear implicits.
Arguments TBinScore D : clear implicits.
Arguments TFeatureScore D : clear implicits.
Arguments TCmimScore D : clear implicits.
Arguments IBinScorer D : clear implicits.

(** ** Greedy choices

    What a phase picks, as a function of the candidates: the element at the
    position [extreme_of] gives for their values. *)

Section Greedy.
  Context `{Arith D}.

Definition picks (pred : D → D → bool) (cands : list Z) (value : Z → outcome D) (b : Z) (v : D) : Prop :=
  ∃ vs, mmap value cands = Ret vs ∧ cands !! Z.to_nat (extreme_of pred vs) = Some b ∧
    value b = Ret v.

(** The candidates that were not picked before. *)
Definition remaining (cands prev : list Z) : list Z := filter (λ b, b ∉ prev) cands.

(** Each step picks among the remaining candidates by the value that the previous
    picks give to them. *)
Definition greedy (pred : D → D → bool) (cands : list Z) (value : list Z → Z → outcome D)
    (steps : list (TStepResult D)) : Prop :=
  ∀ k s, steps !! k = Some s →
    let prev := BinIndex <$> take k steps in
    picks pred (remaining cands prev) (value prev) (BinIndex s) (Cmi s).

Lemma greedy_nil pred cands value : greedy pred cands value [].
Proof. done. Qed.

Lemma greedy_snoc pred cands value steps s :
  greedy pred cands value steps →
  picks pred (remaining cands (BinIndex <$> steps)) (value (BinIndex <$> steps)) (BinIndex s) (Cmi s) →
  greedy pred cands value (steps ++ [s]).
Proof.
  intros Hg Hs k t Hk. destruct (decide (k < length steps)%nat) as [Hlt|Hge].
  - rewrite lookup_app_l in Hk by done. rewrite take_app_le by lia. by apply Hg.
  - assert (k = length steps) as ->.
    { apply lookup_lt_Some in Hk. rewrite length_app in Hk. cbn in Hk. lia. }
    rewrite list_lookup_middle in Hk by done. injection Hk as <-. by rewrite take_app_length.
Qed.

Lemma picks_cand pred cands value b v : picks pred cands value b v → b ∈ cands.
Proof. intros (vs & _ & Hb & _). by eapply list_elem_of_lookup_2. Qed.

Lemma greedy_picked pred cands value steps b :
  greedy pred cands value steps → b ∈ BinIndex <$> steps → b ∈ cands.
Proof.
  intros Hg (s & -> & [k Hk]%list_elem_of_lookup)%list_elem_of_fmap.
  specialize (Hg k s Hk). by apply picks_cand, list_elem_of_filter in Hg as [_ ?].
Qed.

(** No candidate is picked twice. *)
Lemma greedy_NoDup pred cands value steps : greedy pred cands value steps → NoDup (BinIndex <$> steps).
Proof.
  induction steps as [|s steps IH] using rev_ind; intros Hg; [constructor|].
  assert (Hg' : greedy pred cands value steps).
  { intros k t Hk. pose proof (Hg k t) as Hgk. rewrite lookup_app_l in Hgk by (by eapply lookup_lt_Some).
    rewrite take_app_le in Hgk by (apply lookup_lt_Some in Hk; lia). by apply Hgk. }
  rewrite fmap_app. apply NoDup_app. split_and!; [by apply IH| |apply NoDup_singleton].
  intros b Hb ->%list_elem_of_singleton.
  specialize (Hg (length steps) s). rewrite list_lookup_middle, take_app_length in Hg by done.
  specialize (Hg eq_refl). apply picks_cand, list_elem_of_filter in Hg as [Hn _]. done.
Qed.

(** Some candidate remains while fewer were picked than there are. *)
Lemma remaining_nonempty cands prev :
  NoDup cands → vsize prev < vsize cands → remaining cands prev ≠ [].
Proof.
  intros Hnd Hlt Hnil. assert (cands ⊆+ prev) as Hsub.
  { apply NoDup_submseteq; [done|]. intros b Hb.
    destruct (decide (b ∈ prev)); [done|]. exfalso.
    assert (b ∈ remaining cands prev) as Hin by (by apply list_elem_of_filter).
    rewrite Hnil in Hin. by apply elem_of_nil in Hin. }
  apply submseteq_length in Hsub. unfold vsize in Hlt. lia.
Qed.

(** A search over candidates whose values are returned finds one of them. *)
Lemma search_spec pred (cands : list Z) (value : Z → outcome D) tc :
  cands ≠ [] → (∀ b, b ∈ cands → ∃ v, value b = Ret v) →
  ∃ i b v, ParallelExtremeElementBy pred cands value tc = Ret i ∧ deref cands i = Ret b ∧
    value b = Ret v ∧ picks pred cands value b v.
Proof.
  intros Hne Hval. destruct (mmap_total value cands Hval) as [vs Hvs].
  rewrite (ParallelExtremeElementBy_sequential pred cands value vs) by done.
  rewrite ExtremeElementBy_values, Hvs, bind_Ret.
  assert (Hlen : vsize cands = vsize vs).
  { apply mmap_Forall2, Forall2_length in Hvs. unfold vsize. lia. }
  assert (vs ≠ []) as Hvne by (intros ->; destruct cands; [done|by rewrite vsize_cons, vsize_nil in Hlen;
    pose proof (vsize_nonneg cands); lia]).
  pose proof (extreme_of_bounds pred vs Hvne) as Hb.
  destruct (vat_in_range cands (extreme_of pred vs)) as (b & Hat & Hlook); [lia|].
  destruct (Hval b) as [v Hv]; [by eapply list_elem_of_lookup_2|].
  exists (extreme_of pred vs), b, v. split_and!; [done| |done|by exists vs].
  unfold deref. by rewrite Hat.
Qed.

End Greedy.

(** ** The phases *)

Section Phases.
  Context `{Arith D}.
  (** A sample of [n] points, the features and the bins of the label. *)
  Context (n : nat) (fs : list (list TBin)) (lbins : list TBin).
  Hypothesis Hn : (0 < n)%nat.
  Hypothesis Hfs : Forall (λ bin, length bin = n) (concat fs).
  Hypothesis Hlbins : Forall (λ bin, length bin = n) lbins.

  Local Abbreviation bins := (vsize (concat fs)).

Definition bin_at (b : Z) : TBin := concat fs !!! Z.to_nat b.

Lemma GetBin_at s b : rep s fs → 0 ≤ b < bins → GetBin s b = Ret (bin_at b) ∧ length (bin_at b) = n.
Proof.
  intros Hr Hb. destruct (rep_bin s fs Hr b Hb) as (bin & -> & Hlook).
  unfold bin_at. rewrite (list_lookup_total_correct _ _ _ Hlook). split; [done|].
  rewrite Forall_forall in Hfs. apply Hfs. by eapply list_elem_of_lookup_2.
Qed.

Lemma bin_at_size b : 0 ≤ b < bins → length (bin_at b) = n.
Proof. intros Hb. by destruct (GetBin_at (feature_set_of fs) b (rep_feature_set_of fs) Hb). Qed.

(** Disabling one bin removes it from the enabled indexes. *)
Lemma SetBinEnabled_remaining bg b cands prev :
  valid_bg fs bg → 0 ≤ b < bins → EnabledBinIndexes bg = remaining cands prev →
  ∃ bg', SetBinEnabled bg b false = Ret bg' ∧ valid_bg fs bg' ∧ Features bg' = Features bg ∧
    EnabledBinIndexes bg' = remaining cands (prev ++ [b]).
Proof.
  intros Hv Hb Hen. destruct (SetBinEnabled_spec fs bg b false Hv Hb) as (bg' & -> & Hv' & Hf & Hen' & _).
  exists bg'. split_and!; [done|done|done|].
  assert (Hrem : remaining cands (prev ++ [b]) = filter (λ c, c ≠ b) (remaining cands prev)).
  { unfold remaining. rewrite list_filter_filter. apply filter_iff_in. intros c _.
    rewrite elem_of_app, list_elem_of_singleton. tauto. }
  rewrite Hrem, <- Hen. unfold EnabledBinIndexes, bins_with_flag.
  destruct Hv as (_ & Hsz & _), Hv' as (_ & Hsz' & _). rewrite Hsz, Hsz', list_filter_filter.
  apply filter_iff_in. intros c Hc%elem_of_xrange. specialize (Hen' c). unfold enabled in Hen'.
  case_decide as Hcb; [|naive_solver lia]. split; [|naive_solver]. intros ?. exfalso.
  by assert (false = true) by (apply Hen'; split; [lia|done]).
Qed.

(** The bins a calculator received when a bin is evaluated. *)
Definition label_feed : feed := (VFirst,.) <$> lbins.
Definition eval_feed (e : Z) : feed := label_feed ++ [(VSecond, bin_at e)].
Definition max_feed (e : Z) (prev : list Z) : feed :=
  eval_feed e ++ ((λ b, (VCondition, bin_at b)) <$> prev).

Definition second_at (max_steps : list (TStepResult D)) (k : nat) : feed :=
  match max_steps !! k with Some s => [(VSecond, bin_at (BinIndex s))] | None => [] end.
Definition min_feed (e : Z) (max_steps : list (TStepResult D)) (prev : list Z) : feed :=
  eval_feed e ++ concat (imap (λ k b, (VCondition, bin_at b) :: second_at max_steps k) prev).

Definition max_value (e : Z) (prev : list Z) (b : Z) : outcome D :=
  cmi_value n (max_feed e prev) (bin_at b).
Definition min_value (e : Z) (max_steps : list (TStepResult D)) (prev : list Z) (b : Z) : outcome D :=
  cmi_value n (min_feed e max_steps prev) (bin_at b).

Lemma vsize_label_feed : vsize label_feed = vsize lbins.
Proof. unfold vsize, label_feed. by rewrite length_fmap. Qed.

Lemma vsize_max_feed e prev : vsize (max_feed e prev) = vsize lbins + 1 + vsize prev.
Proof.
  unfold max_feed, eval_feed. rewrite !vsize_app, vsize_label_feed.
  unfold vsize. rewrite length_fmap. cbn. lia.
Qed.

Lemma max_feed_snoc e prev b : max_feed e (prev ++ [b]) = max_feed e prev ++ [(VCondition, bin_at b)].
Proof. unfold max_feed. by rewrite fmap_app, <- app_assoc. Qed.

Lemma min_feed_snoc e ms prev b :
  min_feed e ms (prev ++ [b]) =
    (min_feed e ms prev ++ [(VCondition, bin_at b)]) ++ second_at ms (length prev).
Proof.
  unfold min_feed. rewrite imap_app, concat_app, <- !app_assoc. cbn.
  by rewrite app_nil_r, Nat.add_0_r.
Qed.

Lemma vsize_second_at ms k : 0 ≤ vsize (second_at ms k) ≤ 1.
Proof. unfold second_at. destruct (ms !! k); vlia. Qed.

Lemma min_feed_nil e ms : min_feed e ms [] = eval_feed e.
Proof. apply app_nil_r. Qed.

Lemma vsize_min_feed e ms prev : vsize (min_feed e ms prev) ≤ vsize lbins + 1 + 2 * vsize prev.
Proof.
  induction prev as [|b prev IH] using rev_ind.
  - unfold eval_feed in *. rewrite min_feed_nil. unfold eval_feed.
    rewrite vsize_snoc, vsize_label_feed. vlia.
  - rewrite min_feed_snoc, vsize_app, !vsize_snoc. pose proof (vsize_second_at ms (length prev)). lia.
Qed.

Lemma label_feed_sized : sized_feed n label_feed.
Proof. unfold sized_feed, label_feed. by rewrite Forall_fmap. Qed.

Lemma eval_feed_sized e : 0 ≤ e < bins → sized_feed n (eval_feed e).
Proof.
  intros He. apply Forall_app. split; [apply label_feed_sized|]. constructor; [|constructor].
  by apply bin_at_size.
Qed.

Lemma max_feed_sized e prev :
  0 ≤ e < bins → Forall (λ b, 0 ≤ b < bins) prev → sized_feed n (max_feed e prev).
Proof.
  intros He Hp. apply Forall_app. split; [by apply eval_feed_sized|].
  rewrite Forall_fmap. eapply Forall_impl; [done|]. intros b. cbn. apply bin_at_size.
Qed.

Definition steps_in_range (ms : list (TStepResult D)) : Prop :=
  Forall (λ s, 0 ≤ BinIndex s < bins) ms.

Lemma second_at_sized ms k : steps_in_range ms → sized_feed n (second_at ms k).
Proof.
  intros Hms. unfold second_at. destruct (ms !! k) as [s|] eqn:Hk; [|constructor].
  constructor; [|constructor]. apply bin_at_size.
  exact (Forall_lookup_1 _ ms k s Hms Hk).
Qed.

Lemma min_feed_sized e ms prev :
  0 ≤ e < bins → steps_in_range ms → Forall (λ b, 0 ≤ b < bins) prev → sized_feed n (min_feed e ms prev).
Proof.
  intros He Hms. induction prev as [|b prev IH] using rev_ind; intros Hp.
  - rewrite min_feed_nil. by apply eval_feed_sized.
  - apply Forall_app in Hp as [Hp [Hb _]%Forall_cons]. rewrite min_feed_snoc.
    apply Forall_app. split; [apply Forall_app; split; [by apply IH|]|by apply second_at_sized].
    constructor; [by apply bin_at_size|constructor].
Qed.

(** The value the loop computes is the value the feed determines. *)
Lemma bin_value_feed s f c b :
  rep s fs → sized_feed n f → vsize f ≤ 64 → holds n f c → 0 ≤ b < bins →
  bin_value (D := D) c s b = cmi_value n f (bin_at b).
Proof.
  intros Hr Hf Hk Hh Hb. unfold bin_value. destruct (GetBin_at s b Hr Hb) as [-> _].
  rewrite bind_Ret. by apply cmi_value_holds.
Qed.

Lemma enabled_index_range bg b : valid_bg fs bg → b ∈ EnabledBinIndexes bg → 0 ≤ b < bins.
Proof. intros Hv Hb%elem_of_EnabledBinIndexes. by eapply enabled_range. Qed.

(** The search of a phase: [cands] are the enabled bins, [f] the feed. *)
Lemma phase_search pred bg f c tc :
  valid_bg fs bg → EnabledBinIndexes bg ≠ [] → sized_feed n f → vsize f < 63 → holds n f c →
  ∃ i b v, ParallelExtremeElementBy pred (EnabledBinIndexes bg) (bin_value c (Features bg)) tc = Ret i ∧
    deref (EnabledBinIndexes bg) i = Ret b ∧ 0 ≤ b < bins ∧
    bin_value c (Features bg) b = Ret v ∧
    picks pred (EnabledBinIndexes bg) (λ b, cmi_value n f (bin_at b)) b v.
Proof.
  intros Hv Hne Hf Hk Hh.
  assert (Hval : ∀ b, b ∈ EnabledBinIndexes bg →
    bin_value (D := D) c (Features bg) b = cmi_value n f (bin_at b)).
  { intros b Hb%(enabled_index_range bg b Hv). apply bin_value_feed; try done; [apply Hv|lia]. }
  destruct (search_spec pred (EnabledBinIndexes bg) (bin_value c (Features bg)) tc)
    as (i & b & v & Hi & Hd & Hbv & Hp); [done| |].
  { intros b Hb. rewrite Hval by done. apply cmi_value_returns; try done.
    apply bin_at_size. by eapply enabled_index_range. }
  assert (Hb : b ∈ EnabledBinIndexes bg) by (by eapply picks_cand).
  exists i, b, v. split_and!; try done; try by eapply enabled_index_range.
  destruct Hp as (vs & Hvs & Hlook & Hv'). exists vs. split_and!; [|done|by rewrite <- Hval].
  rewrite <- Hvs. clear - Hval. induction (EnabledBinIndexes bg) as [|x l IH]; [done|].
  cbn. rewrite Hval by (by left). rewrite IH; [done|]. intros; apply Hval. by right.
Qed.

(** The calculator a miximizer starts from holds the bins of the label. *)
Definition valid_miximizer (m : TParallelMiximizer) : Prop := holds n label_feed (MixCmi m).

Lemma remaining_nil cands : remaining cands [] = cands.
Proof. apply filter_all. intros b _ Hb. by apply elem_of_nil in Hb. Qed.

Lemma vsize_fmap {A B} (g : A → B) l : vsize (g <$> l) = vsize l.
Proof. unfold vsize. by rewrite length_fmap. Qed.

Lemma xrange_done k done step rest : xrange k = done ++ step :: rest → vsize done = step ∧ 0 ≤ step < k.
Proof. intros Hx%xrange_split. destruct Hx as (-> & _ & ?). done. Qed.

(** Enabled bins remain while fewer were picked than there were. *)
Lemma enabled_remain bg bg0 prev :
  EnabledBinIndexes bg = remaining (EnabledBinIndexes bg0) prev →
  vsize prev < vsize (EnabledBinIndexes bg0) → EnabledBinIndexes bg ≠ [].
Proof. intros -> Hlt. apply remaining_nonempty; [apply NoDup_bins_with_flag|done]. Qed.

Definition max_loop_inv (bg : TBackground) (e : Z) (done : list Z)
    (st : TBackground * list (TStepResult D) * TCmiCalculator) : Prop :=
  let '(local_bg, result, c) := st in
  let prev := BinIndex <$> result in
  valid_bg fs local_bg ∧ EnabledBinIndexes local_bg = remaining (EnabledBinIndexes bg) prev ∧
  vsize result = vsize done ∧ steps_in_range result ∧ holds n (max_feed e prev) c ∧
  greedy a_gtb (EnabledBinIndexes bg) (max_value e) result.

Lemma maximize_step_inv tc bg e k done step rest st :
  0 ≤ e < bins → vsize lbins + k < 63 → k ≤ vsize (EnabledBinIndexes bg) →
  xrange k = done ++ step :: rest → max_loop_inv bg e done st →
  ∃ st', maximize_step tc st step = Ret st' ∧ max_loop_inv bg e (done ++ [step]) st'.
Proof.
  intros He Hk Hen Hx. destruct st as [[lbg result] c]. intros (Hv & Hrem & Hsz & Hrange & Hh & Hg).
  destruct (xrange_done _ _ _ _ Hx) as [Hdone Hstep].
  set (prev := BinIndex <$> result) in *.
  assert (Hprev : vsize prev = step) by (unfold prev; rewrite vsize_fmap; lia).
  assert (Hpr : Forall (λ b, 0 ≤ b < bins) prev) by (by apply Forall_fmap).
  pose proof (max_feed_sized e prev He Hpr) as Hsf. pose proof (vsize_max_feed e prev) as Hvf.
  destruct (phase_search a_gtb lbg (max_feed e prev) c tc) as (i & b & v & Hi & Hd & Hb & Hbv & Hp);
    [done|eapply enabled_remain; [done|lia]|done|lia|done|].
  unfold maximize_step. unfold ParallelMaxElementBy. rewrite Hi, bind_Ret, Hd, bind_Ret.
  destruct (SetBinEnabled_remaining lbg b (EnabledBinIndexes bg) prev)
    as (lbg' & -> & Hv' & Hf' & Hrem'); [done|done|done|]. rewrite !bind_Ret, Hbv, bind_Ret.
  rewrite Hf'. destruct (GetBin_at (Features lbg) b (proj1 Hv) Hb) as [-> Hbsz]. rewrite bind_Ret.
  destruct (add_bin_spec n (max_feed e prev) c VCondition (bin_at b)) as (c' & Hadd & Hh');
    [done|done|lia|]. unfold add_bin in Hadd; cbn [fst snd] in Hadd. rewrite Hadd, bind_Ret.
  eexists. split; [done|]. unfold max_loop_inv. rewrite fmap_app. cbn [fmap list_fmap BinIndex].
  fold prev. rewrite !vsize_snoc, max_feed_snoc. split_and!; [done|done|lia| |done|].
  - apply Forall_app. split; [done|]. apply Forall_cons. split; [done|constructor].
  - apply greedy_snoc; [done|]. fold prev. cbn [BinIndex Cmi]. rewrite <- Hrem. exact Hp.
Qed.

(** The maximize phase returns its steps, chosen greedily among the enabled bins
    by the value each bin has as a further condition. *)
Lemma DoMaximizePhase_spec m bg e :
  valid_miximizer m → valid_bg fs bg → 0 ≤ e < bins →
  0 ≤ MaxSteps m ≤ vsize (EnabledBinIndexes bg) → vsize lbins + MaxSteps m < 63 →
  ∃ steps, DoMaximizePhase m bg e = Ret steps ∧ vsize steps = MaxSteps m ∧ steps_in_range steps ∧
    greedy a_gtb (EnabledBinIndexes bg) (max_value e) steps.
Proof.
  intros Hm Hv He Hk Hl. unfold DoMaximizePhase.
  destruct (EnabledBins_spec fs bg Hv) as (l & -> & Hsz). rewrite bind_Ret, Hsz.
  rewrite (proj2 (Z.leb_le _ _)) by lia. cbn [ensure]. rewrite bind_Ret.
  destruct (GetBin_at (Features bg) e (proj1 Hv) He) as [-> Hesz]. rewrite bind_Ret.
  pose proof vsize_label_feed as Hlf.
  destruct (add_bin_spec n label_feed (MixCmi m) VSecond (bin_at e)) as (c & Hadd & Hh);
    [done|done|lia|]. unfold add_bin in Hadd; cbn [fst snd] in Hadd. rewrite Hadd, bind_Ret.
  destruct (mfold_inv (max_loop_inv bg e) (maximize_step (MaxParallel m)) (xrange (MaxSteps m))
    (bg, [], c)) as ([[lbg steps] c'] & -> & (_ & _ & Hst & Hr & _ & Hg)).
  - cbn. rewrite remaining_nil. unfold max_feed, eval_feed. cbn. rewrite app_nil_r.
    split_and!; [done|done|done|constructor|done|apply greedy_nil].
  - intros done step rest st Hx Hinv. by eapply (maximize_step_inv (MaxParallel m) bg e (MaxSteps m)); [|lia..| |].
  - exists steps. cbn. split_and!; [done| |done|done].
    rewrite Hst, xrange_seqZ. unfold vsize. rewrite length_seqZ. lia.
Qed.

Definition min_loop_inv (bg : TBackground) (e : Z) (ms : list (TStepResult D)) (done : list Z)
    (st : TBackground * list (TStepResult D) * TCmiCalculator) : Prop :=
  let '(bg', result, c) := st in
  let prev := BinIndex <$> result in
  valid_bg fs bg' ∧ EnabledBinIndexes bg' = remaining (EnabledBinIndexes bg) prev ∧
  vsize result = vsize done ∧ steps_in_range result ∧ holds n (min_feed e ms prev) c ∧
  greedy a_ltb (EnabledBinIndexes bg) (min_value e ms) result.

(** The helper of a step joins the second variable. *)
Lemma add_second_at s f c (ms : list (TStepResult D)) step :
  rep s fs → steps_in_range ms → 0 ≤ step → holds n f c → vsize f < 64 →
  ∃ c', (if step <? vsize ms then
           max_step ← vat ms step;
           max_bin ← GetBin s (BinIndex max_step);
           AddSecondVariableBin c max_bin
         else Ret c) = Ret c' ∧ holds n (f ++ second_at ms (Z.to_nat step)) c'.
Proof.
  intros Hr Hms Hstep Hh Hk. unfold second_at. destruct (Z.ltb_spec step (vsize ms)) as [Hlt|Hge].
  - destruct (vat_in_range ms step) as (t & -> & Ht); [lia|]. rewrite bind_Ret, Ht.
    destruct (GetBin_at s (BinIndex t) Hr (Forall_lookup_1 _ ms _ t Hms Ht)) as [-> Hsz].
    rewrite bind_Ret. by apply (add_bin_spec n f c VSecond).
  - rewrite (lookup_ge_None_2 ms) by (unfold vsize in Hge; lia). exists c. by rewrite app_nil_r.
Qed.

Lemma minimize_step_inv tc bg e ms k done step rest st :
  0 ≤ e < bins → steps_in_range ms → vsize lbins + 2 * k < 64 → k ≤ vsize (EnabledBinIndexes bg) →
  xrange k = done ++ step :: rest → min_loop_inv bg e ms done st →
  ∃ st', minimize_step tc ms st step = Ret st' ∧ min_loop_inv bg e ms (done ++ [step]) st'.
Proof.
  intros He Hms Hk Hen Hx. destruct st as [[bg1 result] c]. intros (Hv & Hrem & Hsz & Hrange & Hh & Hg).
  destruct (xrange_done _ _ _ _ Hx) as [Hdone Hstep].
  set (prev := BinIndex <$> result) in *.
  assert (Hprev : vsize prev = step) by (unfold prev; rewrite vsize_fmap; lia).
  assert (Hpr : Forall (λ b, 0 ≤ b < bins) prev) by (by apply Forall_fmap).
  pose proof (min_feed_sized e ms prev He Hms Hpr) as Hsf. pose proof (vsize_min_feed e ms prev) as Hvf.
  destruct (phase_search a_ltb bg1 (min_feed e ms prev) c tc) as (i & b & v & Hi & Hd & Hb & Hbv & Hp);
    [done|eapply enabled_remain; [done|lia]|done|lia|done|].
  unfold minimize_step. unfold ParallelMinElementBy. rewrite Hi, bind_Ret, Hd, bind_Ret, Hbv, bind_Ret.
  destruct (SetBinEnabled_remaining bg1 b (EnabledBinIndexes bg) prev)
    as (bg2 & -> & Hv' & Hf' & Hrem'); [done|done|done|]. rewrite !bind_Ret.
  rewrite Hf'. destruct (GetBin_at (Features bg1) b (proj1 Hv) Hb) as [-> Hbsz]. rewrite bind_Ret.
  destruct (add_bin_spec n (min_feed e ms prev) c VCondition (bin_at b)) as (c1 & Hadd & Hh1);
    [done|done|lia|]. unfold add_bin in Hadd; cbn [fst snd] in Hadd. rewrite Hadd, bind_Ret.
  destruct (add_second_at (Features bg1) _ c1 ms step (proj1 Hv) Hms ltac:(lia) Hh1) as (c2 & -> & Hh2);
    [rewrite vsize_snoc; lia|]. rewrite bind_Ret.
  assert (Hlen : Z.to_nat step = length prev) by (unfold vsize in Hprev; lia).
  eexists. split; [done|]. unfold min_loop_inv. rewrite fmap_app. cbn [fmap list_fmap BinIndex].
  fold prev. rewrite !vsize_snoc, min_feed_snoc, <- Hlen. split_and!; [done|done|lia| |done|].
  - apply Forall_app. split; [done|]. apply Forall_cons. split; [done|constructor].
  - apply greedy_snoc; [done|]. fold prev. cbn [BinIndex Cmi]. rewrite <- Hrem. exact Hp.
Qed.

(** The minimize phase, likewise, with the smallest values. *)
Lemma DoMinimizePhase_spec m bg e ms :
  valid_miximizer m → valid_bg fs bg → 0 ≤ e < bins → steps_in_range ms →
  0 ≤ MinSteps m ≤ vsize (EnabledBinIndexes bg) → vsize lbins + 2 * MinSteps m < 64 →
  vsize lbins < 64 →
  ∃ bg' steps, DoMinimizePhase m bg e ms = Ret (bg', steps) ∧ vsize steps = MinSteps m ∧
    steps_in_range steps ∧ greedy a_ltb (EnabledBinIndexes bg) (min_value e ms) steps.
Proof.
  intros Hm Hv He Hms Hk Hl Hl'. unfold DoMinimizePhase.
  destruct (EnabledBins_spec fs bg Hv) as (l & -> & Hsz). rewrite bind_Ret, Hsz.
  rewrite (proj2 (Z.leb_le _ _)) by lia. cbn [ensure]. rewrite bind_Ret.
  destruct (GetBin_at (Features bg) e (proj1 Hv) He) as [-> Hesz]. rewrite bind_Ret.
  pose proof vsize_label_feed as Hlf.
  destruct (add_bin_spec n label_feed (MixCmi m) VSecond (bin_at e)) as (c & Hadd & Hh);
    [done|done|lia|]. unfold add_bin in Hadd; cbn [fst snd] in Hadd. rewrite Hadd, bind_Ret.
  destruct (mfold_inv (min_loop_inv bg e ms) (minimize_step (MaxParallel m) ms) (xrange (MinSteps m))
    (bg, [], c)) as ([[bg' steps] c'] & -> & (_ & _ & Hst & Hr & _ & Hg)).
  - cbn. rewrite remaining_nil, min_feed_nil.
    split_and!; [done|done|done|constructor|done|apply greedy_nil].
  - intros done step rest st Hx Hinv.
    by eapply (minimize_step_inv (MaxParallel m) bg e ms (MinSteps m)); [|done|lia..| |].
  - exists bg', steps. cbn. split_and!; [done| |done|done].
    rewrite Hst, xrange_seqZ. unfold vsize. rewrite length_seqZ. lia.
Qed.

(** *** The scorers *)

Lemma mfold_AddFirst c (l : list TBin) :
  mfold AddFirstVariableBin c l = mfold add_bin c ((VFirst,.) <$> l).
Proof.
  revert c. induction l as [|b l IH]; intros c; [done|]. cbn [mfold fmap list_fmap].
  change (add_bin c (VFirst, b)) with (AddFirstVariableBin c b).
  destruct (AddFirstVariableBin c b); cbn; [apply IH|done].
Qed.

(** The calculator fed with the bins of the label, as the scorers start. *)
Lemma label_calculator :
  vsize lbins ≤ 64 →
  ∃ c, mfold AddFirstVariableBin (cmi_calculator (Z.of_nat n)) lbins = Ret c ∧ holds n label_feed c.
Proof.
  intros Hk. rewrite mfold_AddFirst. apply feed_calculator; [apply label_feed_sized|].
  by rewrite vsize_label_feed.
Qed.

Lemma label_bin_size label : Bins label = lbins → lbins ≠ [] →
  ∃ bin0, GetBin label 0 = Ret bin0 ∧ vsize bin0 = Z.of_nat n.
Proof.
  intros Hlab Hne. unfold GetBin, GetBinCount. rewrite Hlab.
  destruct lbins as [|b0 lb]; [done|]. rewrite ensure_range_Ret by (rewrite vsize_cons; pose proof (vsize_nonneg lb); lia).
  rewrite bind_Ret. exists b0. split; [done|].
  apply Forall_cons in Hlbins as [Hb _]. unfold vsize. by rewrite Hb.
Qed.

Lemma parallel_miximizer_spec label maxs mins tc :
  Bins label = lbins → lbins ≠ [] → vsize lbins ≤ 64 →
  ∃ m, parallel_miximizer label maxs mins tc = Ret m ∧ valid_miximizer m ∧
    MaxSteps m = maxs ∧ MinSteps m = mins ∧ MaxParallel m = tc.
Proof.
  intros Hlab Hne Hk. unfold parallel_miximizer.
  destruct (label_bin_size label Hlab Hne) as (bin0 & -> & Hsz). rewrite bind_Ret, Hsz, Hlab.
  destruct (label_calculator Hk) as (c & -> & Hh). rewrite bind_Ret. by eexists.
Qed.

Lemma EnabledBinIndexes_filter bg :
  valid_bg fs bg → EnabledBinIndexes bg = filter (enabled bg) (xrange bins).
Proof.
  intros (_ & Hsz & _). unfold EnabledBinIndexes, bins_with_flag. rewrite Hsz.
  apply filter_iff_in. intros b Hb%elem_of_xrange. unfold enabled. naive_solver lia.
Qed.

(** The candidates of the phases of [GetBinScore]: the enabled bins and the
    evaluated one, then the enabled bins of other features. *)
Definition max_cands (bg : TBackground) (e : Z) : list Z :=
  filter (λ b, b = e ∨ enabled bg b) (xrange bins).
Definition min_cands (bg : TBackground) (i : Z) : list Z :=
  filter (λ b, ¬ (fstart fs i ≤ b < fstart fs (i + 1)) ∧ enabled bg b) (xrange bins).

Lemma vback_Some {A} (l : list A) : l ≠ [] → ∃ x, vback l = Ret x ∧ list.last l = Some x.
Proof.
  intros Hl. unfold vback. destruct (list.last l) as [x|] eqn:Hx; [eauto|].
  by apply last_None in Hx.
Qed.

Lemma minimize_and_score_spec m bg e ms :
  valid_miximizer m → valid_bg fs bg → 0 ≤ e < bins → steps_in_range ms →
  1 ≤ MinSteps m ≤ vsize (EnabledBinIndexes bg) → vsize lbins + 2 * MinSteps m < 64 →
  ∃ r last, minimize_and_score m bg e ms = Ret r ∧ MaximizingSteps r = ms ∧
    vsize (MinimizingSteps r) = MinSteps m ∧ list.last (MinimizingSteps r) = Some last ∧
    Score r = Cmi last ∧ steps_in_range (MinimizingSteps r) ∧
    greedy a_ltb (EnabledBinIndexes bg) (min_value e ms) (MinimizingSteps r).
Proof.
  intros Hm Hv He Hms Hk Hl. unfold minimize_and_score.
  destruct (DoMinimizePhase_spec m bg e ms) as (bg' & steps & -> & Hsz & Hr & Hg); [done..|lia|lia|lia|].
  rewrite bind_Ret. cbn.
  destruct (vback_Some steps) as (last & -> & Hlast); [intros ->; rewrite vsize_nil in Hsz; lia|].
  rewrite bind_Ret. by eexists _, last.
Qed.

(** Enabling the evaluated bin gives the candidates of the maximize phase. *)
Lemma SetBinEnabled_max_cands bg e :
  valid_bg fs bg → 0 ≤ e < bins →
  ∃ bg1, SetBinEnabled bg e true = Ret bg1 ∧ valid_bg fs bg1 ∧ EnabledBinIndexes bg1 = max_cands bg e ∧
    ∀ b, enabled bg1 b ↔ b = e ∨ enabled bg b.
Proof.
  intros Hv He. destruct (SetBinEnabled_spec fs bg e true Hv He) as (bg1 & -> & Hv1 & _ & Hen1 & _).
  assert (Hen : ∀ b, enabled bg1 b ↔ b = e ∨ enabled bg b).
  { intros b. rewrite Hen1. case_decide; naive_solver. }
  exists bg1. split_and!; [done|done| |done].
  rewrite EnabledBinIndexes_filter by done. by apply filter_iff_in.
Qed.

(** [GetBinScore] up to its minimize phase. *)
Lemma GetBinScore_phases m bg e :
  valid_miximizer m → valid_bg fs bg → 0 ≤ e < bins →
  0 ≤ MaxSteps m → vsize lbins + MaxSteps m < 63 → MaxSteps m ≤ vsize (max_cands bg e) →
  ∃ ms bg2 i, GetBinScore bg e m = minimize_and_score m bg2 e ms ∧
    vsize ms = MaxSteps m ∧ steps_in_range ms ∧ greedy a_gtb (max_cands bg e) (max_value e) ms ∧
    fstart fs i ≤ e < fstart fs (i + 1) ∧ valid_bg fs bg2 ∧ EnabledBinIndexes bg2 = min_cands bg i.
Proof.
  intros Hm Hv He Hmax Hmaxl Hmaxc. unfold GetBinScore, ensure_eval_index.
  rewrite (rep_bin_count _ fs (proj1 Hv)), (proj2 (Z.leb_le _ _)), (proj2 (Z.ltb_lt _ _)) by lia.
  cbn [andb ensure]. rewrite bind_Ret.
  destruct (SetBinEnabled_max_cands bg e Hv He) as (bg1 & -> & Hv1 & Hc1 & Hen1). rewrite bind_Ret.
  destruct (DoMaximizePhase_spec m bg1 e) as (ms & -> & Hmsz & Hmsr & Hmsg); [done..|rewrite Hc1; lia|lia|].
  rewrite bind_Ret.
  destruct (rep_feature_of_bin (Features bg1) fs (proj1 Hv1) e He) as (i & -> & Hi & Hrange).
  rewrite bind_Ret.
  destruct (SetFeatureEnabled_spec fs bg1 i false Hv1 Hi) as (bg2 & -> & Hv2 & _ & Hen2 & _).
  rewrite bind_Ret. exists ms, bg2, i. rewrite <- Hc1. split_and!; try done; try apply Hrange.
  rewrite EnabledBinIndexes_filter by done. apply filter_iff_in. intros b _. rewrite Hen2.
  case_decide; [naive_solver|]. rewrite Hen1. split; [|naive_solver].
  intros [->|?]; [|done]. lia.
Qed.

(** [GetBinScore] returns, with greedy steps of both phases. *)
Lemma GetBinScore_spec m bg e :
  valid_miximizer m → valid_bg fs bg → 0 ≤ e < bins →
  0 ≤ MaxSteps m → vsize lbins + MaxSteps m < 63 → MaxSteps m ≤ vsize (max_cands bg e) →
  1 ≤ MinSteps m → vsize lbins + 2 * MinSteps m < 64 →
  (∀ i, fstart fs i ≤ e < fstart fs (i + 1) → MinSteps m ≤ vsize (min_cands bg i)) →
  ∃ r last i, GetBinScore bg e m = Ret r ∧ fstart fs i ≤ e < fstart fs (i + 1) ∧
    vsize (MaximizingSteps r) = MaxSteps m ∧ vsize (MinimizingSteps r) = MinSteps m ∧
    list.last (MinimizingSteps r) = Some last ∧ Score r = Cmi last ∧
    greedy a_gtb (max_cands bg e) (max_value e) (MaximizingSteps r) ∧
    greedy a_ltb (min_cands bg i) (min_value e (MaximizingSteps r)) (MinimizingSteps r).
Proof.
  intros Hm Hv He Hmax Hmaxl Hmaxc Hmin Hminl Hminc.
  destruct (GetBinScore_phases m bg e) as (ms & bg2 & i & -> & Hmsz & Hmsr & Hmsg & Hi & Hv2 & Hc2);
    [done..|].
  destruct (minimize_and_score_spec m bg2 e ms) as (r & last & -> & Hr1 & Hr2 & Hr3 & Hr4 & Hr5 & Hr6);
    [done..|rewrite Hc2; specialize (Hminc i Hi); lia|lia|].
  exists r, last, i. rewrite Hr1, <- Hc2. destruct Hi. by split_and!.
Qed.

End Phases.

(** ** Optimality of the picks *)

Section Optimal.
  Context `{ArithOrder D}.

Lemma picks_first pred cands (value : Z → outcome D) b v vs best :
  mmap value cands = Ret vs → cands !! Z.to_nat (extreme_of pred vs) = Some b → value b = Ret v →
  vs !! Z.to_nat (extreme_of pred vs) = Some best → best = v.
Proof.
  intros Hvs Hb Hv Hbest. apply mmap_Forall2 in Hvs.
  pose proof (Forall2_lookup_lr _ _ _ _ _ _ Hvs Hb Hbest) as Heq. cbv beta in Heq. congruence.
Qed.

Lemma picks_best pred cands (value : Z → outcome D) b v :
  (∀ vs, vs ≠ [] → Forall a_num vs → first_extremum pred vs (extreme_of pred vs)) →
  picks pred cands value b v → (∀ c w, c ∈ cands → value c = Ret w → a_num w) →
  ∀ c w, c ∈ cands → value c = Ret w → pred w v = false.
Proof.
  intros Hext (vs & Hvs & Hb & Hv) Hnum c w Hc Hw. pose proof Hvs as Hall%mmap_Forall2.
  assert (Hcv : ∀ x, x ∈ cands → ∃ y, y ∈ vs ∧ value x = Ret y).
  { intros x [k Hk]%list_elem_of_lookup. destruct (Forall2_lookup_l _ _ _ _ _ Hall Hk) as (y & Hy & Hxy).
    exists y. split; [by eapply list_elem_of_lookup_2|done]. }
  destruct (Hext vs) as (best & _ & Hbest & Hle & _).
  - intros ->. destruct (Hcv c Hc) as (y & Hy & _). by apply elem_of_nil in Hy.
  - apply Forall_forall. intros y [k Hk]%list_elem_of_lookup.
    destruct (Forall2_lookup_r _ _ _ _ _ Hall Hk) as (x & Hx & Hxy).
    eapply Hnum; [by eapply list_elem_of_lookup_2|exact Hxy].
  - rewrite <- (picks_first pred cands value b v vs best) by done.
    apply Hle. destruct (Hcv c Hc) as (y & Hy & Hyw). congruence.
Qed.

End Optimal.
