(* ===== verification/PoolWriter.v ===== *)
(** * Writing pools and scores: the printers of [cmicot/lib/io.cpp] and [io.h],
    [util/string/join.h]

    A printer is the text it writes.  When one fails half-way the text it wrote
    before is lost in this model: the program has passed it to the stream.

    The last part is about both directions: the pool and the map a run with
    [--just-binarize] writes give the features back when they are read. *)
From Stdlib Require Import Ascii String Reals Lra.
From S2P Require Import Prelude Arith Cast Stream XRange Algorithm PoolReader HashTable HashMap BinFeatureSet Parallel Binarize Entropy Cmi Score.

Open Scope Z_scope.

(** ** Pools and maps *)

(** A line of the pool. *)
Definition pool_line (label_values : list Z) (bins : list TBin) (line : Z) : outcome TString :=
  value ← vat label_values line;
  text ← int_text t_ui64 value;
  flags ← mmap (λ bin : TBin, flag ← vat bin line; t ← bool_text flag 64; Ret (chr "009" :: t)) bins;
  Ret (text ++ concat flags ++ [chr "010"]).

Definition OutputPool (label features : TBinFeatureSet) : outcome TString :=
  label_values ← UniteLabelBins (Bins label);
  lines ← mmap (pool_line label_values (Bins features)) (xrange (vsize label_values));
  Ret (concat lines).

Definition OutputFeatureSizes (features : TBinFeatureSet) : outcome TString :=
  lines ← mmap (λ feature_index,
      t ← int_text t_int feature_index;
      feature ← GetFeature features feature_index;
      n ← int_text t_ui64 (vsize feature);
      Ret (t ++ chr "009" :: n ++ [chr "010"])) (xrange (GetFeatureCount features));
  Ret (concat lines).

(** A line of the map; the state is [globalBinIndex] and the text so far. *)
Definition map_bin (feature_index : Z) (p : Z * TString) (_ : Z) : outcome (Z * TString) :=
  t ← int_text t_int feature_index;
  b ← int_text t_int p.1;
  Ret (p.1 + 1, p.2 ++ t ++ chr "009" :: b ++ [chr "010"]).

Definition OutputBinFeatureMap (features : TBinFeatureSet) : outcome TString :=
  r ← mfold (λ p feature_index,
        feature ← GetFeature features feature_index;
        mfold (map_bin feature_index) p (xrange (vsize feature)))
      (0, []) (xrange (GetFeatureCount features));
  Ret r.2.

(** ** Joining *)

(** [JoinRange(delim, beg, end)] of the texts of its elements, and [Join(delim, ...)]
    of at least one. *)
Definition JoinRange (delim : TString) (texts : list TString) : TString :=
  match texts with
  | [] => []
  | t :: texts => t ++ concat ((λ x, delim ++ x) <$> texts)
  end.

(** [JoinSeq(delim, data)] of [int]s. *)
Definition JoinSeq (delim : TString) (data : list Z) : outcome TString :=
  texts ← mmap (int_text t_int) data; Ret (JoinRange delim texts).

(** ** Scores *)

Inductive EOutputFormat : Type :=
| FullResult | UsedBins | ScoreFormat | PoolFormat | FeatureSizes | BinFeatureMap.

Section Scores.
  Context {D : Type} `{!Arith D, !DoubleConversion D}.

Definition endl : TString := [chr "010"].

(** [FormatScore], printed. *)
Definition FormatScore (score : D) : outcome TString :=
  FloatToString (score ⊞ a_lit 1 (-9)) PREC_POINT_DIGITS 8.

Definition OutputScore (score : D) : outcome TString :=
  t ← FormatScore score; Ret (t ++ endl).

(** [OutputUsedBins] of a bin score. *)
Definition OutputUsedBins_bin (result : TBinScore D) : outcome TString :=
  let separator := [chr "009"] in
  max_bins ← JoinSeq separator (GetMaximizingBinIndexes result);
  min_bins ← JoinSeq separator (GetMinimizingBinIndexes result);
  t ← FormatScore (Score result);
  Ret (JoinRange separator [max_bins; min_bins; t] ++ endl).

(** [OutputUsedBins] of a feature score. *)
Definition OutputUsedBins (result : TFeatureScore D) : outcome TString :=
  texts ← mmap OutputUsedBins_bin (FBinScore result); Ret (concat texts).

(** One step of a bin score; [i] is its position. *)
Definition out_step (kind : string) (p : nat * TStepResult D) : outcome TString :=
  i ← int_text t_int (Z.of_nat p.1 + 1);
  b ← int_text t_int (BinIndex p.2);
  c ← FormatScore (Cmi p.2);
  Ret (STRINGBUF kind ++ STRINGBUF " step " ++ i ++ STRINGBUF ", bin = " ++ b ++
       STRINGBUF ", CMI = " ++ c ++ endl).

(** [Out<TBinScore>] *)
Definition Out_bin_score (sr : TBinScore D) : outcome TString :=
  maxs ← mmap (out_step "max") (imap pair (MaximizingSteps sr));
  mins ← mmap (out_step "min") (imap pair (MinimizingSteps sr));
  t ← FormatScore (Score sr);
  Ret (concat maxs ++ concat mins ++ STRINGBUF "score: " ++ t).

(** [Out<TFeatureScore>] *)
Definition Out_feature_score (fs : TFeatureScore D) : outcome TString :=
  bins ← mmap (λ p, i ← int_text t_int (Z.of_nat p.1); b ← Out_bin_score p.2;
                    Ret (STRINGBUF "Bin " ++ i ++ endl ++ b ++ endl)) (imap pair (FBinScore fs));
  t ← FormatScore (FScore fs);
  Ret (concat bins ++ STRINGBUF "Feature score: " ++ t).

(** [Out<TCmimScore>] *)
Definition Out_cmim_score (fs : TCmimScore D) : outcome TString :=
  i ← int_text t_int (MinimizingFeatureIndex fs);
  t ← FormatScore (CScore fs);
  Ret (STRINGBUF "Minimizing feature index: " ++ i ++ endl ++ STRINGBUF "Feature score: " ++ t).

(** The maps [outputterByFlag], and [at]. *)
Definition feature_outputter (label features : TBinFeatureSet) (scoring_result : TFeatureScore D)
    (format : EOutputFormat) : outcome (outcome TString) :=
  Ret (match format with
       | FullResult => t ← Out_feature_score scoring_result; Ret (t ++ endl)
       | UsedBins => OutputUsedBins scoring_result
       | ScoreFormat => OutputScore (FScore scoring_result)
       | PoolFormat => OutputPool label features
       | FeatureSizes => OutputFeatureSizes features
       | BinFeatureMap => OutputBinFeatureMap features
       end).

Definition cmim_outputter (label features : TBinFeatureSet) (scoring_result : TCmimScore D)
    (format : EOutputFormat) : outcome (outcome TString) :=
  match format with
  | FullResult => Ret (t ← Out_cmim_score scoring_result; Ret (t ++ endl))
  | UsedBins => Fail (Throw EKeyNotFound)
  | ScoreFormat => Ret (OutputScore (CScore scoring_result))
  | PoolFormat => Ret (OutputPool label features)
  | FeatureSizes => Ret (OutputFeatureSizes features)
  | BinFeatureMap => Ret (OutputBinFeatureMap features)
  end.

(** [BuildOutputChain], over either map: the outputters are looked up when the chain
    is built and run when it is called. *)
Definition BuildOutputChain (outputter_by_flag : EOutputFormat → outcome (outcome TString))
    (flags : list EOutputFormat) : outcome (outcome TString) :=
  let flags := match flags with [] => [ScoreFormat] | _ => flags end in
  outputters ← mmap outputter_by_flag flags;
  Ret (texts ← mmap (λ o, o) outputters; Ret (concat texts)).

End Scores.

(** A chain of a CMIM score cannot be built with the format of used bins; every other
    chain can. *)
Lemma BuildOutputChain_cmim {D} `{!Arith D, !DoubleConversion D} label features (score : TCmimScore D) flags :
  (UsedBins ∈ flags → BuildOutputChain (cmim_outputter label features score) flags = Fail (Throw EKeyNotFound)) ∧
  (UsedBins ∉ flags → ∃ chain, BuildOutputChain (cmim_outputter label features score) flags = Ret chain).
Proof.
  unfold BuildOutputChain. split; intros Hin.
  - assert (mmap (cmim_outputter label features score) flags = Fail (Throw EKeyNotFound)) as Hm.
    { apply mmap_Fail.
      - intros [] _; cbn; eauto.
      - by exists UsedBins. }
    destruct flags; [by apply not_elem_of_nil in Hin|]. by rewrite Hm.
  - set (fl := match flags with [] => _ | _ => _ end).
    destruct (mmap_total (cmim_outputter label features score) fl) as [os ->]; [|by eexists].
    intros x Hx. destruct x; try by eexists. exfalso. unfold fl in Hx.
    destruct flags; [by apply list_elem_of_singleton in Hx|done].
Qed.

(** ** Texts of lines *)

Lemma cut_at_line ch l k : ch ∉ l → cut_at ch (l ++ ch :: k) = (l, k).
Proof.
  induction l as [|c l IH]; intros Hl; cbn; [by rewrite Z.eqb_refl|].
  rewrite (proj2 (Z.eqb_neq c ch)) by set_solver. by rewrite IH by set_solver.
Qed.

(** The lines of a text that ends each of them with a line feed. *)
Lemma lines_of_concat ls : Forall (λ l, 10 ∉ l ∧ list.last l ≠ Some 13) ls →
  lines_of (concat ((λ l, l ++ [10]) <$> ls)) = ls.
Proof.
  induction 1 as [|l ls [Hl Hlast] _ IH]; [done|]. cbn [fmap list_fmap concat].
  rewrite <- app_assoc. cbn [app]. rewrite lines_of_cons by (by destruct l).
  rewrite cut_at_line by done. cbn [fst snd]. rewrite IH. unfold strip_cr. by rewrite bool_decide_false.
Qed.

Lemma split_on_notin ch cur l : ch ∉ l → split_on ch cur l = [cur ++ l].
Proof.
  revert cur. induction l as [|c l IH]; intros cur Hl; cbn; [by rewrite app_nil_r|].
  rewrite (proj2 (Z.eqb_neq c ch)) by set_solver. rewrite IH by set_solver. by rewrite <- app_assoc.
Qed.

Lemma split_on_app ch cur l k : ch ∉ l → split_on ch cur (l ++ ch :: k) = (cur ++ l) :: split_on ch [] k.
Proof.
  revert cur. induction l as [|c l IH]; intros cur Hl; cbn; [by rewrite Z.eqb_refl, app_nil_r|].
  rewrite (proj2 (Z.eqb_neq c ch)) by set_solver. rewrite IH by set_solver. by rewrite <- app_assoc.
Qed.

(** The tokens of a line written token by token. *)
Lemma split_on_join ch t ts : ch ∉ t → Forall (λ t, ch ∉ t) ts →
  split_on ch [] (t ++ concat ((λ t, ch :: t) <$> ts)) = t :: ts.
Proof.
  intros Ht Hts. revert t Ht. induction Hts as [|t' ts Ht' _ IH]; intros t Ht; cbn [fmap list_fmap concat].
  - rewrite app_nil_r. by apply (split_on_notin ch []).
  - cbn [app]. rewrite split_on_app by done. cbn [app]. by rewrite IH.
Qed.

(** The text of a number that is an [ui64], and of a flag. *)
Definition code_text (v : Z) : TString := match int_text t_ui64 v with Ret t => t | Fail _ => [] end.
Definition bit_text (b : bool) : TString := [if b then chr "1" else chr "0"].

Lemma code_text_ok v : 0 ≤ v < 2 ^ 64 →
  int_text t_ui64 v = Ret (code_text v) ∧ IntFromString t_ui64 10 (code_text v) = Ret v ∧
  Forall (λ c, c = chr "-" ∨ 48 ≤ c < 128) (code_text v) ∧ 0 < vsize (code_text v) ≤ 64.
Proof.
  intros Hv. unfold code_text. destruct (int_text_ui64 v Hv) as (cs & Ht & Hp & Hc & Hne). rewrite Ht.
  split_and!; try done; [by apply vsize_pos|].
  unfold int_text, FormatInt in Ht. cbn [is_signed t_ui64 andb] in Ht. rewrite u64_small in Ht by done.
  destruct (TBasicIntFormatter_Format_spec 10 v 64 ltac:(lia) Hv ltac:(lia)) as [Hf _].
  destruct Hf as (ds & Hf & _ & _ & _ & Hsz); [assert (2 ^ 64 < 10 ^ 64) by done; lia|].
  rewrite Hf in Ht. injection Ht as <-. unfold digit_chars, vsize in *. by rewrite length_fmap.
Qed.

(** No character of a number ends a token or a line. *)
Lemma number_chars cs : Forall (λ c, c = chr "-" ∨ 48 ≤ c < 128) cs → 9 ∉ cs ∧ 10 ∉ cs ∧ 13 ∉ cs.
Proof.
  rewrite Forall_forall. assert (chr "-" = 45) as Hm by done.
  intros Hcs. split_and!; intros Hin; apply Hcs in Hin; lia.
Qed.

Lemma last_notin (l : TString) x : x ∉ l → list.last l ≠ Some x.
Proof. intros Hl Hx. apply Hl. by apply last_Some_elem_of. Qed.

(** ** The text of a pool *)

Definition line_text (bins : list TBin) (code : Z) (i : nat) : TString :=
  code_text code ++ concat ((λ t, 9 :: t) <$> ((λ bin : TBin, bit_text (bin !!! i)) <$> bins)).

Definition code_in_range (v : Z) : Prop := 0 ≤ v < 2 ^ 64.

Lemma OutputPool_text label features codes :
  UniteLabelBins (Bins label) = Ret codes → Forall code_in_range codes →
  Forall (λ bin, length bin = length codes) (Bins features) →
  OutputPool label features =
    Ret (concat ((λ l, l ++ [10]) <$> imap (λ i c, line_text (Bins features) c i) codes)).
Proof.
  intros Hcodes Hrange Hbins. unfold OutputPool. rewrite Hcodes, bind_Ret.
  set (line i := line_text (Bins features) (codes !!! Z.to_nat i) (Z.to_nat i) ++ [10]).
  rewrite (mmap_Ret _ line).
  - rewrite bind_Ret. do 2 f_equal. apply list_eq. intros i.
    rewrite xrange_seqZ, !list_lookup_fmap, list_lookup_imap.
    destruct (codes !! i) as [c|] eqn:Hc; cbn.
    + rewrite lookup_seqZ_lt by (apply lookup_lt_Some in Hc; unfold vsize; lia).
      cbn [fmap option_fmap option_map]. unfold line. replace (Z.to_nat (0 + Z.of_nat i)) with i by lia. by rewrite (list_lookup_total_correct _ _ _ Hc).
    + apply lookup_ge_None in Hc. rewrite lookup_seqZ_ge by (unfold vsize; lia). done.
  - intros i Hi%elem_of_xrange. unfold pool_line, line, line_text.
    destruct (vat_in_range codes i Hi) as (c & -> & Hc). rewrite bind_Ret, (list_lookup_total_correct _ _ _ Hc).
    rewrite Forall_lookup in Hrange. destruct (code_text_ok c (Hrange _ _ Hc)) as [-> _]. rewrite bind_Ret.
    rewrite (mmap_Ret _ (λ bin, 9 :: bit_text (bin !!! Z.to_nat i))).
    + rewrite bind_Ret, <- list_fmap_compose. change (chr "010") with 10. by rewrite app_assoc.
    + intros bin Hbin. rewrite Forall_forall in Hbins. specialize (Hbins bin Hbin).
      destruct (vat_in_range bin i) as (b & -> & Hb); [unfold vsize in *; lia|].
      by rewrite (list_lookup_total_correct _ _ _ Hb).
Qed.

Section PoolText.
  Context {D : Type} (TryFromString : TString → option D) (num : bool → D).
  (** The converter reads the digits [0] and [1] as two numbers, and every text of
      digits as a number. *)
  Hypothesis TryFromString_bit : ∀ b, TryFromString (bit_text b) = Some (num b).
  Hypothesis TryFromString_code : ∀ v, code_in_range v → is_Some (TryFromString (code_text v)).

Lemma row_of_line bins code i d : code_in_range code → TryFromString (code_text code) = Some d →
  row_of TryFromString (line_text bins code i) = Some (d :: ((λ bin : TBin, num (bin !!! i)) <$> bins)).
Proof using TryFromString_bit.
  intros Hcode Hd. unfold row_of, line_text. destruct (code_text_ok code Hcode) as (_ & _ & Hc & _).
  apply number_chars in Hc as (H9 & _). rewrite split_on_join; [|done|].
  - apply mapM_Some. constructor; [done|]. induction bins; constructor; auto.
  - apply Forall_fmap, Forall_true. intros bin. unfold bit_text. apply not_elem_of_cons.
    split; [by destruct (bin !!! i)|apply not_elem_of_nil].
Qed.

Lemma line_text_chars bins code i : code_in_range code →
  10 ∉ line_text bins code i ∧ list.last (line_text bins code i) ≠ Some 13.
Proof using Type.
  intros Hcode. unfold line_text. destruct (code_text_ok code Hcode) as (_ & _ & Hc & _).
  apply number_chars in Hc as (_ & H10 & H13).
  assert (∀ x, x = 10 ∨ x = 13 → x ∉ concat ((λ t, 9 :: t) <$> ((λ bin : TBin, bit_text (bin !!! i)) <$> bins))) as Hbits.
  { intros x Hx. induction bins as [|bin bins IH]; cbn; [apply not_elem_of_nil|].
    rewrite !not_elem_of_cons. split_and!; [lia| |done].
    assert (chr "1" = 49 ∧ chr "0" = 48) as [H1 H0] by done. destruct (bin !!! i); lia. }
  split; [|apply last_notin]; rewrite elem_of_app; intros [?|Hin]; try done; revert Hin; apply Hbits; lia.
Qed.

(** The rows of a pool: a number of the label and the flags of every bin. *)
Definition flag_rows (column : list D) (bins : list TBin) : list (list D) :=
  imap (λ i d, d :: ((λ bin : TBin, num (bin !!! i)) <$> bins)) column.

Lemma flag_rows_columns column bins :
  Forall (λ r, length r = S (length bins)) (flag_rows column bins).
Proof using Type.
  apply Forall_lookup. intros i row Hrow. unfold flag_rows in Hrow. rewrite list_lookup_imap in Hrow.
  destruct (column !! i); [|done]. injection Hrow as <-. cbn. by rewrite length_fmap.
Qed.

Lemma transpose_flags column bins : Forall (λ bin, length bin = length column) bins →
  transpose (S (length bins)) (flag_rows column bins) = column :: ((λ bin : TBin, num <$> bin) <$> bins).
Proof using Type.
  intros Hbins. pose proof (flag_rows_columns column bins) as Hr.
  pose proof (length_transpose _ _ Hr) as Htl. apply list_eq. intros j.
  destruct (transpose (S (length bins)) (flag_rows column bins) !! j) as [col|] eqn:Hc.
  2: { apply lookup_ge_None in Hc. symmetry. apply lookup_ge_None. cbn. rewrite length_fmap. lia. }
  assert (∀ i, col !! i = column !! i ≫= λ d, (d :: ((λ bin : TBin, num (bin !!! i)) <$> bins)) !! j) as Hci.
  { intros i. rewrite (proj1 (lookup_transpose _ _ j col i Hr Hc)). unfold flag_rows.
    rewrite list_lookup_imap. by destruct (column !! i). }
  destruct j as [|j].
  - change (Some col = Some column). f_equal. apply list_eq. intros i. rewrite Hci. by destruct (column !! i).
  - change (Some col = ((λ bin : TBin, num <$> bin) <$> bins) !! j).
    apply lookup_lt_Some in Hc. rewrite list_lookup_fmap.
    destruct (lookup_lt_is_Some_2 bins j) as [bin Hbin]; [lia|]. rewrite Hbin. cbn. f_equal.
    pose proof (Forall_lookup_1 _ _ _ _ Hbins Hbin) as Hlen. cbn in Hlen. apply list_eq. intros i.
    rewrite Hci, list_lookup_fmap. destruct (bin !! i) as [b|] eqn:Hb.
    + destruct (lookup_lt_is_Some_2 column i) as [d ->]; [apply lookup_lt_Some in Hb; lia|].
      change (((λ bin : TBin, num (bin !!! i)) <$> bins) !! j = Some (num b)).
      rewrite list_lookup_fmap, Hbin. cbn. by rewrite (list_lookup_total_correct _ _ _ Hb).
    + apply lookup_ge_None in Hb. by rewrite (proj2 (lookup_ge_None column i)) by lia.
Qed.

(** Reading the text of a pool gives the label codes and the flags as numbers. *)
Lemma pool_of_text codes bins : codes ≠ [] → Forall code_in_range codes →
  Forall (λ bin, length bin = length codes) bins →
  ∃ column : list D, length column = length codes ∧
    (∀ i, column !! i = (c ← codes !! i; TryFromString (code_text c))) ∧
    pool_of TryFromString (lines_of (concat ((λ l, l ++ [10]) <$> imap (λ i c, line_text bins c i) codes))) =
      Some (column :: ((λ bin : TBin, num <$> bin) <$> bins)).
Proof using TryFromString_bit TryFromString_code.
  intros Hne Hrange Hbins.
  rewrite lines_of_concat.
  2: { apply Forall_lookup. intros i l Hl. rewrite list_lookup_imap in Hl.
       destruct (codes !! i) as [c|] eqn:Hc; [|done]. injection Hl as <-.
       apply line_text_chars. by eapply Forall_lookup_1 in Hrange. }
  assert (∃ column, mapM (λ c, TryFromString (code_text c)) codes = Some column) as [column Hcol].
  { apply mapM_is_Some, Forall_forall. intros c Hc. rewrite Forall_forall in Hrange. by apply TryFromString_code, Hrange. }
  apply mapM_Some in Hcol. pose proof (Forall2_length _ _ _ Hcol) as Hlen.
  assert (∀ i, column !! i = (c ← codes !! i; TryFromString (code_text c))) as Hlook.
  { intros i. destruct (codes !! i) as [c|] eqn:Hc; cbn.
    - destruct (Forall2_lookup_l _ _ _ _ _ Hcol Hc) as (d & -> & Hd). done.
    - apply lookup_ge_None in Hc. apply lookup_ge_None. lia. }
  exists column. split_and!; [done|done|].
  assert (table TryFromString (imap (λ i c, line_text bins c i) codes) (S (length bins)) (flag_rows column bins)) as [Hm Hr].
  { split; [|apply flag_rows_columns].
    apply mapM_Some, Forall2_lookup. intros i. unfold flag_rows. rewrite !list_lookup_imap, Hlook.
    destruct (codes !! i) as [c|] eqn:Hc; cbn; [|constructor].
    pose proof (Forall_lookup_1 _ _ _ _ Hrange Hc) as Hcr. destruct (TryFromString_code c Hcr) as [d Hd].
    rewrite Hd. cbn. constructor. by apply row_of_line. }
  rewrite <- transpose_flags by (eapply Forall_impl; [exact Hbins|]; cbn; lia).
  unfold pool_of. rewrite Hm. cbn. destruct (flag_rows column bins) as [|row rest] eqn:Hrows.
  - apply (f_equal length) in Hrows. unfold flag_rows in Hrows. rewrite length_imap in Hrows.
    destruct codes; [done|]. cbn in *. lia.
  - pose proof Hr as [-> _]%Forall_cons_1. by rewrite decide_True.
Qed.

End PoolText.

(** ** The text of a map *)

(** The feature and the number of every bin, for features from [i] and bins from [b]. *)
Fixpoint bin_pairs (i b : Z) (fs : list (list TBin)) : list (Z * Z) :=
  match fs with
  | [] => []
  | f :: fs => ((λ k, (i, b + k)) <$> xrange (vsize f)) ++ bin_pairs (i + 1) (b + vsize f) fs
  end.

Definition pair_text (p : Z * Z) : TString := code_text p.1 ++ 9 :: code_text p.2.

Lemma length_bin_pairs i b fs : vsize (bin_pairs i b fs) = vsize (concat fs).
Proof.
  revert i b. induction fs as [|f fs IH]; intros i b; cbn; [done|].
  rewrite !vsize_app, IH. f_equal. pose proof (vsize_xrange (vsize f) (vsize_nonneg f)) as Hx.
  unfold vsize in *. by rewrite length_fmap.
Qed.

Lemma bin_pairs_snd i b fs : (bin_pairs i b fs).*2 = seqZ b (vsize (concat fs)).
Proof.
  revert i b. induction fs as [|f fs IH]; intros i b; [done|]. cbn [bin_pairs concat].
  rewrite fmap_app, IH, vsize_app, seqZ_app by apply vsize_nonneg. f_equal.
  rewrite <- list_fmap_compose, xrange_seqZ. transitivity (Z.add b <$> seqZ 0 (vsize f)).
  - by apply list_fmap_ext.
  - by rewrite fmap_add_seqZ, Z.add_0_r.
Qed.

Lemma bin_pairs_fst i b fs p : p ∈ bin_pairs i b fs → i ≤ p.1 < i + vsize fs.
Proof.
  revert i b. induction fs as [|f fs IH]; intros i b; cbn; [by intros ?%not_elem_of_nil|].
  rewrite vsize_cons. pose proof (vsize_nonneg fs). intros [Hp|Hp]%elem_of_app.
  - apply list_elem_of_fmap in Hp as (k & -> & _). cbn. lia.
  - apply IH in Hp. lia.
Qed.

(** The inner loop over the bins of a feature. *)
Lemma map_bins_text i b out n : 0 ≤ i < 2 ^ 31 → 0 ≤ b → 0 ≤ n → b + n ≤ 2 ^ 31 →
  mfold (map_bin i) (b, out) (xrange n) =
    Ret (b + n, out ++ concat ((λ l, l ++ [10]) <$> (pair_text <$> ((λ k, (i, b + k)) <$> xrange n)))).
Proof.
  intros Hi Hb Hn. pattern n. apply natlike_ind; [|clear n Hn; intros n Hn IH Hbn|exact Hn].
  { intros _. cbn. by rewrite Z.add_0_r, app_nil_r. }
  unfold Z.succ in *. rewrite xrange_S, mfold_app, IH by lia. rewrite bind_Ret. cbn [mfold].
  unfold map_bin. cbn [fst snd]. rewrite !int_text_nonneg by lia.
  rewrite (proj1 (code_text_ok i ltac:(lia))), (proj1 (code_text_ok (b + n) ltac:(lia))), !bind_Ret.
  f_equal. f_equal; [lia|]. rewrite !fmap_app, concat_app. cbn. unfold pair_text. cbn.
  change (chr "009") with 9. change (chr "010") with 10. by rewrite app_nil_r, <- !app_assoc.
Qed.

Lemma OutputBinFeatureMap_text features fs : rep features fs →
  vsize fs < 2 ^ 31 → vsize (concat fs) < 2 ^ 31 →
  OutputBinFeatureMap features =
    Ret (concat ((λ l, l ++ [10]) <$> (pair_text <$> bin_pairs 0 0 fs))).
Proof.
  intros Hrep Hn Hb. unfold OutputBinFeatureMap. rewrite (rep_feature_count _ _ Hrep).
  set (step := λ p feature_index, _ ← _; _).
  assert (∀ pre post b out, fs = pre ++ post → b = vsize (concat pre) →
    mfold step (b, out) (xrange2 (vsize pre) (vsize fs)) =
      Ret (vsize (concat fs), out ++ concat ((λ l, l ++ [10]) <$> (pair_text <$> bin_pairs (vsize pre) b post)))) as Hgen.
  { intros pre post. revert pre. induction post as [|f post IH]; intros pre b out Hfs ->.
    - rewrite app_nil_r in Hfs. subst pre. rewrite xrange2_seqZ, Z.sub_diag. cbn. by rewrite app_nil_r.
    - pose proof (vsize_nonneg post) as Hpost. pose proof (vsize_nonneg pre) as Hpre.
      assert (vsize fs = vsize pre + 1 + vsize post) as Hsz by (rewrite Hfs, vsize_app, vsize_cons; lia).
      rewrite xrange2_seqZ, seqZ_cons, <- Z.add_1_r by lia.
      replace (Z.pred (vsize fs - vsize pre)) with (vsize fs - (vsize pre + 1)) by lia. rewrite <- xrange2_seqZ.
      cbn [mfold]. unfold step at 2. rewrite (rep_feature _ _ Hrep (vsize pre) f); [|lia|].
      2: { rewrite Hfs. unfold vsize. by rewrite Nat2Z.id, list_lookup_middle. }
      rewrite bind_Ret. pose proof (vsize_nonneg f). pose proof (vsize_nonneg (concat pre)).
      assert (vsize (concat fs) = vsize (concat pre) + vsize f + vsize (concat post)) as Hc
        by (rewrite Hfs, concat_app; cbn; rewrite !vsize_app; lia).
      pose proof (vsize_nonneg (concat post)).
      rewrite map_bins_text by lia. rewrite bind_Ret.
      specialize (IH (pre ++ [f]) (vsize (concat pre) + vsize f)
        (out ++ concat ((λ l, l ++ [10]) <$> (pair_text <$> ((λ k, (vsize pre, vsize (concat pre) + k)) <$> xrange (vsize f)))))).
      rewrite vsize_snoc in IH. rewrite IH; [|by rewrite <- app_assoc|rewrite concat_app; cbn; by rewrite app_nil_r, vsize_app].
      f_equal. f_equal. cbn [bin_pairs]. rewrite !fmap_app, concat_app. by rewrite <- app_assoc. }
  specialize (Hgen [] fs 0 [] eq_refl eq_refl). unfold xrange.
  change (vsize (@nil (list TBin))) with 0 in Hgen. by rewrite Hgen.
Qed.

Lemma map_line_pair f b : 0 ≤ f < 2 ^ 64 → 0 ≤ b < 2 ^ 64 → map_line (pair_text (f, b)) = Ret (f, b).
Proof.
  intros Hf Hb. unfold map_line, pair_text. cbn [fst snd].
  destruct (code_text_ok f Hf) as (_ & Hpf & Hcf & Hsf). destruct (code_text_ok b Hb) as (_ & Hpb & Hcb & Hsb).
  rewrite next_number_text; [|lia|done|left; exists 9; done]. cbn [fst snd tail].
  rewrite Hpf, bind_Ret. rewrite <- (app_nil_r (code_text b)).
  rewrite next_number_text; [|lia|done|by right]. cbn [fst]. by rewrite Hpb.
Qed.

(** Reading the text of a map gives the feature of every bin. *)
Lemma map_of_text ps : Forall (λ p, 0 ≤ p.1 < 2 ^ 64 ∧ 0 ≤ p.2 < 2 ^ 64) ps →
  lines_of (concat ((λ l, l ++ [10]) <$> (pair_text <$> ps))) = pair_text <$> ps ∧
  mmap map_line (pair_text <$> ps) = Ret ps.
Proof.
  intros Hps. split.
  - apply lines_of_concat, Forall_fmap. eapply Forall_impl; [exact Hps|]. intros [f b] [Hf Hb]. cbn in *.
    destruct (code_text_ok f Hf) as (_ & _ & Hcf & _). destruct (code_text_ok b Hb) as (_ & _ & Hcb & _).
    apply number_chars in Hcf as (_ & Hf10 & Hf13), Hcb as (_ & Hb10 & Hb13).
    unfold pair_text. cbn. split; [|apply last_notin]; rewrite elem_of_app, elem_of_cons; naive_solver lia.
  - apply mmap_Forall2. induction Hps as [|[f b] ps [Hf Hb] _ IH]; constructor; [|done].
    by apply map_line_pair.
Qed.

(** ** Round trip *)

Lemma bins_of_feature_app map map' bins bins' f : length map = length bins →
  bins_of_feature (map ++ map') (bins ++ bins') f = bins_of_feature map bins f ++ bins_of_feature map' bins' f.
Proof.
  intros Hlen. unfold bins_of_feature. rewrite zip_with_app by done. by rewrite filter_app, fmap_app.
Qed.

Lemma bins_of_feature_const map bins i f : length map = length bins → Forall (.= i) map →
  bins_of_feature map bins f = if decide (i = f) then bins else [].
Proof.
  unfold bins_of_feature. intros Hlen. revert bins Hlen. induction map as [|m map IH]; intros [|bin bins] Hlen Hall; try done.
  - by case_decide.
  - apply Forall_cons_1 in Hall as [-> Hall]. cbn [zip_with]. rewrite filter_cons. cbn [fst].
    specialize (IH bins ltac:(cbn in Hlen; lia) Hall). case_decide; cbn; by rewrite IH.
Qed.

(** The map gives every feature its bins. *)
Lemma bins_of_feature_pairs i b fs f : i ≤ f →
  bins_of_feature ((bin_pairs i b fs).*1) (concat fs) f = default [] (fs !! Z.to_nat (f - i)).
Proof.
  revert i b. induction fs as [|g fs IH]; intros i b Hf; [done|]. cbn [bin_pairs concat].
  rewrite fmap_app, bins_of_feature_app.
  2: { rewrite !length_fmap, xrange_seqZ, length_seqZ. unfold vsize. lia. }
  rewrite (bins_of_feature_const _ g i).
  2: { rewrite !length_fmap, xrange_seqZ, length_seqZ. unfold vsize. lia. }
  2: { rewrite <- list_fmap_compose. apply Forall_fmap, Forall_true. done. }
  case_decide as Heq.
  - subst f. rewrite Z.sub_diag. cbn.
    assert (bins_of_feature ((bin_pairs (i + 1) (b + vsize g) fs).*1) (concat fs) i = []) as ->; [|by rewrite app_nil_r].
    unfold bins_of_feature. rewrite filter_none; [done|]. intros [m bin] Hp Hm. cbn in Hm. subst m.
    apply elem_of_zip_l in Hp. apply list_elem_of_fmap in Hp as (p & Hp & Hin). apply bin_pairs_fst in Hin. lia.
  - rewrite IH by lia. replace (Z.to_nat (f - i)) with (S (Z.to_nat (f - (i + 1)))) by lia. done.
Qed.

Lemma rep_unique s s' fs : rep s fs → rep s' fs → s = s'.
Proof. destruct s, s'. intros [H1 H2] [H3 H4]. cbn in *. congruence. Qed.

Lemma bin_pairs_last i b fs f : list.last fs = Some f → f ≠ [] → i + vsize fs - 1 ∈ (bin_pairs i b fs).*1.
Proof.
  revert i b. induction fs as [|g fs IH]; intros i b Hl Hf; [done|]. cbn [bin_pairs].
  rewrite fmap_app, elem_of_app. destruct fs as [|g' fs].
  - left. cbn in Hl. injection Hl as ->. rewrite vsize_cons, vsize_nil.
    apply list_elem_of_fmap. exists (i, b + 0). split; [cbn; lia|]. apply list_elem_of_fmap. exists 0.
    split; [done|]. apply elem_of_xrange. pose proof (vsize_pos f Hf). lia.
  - right. rewrite vsize_cons. specialize (IH (i + 1) (b + vsize g) Hl Hf).
    by replace (i + (1 + vsize (g' :: fs)) - 1) with (i + 1 + vsize (g' :: fs) - 1) by lia.
Qed.

(** [BinarizeWithMap] undoes the map of a set of features whose last one has a bin. *)
Lemma BinarizeWithMap_pairs {D} `{HD : Arith D} (num : bool → D) features fs last :
  (∀ b, a_trunc (num b) = Some (Z.b2z b)) → rep features fs → list.last fs = Some last → last ≠ [] →
  BinarizeWithMap ((λ bin : TBin, num <$> bin) <$> concat fs) ((bin_pairs 0 0 fs).*1) = Ret features.
Proof.
  intros Hnum Hrep Hlast Hne. pose proof (bin_pairs_last 0 0 fs last Hlast Hne) as Hin.
  destruct (BinarizeWithMap_rebuild ((λ bin : TBin, num <$> bin) <$> concat fs) ((bin_pairs 0 0 fs).*1) (concat fs))
    as (s & fs' & -> & Hrep' & Hbound & Hmax & Hfs').
  - intros Hz. rewrite Hz in Hin. by apply not_elem_of_nil in Hin.
  - apply Forall_forall. intros m (p & -> & Hp)%list_elem_of_fmap. apply bin_pairs_fst in Hp. lia.
  - apply mmap_Forall2. apply Forall2_fmap_l, Forall_Forall2_diag, Forall_true. intros bin. cbn.
    apply mmap_Forall2, Forall2_fmap_l, Forall_Forall2_diag, Forall_true. intros b. by apply binary_value_bit.
  - pose proof (length_bin_pairs 0 0 fs) as Hl. unfold vsize in *. rewrite !length_fmap. lia.
  - f_equal. apply (rep_unique _ _ fs); [|done].
    assert (vsize fs' = vsize fs) as Hsz.
    { specialize (Hbound _ Hin). apply list_elem_of_fmap in Hmax as (p & Hp & Hpin). apply bin_pairs_fst in Hpin. lia. }
    assert (fs' = fs) as <-; [|done]. apply list_eq. intros i.
    destruct (fs' !! i) as [fb|] eqn:Hfb.
    + rewrite (Hfs' _ _ Hfb), bins_of_feature_pairs, Z.sub_0_r, Nat2Z.id by lia.
      destruct (lookup_lt_is_Some_2 fs i) as [g ->]; [|done]. apply lookup_lt_Some in Hfb. unfold vsize in Hsz. lia.
    + apply lookup_ge_None in Hfb. symmetry. apply lookup_ge_None. unfold vsize in Hsz. lia.
Qed.

(** The pool and the map a run with [--just-binarize] writes give the features
    back: reading the two texts, from any streams and in batches of any size, and
    binarizing the pool with the map rebuilds exactly the set of features that was
    written, and the first column has the codes of the label.  The last feature has
    a bin, as every feature the program binarizes has. *)
Theorem just_binarize_roundtrip {D S1 S2} `{HD : Arith D}
  `{!IInputStream S1, !InputStreamOk S1, !IInputStream S2, !InputStreamOk S2}
  (TryFromString : TString → option D) (num : bool → D) (max_elements n : Z)
  (label features : TBinFeatureSet) (fs : list (list TBin)) (last : list TBin) (codes : list Z)
  (Hbit : ∀ b, TryFromString (bit_text b) = Some (num b) ∧ a_trunc (num b) = Some (Z.b2z b))
  (Hcode : ∀ v, code_in_range v → is_Some (TryFromString (code_text v)))
  (Hcodes : UniteLabelBins (Bins label) = Ret codes) (Hne : codes ≠ []) (Hrange : Forall code_in_range codes)
  (Hrep : rep features fs) (Hbins : Forall (λ bin, length bin = length codes) (concat fs))
  (Hlast : list.last fs = Some last) (Hlast_ne : last ≠ [])
  (Hsize : vsize fs < 2 ^ 31 ∧ vsize (concat fs) < 2 ^ 31 ≤ max_elements) (Hmax : max_elements < 2 ^ 64) (Hn : 0 < n) :
  ∃ pool_text map_text,
    OutputPool label features = Ret pool_text ∧ OutputBinFeatureMap features = Ret map_text ∧
    ∀ (s1 : S1) (s2 : S2), good s1 → rest s1 = pool_text → good s2 → rest s2 = map_text →
    ∃ column columns bin_to_feature,
      ReadPool_batches TryFromString n s1 = Ret (column :: columns) ∧
      ReadBinToFeatureMap max_elements s2 = Ret bin_to_feature ∧
      BinarizeWithMap columns bin_to_feature = Ret features ∧
      length column = length codes ∧
      ∀ i, column !! i = (c ← codes !! i; TryFromString (code_text c)).
Proof.
  assert (Bins features = concat fs) as HB by apply Hrep.
  eexists _, _. split; [apply OutputPool_text; [done|done|by rewrite HB]|].
  split; [apply (OutputBinFeatureMap_text features fs); [done|lia|lia]|].
  intros s1 s2 Hg1 Hr1 Hg2 Hr2.
  destruct (pool_of_text TryFromString num (λ b, proj1 (Hbit b)) Hcode codes (Bins features) Hne Hrange)
    as (column & Hlen & Hlook & Hpool); [by rewrite HB|].
  exists column, ((λ bin : TBin, num <$> bin) <$> concat fs), ((bin_pairs 0 0 fs).*1).
  pose proof (ReadPool_spec TryFromString n s1 Hg1 Hn) as Hread. rewrite Hr1, Hpool in Hread.
  split; [by rewrite Hread, HB|]. split; [|split; [|done]].
  - destruct (map_of_text (bin_pairs 0 0 fs)) as [Hl Hm].
    { apply Forall_forall. intros p Hp. pose proof (bin_pairs_fst _ _ _ _ Hp).
      assert (p.2 ∈ (bin_pairs 0 0 fs).*2) as Hp2 by (apply list_elem_of_fmap; by exists p).
      rewrite bin_pairs_snd, elem_of_seqZ in Hp2. lia. }
    apply (ReadBinToFeatureMap_spec max_elements s2 Hg2 Hmax); rewrite Hr2, Hl.
    + intros line p Hline Hp. apply mmap_Forall2, Forall2_fmap_l in Hm. apply list_elem_of_fmap in Hline as (q & -> & Hq).
      apply list_elem_of_lookup in Hq as [i Hi]. destruct (Forall2_lookup_l _ _ _ _ _ Hm Hi) as (q' & Hq' & Hmq).
      assert (q' = q) as -> by congruence. assert (p = q) as -> by congruence. apply list_elem_of_lookup_2 in Hi.
      pose proof (bin_pairs_fst _ _ _ _ Hi). assert (q.2 ∈ (bin_pairs 0 0 fs).*2) as Hp2 by (apply list_elem_of_fmap; by exists q).
      rewrite bin_pairs_snd, elem_of_seqZ in Hp2. lia.
    + exists (bin_pairs 0 0 fs). split; [done|]. rewrite bin_pairs_snd. split; [apply NoDup_seqZ|].
      split; [by rewrite length_fmap|]. intros f b Hp. apply list_elem_of_lookup in Hp as [i Hi].
      assert ((bin_pairs 0 0 fs).*2 !! i = Some b) as Hb by (by rewrite list_lookup_fmap, Hi).
      rewrite bin_pairs_snd in Hb. apply lookup_seqZ in Hb as [-> ?]. split; [lia|].
      replace (Z.to_nat (0 + Z.of_nat i)) with i by lia. by rewrite list_lookup_fmap, Hi.
  - apply (BinarizeWithMap_pairs num features fs last); [apply Hbit|done..].
Qed.

Lemma Rtrunc_bit b : Rtrunc (IZR (Z.b2z b)) = Z.b2z b.
Proof.
  unfold Rtrunc. destruct b; cbn; rewrite (proj2 (Rltb_false _ _)) by lra.
  - pose proof (Int_part_INR 1) as H1. exact H1.
  - pose proof (Int_part_INR 0) as H0. exact H0.
Qed.

(** Numbers are read with the parser of integers. *)
Lemma just_binarize_roundtrip_witness :
  let number t := IZR <$> int_value false 10 t in
  let label := feature_set_of_bins [[false; true]] in
  let features := feature_set_of [[[true; false]]; [[true; true]; [false; true]]] in
  ∃ pool_text map_text,
    OutputPool label features = Ret pool_text ∧ OutputBinFeatureMap features = Ret map_text ∧
    ∃ column columns bin_to_feature,
      ReadPool_batches number 1 (string_input pool_text) = Ret (column :: columns) ∧
      ReadBinToFeatureMap (2 ^ 31) (open_file map_text [2; 1]) = Ret bin_to_feature ∧
      BinarizeWithMap columns bin_to_feature = Ret features.
Proof.
  intros number label features.
  assert (∀ v, code_in_range v → int_value false 10 (code_text v) = Some v) as Hcode.
  { intros v Hv. destruct (code_text_ok v Hv) as (_ & Hp & _).
    pose proof (IntFromString_spec t_ui64 10 (code_text v) eq_refl ltac:(lia)) as Hs. rewrite Hp in Hs.
    cbn [is_signed t_ui64] in Hs. destruct (int_value false 10 (code_text v)) as [w|]; [|by destruct Hs].
    destruct (in_type t_ui64 w); [|done]. destruct (w =? - 2 ^ 63); [done|]. congruence. }
  destruct (just_binarize_roundtrip (S1 := TStringInput) (S2 := TIFStream) number (λ b, IZR (Z.b2z b)) (2 ^ 31) 1 label features
    [[[true; false]]; [[true; true]; [false; true]]] [[true; true]; [false; true]] [0; 1])
    as (pool_text & map_text & Hp & Hm & Hread).
  - intros b. split; [by destruct b|]. cbn. by rewrite Rtrunc_bit.
  - intros v Hv. unfold number. rewrite Hcode by done. by eexists.
  - reflexivity.
  - done.
  - unfold code_in_range. repeat constructor; lia.
  - apply rep_feature_set_of.
  - by repeat constructor.
  - reflexivity.
  - done.
  - repeat split; reflexivity || (vm_compute; congruence).
  - reflexivity.
  - lia.
  - exists pool_text, map_text. split; [exact Hp|]. split; [exact Hm|].
    destruct (open_file_good map_text [2; 1]) as [Hg Hr].
    destruct (Hread (string_input pool_text) (open_file map_text [2; 1]) (string_input_good _) eq_refl Hg Hr)
      as (column & columns & map & H1 & H2 & H3 & _).
    by exists column, columns, map.
Defined.
