(* ===== verification/ScoreSpec.v ===== *)
(** * Correctness of the scores

    Over exact arithmetic the greedy steps of [Score] are described by the
    conditional mutual information of the bins themselves, and the error paths of
    the scorers are listed. *)
From Stdlib Require Import Reals Lra.
From S2P Require Import Prelude Arith XRange Algorithm HashTable HashMap Info BinFeatureSet Entropy Cmi Parallel Score.

Open Scope Z_scope.

(** ** Exact arithmetic *)

(** The steps of a greedy search over [cands] by [value], the number each bin has
    after the bins picked before: every step picks a candidate that was not picked
    before, reports its value, and no such candidate has a value that is [better]. *)
Definition best_steps (better : R → R → Prop) (cands : list Z) (value : list Z → Z → R)
    (steps : list (TStepResult R)) : Prop :=
  ∀ k s, steps !! k = Some s →
    let prev := BinIndex <$> take k steps in
    BinIndex s ∈ cands ∧ BinIndex s ∉ prev ∧ Cmi s = value prev (BinIndex s) ∧
    ∀ c, c ∈ cands → c ∉ prev → ¬ better (value prev c) (Cmi s).

Lemma greedy_best_steps pred (better : R → R → Prop) cands (value : list Z → Z → outcome R) rvalue steps :
  (∀ x y, better x y → pred x y = true) →
  (∀ vs, vs ≠ [] → Forall a_num vs → first_extremum pred vs (extreme_of pred vs)) →
  (∀ k prev c, prev = BinIndex <$> take k steps → (k < length steps)%nat → c ∈ cands →
     value prev c = Ret (rvalue prev c)) →
  greedy pred cands value steps → best_steps better cands rvalue steps.
Proof.
  intros Hb Hext Hval Hg k s Hk. specialize (Hg k s Hk). cbv zeta in *.
  set (prev := BinIndex <$> take k steps) in *.
  pose proof (lookup_lt_Some _ _ _ Hk) as Hlt.
  pose proof (picks_cand _ _ _ _ _ Hg) as [Hn Hc]%list_elem_of_filter.
  destruct Hg as (vs & Hvs & Hlook & Hv). pose proof Hv as Hv'.
  rewrite (Hval k) in Hv' by done. injection Hv' as Hv'.
  split_and!; [done|done|done|]. intros c Hcc Hcn Hbet.
  assert (pred (rvalue prev c) (Cmi s) = false); [|apply Hb in Hbet; congruence].
  eapply (picks_best pred (remaining cands prev) (value prev) (BinIndex s) (Cmi s)); [done|by exists vs|done| |].
  - by apply list_elem_of_filter.
  - by apply (Hval k).
Qed.

(** The conditional mutual information of the evaluated bin and the label after
    the bins [prev] and [b] were added, in the two phases. *)
Definition max_information (n : nat) (fs : list (list TBin)) (lbins : list TBin) (e : Z)
    (prev : list Z) (b : Z) : R :=
  cmi_of_feed n (max_feed fs lbins e prev ++ [(VCondition, bin_at fs b)]).
Definition min_information (n : nat) (fs : list (list TBin)) (lbins : list TBin) (e : Z)
    (max_steps : list (TStepResult R)) (prev : list Z) (b : Z) : R :=
  cmi_of_feed n (min_feed fs lbins e max_steps prev ++ [(VCondition, bin_at fs b)]).

Section ExactScore.
  Context (n : nat) (fs : list (list TBin)) (lbins : list TBin).
  Hypothesis Hn : (0 < n)%nat.
  Hypothesis Hfs : Forall (λ bin, length bin = n) (concat fs).
  Hypothesis Hlbins : Forall (λ bin, length bin = n) lbins.
  Local Abbreviation bins := (vsize (concat fs)).

Lemma max_steps_best cands e steps :
  0 ≤ e < bins → (∀ c, c ∈ cands → 0 ≤ c < bins) → vsize lbins + vsize steps < 63 →
  greedy a_gtb cands (max_value n fs lbins e) steps →
  best_steps Rgt cands (max_information n fs lbins e) steps.
Proof.
  intros He Hc Hk Hg. eapply greedy_best_steps; [|apply extreme_max| |done].
  - intros x y Hxy. unfold a_gtb. cbn. by apply Rltb_true.
  - intros k prev c -> Hlt Hcc.
    assert (Hprev : Forall (λ b, 0 ≤ b < bins) (BinIndex <$> take k steps)).
    { apply Forall_forall. intros b Hb. eapply Hc, greedy_picked; [done|].
      rewrite <- (take_drop k steps), fmap_app. apply elem_of_app. by left. }
    apply cmi_value_exact; [|by apply bin_at_size; [|apply Hc]|done|].
    + by apply max_feed_sized.
    + rewrite (vsize_max_feed n) by done. unfold vsize in *. rewrite length_fmap, length_take. lia.
Qed.

Lemma min_steps_best cands e ms steps :
  0 ≤ e < bins → (∀ c, c ∈ cands → 0 ≤ c < bins) → steps_in_range fs ms →
  vsize lbins + 2 * vsize steps < 64 →
  greedy a_ltb cands (min_value n fs lbins e ms) steps →
  best_steps Rlt cands (min_information n fs lbins e ms) steps.
Proof.
  intros He Hc Hms Hk Hg. eapply greedy_best_steps; [|apply extreme_min| |done].
  - intros x y Hxy. cbn. by apply Rltb_true.
  - intros k prev c -> Hlt Hcc.
    assert (Hprev : Forall (λ b, 0 ≤ b < bins) (BinIndex <$> take k steps)).
    { apply Forall_forall. intros b Hb. eapply Hc, greedy_picked; [done|].
      rewrite <- (take_drop k steps), fmap_app. apply elem_of_app. by left. }
    apply cmi_value_exact; [|by apply bin_at_size; [|apply Hc]|done|].
    + by apply min_feed_sized.
    + pose proof (vsize_min_feed n fs lbins Hn e ms (BinIndex <$> take k steps)) as Hv.
      unfold vsize in *. rewrite length_fmap, length_take in Hv. lia.
Qed.

End ExactScore.

(** C9: [BuildBinScorerForEval] and [GetBinScore] (exact arithmetic).  For bins of
    one positive length, a valid background and few enough steps (fewer than 64
    bins in a calculator, enough bins to pick from), the scorer returns a score
    with the requested numbers of steps.  The maximizing steps are a greedy search
    over the enabled bins and the evaluated one for the bin whose addition to the
    condition gives the largest conditional mutual information; the minimizing
    steps are a greedy search for the smallest one over the enabled bins of other
    features, in which the bins of the maximizing steps join the evaluated one; no
    phase picks a bin twice; the score is the last minimizing value, and it lies
    between 0 and the logarithm of the sample size. *)
Theorem GetBinScore_correct (n : nat) (fs : list (list TBin)) (lbins : list TBin) (bg : TBackground)
    (max_steps min_steps tc e : Z)
    (Hn : (0 < n)%nat) (Hfs : Forall (λ bin, length bin = n) (concat fs))
    (Hlbins : Forall (λ bin, length bin = n) lbins) (Hne : lbins ≠ [])
    (Hbg : valid_bg fs bg) (He : 0 ≤ e < vsize (concat fs))
    (Hmax : 0 ≤ max_steps ≤ vsize (max_cands fs bg e)) (Hmaxl : vsize lbins + max_steps < 63)
    (Hmin : 1 ≤ min_steps) (Hminl : vsize lbins + 2 * min_steps < 64)
    (Hminc : ∀ i, fstart fs i ≤ e < fstart fs (i + 1) → min_steps ≤ vsize (min_cands fs bg i)) :
  ∃ scorer r last i,
    BuildBinScorerForEval (feature_set_of_bins lbins) max_steps min_steps tc = Ret scorer ∧
    scorer bg e = Ret r ∧ fstart fs i ≤ e < fstart fs (i + 1) ∧
    vsize (MaximizingSteps r) = max_steps ∧ NoDup (GetMaximizingBinIndexes r) ∧
    best_steps Rgt (max_cands fs bg e) (max_information n fs lbins e) (MaximizingSteps r) ∧
    vsize (MinimizingSteps r) = min_steps ∧ NoDup (GetMinimizingBinIndexes r) ∧
    best_steps Rlt (min_cands fs bg i) (min_information n fs lbins e (MaximizingSteps r))
      (MinimizingSteps r) ∧
    list.last (MinimizingSteps r) = Some last ∧ Score r = Cmi last ∧
    (0 <= Score r <= log2 (INR n))%R.
Proof.
  unfold BuildBinScorerForEval.
  destruct (parallel_miximizer_spec n lbins Hn Hlbins (feature_set_of_bins lbins) max_steps min_steps tc)
    as (m & -> & Hm & <- & <- & _); [done|done|lia|]. rewrite bind_Ret.
  destruct (GetBinScore_spec (D := R) n fs lbins Hn Hfs Hlbins m bg e)
    as (r & last & i & Hr & Hi & Hmaxs & Hmins & Hlast & Hscore & Hgmax & Hgmin);
    [done|done|lia|lia|lia|lia|lia|lia|done|].
  assert (Hcmax : ∀ c, c ∈ max_cands fs bg e → 0 ≤ c < vsize (concat fs))
    by (by intros c [_ Hc%elem_of_xrange]%list_elem_of_filter).
  assert (Hcmin : ∀ c, c ∈ min_cands fs bg i → 0 ≤ c < vsize (concat fs))
    by (by intros c [_ Hc%elem_of_xrange]%list_elem_of_filter).
  assert (Hms : steps_in_range fs (MaximizingSteps r)).
  { apply Forall_forall. intros s Hs. apply Hcmax, (greedy_picked _ _ _ _ _ Hgmax).
    apply list_elem_of_fmap. eauto. }
  assert (Hbmin := min_steps_best n fs lbins Hn Hfs Hlbins _ e (MaximizingSteps r) (MinimizingSteps r)
    ltac:(lia) Hcmin Hms ltac:(lia) Hgmin).
  eexists _, r, last, i. split_and!; try done; try lia.
  - by eapply greedy_NoDup.
  - apply max_steps_best; [done..|lia|done].
  - by eapply greedy_NoDup.
  - rewrite last_lookup in Hlast. destruct (Hbmin _ _ Hlast) as (_ & _ & Hv & _).
    rewrite Hscore, Hv. by apply cmi_of_feed_bounds.
  - rewrite last_lookup in Hlast. destruct (Hbmin _ _ Hlast) as (_ & _ & Hv & _).
    rewrite Hscore, Hv. by apply cmi_of_feed_bounds.
Qed.

(** A sample of four points with two features, one of them of two bins. *)
Definition sample_features : list (list TBin) :=
  [[[true; false; true; false]]; [[true; true; false; false]; [false; true; true; false]]].
Definition sample_label : list TBin := [[true; false; true; true]].

Lemma sample_feature_of_bin i :
  fstart sample_features i ≤ 0 < fstart sample_features (i + 1) → i = 0.
Proof.
  intros Hi. apply (feature_of_bin_unique sample_features 0 i 0); [done|].
  split; [done|]. by vm_compute.
Qed.

Example GetBinScore_correct_witness :
  let fs := sample_features in let bg := background (feature_set_of fs) in
  ∃ scorer r last i,
    BuildBinScorerForEval (feature_set_of_bins sample_label) 1 2 8 = Ret scorer ∧
    scorer bg 0 = Ret r ∧ fstart fs i ≤ 0 < fstart fs (i + 1) ∧
    vsize (MaximizingSteps r) = 1 ∧ NoDup (GetMaximizingBinIndexes r) ∧
    best_steps Rgt (max_cands fs bg 0) (max_information 4 fs sample_label 0) (MaximizingSteps r) ∧
    vsize (MinimizingSteps r) = 2 ∧ NoDup (GetMinimizingBinIndexes r) ∧
    best_steps Rlt (min_cands fs bg i) (min_information 4 fs sample_label 0 (MaximizingSteps r))
      (MinimizingSteps r) ∧
    list.last (MinimizingSteps r) = Some last ∧ Score r = Cmi last ∧
    (0 <= Score r <= log2 (INR 4))%R.
Proof.
  apply GetBinScore_correct; try lia.
  - repeat constructor.
  - repeat constructor.
  - done.
  - apply background_valid, rep_feature_set_of.
  - by vm_compute.
  - by vm_compute.
  - by vm_compute.
  - by vm_compute.
  - intros i ->%sample_feature_of_bin. by vm_compute.
Defined.

(** ** Errors *)

Section Errors.
  Context `{Arith D}.
  Context (n : nat) (fs : list (list TBin)) (lbins : list TBin).
  Hypothesis Hn : (0 < n)%nat.
  Hypothesis Hfs : Forall (λ bin, length bin = n) (concat fs).
  Hypothesis Hlbins : Forall (λ bin, length bin = n) lbins.

Lemma DoMaximizePhase_few m bg e :
  valid_bg fs bg → vsize (EnabledBinIndexes bg) < MaxSteps m →
  DoMaximizePhase m bg e = Fail (Throw (ENotEnoughBins (MaxSteps m))).
Proof.
  intros Hv Hlt. unfold DoMaximizePhase. destruct (EnabledBins_spec fs bg Hv) as (l & -> & Hsz).
  rewrite bind_Ret, Hsz. by rewrite (proj2 (Z.leb_gt _ _)).
Qed.

Lemma DoMinimizePhase_few m bg e ms :
  valid_bg fs bg → vsize (EnabledBinIndexes bg) < MinSteps m →
  DoMinimizePhase (D := D) m bg e ms = Fail (Throw (ENotEnoughBins (MinSteps m))).
Proof.
  intros Hv Hlt. unfold DoMinimizePhase. destruct (EnabledBins_spec fs bg Hv) as (l & -> & Hsz).
  rewrite bind_Ret, Hsz. by rewrite (proj2 (Z.leb_gt _ _)).
Qed.

(** What remains of a scorer after its maximize phase returned. *)
Lemma minimize_and_score_errors m bg e ms :
  valid_miximizer n lbins m → valid_bg fs bg → 0 ≤ e < vsize (concat fs) → steps_in_range fs ms →
  0 ≤ MinSteps m → vsize lbins + 2 * MinSteps m < 64 →
  (vsize (EnabledBinIndexes bg) < MinSteps m →
     minimize_and_score (D := D) m bg e ms = Fail (Throw (ENotEnoughBins (MinSteps m)))) ∧
  (MinSteps m = 0 → minimize_and_score (D := D) m bg e ms = Fail (Undef UDeref)).
Proof.
  intros Hm Hv He Hms Hk Hl. unfold minimize_and_score. split; intros Hc.
  - by rewrite DoMinimizePhase_few.
  - destruct (DoMinimizePhase_spec n fs lbins Hn Hfs Hlbins m bg e ms) as (bg' & steps & -> & Hsz & _);
      [done..|pose proof (vsize_nonneg (EnabledBinIndexes bg)); lia|lia|lia|].
    rewrite Hc in Hsz. rewrite bind_Ret. by destruct steps; [|rewrite vsize_cons in Hsz; vlia].
Qed.

End Errors.


(** The miximizer of the scorer for the bins of the sample's label. *)
Lemma sample_miximizer maxs mins tc :
  ∃ m, parallel_miximizer (feature_set_of_bins sample_label) maxs mins tc = Ret m ∧
    valid_miximizer 4 sample_label m ∧ MaxSteps m = maxs ∧ MinSteps m = mins.
Proof.
  destruct (parallel_miximizer_spec 4 sample_label ltac:(lia) ltac:(by repeat constructor)
    (feature_set_of_bins sample_label) maxs mins tc) as (m & Hm & Hv & H1 & H2 & _); [done|done|by vm_compute|].
  by exists m.
Qed.

