(* ===== verification/CachingScorer.v ===== *)
(** * The caching scorer: [cmicot/lib/caching_bin_scorer.h/.cpp]

    [TCachingBinScorer] keeps the steps found for each bin.  [Evaluate] searches
    first among the bins enabled last, compares what it finds with the cached
    step, and only after an improvement among all enabled bins.

    The cache is a vector of cells, one per bin, and [Evaluate] reads and writes
    the cell of the evaluated bin only: [evaluate_cell] is the whole function on
    that cell.  A failed evaluation ends the program, so the cell it leaves
    behind is not modelled. *)
From Stdlib Require Import Reals Lra.
From S2P Require Import Prelude Arith XRange Algorithm HashTable HashMap Info BinFeatureSet Entropy Cmi Parallel Score ScoreSpec.

Open Scope Z_scope.

Section Scorer.
  Context `{Arith D}.

Record TCachingBinScorer : Type := {
  ScorerLabel : TBinFeatureSet;
  Cache : list (TBinScore D);
  ScorerLabelEntropy : D;
}.

(** [TCachingBinScorer(label, binCount)] *)
Definition caching_bin_scorer (label : TBinFeatureSet) (bin_count : Z) : outcome TCachingBinScorer :=
  label_entropy ← Entropy [ABins (Bins label)];
  Ret {| ScorerLabel := label;
         Cache := replicate (Z.to_nat bin_count)
                    {| Score := a_lit 0 0; MaximizingSteps := []; MinimizingSteps := [] |};
         ScorerLabelEntropy := label_entropy |}.

(** The initial contents of the steps. *)
Definition no_max_step : TStepResult D := {| BinIndex := -1; Cmi := a_lit (-1) 0 |}.
Definition no_min_step : TStepResult D := {| BinIndex := -1; Cmi := a_lit 100000 0 |}.
Definition new_min_step : TStepResult D := {| BinIndex := -1; Cmi := a_lit 1000000 0 |}.

(** [v.resize(n, x)]: a negative size is a huge [size_t]. *)
Definition resize_steps (v : list (TStepResult D)) (n : Z) (x : TStepResult D)
    : outcome (list (TStepResult D)) :=
  _ ← ensure (0 <=? n) (ELength n);
  Ret (vresize v n x).

(** The erase-remove loop over the bins of the steps before [step]. *)
Definition erase_previous (steps : list (TStepResult D)) (enabled_bins : list Z) (step : Z)
    : outcome (list Z) :=
  mfold (λ bins i, s ← vat steps i; Ret (filter (λ b, b ≠ BinIndex s) bins)) enabled_bins (xrange step).

(** A new step: it replaces the cached one, and the later ones are forgotten. *)
Definition replace_step (steps : list (TStepResult D)) (step : Z) (s none : TStepResult D)
    : outcome (list (TStepResult D)) :=
  steps ← vset steps step s;
  vfill steps (step + 1) (vsize steps) none.

(** One pass of the maximizing loop; the state is [binsToProcess], the two vectors
    of the cell and the calculator. *)
Definition cached_max_step (background : TBackground)
    (st : TBackground * list (TStepResult D) * list (TStepResult D) * TCmiCalculator) (step : Z)
    : outcome (TBackground * list (TStepResult D) * list (TStepResult D) * TCmiCalculator) :=
  let '(bins_to_process, max_steps, min_steps, maximizer_cmi) := st in
  let value := bin_value maximizer_cmi (Features background) in
  enabled_bins ← erase_previous max_steps (EnabledBinIndexes bins_to_process) step;
  best_iter ← MaxElementBy enabled_bins value;
  _ ← verify (negb (best_iter =? vsize enabled_bins)) VNoCandidate;
  best_bin ← deref enabled_bins best_iter;
  bin_cmi ← value best_bin;
  cached ← vat max_steps step;
  '(bins_to_process, max_steps, min_steps) ←
    (if a_gtb bin_cmi (Cmi cached) then
       max_steps ← replace_step max_steps step {| BinIndex := best_bin; Cmi := bin_cmi |} no_max_step;
       min_steps ← vfill min_steps (step + 1) (vsize min_steps) no_min_step;
       Ret (background, max_steps, min_steps)
     else Ret (bins_to_process, max_steps, min_steps));
  chosen ← vat max_steps step;
  bin ← GetBin (Features background) (BinIndex chosen);
  maximizer_cmi ← AddConditionBin maximizer_cmi bin;
  Ret (bins_to_process, max_steps, min_steps, maximizer_cmi).

(** One pass of the minimizing loop. *)
Definition cached_min_step (max_steps : list (TStepResult D))
    (st : TBackground * TBackground * list (TStepResult D) * TCmiCalculator) (step : Z)
    : outcome (TBackground * TBackground * list (TStepResult D) * TCmiCalculator) :=
  let '(background, bins_to_process, min_steps, minimizer_cmi) := st in
  let value := bin_value minimizer_cmi (Features background) in
  let enabled_bins := EnabledBinIndexes bins_to_process in
  best_iter ← MinElementBy enabled_bins value;
  _ ← verify (negb (best_iter =? vsize enabled_bins)) VNoCandidate;
  best_bin ← deref enabled_bins best_iter;
  bin_cmi ← value best_bin;
  cached ← vat min_steps step;
  '(bins_to_process, min_steps) ←
    (if bin_cmi ≺ Cmi cached then
       min_steps ← replace_step min_steps step {| BinIndex := best_bin; Cmi := bin_cmi |} no_min_step;
       Ret (background, min_steps)
     else Ret (bins_to_process, min_steps));
  chosen ← vat min_steps step;
  bins_to_process ← SetBinEnabled bins_to_process (BinIndex chosen) false;
  background ← SetBinEnabled background (BinIndex chosen) false;
  bin ← GetBin (Features background) (BinIndex chosen);
  minimizer_cmi ← AddConditionBin minimizer_cmi bin;
  minimizer_cmi ←
    (if step <? vsize max_steps then
       max_step ← vat max_steps step;
       max_bin ← GetBin (Features background) (BinIndex max_step);
       AddSecondVariableBin minimizer_cmi max_bin
     else Ret minimizer_cmi);
  Ret (background, bins_to_process, min_steps, minimizer_cmi).

(** The calculators of the two phases start with the label and the evaluated bin. *)
Definition start_calculator (label : TBinFeatureSet) (background : TBackground) (eval_bin_index : Z)
    : outcome TCmiCalculator :=
  front ← vfront (Bins label);
  cmi ← mfold AddFirstVariableBin (cmi_calculator (vsize front)) (Bins label);
  bin ← GetBin (Features background) eval_bin_index;
  AddSecondVariableBin cmi bin.

(** [Evaluate(background, evalBinIndex, stepCount)] on the cell of the bin, which is
    looked up after the checks. *)
Definition evaluate_cell (label : TBinFeatureSet) (label_entropy : D) (background : TBackground)
    (eval_bin_index step_count : Z) (cached : outcome (TBinScore D)) : outcome (TBinScore D) :=
  bins_to_process ← LastEnabled background;
  background ← SetBinEnabled background eval_bin_index true;
  enabled_bins ← EnabledBins background;
  _ ← ensure (negb (vsize enabled_bins <? step_count + 1)) (ENotEnoughBins (step_count + 1));
  _ ← ensure (negb ((eval_bin_index <? 0) || (GetBinCount (Features background) <=? eval_bin_index)))
        (EEvalIndex eval_bin_index (GetBinCount (Features background)));
  cell ← cached;
  max_steps ← resize_steps (MaximizingSteps cell) (step_count - 1) no_max_step;
  min_steps ← resize_steps (MinimizingSteps cell) step_count new_min_step;
  maximizer_cmi ← start_calculator label background eval_bin_index;
  '(bins_to_process, max_steps, min_steps, _) ←
    mfold (cached_max_step background) (bins_to_process, max_steps, min_steps, maximizer_cmi)
      (xrange (step_count - 1));
  bins_to_process ← SetBinEnabled bins_to_process eval_bin_index false;
  background ← SetBinEnabled background eval_bin_index false;
  minimizer_cmi ← start_calculator label background eval_bin_index;
  '(_, _, min_steps, minimizer_cmi) ←
    mfold (cached_min_step max_steps) (background, bins_to_process, min_steps, minimizer_cmi)
      (xrange step_count);
  value ← GetValue minimizer_cmi;
  Ret {| Score := value ⊘ label_entropy; MaximizingSteps := max_steps; MinimizingSteps := min_steps |}.

(** [Evaluate], on the scorer: the new scorer and the score. *)
Definition Evaluate (s : TCachingBinScorer) (background : TBackground) (eval_bin_index step_count : Z)
    : outcome (TCachingBinScorer * TBinScore D) :=
  cell ← evaluate_cell (ScorerLabel s) (ScorerLabelEntropy s) background eval_bin_index step_count
           (vat (Cache s) eval_bin_index);
  cache ← vset (Cache s) eval_bin_index cell;
  Ret ({| ScorerLabel := ScorerLabel s; Cache := cache; ScorerLabelEntropy := ScorerLabelEntropy s |}, cell).

End Scorer.

Arguments TCachingBinScorer D : clear implicits.

(** ** The cached steps

    A phase extends a list of steps.  [better] is the order of its search, [value]
    the number a bin has after the bins picked before, [valid] the bins that may
    be picked. *)

Section Steps.
  Context (better : R → R → Prop) (pred : R → R → bool).
  Hypothesis pred_better : ∀ x y, pred x y = true ↔ better x y.
  Hypothesis better_trans : ∀ x y z, better x y → better y z → better x z.
  Hypothesis better_ntrans : ∀ x y z, ¬ better x y → ¬ better y z → ¬ better x z.

(** The bins of the steps before the [k]-th. *)
Definition before (steps : list (TStepResult R)) (k : nat) : list Z := BinIndex <$> take k steps.

Definition step_valid (valid : Z → Prop) (value : list Z → Z → R) (steps : list (TStepResult R)) (k : nat)
    (s : TStepResult R) : Prop :=
  valid (BinIndex s) ∧ BinIndex s ∉ before steps k ∧ Cmi s = value (before steps k) (BinIndex s).

(** No bin of [over] is better than the step. *)
Definition step_best (over : Z → Prop) (value : list Z → Z → R) (steps : list (TStepResult R)) (k : nat)
    (s : TStepResult R) : Prop :=
  ∀ c, over c → c ∉ before steps k → ¬ better (value (before steps k) c) (Cmi s).

Lemma before_take steps steps' k : take k steps = take k steps' → before steps k = before steps' k.
Proof. unfold before. by intros ->. Qed.

Lemma before_S steps k s : steps !! k = Some s → before steps (S k) = before steps k ++ [BinIndex s].
Proof. intros Hs. unfold before. by rewrite (take_S_r _ _ s), fmap_app. Qed.

Lemma length_before steps k : (k ≤ length steps)%nat → vsize (before steps k) = Z.of_nat k.
Proof. intros Hk. unfold before, vsize. rewrite length_fmap, length_take. lia. Qed.

(** Replacing a step keeps the ones before it and forgets the ones after it. *)
Lemma replace_step_spec (steps : list (TStepResult R)) k s none :
  (k < length steps)%nat →
  ∃ steps', replace_step steps (Z.of_nat k) s none = Ret steps' ∧ length steps' = length steps ∧
    take k steps' = take k steps ∧ steps' !! k = Some s ∧
    ∀ j t, (k < j)%nat → steps' !! j = Some t → t = none.
Proof.
  intros Hk. unfold replace_step.
  rewrite (proj2 (vset_Ret steps (Z.of_nat k) s (<[k := s]> steps)))
    by (rewrite Nat2Z.id; unfold vsize; split; [lia|done]).
  rewrite bind_Ret. eexists. split; [apply vfill_Ret; split_and!; [lia|rewrite vsize_insert; unfold vsize; lia|lia|done]|].
  rewrite length_fill_range, length_insert. split_and!; [done| | |].
  - apply list_eq. intros j. destruct (decide (j < k)%nat) as [Hj|Hj].
    + rewrite !lookup_take_lt by done. rewrite lookup_fill_range, list_lookup_insert_ne by lia.
      destruct (steps !! j); [|done]. cbn. by rewrite (proj2 (Z.leb_gt _ _)) by lia.
    + by rewrite !lookup_take_ge by lia.
  - rewrite lookup_fill_range, list_lookup_insert_eq by done. cbn.
    by rewrite (proj2 (Z.leb_gt _ _)) by lia.
  - intros j t Hj. rewrite lookup_fill_range, list_lookup_insert_ne by lia.
    destruct (steps !! j) as [u|] eqn:Hu; [|done]. cbn. apply lookup_lt_Some in Hu.
    rewrite vsize_insert. unfold vsize.
    by rewrite (proj2 (Z.leb_le _ _)), (proj2 (Z.ltb_lt _ _)) by lia; intros [= <-].
Qed.

(** Searching candidates whose values are returned. *)
Lemma search_best (cands : list Z) (value : Z → outcome R) (rvalue : Z → R) :
  (∀ vs, vs ≠ [] → Forall a_num vs → first_extremum pred vs (extreme_of pred vs)) →
  cands ≠ [] → (∀ c, c ∈ cands → value c = Ret (rvalue c)) →
  ∃ i b, ExtremeElementBy pred cands value = Ret i ∧ i ≠ vsize cands ∧ deref cands i = Ret b ∧
    b ∈ cands ∧ ∀ c, c ∈ cands → ¬ better (rvalue c) (rvalue b).
Proof.
  intros Hext Hne Hval.
  destruct (search_spec pred cands value 1 Hne) as (i & b & v & Hi & Hd & Hv & Hp); [eauto|].
  pose proof (picks_cand _ _ _ _ _ Hp) as Hb.
  rewrite (ParallelExtremeElementBy_sequential _ _ _ (rvalue <$> cands)) in Hi by (by apply mmap_Ret).
  exists i, b. split_and!; [done| |done|done|].
  - unfold deref in Hd. destruct (vat cands i) eqn:Ha; [|done]. apply vat_bounds in Ha. lia.
  - intros c Hc Hbet. rewrite (Hval b Hb) in Hv. injection Hv as <-.
    apply pred_better in Hbet.
    rewrite (picks_best pred cands value b (rvalue b) Hext Hp ltac:(done) c (rvalue c)) in Hbet by auto.
    done.
Qed.

(** A step any valid bin replaces, as the initial ones are. *)
Definition step_open (valid : Z → Prop) (value : list Z → Z → R) (steps : list (TStepResult R)) (k : nat)
    (s : TStepResult R) : Prop :=
  ∀ c, valid c → better (value (before steps k) c) (Cmi s).

(** One cached step.  Every bin of [over] is a candidate or not better than the
    cached step, which is open or valid; then the step that is kept is valid and
    the best of [over]. *)
Lemma kept_step (valid over : Z → Prop) value steps (k : nat) (cur : TStepResult R)
    (cands : list Z) b :
  steps !! k = Some cur →
  (∀ c, c ∈ cands → valid c ∧ c ∉ before steps k) →
  step_open valid value steps k cur ∨ step_valid valid value steps k cur →
  (∀ c, over c → c ∉ before steps k →
     c ∈ cands ∨ ¬ better (value (before steps k) c) (Cmi cur)) →
  b ∈ cands → (∀ c, c ∈ cands → ¬ better (value (before steps k) c) (value (before steps k) b)) →
  let v := value (before steps k) b in
  let s := if pred v (Cmi cur) then {| BinIndex := b; Cmi := v |} else cur in
  step_valid valid value steps k s ∧ step_best over value steps k s.
Proof.
  intros Hcur Hcands Hok Hcover Hb Hbest v s.
  destruct (pred v (Cmi cur)) eqn:Hp; subst s.
  - split; [destruct (Hcands b Hb); by split_and!|]. intros c Hc Hn. cbn.
    apply pred_better in Hp. destruct (Hcover c Hc Hn) as [Hcc|Hcc]; [by apply Hbest|].
    intros Hbet. by apply Hcc, (better_trans _ v).
  - assert (Hnb : ¬ better v (Cmi cur)) by (by rewrite <- pred_better, Hp).
    split.
    + destruct Hok as [Hok|Hok]; [|done]. destruct Hnb. by apply Hok, Hcands.
    + intros c Hc Hn. destruct (Hcover c Hc Hn) as [Hcc|Hcc]; [|done].
      apply (better_ntrans _ v); [by apply Hbest|done].
Qed.

(** The properties of a step only depend on the steps before it. *)
Lemma step_valid_ext valid value value' steps steps' k s :
  before steps k = before steps' k → (∀ c, value (before steps k) c = value' (before steps k) c) →
  step_valid valid value steps k s → step_valid valid value' steps' k s.
Proof. unfold step_valid. intros <- Hv (? & ? & ->). by rewrite Hv. Qed.

Lemma step_valid_weaken (valid valid' : Z → Prop) value steps k s :
  (∀ c, valid c → valid' c) → step_valid valid value steps k s → step_valid valid' value steps k s.
Proof. intros Hv (? & ? & ?). split_and!; [by apply Hv|done|done]. Qed.

Lemma step_best_ext over value value' steps steps' k s :
  before steps k = before steps' k → (∀ c, value (before steps k) c = value' (before steps k) c) →
  step_best over value steps k s → step_best over value' steps' k s.
Proof. unfold step_best. intros <- Hv Hb c Hc Hn. rewrite <- Hv. by apply Hb. Qed.

Lemma step_open_ext valid value value' steps steps' k s :
  before steps k = before steps' k → (∀ c, value (before steps k) c = value' (before steps k) c) →
  step_open valid value steps k s → step_open valid value' steps' k s.
Proof. unfold step_open. intros <- Hv Ho c Hc. rewrite <- Hv. by apply Ho. Qed.

Lemma before_le steps steps' j k :
  (j ≤ k)%nat → take k steps = take k steps' → before steps j = before steps' j.
Proof.
  intros Hj Ht. apply before_take. rewrite <- (Nat.min_l j k), <- !take_take by lia. by rewrite Ht.
Qed.

Lemma lookup_take_eq {A} (l l' : list A) j k :
  (j < k)%nat → take k l = take k l' → l !! j = l' !! j.
Proof. intros Hj Ht. rewrite <- (lookup_take_lt l k j), <- (lookup_take_lt l' k j) by done. by rewrite Ht. Qed.

Lemma elem_of_before steps k b :
  b ∈ before steps k ↔ ∃ j s, (j < k)%nat ∧ steps !! j = Some s ∧ b = BinIndex s.
Proof.
  unfold before. rewrite list_elem_of_fmap. split.
  - intros (s & -> & [j Hj]%list_elem_of_lookup). apply lookup_take_Some in Hj as [Hj Hlt]. eauto.
  - intros (j & s & Hlt & Hs & ->). exists s. split; [done|].
    apply list_elem_of_lookup. exists j. by rewrite lookup_take_lt.
Qed.

(** [binsToProcess] without the bins of the previous steps. *)
Lemma erase_previous_spec steps l k :
  (k ≤ length steps)%nat →
  erase_previous steps l (Z.of_nat k) = Ret (filter (λ b, b ∉ before steps k) l).
Proof.
  intros Hk. unfold erase_previous.
  destruct (mfold_inv (λ done bins, bins = filter (λ b, b ∉ before steps (length done)) l)
    (λ bins i, s ← vat steps i; Ret (filter (λ b, b ≠ BinIndex s) bins)) (xrange (Z.of_nat k)) l)
    as (bins & -> & ->).
  - symmetry. apply filter_all. intros b _ Hb. by apply elem_of_nil in Hb.
  - intros done i rest bins Hx ->. destruct (xrange_done _ _ _ _ Hx) as [Hd Hi]. unfold vsize in Hd.
    destruct (vat_in_range steps i) as (s & -> & Hs); [unfold vsize; lia|]. rewrite bind_Ret.
    eexists. split; [done|]. rewrite list_filter_filter, length_app. apply filter_iff_in. intros b _.
    replace (Z.to_nat i) with (length done) in Hs by lia. rewrite Nat.add_1_r, (before_S _ _ s) by done.
    rewrite elem_of_app, list_elem_of_singleton. tauto.
  - f_equal. rewrite xrange_seqZ, length_seqZ. by rewrite Nat2Z.id.
Qed.

End Steps.

Lemma gtb_Rgt (x y : R) : a_gtb x y = true ↔ Rgt x y.
Proof. apply Rltb_true. Qed.
Lemma ltb_Rlt (x y : R) : (x ≺ y) = true ↔ Rlt x y.
Proof. apply Rltb_true. Qed.
Lemma Rgt_ntrans (x y z : R) : ¬ Rgt x y → ¬ Rgt y z → ¬ Rgt x z.
Proof. lra. Qed.
Lemma Rlt_ntrans (x y z : R) : ¬ Rlt x y → ¬ Rlt y z → ¬ Rlt x z.
Proof. lra. Qed.

Lemma real_literal_int z : real_literal z 0 = IZR z.
Proof. unfold real_literal. cbn. f_equal. lia. Qed.

(** The information of a sample fits the initial values of the steps. *)
Lemma log2_size n : Z.of_nat n < 2 ^ 31 → (0 < n)%nat → (log2 (INR n) <= 31)%R.
Proof.
  intros Hn Hpos. assert (Hln2 := ln2_pos).
  assert (Hle : (INR n <= 2 ^ 31)%R).
  { rewrite INR_IZR_INZ, (pow_IZR 2 31). apply IZR_le. change (2 ^ Z.of_nat 31)%Z with (2 ^ 31)%Z. lia. }
  etrans; [apply log2_le; [apply (lt_INR 0); lia|exact Hle]|].
  unfold log2. rewrite ln_pow by lra. right. cbn. field. lra.
Qed.

(** ** Evaluation *)

Section Evaluation.
  Context (n : nat) (fs : list (list TBin)) (lbins : list TBin).
  Hypothesis Hn : (0 < n)%nat.
  Hypothesis Hn31 : Z.of_nat n < 2 ^ 31.
  Hypothesis Hfs : Forall (λ bin, length bin = n) (concat fs).
  Hypothesis Hlbins : Forall (λ bin, length bin = n) lbins.
  Local Abbreviation bins := (vsize (concat fs)).

  (** A background, the bin to evaluate, which is not enabled, and the number of
      maximizing steps. *)
  Context (bg : TBackground) (e : Z) (m : nat).
  Hypothesis Hbg : valid_bg fs bg.
  Hypothesis He : 0 ≤ e < bins.
  Hypothesis Hdisabled : ¬ enabled bg e.
  Hypothesis Hcount : Z.of_nat (S m) ≤ vsize (EnabledBinIndexes bg).
  Hypothesis Hbudget : vsize lbins + 2 * Z.of_nat (S m) < 64.

  Local Abbreviation V := (max_information n fs lbins e).
  Local Abbreviation W := (min_information n fs lbins e).

(** The bins enabled last, and the bins the phases may pick. *)
Definition last_bin (c : Z) : Prop := (LastEnabledBins bg).1 ≤ c < (LastEnabledBins bg).2.
Definition max_bin (c : Z) : Prop := c = e ∨ enabled bg c.

  Hypothesis Hlast : ∃ c, last_bin c.
  Hypothesis Hlast_enabled : ∀ c, last_bin c → enabled bg c.

Lemma max_bin_range c : max_bin c → 0 ≤ c < bins.
Proof. intros [->|Hc]; [done|]. by eapply enabled_range. Qed.

Lemma V_bounds prev c : (0 <= V prev c <= 31)%R.
Proof.
  pose proof (log2_size n Hn31 Hn). pose proof (cmi_of_feed_bounds n
    (max_feed fs lbins e prev ++ [(VCondition, bin_at fs c)]) Hn). unfold max_information. lra.
Qed.

Lemma W_bounds ms prev c : (0 <= W ms prev c <= 31)%R.
Proof.
  pose proof (log2_size n Hn31 Hn). pose proof (cmi_of_feed_bounds n
    (min_feed fs lbins e ms prev ++ [(VCondition, bin_at fs c)]) Hn). unfold min_information. lra.
Qed.

(** The initial steps are open. *)
Lemma no_max_step_open valid steps k : step_open Rgt valid V steps k no_max_step.
Proof. intros c _. pose proof (V_bounds (before steps k) c). change (V (before steps k) c > real_literal (-1) 0)%R. rewrite real_literal_int. lra. Qed.

Lemma no_min_step_open valid ms steps k : step_open Rlt valid (W ms) steps k no_min_step.
Proof. intros c _. pose proof (W_bounds ms (before steps k) c). change (W ms (before steps k) c < real_literal 100000 0)%R. rewrite real_literal_int. lra. Qed.

Lemma new_min_step_open valid ms steps k : step_open Rlt valid (W ms) steps k new_min_step.
Proof. intros c _. pose proof (W_bounds ms (before steps k) c). change (W ms (before steps k) c < real_literal 1000000 0)%R. rewrite real_literal_int. lra. Qed.

(** The minimizing values only depend on the maximizing steps before them. *)
Lemma min_feed_ext (ms ms' : list (TStepResult R)) prev :
  take (length prev) ms = take (length prev) ms' → min_feed fs lbins e ms prev = min_feed fs lbins e ms' prev.
Proof.
  intros Ht. unfold min_feed. do 2 f_equal. apply imap_ext. intros k b Hk.
  unfold second_at. by rewrite (lookup_take_eq ms ms' k (length prev)) by (by eapply lookup_lt_Some || done).
Qed.

Lemma W_ext ms ms' steps k c :
  take k ms = take k ms' → (k ≤ length steps)%nat → W ms (before steps k) c = W ms' (before steps k) c.
Proof.
  intros Ht Hk. unfold min_information. do 2 f_equal. apply min_feed_ext.
  unfold before. rewrite length_fmap, length_take. by rewrite Nat.min_l.
Qed.

(** The values the loops compute. *)
Lemma max_value_exact s c prev b :
  rep s fs → holds n (max_feed fs lbins e prev) c → Forall (λ b, 0 ≤ b < bins) prev →
  vsize prev ≤ Z.of_nat m → 0 ≤ b < bins → bin_value c s b = Ret (V prev b).
Proof.
  intros Hr Hh Hp Hsz Hb. pose proof (vsize_max_feed n fs lbins Hn e prev) as Hv.
  pose proof (max_feed_sized n fs lbins Hfs Hlbins e prev He Hp) as Hs.
  rewrite (bin_value_feed n fs Hfs s (max_feed fs lbins e prev) c b) by (done || lia).
  apply cmi_value_exact; [done|by apply (bin_at_size n fs Hfs)|done|lia].
Qed.

Lemma min_value_exact s c ms prev b :
  rep s fs → holds n (min_feed fs lbins e ms prev) c → Forall (λ b, 0 ≤ b < bins) prev →
  steps_in_range fs ms → vsize prev ≤ Z.of_nat m → 0 ≤ b < bins → bin_value c s b = Ret (W ms prev b).
Proof.
  intros Hr Hh Hp Hms Hsz Hb. pose proof (vsize_min_feed n fs lbins Hn e ms prev) as Hv.
  pose proof (min_feed_sized n fs lbins Hfs Hlbins e ms prev He Hms Hp) as Hs.
  rewrite (bin_value_feed n fs Hfs s (min_feed fs lbins e ms prev) c b) by (done || lia).
  apply cmi_value_exact; [done|by apply (bin_at_size n fs Hfs)|done|lia].
Qed.

(** *** The maximizing loop *)

(** What is known of the steps [max0] and [min0] of the cell.  A step is open, or
    valid for the bins enabled before the last ones, and no bin of [E0] is better. *)
Context (E0 : Z → Prop) (max0 min0 : list (TStepResult R)).
Hypothesis HE0 : ∀ c, E0 c → enabled bg c.
Hypothesis Hmax0 : ∀ j s, max0 !! j = Some s →
  (step_open Rgt max_bin V max0 j s ∨ step_valid max_bin V max0 j s ∧ ¬ last_bin (BinIndex s)) ∧
  step_best Rgt E0 V max0 j s.
Hypothesis Hmin0 : ∀ j s, min0 !! j = Some s →
  (step_open Rlt (enabled bg) (W max0) min0 j s ∨
   step_valid (enabled bg) (W max0) min0 j s ∧ ¬ last_bin (BinIndex s)) ∧
  step_best Rlt E0 (W max0) min0 j s.
Hypothesis Hmax0_len : length max0 = m.
Hypothesis Hmin0_len : length min0 = S m.

(** The bins the new steps are the best of. *)
Definition over (c : Z) : Prop := E0 c ∨ last_bin c.

Lemma over_enabled c : over c → enabled bg c.
Proof. intros [?|?]; auto. Qed.

(** The steps before the [k]-th are settled. *)
Definition max_settled (maxs : list (TStepResult R)) (k : nat) : Prop :=
  ∀ j s, (j < k)%nat → maxs !! j = Some s → step_valid max_bin V maxs j s ∧ step_best Rgt over V maxs j s.

Definition min_usable (maxs mins : list (TStepResult R)) (k : nat) : Prop :=
  ∀ j s, (k ≤ j)%nat → mins !! j = Some s →
    step_open Rlt (enabled bg) (W maxs) mins j s ∨ step_valid (enabled bg) (W maxs) mins j s.

(** [background] in the loop is [bg1], where the evaluated bin is enabled, and
    [binsToProcess] starts as [lbg]. *)
Context (bg1 lbg : TBackground).
Hypothesis Hbg1 : valid_bg fs bg1.
Hypothesis Hen1 : ∀ c, enabled bg1 c ↔ max_bin c.
Hypothesis Hlbg : valid_bg fs lbg.
Hypothesis Henl : ∀ c, enabled lbg c ↔ last_bin c.

(** Either nothing improved, or all enabled bins are searched. *)
Definition max_mode (k : nat) (bp : TBackground) (maxs mins : list (TStepResult R)) : Prop :=
  bp = lbg ∧ maxs = max0 ∧ mins = min0 ∨
  bp = bg1 ∧ (∀ j s, (k ≤ j)%nat → maxs !! j = Some s → s = no_max_step) ∧ min_usable maxs mins 0.

Definition max_inv (k : nat)
    (st : TBackground * list (TStepResult R) * list (TStepResult R) * TCmiCalculator) : Prop :=
  let '(bp, maxs, mins, cmi) := st in
  length maxs = m ∧ length mins = S m ∧ max_settled maxs k ∧
  holds n (max_feed fs lbins e (before maxs k)) cmi ∧ max_mode k bp maxs mins.

Lemma settled_before maxs k b : max_settled maxs k → b ∈ before maxs k → max_bin b.
Proof.
  intros Hs (j & s & Hj & Hl & ->)%elem_of_before. by destruct (Hs j s Hj Hl) as [(? & _) _].
Qed.

Lemma settled_before_range maxs k : max_settled maxs k → Forall (λ b, 0 ≤ b < bins) (before maxs k).
Proof. intros Hs. apply Forall_forall. intros b Hb. eapply max_bin_range, settled_before; done. Qed.

(** A settled step of the cell is a valid one, so its bin was not enabled last. *)
Lemma settled_not_last k b : max_settled max0 k → b ∈ before max0 k → ¬ last_bin b.
Proof.
  intros Hs (j & s & Hj & Hl & ->)%elem_of_before. destruct (Hs j s Hj Hl) as [(Hv & Hn' & Hc) _].
  destruct (Hmax0 j s Hl) as [[Ho|[_ ?]] _]; [|done].
  specialize (Ho (BinIndex s) Hv). rewrite Hc in Ho. lra.
Qed.

Lemma some_bin_left prev : vsize prev ≤ Z.of_nat m → ∃ c, enabled bg c ∧ c ∉ prev.
Proof.
  intros Hsz. pose proof (remaining_nonempty (EnabledBinIndexes bg) prev
    (NoDup_bins_with_flag _ _) ltac:(lia)) as Hne.
  destruct (remaining (EnabledBinIndexes bg) prev) as [|c l] eqn:Hr; [done|].
  assert (c ∈ remaining (EnabledBinIndexes bg) prev) as Hc by (rewrite Hr; by left).
  apply list_elem_of_filter in Hc as [Hc1 Hc2%elem_of_EnabledBinIndexes]. eauto.
Qed.

Lemma not_nil_elem {A} (l : list A) x : x ∈ l → l ≠ [].
Proof. intros Hx ->. by apply elem_of_nil in Hx. Qed.

(** The candidates of a step: valid, some, and all that may beat the cached step. *)
Lemma max_candidates k bp maxs mins cmi cur :
  max_inv k (bp, maxs, mins, cmi) → (k < m)%nat → maxs !! k = Some cur →
  let cands := filter (λ b, b ∉ before maxs k) (EnabledBinIndexes bp) in
  cands ≠ [] ∧ (∀ c, c ∈ cands → max_bin c ∧ c ∉ before maxs k) ∧
  (∀ c, over c → c ∉ before maxs k → c ∈ cands ∨ ¬ Rgt (V (before maxs k) c) (Cmi cur)) ∧
  (step_open Rgt max_bin V maxs k cur ∨ step_valid max_bin V maxs k cur).
Proof.
  intros (Hlen & _ & Hset & _ & Hmode) Hk Hcur cands.
  assert (Hin : ∀ c, c ∈ cands ↔ enabled bp c ∧ c ∉ before maxs k).
  { intros c. unfold cands. rewrite list_elem_of_filter, elem_of_EnabledBinIndexes. tauto. }
  destruct Hmode as [(-> & -> & ->)|(-> & Hopen & _)].
  - destruct (Hmax0 k cur Hcur) as [Hok Hbest]. split_and!.
    + destruct Hlast as [l Hl]. apply (not_nil_elem _ l), Hin. split; [by apply Henl|].
      intros Hb. by apply (settled_not_last k l).
    + intros c [Hc%Henl Hn']%Hin. split; [right; by apply Hlast_enabled|done].
    + intros c [Hc|Hc] Hn'; [right; by apply Hbest|left; apply Hin; split; [by apply Henl|done]].
    + tauto.
  - split_and!.
    + destruct (some_bin_left (before maxs k)) as (c & Hc & Hn'); [rewrite length_before; lia|].
      apply (not_nil_elem _ c), Hin. split; [apply Hen1; by right|done].
    + intros c [Hc%Hen1 Hn']%Hin. done.
    + intros c Hc Hn'. left. apply Hin. split; [apply Hen1; right; by apply over_enabled|done].
    + left. rewrite (Hopen k cur) by done. apply no_max_step_open.
Qed.

(** Forgetting the minimizing steps that depend on a replaced step. *)
Lemma min_usable_forget maxs maxs' mins mins' k :
  min_usable maxs mins 0 → take k maxs = take k maxs' → (k < length mins)%nat →
  vfill mins (Z.of_nat k + 1) (vsize mins) no_min_step = Ret mins' →
  min_usable maxs' mins' 0 ∧ length mins' = length mins.
Proof.
  intros Hu Ht Hk Hf. apply vfill_Ret in Hf as (_ & _ & ->). rewrite length_fill_range. split; [|done].
  assert (Hpre : ∀ j, (j ≤ k)%nat → fill_range mins (Z.of_nat k + 1) (vsize mins) no_min_step !! j = mins !! j).
  { intros j Hj. rewrite lookup_fill_range. destruct (mins !! j); [|done]. cbn.
    by rewrite (proj2 (Z.leb_gt _ _)) by lia. }
  intros j s _ Hs. destruct (decide (j ≤ k)%nat) as [Hj|Hj].
  - rewrite Hpre in Hs by done.
    assert (Hb : before mins j = before (fill_range mins (Z.of_nat k + 1) (vsize mins) no_min_step) j).
    { apply before_take, list_eq. intros i. destruct (decide (i < j)%nat).
      - rewrite !lookup_take_lt by done. symmetry. apply Hpre. lia.
      - by rewrite !lookup_take_ge by lia. }
    assert (Hv : ∀ c, W maxs (before mins j) c = W maxs' (before mins j) c).
    { intros c. apply W_ext; [|lia]. rewrite <- (Nat.min_l j k), <- !take_take by lia. by rewrite Ht. }
    destruct (Hu j s ltac:(lia) Hs) as [Ho|Hv']; [left|right].
    + by eapply step_open_ext.
    + by eapply step_valid_ext.
  - left. rewrite lookup_fill_range in Hs. destruct (mins !! j) as [t|] eqn:Hj'; [|done]. cbn in Hs.
    apply lookup_lt_Some in Hj'. unfold vsize in Hs.
    rewrite (proj2 (Z.leb_le _ _)), (proj2 (Z.ltb_lt _ _)) in Hs by lia. injection Hs as <-.
    apply no_min_step_open.
Qed.

Lemma min0_usable : min_usable max0 min0 0.
Proof. intros j s _ Hs. destruct (Hmin0 j s Hs) as [[?|[? _]] _]; auto. Qed.

Lemma settled_S maxs k s :
  max_settled maxs k → maxs !! k = Some s → step_valid max_bin V maxs k s → step_best Rgt over V maxs k s →
  max_settled maxs (S k).
Proof.
  intros Hs Hk Hv Hb j t Hj Ht. destruct (decide (j = k)) as [->|]; [|apply Hs; [lia|done]].
  by rewrite Hk in Ht; injection Ht as <-.
Qed.

Lemma settled_ext maxs maxs' k :
  max_settled maxs k → take k maxs = take k maxs' → max_settled maxs' k.
Proof.
  intros Hs Ht j s Hj Hl. rewrite <- (lookup_take_eq maxs maxs' j k) in Hl by done.
  destruct (Hs j s Hj Hl) as [Hv Hb]. assert (Hbe := before_le maxs maxs' j k ltac:(lia) Ht).
  split; [by eapply step_valid_ext|by eapply step_best_ext].
Qed.

(** The end of a pass: the chosen step joins the condition. *)
Lemma max_step_tail k bp maxs mins cmi s :
  length maxs = m → length mins = S m → max_settled maxs k → (k < m)%nat → maxs !! k = Some s →
  step_valid max_bin V maxs k s → step_best Rgt over V maxs k s →
  holds n (max_feed fs lbins e (before maxs k)) cmi → max_mode (S k) bp maxs mins →
  ∃ st', (chosen ← vat maxs (Z.of_nat k); bin ← GetBin (Features bg1) (BinIndex chosen);
          cmi' ← AddConditionBin cmi bin; Ret (bp, maxs, mins, cmi')) = Ret st' ∧ max_inv (S k) st'.
Proof.
  intros Hlm Hln Hset Hk Hs Hv Hb Hh Hmode.
  rewrite (proj2 (vat_Ret maxs (Z.of_nat k) s)) by (rewrite Nat2Z.id; split; [lia|done]). rewrite bind_Ret.
  destruct (GetBin_at n fs Hfs (Features bg1) (BinIndex s) (proj1 Hbg1)) as [-> Hsz];
    [apply max_bin_range, Hv|]. rewrite bind_Ret.
  pose proof (vsize_max_feed n fs lbins Hn e (before maxs k)) as Hvs.
  rewrite length_before in Hvs by lia.
  destruct (add_bin_spec n (max_feed fs lbins e (before maxs k)) cmi VCondition (bin_at fs (BinIndex s)))
    as (cmi' & Hadd & Hh'); [done|done|lia|]. unfold add_bin in Hadd; cbn [fst snd] in Hadd.
  rewrite Hadd, bind_Ret. eexists. split; [done|]. split_and!; [done|done|by eapply settled_S| |done].
  by rewrite (before_S maxs k s), max_feed_snoc.
Qed.

Lemma cached_max_step_spec k st :
  max_inv k st → (k < m)%nat → ∃ st', cached_max_step bg1 st (Z.of_nat k) = Ret st' ∧ max_inv (S k) st'.
Proof.
  intros Hinv Hk. destruct st as [[[bp maxs] mins] cmi].
  pose proof Hinv as (Hlm & Hln & Hset & Hh & Hmode).
  destruct (lookup_lt_is_Some_2 maxs k) as [cur Hcur]; [lia|].
  destruct (max_candidates k bp maxs mins cmi cur Hinv Hk Hcur) as (Hne & Hcands & Hcover & Hok).
  set (cands := filter (λ b, b ∉ before maxs k) (EnabledBinIndexes bp)) in *.
  assert (Hval : ∀ c, c ∈ cands → bin_value cmi (Features bg1) c = Ret (V (before maxs k) c)).
  { intros c Hc. apply max_value_exact; [apply Hbg1|done|by apply settled_before_range| |].
    - rewrite length_before; lia.
    - by apply max_bin_range, Hcands. }
  destruct (search_best Rgt a_gtb gtb_Rgt cands _ (V (before maxs k)) extreme_max Hne Hval)
    as (i & b & Hi & Hend & Hd & Hb & Hbest).
  unfold cached_max_step. rewrite erase_previous_spec by lia. fold cands. rewrite bind_Ret.
  unfold MaxElementBy. rewrite Hi, bind_Ret, (proj2 (Z.eqb_neq _ _)) by done. cbn [negb verify].
  rewrite bind_Ret, Hd, bind_Ret, (Hval b Hb), bind_Ret.
  rewrite (proj2 (vat_Ret maxs (Z.of_nat k) cur)) by (rewrite Nat2Z.id; split; [lia|done]). rewrite bind_Ret.
  pose proof (kept_step Rgt a_gtb gtb_Rgt Rgt_trans Rgt_ntrans max_bin over V maxs k cur cands b
    Hcur Hcands Hok Hcover Hb Hbest) as Hkept. cbv zeta in Hkept.
  destruct (a_gtb (V (before maxs k) b) (Cmi cur)); destruct Hkept as [Hv Hbst].
  - destruct (replace_step_spec maxs k {| BinIndex := b; Cmi := V (before maxs k) b |} no_max_step)
      as (maxs' & -> & Hlm' & Ht & Hs & Hafter); [lia|]. rewrite bind_Ret.
    assert (Hfill : vfill mins (Z.of_nat k + 1) (vsize mins) no_min_step =
      Ret (fill_range mins (Z.of_nat k + 1) (vsize mins) no_min_step))
      by (apply vfill_Ret; unfold vsize; split_and!; [lia..|done]).
    rewrite Hfill, !bind_Ret.
    assert (Hbe : before maxs k = before maxs' k) by (by apply before_take).
    assert (Hu : min_usable maxs mins 0).
    { destruct Hmode as [(_ & -> & ->)|(_ & _ & ?)]; [apply min0_usable|done]. }
    destruct (min_usable_forget maxs maxs' mins _ k Hu ltac:(by symmetry) ltac:(lia) Hfill) as [Hu' Hln'].
    apply (max_step_tail k bg1 maxs' _ cmi {| BinIndex := b; Cmi := V (before maxs k) b |}); try done; try lia.
    + by apply (settled_ext maxs).
    + by eapply step_valid_ext.
    + by eapply step_best_ext.
    + by rewrite <- Hbe.
    + right. split_and!; [done| |done]. intros j s Hj. apply Hafter. lia.
  - rewrite bind_Ret. apply (max_step_tail k bp maxs mins cmi cur); try done.
    destruct Hmode as [?|(? & Ho & ?)]; [by left|right]. split_and!; [done| |done].
    intros j s Hj. apply Ho. lia.
Qed.

(** The maximizing loop returns settled steps. *)
Lemma cached_max_loop cmi :
  holds n (eval_feed fs lbins e) cmi →
  ∃ bp maxs mins cmi', mfold (cached_max_step bg1) (lbg, max0, min0, cmi) (xrange (Z.of_nat m)) =
      Ret (bp, maxs, mins, cmi') ∧
    length maxs = m ∧ length mins = S m ∧ max_settled maxs m ∧ max_mode m bp maxs mins.
Proof.
  intros Hh.
  destruct (mfold_inv (λ done st, max_inv (length done) st) (cached_max_step bg1) (xrange (Z.of_nat m))
    (lbg, max0, min0, cmi)) as ([[[bp maxs] mins] cmi'] & -> & Hinv).
  - split_and!; [done|done|intros j s Hj; cbn in Hj; lia| |left; done].
    cbn. unfold before. cbn. unfold max_feed. cbn. by rewrite app_nil_r.
  - intros done i rest st Hx Hinv. destruct (xrange_done _ _ _ _ Hx) as [Hd Hi]. unfold vsize in Hd.
    destruct (cached_max_step_spec (length done) st Hinv) as (st' & Hst & Hinv'); [lia|].
    rewrite Hd in Hst. exists st'. split; [done|]. by rewrite length_app, Nat.add_1_r.
  - rewrite xrange_seqZ, length_seqZ, Nat2Z.id in Hinv. destruct Hinv as (? & ? & ? & _ & ?).
    exists bp, maxs, mins, cmi'. by split_and!.
Qed.

(** *** The minimizing loop *)

Context (maxs : list (TStepResult R)).
Hypothesis Hmaxs_len : length maxs = m.
Hypothesis Hmaxs : max_settled maxs m.

Lemma maxs_in_range : steps_in_range fs maxs.
Proof.
  apply Forall_forall. intros s [j Hj]%list_elem_of_lookup.
  destruct (Hmaxs j s) as [[Hv _] _]; [apply lookup_lt_Some in Hj; lia|done|]. by apply max_bin_range.
Qed.

Definition min_settled (mins : list (TStepResult R)) (k : nat) : Prop :=
  ∀ j s, (j < k)%nat → mins !! j = Some s →
    step_valid (enabled bg) (W maxs) mins j s ∧ step_best Rlt over (W maxs) mins j s.

Definition min_mode (k : nat) (bp : TBackground) (mins : list (TStepResult R)) : Prop :=
  maxs = max0 ∧ mins = min0 ∧ (∀ c, enabled bp c ↔ last_bin c) ∨
  (∀ c, enabled bp c ↔ enabled bg c ∧ c ∉ before mins k) ∧ min_usable maxs mins k.

Definition min_inv (k : nat)
    (st : TBackground * TBackground * list (TStepResult R) * TCmiCalculator) : Prop :=
  let '(bg', bp, mins, cmi) := st in
  length mins = S m ∧ (valid_bg fs bg' ∧ valid_bg fs bp) ∧
  (∀ c, enabled bg' c ↔ enabled bg c ∧ c ∉ before mins k) ∧ min_settled mins k ∧
  holds n (min_feed fs lbins e maxs (before mins k)) cmi ∧ min_mode k bp mins.

Lemma min_settled_before mins k b : min_settled mins k → b ∈ before mins k → enabled bg b.
Proof.
  intros Hs (j & s & Hj & Hl & ->)%elem_of_before. by destruct (Hs j s Hj Hl) as [(? & _) _].
Qed.

Lemma min_before_range mins k : min_settled mins k → Forall (λ b, 0 ≤ b < bins) (before mins k).
Proof. intros Hs. apply Forall_forall. intros b Hb. eapply enabled_range, min_settled_before; done. Qed.

(** A valid minimizing step of the cell was not enabled last. *)
Lemma min0_not_last k s :
  maxs = max0 → min0 !! k = Some s → step_valid (enabled bg) (W maxs) min0 k s → ¬ last_bin (BinIndex s).
Proof.
  intros -> Hl (Hv & Hn' & Hc). destruct (Hmin0 k s Hl) as [[Ho|[_ ?]] _]; [|done].
  specialize (Ho (BinIndex s) Hv). rewrite Hc in Ho. lra.
Qed.

Lemma min_candidates k bg' bp mins cmi cur :
  min_inv k (bg', bp, mins, cmi) → (k ≤ m)%nat → mins !! k = Some cur →
  let cands := EnabledBinIndexes bp in
  cands ≠ [] ∧ (∀ c, c ∈ cands → enabled bg c ∧ c ∉ before mins k) ∧
  (∀ c, over c → c ∉ before mins k → c ∈ cands ∨ ¬ Rlt (W maxs (before mins k) c) (Cmi cur)) ∧
  (step_open Rlt (enabled bg) (W maxs) mins k cur ∨ step_valid (enabled bg) (W maxs) mins k cur).
Proof.
  intros (Hlen & _ & _ & Hset & _ & Hmode) Hk Hcur cands.
  assert (Hin : ∀ c, c ∈ cands ↔ enabled bp c) by (intros c; apply elem_of_EnabledBinIndexes).
  destruct Hmode as [(Hm0 & -> & Hbp)|(Hbp & Hu)].
  - destruct (Hmin0 k cur Hcur) as [Hok Hbest]. rewrite <- Hm0 in Hok, Hbest. split_and!.
    + destruct Hlast as [l Hl]. by apply (not_nil_elem _ l), Hin, Hbp.
    + intros c Hc%Hin%Hbp. split; [by apply Hlast_enabled|].
      intros (j & s & Hj & Hs & ->)%elem_of_before.
      by apply (min0_not_last j s Hm0 Hs) in Hc; [|apply (Hset j s Hj Hs)].
    + intros c [Hc|Hc] Hn'; [right; by apply Hbest|left; by apply Hin, Hbp].
    + tauto.
  - split_and!.
    + destruct (some_bin_left (before mins k)) as (c & Hc & Hn'); [rewrite length_before; lia|].
      by apply (not_nil_elem _ c), Hin, Hbp.
    + intros c Hc%Hin%Hbp. done.
    + intros c Hc%over_enabled Hn'. left. by apply Hin, Hbp.
    + by apply Hu.
Qed.

Lemma min_settled_S mins k s :
  min_settled mins k → mins !! k = Some s → step_valid (enabled bg) (W maxs) mins k s →
  step_best Rlt over (W maxs) mins k s → min_settled mins (S k).
Proof.
  intros Hs Hk Hv Hb j t Hj Ht. destruct (decide (j = k)) as [->|]; [|apply Hs; [lia|done]].
  by rewrite Hk in Ht; injection Ht as <-.
Qed.

Lemma min_settled_ext mins mins' k :
  min_settled mins k → take k mins = take k mins' → min_settled mins' k.
Proof.
  intros Hs Ht j s Hj Hl. rewrite <- (lookup_take_eq mins mins' j k) in Hl by done.
  destruct (Hs j s Hj Hl) as [Hv Hb]. assert (Hbe := before_le mins mins' j k ltac:(lia) Ht).
  split; [by eapply step_valid_ext|by eapply step_best_ext].
Qed.

(** Disabling the bin of a step. *)
Lemma disable_step (bp : TBackground) mins k s (P : Z → Prop) :
  valid_bg fs bp → mins !! k = Some s → 0 ≤ BinIndex s < bins →
  (∀ c, enabled bp c ↔ P c ∧ c ∉ before mins k) →
  ∃ bp', SetBinEnabled bp (BinIndex s) false = Ret bp' ∧ valid_bg fs bp' ∧
    ∀ c, enabled bp' c ↔ P c ∧ c ∉ before mins (S k).
Proof.
  intros Hv Hs Hr Hen. destruct (SetBinEnabled_spec fs bp (BinIndex s) false Hv Hr) as (bp' & -> & Hv' & _ & Hen' & _).
  exists bp'. split_and!; [done|done|]. intros c. rewrite Hen', (before_S _ _ s) by done.
  rewrite elem_of_app, list_elem_of_singleton. case_decide; [naive_solver|]. rewrite Hen. tauto.
Qed.

Lemma min0_before_not_last k c :
  maxs = max0 → min_settled min0 k → last_bin c → c ∉ before min0 k.
Proof.
  intros Hm0 Hset Hc (j & s & Hj & Hs & ->)%elem_of_before.
  by apply (min0_not_last j s Hm0 Hs) in Hc; [|apply (Hset j s Hj Hs)].
Qed.

(** Disabling the bin of the chosen step keeps the mode. *)
Lemma min_mode_disable k bp mins s :
  valid_bg fs bp → min_settled mins (S k) → mins !! k = Some s → 0 ≤ BinIndex s < bins →
  min_mode k bp mins →
  ∃ bp', SetBinEnabled bp (BinIndex s) false = Ret bp' ∧ valid_bg fs bp' ∧ min_mode (S k) bp' mins.
Proof.
  intros Hv Hset Hs Hr [(Hm0 & -> & Hbp)|(Hbp & Hu)].
  - assert (Hsub : ∀ c, last_bin c → c ∉ before min0 k).
    { intros c. apply min0_before_not_last; [done|]. intros j t Hj. apply Hset. lia. }
    destruct (disable_step bp min0 k s last_bin Hv Hs Hr) as (bp' & -> & Hv' & Hen').
    { intros c. rewrite Hbp. naive_solver. }
    exists bp'. split_and!; [done|done|]. left. split_and!; [done|done|]. intros c. rewrite Hen'.
    split; [tauto|]. intros Hc. split; [done|]. by apply min0_before_not_last.
  - destruct (disable_step bp mins k s (enabled bg) Hv Hs Hr Hbp) as (bp' & -> & Hv' & Hen').
    exists bp'. split_and!; [done|done|]. right. split; [done|]. intros j t Hj. apply Hu. lia.
Qed.

(** The end of a pass: the chosen step is disabled and joins the condition, and the
    maximizing step joins the second variable. *)
Lemma min_step_tail k bg' bp mins cmi s :
  min_inv k (bg', bp, mins, cmi) → (k ≤ m)%nat → mins !! k = Some s →
  step_valid (enabled bg) (W maxs) mins k s → step_best Rlt over (W maxs) mins k s →
  ∃ st', (chosen ← vat mins (Z.of_nat k);
          bp' ← SetBinEnabled bp (BinIndex chosen) false;
          bg'' ← SetBinEnabled bg' (BinIndex chosen) false;
          bin ← GetBin (Features bg'') (BinIndex chosen);
          cmi1 ← AddConditionBin cmi bin;
          cmi2 ← (if Z.of_nat k <? vsize maxs then
                    max_step ← vat maxs (Z.of_nat k);
                    max_bin ← GetBin (Features bg'') (BinIndex max_step);
                    AddSecondVariableBin cmi1 max_bin
                  else Ret cmi1);
          Ret (bg'', bp', mins, cmi2)) = Ret st' ∧ min_inv (S k) st'.
Proof.
  intros (Hlen & [Hvb Hvp] & Henb & Hset & Hh & Hmode) Hk Hs Hv Hb.
  assert (Hr : 0 ≤ BinIndex s < bins) by (eapply enabled_range, Hv; done).
  assert (Hset' : min_settled mins (S k)) by (by eapply min_settled_S).
  rewrite (proj2 (vat_Ret mins (Z.of_nat k) s)) by (rewrite Nat2Z.id; split; [lia|done]). rewrite bind_Ret.
  destruct (min_mode_disable k bp mins s Hvp Hset' Hs Hr Hmode) as (bp' & -> & Hvp' & Hmode').
  destruct (disable_step bg' mins k s (enabled bg) Hvb Hs Hr Henb) as (bg'' & -> & Hvb' & Henb').
  rewrite !bind_Ret.
  destruct (GetBin_at n fs Hfs (Features bg'') (BinIndex s) (proj1 Hvb') Hr) as [-> Hsz]. rewrite bind_Ret.
  pose proof (vsize_min_feed n fs lbins Hn e maxs (before mins k)) as Hvs.
  rewrite length_before in Hvs by lia.
  destruct (add_bin_spec n (min_feed fs lbins e maxs (before mins k)) cmi VCondition (bin_at fs (BinIndex s)))
    as (cmi1 & Hadd & Hh1); [done|done|lia|]. unfold add_bin in Hadd; cbn [fst snd] in Hadd.
  rewrite Hadd, bind_Ret.
  destruct (add_second_at n fs Hn Hfs (Features bg'') _ cmi1 maxs (Z.of_nat k) (proj1 Hvb') maxs_in_range
    ltac:(lia) Hh1) as (cmi2 & -> & Hh2); [rewrite vsize_snoc; lia|]. rewrite bind_Ret.
  eexists. split; [done|]. split_and!; try done.
  rewrite (before_S mins k s), min_feed_snoc by done.
  assert (Hl : length (before mins k) = k).
  { pose proof (length_before mins k ltac:(lia)) as Hl. unfold vsize in Hl. lia. }
  by rewrite Hl; rewrite Nat2Z.id in Hh2.
Qed.

Lemma cached_min_step_spec k st :
  min_inv k st → (k ≤ m)%nat → ∃ st', cached_min_step maxs st (Z.of_nat k) = Ret st' ∧ min_inv (S k) st'.
Proof.
  intros Hinv Hk. destruct st as [[[bg' bp] mins] cmi].
  pose proof Hinv as (Hlen & [Hvb Hvp] & Henb & Hset & Hh & Hmode).
  destruct (lookup_lt_is_Some_2 mins k) as [cur Hcur]; [lia|].
  destruct (min_candidates k bg' bp mins cmi cur Hinv Hk Hcur) as (Hne & Hcands & Hcover & Hok).
  assert (Hval : ∀ c, c ∈ EnabledBinIndexes bp → bin_value cmi (Features bg') c = Ret (W maxs (before mins k) c)).
  { intros c Hc. apply min_value_exact; [apply Hvb|done|by apply min_before_range|apply maxs_in_range| |].
    - rewrite length_before; lia.
    - by eapply enabled_range, Hcands. }
  destruct (search_best Rlt a_ltb ltb_Rlt (EnabledBinIndexes bp) _ (W maxs (before mins k)) extreme_min Hne Hval)
    as (i & b & Hi & Hend & Hd & Hb & Hbest).
  unfold cached_min_step, MinElementBy.
  rewrite Hi, bind_Ret, (proj2 (Z.eqb_neq _ _)) by done. cbn [negb verify].
  rewrite bind_Ret, Hd, bind_Ret, (Hval b Hb), bind_Ret.
  rewrite (proj2 (vat_Ret mins (Z.of_nat k) cur)) by (rewrite Nat2Z.id; split; [lia|done]). rewrite bind_Ret.
  pose proof (kept_step Rlt a_ltb ltb_Rlt Rlt_trans Rlt_ntrans (enabled bg) over (W maxs) mins k cur
    (EnabledBinIndexes bp) b Hcur Hcands Hok Hcover Hb Hbest) as Hkept. cbv zeta in Hkept.
  destruct (W maxs (before mins k) b ≺ Cmi cur); destruct Hkept as [Hv Hbst].
  - destruct (replace_step_spec mins k {| BinIndex := b; Cmi := W maxs (before mins k) b |} no_min_step)
      as (mins' & -> & Hlen' & Ht & Hs & Hafter); [lia|]. rewrite !bind_Ret.
    assert (Hbe : before mins k = before mins' k) by (by apply before_take).
    apply (step_valid_ext (enabled bg) (W maxs) (W maxs) mins mins') in Hv; [|done|done].
    apply (step_best_ext Rlt over (W maxs) (W maxs) mins mins') in Hbst; [|done|done].
    apply (min_step_tail k bg' bg' mins' cmi {| BinIndex := b; Cmi := W maxs (before mins k) b |}); try done.
    split_and!; [lia|done|done|by intros c; rewrite <- Hbe|by apply (min_settled_ext mins)|by rewrite <- Hbe|].
    right. split; [by intros c; rewrite <- Hbe|]. intros j s Hj Hl.
    destruct (decide (j = k)) as [->|].
    + right. by rewrite Hs in Hl; injection Hl as <-.
    + left. rewrite (Hafter j s) by (done || lia). apply no_min_step_open.
  - rewrite bind_Ret. by apply (min_step_tail k bg' bp mins cmi cur).
Qed.

(** The minimizing loop returns settled steps, and its calculator the information of
    all the bins. *)
Lemma cached_min_loop bg2 bp mins1 cmi :
  valid_bg fs bg2 → valid_bg fs bp → (∀ c, enabled bg2 c ↔ enabled bg c) → length mins1 = S m →
  (maxs = max0 ∧ mins1 = min0 ∧ (∀ c, enabled bp c ↔ last_bin c) ∨
   (∀ c, enabled bp c ↔ enabled bg c) ∧ min_usable maxs mins1 0) →
  holds n (eval_feed fs lbins e) cmi →
  ∃ bg' bp' mins cmi', mfold (cached_min_step maxs) (bg2, bp, mins1, cmi) (xrange (Z.of_nat (S m))) =
      Ret (bg', bp', mins, cmi') ∧
    length mins = S m ∧ min_settled mins (S m) ∧
    GetValue cmi' = Ret (cmi_of_feed n (min_feed fs lbins e maxs (BinIndex <$> mins))).
Proof.
  intros Hv2 Hvp Hen2 Hlen Hmode Hh.
  destruct (mfold_inv (λ done st, min_inv (length done) st) (cached_min_step maxs) (xrange (Z.of_nat (S m)))
    (bg2, bp, mins1, cmi)) as ([[[bg' bp'] mins] cmi'] & -> & Hinv).
  - split_and!; [done|done|done| |intros j s Hj; cbn in Hj; lia|by rewrite min_feed_nil|].
    + intros c. rewrite Hen2. split; [|tauto]. intros ?. split; [done|]. intros Hb. by apply elem_of_nil in Hb.
    + destruct Hmode as [?|[Hbp Hu]]; [by left|right]. split; [|done]. intros c. rewrite Hbp.
      split; [|tauto]. intros ?. split; [done|]. intros Hb. by apply elem_of_nil in Hb.
  - intros done i rest st Hx Hinv. destruct (xrange_done _ _ _ _ Hx) as [Hd Hi]. unfold vsize in Hd.
    destruct (cached_min_step_spec (length done) st Hinv) as (st' & Hst & Hinv'); [lia|].
    rewrite Hd in Hst. exists st'. split; [done|]. by rewrite length_app, Nat.add_1_r.
  - rewrite xrange_seqZ, length_seqZ, Nat2Z.id in Hinv. destruct Hinv as (Hlen' & _ & _ & Hset & Hh' & _).
    exists bg', bp', mins, cmi'. split_and!; [done|done|done|].
    assert (Hall : before mins (S m) = BinIndex <$> mins) by (unfold before; by rewrite take_ge by lia).
    rewrite <- Hall. apply GetValue_exact; [done|done|].
    destruct (lookup_lt_is_Some_2 mins m) as [s Hs]; [lia|].
    rewrite (before_S mins m s), min_feed_snoc, vsize_app, vsize_snoc by done.
    assert (Hl : length (before mins m) = m).
    { pose proof (length_before mins m ltac:(lia)) as Hl. unfold vsize in Hl. lia. }
    pose proof (vsize_min_feed n fs lbins Hn e maxs (before mins m)) as Hvs.
    rewrite length_before in Hvs by lia. rewrite Hl. unfold second_at.
    rewrite (lookup_ge_None_2 maxs) by lia. rewrite vsize_nil. lia.
Qed.

End Evaluation.

(** ** Features and their bins *)

(** The bins of a feature. *)
Definition in_feature (fs : list (list TBin)) (f b : Z) : Prop := fstart fs f ≤ b < fstart fs (f + 1).

(** Every selected feature is one of the set, is not the one of [e], and has bins. *)
Definition selectable (fs : list (list TBin)) (e f : Z) : Prop :=
  0 ≤ f < vsize fs ∧ ¬ in_feature fs f e ∧ fstart fs f < fstart fs (f + 1).

(** A feature with as many bins enables as many. *)
Lemma enabled_count (fs : list (list TBin)) bg f k :
  k ≤ fstart fs (f + 1) - fstart fs f → (∀ b, in_feature fs f b → enabled bg b) →
  k ≤ vsize (EnabledBinIndexes bg).
Proof.
  intros Hk Hen. assert (Hsub : xrange2 (fstart fs f) (fstart fs (f + 1)) ⊆+ EnabledBinIndexes bg).
  { apply NoDup_submseteq; [rewrite xrange2_seqZ; apply NoDup_seqZ|].
    intros b Hb%elem_of_xrange2. by apply elem_of_EnabledBinIndexes, Hen. }
  apply submseteq_length in Hsub. rewrite xrange2_seqZ, length_seqZ in Hsub. unfold vsize. lia.
Qed.

(** ** Evaluating a cell *)

Section Cell.
  Context (n : nat) (fs : list (list TBin)) (lbins : list TBin).
  Hypothesis Hn : (0 < n)%nat.
  Hypothesis Hn31 : Z.of_nat n < 2 ^ 31.
  Hypothesis Hfs : Forall (λ bin, length bin = n) (concat fs).
  Hypothesis Hlbins : Forall (λ bin, length bin = n) lbins.
  Hypothesis Hlne : lbins ≠ [].
  Context (label : TBinFeatureSet) (entropy : R).
  Hypothesis Hlabel : Bins label = lbins.
  Local Abbreviation bins := (vsize (concat fs)).

(** What the cell of the bin [e] holds after evaluations: valid steps among the bins
    of [old], of which no bin of [E0] is better. *)
Definition cell_inv (old E0 : Z → Prop) (e : Z) (cell : TBinScore R) : Prop :=
  let maxs := MaximizingSteps cell in let mins := MinimizingSteps cell in
  (∀ j s, maxs !! j = Some s →
     step_valid (λ c, c = e ∨ old c) (max_information n fs lbins e) maxs j s ∧
     step_best Rgt E0 (max_information n fs lbins e) maxs j s) ∧
  (∀ j s, mins !! j = Some s →
     step_valid old (min_information n fs lbins e maxs) mins j s ∧
     step_best Rlt E0 (min_information n fs lbins e maxs) mins j s) ∧
  (length mins ≤ S (length maxs))%nat.

Lemma lookup_vresize_lt {A} (l : list A) k x j :
  (j < length l)%nat → (length l ≤ k)%nat → vresize l (Z.of_nat k) x !! j = l !! j.
Proof.
  intros Hj Hk. unfold vresize. rewrite Nat2Z.id, take_ge by lia. by rewrite lookup_app_l.
Qed.

Lemma lookup_vresize_ge {A} (l : list A) k x j y :
  (length l ≤ j)%nat → (length l ≤ k)%nat → vresize l (Z.of_nat k) x !! j = Some y → y = x.
Proof.
  intros Hj Hk. unfold vresize. rewrite Nat2Z.id, take_ge by lia. rewrite lookup_app_r by done.
  by intros [-> _]%lookup_replicate.
Qed.

Lemma take_vresize {A} (l : list A) k x j :
  (j ≤ length l)%nat → (length l ≤ k)%nat → take j (vresize l (Z.of_nat k) x) = take j l.
Proof.
  intros Hj Hk. unfold vresize. rewrite Nat2Z.id, (take_ge l) by lia. by rewrite take_app_le.
Qed.

Lemma length_vresize {A} (l : list A) k x : length (vresize l (Z.of_nat k) x) = k.
Proof. unfold vresize. rewrite length_app, length_take, length_replicate, Nat2Z.id. lia. Qed.

(** The resized cell is what the loops start from. *)
Lemma resized_cell (bg : TBackground) (old E0 : Z → Prop) (e : Z) (cell : TBinScore R) (m : nat) :
  cell_inv old E0 e cell →
  (length (MaximizingSteps cell) ≤ m)%nat → (length (MinimizingSteps cell) ≤ S m)%nat →
  (length (MaximizingSteps cell) = m ∧ length (MinimizingSteps cell) = S m ∨ ∀ c, ¬ E0 c) →
  (∀ c, old c → enabled bg c ∧ ¬ last_bin bg c) → ¬ last_bin bg e →
  let max0 := vresize (MaximizingSteps cell) (Z.of_nat m) no_max_step in
  let min0 := vresize (MinimizingSteps cell) (Z.of_nat (S m)) new_min_step in
  (∀ j s, max0 !! j = Some s →
    (step_open Rgt (max_bin bg e) (max_information n fs lbins e) max0 j s ∨
     step_valid (max_bin bg e) (max_information n fs lbins e) max0 j s ∧ ¬ last_bin bg (BinIndex s)) ∧
    step_best Rgt E0 (max_information n fs lbins e) max0 j s) ∧
  (∀ j s, min0 !! j = Some s →
    (step_open Rlt (enabled bg) (min_information n fs lbins e max0) min0 j s ∨
     step_valid (enabled bg) (min_information n fs lbins e max0) min0 j s ∧ ¬ last_bin bg (BinIndex s)) ∧
    step_best Rlt E0 (min_information n fs lbins e max0) min0 j s).
Proof.
  intros (Hmax & Hmin & Hlen) Hm1 Hm2 HE0 Hold Hel max0 min0.
  set (maxs := MaximizingSteps cell) in *. set (mins := MinimizingSteps cell) in *.
  assert (Hfull : ∀ j, (j < length maxs)%nat ∨ (length maxs ≤ j)%nat) by lia.
  split; intros j s Hj.
  - destruct (decide (j < length maxs)%nat) as [Hlt|Hge].
    + unfold max0 in Hj. rewrite lookup_vresize_lt in Hj by done. destruct (Hmax j s Hj) as [Hv Hb].
      assert (Hbe : before maxs j = before max0 j) by (apply before_take; symmetry; apply take_vresize; lia).
      split; [right|by eapply step_best_ext]. split.
      * apply (step_valid_weaken (λ c, c = e ∨ old c)); [|by eapply step_valid_ext].
        intros c [Hc|Hc]; [by left|right; by apply Hold].
      * destruct Hv as ([Hse|Ho] & _); [by rewrite Hse|by apply Hold].
    + assert (s = no_max_step) as -> by (eapply (lookup_vresize_ge maxs m _ j); [lia|done|exact Hj]).
      split; [left; by apply no_max_step_open|]. intros c Hc.
      destruct HE0 as [[Hm _]|HE0]; [|by apply HE0 in Hc].
      apply lookup_lt_Some in Hj. unfold max0 in Hj. rewrite length_vresize in Hj. lia.
  - destruct (decide (j < length mins)%nat) as [Hlt|Hge].
    + unfold min0 in Hj. rewrite lookup_vresize_lt in Hj by done. destruct (Hmin j s Hj) as [Hv Hb].
      assert (Hbe : before mins j = before min0 j) by (apply before_take; symmetry; apply take_vresize; lia).
      assert (Hw : ∀ c, min_information n fs lbins e maxs (before mins j) c =
        min_information n fs lbins e max0 (before mins j) c).
      { intros c. apply W_ext; [|lia]. symmetry. apply take_vresize; lia. }
      split; [right|by eapply step_best_ext]. split; [|by apply Hold, Hv].
      apply (step_valid_weaken old); [intros c Hc; by apply Hold|by eapply step_valid_ext].
    + assert (s = new_min_step) as -> by (eapply (lookup_vresize_ge mins (S m) _ j); [lia|done|exact Hj]).
      split; [left; by apply new_min_step_open|]. intros c Hc.
      destruct HE0 as [[_ Hm]|HE0]; [|by apply HE0 in Hc].
      apply lookup_lt_Some in Hj. unfold min0 in Hj. rewrite length_vresize in Hj. lia.
Qed.

(** The calculator both phases start with. *)
Lemma start_calculator_spec bg e :
  valid_bg fs bg → 0 ≤ e < bins → vsize lbins < 64 →
  ∃ cmi, start_calculator label bg e = Ret cmi ∧ holds n (eval_feed fs lbins e) cmi.
Proof.
  intros Hv He Hk. unfold start_calculator. rewrite Hlabel.
  assert (Hfront : ∃ b, vfront lbins = Ret b ∧ vsize b = Z.of_nat n).
  { destruct lbins as [|b lb]; [done|]. exists b. split; [done|].
    apply Forall_cons in Hlbins as [Hb _]. unfold vsize. by rewrite Hb. }
  destruct Hfront as (b & -> & Hb). rewrite bind_Ret, Hb.
  destruct (label_calculator n lbins Hlbins) as (c & -> & Hh); [lia|]. rewrite bind_Ret.
  destruct (GetBin_at n fs Hfs (Features bg) e (proj1 Hv) He) as [-> Hsz]. rewrite bind_Ret.
  pose proof (vsize_label_feed lbins) as Hl.
  destruct (add_bin_spec n (label_feed lbins) c VSecond (bin_at fs e)) as (c' & Hadd & Hh'); [done|done|lia|].
  exists c'. by unfold add_bin in Hadd; cbn [fst snd] in Hadd.
Qed.

(** Disabling the evaluated bin again. *)
Lemma disable_eval bg' e (P : Z → Prop) :
  valid_bg fs bg' → 0 ≤ e < bins → (∀ c, enabled bg' c ↔ c = e ∨ P c) → ¬ P e →
  ∃ bg'', SetBinEnabled bg' e false = Ret bg'' ∧ valid_bg fs bg'' ∧ ∀ c, enabled bg'' c ↔ P c.
Proof.
  intros Hv He Hen HP. destruct (SetBinEnabled_spec fs bg' e false Hv He) as (bg'' & -> & Hv' & _ & Hen' & _).
  exists bg''. split_and!; [done|done|]. intros c. rewrite Hen'. case_decide as Hc; [subst; naive_solver|].
  rewrite Hen. naive_solver.
Qed.

Lemma last_step_score e m maxs mins s :
  length maxs = m → length mins = S m → mins !! m = Some s →
  Cmi s = min_information n fs lbins e maxs (before mins m) (BinIndex s) →
  cmi_of_feed n (min_feed fs lbins e maxs (BinIndex <$> mins)) = Cmi s.
Proof.
  intros Hlm Hln Hs ->. unfold min_information. f_equal.
  assert (Hall : BinIndex <$> mins = before mins (S m)) by (unfold before; by rewrite take_ge by lia).
  rewrite Hall, (before_S mins m s), min_feed_snoc by done.
  replace (length (before mins m)) with m by (unfold before; rewrite length_fmap, length_take; lia).
  unfold second_at. rewrite (lookup_ge_None_2 maxs) by lia. by rewrite app_nil_r.
Qed.

Lemma evaluate_cell_spec bg e m (old E0 : Z → Prop) cell :
  valid_bg fs bg → 0 ≤ e < bins → ¬ enabled bg e →
  Z.of_nat (S m) ≤ vsize (EnabledBinIndexes bg) → vsize lbins + 2 * Z.of_nat (S m) < 64 →
  (∃ c, last_bin bg c) → (∀ c, last_bin bg c → enabled bg c) →
  (∀ c, old c → enabled bg c ∧ ¬ last_bin bg c) → (∀ c, E0 c → old c) →
  cell_inv old E0 e cell →
  (length (MaximizingSteps cell) ≤ m)%nat → (length (MinimizingSteps cell) ≤ S m)%nat →
  (length (MaximizingSteps cell) = m ∧ length (MinimizingSteps cell) = S m ∨ ∀ c, ¬ E0 c) →
  ∃ r last, evaluate_cell label entropy bg e (Z.of_nat (S m)) (Ret cell) = Ret r ∧
    length (MaximizingSteps r) = m ∧ length (MinimizingSteps r) = S m ∧
    cell_inv (enabled bg) (λ c, E0 c ∨ last_bin bg c) e r ∧
    list.last (MinimizingSteps r) = Some last ∧ Score r = (Cmi last / entropy)%R.
Proof.
  intros Hv He Hne Hcount Hbudget Hlast Hlen Hold HE0 Hcell Hl1 Hl2 Hfull.
  destruct (resized_cell bg old E0 e cell m Hcell Hl1 Hl2 Hfull Hold) as [Hmax0 Hmin0]; [by intros ?%Hlen|].
  assert (HE0' : ∀ c, E0 c → enabled bg c) by (intros c ?%HE0; by apply Hold).
  unfold evaluate_cell.
  destruct (LastEnabled_spec fs bg Hv) as (lbg & -> & Hvl & _ & Henl). rewrite bind_Ret.
  destruct (SetBinEnabled_max_cands fs bg e Hv He) as (bg1 & -> & Hv1 & Hc1 & Hen1). rewrite bind_Ret.
  destruct (EnabledBins_spec fs bg1 Hv1) as (l & -> & Hsz). rewrite bind_Ret.
  assert (Hmore : Z.of_nat (S m) + 1 ≤ vsize (EnabledBinIndexes bg1)).
  { assert (Hsub : e :: EnabledBinIndexes bg ⊆+ EnabledBinIndexes bg1).
    { apply NoDup_submseteq.
      - apply NoDup_cons. split; [by rewrite elem_of_EnabledBinIndexes|apply NoDup_bins_with_flag].
      - intros c. rewrite elem_of_cons, !elem_of_EnabledBinIndexes, Hen1. tauto. }
    apply submseteq_length in Hsub. cbn in Hsub. unfold vsize in *. lia. }
  rewrite Hsz, (proj2 (Z.ltb_ge (vsize (EnabledBinIndexes bg1)) _)) by lia. cbn [negb ensure]. rewrite bind_Ret.
  rewrite (rep_bin_count _ fs (proj1 Hv1)), (proj2 (Z.ltb_ge e 0)), (proj2 (Z.leb_gt _ e)) by lia.
  cbn [orb negb ensure]. rewrite !bind_Ret.
  replace (Z.of_nat (S m) - 1) with (Z.of_nat m) by lia.
  unfold resize_steps. rewrite !(proj2 (Z.leb_le 0 _)) by lia. cbn [ensure]. rewrite !bind_Ret.
  destruct (start_calculator_spec bg1 e Hv1 He) as (cmi & -> & Hh); [lia|]. rewrite bind_Ret.
  destruct (cached_max_loop n fs lbins Hn Hn31 Hfs Hlbins bg e m Hv He Hcount Hbudget Hlast Hlen E0
    _ _ HE0' Hmax0 Hmin0 (length_vresize _ _ _) (length_vresize _ _ _) bg1 lbg Hv1 Hen1 Henl cmi Hh)
    as (bp & maxs & mins1 & cmi' & -> & Hlm & Hln & Hset & Hmode). rewrite bind_Ret.
  assert (Hbp : ∃ bp2, SetBinEnabled bp e false = Ret bp2 ∧ valid_bg fs bp2 ∧
    ((maxs = vresize (MaximizingSteps cell) (Z.of_nat m) no_max_step ∧
      mins1 = vresize (MinimizingSteps cell) (Z.of_nat (S m)) new_min_step ∧
      (∀ c, enabled bp2 c ↔ last_bin bg c)) ∨
     (∀ c, enabled bp2 c ↔ enabled bg c) ∧ min_usable n fs lbins bg e maxs mins1 0)).
  { destruct Hmode as [(-> & -> & ->)|(-> & _ & Hu)].
    - destruct (SetBinEnabled_spec fs lbg e false Hvl He) as (bp2 & -> & Hvp & _ & Hen' & _).
      exists bp2. split_and!; [done|done|left]. split_and!; [done|done|]. intros c. rewrite Hen'.
      case_decide as Hc; [subst|apply Henl]. split; [done|]. by intros Hc%Hlen.
    - destruct (disable_eval bg1 e (enabled bg) Hv1 He Hen1 Hne) as (bp2 & -> & Hvp & Hen').
      exists bp2. split_and!; [done|done|by right]. }
  destruct Hbp as (bp2 & -> & Hvp2 & Hmode2). rewrite bind_Ret.
  destruct (disable_eval bg1 e (enabled bg) Hv1 He Hen1 Hne) as (bg2 & -> & Hv2 & Hen2). rewrite bind_Ret.
  destruct (start_calculator_spec bg2 e Hv2 He) as (cmi2 & -> & Hh2); [lia|]. rewrite bind_Ret.
  destruct (cached_min_loop n fs lbins Hn Hn31 Hfs Hlbins bg e m Hv He Hcount Hbudget Hlast Hlen E0
    _ _ HE0' Hmax0 Hmin0 (length_vresize _ _ _) (length_vresize _ _ _) bg1 lbg Hen1 Henl
    maxs Hlm Hset bg2 bp2 mins1 cmi2 Hv2 Hvp2 Hen2 Hln Hmode2 Hh2)
    as (bg' & bp' & mins & cmi3 & -> & Hln' & Hset' & Hval). rewrite bind_Ret, Hval, bind_Ret.
  destruct (lookup_lt_is_Some_2 mins m) as [s Hs]; [lia|].
  rewrite (last_step_score e m maxs mins s Hlm Hln' Hs (proj2 (proj2 (proj1 (Hset' m s ltac:(lia) Hs))))).
  eexists _, s. split_and!; [done|done|done| | |done].
  - split_and!; cbn [MaximizingSteps MinimizingSteps]; [| |lia]; intros j t Hj.
    + apply Hset; [|done]. apply lookup_lt_Some in Hj. lia.
    + apply Hset'; [|done]. apply lookup_lt_Some in Hj. lia.
  - cbn. rewrite last_lookup, Hln'. done.
Qed.

(** *** A sequence of evaluations *)

(** A feature is enabled, then the bin [e] is evaluated. *)
Definition evaluate_after (e step_count : Z) (st : TBackground * TBinScore R) (feature : Z)
    : outcome (TBackground * TBinScore R) :=
  bg ← SetFeatureEnabled st.1 feature true;
  cell ← evaluate_cell label entropy bg e step_count (Ret st.2);
  Ret (bg, cell).

Definition empty_cell : TBinScore R := {| Score := 0%R; MaximizingSteps := []; MinimizingSteps := [] |}.

Lemma empty_cell_inv old E0 e : cell_inv old E0 e empty_cell.
Proof. by split_and!; [| |cbn; lia]. Qed.

Definition sequence_inv (e : Z) (m : nat) (done : list Z) (st : TBackground * TBinScore R) : Prop :=
  valid_bg fs st.1 ∧ (∀ b, enabled st.1 b ↔ ∃ f, f ∈ done ∧ in_feature fs f b) ∧
  cell_inv (enabled st.1) (enabled st.1) e st.2 ∧
  (done = [] ∧ st.2 = empty_cell ∨
   length (MaximizingSteps st.2) = m ∧ length (MinimizingSteps st.2) = S m ∧
   ∃ last, list.last (MinimizingSteps st.2) = Some last ∧ Score st.2 = (Cmi last / entropy)%R).

Lemma evaluate_after_spec e m done f st :
  0 ≤ e < bins → vsize lbins + 2 * Z.of_nat (S m) < 64 →
  Forall (selectable fs e) (done ++ [f]) → f ∉ done →
  (∃ f0, f0 ∈ done ++ [f] ∧ Z.of_nat (S m) ≤ fstart fs (f0 + 1) - fstart fs f0) →
  sequence_inv e m done st →
  ∃ st', evaluate_after e (Z.of_nat (S m)) st f = Ret st' ∧ sequence_inv e m (done ++ [f]) st'.
Proof.
  intros He Hbudget Hsel Hnew (f0 & Hf0 & Hsize) (Hv & Hen & Hcell & Hsteps).
  destruct st as [bg cell]; cbn [fst snd] in *. unfold evaluate_after; cbn [fst snd].
  rewrite Forall_forall in Hsel.
  destruct (Hsel f) as (Hf & _ & Hbins); [apply elem_of_app; right; by left|].
  destruct (SetFeatureEnabled_spec fs bg f true Hv Hf) as (bg' & -> & Hv' & _ & Hen1 & Hlast).
  rewrite bind_Ret.
  assert (Hen' : ∀ b, enabled bg' b ↔ ∃ g, g ∈ done ++ [f] ∧ in_feature fs g b).
  { intros b. rewrite Hen1. setoid_rewrite elem_of_app. setoid_rewrite list_elem_of_singleton.
    case_decide as Hb; [split; [exists f; auto|done]|]. rewrite Hen.
    split; [naive_solver|]. intros (g & [?| ->] & ?); [eauto|done]. }
  assert (Hl : ∀ c, last_bin bg' c ↔ in_feature fs f c) by (intros c; unfold last_bin; by rewrite Hlast).
  destruct (evaluate_cell_spec bg' e m (enabled bg) (enabled bg) cell) as (r & s & -> & Hr1 & Hr2 & Hr3 & Hr4 & Hr5);
    try done.
  - intros (g & Hg & Hin)%Hen'. destruct (Hsel g Hg) as (_ & Hn' & _). done.
  - apply (enabled_count fs bg' f0); [done|]. intros b Hb. apply Hen'. eauto.
  - exists (fstart fs f). apply Hl. split; [lia|done].
  - intros c Hc%Hl. apply Hen'. exists f. split; [apply elem_of_app; right; by left|done].
  - intros c Hc. split.
    + apply Hen'. apply Hen in Hc as (g & Hg & Hin). exists g. split; [apply elem_of_app; by left|done].
    + intros Hc'%Hl. apply Hen in Hc as (g & Hg & Hin).
      rewrite (feature_of_bin_unique fs c g f) in Hg; done.
  - destruct Hsteps as [[_ ->]|(-> & _)]; cbn; lia.
  - destruct Hsteps as [[_ ->]|(_ & -> & _)]; cbn; lia.
  - destruct Hsteps as [[-> _]|(? & ? & _)]; [right|by left]. intros c (g & Hg & _)%Hen. by apply elem_of_nil in Hg.
  - rewrite bind_Ret. eexists. split; [done|]. split_and!; cbn [fst snd]; [done|done| |right; eauto].
    destruct Hr3 as (H1 & H2 & H3). split_and!; [| |done]; intros j t Hj.
    + destruct (H1 j t Hj) as [Hv1 Hb1]. split; [done|]. intros c Hc. apply Hb1.
      rewrite Hl. rewrite Hen1 in Hc. case_decide as Hcf; [by right|by left].
    + destruct (H2 j t Hj) as [Hv2 Hb2]. split; [done|]. intros c Hc. apply Hb2.
      rewrite Hl. rewrite Hen1 in Hc. case_decide as Hcf; [by right|by left].
Qed.

(** The evaluated bin as a condition leaves no information. *)
Lemma max_information_self e prev : max_information n fs lbins e prev e = 0%R.
Proof.
  unfold max_information. set (f := max_feed fs lbins e prev ++ [(VCondition, bin_at fs e)]).
  assert (Hsnd : ∀ b, (VSecond, b) ∈ f → b = bin_at fs e).
  { intros b. unfold f, max_feed, eval_feed, label_feed. rewrite !elem_of_app.
    intros [[[Hb|Hb]|Hb]|Hb].
    - by apply list_elem_of_fmap in Hb as (? & [=] & _).
    - by apply list_elem_of_singleton in Hb as [= ->].
    - by apply list_elem_of_fmap in Hb as (? & [=] & _).
    - by apply list_elem_of_singleton in Hb. }
  assert (Hcond : (VCondition, bin_at fs e) ∈ f) by (apply elem_of_app; right; by left).
  unfold cmi_of_feed, cmi. destruct (joint_entropies n f) as (<- & <- & <-).
  rewrite (bins_entropy_mem n (bins_of is_any f) (bins_of not_second f)).
  - rewrite (bins_entropy_mem n (bins_of not_first f) (bins_of is_condition f)).
    + unfold bins_entropy. lra.
    + intros b. rewrite !elem_of_bins_of. split; [|intros ([] & Hv & ?); try done; by exists VCondition].
      intros ([] & Hv & Hb); [done| |by exists VCondition]. apply Hsnd in Hb as ->. by exists VCondition.
  - intros b. rewrite !elem_of_bins_of. split; [|intros (v & Hv & ?); by exists v].
    intros ([] & Hv & Hb); [by exists VFirst| |by exists VCondition].
    apply Hsnd in Hb as ->. by exists VCondition.
Qed.

(** The steps of the cell satisfy the specification of the greedy searches. *)
Lemma cell_best_steps bg e i cell :
  valid_bg fs bg → in_feature fs i e → (∀ b, enabled bg b → ¬ in_feature fs i b) →
  cell_inv (enabled bg) (enabled bg) e cell →
  best_steps Rgt (max_cands fs bg e) (max_information n fs lbins e) (MaximizingSteps cell) ∧
  best_steps Rlt (min_cands fs bg i) (min_information n fs lbins e (MaximizingSteps cell)) (MinimizingSteps cell).
Proof.
  intros Hv Hi Hdis (Hmax & Hmin & _).
  assert (Hrange : ∀ b, enabled bg b → 0 ≤ b < bins) by (intros b; by apply enabled_range).
  assert (He : 0 ≤ e < bins).
  { unfold in_feature in Hi. pose proof (fstart_nonneg fs i). pose proof (fstart_le_size fs (i + 1)). lia. }
  assert (Hc1 : ∀ c, c ∈ max_cands fs bg e ↔ c = e ∨ enabled bg c).
  { intros c. unfold max_cands. rewrite list_elem_of_filter, elem_of_xrange. naive_solver. }
  assert (Hc2 : ∀ c, c ∈ min_cands fs bg i ↔ enabled bg c).
  { intros c. unfold min_cands. rewrite list_elem_of_filter, elem_of_xrange.
    split; [tauto|]. intros Hc. split; [split; [by apply Hdis|done]|by apply Hrange]. }
  split; intros k s Hk prev.
  - destruct (Hmax k s Hk) as [(H1 & H2 & H3) Hb]. split_and!; [by apply Hc1|done|done|].
    intros c [->|Hc]%Hc1 Hn'; [|by apply Hb]. subst prev. change (BinIndex <$> take k _) with (before (MaximizingSteps cell) k).
    rewrite max_information_self, H3. pose proof (cmi_of_feed_bounds n
      (max_feed fs lbins e (before (MaximizingSteps cell) k) ++ [(VCondition, bin_at fs (BinIndex s))]) Hn) as Hbd.
    unfold max_information. lra.
  - destruct (Hmin k s Hk) as [(H1 & H2 & H3) Hb]. split_and!; [by apply Hc2|done|done|].
    intros c Hc%Hc2 Hn'. by apply Hb.
Qed.

End Cell.

(** C6: [TCachingBinScorer] (exact arithmetic).  Take a bin [e] whose cell is empty,
    and enable features one after the other, each followed by an evaluation of
    [e] with the same number of steps, which the first feature has enough bins
    for.  All evaluations return, and although each searches the bins enabled
    last first and reuses what is cached, the last one returns what the uncached
    scorer promises for the final background: maximizing and minimizing steps
    that are greedy searches among all the enabled bins, and as score the last
    minimizing value, divided by the entropy of the label. *)
Theorem caching_scorer_correct (n : nat) (fs : list (list TBin)) (label : TBinFeatureSet) (entropy : R)
    (e step_count first : Z) (rest : list Z)
    (Hn : (0 < n)%nat) (Hn31 : Z.of_nat n < 2 ^ 31)
    (Hfs : Forall (λ bin, length bin = n) (concat fs))
    (Hlabel : Forall (λ bin, length bin = n) (Bins label)) (Hne : Bins label ≠ [])
    (He : 0 ≤ e < vsize (concat fs))
    (Hsel : Forall (selectable fs e) (first :: rest)) (Hdup : NoDup (first :: rest))
    (Hcount : 1 ≤ step_count ≤ fstart fs (first + 1) - fstart fs first)
    (Hbudget : vsize (Bins label) + 2 * step_count < 64) :
  ∃ bg r last i,
    mfold (evaluate_after label entropy e step_count)
      (DisableAll (background (feature_set_of fs)), empty_cell) (first :: rest) = Ret (bg, r) ∧
    (∀ b, b ∈ EnabledBinIndexes bg ↔ ∃ f, f ∈ first :: rest ∧ fstart fs f ≤ b < fstart fs (f + 1)) ∧
    fstart fs i ≤ e < fstart fs (i + 1) ∧
    vsize (MaximizingSteps r) = step_count - 1 ∧
    best_steps Rgt (max_cands fs bg e) (max_information n fs (Bins label) e) (MaximizingSteps r) ∧
    vsize (MinimizingSteps r) = step_count ∧
    best_steps Rlt (min_cands fs bg i) (min_information n fs (Bins label) e (MaximizingSteps r))
      (MinimizingSteps r) ∧
    list.last (MinimizingSteps r) = Some last ∧ Score r = (Cmi last / entropy)%R.
Proof.
  destruct (Z_of_nat_complete (step_count - 1)) as [m Hm]; [lia|].
  assert (step_count = Z.of_nat (S m)) as -> by lia.
  destruct (rep_feature_of_bin (feature_set_of fs) fs (rep_feature_set_of fs) e He) as (i & _ & Hir & Hi).
  destruct (mfold_inv (sequence_inv n fs (Bins label) entropy e m)
    (evaluate_after label entropy e (Z.of_nat (S m))) (first :: rest)
    (DisableAll (background (feature_set_of fs)), empty_cell)) as ([bg r] & -> & Hinv).
  - split_and!; cbn [fst snd]; [apply fill_all_valid, background_valid, rep_feature_set_of| | |by left].
    + intros b. split; [by intros ?%DisableAll_enabled|]. intros (f & Hf & _). by apply elem_of_nil in Hf.
    + by apply empty_cell_inv.
  - intros done f tl st Hx Hinv. rewrite Hx in Hsel, Hdup. apply Forall_app in Hsel as [Hs1 Hs2].
    apply Forall_cons in Hs2 as [Hs2 _]. apply NoDup_app in Hdup as (_ & Hd & _).
    apply evaluate_after_spec; try done.
    + apply Forall_app. split; [done|by apply Forall_cons].
    + intros Hf. apply (Hd f Hf). by left.
    + exists first. split; [|lia]. destruct done as [|g done]; injection Hx as <- _; by left.
  - destruct Hinv as (Hv & Hen & Hcell & Hst). cbn [fst snd] in *.
    destruct Hst as [[[=] _]|(Hl1 & Hl2 & last & Hlast & Hscore)].
    destruct (cell_best_steps n fs (Bins label) Hn Hlabel Hne label eq_refl bg e i r) as [Hb1 Hb2]; [done|done| |done|].
    { intros b (f & Hf & Hb)%Hen Hbi. rewrite Forall_forall in Hsel. destruct (Hsel f Hf) as (_ & Hnf & _).
      apply Hnf. by rewrite (feature_of_bin_unique fs b f i). }
    exists bg, r, last, i. destruct Hi. split_and!; try done.
    + intros b. rewrite elem_of_EnabledBinIndexes. apply Hen.
    + unfold vsize. rewrite Hl1. lia.
    + unfold vsize. by rewrite Hl2.
Qed.

(** A third feature for the sample. *)
Definition sample_features3 : list (list TBin) := sample_features ++ [[[true; true; true; false]]].

Example caching_scorer_correct_witness :
  let fs := sample_features3 in let label := feature_set_of_bins sample_label in
  ∃ bg r last i,
    mfold (evaluate_after label 1%R 0 2)
      (DisableAll (background (feature_set_of fs)), empty_cell) [1; 2] = Ret (bg, r) ∧
    (∀ b, b ∈ EnabledBinIndexes bg ↔ ∃ f, f ∈ [1; 2] ∧ fstart fs f ≤ b < fstart fs (f + 1)) ∧
    fstart fs i ≤ 0 < fstart fs (i + 1) ∧
    vsize (MaximizingSteps r) = 2 - 1 ∧
    best_steps Rgt (max_cands fs bg 0) (max_information 4 fs (Bins label) 0) (MaximizingSteps r) ∧
    vsize (MinimizingSteps r) = 2 ∧
    best_steps Rlt (min_cands fs bg i) (min_information 4 fs (Bins label) 0 (MaximizingSteps r))
      (MinimizingSteps r) ∧
    list.last (MinimizingSteps r) = Some last ∧ Score r = (Cmi last / 1)%R.
Proof.
  intros fs label. apply caching_scorer_correct; try lia.
  - repeat constructor.
  - repeat constructor.
  - done.
  - by vm_compute.
  - repeat constructor; try (by vm_compute); intros [? ?]; by vm_compute in *.
  - by apply (bool_decide_unpack (NoDup [1; 2])).
  - by vm_compute.
  - by vm_compute.
Defined.
