(* ===== verification/Selection.v ===== *)
(** * Feature selection: [cmicot/lib/selection.h/.cpp]

    Both selections start with the feature of the bin that has the largest mutual
    information with the label, and then enable, one after the other, the feature
    of the disabled bin with the largest score.  The callback
    [onFeatureSelected] is called as the features are found: the models return
    the features it received together with the outcome, so that the features
    selected before a failure are part of the result.

    [FastFeatureSelection] evaluates the disabled bins in parallel with one
    [TCachingBinScorer].  The tasks of one round work on different cells of the
    cache, so by [Parallel.pool_schedule_independent] the round is the parallel
    loop over the cells followed by the stores of the new cells. *)
From Stdlib Require Import Reals Lra.
From S2P Require Import Prelude Arith XRange Algorithm HashTable HashMap Info BinFeatureSet Entropy Cmi Parallel Score ScoreSpec CachingScorer.

Open Scope Z_scope.

Section Selection.
  Context `{Arith D}.

Definition GetBinWithMaximalMutualInformationWithLabel (label features : TBinFeatureSet)
    (thread_count : Z) : outcome Z :=
  front ← vfront (Bins label);
  mi_calc ← mfold mi_AddFirstVariableBin (mutual_information_calculator (vsize front)) (Bins label);
  let kernel bin_index :=
    bin ← GetBin features bin_index; GetValueWithSecondVariableBin mi_calc bin in
  i ← ParallelMaxElementBy (AllBinIndexes features) kernel thread_count;
  deref (AllBinIndexes features) i.

(** The first feature: the background with it enabled, and its index. *)
Definition select_first (label features : TBinFeatureSet) (thread_count : Z)
    : outcome (TBackground * Z) :=
  let bg := DisableAll (background features) in
  best_bin ← GetBinWithMaximalMutualInformationWithLabel label features thread_count;
  best_feature ← GetFeatureIndexByBinIndex features best_bin;
  bg ← SetFeatureEnabled bg best_feature true;
  Ret (bg, best_feature).

(** A loop of [n] passes, each of which selects a feature: the features selected
    and the outcome. *)
Fixpoint select_loop {S} (pass : S → outcome (S * Z)) (n : nat) (s : S) : list Z * outcome S :=
  match n with
  | O => ([], Ret s)
  | Datatypes.S n =>
      match pass s with
      | Fail f => ([], Fail f)
      | Ret (s, feature) => let '(selected, r) := select_loop pass n s in (feature :: selected, r)
      end
  end.

(** The scores of the disabled bins, and the scorer with the new cells. *)
Definition evaluate_bins (scorer : TCachingBinScorer D) (bg : TBackground) (bins : list Z)
    (step_count thread_count : Z) : outcome (TCachingBinScorer D * list D) :=
  cells ← ParallelForEach (λ bin_index,
    evaluate_cell (ScorerLabel scorer) (ScorerLabelEntropy scorer) bg bin_index step_count
      (vat (Cache scorer) bin_index)) bins thread_count;
  cache ← mfold (λ cache bc, vset cache bc.1 bc.2) (Cache scorer) (zip bins cells);
  Ret ({| ScorerLabel := ScorerLabel scorer; Cache := cache;
          ScorerLabelEntropy := ScorerLabelEntropy scorer |}, Score <$> cells).

(** One pass of the loop of [FastFeatureSelection]. *)
Definition fast_pass (features : TBinFeatureSet) (eval_step_count thread_count : Z)
    (s : TBackground * TCachingBinScorer D) : outcome ((TBackground * TCachingBinScorer D) * Z) :=
  let '(bg, scorer) := s in
  let disabled_bins := DisabledBinIndexes bg in
  let step_count := Z.min (vsize (EnabledBinIndexes bg)) eval_step_count in
  '(scorer, scores) ← evaluate_bins scorer bg disabled_bins step_count thread_count;
  best_iter ← ExtremeElementBy a_gtb scores Ret;
  _ ← verify (negb (best_iter =? vsize disabled_bins)) VNoCandidate;
  best_bin ← deref disabled_bins best_iter;
  best_feature ← GetFeatureIndexByBinIndex features best_bin;
  bg ← SetFeatureEnabled bg best_feature true;
  Ret ((bg, scorer), best_feature).

Definition FastFeatureSelection (label features : TBinFeatureSet)
    (eval_step_count thread_count feature_count : Z) : list Z * outcome () :=
  match select_first label features thread_count with
  | Fail f => ([], Fail f)
  | Ret (bg, first) =>
      match caching_bin_scorer label (GetBinCount features) with
      | Fail f => ([first], Fail f)
      | Ret scorer =>
          let features_to_select_count := Z.min feature_count (GetFeatureCount features) - 1 in
          let '(selected, r) := select_loop (fast_pass features eval_step_count thread_count)
                                  (Z.to_nat features_to_select_count) (bg, scorer) in
          (first :: selected, _ ← r; Ret ())
      end
  end.

(** The kernel of [FeatureSelection], which builds a scorer for every bin. *)
Definition slow_kernel (label : TBinFeatureSet) (eval_step_count thread_count : Z) (bg : TBackground)
    (bin_index : Z) : outcome D :=
  let step_count := Z.min (vsize (EnabledBinIndexes bg)) eval_step_count in
  scorer ← BuildBinScorerForEval label (step_count - 1) step_count thread_count;
  r ← scorer bg bin_index;
  Ret (Score r).

(** One pass of its loop. *)
Definition slow_pass (label features : TBinFeatureSet) (eval_step_count thread_count : Z)
    (bg : TBackground) : outcome (TBackground * Z) :=
  let disabled_bins := DisabledBinIndexes bg in
  best_iter ← MaxElementBy disabled_bins (slow_kernel label eval_step_count thread_count bg);
  best_bin ← deref disabled_bins best_iter;
  best_feature ← GetFeatureIndexByBinIndex features best_bin;
  bg ← SetFeatureEnabled bg best_feature true;
  Ret (bg, best_feature).

Definition FeatureSelection (label features : TBinFeatureSet) (eval_step_count thread_count : Z)
    : list Z * outcome () :=
  match select_first label features thread_count with
  | Fail f => ([], Fail f)
  | Ret (bg, first) =>
      let '(selected, r) := select_loop (slow_pass label features eval_step_count thread_count)
                              (Z.to_nat (GetFeatureCount features - 1)) bg in
      (first :: selected, _ ← r; Ret ())
  end.

(** The overload that returns the vector of the features. *)
Definition FeatureSelection_vector (label features : TBinFeatureSet) (eval_step_count thread_count : Z)
    : outcome (list Z) :=
  let '(selected, r) := FeatureSelection label features eval_step_count thread_count in
  _ ← r; Ret selected.

End Selection.

(** ** The loop *)

Lemma select_loop_spec {S} (pass : S → outcome (S * Z)) (I : list Z → S → Prop) (N : nat) :
  (∀ done s, I done s → (length done < N)%nat → ∃ s' f, pass s = Ret (s', f) ∧ I (done ++ [f]) s') →
  ∀ k done s, I done s → (length done + k ≤ N)%nat →
  ∃ l s', select_loop pass k s = (l, Ret s') ∧ length l = k ∧ I (done ++ l) s'.
Proof.
  intros Hpass k. induction k as [|k IH]; intros done s HI Hk; cbn.
  - exists [], s. by rewrite app_nil_r.
  - destruct (Hpass done s HI) as (s1 & f & -> & HI1); [lia|].
    destruct (IH (done ++ [f]) s1 HI1) as (l & s2 & -> & Hl & HI2); [rewrite length_app; cbn; lia|].
    exists (f :: l), s2. rewrite <- app_assoc in HI2. split_and!; [done|cbn; lia|done].
Qed.

(** ** Selected features *)

Section Selected.
  Context (fs : list (list TBin)).
  Hypothesis Hbins : Forall (λ f, f ≠ []) fs.
  Context (features : TBinFeatureSet).
  Hypothesis Hrep : rep features fs.

(** The features of [done] are different, and exactly their bins are enabled. *)
Definition selected_inv (done : list Z) (bg : TBackground) : Prop :=
  valid_bg fs bg ∧ (∀ b, enabled bg b ↔ ∃ f, f ∈ done ∧ in_feature fs f b) ∧
  NoDup done ∧ Forall (λ f, 0 ≤ f < vsize fs) done.

Lemma in_feature_range f b : in_feature fs f b → 0 ≤ b < vsize (concat fs).
Proof.
  unfold in_feature. pose proof (fstart_nonneg fs f). pose proof (fstart_le_size fs (f + 1)). lia.
Qed.

Lemma feature_nonempty f : 0 ≤ f < vsize fs → in_feature fs f (fstart fs f).
Proof.
  intros Hf. destruct (lookup_lt_is_Some_2 fs (Z.to_nat f)) as [bs Hbs]; [vlia|].
  unfold in_feature. rewrite (fstart_S fs f bs) by (done || lia).
  assert (bs ≠ []) as Hne by exact (Forall_lookup_1 _ fs _ bs Hbins Hbs).
  destruct bs; [done|]. rewrite vsize_cons. pose proof (vsize_nonneg bs). lia.
Qed.

Lemma disabled_all_inv : selected_inv [] (DisableAll (background features)).
Proof.
  split_and!; [by apply fill_all_valid, background_valid| |constructor|constructor].
  intros b. split; [by intros ?%DisableAll_enabled|]. intros (f & Hf & _). by apply elem_of_nil in Hf.
Qed.

(** While some feature is not selected, some bin is disabled. *)
Lemma disabled_nonempty done bg :
  selected_inv done bg → vsize done < vsize fs → DisabledBinIndexes bg ≠ [].
Proof.
  intros (Hv & Hen & Hnd & Hr) Hlt.
  destruct (remaining (xrange (vsize fs)) done) as [|f l] eqn:Hrem.
  - exfalso. apply (remaining_nonempty (xrange (vsize fs)) done); [| |done].
    + rewrite xrange_seqZ. apply NoDup_seqZ.
    + rewrite xrange_seqZ. unfold vsize in *. rewrite length_seqZ. lia.
  - assert (Hf : f ∈ remaining (xrange (vsize fs)) done) by (rewrite Hrem; by left).
    apply list_elem_of_filter in Hf as [Hn Hf%elem_of_xrange].
    pose proof (feature_nonempty f Hf) as Hin. apply (not_nil_elem _ (fstart fs f)).
    apply (elem_of_DisabledBinIndexes fs); [done|]. split; [by eapply in_feature_range|].
    intros (g & Hg & Hgin)%Hen. apply Hn. by rewrite (feature_of_bin_unique fs (fstart fs f) f g).
Qed.

(** Selecting the feature of a disabled bin. *)
Lemma select_bin done bg b :
  selected_inv done bg → 0 ≤ b < vsize (concat fs) → ¬ enabled bg b →
  ∃ f bg', GetFeatureIndexByBinIndex features b = Ret f ∧ in_feature fs f b ∧
    SetFeatureEnabled bg f true = Ret bg' ∧ selected_inv (done ++ [f]) bg' ∧
    (∀ c, last_bin bg' c ↔ in_feature fs f c) ∧ (∀ c, in_feature fs f c → ¬ enabled bg c).
Proof.
  intros (Hv & Hen & Hnd & Hr) Hb Hnb.
  destruct (rep_feature_of_bin features fs Hrep b Hb) as (f & -> & Hf & Hin).
  destruct (SetFeatureEnabled_spec fs bg f true Hv Hf) as (bg' & Hset & Hv' & _ & Hen' & Hlast).
  assert (Hnew : ∀ c, in_feature fs f c → ¬ enabled bg c).
  { intros c Hc (g & Hg & Hgc)%Hen. apply Hnb, Hen. exists g. split; [done|].
    by rewrite (feature_of_bin_unique fs c g f). }
  exists f, bg'. split_and!; try done; try apply Hin.
  - split_and!; [done| | |apply Forall_app; split; [done|by apply Forall_singleton]].
    + intros c. rewrite Hen'. setoid_rewrite elem_of_app. setoid_rewrite list_elem_of_singleton.
      case_decide as Hc; [split; [exists f; auto|done]|]. rewrite Hen.
      split; [naive_solver|]. intros (g & [?| ->] & ?); [eauto|done].
    + apply NoDup_app. split_and!; [done| |apply NoDup_singleton].
      intros g Hg ->%list_elem_of_singleton. apply (Hnew b); [done|]. apply Hen. eauto.
  - intros c. unfold last_bin. by rewrite Hlast.
Qed.

(** Some bins are enabled once a feature is selected. *)
Lemma enabled_nonempty done bg f :
  selected_inv done bg → f ∈ done → 1 ≤ vsize (EnabledBinIndexes bg).
Proof.
  intros (Hv & Hen & _ & Hr) Hf. rewrite Forall_forall in Hr.
  apply (enabled_count fs bg f); [|intros b Hb; apply Hen; eauto].
  pose proof (feature_nonempty f (Hr f Hf)) as Hin. unfold in_feature in Hin. lia.
Qed.

Lemma disabled_bin done bg b :
  selected_inv done bg → b ∈ DisabledBinIndexes bg → 0 ≤ b < vsize (concat fs) ∧ ¬ enabled bg b.
Proof. intros (Hv & _) Hb. by apply (elem_of_DisabledBinIndexes fs) in Hb. Qed.

End Selected.

(** ** The first feature *)

Section First.
  Context `{Arith D}.
  Context (n : nat) (fs : list (list TBin)) (label features : TBinFeatureSet).
  Hypothesis Hn : (0 < n)%nat.
  Hypothesis Hfs : Forall (λ bin, length bin = n) (concat fs).
  Hypothesis Hlabel : Forall (λ bin, length bin = n) (Bins label).
  Hypothesis Hne : Bins label ≠ [].
  Hypothesis Hrep : rep features fs.
  Hypothesis Hk : vsize (Bins label) < 63.

(** The value of a bin in the first search. *)
Definition first_value (b : Z) : outcome D :=
  mi ← mfold mi_AddFirstVariableBin (mutual_information_calculator (Z.of_nat n)) (Bins label);
  GetValueWithSecondVariableBin mi (bin_at fs b).

Lemma mi_value_returns bins c bin :
  encodes n bins (First c) → length bin = n → vsize bins < 63 →
  ∃ v : D, GetValueWithSecondVariableBin c bin = Ret v.
Proof.
  intros Henc Hbin Hlt. unfold GetValueWithSecondVariableBin.
  destruct (GetEntropy_counts (D := D) n bins (First c) Henc Hn) as (c1 & _ & ->); [apply not_full_range; lia|].
  destruct (Entropy_values_counts (D := D) (FlattenBins [] [ABin bin])) as (c2 & _ & Hc2).
  destruct (GetEntropyWithExtraBin_counts (D := D) n bins (First c) bin Henc Hbin Hn Hlt) as (c3 & _ & ->).
  unfold Entropy. rewrite Hc2. rewrite !bind_Ret. eauto.
Qed.

Lemma first_bin_spec tc :
  concat fs ≠ [] →
  ∃ b v, GetBinWithMaximalMutualInformationWithLabel (D := D) label features tc = Ret b ∧
    0 ≤ b < vsize (concat fs) ∧ picks a_gtb (xrange (vsize (concat fs))) first_value b v.
Proof.
  intros Hbins. unfold GetBinWithMaximalMutualInformationWithLabel.
  assert (Hfront : ∃ x, vfront (Bins label) = Ret x ∧ vsize x = Z.of_nat n).
  { destruct (Bins label) as [|x l]; [done|]. exists x. split; [done|].
    apply Forall_cons in Hlabel as [Hx _]. unfold vsize. by rewrite Hx. }
  destruct Hfront as (x & -> & Hx). rewrite bind_Ret, Hx.
  destruct (mi_add_bins_spec n [] (Bins label) (mutual_information_calculator (Z.of_nat n)))
    as (c & Hc & Henc); [apply entropy_calculator_encodes|done|rewrite vsize_nil; lia|]. cbn [app] in Henc.
  rewrite Hc, bind_Ret. unfold AllBinIndexes. pose proof (rep_bin_count features fs Hrep) as Hbc.
  unfold GetBinCount in Hbc. rewrite Hbc.
  assert (Hval : ∀ b, b ∈ xrange (vsize (concat fs)) →
    (bin ← GetBin features b; GetValueWithSecondVariableBin (D := D) c bin) = first_value b).
  { intros b Hb%elem_of_xrange. destruct (GetBin_at n fs Hfs features b Hrep Hb) as [-> _].
    unfold first_value. by rewrite Hc. }
  destruct (search_spec (D := D) a_gtb (xrange (vsize (concat fs))) first_value tc) as (i & b & v & Hi & Hd & Hv & Hp).
  - apply (not_nil_elem _ 0), elem_of_xrange. split; [done|].
    by apply vsize_pos.
  - intros b Hb%elem_of_xrange. unfold first_value. rewrite Hc, bind_Ret.
    apply (mi_value_returns (Bins label)); [done|by apply bin_at_size|done].
  - exists b, v. unfold ParallelMaxElementBy.
    assert (Hpar : ParallelExtremeElementBy a_gtb (xrange (vsize (concat fs)))
      (λ b, bin ← GetBin features b; GetValueWithSecondVariableBin (D := D) c bin) tc =
      ParallelExtremeElementBy a_gtb (xrange (vsize (concat fs))) first_value tc).
    { unfold ParallelExtremeElementBy, ParallelForEach. do 2 f_equal. apply list_fmap_ext.
      intros k b' Hb'. apply Hval. by eapply list_elem_of_lookup_2. }
    rewrite Hpar, Hi, bind_Ret. split_and!; [done|..]; [| |done];
      apply picks_cand, elem_of_xrange in Hp; lia.
Qed.

Hypothesis Hbins : Forall (λ f, f ≠ []) fs.
Hypothesis Hsome : fs ≠ [].

Lemma select_first_spec tc :
  ∃ bg f b v, select_first (D := D) label features tc = Ret (bg, f) ∧ selected_inv fs [f] bg ∧
    (∀ c, last_bin bg c ↔ in_feature fs f c) ∧
    in_feature fs f b ∧ picks a_gtb (xrange (vsize (concat fs))) first_value b v.
Proof.
  assert (Hcne : concat fs ≠ []).
  { intros Hnil. assert (Hr : 0 ≤ 0 < vsize fs).
    { split; [done|]. by apply vsize_pos. }
    pose proof (in_feature_range fs 0 _ (feature_nonempty fs Hbins 0 Hr)) as Hb. rewrite Hnil in Hb.
    rewrite (@vsize_nil TBin) in Hb. lia. }
  unfold select_first. destruct (first_bin_spec tc Hcne) as (b & v & -> & Hb & Hp). rewrite bind_Ret.
  destruct (select_bin fs features Hrep [] (DisableAll (background features)) b) as (f & bg & -> & Hin & Hset & Hinv & Hlast & _);
    [by apply disabled_all_inv|done|apply DisableAll_enabled|].
  rewrite bind_Ret, Hset. exists bg, f, b, v. destruct Hin. by split_and!.
Qed.

End First.

(** ** The fast selection *)

Section Fast.
  Context (n : nat) (fs : list (list TBin)) (label features : TBinFeatureSet).
  Hypothesis Hn : (0 < n)%nat.
  Hypothesis Hn31 : Z.of_nat n < 2 ^ 31.
  Hypothesis Hfs : Forall (λ bin, length bin = n) (concat fs).
  Hypothesis Hlabel : Forall (λ bin, length bin = n) (Bins label).
  Hypothesis Hne : Bins label ≠ [].
  Hypothesis Hrep : rep features fs.
  Hypothesis Hbins : Forall (λ f, f ≠ []) fs.
  Hypothesis Hsome : fs ≠ [].
  Context (steps tc : Z) (entropy : R).
  Hypothesis Hsteps : 1 ≤ steps.
  Hypothesis Hbudget : vsize (Bins label) + 2 * steps < 64.
  (** Whether every feature has enough bins for all the steps. *)
  Context (enough : Prop).
  Hypothesis Henough : enough → ∀ f, 0 ≤ f < vsize fs → steps ≤ fstart fs (f + 1) - fstart fs f.

(** The steps of a round, and the bins enabled before the last feature. *)
Definition round_steps (bg : TBackground) : Z := Z.min (vsize (EnabledBinIndexes bg)) steps.
Definition old_bin (bg : TBackground) (c : Z) : Prop := enabled bg c ∧ ¬ last_bin bg c.
Definition searched (bg : TBackground) (c : Z) : Prop := enough ∧ old_bin bg c.

(** The cell of a disabled bin before a round. *)
Definition cell_ready (bg : TBackground) (b : Z) (cell : TBinScore R) : Prop :=
  cell_inv n fs (Bins label) (old_bin bg) (searched bg) b cell ∧
  vsize (MaximizingSteps cell) ≤ round_steps bg - 1 ∧ vsize (MinimizingSteps cell) ≤ round_steps bg ∧
  (vsize (MaximizingSteps cell) = round_steps bg - 1 ∧ vsize (MinimizingSteps cell) = round_steps bg ∨
   ∀ c, ¬ searched bg c).

Definition scorer_inv (bg : TBackground) (scorer : TCachingBinScorer R) : Prop :=
  ScorerLabel scorer = label ∧ ScorerLabelEntropy scorer = entropy ∧
  vsize (Cache scorer) = vsize (concat fs) ∧
  ∀ b cell, 0 ≤ b → Cache scorer !! Z.to_nat b = Some cell → ¬ enabled bg b → cell_ready bg b cell.

(** The cell of a disabled bin after a round; when the features have enough bins,
    its steps are the greedy searches of the uncached scorer. *)
Definition scored (bg : TBackground) (b : Z) (r : TBinScore R) : Prop :=
  ∃ last i, in_feature fs i b ∧
    vsize (MaximizingSteps r) = round_steps bg - 1 ∧ vsize (MinimizingSteps r) = round_steps bg ∧
    list.last (MinimizingSteps r) = Some last ∧ Score r = (Cmi last / entropy)%R ∧
    (enough →
       best_steps Rgt (max_cands fs bg b) (max_information n fs (Bins label) b) (MaximizingSteps r) ∧
       best_steps Rlt (min_cands fs bg i) (min_information n fs (Bins label) b (MaximizingSteps r))
         (MinimizingSteps r)).

(** A round selects the feature of a disabled bin with the largest score. *)
Definition round_ok (prev : list Z) (f : Z) : Prop :=
  ∃ bg (scores : Z → TBinScore R) best,
    (∀ b, enabled bg b ↔ ∃ g, g ∈ prev ∧ in_feature fs g b) ∧
    (∀ b, b ∈ DisabledBinIndexes bg → scored bg b (scores b)) ∧
    best ∈ DisabledBinIndexes bg ∧ in_feature fs f best ∧
    ∀ b, b ∈ DisabledBinIndexes bg → (Score (scores b) <= Score (scores best))%R.

Definition history_ok (done : list Z) : Prop :=
  ∀ k f, (0 < k)%nat → done !! k = Some f → round_ok (take k done) f.

Definition fast_inv (done : list Z) (s : TBackground * TCachingBinScorer R) : Prop :=
  selected_inv fs done s.1 ∧ scorer_inv s.1 s.2 ∧ history_ok done ∧
  ∃ f, f ∈ done ∧ ∀ c, last_bin s.1 c ↔ in_feature fs f c.

Lemma history_snoc done f : done ≠ [] → history_ok done → round_ok done f → history_ok (done ++ [f]).
Proof.
  intros Hd Hh Hf k g Hk Hg. destruct (decide (k < length done)%nat) as [Hlt|Hge].
  - rewrite lookup_app_l in Hg by done. rewrite take_app_le by lia. by apply Hh.
  - pose proof (lookup_lt_Some _ _ _ Hg) as Hl. rewrite length_app in Hl. cbn in Hl.
    assert (k = length done) as -> by lia. rewrite list_lookup_middle in Hg by done. injection Hg as <-.
    by rewrite take_app_length.
Qed.

(** Evaluating one disabled bin. *)
Lemma evaluate_disabled done bg scorer b :
  fast_inv done (bg, scorer) → b ∈ DisabledBinIndexes bg →
  ∃ r, evaluate_cell (ScorerLabel scorer) (ScorerLabelEntropy scorer) bg b (round_steps bg)
         (vat (Cache scorer) b) = Ret r ∧
    scored bg b r ∧ cell_inv n fs (Bins label) (enabled bg) (λ c, enough ∧ enabled bg c) b r.
Proof.
  intros (Hsel & (Hlab & Hent & Hsz & Hcells) & _ & f & Hf & Hlast) Hb. cbn [fst snd] in *.
  rewrite Hlab, Hent.
  pose proof Hsel as (Hv & Hen & _ & Hr).
  destruct (disabled_bin fs done bg b Hsel Hb) as [Hbr Hnb].
  destruct (vat_in_range (Cache scorer) b) as (cell & -> & Hcell); [lia|].
  destruct (Hcells b cell ltac:(lia) Hcell Hnb) as (Hinv & H1 & H2 & H3).
  pose proof (enabled_nonempty fs Hbins done bg f Hsel Hf) as Hcount.
  unfold round_steps in *. set (k := Z.min (vsize (EnabledBinIndexes bg)) steps) in *.
  destruct (Z_of_nat_complete (k - 1)) as [m Hm]; [lia|].
  assert (Hk : k = Z.of_nat (S m)) by lia. rewrite Hk.
  rewrite Forall_forall in Hr.
  destruct (evaluate_cell_spec n fs (Bins label) Hn Hn31 Hfs Hlabel Hne label entropy eq_refl bg b m
    (old_bin bg) (searched bg) cell) as (r & last & -> & Hl1 & Hl2 & Hri & Hlst & Hscore); try done.
  - lia.
  - lia.
  - exists (fstart fs f). apply Hlast. by apply (feature_nonempty fs Hbins), Hr.
  - intros c Hc%Hlast. apply Hen. eauto.
  - by intros c [_ ?].
  - unfold vsize in H1. lia.
  - unfold vsize in H2. lia.
  - destruct H3 as [[H3 H4]|H3]; [left; unfold vsize in *; lia|by right].
  - assert (Hall : cell_inv n fs (Bins label) (enabled bg) (λ c, enough ∧ enabled bg c) b r).
    { destruct Hri as (Hx & Hy & Hz). split_and!; [| |done]; intros j t Hj.
      - destruct (Hx j t Hj) as [Hx1 Hx2]. split; [done|]. intros c [Hc1 Hc2]. apply Hx2.
        destruct (decide ((LastEnabledBins bg).1 ≤ c < (LastEnabledBins bg).2)); [by right|by left].
      - destruct (Hy j t Hj) as [Hx1 Hx2]. split; [done|]. intros c [Hc1 Hc2]. apply Hx2.
        destruct (decide ((LastEnabledBins bg).1 ≤ c < (LastEnabledBins bg).2)); [by right|by left]. }
    exists r. split_and!; [done| |done].
    destruct (rep_feature_of_bin features fs Hrep b Hbr) as (i & _ & Hi & Hin).
    exists last, i. unfold round_steps. fold k. destruct Hin as [Hin1 Hin2].
    split_and!; try done; [unfold vsize; lia..|]. intros Henough'.
    apply (cell_best_steps n fs (Bins label) Hn Hlabel Hne label eq_refl bg b i r); [done|done| |].
    + intros c (g & Hg & Hgc)%Hen Hic. apply Hnb, Hen. exists g. split; [done|].
      by rewrite (feature_of_bin_unique fs c g i).
    + destruct Hall as (Hx & Hy & Hz). split_and!; [| |done]; intros j t Hj.
      * destruct (Hx j t Hj) as [Hx1 Hx2]. split; [done|]. intros c Hc. by apply Hx2.
      * destruct (Hy j t Hj) as [Hx1 Hx2]. split; [done|]. intros c Hc. by apply Hx2.
Qed.

Lemma cell_inv_mono (old old' E0 E0' : Z → Prop) b cell :
  (∀ c, old c → old' c) → (∀ c, E0' c → E0 c) →
  cell_inv n fs (Bins label) old E0 b cell → cell_inv n fs (Bins label) old' E0' b cell.
Proof.
  intros Hold HE0 (Hx & Hy & Hz). split_and!; [| |done]; intros j t Hj.
  - destruct (Hx j t Hj) as [Hv Hb]. split; [|intros c Hc; by apply Hb, HE0].
    apply (step_valid_weaken (λ c, c = b ∨ old c)); [|done]. intros c [?|?]; [by left|right; auto].
  - destruct (Hy j t Hj) as [Hv Hb]. split; [|intros c Hc; by apply Hb, HE0].
    by apply (step_valid_weaken old).
Qed.

(** Storing the new cells. *)
Lemma store_cells (bins : list Z) (cells cache : list (TBinScore R)) :
  NoDup bins → Forall (λ b, 0 ≤ b < vsize cache) bins → length bins = length cells →
  ∃ cache', mfold (λ cache bc, vset cache bc.1 bc.2) cache (zip bins cells) = Ret cache' ∧
    vsize cache' = vsize cache ∧
    (∀ b, 0 ≤ b → b ∉ bins → cache' !! Z.to_nat b = cache !! Z.to_nat b) ∧
    ∀ k b c, bins !! k = Some b → cells !! k = Some c → cache' !! Z.to_nat b = Some c.
Proof.
  revert cells cache. induction bins as [|b bins IH]; intros cells cache Hnd Hall Hlen.
  - exists cache. split_and!; [done|done|done|]. intros k b c Hk. by rewrite lookup_nil in Hk.
  - destruct cells as [|c cells]; [done|]. apply NoDup_cons in Hnd as [Hnb Hnd].
    apply Forall_cons in Hall as [Hb Hall]. cbn.
    rewrite (proj2 (vset_Ret cache b c _) (conj Hb eq_refl)), bind_Ret.
    destruct (IH cells (<[Z.to_nat b := c]> cache)) as (cache' & -> & Hsz & Hout & Hin);
      [done|by rewrite vsize_insert|cbn in Hlen; lia|].
    exists cache'. rewrite vsize_insert in Hsz. split_and!; [done|done| |].
    + intros x Hx Hn'. apply not_elem_of_cons in Hn' as [Hxb Hn'].
      rewrite Hout, list_lookup_insert_ne by (done || lia). done.
    + intros [|k] x y Hk Hy; cbn in Hk, Hy.
      * injection Hk as <-. injection Hy as <-. rewrite Hout by (done || lia).
        apply list_lookup_insert_eq. unfold vsize in Hb. lia.
      * by apply (Hin k).
Qed.

(** All the disabled bins. *)
Lemma evaluate_bins_spec done bg scorer :
  fast_inv done (bg, scorer) →
  ∃ scorer' cells, evaluate_bins scorer bg (DisabledBinIndexes bg) (round_steps bg) tc =
      Ret (scorer', Score <$> cells) ∧
    length cells = length (DisabledBinIndexes bg) ∧
    ScorerLabel scorer' = label ∧ ScorerLabelEntropy scorer' = entropy ∧
    vsize (Cache scorer') = vsize (concat fs) ∧
    ∀ k b r, DisabledBinIndexes bg !! k = Some b → cells !! k = Some r →
      Cache scorer' !! Z.to_nat b = Some r ∧ scored bg b r ∧
      cell_inv n fs (Bins label) (enabled bg) (λ c, enough ∧ enabled bg c) b r.
Proof.
  intros Hinv. pose proof Hinv as (Hsel & (Hlab & Hent & Hsz & _) & _). cbn [fst snd] in *.
  destruct (mmap_total (λ b, evaluate_cell (ScorerLabel scorer) (ScorerLabelEntropy scorer) bg b
    (round_steps bg) (vat (Cache scorer) b)) (DisabledBinIndexes bg)) as [cells Hcells].
  { intros b Hb. destruct (evaluate_disabled done bg scorer b Hinv Hb) as (r & Hr & _). eauto. }
  unfold evaluate_bins. rewrite (proj2 (ParallelForEach_Ret _ _ tc cells) Hcells), bind_Ret.
  pose proof (proj1 (mmap_Forall2 _ _ _) Hcells) as Hall. pose proof (Forall2_length _ _ _ Hall) as Hlen.
  destruct (store_cells (DisabledBinIndexes bg) cells (Cache scorer)) as (cache & -> & Hcsz & _ & Hstore).
  - apply NoDup_bins_with_flag.
  - apply Forall_forall. intros b Hb. rewrite Hsz. by apply (disabled_bin fs done bg b).
  - done.
  - rewrite bind_Ret. eexists _, cells. split; [done|]. cbn [ScorerLabel ScorerLabelEntropy Cache].
    split_and!; [done|done|done|lia|]. intros k b r Hb Hr. split; [by apply (Hstore k)|].
    destruct (evaluate_disabled done bg scorer b Hinv ltac:(by eapply list_elem_of_lookup_2))
      as (r' & Hr' & Hsc & Hci).
    pose proof (Forall2_lookup_lr _ _ _ _ _ _ Hall Hb Hr) as Heq. cbv beta in Heq.
    rewrite Hr' in Heq. injection Heq as ->. done.
Qed.

(** More bins are enabled after a pass. *)
Lemma enabled_count_mono bg bg' :
  (∀ c, enabled bg c → enabled bg' c) → vsize (EnabledBinIndexes bg) ≤ vsize (EnabledBinIndexes bg').
Proof.
  intros Hen. assert (Hsub : EnabledBinIndexes bg ⊆+ EnabledBinIndexes bg').
  { apply NoDup_submseteq; [apply NoDup_bins_with_flag|].
    intros c. rewrite !elem_of_EnabledBinIndexes. apply Hen. }
  apply submseteq_length in Hsub. unfold vsize. lia.
Qed.

(** The cell of a bin that stays disabled is ready for the next round. *)
Lemma next_ready done bg bg' f b r :
  selected_inv fs done bg → done ≠ [] → (∀ c, enabled bg' c ↔ enabled bg c ∨ in_feature fs f c) →
  (∀ c, last_bin bg' c ↔ in_feature fs f c) → (∀ c, in_feature fs f c → ¬ enabled bg c) →
  scored bg b r → cell_inv n fs (Bins label) (enabled bg) (λ c, enough ∧ enabled bg c) b r →
  cell_ready bg' b r.
Proof.
  intros Hsel Hd Hen' Hlast' Hnew (last & i & _ & Hl1 & Hl2 & _) Hci.
  assert (Hold : ∀ c, old_bin bg' c ↔ enabled bg c).
  { intros c. unfold old_bin. rewrite Hen', Hlast'. specialize (Hnew c). tauto. }
  assert (Hmono : vsize (EnabledBinIndexes bg) ≤ vsize (EnabledBinIndexes bg'))
    by (apply enabled_count_mono; intros c Hc; apply Hen'; by left).
  assert (Hround : round_steps bg ≤ round_steps bg') by (unfold round_steps; lia).
  split_and!; [|lia|lia|].
  - apply (cell_inv_mono (enabled bg) _ (λ c, enough ∧ enabled bg c)); [|unfold searched|done];
      intros c; rewrite Hold; tauto.
  - destruct (Z.le_gt_cases steps (vsize (EnabledBinIndexes bg))) as [Hle|Hgt].
    + left. unfold round_steps in *. lia.
    + right. intros c [Henough' _]. destruct done as [|g done]; [done|].
      destruct Hsel as (_ & Hen & _ & [Hg _]%Forall_cons).
      pose proof (enabled_count fs bg g steps (Henough Henough' g Hg)) as Hc.
      assert (steps ≤ vsize (EnabledBinIndexes bg)); [|lia].
      apply Hc. intros x Hx. apply Hen. exists g. split; [by left|done].
Qed.

Lemma fast_pass_spec done st :
  fast_inv done st → vsize done < vsize fs →
  ∃ st' f, fast_pass features steps tc st = Ret (st', f) ∧ fast_inv (done ++ [f]) st'.
Proof.
  destruct st as [bg scorer]. intros Hinv Hlt. pose proof Hinv as (Hsel & _ & Hhist & f0 & Hf0 & Hlast0).
  cbn [fst snd] in *. assert (Hd : done ≠ []) by (by eapply not_nil_elem).
  destruct (evaluate_bins_spec done bg scorer Hinv)
    as (scorer' & cells & Hev & Hlen & Hlab & Hent & Hsz & Hcells).
  pose proof (disabled_nonempty fs Hbins done bg Hsel Hlt) as Hdis.
  set (disabled := DisabledBinIndexes bg) in *.
  unfold fast_pass. fold disabled. change (Z.min _ steps) with (round_steps bg). rewrite Hev, bind_Ret.
  assert (Hscne : Score <$> cells ≠ []) by (by destruct cells, disabled).
  rewrite ExtremeElementBy_values, mmap_Ret_id, !bind_Ret.
  destruct (extreme_max (Score <$> cells) Hscne) as (best & Hp0 & Hbest & Hmax & _);
    [apply Forall_forall; by intros|].
  set (p := extreme_of a_gtb (Score <$> cells)) in *.
  apply list_lookup_fmap_Some in Hbest as (rb & -> & Hrb).
  pose proof (lookup_lt_Some _ _ _ Hrb) as Hplt. rewrite Hlen in Hplt.
  rewrite (proj2 (Z.eqb_neq _ _)) by (unfold vsize; lia). cbn [negb verify]. rewrite bind_Ret.
  destruct (vat_in_range disabled p) as (b & Hat & Hb); [unfold vsize; lia|].
  unfold deref. rewrite Hat, bind_Ret.
  assert (Hbin : b ∈ disabled) by (by eapply list_elem_of_lookup_2).
  destruct (disabled_bin fs done bg b Hsel Hbin) as [Hbr Hnb].
  destruct (select_bin fs features Hrep done bg b Hsel Hbr Hnb)
    as (f & bg' & Hgf & Hin & Hset & Hsel' & Hlast' & Hnew). rewrite Hgf, bind_Ret, Hset, bind_Ret.
  exists (bg', scorer'), f. split; [done|].
  assert (Hen' : ∀ c, enabled bg' c ↔ enabled bg c ∨ in_feature fs f c).
  { intros c. destruct Hsel as (_ & -> & _), Hsel' as (_ & -> & _). setoid_rewrite elem_of_app.
    setoid_rewrite list_elem_of_singleton. naive_solver. }
  unfold fast_inv; cbn [fst snd]. split; [exact Hsel'|]. split; [|split; [|exists f; split; [apply elem_of_app; right; by left|done]]].
  - unfold scorer_inv. split; [done|]. split; [done|]. split; [done|]. intros x cell Hx Hcell Hnx.
    assert (Hxr : 0 ≤ x < vsize (concat fs)) by (apply lookup_lt_Some in Hcell; unfold vsize in Hsz |- *; lia).
    assert (Hxd : x ∈ disabled).
    { apply (elem_of_DisabledBinIndexes fs); [apply Hsel|]. split; [done|]. intros Hen. apply Hnx, Hen'. by left. }
    apply list_elem_of_lookup in Hxd as [k Hk].
    destruct (lookup_lt_is_Some_2 cells k) as [r Hr]; [rewrite Hlen; by eapply lookup_lt_Some|].
    destruct (Hcells k x r Hk Hr) as (Hst & Hsc & Hci). rewrite Hst in Hcell. injection Hcell as <-.
    by apply (next_ready done bg bg' f).
  - apply history_snoc; [done|done|].
    exists bg, (λ x, default rb (Cache scorer' !! Z.to_nat x)), b.
    destruct Hsel as (_ & Hen & _). split; [exact Hen|]. split; [|split; [exact Hbin|split; [exact Hin|]]].
    + intros x Hx. apply list_elem_of_lookup in Hx as [k Hk].
      destruct (lookup_lt_is_Some_2 cells k) as [r Hr]; [rewrite Hlen; by eapply lookup_lt_Some|].
      by destruct (Hcells k x r Hk Hr) as (-> & Hsc & _).
    + intros x Hx. apply list_elem_of_lookup in Hx as [k Hk].
      destruct (lookup_lt_is_Some_2 cells k) as [r Hr]; [rewrite Hlen; by eapply lookup_lt_Some|].
      destruct (Hcells k x r Hk Hr) as (-> & _ & _).
      destruct (Hcells (Z.to_nat p) b rb Hb Hrb) as (-> & _ & _). cbn.
      assert (Hnb' : a_gtb (Score r) (Score rb) = false).
      { apply Hmax, list_elem_of_fmap. exists r. split; [done|by eapply list_elem_of_lookup_2]. }
      by apply Rltb_false in Hnb'.
Qed.

(** The scorer before the first round. *)
Lemma caching_bin_scorer_spec f bg :
  Entropy [ABins (Bins label)] = Ret entropy → selected_inv fs [f] bg →
  (∀ c, last_bin bg c ↔ in_feature fs f c) →
  ∃ scorer, caching_bin_scorer label (GetBinCount features) = Ret scorer ∧ fast_inv [f] (bg, scorer).
Proof.
  intros He Hsel Hlast. unfold caching_bin_scorer. rewrite He, bind_Ret. eexists. split; [done|].
  rewrite (rep_bin_count features fs Hrep).
  unfold fast_inv, scorer_inv; cbn [fst snd ScorerLabel ScorerLabelEntropy Cache].
  split; [exact Hsel|]. split; [split; [done|]; split; [done|]; split|split].
  - unfold vsize at 1. rewrite length_replicate. pose proof (vsize_nonneg (concat fs)). lia.
  - intros b cell Hb [-> _]%lookup_replicate Hnb.
    assert (Hcount : 1 ≤ vsize (EnabledBinIndexes bg)) by (by apply (enabled_nonempty fs Hbins [f] bg f); [|left]).
    assert (Hold : ∀ c, ¬ old_bin bg c).
    { intros c [Hc Hnl]. destruct Hsel as (_ & Hen & _). apply Hnl, Hlast.
      apply Hen in Hc as (g & ->%list_elem_of_singleton & Hg). done. }
    unfold cell_ready, round_steps.
    split; [by split_and!; [| |cbn; lia]|]. split; [change (0 ≤ Z.min (vsize (EnabledBinIndexes bg)) steps - 1); lia|].
    split; [change (0 ≤ Z.min (vsize (EnabledBinIndexes bg)) steps); lia|].
    right. intros c [_ Hc]. by apply (Hold c).
  - intros k g Hk Hg. destruct k; [lia|done].
  - exists f. split; [by left|done].
Qed.

End Fast.

(** The entropy of the label. *)
Lemma label_entropy_exact n bins :
  (0 < n)%nat → Forall (λ bin, length bin = n) bins → bins ≠ [] → vsize bins ≤ 64 →
  Entropy (D := R) [ABins bins] = Ret (bins_entropy n bins).
Proof.
  intros Hn Hall Hne Hk. pose proof (Entropy_exact n [ABins bins] Hn) as He.
  cbn [arg_bins fmap list_fmap concat] in He. rewrite app_nil_r in He. by apply He.
Qed.

(** The whole run. *)
Lemma FastFeatureSelection_spec n fs label features steps tc count (enough : Prop) :
  (0 < n)%nat → Z.of_nat n < 2 ^ 31 → Forall (λ bin, length bin = n) (concat fs) →
  Forall (λ bin, length bin = n) (Bins label) → Bins label ≠ [] → rep features fs →
  Forall (λ f, f ≠ []) fs → fs ≠ [] → 1 ≤ steps → vsize (Bins label) + 2 * steps < 64 →
  (enough → ∀ f, 0 ≤ f < vsize fs → steps ≤ fstart fs (f + 1) - fstart fs f) →
  ∃ f l b v,
    FastFeatureSelection (D := R) label features steps tc count = (f :: l, Ret ()) ∧
    Z.of_nat (length l) = Z.max 0 (Z.min count (vsize fs) - 1) ∧
    NoDup (f :: l) ∧ Forall (λ g, 0 ≤ g < vsize fs) (f :: l) ∧
    in_feature fs f b ∧ picks a_gtb (xrange (vsize (concat fs))) (first_value n fs label) b v ∧
    history_ok n fs label steps (bins_entropy n (Bins label)) enough (f :: l).
Proof.
  intros Hn Hn31 Hfs Hlabel Hne Hrep Hbins Hsome Hsteps Hbudget Henough.
  assert (Hent := label_entropy_exact n (Bins label) Hn Hlabel Hne ltac:(lia)).
  unfold FastFeatureSelection.
  destruct (select_first_spec (D := R) n fs label features Hn Hfs Hlabel Hne Hrep ltac:(lia) Hbins Hsome tc)
    as (bg & f & b & v & -> & Hsel & Hlast & Hin & Hp).
  assert (Hscorer : ∃ scorer, caching_bin_scorer label (GetBinCount features) = Ret scorer ∧
    fast_inv n fs label steps (bins_entropy n (Bins label)) enough [f] (bg, scorer))
    by (eapply caching_bin_scorer_spec; done).
  destruct Hscorer as (scorer & -> & Hinv).
  rewrite (rep_feature_count features fs Hrep).
  pose proof (vsize_pos fs Hsome) as Hpos.
  destruct (select_loop_spec (fast_pass features steps tc)
    (fast_inv n fs label steps (bins_entropy n (Bins label)) enough) (length fs)) with
    (k := Z.to_nat (Z.min count (vsize fs) - 1)) (done := [f]) (s := (bg, scorer))
    as (l & st & -> & Hl & (Hsel' & _ & Hhist & _)).
  - intros done st Hst Hlt. eapply fast_pass_spec; try done; try lia. unfold vsize. lia.
  - done.
  - unfold vsize in *. cbn. lia.
  - exists f, l, b, v. destruct Hsel' as (_ & _ & Hnd & Hr), Hin as [Hin1 Hin2].
    split_and!; try done. lia.
Qed.

Lemma first_value_exact n fs label b :
  (0 < n)%nat → Forall (λ bin, length bin = n) (concat fs) → Forall (λ bin, length bin = n) (Bins label) →
  vsize (Bins label) < 63 → 0 ≤ b < vsize (concat fs) →
  first_value (D := R) n fs label b = Ret (mi_of_bins n (Bins label) (bin_at fs b)).
Proof.
  intros Hn Hfs Hlabel Hk Hb. unfold first_value.
  destruct (mi_add_bins_spec n [] (Bins label) (mutual_information_calculator (Z.of_nat n)))
    as (c & -> & Henc); [apply entropy_calculator_encodes|done|rewrite (@vsize_nil TBin); lia|].
  rewrite bind_Ret. apply GetValueWithSecondVariableBin_exact; [done| |done|done].
  by apply (bin_at_size n fs Hfs).
Qed.

(** The bin picked first has the largest mutual information with the label. *)
Lemma first_bin_largest n fs label f b v :
  (0 < n)%nat → Forall (λ bin, length bin = n) (concat fs) → Forall (λ bin, length bin = n) (Bins label) →
  Bins label ≠ [] → vsize (Bins label) < 63 →
  in_feature fs f b → picks (D := R) a_gtb (xrange (vsize (concat fs))) (first_value n fs label) b v →
  ∀ c, 0 ≤ c < vsize (concat fs) →
    (mi_of_bins n (Bins label) (bin_at fs c) <= mi_of_bins n (Bins label) (bin_at fs b))%R.
Proof.
  intros Hn Hfs Hlabel Hne Hk Hin Hp c Hc.
  assert (Hmi : ∀ x, 0 ≤ x < vsize (concat fs) →
    first_value (D := R) n fs label x = Ret (mi_of_bins n (Bins label) (bin_at fs x)))
    by (intros x; by apply first_value_exact).
  assert (Hv : v = mi_of_bins n (Bins label) (bin_at fs b)).
  { destruct Hp as (_ & _ & _ & Hv). rewrite Hmi in Hv by (by eapply in_feature_range). by injection Hv. }
  rewrite <- Hv.
  assert (Hle : a_gtb (mi_of_bins n (Bins label) (bin_at fs c)) v = false).
  { eapply (picks_best a_gtb (xrange (vsize (concat fs))) (first_value n fs label) b v);
      [apply extreme_max|exact Hp|done|by apply elem_of_xrange|by apply Hmi]. }
  by apply Rltb_false in Hle.
Qed.

Lemma feature_of_bin_in fs f b : in_feature fs f b → GetFeatureIndexByBinIndex (feature_set_of fs) b = Ret f.
Proof.
  intros Hin. destruct (rep_feature_of_bin (feature_set_of fs) fs (rep_feature_set_of fs) b (in_feature_range fs f b Hin))
    as (g & -> & _ & Hg). f_equal. by apply (feature_of_bin_unique fs b).
Qed.

(** C2: [FastFeatureSelection] (exact arithmetic).  For a sample of positive size
    whose features all have bins, a positive number of steps and at most 63 bins
    of the label and the steps together, the selection never fails: it reports
    [min(count, features)] features, at least one, which are different features
    of the set, and the first one contains a bin whose mutual information with
    the label no other bin exceeds. *)
Theorem FastFeatureSelection_correct (n : nat) (fs : list (list TBin)) (label : TBinFeatureSet)
    (steps tc count : Z)
    (Hn : (0 < n)%nat) (Hn31 : Z.of_nat n < 2 ^ 31)
    (Hfs : Forall (λ bin, length bin = n) (concat fs))
    (Hlabel : Forall (λ bin, length bin = n) (Bins label)) (Hne : Bins label ≠ [])
    (Hbins : Forall (λ f, f ≠ []) fs) (Hsome : fs ≠ [])
    (Hsteps : 1 ≤ steps) (Hbudget : vsize (Bins label) + 2 * steps < 64) :
  ∃ selected first b,
    FastFeatureSelection (D := R) label (feature_set_of fs) steps tc count = (selected, Ret ()) ∧
    vsize selected = Z.max 1 (Z.min count (vsize fs)) ∧
    NoDup selected ∧ Forall (λ f, 0 ≤ f < GetFeatureCount (feature_set_of fs)) selected ∧
    head selected = Some first ∧ GetFeatureIndexByBinIndex (feature_set_of fs) b = Ret first ∧
    ∀ c, 0 ≤ c < vsize (concat fs) →
      (mi_of_bins n (Bins label) (bin_at fs c) <= mi_of_bins n (Bins label) (bin_at fs b))%R.
Proof.
  destruct (FastFeatureSelection_spec n fs label (feature_set_of fs) steps tc count False)
    as (f & l & b & v & Hrun & Hlen & Hnd & Hr & Hin & Hp & _); try done.
  { apply rep_feature_set_of. }
  exists (f :: l), f, b. split; [done|].
  rewrite (rep_feature_count (feature_set_of fs) fs (rep_feature_set_of fs)).
  split_and!; [rewrite vsize_cons; unfold vsize at 1; lia|done|done|done|by apply feature_of_bin_in|].
  eapply first_bin_largest; [done..|lia|done|done].
Qed.

Example FastFeatureSelection_correct_witness :
  let fs := sample_features3 in let label := feature_set_of_bins sample_label in
  ∃ selected first b,
    FastFeatureSelection (D := R) label (feature_set_of fs) 6 8 10 = (selected, Ret ()) ∧
    vsize selected = Z.max 1 (Z.min 10 3) ∧
    NoDup selected ∧ Forall (λ f, 0 ≤ f < GetFeatureCount (feature_set_of fs)) selected ∧
    head selected = Some first ∧ GetFeatureIndexByBinIndex (feature_set_of fs) b = Ret first ∧
    ∀ c, 0 ≤ c < vsize (concat fs) →
      (mi_of_bins 4 sample_label (bin_at fs c) <= mi_of_bins 4 sample_label (bin_at fs b))%R.
Proof.
  intros fs label. apply (FastFeatureSelection_correct 4 fs label 6 8 10); try lia; try done.
  - repeat constructor.
  - repeat constructor.
  - by repeat constructor.
Defined.


(** Features of two bins each. *)
Definition sample_features22 : list (list TBin) :=
  [[[true; false; true; false]; [true; false; false; false]];
   [[true; true; false; false]; [false; true; true; false]]].


(** ** The slow selection *)

Section Slow.
  Context `{Arith D}.
  Context (n : nat) (fs : list (list TBin)) (label features : TBinFeatureSet).
  Hypothesis Hn : (0 < n)%nat.
  Hypothesis Hfs : Forall (λ bin, length bin = n) (concat fs).
  Hypothesis Hlabel : Forall (λ bin, length bin = n) (Bins label).
  Hypothesis Hne : Bins label ≠ [].
  Hypothesis Hrep : rep features fs.
  Hypothesis Hbins : Forall (λ f, f ≠ []) fs.
  Hypothesis Hsome : fs ≠ [].
  Context (steps tc : Z).
  Hypothesis Hsteps : 1 ≤ steps.
  Hypothesis Hbudget : vsize (Bins label) + 2 * steps < 64.

(** The uncached score of a disabled bin is returned. *)
Lemma slow_score_returns done bg b k :
  selected_inv fs done bg → b ∈ DisabledBinIndexes bg → 1 ≤ k ≤ steps → k ≤ vsize (EnabledBinIndexes bg) →
  ∃ v : D, (scorer ← BuildBinScorerForEval label (k - 1) k tc; r ← scorer bg b; Ret (Score r)) = Ret v.
Proof.
  intros Hsel Hb Hk Hcount. pose proof Hsel as (Hv & Hen & _).
  destruct (disabled_bin fs done bg b Hsel Hb) as [Hbr Hnb].
  unfold BuildBinScorerForEval.
  destruct (parallel_miximizer_spec n (Bins label) Hn Hlabel label (k - 1) k tc eq_refl Hne ltac:(lia))
    as (m & -> & Hm & Hmax & Hmin & _). rewrite !bind_Ret.
  assert (Hmaxc : vsize (EnabledBinIndexes bg) ≤ vsize (max_cands fs bg b)).
  { assert (Hsub : EnabledBinIndexes bg ⊆+ max_cands fs bg b).
    { apply NoDup_submseteq; [apply NoDup_bins_with_flag|]. intros c Hc%elem_of_EnabledBinIndexes.
      apply list_elem_of_filter. split; [by right|]. apply elem_of_xrange. by apply (enabled_range fs bg). }
    apply submseteq_length in Hsub. unfold vsize. lia. }
  destruct (GetBinScore_spec (D := D) n fs (Bins label) Hn Hfs Hlabel m bg b) as (r & _ & _ & -> & _);
    try done; try lia; [|by eexists].
  intros i Hi. assert (Heq : min_cands fs bg i = EnabledBinIndexes bg); [|rewrite Heq; lia].
  rewrite (EnabledBinIndexes_filter fs bg Hv). apply filter_iff_in. intros c _.
  split; [tauto|]. intros Hc. split; [|done]. intros Hic. apply Hnb, Hen.
  apply Hen in Hc as (g & Hg & Hgc). exists g. split; [done|]. by rewrite (feature_of_bin_unique fs c g i).
Qed.

Lemma slow_pass_spec done bg :
  selected_inv fs done bg → done ≠ [] → vsize done < vsize fs →
  ∃ bg' f, slow_pass (D := D) label features steps tc bg = Ret (bg', f) ∧ selected_inv fs (done ++ [f]) bg'.
Proof.
  intros Hsel Hd Hlt. unfold slow_pass, MaxElementBy.
  pose proof (disabled_nonempty fs Hbins done bg Hsel Hlt) as Hdis.
  destruct done as [|f0 tl] eqn:Hdone; [done|].
  pose proof (enabled_nonempty fs Hbins _ bg f0 Hsel ltac:(by left)) as Hcount.
  rewrite <- Hdone in *.
  set (kernel := slow_kernel label steps tc bg).
  destruct (search_spec (D := D) a_gtb (DisabledBinIndexes bg) kernel tc Hdis) as (i & b & v & Hi & Hdr & Hbv & Hp).
  { intros b Hb. apply (slow_score_returns done); [done|done|lia|lia]. }
  destruct (mmap_total kernel (DisabledBinIndexes bg)) as [vs Hvs].
  { intros b' Hb. apply (slow_score_returns done); [done|done|lia|lia]. }
  rewrite (ParallelExtremeElementBy_sequential _ _ _ vs) in Hi by done. rewrite Hi, bind_Ret, Hdr, bind_Ret.
  apply picks_cand in Hp. destruct (disabled_bin fs done bg b Hsel Hp) as [Hbr Hnb].
  destruct (select_bin fs features Hrep done bg b Hsel Hbr Hnb) as (f & bg' & Hgf & _ & Hset & Hsel' & _).
  rewrite Hgf, bind_Ret, Hset, bind_Ret. eauto.
Qed.

End Slow.

(** C19: [FeatureSelection] ranks all the features.  For a sample of positive size
    whose features all have bins, a positive number of steps and at most 63 bins
    of the label and the steps together, it returns a permutation of the features
    of the set, for any arithmetic and any number of threads. *)
Theorem FeatureSelection_permutation {D} `{Arith D} (n : nat) (fs : list (list TBin)) (label : TBinFeatureSet)
    (steps tc : Z)
    (Hn : (0 < n)%nat) (Hfs : Forall (λ bin, length bin = n) (concat fs))
    (Hlabel : Forall (λ bin, length bin = n) (Bins label)) (Hne : Bins label ≠ [])
    (Hbins : Forall (λ f, f ≠ []) fs) (Hsome : fs ≠ [])
    (Hsteps : 1 ≤ steps) (Hbudget : vsize (Bins label) + 2 * steps < 64) :
  ∃ selected, FeatureSelection_vector (D := D) label (feature_set_of fs) steps tc = Ret selected ∧
    selected ≡ₚ xrange (GetFeatureCount (feature_set_of fs)).
Proof.
  set (features := feature_set_of fs). assert (Hrep : rep features fs) by apply rep_feature_set_of.
  unfold FeatureSelection_vector, FeatureSelection.
  destruct (select_first_spec (D := D) n fs label features Hn Hfs Hlabel Hne Hrep ltac:(lia) Hbins Hsome tc)
    as (bg & f & b & v & -> & Hsel & _). pose proof (vsize_pos fs Hsome) as Hpos.
  rewrite (rep_feature_count features fs Hrep).
  destruct (select_loop_spec (slow_pass (D := D) label features steps tc)
    (λ done bg, selected_inv fs done bg ∧ done ≠ []) (length fs)) with
    (k := Z.to_nat (vsize fs - 1)) (done := [f]) (s := bg) as (l & st & -> & Hl & Hsel' & _).
  - intros done bg' [Hsel' Hd] Hlt. destruct (slow_pass_spec (D := D) n fs label features Hn Hfs Hlabel Hne Hrep Hbins
      steps tc Hsteps Hbudget done bg' Hsel' Hd) as (bg2 & g & Hp & Hs2); [unfold vsize; lia|].
    exists bg2, g. split; [done|]. split; [done|]. by intros [_ ?]%app_nil.
  - done.
  - unfold vsize in *. cbn. lia.
  - exists (f :: l). split; [done|]. destruct Hsel' as (_ & _ & Hnd & Hr).
    rewrite xrange_seqZ. apply submseteq_length_Permutation.
    + apply NoDup_submseteq; [done|]. intros g Hg. rewrite Forall_forall in Hr. apply elem_of_seqZ.
      specialize (Hr g Hg). lia.
    + rewrite length_seqZ. cbn. unfold vsize in *. lia.
Qed.

Example FeatureSelection_permutation_witness :
  ∃ selected, FeatureSelection_vector (D := R) (feature_set_of_bins sample_label)
      (feature_set_of sample_features3) 6 8 = Ret selected ∧
    selected ≡ₚ xrange (GetFeatureCount (feature_set_of sample_features3)).
Proof.
  apply (FeatureSelection_permutation 4); try lia; try done; by repeat constructor.
Defined.
