(* ===== verification/Main.v ===== *)
(** * The program: [cmicot/lib/options.h/.cpp], [cmicot/cmicot/feature_selection.cpp]

    [CreateCommandLineOptions] builds the table of the command line parser with the
    handlers that fill [TOptions].  [main] parses its arguments, reads a raw or a
    binarized pool, binarizes it, and either writes the binarized pool and its map or
    selects features and prints them. *)
From Stdlib Require Import Ascii String Reals.
From S2P Require Import Prelude Arith Cast Getopt Stream XRange Algorithm PoolReader HashTable HashMap BinFeatureSet Entropy Cmi Parallel Binarize Grid MedianInBin GridCreator Score PoolWriter Selection.

Open Scope Z_scope.

(** ** [Split(s, delim, p1, p2)] of [util/string/split.h] *)

(** [GetNext(s, delim, param)] *)
Definition GetNext (s : TStringBuf) (delim : Z) : outcome (TString * TStringBuf) :=
  let r := NextTok s delim in
  match r.1 with
  | Some next => Ret (next, r.2)
  | None => Fail (Throw ESplitFields)
  end.

(** [Split(s, delim, p1, p2)] *)
Definition Split2 (s : TString) (delim : Z) : outcome (TString * TString) :=
  r1 ← GetNext (Some s) delim;
  r2 ← GetNext r1.2 delim;
  _ ← ensure (bool_decide (r2.2 = None)) ESplitFields;
  Ret (r1.1, r2.1).

(** ** Options *)

Record TOptions (F : Type) : Type := {
  ThreadCount : Z;
  EvalStepCount : Z;
  RawPoolFilename : option TString;
  BinaryPoolFilename : option TString;
  FeatureBinMapFilename : option TString;
  BinaryPoolOutputFile : option TString;
  FeatureBinMapOutputFile : option TString;
  FeatureCountToSelect : option Z;
  Binarizer : option (IBinarizer F);
  BorderCount : Z;
}.
Arguments ThreadCount {F}. Arguments EvalStepCount {F}. Arguments RawPoolFilename {F}.
Arguments BinaryPoolFilename {F}. Arguments FeatureBinMapFilename {F}. Arguments BinaryPoolOutputFile {F}.
Arguments FeatureBinMapOutputFile {F}. Arguments FeatureCountToSelect {F}. Arguments Binarizer {F}.
Arguments BorderCount {F}.

(** A call of the handler of an option, with the argument of the handler. *)
Inductive option_call : Type :=
| OptEvalSteps (value : Z)              (** [-t] *)
| OptThreadCount (value : Z)            (** [--thread-count] *)
| OptBinaryPool (name : TString)        (** [--binary-pool] *)
| OptMap (name : TString)               (** [--map] *)
| OptPool (name : TString)              (** [--pool] *)
| OptSelectCount (value : Z)            (** [--select-count] *)
| OptBinarization (param : TString)     (** [--binarization] *)
| OptBorderCount (value : Z)            (** [-x] *)
| OptJustBinarize (param : TString).    (** [--just-binarize] *)

(** Which option a call is for. *)
Definition option_kind (c : option_call) : Z :=
  match c with
  | OptEvalSteps _ => 0 | OptThreadCount _ => 1 | OptBinaryPool _ => 2 | OptMap _ => 3 | OptPool _ => 4
  | OptSelectCount _ => 5 | OptBinarization _ => 6 | OptBorderCount _ => 7 | OptJustBinarize _ => 8
  end.

Section Program.
  Context {F D : Type} `{!Arith F, !Arith D, !Conv F D}.
  (** The hash of a [float] and the choice of the priority queue among equal bins. *)
  Variables (hash : F → Z) (pick : list (TFeatureBin D) → nat).

(** [EnsurePositive(value, dest)]: the new [dest]. *)
Definition EnsurePositive (value : Z) : outcome Z :=
  _ ← ensure (0 <? value) (EEnsurePositive value); Ret value.

(** [builderByName] *)
Definition builder_by_name : list (TString * IBinarizer F) :=
  [(STRINGBUF "medianPlusUniform", binarizer_of (D := D) hash pick UniformAndQuantiles);
   (STRINGBUF "median", binarizer_of (D := D) hash pick Median);
   (STRINGBUF "minEntropy", binarizer_of (D := D) hash pick MinEntropy);
   (STRINGBUF "medianInBin", binarizer_of (D := D) hash pick GreedyLogSum);
   (STRINGBUF "maxSumLog", binarizer_of (D := D) hash pick MaxLogSum)].

(** [builderByName.at(param)()] *)
Definition builder_at (param : TString) : outcome (IBinarizer F) :=
  match list_find (λ p, p.1 = param) builder_by_name with
  | Some (_, p) => Ret p.2
  | None => Fail (Throw EKeyNotFound)
  end.

(** The handlers of [CreateCommandLineOptions]. *)
Definition handle_option (o : TOptions F) (c : option_call) : outcome (TOptions F) :=
  match c with
  | OptEvalSteps value =>
      v ← EnsurePositive value;
      Ret (Build_TOptions F (ThreadCount o) v (RawPoolFilename o) (BinaryPoolFilename o) (FeatureBinMapFilename o)
             (BinaryPoolOutputFile o) (FeatureBinMapOutputFile o) (FeatureCountToSelect o) (Binarizer o) (BorderCount o))
  | OptThreadCount value =>
      v ← EnsurePositive value;
      Ret (Build_TOptions F v (EvalStepCount o) (RawPoolFilename o) (BinaryPoolFilename o) (FeatureBinMapFilename o)
             (BinaryPoolOutputFile o) (FeatureBinMapOutputFile o) (FeatureCountToSelect o) (Binarizer o) (BorderCount o))
  | OptBinaryPool name =>
      Ret (Build_TOptions F (ThreadCount o) (EvalStepCount o) (RawPoolFilename o) (Some name) (FeatureBinMapFilename o)
             (BinaryPoolOutputFile o) (FeatureBinMapOutputFile o) (FeatureCountToSelect o) (Binarizer o) (BorderCount o))
  | OptMap name =>
      Ret (Build_TOptions F (ThreadCount o) (EvalStepCount o) (RawPoolFilename o) (BinaryPoolFilename o) (Some name)
             (BinaryPoolOutputFile o) (FeatureBinMapOutputFile o) (FeatureCountToSelect o) (Binarizer o) (BorderCount o))
  | OptPool name =>
      Ret (Build_TOptions F (ThreadCount o) (EvalStepCount o) (Some name) (BinaryPoolFilename o) (FeatureBinMapFilename o)
             (BinaryPoolOutputFile o) (FeatureBinMapOutputFile o) (FeatureCountToSelect o) (Binarizer o) (BorderCount o))
  | OptSelectCount value =>
      v ← EnsurePositive value;
      Ret (Build_TOptions F (ThreadCount o) (EvalStepCount o) (RawPoolFilename o) (BinaryPoolFilename o) (FeatureBinMapFilename o)
             (BinaryPoolOutputFile o) (FeatureBinMapOutputFile o) (Some v) (Binarizer o) (BorderCount o))
  | OptBinarization param =>
      b ← builder_at param;
      Ret (Build_TOptions F (ThreadCount o) (EvalStepCount o) (RawPoolFilename o) (BinaryPoolFilename o) (FeatureBinMapFilename o)
             (BinaryPoolOutputFile o) (FeatureBinMapOutputFile o) (FeatureCountToSelect o) (Some b) (BorderCount o))
  | OptBorderCount value =>
      v ← EnsurePositive value;
      Ret (Build_TOptions F (ThreadCount o) (EvalStepCount o) (RawPoolFilename o) (BinaryPoolFilename o) (FeatureBinMapFilename o)
             (BinaryPoolOutputFile o) (FeatureBinMapOutputFile o) (FeatureCountToSelect o) (Binarizer o) v)
  | OptJustBinarize param =>
      p ← Split2 param (chr ",");
      Ret (Build_TOptions F (ThreadCount o) (EvalStepCount o) (RawPoolFilename o) (BinaryPoolFilename o) (FeatureBinMapFilename o)
             (Some p.1) (Some p.2) (FeatureCountToSelect o) (Binarizer o) (BorderCount o))
  end.

(** [Handler1T<int>] and [Handler1T<TString>] (or [StoreResultT<TString>]) with the
    handler of an option. *)
Definition Handler1T_int (call : Z → option_call) (opt : TOpt (S := TOptions F)) : TOpt (S := TOptions F) :=
  HandlerImpl (HandleOpt (IntFromString t_int 10) 0 false (λ o v, handle_option o (call v))) opt.
Definition Handler1T_TString (call : TString → option_call) (opt : TOpt (S := TOptions F)) : TOpt (S := TOptions F) :=
  HandlerImpl (HandleOpt Ret [] false (λ o v, handle_option o (call v))) opt.

(** [CreateCommandLineOptions(opts)]; [version_code] is the exit code of the option that
    prints the version. *)
Definition CreateCommandLineOptions (version_code : Z) : outcome (TOpts (S := TOptions F)) :=
  result ← TOpts_Default version_code;
  result ← AddCharOption result (chr "t") REQUIRED_ARGUMENT
             (λ opt, Handler1T_int OptEvalSteps (DefaultValue (STRINGBUF "6") opt));
  result ← AddLongOption result 0 (STRINGBUF "thread-count")
             (λ opt, DefaultValue (STRINGBUF "8") (Handler1T_int OptThreadCount (RequiredArgument opt)));
  result ← AddLongOption result 0 (STRINGBUF "binary-pool")
             (λ opt, Handler1T_TString OptBinaryPool (RequiredArgument opt));
  result ← AddLongOption result 0 (STRINGBUF "map") (λ opt, Handler1T_TString OptMap (RequiredArgument opt));
  result ← AddLongOption result 0 (STRINGBUF "pool") (λ opt, Handler1T_TString OptPool (RequiredArgument opt));
  result ← AddLongOption result 0 (STRINGBUF "select-count")
             (λ opt, Handler1T_int OptSelectCount (RequiredArgument opt));
  result ← AddLongOption result 0 (STRINGBUF "binarization")
             (λ opt, DefaultValue (STRINGBUF "medianPlusUniform") (Handler1T_TString OptBinarization (RequiredArgument opt)));
  result ← AddCharOption result (chr "x") REQUIRED_ARGUMENT
             (λ opt, DefaultValue (STRINGBUF "10") (Handler1T_int OptBorderCount (RequiredArgument opt)));
  result ← AddLongOption result 0 (STRINGBUF "just-binarize")
             (λ opt, Handler1T_TString OptJustBinarize (RequiredArgument opt));
  Ret (SetFreeArgsMax result 0).

(** A [TOptions] before parsing: the numbers are not initialized. *)
Definition new_options (thread_count eval_step_count border_count : Z) : TOptions F :=
  Build_TOptions F thread_count eval_step_count None None None None None None None border_count.

(** The options [main] starts with, or an exit code. *)
Definition parse_options (version_code : Z) (argv : list TString) (o : TOptions F) : outcome (TOptions F + Z) :=
  cl_options ← CreateCommandLineOptions version_code;
  TOptsParseResult_Init cl_options argv o.

End Program.

(** ** Inputs *)

(** What [OpenInput] holds: a file behind its buffer, or the standard input. *)
Definition TInput : Type := TIFStream + TStdIn.

Definition TInput_DoRead (len : Z) (s : TInput) : outcome (TString * TInput) :=
  match s with
  | inl f => r ← DoRead len f; Ret (r.1, inl r.2)
  | inr c => r ← DoRead len c; Ret (r.1, inr r.2)
  end.

Definition TInput_DoReadTo (st : TString) (ch : Z) (s : TInput) : outcome (Z * TString * TInput) :=
  match s with
  | inl f => r ← DoReadTo st ch f; Ret (r.1, inl r.2)
  | inr c => r ← DoReadTo st ch c; Ret (r.1, inr r.2)
  end.

#[export] Instance TInput_stream : IInputStream TInput := {
  DoRead := TInput_DoRead;
  DoReadTo := TInput_DoReadTo;
  stream_size s := match s with inl f => stream_size f | inr c => stream_size c end;
}.

Definition input_rest (s : TInput) : TString := match s with inl f => rest f | inr c => rest c end.
Definition input_good (s : TInput) : Prop := match s with inl f => good f | inr c => good c end.

#[export] Program Instance TInput_ok : InputStreamOk TInput := {
  rest := input_rest;
  good := input_good;
}.
Next Obligation. intros [f|c] Hg; [exact (rest_size f Hg)|exact (rest_size c Hg)]. Qed.
Next Obligation.
  intros len [f|c] Hg Hlen.
  - destruct (DoRead_ok (InputStreamOk := TBufferedInput_ok) len f Hg Hlen) as (chunk & s' & Heq & H).
    exists chunk, (inl s'). split; [|exact H]. cbn in Heq |- *. by rewrite Heq.
  - destruct (DoRead_ok (InputStreamOk := TCinWrapper_ok) len c Hg Hlen) as (chunk & s' & Heq & H).
    exists chunk, (inr s'). split; [|exact H]. cbn in Heq |- *. by rewrite Heq.
Qed.
Next Obligation.
  intros st ch [f|c] Hg.
  - destruct (DoReadTo_ok (InputStreamOk := TBufferedInput_ok) st ch f Hg) as [H0 H1]. split; intros Hr.
    + destruct (H0 Hr) as (st' & s' & Heq & H). exists st', (inl s'). split; [|exact H].
      cbn in Heq |- *. by rewrite Heq.
    + destruct (H1 Hr) as (s' & Heq & H). exists (inl s'). split; [|exact H].
      cbn in Heq |- *. by rewrite Heq.
  - destruct (DoReadTo_ok (InputStreamOk := TCinWrapper_ok) st ch c Hg) as [H0 H1]. split; intros Hr.
    + destruct (H0 Hr) as (st' & s' & Heq & H). exists st', (inr s'). split; [|exact H].
      cbn in Heq |- *. by rewrite Heq.
    + destruct (H1 Hr) as (s' & Heq & H). exists (inr s'). split; [|exact H].
      cbn in Heq |- *. by rewrite Heq.
Qed.

(** What the program finds: the contents of the files that can be opened, the sizes
    of the reads of the operating system, the standard input, and the files that can
    be created. *)
Record world : Type := {
  file_contents : TString → option TString;
  file_os_reads : TString → list Z;
  standard_input : TString;
  can_create : TString → bool;
}.

(** [OpenInput(filename)] *)
Definition OpenInput (w : world) (filename : TString) : outcome TInput :=
  if bool_decide (filename = STRINGBUF "-") then Ret (inr {| F_ := standard_input w |})
  else match file_contents w filename with
       | Some contents => Ret (inl (open_file contents (file_os_reads w filename)))
       | None => Fail (Throw EFileError)
       end.

(** The world after the input of a name has been read to its end. *)
Definition input_read (w : world) (filename : TString) : world :=
  if bool_decide (filename = STRINGBUF "-")
  then {| file_contents := file_contents w; file_os_reads := file_os_reads w;
          standard_input := []; can_create := can_create w |}
  else w.

(** ** [main] *)

(** What a run did: the features [PrintFeature] was called with, the files written,
    and the exit code. *)
Record run : Type := {
  printed : list Z;
  written_files : list (TString * TString);
  exit_code : outcome Z;
}.

(** [PrintFeature(featureId)]: the text on [Cout]. *)
Definition PrintFeature (feature_id : Z) : outcome TString :=
  t ← int_text t_int feature_id; Ret (t ++ [chr "010"]).

Section Run.
  Context {F D : Type} `{!Arith F, !Arith D, !Conv F D}.
  (** [TryFromString] for [double], and how many elements a vector can have. *)
  Variables (TryFromString : TString → option D) (max_elements : Z).

(** [borderBuilder] *)
Definition border_builder (options : TOptions F) : TBorderBuilder F := λ values,
  match Binarizer options with
  | Some b => r ← Grid.BestSplit b values (BorderCount options) false; Ret r.2
  | None => Fail (Undef UDeref)
  end.

Definition ReadBinarizedPool (w : world) (pool_file map_file : TString) (builder : TBorderBuilder F)
    : outcome (TBinFeatureSet * TBinFeatureSet) :=
  pool_input ← OpenInput w pool_file;
  pool ← ReadPool TryFromString pool_input;
  map_input ← OpenInput (input_read w pool_file) map_file;
  bin_to_feature_map ← ReadBinToFeatureMap max_elements map_input;
  front ← vfront pool;
  label ← BinarizeFeature front builder;
  features ← BinarizeWithMap (tail pool) bin_to_feature_map;
  Ret (feature_set_of_bins label, features).

(** The label and the features, or the exit code of a wrong combination of options. *)
Definition read_input (w : world) (options : TOptions F)
    : outcome (Z + TBinFeatureSet * TBinFeatureSet) :=
  match RawPoolFilename options, BinaryPoolFilename options, FeatureBinMapFilename options with
  | Some raw, None, None =>
      inp ← OpenInput w raw;
      pool ← ReadPool TryFromString inp;
      r ← BinarizeRawPool pool (border_builder options) (ThreadCount options);
      Ret (inr r)
  | Some _, _, _ => Ret (inl 1)
  | None, Some pool, Some map =>
      r ← ReadBinarizedPool w pool map (border_builder options); Ret (inr r)
  | None, _, _ => Ret (inl 2)
  end.

(** [TOFStream(name)] and what a printer writes to it. *)
Definition write_file (w : world) (name : TString) (text : outcome TString) : outcome (TString * TString) :=
  _ ← ensure (can_create w name) EFileError;
  t ← text;
  Ret (name, t).

(** [main], after the options are parsed. *)
Definition run_options (w : world) (options : TOptions F) : run :=
  match read_input w options with
  | Fail f => {| printed := []; written_files := []; exit_code := Fail f |}
  | Ret (inl code) => {| printed := []; written_files := []; exit_code := Ret code |}
  | Ret (inr (label, features)) =>
      match BinaryPoolOutputFile options, FeatureBinMapOutputFile options with
      | Some pool_name, Some map_name =>
          match write_file w pool_name (OutputPool label features) with
          | Fail f => {| printed := []; written_files := []; exit_code := Fail f |}
          | Ret pool =>
              match write_file w map_name (OutputBinFeatureMap features) with
              | Fail f => {| printed := []; written_files := [pool]; exit_code := Fail f |}
              | Ret map => {| printed := []; written_files := [pool; map]; exit_code := Ret 0 |}
              end
          end
      | _, _ =>
          let count := default (GetFeatureCount features) (FeatureCountToSelect options) in
          let r := FastFeatureSelection (D := D) label features (EvalStepCount options) (ThreadCount options) count in
          {| printed := r.1; written_files := [];
             exit_code := match r.2 with Ret _ => Ret 0 | Fail f => Fail f end |}
      end
  end.

(** [main(argc, argv)] *)
Definition main (hash : F → Z) (pick : list (TFeatureBin D) → nat) (version_code : Z) (w : world)
    (argv : list TString) (o : TOptions F) : run :=
  match parse_options (D := D) hash pick version_code argv o with
  | Ret (inl options) => run_options w options
  | Ret (inr code) => {| printed := []; written_files := []; exit_code := Ret code |}
  | Fail f => {| printed := []; written_files := []; exit_code := Fail f |}
  end.

End Run.

(** ** The options are valid *)

Section Options.
  Context {F D : Type} `{!Arith F, !Arith D, !Conv F D}.
  Variables (hash : F → Z) (pick : list (TFeatureBin D) → nat).

(** What each call leaves behind it. *)
Definition call_effect (c : option_call) (o : TOptions F) : Prop :=
  match c with
  | OptEvalSteps _ => 0 < EvalStepCount o
  | OptThreadCount _ => 0 < ThreadCount o
  | OptBorderCount _ => 0 < BorderCount o
  | OptBinarization _ => ∃ type, Binarizer o = Some (binarizer_of (D := D) hash pick type)
  | _ => True
  end.

Lemma builder_at_type param b : builder_at (D := D) hash pick param = Ret b →
  ∃ type, b = binarizer_of (D := D) hash pick type.
Proof.
  unfold builder_at. destruct (list_find _ _) as [[i p]|] eqn:Hf; [|done]. intros [= <-].
  apply list_find_Some in Hf as (Hi & _ & _). apply list_elem_of_lookup_2 in Hi. unfold builder_by_name in Hi.
  repeat (apply elem_of_cons in Hi as [->|Hi]; [by eexists|]). by apply not_elem_of_nil in Hi.
Qed.

Lemma handle_option_effect o c o' c' : handle_option (D := D) hash pick o c = Ret o' →
  call_effect c' o ∨ option_kind c = option_kind c' → call_effect c' o'.
Proof.
  intros Hr Heff. unfold handle_option, EnsurePositive in Hr.
  destruct c, c'; cbn in *; inv_ret; destruct Heff as [|]; try done; try (by apply Z.ltb_lt).
  all: match goal with H : builder_at _ _ _ = Ret _ |- _ => destruct (builder_at_type _ _ H) as [type ->] end.
  all: by exists type.
Qed.

Lemma FeatureCountToSelect_positive o c o' : handle_option (D := D) hash pick o c = Ret o' →
  (∀ n, FeatureCountToSelect o = Some n → 0 < n) → ∀ n, FeatureCountToSelect o' = Some n → 0 < n.
Proof.
  intros Hr Ho n. unfold handle_option, EnsurePositive in Hr.
  destruct c; inv_ret; try apply Ho. intros. simplify_eq. by apply Z.ltb_lt.
Qed.

(** Calls of the handlers leave the effect of every call, and of every option that was
    valid before. *)
Lemma handle_options_effect calls o o' c' : mfold (handle_option (D := D) hash pick) o calls = Ret o' →
  call_effect c' o ∨ option_kind c' ∈ option_kind <$> calls → call_effect c' o'.
Proof.
  revert o. induction calls as [|c calls IH]; intros o Hr Heff; cbn in Hr.
  - simplify_eq. destruct Heff as [|Hk]; [done|]. by apply not_elem_of_nil in Hk.
  - inv_ret. match goal with H : handle_option _ _ _ _ = Ret _ |- _ => rename H into Hc end.
    eapply IH; [eassumption|]. destruct Heff as [Heff|Hk].
    + left. eapply handle_option_effect; [exact Hc|by left].
    + apply elem_of_cons in Hk. destruct Hk as [Hk|Hk]; [left|by right].
      eapply handle_option_effect; [exact Hc|by right].
Qed.

Lemma handle_options_select calls o o' : mfold (handle_option (D := D) hash pick) o calls = Ret o' →
  (∀ n, FeatureCountToSelect o = Some n → 0 < n) → ∀ n, FeatureCountToSelect o' = Some n → 0 < n.
Proof.
  revert o. induction calls as [|c calls IH]; intros o Hr Ho; cbn in Hr.
  - by simplify_eq.
  - inv_ret. eapply IH; [eassumption|]. by eapply FeatureCountToSelect_positive.
Qed.

(** The table of the options: the positions of the options of the program, behind the
    ones for the version and the help. *)
Definition options_table (version_code : Z) : TOpts (S := TOptions F) :=
  match CreateCommandLineOptions (D := D) hash pick version_code with
  | Ret o => o
  | Fail _ => Build_TOpts [] PERMUTE false false 0 0
  end.

Lemma options_table_ok version_code :
  CreateCommandLineOptions (D := D) hash pick version_code = Ret (options_table version_code).
Proof. reflexivity. Qed.

Lemma options_table_length version_code : length (Opts_ (options_table version_code)) = 11%nat.
Proof. reflexivity. Qed.

(** Firing an option of the table is a call of the handler of its kind. *)
Lemma fire_option version_code (x : nat * TOpt) v s s' : valid_ptr (options_table version_code) x →
  FireHandlers x.2 v s = Ret (inl s') →
  ∃ c, handle_option (D := D) hash pick s c = Ret s' ∧ option_kind c = Z.of_nat x.1 - 2.
Proof.
  destruct x as [i opt]. unfold valid_ptr. cbn [fst snd]. intros Hi.
  assert (∀ T (from : TString → outcome T) def has (call : T → option_call) (k : Z) (opt : TOpt),
    Handlers_ opt = [HandleOpt from def has (λ o v, handle_option (D := D) hash pick o (call v))] →
    (∀ v, option_kind (call v) = k) → FireHandlers opt v s = Ret (inl s') →
    ∃ c, handle_option (D := D) hash pick s c = Ret s' ∧ option_kind c = k) as Hcall.
  { intros T from def has call k opt' Hh Hk. unfold FireHandlers. rewrite Hh. cbn.
    destruct (HandleOpt _ _ _ _ _ _) as [r|f] eqn:Hf; [|done]. cbn. intros [= ->].
    apply HandleOpt_inl in Hf as [v' Hv]. eauto. }
  do 2 (destruct i as [|i]; [injection Hi as <-; done|]).
  do 9 (destruct i as [|i]; [injection Hi as <-; by eapply Hcall|]). done.
Qed.

Lemma fire_options version_code evs s s' : Forall (λ e, valid_ptr (options_table version_code) e.1) evs →
  run_events evs s = Ret (inl s') →
  ∃ calls, mfold (handle_option (D := D) hash pick) s calls = Ret s' ∧
    option_kind <$> calls = (λ e, Z.of_nat e.1.1 - 2) <$> evs.
Proof.
  intros Hv. revert s. induction Hv as [|e evs He _ IH]; intros s.
  - intros [= <-]. by exists [].
  - intros (s1 & Hf & Hr)%run_events_cons. destruct (fire_option _ _ _ _ _ He Hf) as (c & Hc & Hk).
    destruct (IH _ Hr) as (calls & Hcalls & Hks). exists (c :: calls). cbn. rewrite Hc. cbn. split; [done|].
    by rewrite Hk, Hks.
Qed.

(** Parsing is some calls of the handlers, among them one for every option with a
    default value. *)
Lemma parse_options_calls version_code argv o o' : Z.of_nat (length argv) < 2 ^ 64 →
  parse_options (D := D) hash pick version_code argv o = Ret (inl o') →
  ∃ calls, mfold (handle_option (D := D) hash pick) o calls = Ret o' ∧
    ∀ k, k ∈ [0; 1; 6; 7] → k ∈ option_kind <$> calls.
Proof.
  intros Hn. unfold parse_options. rewrite options_table_ok, bind_Ret. destruct argv as [|program args].
  { unfold TOptsParseResult_Init, parse_args. by destruct (Validate _) as [[]|[]]. }
  set (table := options_table version_code). intros Hr.
  assert (∀ opt, opt ∈ Opts_ table → HasArg_ opt ≠ OPTIONAL_ARGUMENT) as Hno.
  { intros opt [i Hi]%list_elem_of_lookup. do 11 (destruct i as [|i]; [by injection Hi as <-|]). done. }
  unfold TOptsParseResult_Init in Hr. destruct (parse_args table (program :: args) o) as [r|[]] eqn:Hp; try done.
  injection Hr as ->. apply (parse_args_spec table Hno eq_refl) in Hp as (_ & evs & free & defs & Hc & _ & Hd & Hrun);
    [|exact Hn].
  pose proof (command_line_valid _ _ _ _ _ Hc) as Hve. pose proof (default_events_valid _ _ _ Hd) as Hvd.
  destruct (fire_options version_code (evs ++ defs) o o') as (calls & Hcalls & Hk); [by apply Forall_app|done|].
  exists calls. split; [done|]. intros k Hin. rewrite Hk.
  assert (∃ x, valid_ptr table x ∧ Required_ x.2 = false ∧ HasDefaultValue x.2 = true ∧ k = Z.of_nat x.1 - 2) as
    (x & Hx & Hreq & Hdef & ->).
  { repeat (apply elem_of_cons in Hin as [->|Hin]); [| | | |by apply not_elem_of_nil in Hin].
    all: [> eexists (2%nat, _)|eexists (3%nat, _)|eexists (8%nat, _)|eexists (9%nat, _)].
    all: split; [reflexivity|done]. }
  pose proof (default_events_complete _ _ _ _ Hve Hd Hx Hreq Hdef) as Hin'.
  apply list_elem_of_fmap in Hin' as (e & He & Hin'). apply list_elem_of_fmap. exists e. by rewrite He.
Qed.

(** The handlers of the program return or throw, so that the parser ends. *)
Lemma IntFromString_int_ok t : is_throw (IntFromString t_int 10 t) ∨ ∃ v, IntFromString t_int 10 t = Ret v.
Proof.
  pose proof (IntFromString_spec t_int 10 t eq_refl ltac:(lia)) as Hs.
  destruct (int_value _ _ _) as [v|]; [|by left]. rewrite Hs. destruct (in_type t_int v) eqn:Hv; [|left; by eexists].
  destruct (Z.eqb_spec v (- 2 ^ 63)) as [->|]; [done|right; eauto].
Qed.

Lemma handle_option_ok o c :
  is_throw (handle_option (D := D) hash pick o c) ∨ ∃ o', handle_option (D := D) hash pick o c = Ret o'.
Proof.
  destruct c; cbn [handle_option]; try (right; by eexists).
  1,2,3,5: unfold EnsurePositive; destruct (0 <? value); [right|left]; by eexists.
  - unfold builder_at. destruct (list_find _ _) as [[i p]|]; [right|left]; by eexists.
  - unfold Split2, GetNext. cbn [NextTok fst snd].
    destruct (find_char _ param) as [i|]; [|left; by eexists]. cbn [fst snd]. rewrite bind_Ret.
    cbn [NextTok fst snd]. destruct (find_char _ (drop _ _)) as [j|]; [left|right]; by eexists.
Qed.

Lemma parse_options_total version_code argv o :
  ∃ r, parse_options (D := D) hash pick version_code argv o = Ret r.
Proof.
  unfold parse_options. rewrite options_table_ok, bind_Ret. apply TOptsParseResult_Init_total.
  intros opt h cur s Hopt Hh. repeat (apply elem_of_cons in Hopt as [->|Hopt];
    [apply list_elem_of_singleton in Hh as ->|]); [| | | | | | | | | | |by apply not_elem_of_nil in Hopt].
  1,2: right; by eexists.
  all: apply HandleOpt_ok; [|intros v; apply handle_option_ok].
  all: first [intros t; apply IntFromString_int_ok | intros t; right; by eexists].
Qed.

Definition valid_options (o : TOptions F) : Prop :=
  0 < ThreadCount o ∧ 0 < EvalStepCount o ∧ 0 < BorderCount o
  ∧ (∀ n, FeatureCountToSelect o = Some n → 0 < n)
  ∧ ∃ type, Binarizer o = Some (binarizer_of (D := D) hash pick type).

Lemma parse_options_valid version_code argv o o' : Z.of_nat (length argv) < 2 ^ 64 →
  FeatureCountToSelect o = None →
  parse_options (D := D) hash pick version_code argv o = Ret (inl o') → valid_options o'.
Proof.
  intros Hn Ho Hr. destruct (parse_options_calls _ _ _ _ Hn Hr) as (calls & Hcalls & Hk).
  assert (∀ c, option_kind c ∈ [0; 1; 6; 7] → call_effect c o') as He.
  { intros c Hc. eapply handle_options_effect; [exact Hcalls|right; by apply Hk]. }
  unfold valid_options. split_and!.
  - apply (He (OptThreadCount 0)); cbn. set_solver.
  - apply (He (OptEvalSteps 0)); cbn. set_solver.
  - apply (He (OptBorderCount 0)); cbn. set_solver.
  - eapply handle_options_select; [exact Hcalls|]. by rewrite Ho.
  - apply (He (OptBinarization [])); cbn. set_solver.
Qed.

End Options.



(** ** A run of the program on a raw pool *)

(** The text [OpenInput] gives access to. *)
Definition input_text (w : world) (filename : TString) : option TString :=
  if bool_decide (filename = STRINGBUF "-") then Some (standard_input w) else file_contents w filename.

Lemma OpenInput_ok w filename contents : input_text w filename = Some contents →
  ∃ inp, OpenInput w filename = Ret inp ∧ good inp ∧ rest inp = contents.
Proof.
  unfold input_text, OpenInput. case_bool_decide.
  - intros [= <-]. by eexists.
  - intros ->. eexists. split; [done|]. apply open_file_good.
Qed.

Lemma OpenInput_fails w filename : input_text w filename = None →
  OpenInput w filename = Fail (Throw EFileError).
Proof. unfold input_text, OpenInput. case_bool_decide; [done|]. by intros ->. Qed.

(** A raw pool of a table is read and binarized. *)
Lemma read_raw_input {D F} `{Arith D, Arith F, !Conv F D} (TryFromString : TString → option D) max_elements w
    (options : TOptions F) raw contents m rows :
  RawPoolFilename options = Some raw → BinaryPoolFilename options = None → FeatureBinMapFilename options = None →
  input_text w raw = Some contents → table TryFromString (lines_of contents) m rows → 0 < vsize rows →
  read_input TryFromString max_elements w options =
    (r ← BinarizeRawPool (transpose m rows) (border_builder options) (ThreadCount options); Ret (inr r)).
Proof.
  intros Hraw Hbin Hmap Htext Htable Hrows.
  destruct (OpenInput_ok w raw contents Htext) as (inp & Hinp & Hgood & Hrest).
  assert (pool_of TryFromString (lines_of contents) = Some (transpose m rows)) as Hpool
    by (apply table_pool; [by intros ->|done]).
  unfold read_input. rewrite Hraw, Hbin, Hmap, Hinp, bind_Ret. unfold ReadPool.
  pose proof (ReadPool_spec TryFromString 20000 inp Hgood) as Hspec. rewrite Hrest, Hpool in Hspec.
  by rewrite Hspec, bind_Ret.
Qed.

Section RawRun.
  Context {D : Type} `{HD : Arith D, HC : !Conv R D}.
  Variables (hash : R → Z) (pick : list (TFeatureBin D) → nat).
  Hypothesis Hpick : pick_top pick.

(** The columns of a pool with values are binarized with at most [BorderCount] bins. *)
Lemma border_builder_ok (o : TOptions R) type (column : list R) :
  Binarizer o = Some (binarizer_of hash pick type) → 0 < BorderCount o < 2 ^ 31 →
  column ≠ [] → vsize column < 2 ^ 31 →
  ∃ bins, BinarizeFeature column (border_builder o) = Ret bins ∧ bins ≠ [] ∧
    Forall (λ bin, length bin = length column) bins ∧ vsize bins ≤ BorderCount o.
Proof using Hpick.
  intros Hb Hc Hne Hn.
  destruct (binarizer_of_ok hash pick type Hpick (narrow <$> column) (BorderCount o) false)
    as (values' & borders & Hr & _ & _ & Hnum & Hle & _); [|lia| |done|].
  { by destruct column. }
  { unfold vsize in *. by rewrite length_fmap. }
  destruct (BinarizeFeature_shape column (border_builder o) borders) as (bins & Hbins & Hbne & Hlen & Hsize & _).
  - unfold border_builder. by rewrite Hb, Hr.
  - done.
  - exists bins. split_and!; [done..|]. lia.
Qed.

Lemma columns_binarized (o : TOptions R) type (columns : list (list R)) n :
  Binarizer o = Some (binarizer_of hash pick type) → 0 < BorderCount o < 2 ^ 31 →
  (0 < n)%nat → Z.of_nat n < 2 ^ 31 → Forall (λ c, length c = n) columns →
  ∃ binned, Forall2 (λ c bins, BinarizeFeature c (border_builder o) = Ret bins) columns binned ∧
    Forall (λ bins, bins ≠ [] ∧ Forall (λ bin, length bin = n) bins ∧ vsize bins ≤ BorderCount o) binned.
Proof using Hpick.
  intros Hb Hc Hn Hn31 Hcols. induction Hcols as [|c columns Hlen _ (binned & Hb2 & Hall)].
  - exists []. split; constructor.
  - destruct (border_builder_ok o type c) as (bins & Hbins & Hne & Hl & Hsz); [done|done| | |].
    + intros ->. cbn in Hlen. lia.
    + unfold vsize. lia.
    + exists (bins :: binned). split; constructor; [done..| |done]. by rewrite <- Hlen.
Qed.

(** The label and the features of a pool of [m] columns of values. *)
Lemma raw_pool_binarized (o : TOptions R) type (pool : list (list R)) (m n : nat) :
  Binarizer o = Some (binarizer_of hash pick type) → 0 < BorderCount o < 2 ^ 31 →
  (0 < n)%nat → Z.of_nat n < 2 ^ 31 → Forall (λ c, length c = n) pool → length pool = S m →
  ∃ label fs,
    BinarizeRawPool pool (border_builder o) (ThreadCount o) = Ret (feature_set_of_bins label, feature_set_of fs) ∧
    length fs = m ∧ label ≠ [] ∧ vsize label ≤ BorderCount o ∧ Forall (λ bin, length bin = n) label ∧
    Forall (λ f, f ≠ [] ∧ vsize f ≤ BorderCount o) fs ∧ Forall (λ bin, length bin = n) (concat fs).
Proof using Hpick.
  intros Hb Hc Hn Hn31 Hcols Hm. destruct (columns_binarized o type pool n) as (binned & Hbinned & Hall); [done..|].
  pose proof (Forall2_length _ _ _ Hbinned) as Hlen. destruct binned as [|label fs]; [cbn in Hlen; lia|].
  apply Forall_cons_1 in Hall as [(Hne & Hlabel & Hsz) Hall].
  exists label, fs. split_and!; [|cbn in Hlen; lia|done..| |].
  - unfold BinarizeRawPool. rewrite (proj2 (ParallelForEach_Ret _ _ _ (label :: fs))); [done|]. by apply mmap_Forall2.
  - eapply Forall_impl; [exact Hall|]. by intros ? (? & _ & ?).
  - apply Forall_concat. eapply Forall_impl; [exact Hall|]. by intros ? (_ & ? & _).
Qed.

End RawRun.

(** C4: run with arguments that name a raw pool - a file or the standard input - of lines
    with as many numbers each, at least two, and that ask for no binarized pool, the
    program ends with exit code 0, writes no file and prints different features of the
    pool, as many as it is asked for, or all of them, provided the bins of the label and
    two bins for each evaluation step fit a code of 64 bits.  What it prints is the
    selection from the binarized columns of the pool, and the first of the features has
    a bin with the largest mutual information with the label. *)
Theorem main_selects (TryFromString : TString → option R) (max_elements : Z) (hash : R → Z)
  (pick : list (TFeatureBin R) → nat) (version_code : Z) (w : world) (argv : list TString)
  (threads steps borders : Z) (options : TOptions R) (raw contents : TString) (m : nat) (rows : list (list R))
  (Hpick : pick_top pick) (Hargc : Z.of_nat (length argv) < 2 ^ 64)
  (Hparse : parse_options (D := R) hash pick version_code argv (new_options threads steps borders) = Ret (inl options))
  (Hbudget : BorderCount options + 2 * EvalStepCount options < 64)
  (Hraw : RawPoolFilename options = Some raw)
  (Hbin : BinaryPoolFilename options = None) (Hmap : FeatureBinMapFilename options = None)
  (Hout : BinaryPoolOutputFile options = None)
  (Htext : input_text w raw = Some contents)
  (Htable : table TryFromString (lines_of contents) m rows)
  (Hm : (2 ≤ m)%nat) (Hrows : 0 < vsize rows < 2 ^ 31) :
  let count := default (Z.of_nat m - 1) (FeatureCountToSelect options) in
  ∃ label fs selected first b,
    BinarizeRawPool (transpose m rows) (border_builder options) (ThreadCount options)
      = Ret (feature_set_of_bins label, feature_set_of fs) ∧
    FastFeatureSelection (D := R) (feature_set_of_bins label) (feature_set_of fs)
      (EvalStepCount options) (ThreadCount options) count = (selected, Ret ()) ∧
    main TryFromString max_elements hash pick version_code w argv (new_options threads steps borders) =
      {| printed := selected; written_files := []; exit_code := Ret 0 |} ∧
    NoDup selected ∧ Forall (λ f, 0 ≤ f < Z.of_nat m - 1) selected ∧
    vsize selected = Z.min count (Z.of_nat m - 1) ∧
    head selected = Some first ∧ GetFeatureIndexByBinIndex (feature_set_of fs) b = Ret first ∧
    ∀ c, 0 ≤ c < vsize (concat fs) →
      (mi_of_bins (length rows) label (bin_at fs c) <= mi_of_bins (length rows) label (bin_at fs b))%R.
Proof.
  intros count.
  destruct (parse_options_valid hash pick version_code argv (new_options threads steps borders) options Hargc eq_refl Hparse)
    as (_ & Hsteps & Hborders & Hcount & type & Hb).
  set (n := length rows) in *. assert (Hn : (0 < n)%nat ∧ Z.of_nat n < 2 ^ 31) by (unfold vsize in Hrows; lia).
  destruct (raw_pool_binarized hash pick Hpick options type (transpose m rows) (m - 1) n)
    as (label & fs & Hbp & Hfsm & Hne & Hsz & Hlabel & Hfs & Hlens); [done|lia|lia|lia| | |].
  { apply Forall_forall. intros c [j Hj]%list_elem_of_lookup. by apply (lookup_transpose m rows j c 0 (proj2 Htable)). }
  { rewrite (length_transpose m rows (proj2 Htable)). lia. }
  pose proof (read_raw_input TryFromString max_elements w options raw contents m rows Hraw Hbin Hmap Htext Htable
    ltac:(lia)) as Hread. rewrite Hbp in Hread.
  pose proof (rep_feature_set_of fs) as Hrep. assert (Hfsz : vsize fs = Z.of_nat m - 1) by (unfold vsize; lia).
  destruct (FastFeatureSelection_spec n fs (feature_set_of_bins label) (feature_set_of fs) (EvalStepCount options)
      (ThreadCount options) count False)
    as (f & l & b & v & Hrun & Hcnt & Hnd & Hrange & Hin & Hp & _); try done; try (cbn; lia).
  { eapply Forall_impl; [exact Hfs|]. by intros ? [? _]. }
  { intros ->. rewrite vsize_nil in Hfsz. lia. }
  exists label, fs, (f :: l), f, b. split_and!; [done..| | |by rewrite <- Hfsz| |done|by apply feature_of_bin_in|].
  - unfold main. rewrite Hparse. unfold run_options. rewrite Hread, bind_Ret, Hout.
    rewrite (rep_feature_count _ _ Hrep), Hfsz. fold count. by rewrite Hrun.
  - done.
  - rewrite Hfsz in Hcnt. rewrite vsize_cons. unfold vsize. rewrite Hcnt.
    subst count. destruct (FeatureCountToSelect options) as [k|]; cbn in *; [specialize (Hcount k eq_refl)|]; lia.
  - apply (first_bin_largest n fs (feature_set_of_bins label) f b v); try done; [apply Hn|cbn; lia].
Qed.

(** A file of three columns of natural numbers, read with one short read, with default
    options; [pick_first] is a queue. *)
Lemma main_selects_witness :
  let number t := IZR <$> int_value false 10 t in
  let contents := STRINGBUF "0	1	5" ++ [10] ++ STRINGBUF "1	2	5" ++ [10] in
  let raw := STRINGBUF "pool.tsv" in
  let w := {| file_contents := λ name, if bool_decide (name = raw) then Some contents else None;
              file_os_reads := λ _, [3]; standard_input := []; can_create := λ _, false |} in
  let hash : R → Z := λ _, 0 in
  let argv := [STRINGBUF "cmicot"; STRINGBUF "--pool"; raw] in
  let options : TOptions R :=
    Build_TOptions R 8 6 (Some raw) None None None None None
      (Some (binarizer_of (D := R) hash pick_first UniformAndQuantiles)) 10 in
  parse_options (D := R) hash pick_first 1 argv (new_options 0 0 0) = Ret (inl options) ∧
  ∃ label fs selected first b,
    BinarizeRawPool (transpose 3 [[0; 1; 5]; [1; 2; 5]]%R) (border_builder options) 8
      = Ret (feature_set_of_bins label, feature_set_of fs) ∧
    FastFeatureSelection (D := R) (feature_set_of_bins label) (feature_set_of fs) 6 8 2 = (selected, Ret ()) ∧
    main number 100 hash pick_first 1 w argv (new_options 0 0 0) =
      {| printed := selected; written_files := []; exit_code := Ret 0 |} ∧
    NoDup selected ∧ Forall (λ f, 0 ≤ f < 3 - 1) selected ∧ vsize selected = Z.min (3 - 1) (3 - 1) ∧
    head selected = Some first ∧ GetFeatureIndexByBinIndex (feature_set_of fs) b = Ret first ∧
    ∀ c, 0 ≤ c < vsize (concat fs) →
      (mi_of_bins 2 label (bin_at fs c) <= mi_of_bins 2 label (bin_at fs b))%R.
Proof.
  intros number contents raw w hash argv options. split; [reflexivity|].
  apply (main_selects number 100 hash pick_first 1 w argv 0 0 0 options raw contents 3
           [[0; 1; 5]; [1; 2; 5]]%R); try done.
  - apply pick_first_top.
  - split; [reflexivity|by repeat constructor].
  - lia.
Defined.
