(* ===== verification/Runs.v ===== *)
(** * Runs of the program

    What [main] does when it cannot select features, and how a run with [--just-binarize]
    and a run on the files it wrote fit together. *)
From Stdlib Require Import Ascii String Reals.
From S2P Require Import Prelude Arith BitOps Cast Getopt Stream XRange PoolReader BinFeatureSet Entropy Cmi Parallel Binarize Grid MedianInBin GridCreator Score PoolWriter Selection Main.

Open Scope Z_scope.

(** ** Runs that fail *)

Section Errors.
  Context {F D : Type} `{!Arith F, !Arith D, !Conv F D}.
  Variables (TryFromString : TString → option D) (max_elements : Z).

(** A run that ends before it has done anything. *)
Definition stopped (r : run) (code : outcome Z) : Prop :=
  r = {| printed := []; written_files := []; exit_code := code |}.

Definition thrown (r : run) : Prop := ∃ e, stopped r (Fail (Throw e)).

Lemma run_read_fails w (options : TOptions F) f : read_input TryFromString max_elements w options = Fail f →
  stopped (run_options TryFromString max_elements w options) (Fail f).
Proof. unfold stopped, run_options. by intros ->. Qed.

Lemma run_read_throws w (options : TOptions F) : is_throw (read_input TryFromString max_elements w options) →
  thrown (run_options TryFromString max_elements w options).
Proof. intros [e He]. exists e. by apply run_read_fails. Qed.

Lemma run_read_code w (options : TOptions F) code : read_input TryFromString max_elements w options = Ret (inl code) →
  stopped (run_options TryFromString max_elements w options) (Ret code).
Proof. unfold stopped, run_options. by intros ->. Qed.

(** Reading a pool by its name. *)
Lemma open_pool w name :
  match input_text w name with
  | None => (inp ← OpenInput w name; ReadPool TryFromString inp) = Fail (Throw EFileError)
  | Some contents =>
      match pool_of TryFromString (lines_of contents) with
      | Some pool => (inp ← OpenInput w name; ReadPool TryFromString inp) = Ret pool
      | None => is_throw (inp ← OpenInput w name; ReadPool TryFromString inp)
      end
  end.
Proof.
  destruct (input_text w name) as [contents|] eqn:Htext; [|by rewrite (OpenInput_fails w name Htext)].
  destruct (OpenInput_ok w name contents Htext) as (inp & Hinp & Hgood & Hrest).
  rewrite Hinp, bind_Ret. unfold ReadPool. pose proof (ReadPool_spec TryFromString 20000 inp Hgood ltac:(lia)) as Hspec.
  by rewrite Hrest in Hspec.
Qed.

(** A text whose lines map the bins, each of them once, and whose numbers fit. *)
Definition maps_bins (text : TString) (m : list Z) : Prop :=
  ∃ ps, mmap map_line (lines_of text) = Ret ps ∧ NoDup ps.*2 ∧ length m = length ps ∧
    ∀ f b, (f, b) ∈ ps → 0 ≤ b ∧ m !! Z.to_nat b = Some f.

Definition small_map (text : TString) : Prop :=
  max_elements < 2 ^ 64 ∧
  ∀ line p, line ∈ lines_of text → map_line line = Ret p → p.1 < 2 ^ 31 ∧ p.2 < max_elements.

Lemma open_map w name text : input_text w name = Some text → small_map text →
  (∀ m, maps_bins text m → (inp ← OpenInput w name; ReadBinToFeatureMap max_elements inp) = Ret m) ∧
  ((∀ m, ¬ maps_bins text m) → is_throw (inp ← OpenInput w name; ReadBinToFeatureMap max_elements inp)).
Proof.
  intros Htext [Hmax Hsmall]. destruct (OpenInput_ok w name text Htext) as (inp & -> & Hgood & <-). rewrite bind_Ret.
  destruct (ReadBinToFeatureMap_spec max_elements inp Hgood Hmax Hsmall) as [Hiff Hend].
  split; [intros m Hm; by apply Hiff|]. intros Hno. destruct Hend as [[m Hm]|]; [|done].
  apply Hiff in Hm. by destruct (Hno m).
Qed.

(** What a run with options for a binarized pool does before it selects. *)
Definition binarized_run_stops (w : world) (pool_name map_name : TString) (r : run) : Prop :=
  match input_text w pool_name with
  | None => stopped r (Fail (Throw EFileError))
  | Some text =>
      match pool_of TryFromString (lines_of text), input_text (input_read w pool_name) map_name with
      | None, _ => thrown r
      | Some _, None => stopped r (Fail (Throw EFileError))
      | Some pool, Some map_text => small_map map_text →
          ((∀ m, ¬ maps_bins map_text m) → thrown r) ∧
          (∀ m, maps_bins map_text m → pool = [] → stopped r (Fail (Undef UDeref)))
      end
  end.

(** The same for a raw pool. *)
Definition raw_run_stops (w : world) (raw : TString) (r : run) : Prop :=
  match input_text w raw with
  | None => stopped r (Fail (Throw EFileError))
  | Some text =>
      match pool_of TryFromString (lines_of text) with
      | None => thrown r
      | Some pool => pool = [] → stopped r (Fail (Undef (UIndex 0 0)))
      end
  end.

Lemma raw_run w (options : TOptions F) raw :
  RawPoolFilename options = Some raw → BinaryPoolFilename options = None → FeatureBinMapFilename options = None →
  raw_run_stops w raw (run_options TryFromString max_elements w options).
Proof.
  intros Hraw Hbin Hmap. pose proof (open_pool w raw) as Hopen. unfold raw_run_stops.
  assert (Hread : read_input TryFromString max_elements w options =
    (pool ← (inp ← OpenInput w raw; ReadPool TryFromString inp);
     r ← BinarizeRawPool pool (border_builder options) (ThreadCount options); Ret (inr r)))
    by (unfold read_input; rewrite Hraw, Hbin, Hmap; by rewrite bind_assoc).
  destruct (input_text w raw) as [text|].
  - destruct (pool_of _ _) as [pool|].
    + intros ->. apply run_read_fails. rewrite Hread, Hopen, bind_Ret. reflexivity.
    + apply run_read_throws. rewrite Hread. by apply is_throw_bind.
  - apply run_read_fails. by rewrite Hread, Hopen.
Qed.

Lemma binarized_run w (options : TOptions F) pool_name map_name :
  RawPoolFilename options = None → BinaryPoolFilename options = Some pool_name →
  FeatureBinMapFilename options = Some map_name →
  binarized_run_stops w pool_name map_name (run_options TryFromString max_elements w options).
Proof.
  intros Hraw Hbin Hmap. pose proof (open_pool w pool_name) as Hopen. unfold binarized_run_stops.
  assert (Hread : read_input TryFromString max_elements w options =
    (pool ← (inp ← OpenInput w pool_name; ReadPool TryFromString inp);
     m ← (inp ← OpenInput (input_read w pool_name) map_name; ReadBinToFeatureMap max_elements inp);
     r ← (front ← vfront pool; label ← BinarizeFeature front (border_builder options);
          features ← BinarizeWithMap (tail pool) m; Ret (feature_set_of_bins label, features));
     Ret (inr r))).
  { unfold read_input, ReadBinarizedPool. rewrite Hraw, Hbin, Hmap. destruct (OpenInput w pool_name) as [inp|]; [|done]. rewrite !bind_Ret.
    destruct (ReadPool TryFromString inp) as [pool|]; [|done]. rewrite !bind_Ret.
    destruct (OpenInput (input_read w pool_name) map_name) as [inp2|]; [|done]. rewrite !bind_Ret.
    by destruct (ReadBinToFeatureMap max_elements inp2). }
  destruct (input_text w pool_name) as [text|].
  - destruct (pool_of _ _) as [pool|].
    + rewrite Hopen, bind_Ret in Hread. destruct (input_text (input_read w pool_name) map_name) as [map_text|] eqn:Hmt.
      * intros Hsmall. destruct (open_map _ _ _ Hmt Hsmall) as [Hok Hbad]. split.
        -- intros Hno. apply run_read_throws. rewrite Hread. by apply is_throw_bind, Hbad.
        -- intros m Hm ->. apply run_read_fails. rewrite Hread, (Hok m Hm). reflexivity.
      * apply run_read_fails. by rewrite Hread, OpenInput_fails.
    + apply run_read_throws. rewrite Hread. by apply is_throw_bind.
  - apply run_read_fails. by rewrite Hread, Hopen.
Qed.

End Errors.


(** ** A pool without features *)

Lemma select_first_no_features n label tc : (0 < n)%nat → Forall (λ bin, length bin = n) label → label ≠ [] → vsize label < 63 →
  select_first (D := R) (feature_set_of_bins label) feature_set_empty tc = Fail (Undef UDeref).
Proof.
  intros Hn Hl Hne Hk. unfold select_first, GetBinWithMaximalMutualInformationWithLabel. cbn [Bins feature_set_of_bins].
  destruct label as [|x l]; [done|]. cbn [vfront]. rewrite bind_Ret.
  assert (Hx : vsize x = Z.of_nat n) by (apply Forall_cons in Hl as [Hx _]; unfold vsize; by rewrite Hx). rewrite Hx.
  destruct (mi_add_bins_spec n [] (x :: l) (mutual_information_calculator (Z.of_nat n)))
    as (c & Hc & _); [apply entropy_calculator_encodes|done|rewrite vsize_nil; lia|]. rewrite Hc, bind_Ret. reflexivity.
Qed.

(** A run on a pool whose only column is the label takes the best of no bins. *)
Lemma main_no_features (TryFromString : TString → option R) (max_elements : Z) (hash : R → Z)
  (pick : list (TFeatureBin R) → nat) (version_code : Z) (w : world) (argv : list TString)
  (threads steps borders : Z) (options : TOptions R) (raw contents : TString) (rows : list (list R)) :
  pick_top pick → Z.of_nat (length argv) < 2 ^ 64 →
  parse_options (D := R) hash pick version_code argv (new_options threads steps borders) = Ret (inl options) →
  BorderCount options < 63 →
  RawPoolFilename options = Some raw → BinaryPoolFilename options = None → FeatureBinMapFilename options = None →
  BinaryPoolOutputFile options = None → input_text w raw = Some contents →
  table TryFromString (lines_of contents) 1 rows → 0 < vsize rows < 2 ^ 31 →
  stopped (main TryFromString max_elements hash pick version_code w argv (new_options threads steps borders))
    (Fail (Undef UDeref)).
Proof.
  intros Hpick Hargc Hparse Hb Hraw Hbin Hmap Hout Htext Htable Hrows.
  destruct (parse_options_valid hash pick version_code argv (new_options threads steps borders) options Hargc eq_refl Hparse)
    as (_ & _ & Hborders & _ & type & Htype).
  destruct (raw_pool_binarized hash pick Hpick options type (transpose 1 rows) 0 (length rows))
    as (label & fs & Hbp & Hfsm & Hne & Hsz & Hlabel & _ & _); [done|lia|unfold vsize in Hrows; lia|unfold vsize in Hrows; lia| | |].
  { apply Forall_forall. intros c [j Hj]%list_elem_of_lookup. by apply (lookup_transpose 1 rows j c 0 (proj2 Htable)). }
  { by apply length_transpose, Htable. }
  pose proof (read_raw_input TryFromString max_elements w options raw contents 1 rows Hraw Hbin Hmap Htext Htable
    ltac:(lia)) as Hread. rewrite Hbp, bind_Ret in Hread. apply nil_length_inv in Hfsm as ->.
  unfold stopped, main. rewrite Hparse. unfold run_options. rewrite Hread, Hout. unfold FastFeatureSelection.
  change (feature_set_of []) with feature_set_empty.
  by rewrite (select_first_no_features (length rows) label _ ltac:(unfold vsize in Hrows; lia) Hlabel Hne ltac:(lia)).
Qed.

(** ** A run that binarizes and a run on its files *)

(** The codes of at most 31 bins are numbers of as many bits. *)
Lemma code_of_small bins i c : vsize bins ≤ 31 → code_of bins i c → 0 ≤ c < 2 ^ 31.
Proof.
  intros Hb [H0 Hc]. apply word_of_bits; [lia|done|]. intros b Hb31. rewrite Hc by lia.
  rewrite lookup_ge_None_2; [done|]. unfold vsize in Hb. lia.
Qed.

Lemma vsize_concat_le (fs : list (list TBin)) k : 0 ≤ k → Forall (λ f, vsize f ≤ k) fs → vsize (concat fs) ≤ vsize fs * k.
Proof.
  intros Hk. induction 1 as [|f fs Hf _ IH]; [done|]. cbn [concat]. rewrite vsize_app, vsize_cons. lia.
Qed.

(** What the program needs of the text of numbers: the text of an [ui64] is a number,
    and exactly that number when it is small. *)
Definition reads_codes (TryFromString : TString → option R) : Prop :=
  ∀ v, code_in_range v → ∃ x, TryFromString (code_text v) = Some x ∧ (v < 2 ^ 31 → x = IZR v).

Section JustBinarize.
  Variables (TryFromString : TString → option R) (max_elements : Z).
  Hypothesis Hreads : reads_codes TryFromString.

Lemma reads_bits b : TryFromString (bit_text b) = Some (IZR (Z.b2z b)) ∧ a_trunc (IZR (Z.b2z b)) = Some (Z.b2z b).
Proof using Hreads.
  split; [|cbn; by rewrite Rtrunc_bit].
  destruct (Hreads (Z.b2z b)) as (x & Hx & Hs); [split; destruct b; cbn; lia|].
  rewrite <- Hs by (destruct b; cbn; lia). rewrite <- Hx. by destruct b.
Qed.

(** The two texts are read back from any files that hold them. *)
Lemma written_pool_read w (options : TOptions R) p mp label fs last codes pool_text map_text :
  UniteLabelBins label = Ret codes → codes ≠ [] → Forall (λ c, 0 ≤ c < 2 ^ 31) codes →
  Forall (λ bin, length bin = length codes) (concat fs) → list.last fs = Some last → last ≠ [] →
  vsize fs < 2 ^ 31 ∧ vsize (concat fs) < 2 ^ 31 ≤ max_elements → max_elements < 2 ^ 64 →
  OutputPool (feature_set_of_bins label) (feature_set_of fs) = Ret pool_text →
  OutputBinFeatureMap (feature_set_of fs) = Ret map_text →
  RawPoolFilename options = None → BinaryPoolFilename options = Some p → FeatureBinMapFilename options = Some mp →
  input_text w p = Some pool_text → input_text (input_read w p) mp = Some map_text →
  read_input TryFromString max_elements w options =
    (label2 ← BinarizeFeature (IZR <$> codes) (border_builder options);
     Ret (inr (feature_set_of_bins label2, feature_set_of fs))).
Proof using Hreads.
  intros Hcodes Hne Hsmall Hbins Hlast Hlne Hsize Hmax Hpt Hmt Hraw Hbin Hmap Hp Hmp.
  destruct (OpenInput_ok w p pool_text Hp) as (s1 & Hs1 & Hg1 & Hr1).
  destruct (OpenInput_ok (input_read w p) mp map_text Hmp) as (s2 & Hs2 & Hg2 & Hr2).
  destruct (just_binarize_roundtrip (S1 := TInput) (S2 := TInput) TryFromString (λ b, IZR (Z.b2z b)) max_elements 20000
    (feature_set_of_bins label) (feature_set_of fs) fs last codes reads_bits) as (pt & mt & Hpt' & Hmt' & Hread);
    [|done|done| |apply rep_feature_set_of|done|done|done|done|done|lia|].
  { intros v Hv. destruct (Hreads v Hv) as (x & Hx & _). by exists x. }
  { apply (Forall_impl _ _ _ Hsmall). intros c Hc. unfold code_in_range. lia. }
  assert (pt = pool_text) as -> by congruence. assert (mt = map_text) as -> by congruence.
  destruct (Hread s1 s2 Hg1 Hr1 Hg2 Hr2) as (column & columns & m & Hrp & Hrm & Hbm & Hlen & Hcol).
  assert (column = IZR <$> codes) as ->.
  { apply list_eq. intros i. rewrite Hcol, list_lookup_fmap. destruct (codes !! i) as [c|] eqn:Hc; [|done]. cbn.
    rewrite Forall_lookup in Hsmall. pose proof (Hsmall i c Hc) as Hs.
    destruct (Hreads c) as (x & Hx & He); [unfold code_in_range; lia|]. by rewrite Hx, He by lia. }
  unfold read_input, ReadBinarizedPool. rewrite Hraw, Hbin, Hmap, Hs1, bind_Ret. unfold ReadPool. rewrite Hrp, bind_Ret.
  rewrite Hs2, bind_Ret, Hrm, bind_Ret. cbn [vfront tail]. rewrite bind_Ret.
  destruct (BinarizeFeature _ _); [|done]. rewrite !bind_Ret. by rewrite Hbm.
Qed.

End JustBinarize.

(** The texts exist when the sizes fit. *)
Lemma written_texts label fs codes :
  UniteLabelBins label = Ret codes → Forall (λ c, 0 ≤ c < 2 ^ 31) codes →
  Forall (λ bin, length bin = length codes) (concat fs) → vsize fs < 2 ^ 31 ∧ vsize (concat fs) < 2 ^ 31 →
  ∃ pool_text map_text, OutputPool (feature_set_of_bins label) (feature_set_of fs) = Ret pool_text ∧
    OutputBinFeatureMap (feature_set_of fs) = Ret map_text.
Proof.
  intros Hcodes Hsmall Hbins [Hs1 Hs2]. pose proof (rep_feature_set_of fs) as Hrep. eexists _, _. split.
  - apply (OutputPool_text _ _ codes); [done| |by rewrite (proj1 Hrep)].
    apply (Forall_impl _ _ _ Hsmall). intros c Hc. unfold code_in_range. lia.
  - apply (OutputBinFeatureMap_text _ fs Hrep); lia.
Qed.

(** A run whose input is a column of the label and a set of features. *)
Lemma selection_run (TryFromString : TString → option R) (max_elements : Z) (hash : R → Z)
  (pick : list (TFeatureBin R) → nat) (Hpick : pick_top pick) (version_code : Z) (w : world) (argv : list TString)
  (threads steps borders : Z) (options : TOptions R) (column : list R) (fs : list (list TBin)) (n m : nat) :
  Z.of_nat (length argv) < 2 ^ 64 →
  parse_options (D := R) hash pick version_code argv (new_options threads steps borders) = Ret (inl options) →
  BorderCount options + 2 * EvalStepCount options < 64 → BinaryPoolOutputFile options = None →
  read_input TryFromString max_elements w options =
    (label ← BinarizeFeature column (border_builder options);
     Ret (inr (feature_set_of_bins label, feature_set_of fs))) →
  (0 < n)%nat → Z.of_nat n < 2 ^ 31 → length column = n → vsize fs = Z.of_nat m - 1 → (2 ≤ m)%nat →
  Forall (λ f, f ≠ []) fs → Forall (λ bin, length bin = n) (concat fs) →
  let count := default (Z.of_nat m - 1) (FeatureCountToSelect options) in
  ∃ label selected,
    BinarizeFeature column (border_builder options) = Ret label ∧
    FastFeatureSelection (D := R) (feature_set_of_bins label) (feature_set_of fs)
      (EvalStepCount options) (ThreadCount options) count = (selected, Ret ()) ∧
    main TryFromString max_elements hash pick version_code w argv (new_options threads steps borders) =
      {| printed := selected; written_files := []; exit_code := Ret 0 |} ∧
    NoDup selected ∧ Forall (λ f, 0 ≤ f < Z.of_nat m - 1) selected ∧ vsize selected = Z.min count (Z.of_nat m - 1).
Proof.
  intros Hargc Hparse Hbudget Hout Hread Hn Hn31 Hcol Hfsz Hm Hfs Hlens count.
  destruct (parse_options_valid hash pick version_code argv (new_options threads steps borders) options Hargc eq_refl Hparse)
    as (_ & Hsteps & Hbpos & Hcount & type & Htype).
  destruct (border_builder_ok hash pick Hpick options type column Htype) as (label & Hlabel & Hne & Hlen & Hsz);
    [lia|by intros ->; cbn in Hcol; lia|unfold vsize; lia|].
  rewrite Hcol in Hlen. rewrite Hlabel, bind_Ret in Hread. pose proof (rep_feature_set_of fs) as Hrep.
  destruct (FastFeatureSelection_spec n fs (feature_set_of_bins label) (feature_set_of fs) (EvalStepCount options)
      (ThreadCount options) count False)
    as (f & l & b & v & Hrun & Hcnt & Hnd & Hrange & _); try done; try (cbn; lia).
  { intros ->. rewrite vsize_nil in Hfsz. lia. }
  exists label, (f :: l). split; [done|]. split; [done|]. rewrite Hfsz in Hrange, Hcnt. split_and!; [|done|done|].
  - unfold main. rewrite Hparse. unfold run_options. rewrite Hread, Hout.
    rewrite (rep_feature_count _ _ Hrep), Hfsz. fold count. by rewrite Hrun.
  - rewrite vsize_cons. unfold vsize. rewrite Hcnt.
    subst count. destruct (FeatureCountToSelect options) as [k|]; cbn in *; [specialize (Hcount k eq_refl)|]; lia.
Qed.

(** C8: a run with [--just-binarize] and a run on the files it wrote.  On a raw pool of at
    least two columns, at most 31 borders and names that can be created, the first run
    prints nothing, writes the pool and its map and ends with exit code 0; and any later
    run, with any options, that reads what was written as its binary pool and map -
    from files or from the standard input - selects from exactly the features of the first
    run, with the label binarized from its codes, and prints as many different ones as it
    is asked for. *)
Theorem main_just_binarizes (TryFromString : TString → option R) (max_elements : Z) (hash : R → Z)
  (pick : list (TFeatureBin R) → nat) (version_code : Z) (w : world) (argv : list TString)
  (threads steps borders : Z) (options : TOptions R) (raw contents pool_name map_name : TString) (m : nat)
  (rows : list (list R))
  (Hpick : pick_top pick) (Hreads : reads_codes TryFromString) (Hargc : Z.of_nat (length argv) < 2 ^ 64)
  (Hparse : parse_options (D := R) hash pick version_code argv (new_options threads steps borders) = Ret (inl options))
  (Hborders : BorderCount options ≤ 31)
  (Hraw : RawPoolFilename options = Some raw)
  (Hbin : BinaryPoolFilename options = None) (Hmap : FeatureBinMapFilename options = None)
  (Hpo : BinaryPoolOutputFile options = Some pool_name) (Hmo : FeatureBinMapOutputFile options = Some map_name)
  (Hcreate : can_create w pool_name = true ∧ can_create w map_name = true)
  (Htext : input_text w raw = Some contents)
  (Htable : table TryFromString (lines_of contents) m rows)
  (Hm : (2 ≤ m)%nat) (Hrows : 0 < vsize rows < 2 ^ 31)
  (Hsize : Z.of_nat m * 31 < 2 ^ 31 ≤ max_elements) (Hmax : max_elements < 2 ^ 64) :
  ∃ label fs codes pool_text map_text,
    BinarizeRawPool (transpose m rows) (border_builder options) (ThreadCount options)
      = Ret (feature_set_of_bins label, feature_set_of fs) ∧
    vsize fs = Z.of_nat m - 1 ∧ UniteLabelBins label = Ret codes ∧
    main TryFromString max_elements hash pick version_code w argv (new_options threads steps borders) =
      {| printed := []; written_files := [(pool_name, pool_text); (map_name, map_text)]; exit_code := Ret 0 |} ∧
    ∀ w2 argv2 threads2 steps2 borders2 options2 p mp,
      Z.of_nat (length argv2) < 2 ^ 64 →
      parse_options (D := R) hash pick version_code argv2 (new_options threads2 steps2 borders2) = Ret (inl options2) →
      BorderCount options2 + 2 * EvalStepCount options2 < 64 →
      RawPoolFilename options2 = None → BinaryPoolFilename options2 = Some p → FeatureBinMapFilename options2 = Some mp →
      BinaryPoolOutputFile options2 = None →
      input_text w2 p = Some pool_text → input_text (input_read w2 p) mp = Some map_text →
      let count := default (Z.of_nat m - 1) (FeatureCountToSelect options2) in
      ∃ label2 selected,
        BinarizeFeature (IZR <$> codes) (border_builder options2) = Ret label2 ∧
        FastFeatureSelection (D := R) (feature_set_of_bins label2) (feature_set_of fs)
          (EvalStepCount options2) (ThreadCount options2) count = (selected, Ret ()) ∧
        main TryFromString max_elements hash pick version_code w2 argv2 (new_options threads2 steps2 borders2) =
          {| printed := selected; written_files := []; exit_code := Ret 0 |} ∧
        NoDup selected ∧ Forall (λ f, 0 ≤ f < Z.of_nat m - 1) selected ∧
        vsize selected = Z.min count (Z.of_nat m - 1).
Proof.
  destruct (parse_options_valid hash pick version_code argv (new_options threads steps borders) options Hargc eq_refl Hparse)
    as (_ & _ & Hbpos & _ & type & Htype).
  set (n := length rows) in *. assert (Hn : (0 < n)%nat ∧ Z.of_nat n < 2 ^ 31) by (unfold vsize in Hrows; lia).
  destruct (raw_pool_binarized hash pick Hpick options type (transpose m rows) (m - 1) n)
    as (label & fs & Hbp & Hfsm & Hne & Hsz & Hlabel & Hfs & Hlens); [done|lia|lia|lia| | |].
  { apply Forall_forall. intros c [j Hj]%list_elem_of_lookup. by apply (lookup_transpose m rows j c 0 (proj2 Htable)). }
  { rewrite (length_transpose m rows (proj2 Htable)). lia. }
  assert (Hfsz : vsize fs = Z.of_nat m - 1) by (unfold vsize; lia).
  destruct (UniteLabelBins_codes label n Hne Hlabel ltac:(lia)) as (codes & Hcodes & Hcn & Hcode).
  assert (Hsmall : Forall (λ c, 0 ≤ c < 2 ^ 31) codes).
  { apply Forall_lookup. intros i c Hc. apply (code_of_small label i); [lia|by apply Hcode]. }
  assert (Hfsb : vsize (concat fs) ≤ vsize fs * 31).
  { apply vsize_concat_le; [done|]. apply (Forall_impl _ _ _ Hfs). intros f [_ Hf]. lia. }
  destruct (written_texts label fs codes Hcodes) as (pool_text & map_text & Hpt & Hmt);
    [done|by rewrite Hcn|lia|].
  assert (Hlast : ∃ last, list.last fs = Some last ∧ last ≠ []).
  { destruct fs as [|f fs'] using rev_ind; [cbn in Hfsm; lia|]. exists f. rewrite last_snoc. split; [done|].
    apply Forall_app in Hfs as [_ Hf]. by apply Forall_cons in Hf as [[? _] _]. }
  destruct Hlast as (last & Hlast & Hlne).
  exists label, fs, codes, pool_text, map_text. split; [done|]. split; [done|]. split; [done|]. split.
  - pose proof (read_raw_input TryFromString max_elements w options raw contents m rows Hraw Hbin Hmap Htext Htable
      ltac:(lia)) as Hread. rewrite Hbp, bind_Ret in Hread.
    unfold main. rewrite Hparse. unfold run_options. rewrite Hread, Hpo, Hmo. unfold write_file.
    destruct Hcreate as [-> ->]. unfold ensure. rewrite !bind_Ret, Hpt, bind_Ret. by rewrite Hmt, bind_Ret.
  - intros w2 argv2 threads2 steps2 borders2 options2 p mp Hargc2 Hparse2 Hbudget Hraw2 Hbin2 Hmap2 Hout2 Hp Hmp count.
    pose proof (written_pool_read TryFromString max_elements Hreads w2 options2 p mp label fs last codes pool_text map_text
      Hcodes ltac:(intros ->; cbn in Hcn; lia) Hsmall ltac:(by rewrite Hcn) Hlast Hlne ltac:(lia) Hmax Hpt Hmt Hraw2 Hbin2
      Hmap2 Hp Hmp) as Hread.
    apply (selection_run TryFromString max_elements hash pick Hpick version_code w2 argv2 threads2 steps2 borders2 options2
      (IZR <$> codes) fs n m); try done; [apply Hn|apply Hn|by rewrite length_fmap|].
    apply (Forall_impl _ _ _ Hfs). by intros f [? _].
Qed.

(** Natural numbers as text meet the assumption. *)
Lemma number_reads_codes : reads_codes (λ t, IZR <$> int_value false 10 t).
Proof.
  intros v Hv. destruct (code_text_ok v Hv) as (_ & Hp & _).
  pose proof (IntFromString_spec t_ui64 10 (code_text v) eq_refl ltac:(lia)) as Hs. rewrite Hp in Hs.
  cbn [is_signed t_ui64] in Hs. exists (IZR v). destruct (int_value false 10 (code_text v)) as [x|]; [|by destruct Hs].
  destruct (in_type t_ui64 x); [|done]. destruct (x =? - 2 ^ 63); [done|]. assert (x = v) as -> by congruence. done.
Qed.

(** Three columns, binarized into two files, and a run on these files for one feature. *)
Lemma main_just_binarizes_witness :
  let number t := IZR <$> int_value false 10 t in
  let contents := STRINGBUF "0	1	5" ++ [10] ++ STRINGBUF "1	2	5" ++ [10] in
  let raw := STRINGBUF "pool.tsv" in
  let pool_name := STRINGBUF "pool.bin" in
  let map_name := STRINGBUF "map.tsv" in
  let w := {| file_contents := λ name, if bool_decide (name = raw) then Some contents else None;
              file_os_reads := λ _, []; standard_input := []; can_create := λ _, true |} in
  let hash : R → Z := λ _, 0 in
  let argv := [STRINGBUF "cmicot"; STRINGBUF "--pool"; raw; STRINGBUF "--just-binarize"; STRINGBUF "pool.bin,map.tsv"] in
  let argv2 := [STRINGBUF "cmicot"; STRINGBUF "--binary-pool"; pool_name; STRINGBUF "--map"; map_name;
                STRINGBUF "--select-count"; STRINGBUF "1"] in
  ∃ pool_text map_text selected,
    main number (2 ^ 31) hash pick_first 1 w argv (new_options 0 0 0) =
      {| printed := []; written_files := [(pool_name, pool_text); (map_name, map_text)]; exit_code := Ret 0 |} ∧
    let w2 := {| file_contents := λ name, if bool_decide (name = pool_name) then Some pool_text
                                          else if bool_decide (name = map_name) then Some map_text else None;
                 file_os_reads := λ _, [3; 1]; standard_input := []; can_create := λ _, false |} in
    main number (2 ^ 31) hash pick_first 1 w2 argv2 (new_options 0 0 0) =
      {| printed := selected; written_files := []; exit_code := Ret 0 |} ∧ vsize selected = 1.
Proof.
  intros number contents raw pool_name map_name w hash argv argv2.
  pose (binarizer := binarizer_of (D := R) hash pick_first UniformAndQuantiles).
  pose (options := Build_TOptions R 8 6 (Some raw) None None (Some pool_name) (Some map_name) None (Some binarizer) 10).
  pose (options2 := Build_TOptions R 8 6 None (Some pool_name) (Some map_name) None None (Some 1) (Some binarizer) 10).
  assert (Hparse : parse_options (D := R) hash pick_first 1 argv (new_options 0 0 0) = Ret (inl options)) by reflexivity.
  assert (Hparse2 : parse_options (D := R) hash pick_first 1 argv2 (new_options 0 0 0) = Ret (inl options2)) by reflexivity.
  assert (Htable : table number (lines_of contents) 3 [[0; 1; 5]; [1; 2; 5]]%R)
    by (split; [reflexivity|by repeat constructor]).
  destruct (main_just_binarizes number (2 ^ 31) hash pick_first 1 w argv 0 0 0 options raw contents pool_name map_name 3
    [[0; 1; 5]; [1; 2; 5]]%R pick_first_top number_reads_codes ltac:(cbn; lia) Hparse ltac:(cbn; lia) eq_refl eq_refl eq_refl
    eq_refl eq_refl (conj eq_refl eq_refl) eq_refl Htable ltac:(lia) (conj eq_refl eq_refl) ltac:(lia) ltac:(lia))
    as (label & fs & codes & pool_text & map_text & _ & _ & _ & Hrun & Hread).
  destruct (Hread {| file_contents := λ name, if bool_decide (name = pool_name) then Some pool_text
                       else if bool_decide (name = map_name) then Some map_text else None;
                     file_os_reads := λ _, [3; 1]; standard_input := []; can_create := λ _, false |}
    argv2 0 0 0 options2 pool_name map_name ltac:(cbn; lia) Hparse2 ltac:(cbn; lia) eq_refl eq_refl eq_refl eq_refl eq_refl eq_refl)
    as (label2 & selected & _ & _ & Hrun2 & _ & _ & Hsz).
  exists pool_text, map_text, selected. split; [exact Hrun|]. split; [exact Hrun2|exact Hsz].
Defined.
